(* ===== verification/_CoqProject ===== *)
-Q . S2P
Prelude.v
Geth.v
Encoding.v
Errors.v
Node.v
Decode.v
Mpt.v
MptFacts.v
Tracer.v
Reader.v
Trie.v
Repr.v
Refine.v
Hasher.v
TrieSpec.v
NodeSet.v
Committer.v
Database.v
Persist.v
FlushList.v
AccessList.v
StateOps.v
Prefetcher.v
PrefetcherSpec.v
PrefetcherTasks.v
StateData.v
StateObject.v
StateDB.v
StateView.v
StateReads.v
Revert.v
Undo.v
Snapshot.v
Frame.v
Iterator.v
SetIterators.v
Walk.v
IteratorSpec.v
Seek.v
Entries.v
DifferenceSpec.v
Heap.v
UnionSpec.v
Proof.v
ProofSpec.v
SecureTrie.v
CachingDB.v
StateRoot.v
FinaliseSpec.v
RootReads.v
Settled.v
CopySpec.v
ForEach.v
LeafData.v
LeafDatabase.v
LeafObject.v
LeafDB.v
LeafSim.v
LeafReads.v
LeafObjects.v
LeafOps.v
LeafSpec.v
LeafFinalise.v
StateWitness.v
LeafWitness.v
