(* ===== verification/Prelude.v ===== *)
(** * ipld-eth-statedb: a verification library

    The repository is go-ethereum's state database reworked to read its data
    from content-addressed (IPLD) blocks.  [trie_by_cid/trie] is the Merkle
    Patricia trie with its in-memory database, [trie_by_cid/state] the [StateDB]
    the EVM runs on, over those tries; [direct_by_leaf] is the same [StateDB]
    over SQL tables of trie leaves.

    ** The model

    Code is translated function by function, under its own name where that is
    free.  A byte is a [Z]; a Go [map] is a [gmap]; [result] (this file) is what
    a call produces: a value, a Go error, a panic, or [OutOfFuel]; [stateM]
    threads the receiver's state through a method and keeps the changes made
    before an error.  Where Go iterates a map, the order is the parameter [range]
    (StateOps.v), any permutation of the entries; where it starts goroutines,
    the order is a schedule.  Loops over tries take fuel: [fuel_for], twice the
    length of the key and two more, because a node consumes a nibble of the key
    or is loaded; the theorems about [Trie] show that it never runs out.
    [log.Error] calls and metrics are left out.

    Third-party code (rlp, Keccak-256, common, lru, fastcache, the block store,
    snapshots) is a set of classes in Geth.v, with the laws the proofs use.
    [Geth.Standin] satisfies them all by functions one can evaluate; the
    witnesses run on it.

    ** The trie package

    - Encoding.v: encoding.go.  Key encodings, their round trips, the panics on
      inputs of the wrong shape, and the in-place encoder against the reference.
    - Errors.v, Node.v: node.go, node_enc.go.  The seven node types, the encoder
      and the decoder with every error it reports; Decode.v shows that the decoder
      is total on any bytes and what it can return.
    - Tracer.v, Reader.v: tracer.go, trie_reader.go, trie_id.go.
    - Trie.v: trie.go and [Get], [Update], [Delete], [New] with lazily resolved
      hash nodes, the dirty flags and the tracer.
    - Hasher.v: hasher.go, sequential and parallel.
    - NodeSet.v, Committer.v: nodeset.go, committer.go and [Trie.Commit].
    - Database.v: database.go, database_node.go, preimages.go and
      internal/util.go: the reference-counted dirty nodes, the flush list, the
      clean cache, reads through CIDs.
    - Proof.v, SecureTrie.v: proof.go, secure_trie.go.  ProofSpec.v shows that a
      proof proves: a checker that knows the root hash reads off it what the map
      holds, and off no database of preimages anything else.
    - Iterator.v, SetIterators.v: iterator.go, the node and key/value iterators,
      then the difference and the union of iterators.

    The specification is Mpt.v: canonical trees, the map a tree stands for, and
    its encoding and root, with no cache, store or fuel; MptFacts.v shows that a
    tree is determined by its map.  Repr.v relates nodes in memory to trees,
    Refine.v shows that the code refines the tree operations, TrieSpec.v states
    it as a refinement of finite maps, missing nodes included; Persist.v covers
    commit, insertion in the database and reopening.  FlushList.v states the
    doubly-linked flush list of the database and that insertion appends to it.

    For the iterators the specification is Walk.v, the pre-order list of the
    nodes of a tree with their paths, and what of it has a path from a given one
    on.  IteratorSpec.v relates the stack of a [nodeIterator] to the rest of
    that list and proves one step; Seek.v proves [seek] and [Next], Entries.v
    that the loop over [Iterator] returns the entries of the map in order and
    ends, DifferenceSpec.v the difference of two tries, UnionSpec.v the union of
    any number of them, over Heap.v, the facts on container/heap.  [seek] is given the
    length of its key and three more as fuel, a loop over [Next] the number of
    nodes and one more, a heap operation the size of the heap.

    ** The state package

    - AccessList.v: access_list.go and transient_storage.go.
    - StateOps.v: the interfaces of database.go with their laws, and the two
      choices the language leaves open, map iteration and scheduling.
    - Prefetcher.v: trie_prefetcher.go.  A subfetcher is a state machine whose
      moves are the cases of its [select]s; its owner runs interleaved with it,
      and [choose] makes every choice.  Waiting takes at most [turns] moves.
    - StateData.v, StateObject.v, StateDB.v: the records, state_object.go, and
      statedb.go with journal.go.
    - CachingDB.v: database.go, as an instance of the interfaces the [StateDB] is
      parameterised by; their laws are proved of it.

    PrefetcherSpec.v shows that a prefetcher never fails or deadlocks and only
    hands out tries the database would open; PrefetcherTasks.v that a goroutine
    left alone loads what it was asked for, and which tasks can be lost.
    StateView.v defines what can be observed of a [StateDB] and the equivalence
    [same] of states that show the same; StateReads.v shows that the getters
    answer it and change nothing.  Revert.v and Undo.v show that every operation
    is undone by the journal entries it appends, Snapshot.v lifts that to
    [RevertToSnapshot] after any sequence of EVM operations.  StateRoot.v proves
    the root [IntermediateRoot] returns, FinaliseSpec.v what every question is
    answered after [Finalise], RootReads.v that computing a root changes no answer
    and can be repeated.  Settled.v is the invariant that says which objects
    in memory can be read again, CopySpec.v that a [Copy] answers as the original
    and what it can miss.  StateWitness.v runs the theorems on the repository's
    own database.

    ForEach.v: [StateTrie.NodeIterator] and [StateDB.ForEachStorage] with its
    specification.  Its loops take the number of nodes and of slots as fuel.

    ** The package direct_by_leaf

    - LeafData.v, LeafObject.v, LeafDB.v: the records, state_object.go, and
      statedb.go with journal.go.  The names are those of the state package,
      qualified by the file.  access_list.go and transient_storage.go are the
      files of trie_by_cid/state, so AccessList.v models both.
    - LeafDatabase.v: state_database.go and sql.go as an instance of the interface
      [LeafDatabaseOps], with the SQL engine as a parameter.

    The contract of this StateDB is that of trie_by_cid/state.  LeafSim.v relates
    the states of the two over tables and tries that agree; Frame.v shows what the
    operations of the one side leave alone; LeafReads.v, LeafObjects.v and
    LeafOps.v show that related states answer alike and stay related under every
    operation, journal and reverts included; LeafSpec.v draws the conclusions.
    They hold within a transaction: LeafFinalise.v specifies [Finalise] and shows
    how the two packages part afterwards.  LeafWitness.v runs both on a contract.

    ** Not modelled

    Metrics, String methods and the SQL drivers, which are input and output only;
    the verifiers of proofs are those of go-ethereum.  The callback of
    [ForEachStorage] is a function of the caller's own state. *)
From Stdlib Require Export Sorted.
From stdpp Require Export base tactics numbers list option strings gmap.

(** ** Bytes *)

(** A Go [byte] is a [Z] in [0, 256); a byte slice (or a Go string used as a
    map key) is the list of its bytes. *)
Abbreviation bytes := (list Z).

Definition is_byte (b : Z) : Prop := (0 ≤ b < 256)%Z.
Definition is_nibble (b : Z) : Prop := (0 ≤ b < 16)%Z.

#[export] Instance is_byte_dec b : Decision (is_byte b).
Proof. unfold is_byte. apply _. Defined.
#[export] Instance is_nibble_dec b : Decision (is_nibble b).
Proof. unfold is_nibble. apply _. Defined.

(** [uint8] and [uint16] conversions. *)
Definition u8 (z : Z) : Z := Z.land z 255.
Definition u16 (z : Z) : Z := (z mod 65536)%Z.

(** A byte used as an array index. *)
Definition nib (x : Z) : nat := Z.to_nat x.

(** ** Outcomes of Go calls *)

(** What a call produces: a value, a returned error, a panic, or (for the
    functions that recurse through the store) the end of the fuel. *)
Inductive outcome (E A : Type) : Type :=
| Ok (a : A)
| Err (e : E)
| Panic (why : string)
| OutOfFuel.
Arguments Ok {_ _} _.
Arguments Err {_ _} _.
Arguments Panic {_ _} _.
Arguments OutOfFuel {_ _}.

#[export] Instance outcome_ret E : MRet (outcome E) := λ A a, Ok a.
#[export] Instance outcome_bind E : MBind (outcome E) := λ A B f m,
  match m with
  | Ok a => f a
  | Err e => Err e
  | Panic w => Panic w
  | OutOfFuel => OutOfFuel
  end.

(** Computations that thread a state which survives errors and panics. *)
Definition stateM (S E A : Type) : Type := S → S * outcome E A.

#[export] Instance stateM_ret S E : MRet (stateM S E) := λ A a s, (s, Ok a).
#[export] Instance stateM_bind S E : MBind (stateM S E) := λ A B f m s,
  match m s with
  | (s', Ok a) => f a s'
  | (s', Err e) => (s', Err e)
  | (s', Panic w) => (s', Panic w)
  | (s', OutOfFuel) => (s', OutOfFuel)
  end.

Definition lift {S E A} (o : outcome E A) : stateM S E A := λ s, (s, o).
Definition modify {S E} (f : S → S) : stateM S E unit := λ s, (f s, Ok tt).

(** A slice or array read: out of range panics. *)
Definition index {E A} (l : list A) (i : nat) : outcome E A :=
  match l !! i with
  | Some a => Ok a
  | None => Panic "index out of range"
  end.

(** An array write: out of range panics. *)
Definition assign {E A} (l : list A) (i : nat) (a : A) : outcome E (list A) :=
  if bool_decide (i < length l) then Ok (<[i := a]> l) else Panic "index out of range".

(** A loop over [l] that threads a state and stops at the first failure. *)
Fixpoint foldM {E A S} (f : A → S → outcome E S) (l : list A) (s : S) : outcome E S :=
  match l with
  | [] => Ok s
  | a :: l => s ← f a s; foldM f l s
  end.

(** Read a part of the threaded state. *)
Definition gets {S E A} (f : S → A) : stateM S E A := λ s, (s, Ok (f s)).

(** A [for] loop whose body only has effects. *)
Fixpoint iterM {S E A} (f : A → stateM S E unit) (l : list A) : stateM S E unit :=
  match l with
  | [] => mret tt
  | a :: l => _ ← f a; iterM f l
  end.

(** Record update: given [eta r], the record [r] rebuilt from its fields,
    [update_field eta proj f r] is [r] with the field [proj] mapped through [f]. *)
Ltac update_field eta proj f r :=
  let e := eval unfold eta in eta in
  lazymatch eval pattern proj in e with
  | ?g _ => let t := eval cbv beta in (g (λ x, f (proj x)) r) in exact t
  end.

Create HintDb s2r.

#[global] Arguments Nat.div : simpl never.
#[global] Arguments Nat.odd : simpl never.
#[global] Arguments Nat.even : simpl never.
#[global] Arguments Z.div : simpl never.
#[global] Arguments Z.modulo : simpl never.
#[global] Arguments Z.shiftl : simpl never.
#[global] Arguments Z.lor : simpl never.
#[global] Arguments Z.land : simpl never.

(** Reduce the monadic structure only, leaving the called functions folded. *)
Ltac mred :=
  cbv beta match delta [mbind outcome_bind mret outcome_ret stateM_bind stateM_ret lift modify fst snd].

(** ** Lists *)

(** Conjunction over a list, as a function, for recursive definitions on
    nested types. *)
Definition allP {A} (P : A → Prop) : list A → Prop :=
  fix go l := match l with [] => True | x :: l => P x ∧ go l end.

Lemma allP_Forall {A} (P : A → Prop) l : allP P l ↔ Forall P l.
Proof. induction l; simpl; [|rewrite Forall_cons, <- IHl]; intuition. Qed.

(** The number of occupied slots of a list of options. *)
Fixpoint occupied {A} (l : list (option A)) : nat :=
  match l with [] => 0 | Some _ :: l => S (occupied l) | None :: l => occupied l end.

Lemma occupied_one {A} (l : list (option A)) :
  1 ≤ occupied l → ∃ i a, l !! i = Some (Some a).
Proof.
  induction l as [|[a|] l IH]; simpl; intros Hl; [lia|by exists 0, a|].
  destruct (IH Hl) as (i & a & Hi). by exists (S i), a.
Qed.

Lemma occupied_two {A} (l : list (option A)) :
  2 ≤ occupied l →
  ∃ i j a b, i ≠ j ∧ l !! i = Some (Some a) ∧ l !! j = Some (Some b).
Proof.
  induction l as [|[a|] l IH]; simpl; intros Hl; [lia| |].
  - destruct (occupied_one l) as (j & b & Hj); [lia|]. by exists 0, (S j), a, b.
  - destruct (IH Hl) as (i & j & a & b & Hij & Hi & Hj).
    exists (S i), (S j), a, b. auto.
Qed.

Lemma occupied_zero {A} (l : list (option A)) i a :
  occupied l = 0 → l !! i ≠ Some (Some a).
Proof.
  revert i. induction l as [|[b|] l IH]; intros [|i]; simpl; try done; auto.
Qed.

Lemma occupied_insert_Some {A} (l : list (option A)) i a :
  i < length l →
  occupied (<[i:=Some a]> l) = occupied l + match l !! i with Some (Some _) => 0 | _ => 1 end.
Proof.
  revert i. induction l as [|[b|] l IH]; intros [|i] Hi; simpl in *; try lia;
    rewrite IH by lia; done.
Qed.

Lemma occupied_insert_None {A} (l : list (option A)) i :
  occupied l = occupied (<[i:=None]> l) + match l !! i with Some (Some _) => 1 | _ => 0 end.
Proof.
  revert i. induction l as [|[b|] l IH]; intros [|i]; simpl in *; try lia;
    by rewrite (IH i).
Qed.

Lemma occupied_replicate {A} n : occupied (replicate n (@None A)) = 0.
Proof. by induction n. Qed.

Lemma list_alter_insert {A} (f : A → A) (i : nat) (l : list A) x :
  l !! i = Some x → alter f i l = <[i := f x]> l.
Proof.
  revert i. induction l as [|y l IH]; intros [|i] Hi; simpl in *; simplify_eq; [done|].
  f_equal. by apply IH.
Qed.

Lemma occupied_unique {A} (l : list (option A)) i j a b :
  occupied l ≤ 1 → l !! i = Some (Some a) → l !! j = Some (Some b) → i = j.
Proof.
  intros Ho Hi Hj. destruct (decide (i = j)) as [|Hne]; [done|]. exfalso.
  rewrite (occupied_insert_None l i), Hi in Ho.
  apply (occupied_zero (<[i:=None]> l) j b); [lia|]. by rewrite list_lookup_insert_ne.
Qed.

Lemma length_concat_elem {A} (x : list A) ls : x ∈ ls → length x ≤ length (concat ls).
Proof.
  induction ls as [|y ls IH]; [by intros ?%not_elem_of_nil|].
  intros [->|Hx%IH]%elem_of_cons; simpl; rewrite length_app; lia.
Qed.

Lemma assign_ok {E A} (l : list A) i a : i < length l → @assign E A l i a = Ok (<[i := a]> l).
Proof. intros. unfold assign. by rewrite bool_decide_true. Qed.

(** A loop whose steps commute gives the same state in every order. *)
Lemma foldM_perm {E A S} (f : A → S → outcome E S) l l' s s' :
  (∀ i j s0 s1 s2, i ≠ j → f i s0 = Ok s1 → f j s1 = Ok s2 →
     ∃ s1', f j s0 = Ok s1' ∧ f i s1' = Ok s2) →
  EqDecision A → l ≡ₚ l' → foldM f l s = Ok s' → foldM f l' s = Ok s'.
Proof.
  intros Hc Hdec Hp. revert s s'.
  induction Hp as [|a l l' _ IH|a b l|l l' l'' _ IH1 _ IH2]; intros s s' Hf; simpl in *.
  - done.
  - destruct (f a s); simpl in *; try done. auto.
  - destruct (f b s) as [s1| | |] eqn:Eb; try done. simpl in Hf.
    destruct (f a s1) as [s2| | |] eqn:Ea; try done.
    destruct (decide (a = b)) as [->|Hne]; [by rewrite Eb; simpl; rewrite Ea|].
    destruct (Hc b a s s1 s2) as (s1' & E1 & E2); [done..|].
    rewrite E1. simpl. by rewrite E2.
  - auto.
Qed.

(** Two computations that succeed together can be exchanged in a bind. *)
Lemma bind_Ok_ext {E A B} (m m' : outcome E A) (f : A → outcome E B) r :
  (∀ a, m = Ok a ↔ m' = Ok a) → m ≫= f = Ok r ↔ m' ≫= f = Ok r.
Proof.
  intros Hm. split; intros Hr.
  - destruct m as [a| | |]; try done. by rewrite (proj1 (Hm a) eq_refl).
  - destruct m' as [a| | |]; try done. by rewrite (proj2 (Hm a) eq_refl).
Qed.

(** A list of witnesses for a bounded family of existentials. *)
Lemma list_choose {A} (P : nat → A → Prop) n :
  (∀ i, i < n → ∃ a, P i a) → ∃ l, length l = n ∧ ∀ i a, l !! i = Some a → P i a.
Proof.
  induction n as [|n IH]; intros HP; [by exists []|].
  destruct IH as (l & Hl & Hi); [auto with lia|]. destruct (HP n) as [a Ha]; [lia|].
  exists (l ++ [a]). rewrite length_app. split; [simpl; lia|]. intros i b Hb.
  apply lookup_app_Some in Hb as [Hb|[Hle Hb]]; [auto|].
  apply list_lookup_singleton_Some in Hb as [E <-]. by replace i with n by lia.
Qed.

Lemma list_insert_middle {A} (l r : list A) x y i :
  i = length l → <[i := y]> (l ++ x :: r) = l ++ y :: r.
Proof. intros ->. by rewrite insert_app_r_alt, Nat.sub_diag. Qed.

(** A step of a state-threading computation. *)
Lemma bind_step {S E A B} (m : stateM S E A) (f : A → stateM S E B) s s' a :
  m s = (s', Ok a) → (m ≫= f) s = f a s'.
Proof. intros Hm. unfold mbind, stateM_bind. by rewrite Hm. Qed.

Lemma lift_step {S E A B} (a : A) (f : A → stateM S E B) s : (lift (Ok a) ≫= f) s = f a s.
Proof. done. Qed.

(** ** Filtered association lists *)

Lemma list_filter_ext {A} (P Q : A → Prop) `{∀ x, Decision (P x), ∀ x, Decision (Q x)} (l : list A) :
  (∀ x, x ∈ l → P x ↔ Q x) → filter P l = filter Q l.
Proof.
  induction l as [|x l IH]; intros HPQ; [done|]. rewrite !filter_cons, IH by set_solver.
  specialize (HPQ x ltac:(set_solver)). by destruct (decide (P x)), (decide (Q x)); tauto.
Qed.

Lemma elem_of_filter_fmap {A B} (f : A → B) (P : A → Prop) `{∀ x, Decision (P x)} (l : list A) b :
  b ∈ f <$> filter P l → b ∈ f <$> l.
Proof. rewrite !list_elem_of_fmap. setoid_rewrite list_elem_of_filter. naive_solver. Qed.

Lemma NoDup_filter_fmap {A B} (f : A → B) (P : A → Prop) `{∀ x, Decision (P x)} (l : list A) :
  NoDup (f <$> l) → NoDup (f <$> filter P l).
Proof.
  induction l as [|x l IH]; [done|]. rewrite fmap_cons, NoDup_cons. intros [Hx Hl].
  rewrite filter_cons. case_decide; [|by apply IH]. rewrite fmap_cons, NoDup_cons. split; [|by apply IH].
  by intros Hin%elem_of_filter_fmap.
Qed.

Lemma list_filter_all {A} (P : A → Prop) `{∀ x, Decision (P x)} (l : list A) :
  Forall P l → filter P l = l.
Proof. induction 1 as [|x l Hx _ IH]; [done|]. by rewrite filter_cons, decide_True, IH. Qed.

Lemma list_filter_none {A} (P : A → Prop) `{∀ x, Decision (P x)} (l : list A) :
  Forall (λ x, ¬ P x) l → filter P l = [].
Proof. induction 1 as [|x l Hx _ IH]; [done|]. by rewrite filter_cons, decide_False, IH. Qed.

Lemma forallb_elements {A} `{Countable A} (f : A → bool) (X : gset A) :
  forallb f (elements X) = true → ∀ a, a ∈ X → f a = true.
Proof.
  rewrite forallb_forall. intros HX a Ha. by apply HX, list_elem_of_In, elem_of_elements.
Qed.

(** A Go error kept as a value. *)
Definition catch {E A} (o : outcome E A) : outcome E (A + E) :=
  match o with
  | Ok a => Ok (inl a)
  | Err e => Ok (inr e)
  | Panic w => Panic w
  | OutOfFuel => OutOfFuel
  end.

(** ** The order of byte strings *)

(** [bytes.Compare], which is also the order of Go strings. *)
Fixpoint bytes_compare (a b : bytes) : comparison :=
  match a, b with
  | [], [] => Eq
  | [], _ :: _ => Lt
  | _ :: _, [] => Gt
  | x :: a, y :: b => match (x ?= y)%Z with Eq => bytes_compare a b | c => c end
  end.
Definition bytes_lt (a b : bytes) : Prop := bytes_compare a b = Lt.

#[export] Instance bytes_lt_dec a b : Decision (bytes_lt a b).
Proof. unfold bytes_lt. apply _. Defined.

Lemma bytes_compare_app p a b : bytes_compare (p ++ a) (p ++ b) = bytes_compare a b.
Proof. induction p as [|x p IH]; simpl; [done|]. by rewrite Z.compare_refl. Qed.

Lemma bytes_compare_refl a : bytes_compare a a = Eq.
Proof. induction a as [|x a IH]; simpl; [done|]. by rewrite Z.compare_refl. Qed.

Lemma bytes_compare_eq a b : bytes_compare a b = Eq → a = b.
Proof.
  revert b. induction a as [|x a IH]; intros [|y b]; simpl; try done.
  destruct (Z.compare_spec x y) as [->| |]; try done. intros E. by rewrite (IH b E).
Qed.

Lemma bytes_compare_antisym a b : bytes_compare b a = CompOpp (bytes_compare a b).
Proof.
  revert b. induction a as [|x a IH]; intros [|y b]; simpl; try done.
  rewrite (Z.compare_antisym x y). destruct (x ?= y)%Z; simpl; [apply IH|done..].
Qed.

Lemma bytes_lt_cons x y a b :
  bytes_lt (x :: a) (y :: b) ↔ (x < y)%Z ∨ (x = y ∧ bytes_lt a b).
Proof.
  unfold bytes_lt. simpl. destruct (Z.compare_spec x y); split; naive_solver lia.
Qed.

Lemma bytes_lt_nil_l b : bytes_lt [] b ↔ b ≠ [].
Proof. unfold bytes_lt. by destruct b. Qed.

Lemma bytes_lt_nil_r a : ¬ bytes_lt a [].
Proof. unfold bytes_lt. by destruct a. Qed.

#[export] Instance bytes_lt_strict : StrictOrder bytes_lt.
Proof.
  split.
  - intros a. unfold bytes_lt, complement. by rewrite bytes_compare_refl.
  - intros a. induction a as [|x a IH]; intros [|y b] [|z c]; try done.
    rewrite !bytes_lt_cons. intros [?|[-> Hab]] [?|[-> Hbc]]; [left; lia|by left|by left|right].
    split; [done|by eapply IH].
Qed.

(** A string is before its extensions. *)
Lemma bytes_lt_app p a : a ≠ [] → bytes_lt p (p ++ a).
Proof. intros Ha. unfold bytes_lt. rewrite <- (app_nil_r p) at 1. rewrite bytes_compare_app. by destruct a. Qed.

Lemma bytes_lt_app_l p a b : bytes_lt (p ++ a) (p ++ b) ↔ bytes_lt a b.
Proof. unfold bytes_lt. by rewrite bytes_compare_app. Qed.

Definition bytes_le (a b : bytes) : bool := match bytes_compare a b with Gt => false | _ => true end.

Lemma bytes_le_lt a b : bytes_le a b = true ↔ a = b ∨ bytes_lt a b.
Proof.
  unfold bytes_le, bytes_lt. destruct (bytes_compare a b) eqn:E; split; try done.
  - intros _. left. by apply bytes_compare_eq.
  - intros _. by right.
  - intros [->|?]; [|done]. by rewrite bytes_compare_refl in E.
Qed.

Lemma bytes_le_refl a : bytes_le a a = true.
Proof. apply bytes_le_lt. by left. Qed.

Lemma bytes_le_trans a b c : bytes_le a b = true → bytes_le b c = true → bytes_le a c = true.
Proof. rewrite !bytes_le_lt. intros [->|?] [->|?]; auto. right. by etrans. Qed.

Lemma bytes_le_total a b : bytes_le a b = true ∨ bytes_le b a = true.
Proof.
  unfold bytes_le. rewrite (bytes_compare_antisym a b).
  destruct (bytes_compare a b); simpl; auto.
Qed.

Lemma bytes_le_antisym a b : bytes_le a b = true → bytes_le b a = true → a = b.
Proof.
  rewrite !bytes_le_lt. intros [->|?] [?|?]; try done. by destruct (irreflexivity bytes_lt a); etrans.
Qed.

Lemma bytes_le_prefix a b : a `prefix_of` b → bytes_le a b = true.
Proof.
  intros [r ->]. apply bytes_le_lt. destruct r as [|x r]; [left; by rewrite app_nil_r|].
  right. by apply bytes_lt_app.
Qed.

(** An element of a sorted list is related to every later one. *)
Lemma strongly_sorted_lookup {A} (R : A → A → Prop) l i j x y :
  StronglySorted R l → l !! i = Some x → l !! j = Some y → i < j → R x y.
Proof.
  intros Hs. revert i j. induction Hs as [|a l Hs IH Hf]; intros i j Hi Hj Hij; [done|].
  destruct j as [|j]; [lia|]. simpl in Hj. destruct i as [|i]; [|by apply (IH i j); [..|lia]].
  injection Hi as ->. rewrite Forall_lookup in Hf. by eapply Hf.
Qed.
