(* ===== verification/Geth.v ===== *)
(** * Interfaces of the third-party code the repository calls

    go-ethereum's [rlp] package, its Keccak-256 hasher and the [common]/[types]
    helpers are not part of the repository: they are class parameters, and what
    the code relies on is stated as laws.  The module [Standin] at the end gives
    concrete functions that satisfy the laws; only the witnesses use it. *)
From S2P Require Import Prelude.
Local Open Scope Z_scope.

(** ** package rlp *)

(** [rlp.Kind]: what [rlp.Split] says of the first value. *)
Inductive Kind := KByte | KString | KList.

#[export] Instance Kind_eq_dec : EqDecision Kind.
Proof. solve_decision. Defined.

Class RlpOps := {
  (** [EncoderBuffer.WriteBytes]: the encoding of a byte string. *)
  rlp_WriteBytes : bytes → bytes;
  (** [EncoderBuffer.List] ... [ListEnd] around an already encoded payload. *)
  rlp_List : bytes → bytes;
  (** [rlp.Split]: kind, content and the bytes after the first value. *)
  rlp_Split : bytes → option (Kind * bytes * bytes);
  (** [rlp.SplitList] and [rlp.SplitString]: content and rest. *)
  rlp_SplitList : bytes → option (bytes * bytes);
  rlp_SplitString : bytes → option (bytes * bytes);
  (** [rlp.CountValues]: the first result (0 on error). *)
  rlp_CountValues : bytes → Z
}.

(** [rlp.EmptyString], the encoding of the empty string. *)
Definition rlp_EmptyString `{RlpOps} : bytes := rlp_WriteBytes [].

(** One encoded value: a string, or a list around any payload. *)
Inductive rlp_item := RStr (s : bytes) | RList (payload : bytes).
Definition rlp_item_enc `{RlpOps} (i : rlp_item) : bytes :=
  match i with RStr s => rlp_WriteBytes s | RList p => rlp_List p end.

(** A single byte below 0x80 is its own encoding. *)
Definition rlp_string_kind (s : bytes) : Kind :=
  match s with
  | [b] => if bool_decide (0 ≤ b < 128) then KByte else KString
  | _ => KString
  end.

(** The documented behaviour: splitting an encoding gives back what was
    encoded, whatever follows it. *)
Class RlpLaws `{RlpOps} := {
  rlp_Split_string s rest :
    rlp_Split (rlp_WriteBytes s ++ rest) = Some (rlp_string_kind s, s, rest);
  rlp_Split_list p rest :
    rlp_Split (rlp_List p ++ rest) = Some (KList, p, rest);
  rlp_SplitList_list p rest :
    rlp_SplitList (rlp_List p ++ rest) = Some (p, rest);
  rlp_SplitString_string s rest :
    rlp_SplitString (rlp_WriteBytes s ++ rest) = Some (s, rest);
  rlp_CountValues_items items :
    rlp_CountValues (concat (rlp_item_enc <$> items)) = Z.of_nat (length items);
  rlp_List_length p : (length p < length (rlp_List p))%nat
}.

(** Splitting returns the first value's content and what follows it as
    subslices of the input; a list has a header. *)
Class RlpSlices `{RlpOps} := {
  rlp_Split_slices b k c r :
    rlp_Split b = Some (k, c, r) → ∃ pre, b = pre ++ c ++ r ∧ (k = KList → pre ≠ []);
  rlp_SplitList_Split b c r : rlp_SplitList b = Some (c, r) → rlp_Split b = Some (KList, c, r);
  rlp_SplitString_Split b c r :
    rlp_SplitString b = Some (c, r) → ∃ k, rlp_Split b = Some (k, c, r) ∧ k ≠ KList
}.

(** ** packages crypto, common and core/types *)

Class CryptoOps := {
  (** Keccak-256, as [hasher.hashData] and [crypto.Keccak256Hash] use it. *)
  keccak256 : bytes → bytes;
  (** [common.BytesToHash]: crop or left-pad to 32 bytes. *)
  BytesToHash : bytes → bytes;
  (** [types.EmptyRootHash] and [types.EmptyCodeHash]. *)
  EmptyRootHash : bytes;
  EmptyCodeHash : bytes
}.

Definition hashLen : nat := 32.

(** [common.Hash{}]: the zero hash. *)
Definition zeroHash : bytes := replicate hashLen 0.

Class CryptoLaws `{CryptoOps} := {
  keccak256_length b : length (keccak256 b) = hashLen;
  keccak256_bytes b : Forall is_byte (keccak256 b);
  BytesToHash_id b : length b = hashLen → BytesToHash b = b;
  BytesToHash_nil : BytesToHash [] = zeroHash;
  EmptyRootHash_length : length EmptyRootHash = hashLen;
  EmptyRootHash_nonzero : EmptyRootHash ≠ zeroHash;
  EmptyCodeHash_length : length EmptyCodeHash = hashLen
}.

(** ** ethdb, fastcache, go-cid and multihash *)

Class DiskOps := {
  disk : Type;
  (** [Get] of the key-value store: [None] is an error. *)
  disk_Get : disk → bytes → option bytes;
  (** [rawdb.ReadPreimage]. *)
  ReadPreimage : disk → bytes → option bytes;
  (** [multihash.Encode(h, KECCAK_256)]: [None] is an error. *)
  multihash_Encode : bytes → option bytes;
  (** [cid.NewCidV1(codec, mh)], as bytes. *)
  NewCidV1 : Z → bytes → bytes
}.

(** fastcache.  The cache may evict entries at any time, but never invents any;
    one that was saved to a file starts with what the file holds, of which nothing
    is known here. *)
Class CacheOps := {
  cleanCache : Type;
  cache_New : Z → cleanCache;
  cache_LoadFromFileOrNew : string → Z → cleanCache;
  cache_Get : cleanCache → bytes → option bytes;
  cache_Set : bytes → bytes → cleanCache → cleanCache
}.
Class CacheLaws `{CacheOps} := {
  cache_New_empty size h : cache_Get (cache_New size) h = None;
  cache_Get_Set c h b h' b' :
    cache_Get (cache_Set h b c) h' = Some b' → (h' = h ∧ b' = b) ∨ cache_Get c h' = Some b'
}.

(** [types.StateAccount] and its RLP encoding. *)
Record StateAccount := MkStateAccount {
  acc_Nonce : Z; acc_Balance : Z; acc_Root : bytes; acc_CodeHash : bytes
}.
Class AccountOps := {
  (** [None] is an error: RLP has no negative integers. *)
  encode_StateAccount : StateAccount → option bytes;
  decode_StateAccount : bytes → option StateAccount
}.
Class AccountLaws `{AccountOps} := {
  encode_account a : (0 ≤ acc_Balance a)%Z → is_Some (encode_StateAccount a);
  decode_encode_account a b :
    encode_StateAccount a = Some b → decode_StateAccount b = Some a ∧ b ≠ []
}.

(** go-ethereum's [common.TrimLeftZeroes]; putting the zeros back gives the hash. *)
Class CommonOps := { TrimLeftZeroes : bytes → bytes }.
Class CommonLaws `{CryptoOps, CommonOps} := {
  BytesToHash_length b : length (BytesToHash b) = hashLen;
  BytesToHash_TrimLeftZeroes b : length b = hashLen → BytesToHash (TrimLeftZeroes b) = b
}.

(** ** common/lru and the multicodecs of package ipld

    A look-up may change the order of eviction, never the contents; an addition
    may evict other entries. *)
Class LruOps := {
  lru : Type → Type;
  lru_New : ∀ {A}, Z → lru A;
  lru_lookup : ∀ {A}, bytes → lru A → option A;
  lru_touch : ∀ {A}, bytes → lru A → lru A;
  lru_Add : ∀ {A}, bytes → A → lru A → lru A
}.
Definition lru_Get `{LruOps} {A} (h : bytes) (c : lru A) : lru A * option A :=
  (lru_touch h c, lru_lookup h c).
Class LruLaws `{LruOps} := {
  lru_New_empty {A} size h : lru_lookup h (lru_New (A := A) size) = None;
  lru_lookup_touch {A} (c : lru A) h h' : lru_lookup h' (lru_touch h c) = lru_lookup h' c;
  lru_lookup_Add {A} (c : lru A) h a h' a' :
    lru_lookup h' (lru_Add h a c) = Some a' → (h' = h ∧ a' = a) ∨ lru_lookup h' c = Some a'
}.

Class IpldOps := { RawBinary : Z; StateTrieCodec : Z; StorageTrieCodec : Z }.

(** ** core/state/snapshot

    A flat view of the accounts and storage of one block, next to the tries.  An
    account is its nonce, balance, root and code hash, the last two possibly empty. *)
Record snapAccount := MkSnapAccount {
  sa_Nonce : Z; sa_Balance : Z; sa_Root : bytes; sa_CodeHash : bytes
}.
Class SnapOps := {
  snapTree : Type;
  snapshot : Type;
  (** [Tree.Snapshot(root)], possibly nil. *)
  Tree_Snapshot : snapTree → bytes → option snapshot;
  (** [Account] and [Storage]: [None] is an error; an account may be nil. *)
  Snap_Account : snapshot → bytes → option (option snapAccount);
  Snap_Storage : snapshot → bytes → bytes → option bytes;
  SlimAccountRLP : Z → Z → bytes → bytes → bytes
}.
(** Accounts have a 32-byte code hash, or none. *)
Class SnapLaws `{SnapOps} := {
  Snap_Account_CodeHash s h a :
    Snap_Account s h = Some (Some a) → sa_CodeHash a = [] ∨ length (sa_CodeHash a) = hashLen
}.

(** ** Concrete functions for the witnesses *)

Module Standin.

(** Big-endian bytes of a natural number, without leading zeros. *)
Fixpoint be_bytes (fuel : nat) (n : Z) (acc : bytes) : bytes :=
  match fuel with
  | O => acc
  | S fuel => if bool_decide (n = 0) then acc else be_bytes fuel (n / 256) (n mod 256 :: acc)
  end.

(** RLP headers.  Payloads of 2^64 bytes or more, which RLP cannot express and
    Go cannot hold, get an out-of-band header so that the laws hold of every list. *)
Definition header (short long huge : Z) (len : Z) : bytes :=
  if bool_decide (len < 56) then [short + len]
  else if bool_decide (len < 2 ^ 64) then
    let l := be_bytes 8 len [] in (long + Z.of_nat (length l)) :: l
  else [huge; len].

Definition enc_string (s : bytes) : bytes :=
  match s with
  | [b] => if bool_decide (0 ≤ b < 128) then [b] else [129; b]
  | _ => header 128 183 256 (Z.of_nat (length s)) ++ s
  end.
Definition enc_list (p : bytes) : bytes :=
  header 192 247 257 (Z.of_nat (length p)) ++ p.

Definition be_value (l : bytes) : Z := fold_left (λ a b, a * 256 + b) l 0.

(** Cut [len] bytes of content off [rest]. *)
Definition cut (k : Kind) (len : Z) (rest : bytes) : option (Kind * bytes * bytes) :=
  if bool_decide (0 ≤ len ≤ Z.of_nat (length rest))
  then Some (k, take (Z.to_nat len) rest, drop (Z.to_nat len) rest) else None.

Definition split (b : bytes) : option (Kind * bytes * bytes) :=
  match b with
  | [] => None
  | x :: rest =>
      if bool_decide (x < 128) then Some (KByte, [x], rest)
      else if bool_decide (x < 184) then cut KString (x - 128) rest
      else if bool_decide (x < 192) then
        let n := Z.to_nat (x - 183) in cut KString (be_value (take n rest)) (drop n rest)
      else if bool_decide (x < 248) then cut KList (x - 192) rest
      else if bool_decide (x < 256) then
        let n := Z.to_nat (x - 247) in cut KList (be_value (take n rest)) (drop n rest)
      else match rest with
           | len :: rest => cut (if bool_decide (x = 256) then KString else KList) len rest
           | [] => None
           end
  end.

Fixpoint count (fuel : nat) (b : bytes) : option Z :=
  match b with
  | [] => Some 0
  | _ => match fuel with
         | O => None
         | S fuel => '(_, _, rest) ← split b; n ← count fuel rest; Some (n + 1)
         end
  end.

#[export] Instance rlp_ops : RlpOps := {|
  rlp_WriteBytes := enc_string;
  rlp_List := enc_list;
  rlp_Split := split;
  rlp_SplitList b :=
    match split b with Some (KList, c, r) => Some (c, r) | _ => None end;
  rlp_SplitString b :=
    match split b with Some (KList, c, r) => None | Some (_, c, r) => Some (c, r) | _ => None end;
  rlp_CountValues b := default 0 (count (length b) b)
|}.

(** Not Keccak: a 32-byte polynomial checksum, never zero, enough to run the
    examples. *)
Definition digest (b : bytes) : Z :=
  fold_left (λ a x, (a * 1000003 + x + 1) mod 2 ^ 256) b 7.
Fixpoint be32 (n : nat) (z : Z) (acc : bytes) : bytes :=
  match n with O => acc | S n => be32 n (z / 256) (z mod 256 :: acc) end.
Definition hash32 (b : bytes) : bytes := be32 32 (digest b mod (2 ^ 256 - 1) + 1) [].

#[export] Instance crypto_ops : CryptoOps := {|
  keccak256 := hash32;
  BytesToHash b := if bool_decide (length b = hashLen) then b
                   else replicate (hashLen - length b) 0 ++ drop (length b - hashLen) b;
  EmptyRootHash := hash32 [128];
  EmptyCodeHash := hash32 []
|}.

Lemma be_bytes_acc fuel n acc : be_bytes fuel n acc = be_bytes fuel n [] ++ acc.
Proof.
  revert n acc. induction fuel as [|fuel IH]; intros n acc; simpl; [done|].
  case_bool_decide; [done|]. rewrite IH, (IH _ [_]), <- app_assoc. done.
Qed.

Lemma be_value_be_bytes fuel n :
  0 ≤ n < 256 ^ Z.of_nat fuel → be_value (be_bytes fuel n []) = n.
Proof.
  revert n. induction fuel as [|fuel IH]; intros n Hn; simpl.
  - change (256 ^ Z.of_nat 0) with 1 in Hn. unfold be_value. simpl. lia.
  - case_bool_decide; [by subst|]. rewrite be_bytes_acc. unfold be_value.
    rewrite fold_left_app. simpl. fold (be_value (be_bytes fuel (n / 256) [])).
    rewrite Nat2Z.inj_succ, Z.pow_succ_r in Hn by lia.
    rewrite IH; [pose proof (Z.div_mod n 256); lia|].
    split; [apply Z.div_pos; lia|apply Z.div_lt_upper_bound; lia].
Qed.

Lemma length_be_bytes fuel n : (length (be_bytes fuel n []) ≤ fuel)%nat.
Proof.
  revert n. induction fuel as [|fuel IH]; intros n; simpl; [done|].
  case_bool_decide; simpl; [lia|]. rewrite be_bytes_acc, length_app. specialize (IH (n / 256)).
  simpl. lia.
Qed.

Lemma be_bytes_cons fuel n : n ≠ 0 → (0 < fuel)%nat → (0 < length (be_bytes fuel n []))%nat.
Proof.
  destruct fuel; simpl; [lia|]. intros. rewrite bool_decide_false by done.
  rewrite be_bytes_acc, length_app. simpl. lia.
Qed.

Lemma cut_app k s rest : cut k (Z.of_nat (length s)) (s ++ rest) = Some (k, s, rest).
Proof.
  unfold cut. rewrite bool_decide_true by (rewrite length_app; lia).
  by rewrite Nat2Z.id, take_app_length, drop_app_length.
Qed.

(** Decide every comparison of the goal that the context decides. *)
Ltac bdecide := repeat (case_bool_decide; [try (exfalso; lia)|try (exfalso; lia)]; []).

Lemma long_length n : 56 ≤ n → n < 2 ^ 64 →
  ∃ l, be_bytes 8 n [] = l ∧ (0 < length l ≤ 8)%nat ∧ be_value l = n.
Proof.
  intros. eexists. split; [done|]. split.
  - split; [apply be_bytes_cons; lia|apply length_be_bytes].
  - by rewrite be_value_be_bytes by (split; [lia|done]).
Qed.

(** A header of either kind reads back the length it was made for. *)
Lemma split_header_string s rest :
  split (header 128 183 256 (Z.of_nat (length s)) ++ s ++ rest) = Some (KString, s, rest).
Proof.
  unfold header. case_bool_decide; [|case_bool_decide].
  - cbn [app split]. bdecide. rewrite <- (cut_app KString s rest). f_equal. lia.
  - destruct (long_length (Z.of_nat (length s))) as (l & -> & Hl & Hv); [lia..|].
    cbn [app split]. bdecide. replace (Z.to_nat _) with (length l) by lia.
    by rewrite take_app_length, drop_app_length, Hv, cut_app.
  - cbn [app split]. bdecide. apply cut_app.
Qed.

Lemma split_list p rest : split (enc_list p ++ rest) = Some (KList, p, rest).
Proof.
  unfold enc_list, header. rewrite <- app_assoc.
  case_bool_decide; [|case_bool_decide].
  - cbn [app split]. bdecide. rewrite <- (cut_app KList p rest). f_equal. lia.
  - destruct (long_length (Z.of_nat (length p))) as (l & -> & Hl & Hv); [lia..|].
    cbn [app split]. bdecide. replace (Z.to_nat _) with (length l) by lia.
    by rewrite take_app_length, drop_app_length, Hv, cut_app.
  - cbn [app split]. bdecide. apply cut_app.
Qed.

Lemma split_string s rest : split (enc_string s ++ rest) = Some (rlp_string_kind s, s, rest).
Proof.
  unfold enc_string, rlp_string_kind. destruct s as [|b [|b' s]].
  - apply (split_header_string []).
  - case_bool_decide; simpl.
    + by rewrite bool_decide_true by lia.
    + apply (cut_app KString [b] rest).
  - rewrite <- app_assoc. apply split_header_string.
Qed.

Lemma header_nonempty a b c n : (0 < length (header a b c n))%nat.
Proof. unfold header. repeat case_bool_decide; simpl; lia. Qed.

Lemma split_item (i : rlp_item) rest :
  ∃ k c, split (rlp_item_enc i ++ rest) = Some (k, c, rest).
Proof. destruct i; simpl; [rewrite split_string|rewrite split_list]; eauto. Qed.

Lemma item_nonempty (i : rlp_item) : (0 < length (rlp_item_enc i))%nat.
Proof.
  destruct (rlp_item_enc i) eqn:E; simpl; [|lia].
  destruct (split_item i []) as (k & c & Hs). by rewrite E in Hs.
Qed.

Lemma count_items items fuel :
  (length (concat (rlp_item_enc <$> items)) ≤ fuel)%nat →
  count fuel (concat (rlp_item_enc <$> items)) = Some (Z.of_nat (length items)).
Proof.
  revert fuel. induction items as [|i items IH]; intros fuel Hf; [by destruct fuel|].
  cbn [fmap list_fmap concat] in *. rewrite length_app in Hf.
  pose proof (item_nonempty i). destruct fuel as [|fuel]; [lia|].
  destruct (rlp_item_enc i ++ _) as [|x l] eqn:E.
  { apply (f_equal length) in E. rewrite length_app in E. simpl in E. lia. }
  cbn [count]. rewrite <- E. destruct (split_item i (concat (rlp_item_enc <$> items))) as (k & c & ->).
  cbn. rewrite IH by lia. cbn. f_equal. lia.
Qed.

Lemma cut_slices k len b k' c r :
  cut k len b = Some (k', c, r) → b = c ++ r ∧ k' = k.
Proof. unfold cut. case_bool_decide; [|done]. intros [= <- <- <-]. by rewrite take_drop. Qed.

Lemma split_slices b k c r :
  split b = Some (k, c, r) → ∃ pre, b = pre ++ c ++ r ∧ (k = KList → pre ≠ []).
Proof.
  assert (∀ k0 len x n rest, cut k0 len (drop n rest) = Some (k, c, r) →
    ∃ pre, x :: rest = pre ++ c ++ r ∧ (k = KList → pre ≠ [])) as Hcut.
  { intros k0 len x n rest [E _]%cut_slices. exists (x :: take n rest). split; [|done].
    simpl. by rewrite <- E, take_drop. }
  unfold split. destruct b as [|x rest]; [done|].
  case_bool_decide; [intros [= <- <- <-]; by exists []|].
  repeat (case_bool_decide; [by first [eapply (Hcut _ _ x 0%nat) | eapply Hcut]|]).
  destruct rest as [|len rest]; [done|]. intros E. by eapply (Hcut _ _ x 1%nat (len :: rest)).
Qed.

#[export] Instance rlp_slices : RlpSlices.
Proof.
  split; [exact split_slices|..]; intros b c r; simpl; destruct (split b) as [[[[] c'] r']|];
    intros [= <- <-]; by try eexists.
Qed.

#[export] Instance rlp_laws : RlpLaws.
Proof.
  split; simpl; intros.
  - apply split_string.
  - apply split_list.
  - by rewrite split_list.
  - rewrite split_string. unfold rlp_string_kind. destruct s as [|? []]; try done. by case_bool_decide.
  - by rewrite count_items.
  - unfold enc_list. rewrite length_app. pose proof (header_nonempty 192 247 257 (Z.of_nat (length p))). lia.
Qed.

Lemma length_be32 n z acc : length (be32 n z acc) = (n + length acc)%nat.
Proof. revert z acc. induction n; intros; simpl; [done|]. rewrite IHn. simpl. lia. Qed.

Lemma be32_acc n z acc : be32 n z acc = be32 n z [] ++ acc.
Proof.
  revert z acc. induction n as [|n IH]; intros z acc; simpl; [done|].
  rewrite IH, (IH _ [_]), <- app_assoc. done.
Qed.

Lemma be32_zero n z : be32 n z [] = replicate n 0 → z mod 256 ^ Z.of_nat n = 0.
Proof.
  revert z. induction n as [|n IH]; intros z E; [apply Z.mod_1_r|].
  cbn [be32] in E. rewrite be32_acc, replicate_S_end in E.
  apply app_inj_2 in E as [E1 E2]; [|done]. injection E2 as E2. apply IH in E1.
  rewrite Nat2Z.inj_succ, Z.pow_succ_r, Z.rem_mul_r by lia. rewrite E1, E2. lia.
Qed.

(** No input hashes to zero. *)
Lemma hash32_nonzero b : hash32 b ≠ zeroHash.
Proof.
  intros E. apply be32_zero in E.
  pose proof (Z.mod_pos_bound (digest b) (2 ^ 256 - 1) eq_refl) as Hb.
  change (256 ^ Z.of_nat 32) with (2 ^ 256) in E. rewrite Z.mod_small in E; lia.
Qed.

Lemma be32_bytes n z acc : Forall is_byte acc → Forall is_byte (be32 n z acc).
Proof.
  revert z acc. induction n as [|n IH]; intros z acc Hacc; simpl; [done|]. apply IH.
  constructor; [|done]. apply Z.mod_pos_bound. lia.
Qed.

#[export] Instance crypto_laws : CryptoLaws.
Proof.
  split.
  - intros b. apply length_be32.
  - intros b. apply be32_bytes. constructor.
  - intros b Hb. unfold BytesToHash, crypto_ops. by rewrite bool_decide_true.
  - reflexivity.
  - apply length_be32.
  - apply hash32_nonzero.
  - apply length_be32.
Qed.
(** A key-value store, a cache that keeps everything, and a flat encoding of
    accounts. *)
#[export] Instance disk_ops : DiskOps := {|
  disk := gmap bytes bytes;
  disk_Get d k := d !! k;
  ReadPreimage d h := d !! (0 :: h);
  multihash_Encode h := Some (27 :: 32 :: h);
  NewCidV1 codec mh := 1 :: codec :: mh
|}.
#[export] Instance cache_ops : CacheOps := {|
  cleanCache := gmap bytes bytes;
  cache_New _ := ∅;
  (* every file holds the same entry *)
  cache_LoadFromFileOrNew _ _ := {[ [7] := [42] ]};
  cache_Get c h := c !! h;
  cache_Set h b c := <[h := b]> c
|}.
#[export] Instance cache_laws : CacheLaws.
Proof.
  split; simpl.
  - intros _ h. apply lookup_empty.
  - intros c h b h' b'. destruct (decide (h' = h)) as [->|]; [|rewrite lookup_insert_ne by done; auto].
    rewrite lookup_insert_eq. intros [= ->]. auto.
Qed.
#[export] Instance lru_ops : LruOps := {|
  lru A := gmap bytes A;
  lru_New A _ := ∅;
  lru_lookup A h c := c !! h;
  lru_touch A _ c := c;
  lru_Add A h a c := <[h := a]> c
|}.
#[export] Instance lru_laws : LruLaws.
Proof.
  split; [done|done|]. intros A c h a h' a'. simpl.
  intros [[-> ->]|[_ E]]%lookup_insert_Some; [by left|by right].
Qed.

#[export] Instance ipld_ops : IpldOps :=
  {| RawBinary := 85; StateTrieCodec := 150; StorageTrieCodec := 152 |}.

(** Nothing is trimmed. *)
#[export] Instance common_ops : CommonOps := {| TrimLeftZeroes b := b |}.

(** A snapshot that is still being generated: every read of it fails. *)
#[export] Instance snap_ops : SnapOps := {|
  snapTree := unit;
  snapshot := unit;
  Tree_Snapshot _ _ := Some tt;
  Snap_Account _ _ := None;
  Snap_Storage _ _ _ := None;
  SlimAccountRLP _ _ _ _ := []
|}.
#[export] Instance snap_laws : SnapLaws.
Proof. by split. Qed.

#[export] Instance account_ops : AccountOps := {|
  encode_StateAccount a :=
    if bool_decide (0 ≤ acc_Balance a) then
      Some (acc_Nonce a :: acc_Balance a :: Z.of_nat (length (acc_Root a)) :: acc_Root a ++ acc_CodeHash a)
    else None;
  decode_StateAccount b :=
    match b with
    | n :: bal :: len :: rest =>
        Some (MkStateAccount n bal (take (Z.to_nat len) rest) (drop (Z.to_nat len) rest))
    | _ => None
    end
|}.
#[export] Instance account_laws : AccountLaws.
Proof.
  split; simpl.
  - intros a Ha. rewrite bool_decide_true by done. by eexists.
  - intros [n b r c] bs. simpl. case_bool_decide; [|done]. intros [= <-]. simpl.
    by rewrite Nat2Z.id, take_app_length, drop_app_length.
Qed.
End Standin.
