(* ===== verification/Encoding.v ===== *)
(** * Key encodings: trie_by_cid/trie/encoding.go

    KEYBYTES (the key), HEX (one nibble per byte, optional terminator 16) and
    COMPACT (the yellow paper's hex-prefix encoding), with the conversions
    between them.  The functions that index slices live in [outcome]: an index
    out of range is a [Panic], and the theorems show which inputs avoid it. *)
From S2P Require Import Prelude.
Local Open Scope Z_scope.

(** ** The code *)

(** [nibbles[ni]<<4 | nibbles[ni+1]] on bytes. *)
Definition pack (hi lo : Z) : Z := Z.lor (u8 (Z.shiftl hi 4)) lo.

Definition hasTerm (s : bytes) : bool := bool_decide (last s = Some 16).

(** The destination slice is passed and returned: the loop overwrites its
    first [len(nibbles)/2] entries. *)
Fixpoint decodeNibbles {E} (nibbles dst : bytes) : outcome E bytes :=
  match nibbles with
  | [] => Ok dst
  | [_] => Panic "index out of range"
  | hi :: lo :: rest =>
      match dst with
      | [] => Panic "index out of range"
      | _ :: dst' => d ← decodeNibbles rest dst'; Ok (pack hi lo :: d)
      end
  end.

Definition hexToCompact {E} (hex : bytes) : outcome E bytes :=
  let terminator := if hasTerm hex then 1 else 0 in
  let hex := if hasTerm hex then take (length hex - 1) hex else hex in
  let tail := replicate (length hex / 2) 0 in
  let flag := u8 (Z.shiftl terminator 5) in
  if Nat.odd (length hex) then
    h0 ← index hex 0;
    d ← decodeNibbles (drop 1 hex) tail;
    Ok (Z.lor (Z.lor flag (Z.shiftl 1 4)) h0 :: d)
  else
    d ← decodeNibbles hex tail;
    Ok (flag :: d).

(** The loop of [hexToCompactInPlace]: it reads and writes the same array. *)
Fixpoint inPlaceLoop {E} (fuel : nat) (hex : bytes) (hexLen ni bi : nat) : outcome E bytes :=
  if bool_decide (ni < hexLen)%nat then
    match fuel with
    | O => OutOfFuel
    | S fuel =>
        hi ← index hex ni;
        lo ← index hex (ni + 1);
        _ ← index hex bi;
        inPlaceLoop fuel (<[bi := pack hi lo]> hex) hexLen (ni + 2) (bi + 1)
    end
  else Ok hex.

(** Returns the buffer after the call together with [binLen]. *)
Definition hexToCompactInPlace {E} (hex : bytes) : outcome E (bytes * nat) :=
  let term := hasTerm hex in
  let firstByte := if term then Z.shiftl 1 5 else 0 in
  let hexLen := if term then (length hex - 1)%nat else length hex in
  let binLen := (hexLen / 2 + 1)%nat in
  '(firstByte, ni) ←
    (if Nat.odd hexLen then
       h0 ← index hex 0;
       Ok (Z.lor (Z.lor firstByte (Z.shiftl 1 4)) h0, 1%nat)
     else Ok (firstByte, 0%nat));
  hex ← inPlaceLoop hexLen hex hexLen ni 1;
  _ ← index hex 0;
  Ok (<[0%nat := firstByte]> hex, binLen).

Fixpoint keybytesToHex (str : bytes) : bytes :=
  match str with
  | [] => [16]
  | b :: str => b / 16 :: b mod 16 :: keybytesToHex str
  end.

Definition compactToHex (compact : bytes) : bytes :=
  match keybytesToHex compact with
  | (base0 :: _) as base =>
      if bool_decide (compact = []) then compact
      else
        let base := if bool_decide (base0 < 2) then take (length base - 1) base else base in
        let chop := 2 - Z.land base0 1 in
        drop (Z.to_nat chop) base
  | [] => compact
  end.

Definition hexToKeyBytes {E} (hex : bytes) : outcome E bytes :=
  let hex := if hasTerm hex then take (length hex - 1) hex else hex in
  if Nat.odd (length hex) then Panic "can't convert hex key of odd length"
  else decodeNibbles hex (replicate (length hex / 2) 0).

Fixpoint prefixLen (a b : bytes) : nat :=
  match a, b with
  | x :: a, y :: b => if bool_decide (x = y) then S (prefixLen a b) else O
  | _, _ => O
  end.

(** ** Reference definitions and well-formed keys *)

(** A path: nibbles only. *)
Abbreviation path_ok := (Forall is_nibble).

(** A hex key or path: nibbles, then possibly the terminator. *)
Inductive hex_ok : bytes → Prop :=
| hex_path p : path_ok p → hex_ok p
| hex_term p : path_ok p → hex_ok (p ++ [16]).

(** Pairs of nibbles packed into bytes. *)
Fixpoint pack_pairs (p : bytes) : bytes :=
  match p with
  | hi :: lo :: rest => hi * 16 + lo :: pack_pairs rest
  | _ => []
  end.

(** The hex-prefix encoding of the yellow paper (appendix C): [t] is the
    terminator flag, the odd nibble shares the first byte with the flags. *)
Definition hex_prefix (t : bool) (p : bytes) : bytes :=
  let f := (if t then 2 else 0) in
  if Nat.odd (length p) then
    match p with
    | x :: p => 16 * (f + 1) + x :: pack_pairs p
    | [] => []
    end
  else 16 * f :: pack_pairs p.

Arguments keybytesToHex !_ /.

(** ** Nibble arithmetic *)

Lemma pack_spec hi lo : is_nibble hi → is_nibble lo → pack hi lo = hi * 16 + lo.
Proof.
  unfold is_nibble, pack, u8. intros Hh Hl.
  rewrite (Z.land_ones _ 8) by lia. rewrite Z.shiftl_mul_pow2 by lia.
  rewrite Z.mod_small by lia.
  pose proof (Z.add_lor_land (hi * 2 ^ 4) lo).
  enough (Z.land (hi * 2 ^ 4) lo = 0) by lia.
  apply Z.bits_inj'. intros n Hn. rewrite Z.land_spec, Z.bits_0.
  destruct (decide (n < 4)).
  - by rewrite Z.mul_pow2_bits_low by lia.
  - rewrite andb_comm, (Z.bits_above_log2 lo n); [done|lia|].
    destruct (decide (lo = 0)) as [->|]; [simpl; lia|].
    assert (Z.log2 lo < 4); [apply Z.log2_lt_pow2; lia|lia].
Qed.

Lemma pack_byte hi lo : is_nibble hi → is_nibble lo → is_byte (pack hi lo).
Proof. intros. rewrite pack_spec by done. unfold is_nibble, is_byte in *. lia. Qed.

Lemma pack_div_mod b : is_byte b → pack (b / 16) (b mod 16) = b.
Proof.
  unfold is_byte. intros. rewrite pack_spec; unfold is_nibble.
  - pose proof (Z.div_mod b 16). lia.
  - split; [apply Z.div_pos; lia|apply Z.div_lt_upper_bound; lia].
  - apply Z.mod_pos_bound. lia.
Qed.

Lemma is_byte_nibbles b : is_byte b → is_nibble (b / 16) ∧ is_nibble (b mod 16).
Proof.
  unfold is_byte, is_nibble. intros. split.
  - split; [apply Z.div_pos; lia|apply Z.div_lt_upper_bound; lia].
  - apply Z.mod_pos_bound. lia.
Qed.

#[export] Hint Resolve pack_byte : s2r.

(** ** Terminators and lengths *)

Lemma path_ok_no_term p : path_ok p → hasTerm p = false.
Proof.
  intros Hp. unfold hasTerm. apply bool_decide_eq_false. intros Hl.
  apply last_Some_elem_of in Hl. rewrite Forall_forall in Hp.
  specialize (Hp _ Hl). unfold is_nibble in Hp. lia.
Qed.

Lemma hasTerm_snoc p x : hasTerm (p ++ [x]) = bool_decide (x = 16).
Proof. unfold hasTerm. rewrite last_snoc. apply bool_decide_ext. naive_solver. Qed.

Lemma strip_term p : take (length (p ++ [16]) - 1) (p ++ [16]) = p.
Proof. rewrite length_app. simpl. by rewrite Nat.add_sub, take_app_length. Qed.

Lemma strip_term_cons x p : take (S (length (p ++ [16])) - 1) (x :: p ++ [16]) = x :: p.
Proof. apply (strip_term (x :: p)). Qed.

Lemma length_keybytesToHex k : length (keybytesToHex k) = (2 * length k + 1)%nat.
Proof. induction k; simpl; lia. Qed.

Lemma keybytesToHex_app a b :
  keybytesToHex (a ++ b) = take (2 * length a) (keybytesToHex a) ++ keybytesToHex b.
Proof.
  induction a as [|x a IH]; simpl; [done|]. rewrite IH.
  by replace (length a + S (length a + 0))%nat with (S (2 * length a)) by lia.
Qed.

(** The nibbles of a key, without the terminator. *)
Fixpoint nibbles_of (k : bytes) : bytes :=
  match k with [] => [] | b :: k => b / 16 :: b mod 16 :: nibbles_of k end.

Lemma keybytesToHex_nibbles k : keybytesToHex k = nibbles_of k ++ [16].
Proof. induction k; simpl; congruence. Qed.

Lemma length_nibbles_of k : length (nibbles_of k) = (2 * length k)%nat.
Proof. induction k; simpl; lia. Qed.

Lemma nibbles_of_ok k : Forall is_byte k → path_ok (nibbles_of k).
Proof.
  induction 1 as [|b k Hb _ IH]; simpl; [done|].
  destruct (is_byte_nibbles b Hb). auto.
Qed.

Lemma keybytesToHex_ok k : Forall is_byte k → hex_ok (keybytesToHex k).
Proof. intros. rewrite keybytesToHex_nibbles. by apply hex_term, nibbles_of_ok. Qed.

Lemma keybytesToHex_inj a b :
  Forall is_byte a → Forall is_byte b → keybytesToHex a = keybytesToHex b → a = b.
Proof.
  intros Ha. revert b. induction Ha as [|x a Hx Ha IH]; intros [|y b] Hb; simpl; try discriminate; [done|].
  - inversion Hb; subst. intros [= E1 E2 E3]. f_equal; [|by apply IH].
    rewrite <- (pack_div_mod x), <- (pack_div_mod y) by done. by rewrite E1, E2.
Qed.

(** ** Packing pairs of nibbles *)

Lemma even_pair_ind (P : bytes → Prop) :
  P [] → (∀ x y l, Nat.even (length l) = true → P l → P (x :: y :: l)) →
  ∀ l, Nat.even (length l) = true → P l.
Proof.
  intros H0 H2 l. remember (length l) as n eqn:Hn. revert l Hn.
  induction (lt_wf n) as [n _ IH]. intros [|x [|y l]] -> He; simpl in *; try done.
  apply H2; [done|]. eapply IH; [|done|done]. lia.
Qed.

Lemma decodeNibbles_pairs {E} p dst :
  path_ok p → Nat.even (length p) = true → (length p / 2 ≤ length dst)%nat →
  @decodeNibbles E p dst = Ok (pack_pairs p ++ drop (length p / 2) dst).
Proof.
  intros Hp He. revert dst Hp. pattern p. revert p He. apply even_pair_ind; [done|].
  intros hi lo p _ IH dst Hp. inversion Hp as [|?? Hhi Hp']; subst.
  inversion Hp' as [|?? Hlo Hp'']; subst. cbn [length].
  replace (S (S (length p))) with (length p + 1 * 2)%nat by lia.
  rewrite Nat.div_add by lia. rewrite Nat.add_1_r.
  destruct dst as [|d dst]; cbn [length]; intros Hlen; [lia|].
  simpl. rewrite IH by (done || lia). simpl. by rewrite pack_spec.
Qed.

Lemma decodeNibbles_zeros {E} p :
  path_ok p → Nat.even (length p) = true →
  @decodeNibbles E p (replicate (length p / 2) 0) = Ok (pack_pairs p).
Proof.
  intros. rewrite decodeNibbles_pairs by (done || by rewrite length_replicate).
  rewrite drop_ge by (rewrite length_replicate; lia). by rewrite app_nil_r.
Qed.

Lemma pack_nibbles_of k : Forall is_byte k → pack_pairs (nibbles_of k) = k.
Proof.
  induction 1 as [|b k Hb _ IH]; simpl; [done|]. rewrite IH. f_equal.
  pose proof (Z.div_mod b 16). lia.
Qed.

Lemma nibble_join hi lo :
  is_nibble hi → is_nibble lo → (hi * 16 + lo) / 16 = hi ∧ (hi * 16 + lo) mod 16 = lo.
Proof.
  unfold is_nibble. intros. rewrite Z.div_add_l, (Z.div_small lo) by lia.
  rewrite (Z.add_comm (hi * 16)), Z.mod_add, Z.mod_small by lia. lia.
Qed.

Lemma nibbles_of_pack p :
  path_ok p → Nat.even (length p) = true → nibbles_of (pack_pairs p) = p.
Proof.
  intros Hp He. revert Hp. pattern p. revert p He. apply even_pair_ind; [done|].
  intros hi lo p _ IH Hp. inversion Hp as [|?? Hhi Hp']; subst.
  inversion Hp' as [|?? Hlo Hp'']; subst. simpl.
  destruct (nibble_join hi lo) as [-> ->]; [done..|]. by rewrite IH.
Qed.

Lemma pack_pairs_bytes p : path_ok p → Nat.even (length p) = true → Forall is_byte (pack_pairs p).
Proof.
  intros Hp He. revert Hp. pattern p. revert p He. apply even_pair_ind; [done|].
  intros hi lo p _ IH Hp. inversion Hp as [|?? Hhi Hp']; subst.
  inversion Hp' as [|?? Hlo Hp'']; subst. simpl. constructor; [|auto].
  unfold is_nibble, is_byte in *. lia.
Qed.

#[export] Hint Resolve nibbles_of_ok keybytesToHex_ok : s2r.

(** ** Compact encoding *)

Lemma half_of_odd n : Nat.even n = true → (S n / 2 = n / 2)%nat.
Proof.
  intros [m ->]%Nat.even_spec. replace (S (2 * m)) with (1 + m * 2)%nat by lia.
  rewrite Nat.div_add, (Nat.mul_comm 2), Nat.div_mul by lia. done.
Qed.

Lemma even_of_not_odd n : Nat.odd n = false → Nat.even n = true.
Proof. rewrite <- Nat.negb_even. apply negb_false_iff. Qed.

(** The compact encoding of a path, terminated or not: never a panic, and
    equal to the yellow paper's hex-prefix function. *)
Lemma hexToCompact_spec {E} (t : bool) p :
  path_ok p → @hexToCompact E (if t then p ++ [16] else p) = Ok (hex_prefix t p).
Proof.
  intros Hp. unfold hexToCompact.
  replace (hasTerm (if t then p ++ [16] else p)) with t
    by (destruct t; [by rewrite hasTerm_snoc|by rewrite path_ok_no_term]).
  replace (if t then take _ _ else _) with p by (destruct t; [by rewrite strip_term|done]).
  unfold hex_prefix. destruct (Nat.odd (length p)) eqn:Ho.
  - destruct p as [|x p]; [done|]. inversion Hp; subst. cbn [length] in *.
    rewrite Nat.odd_succ in Ho. unfold index. simpl. rewrite drop_0, half_of_odd by done.
    rewrite decodeNibbles_zeros by done. simpl. do 2 f_equal.
    rewrite (Z.mul_comm 16), <- pack_spec by (done || unfold is_nibble; destruct t; lia).
    by destruct t.
  - rewrite decodeNibbles_zeros by auto using even_of_not_odd. by destruct t.
Qed.

(** The compact encoding as a total function on hex keys, used by the
    specification of node encodings. *)
Definition compact_of (hex : bytes) : bytes :=
  if hasTerm hex then hex_prefix true (take (length hex - 1) hex) else hex_prefix false hex.

Lemma compact_of_ok {E} hex : hex_ok hex → @hexToCompact E hex = Ok (compact_of hex).
Proof.
  unfold compact_of. intros [p Hp|p Hp].
  - rewrite path_ok_no_term by done. by apply (hexToCompact_spec false).
  - rewrite hasTerm_snoc, bool_decide_true, strip_term by done. by apply (hexToCompact_spec true).
Qed.

Lemma hex_prefix_cons t p : ∃ b r, hex_prefix t p = b :: r.
Proof.
  unfold hex_prefix. destruct (Nat.odd (length p)) eqn:Ho; [|eauto].
  destruct p; [done|eauto].
Qed.

(** Decoding a hex-prefix encoding gives the path back, terminated as flagged. *)
Lemma compactToHex_hex_prefix t p :
  path_ok p → compactToHex (hex_prefix t p) = if t then p ++ [16] else p.
Proof.
  intros Hp. unfold compactToHex, hex_prefix.
  destruct (Nat.odd (length p)) eqn:Ho.
  - destruct p as [|x p]; [done|]. inversion Hp as [|?? Hx Hp']; subst.
    cbn [length] in *. rewrite Nat.odd_succ in Ho.
    rewrite bool_decide_false by done. cbn [keybytesToHex].
    rewrite (Z.mul_comm 16).
    destruct (nibble_join ((if t then 2 else 0) + 1) x) as [-> ->]; [by destruct t|done|].
    rewrite keybytesToHex_nibbles, nibbles_of_pack by done.
    destruct t; [done|]. by rewrite (strip_term_cons _ (x :: p)).
  - apply even_of_not_odd in Ho.
    rewrite bool_decide_false by done. cbn [keybytesToHex].
    rewrite keybytesToHex_nibbles, nibbles_of_pack by done.
    destruct t; [done|]. by rewrite !app_comm_cons, strip_term.
Qed.

Lemma compactToHex_compact_of hex : hex_ok hex → compactToHex (compact_of hex) = hex.
Proof.
  unfold compact_of. intros [p Hp|p Hp].
  - rewrite path_ok_no_term by done. by rewrite compactToHex_hex_prefix.
  - rewrite hasTerm_snoc, bool_decide_true, strip_term by done.
    by rewrite compactToHex_hex_prefix.
Qed.

(** A canonical compact string: a flag nibble below 4, and a zero second
    nibble when the flag says the path is even. *)
Definition compact_ok (c : bytes) : Prop :=
  Forall is_byte c ∧
  match c with
  | [] => False
  | b :: _ => b / 16 < 4 ∧ (Z.even (b / 16) = true → b mod 16 = 0)
  end.

Lemma compact_ok_hex_prefix c :
  compact_ok c → ∃ t p, path_ok p ∧ c = hex_prefix t p.
Proof.
  intros [Hc Hf]. destruct c as [|b c]; [done|]. inversion Hc as [|?? Hb Hc']; subst.
  destruct Hf as [Hlt Heven]. destruct (is_byte_nibbles b Hb) as [Hhi Hlo].
  pose proof (Z.div_mod b 16 ltac:(lia)) as Hdm.
  assert (Hev : Nat.even (length (nibbles_of c)) = true).
  { rewrite length_nibbles_of. apply Nat.even_spec. eexists. reflexivity. }
  assert (Hodd : Nat.odd (length (nibbles_of c)) = false)
    by (rewrite <- Nat.negb_even, Hev; done).
  unfold is_nibble in *.
  assert (b / 16 = 0 ∨ b / 16 = 1 ∨ b / 16 = 2 ∨ b / 16 = 3) as Hcase by lia.
  exists (bool_decide (2 ≤ b / 16)).
  destruct (Z.even (b / 16)) eqn:Hb16.
  - specialize (Heven eq_refl). exists (nibbles_of c). split; [auto with s2r|].
    unfold hex_prefix. rewrite Hodd, pack_nibbles_of by done. f_equal.
    destruct Hcase as [E|[E|[E|E]]]; rewrite E in *; try done; simpl; lia.
  - exists (b mod 16 :: nibbles_of c).
    split; [constructor; [done|auto with s2r]|].
    unfold hex_prefix. cbn [length]. rewrite Nat.odd_succ, Hev, pack_nibbles_of by done.
    f_equal. destruct Hcase as [E|[E|[E|E]]]; rewrite E in *; try done; simpl; lia.
Qed.

Lemma hex_ok_cases hex :
  hex_ok hex → ∃ (t : bool) p, path_ok p ∧ hex = if t then p ++ [16] else p.
Proof. intros [p|p]; [exists false, p|exists true, p]; done. Qed.

(** ** The in-place variant *)

Lemma index_lookup {E A} (l : list A) i x : l !! i = Some x → @index E A l i = Ok x.
Proof. unfold index. by intros ->. Qed.

Lemma inPlaceLoop_spec {E} q : Nat.even (length q) = true →
  ∀ fuel (A : bytes) ni bi,
  path_ok q → take (length q) (drop ni A) = q →
  (bi ≤ ni + 1)%nat → (length q ≤ 2 * fuel)%nat →
  ∃ A', @inPlaceLoop E fuel A (ni + length q) ni bi = Ok A' ∧ length A' = length A ∧
        take (bi + length q / 2) A' = take bi A ++ pack_pairs q.
Proof.
  intros He. pattern q. revert q He. apply even_pair_ind.
  - intros fuel A ni bi _ _ _ _. exists A. rewrite !Nat.add_0_r, app_nil_r.
    split; [|done]. destruct fuel; simpl; by rewrite bool_decide_false by lia.
  - intros hi lo q _ IH fuel A ni bi Hp Hq Hbi Hfuel. cbn [length] in *.
    inversion Hp as [|?? Hhi Hp']; subst. inversion Hp' as [|?? Hlo Hp'']; subst.
    destruct fuel as [|fuel]; [lia|].
    assert (Hdrop : drop ni A = hi :: lo :: drop (ni + 2) A ∧
                    take (length q) (drop (ni + 2) A) = q).
    { rewrite <- drop_drop. destruct (drop ni A) as [|a [|b r]]; try discriminate.
      cbn in Hq. injection Hq as -> -> Hq'. done. }
    destruct Hdrop as [Hdrop Hq'].
    assert (H0 : A !! ni = Some hi).
    { rewrite <- (Nat.add_0_r ni), <- lookup_drop, Hdrop. done. }
    assert (H1 : A !! (ni + 1)%nat = Some lo) by (rewrite <- lookup_drop, Hdrop; done).
    pose proof (lookup_lt_Some _ _ _ H1) as Hlen.
    destruct (lookup_lt_is_Some_2 A bi ltac:(lia)) as [ob Hob].
    destruct (IH fuel (<[bi := pack hi lo]> A) (ni + 2)%nat (bi + 1)%nat)
      as (A' & Hloop & HlenA & Htake); try done; try lia.
    { rewrite drop_insert_lt by lia. done. }
    exists A'. rewrite length_insert in HlenA. split; [|split; [done|]].
    + cbn [inPlaceLoop]. rewrite bool_decide_true by lia.
      rewrite (index_lookup _ _ _ H0), (index_lookup _ _ _ H1), (index_lookup _ _ _ Hob). cbn.
      by replace (ni + S (S (length q)))%nat with (ni + 2 + length q)%nat by lia.
    + replace (S (S (length q)) / 2)%nat with (1 + length q / 2)%nat.
      2:{ replace (S (S (length q))) with (length q + 1 * 2)%nat by lia.
          rewrite Nat.div_add by lia. lia. }
      rewrite Nat.add_assoc, Htake.
      rewrite Nat.add_1_r, (take_S_r _ _ (pack hi lo)) by (apply list_lookup_insert_eq; lia).
      rewrite take_insert_ge by lia. rewrite <- app_assoc. simpl. by rewrite pack_spec.
Qed.

Lemma take_patch (a y : Z) A (hex : bytes) k r :
  hex ≠ [] → take (1 + k) (a :: A) = take 1 hex ++ r → take (S k) (y :: A) = y :: r.
Proof.
  destruct hex; [done|]. intros _. simpl. intros [= _ H]. by rewrite H.
Qed.

Lemma hexToCompactInPlace_spec {E} (t : bool) p :
  path_ok p → (if t then p ++ [16] else p) ≠ [] →
  ∃ buf, @hexToCompactInPlace E (if t then p ++ [16] else p)
           = Ok (buf, length p / 2 + 1)%nat
    ∧ take (length p / 2 + 1) buf = hex_prefix t p.
Proof.
  intros Hp Hne. set (hex := if t then p ++ [16] else p) in *.
  assert (Ht : hasTerm hex = t)
    by (subst hex; destruct t; [by rewrite hasTerm_snoc|by rewrite path_ok_no_term]).
  assert (Hlen : (if t then length hex - 1 else length hex)%nat = length p).
  { subst hex. destruct t; [rewrite length_app; simpl; lia|done]. }
  assert (Hpos : (0 < length hex)%nat) by (destruct hex; [done|simpl; lia]).
  destruct (lookup_lt_is_Some_2 hex 0%nat Hpos) as [h0 Hh0].
  assert (Htk : take (length p) hex = p) by (subst hex; destruct t; [by rewrite take_app_length|by rewrite take_ge]).
  unfold hexToCompactInPlace. rewrite Ht, Hlen. unfold hex_prefix.
  clearbody hex. clear Ht Hlen.
  destruct (Nat.odd (length p)) eqn:Ho.
  - destruct p as [|x p]; [done|]. inversion Hp as [|?? Hx Hp']; subst.
    cbn [length] in *. rewrite Nat.odd_succ in Ho.
    assert (h0 = x) as ->.
    { destruct hex; [done|]. injection Htk as -> _. by injection Hh0. }
    rewrite (index_lookup _ _ _ Hh0). mred.
    destruct (@inPlaceLoop_spec E p Ho (S (length p)) hex 1 1) as (A & Hl & HlA & HtA);
      try done; try lia.
    { destruct hex; [done|]. by injection Htk. }
    cbn [Nat.add] in Hl. rewrite Hl. mred. destruct A as [|a A]; [simpl in *; lia|]. cbn.
    eexists. split; [done|]. rewrite half_of_odd, Nat.add_1_r by done.
    rewrite (take_patch _ _ _ _ _ _ Hne HtA).
    rewrite (Z.mul_comm 16), <- pack_spec by (done || unfold is_nibble; destruct t; lia).
    by destruct t.
  - mred. destruct (@inPlaceLoop_spec E p (even_of_not_odd _ Ho) (length p) hex 0 1)
      as (A & Hl & HlA & HtA); try done; try lia.
    cbn [Nat.add] in Hl. rewrite Hl. mred. destruct A as [|a A]; [simpl in *; lia|]. cbn.
    eexists. split; [done|]. rewrite Nat.add_1_r.
    rewrite (take_patch _ _ _ _ _ _ Hne HtA). by destruct t.
Qed.

(** ** Prefixes *)

(** The split of two paths at the end of their common prefix. *)
Lemma prefixLen_cases a b :
  ∃ pre a' b', a = pre ++ a' ∧ b = pre ++ b' ∧ prefixLen a b = length pre
    ∧ (head a' = head b' → a' = [] ∧ b' = []).
Proof.
  revert b. induction a as [|x a IH]; intros [|y b]; simpl.
  - by exists [], [], [].
  - by exists [], [], (y :: b).
  - by exists [], (x :: a), [].
  - case_bool_decide as Hxy.
    + subst. destruct (IH b) as (pre & a' & b' & -> & -> & -> & D).
      by exists (y :: pre), a', b'.
    + exists [], (x :: a), (y :: b). simpl. repeat split; congruence.
Qed.

Lemma prefixLen_app p a b : prefixLen (p ++ a) (p ++ b) = (length p + prefixLen a b)%nat.
Proof. induction p; simpl; [done|]. by rewrite bool_decide_true, IHp. Qed.

Lemma prefixLen_prefix k r : prefixLen (k ++ r) k = length k.
Proof. induction k; simpl; [by destruct r|]. by rewrite bool_decide_true, IHk. Qed.

Lemma prefixLen_heads a b : head a ≠ head b → prefixLen a b = O.
Proof. destruct a, b; simpl; intros; try done. rewrite bool_decide_false; congruence. Qed.

Lemma prefixLen_le a b : (prefixLen a b ≤ length a)%nat ∧ (prefixLen a b ≤ length b)%nat.
Proof.
  destruct (prefixLen_cases a b) as (pre & a' & b' & -> & -> & -> & _).
  rewrite !length_app. lia.
Qed.

(** ** Properties *)

(** C38: the compact (hex-prefix) encoding of any hex key or path never panics
    and [compactToHex] reads the same hex key back, terminator included. *)
Theorem compact_roundtrip {E} hex :
  hex_ok hex → ∃ c, @hexToCompact E hex = Ok c ∧ compactToHex c = hex.
Proof.
  intros H. exists (compact_of hex). split; [by apply compact_of_ok|].
  by apply compactToHex_compact_of.
Qed.

Lemma compact_roundtrip_witness :
  ∃ c, @hexToCompact unit [1; 2; 3; 16] = Ok c ∧ compactToHex c = [1; 2; 3; 16].
Proof.
  apply (compact_roundtrip (E := unit) [1; 2; 3; 16]).
  apply (hex_term [1; 2; 3]). repeat constructor; unfold is_nibble; lia.
Defined.

(** Conversely every canonical compact string (flag nibble below 4, zero
    padding nibble when even) decodes to a hex key that encodes back to it, so
    the compact encoding is a bijection between hex keys and these strings. *)
Theorem compact_surjective {E} c :
  compact_ok c → hex_ok (compactToHex c) ∧ @hexToCompact E (compactToHex c) = Ok c.
Proof.
  intros (t & p & Hp & ->)%compact_ok_hex_prefix.
  rewrite compactToHex_hex_prefix by done. split.
  - destruct t; by constructor.
  - by apply hexToCompact_spec.
Qed.

Lemma compact_surjective_witness :
  hex_ok (compactToHex [0x31; 0x23])
  ∧ @hexToCompact unit (compactToHex [0x31; 0x23]) = Ok [0x31; 0x23].
Proof.
  apply (compact_surjective (E := unit)). split.
  - repeat constructor; unfold is_byte; lia.
  - vm_compute. split; [done|]. by intros.
Defined.

(** C39: the in-place conversion, which overwrites the buffer it is reading,
    leaves in the first [binLen] bytes exactly what [hexToCompact] returns, for
    every non-empty hex key; on the empty slice it panics (it stores the flag
    byte at index 0) where [hexToCompact] returns [[0]]. *)
Theorem hexToCompactInPlace_equiv {E} :
  (∀ hex, hex_ok hex → hex ≠ [] →
     ∃ buf binLen, @hexToCompactInPlace E hex = Ok (buf, binLen)
       ∧ @hexToCompact E hex = Ok (take binLen buf))
  ∧ @hexToCompactInPlace E [] = Panic "index out of range"
  ∧ @hexToCompact E [] = Ok [0].
Proof.
  split; [|done]. intros hex (t & p & Hp & ->)%hex_ok_cases Hne.
  destruct (@hexToCompactInPlace_spec E t p Hp Hne) as (buf & -> & Hb).
  exists buf, (length p / 2 + 1)%nat. split; [done|]. rewrite Hb.
  by apply hexToCompact_spec.
Qed.

Lemma hexToKeyBytes_key {E} k :
  Forall is_byte k → @hexToKeyBytes E (keybytesToHex k) = Ok k.
Proof.
  intros Hk. unfold hexToKeyBytes. rewrite keybytesToHex_nibbles, hasTerm_snoc, bool_decide_true by done.
  rewrite strip_term, length_nibbles_of.
  replace (Nat.odd (2 * length k)) with false by (symmetry; apply Nat.odd_mul).
  rewrite <- length_nibbles_of, decodeNibbles_zeros.
  - by rewrite pack_nibbles_of.
  - auto with s2r.
  - rewrite length_nibbles_of. apply Nat.even_spec. by eexists.
Qed.

(** A key survives the conversion to hex and back; the conversion to hex
    is injective on keys of bytes and ends in the terminator. *)
Theorem keybytes_roundtrip {E} k :
  Forall is_byte k →
  @hexToKeyBytes E (keybytesToHex k) = Ok k ∧ hex_ok (keybytesToHex k)
  ∧ hasTerm (keybytesToHex k) = true
  ∧ ∀ k', Forall is_byte k' → keybytesToHex k' = keybytesToHex k → k' = k.
Proof.
  intros Hk. split; [by apply hexToKeyBytes_key|split; [auto with s2r|split]].
  - by rewrite keybytesToHex_nibbles, hasTerm_snoc.
  - intros k' Hk' E'. by apply keybytesToHex_inj.
Qed.

Lemma keybytes_roundtrip_witness :
  @hexToKeyBytes unit (keybytesToHex [18; 52]) = Ok [18; 52].
Proof.
  eapply proj1. apply (keybytes_roundtrip (E := unit) [18; 52]).
  repeat constructor; unfold is_byte; lia.
Defined.
