(* ===== verification/Errors.v ===== *)
(** * Errors: trie/errors.go, the error values of trie/node.go, trie/trie.go,
    trie/database.go and trie/nodeset.go, and those of the two state packages *)
From S2P Require Import Prelude.
#[local] Set Warnings "-register-all".

(** The context [decodeNode] records on the way to an invalid child. *)
Inductive decodeCtx := CtxShort | CtxFull | CtxVal | CtxChild (i : nat).

Inductive error : Type :=
(** a trie node is not in the store (errors.go) *)
| MissingNodeError (Owner NodeHash Path : bytes) (err : option error)
(** node.go *)
| ErrUnexpectedEOF
| ErrRlp                                  (* an error of package rlp *)
| ErrDecode (err : error)                 (* "decode error: %v" *)
| ErrListElements (c : Z)                 (* "invalid number of list elements" *)
| ErrInvalidValue (err : error)           (* "invalid value node: %v" *)
| ErrOversized (size : nat)               (* "oversized embedded node" *)
| ErrStringSize (size : nat)              (* "invalid RLP string size" *)
| decodeError (what : error) (stack : list decodeCtx)
(** trie.go, trie_reader.go *)
| ErrStateNotFound (stateRoot : bytes)      (* "state not found" *)
| ErrNonConsensus                         (* "non-consensus node" *)
(** database.go, nodeset.go *)
| ErrNotFound
| ErrDisk                                 (* an error of the key-value store *)
| ErrCid                                  (* an error of package multihash *)
| ErrDuplicateTrie (owner : bytes)
(** state/statedb.go, state/state_object.go *)
| ErrGetStateObject (addr : bytes) (err : error)    (* "getDeleteStateObject (%x) error: %w" *)
| ErrUpdateStateObject (addr : bytes) (err : error)
| ErrDeleteStateObject (addr : bytes) (err : error)
| ErrLoadCode (hash : bytes) (err : error)          (* "can't load code hash %x: %v" *)
| ErrLoadCodeSize (hash : bytes) (err : error)
| ErrNoStorageTrie                                  (* "storage trie for requested address..." *)
(** direct_by_leaf/state_database.go *)
| ErrNoRows                                         (* the SQL driver found no row *)
| ErrSql                                            (* any other error of the SQL driver *)
| ErrDeriveCid (err : error).                       (* "cannot derive CID from provided codehash: %s" *)

(** A Go call returning [(A, error)]. *)
Abbreviation result := (outcome error).

(** [MissingNodeError.Unwrap]. *)
Definition Unwrap (e : error) : option error :=
  match e with MissingNodeError _ _ _ err => err | _ => None end.
