(* ===== verification/Node.v ===== *)
(** * Trie nodes: node.go, node_enc.go and the raw nodes of database_node.go

    The [node] interface with its seven dynamic types (and nil), the consensus
    RLP encoding and the decoder. *)
From S2P Require Import Prelude Errors Geth Encoding.
#[local] Set Warnings "-register-all".
Local Open Scope nat_scope.

(** ** Data *)

(** [nodeFlag]: the cached hash (nil when absent) and the dirty bit. *)
Record nodeFlag := NodeFlag { flag_hash : option bytes; flag_dirty : bool }.

Inductive node : Type :=
| nilNode
| fullNode (Children : list node) (flags : nodeFlag)
| shortNode (Key : bytes) (Val : node) (flags : nodeFlag)
| hashNode (h : bytes)
| valueNode (v : bytes)
| rawNode (blob : bytes)
| rawFullNode (Children : list node)
| rawShortNode (Key : bytes) (Val : node).

(** [nilValueNode]: the empty value an unset child is collapsed to. *)
Definition nilValueNode : node := valueNode [].

(** The [cache] methods. *)
Definition cache (n : node) : result (option bytes * bool) :=
  match n with
  | fullNode _ fl | shortNode _ _ fl => Ok (flag_hash fl, flag_dirty fl)
  | hashNode _ | valueNode _ => Ok (None, true)
  | rawNode _ | rawFullNode _ | rawShortNode _ _ =>
      Panic "this should never end up in a live trie"
  | nilNode => Panic "nil pointer dereference"
  end.

Section codec.
Context `{RlpOps}.

(** ** node_enc.go *)

(** The [encode] methods; a nil child is written as the empty string. *)
Fixpoint encode (n : node) : bytes :=
  match n with
  | nilNode => rlp_EmptyString
  | fullNode cs _ | rawFullNode cs => rlp_List (concat (map encode cs))
  | shortNode k v _ | rawShortNode k v => rlp_List (rlp_WriteBytes k ++ encode v)
  | hashNode b | valueNode b => rlp_WriteBytes b
  | rawNode b => b
  end.

Definition nodeToBytes (n : node) : result bytes :=
  match n with
  | nilNode => Panic "nil pointer dereference"
  | _ => Ok (encode n)
  end.

(** ** node.go: the decoder *)

Definition wrapError (err : error) (ctx : decodeCtx) : error :=
  match err with
  | decodeError what stack => decodeError what (stack ++ [ctx])
  | _ => decodeError err [ctx]
  end.

(** [wrapError] on the error result of a call. *)
Definition wrap {A} (ctx : decodeCtx) (o : result A) : result A :=
  match o with Err e => Err (wrapError e ctx) | _ => o end.

(** An rlp call, with its error if it fails. *)
Definition rlp_try {A} (o : option A) : result A :=
  match o with Some a => Ok a | None => Err ErrRlp end.

(** The decoders call each other through [decodeNode]; the recursive knot is
    tied below.  [decodeRef] passes the whole buffer on for an embedded node. *)
Definition decodeRef (decodeNode : option bytes → bytes → result node) (buf : bytes)
    : result (node * bytes) :=
  '(kind, val, rest) ← rlp_try (rlp_Split buf);
  match kind with
  | KList =>
      let size := length buf - length rest in
      if bool_decide (hashLen < size) then Err (ErrOversized size)
      else n ← decodeNode None buf; Ok (n, rest)
  | KString =>
      if bool_decide (length val = 0) then Ok (nilNode, rest)
      else if bool_decide (length val = 32) then Ok (hashNode val, rest)
      else Err (ErrStringSize (length val))
  | KByte => Err (ErrStringSize (length val))
  end.

Definition decodeShort (decodeNode : option bytes → bytes → result node)
    (hash : option bytes) (elems : bytes) : result node :=
  '(kbuf, rest) ← rlp_try (rlp_SplitString elems);
  let flag := NodeFlag hash false in
  let key := compactToHex kbuf in
  if hasTerm key then
    match rlp_SplitString rest with
    | Some (val, _) => Ok (shortNode key (valueNode val) flag)
    | None => Err (ErrInvalidValue ErrRlp)
    end
  else
    '(r, _) ← wrap CtxVal (decodeRef decodeNode rest);
    Ok (shortNode key r flag).

(** The loop over the first 16 children, from index [i]. *)
Fixpoint decodeChildren (decodeNode : option bytes → bytes → result node)
    (count i : nat) (elems : bytes) : result (list node * bytes) :=
  match count with
  | O => Ok ([], elems)
  | S count =>
      '(cld, rest) ← wrap (CtxChild i) (decodeRef decodeNode elems);
      '(cs, elems) ← decodeChildren decodeNode count (S i) rest;
      Ok (cld :: cs, elems)
  end.

Definition decodeFull (decodeNode : option bytes → bytes → result node)
    (hash : option bytes) (elems : bytes) : result node :=
  '(cs, elems) ← decodeChildren decodeNode 16 0 elems;
  '(val, _) ← rlp_try (rlp_SplitString elems);
  let last := if bool_decide (0 < length val) then valueNode val else nilNode in
  Ok (fullNode (cs ++ [last]) (NodeFlag hash false)).

Fixpoint decodeNodeFuel (fuel : nat) (hash : option bytes) (buf : bytes) : result node :=
  match fuel with
  | O => OutOfFuel
  | S fuel =>
      if bool_decide (length buf = 0) then Err ErrUnexpectedEOF
      else
        match rlp_SplitList buf with
        | None => Err (ErrDecode ErrRlp)
        | Some (elems, _) =>
            let c := rlp_CountValues elems in
            if bool_decide (c = 2%Z) then wrap CtxShort (decodeShort (decodeNodeFuel fuel) hash elems)
            else if bool_decide (c = 17%Z) then wrap CtxFull (decodeFull (decodeNodeFuel fuel) hash elems)
            else Err (ErrListElements c)
        end
  end.

(** [decodeNodeUnsafe] and [decodeNode] (which first copies its input).  An
    embedded node is shorter than the list around it, so the length of the
    buffer bounds the nesting. *)
Definition decodeNodeUnsafe (hash : option bytes) (buf : bytes) : result node :=
  decodeNodeFuel (S (length buf)) hash buf.
Definition decodeNode (hash : option bytes) (buf : bytes) : result node :=
  decodeNodeUnsafe hash buf.

(** [mustDecodeNode], [mustDecodeNodeUnsafe]: panic on any error. *)
Definition mustDecodeNode (hash : option bytes) (buf : bytes) : result node :=
  match decodeNode hash buf with
  | Err _ => Panic "mustDecodeNode"
  | o => o
  end.
Definition mustDecodeNodeUnsafe (hash : option bytes) (buf : bytes) : result node :=
  match decodeNodeUnsafe hash buf with
  | Err _ => Panic "mustDecodeNodeUnsafe"
  | o => o
  end.
End codec.
