(* ===== verification/Decode.v ===== *)
(** * What the decoder of node.go can return

    [decodeNode] reads blobs that come from a database or, through proofs, from
    a peer.  Whatever the bytes are, it ends with an error or with a node of the
    shapes below, which is what the rest of the package relies on: it never
    panics, and the length of the blob bounds the nesting. *)
From S2P Require Import Prelude Errors Geth Encoding Node.
Local Open Scope nat_scope.

(** The value of a call that ends without a panic satisfies [P]. *)
Definition sat {A} (P : A → Prop) (r : result A) : Prop :=
  match r with Ok a => P a | Err _ => True | Panic _ | OutOfFuel => False end.

Lemma sat_bind {A B} (P : A → Prop) (Q : B → Prop) (r : result A) (f : A → result B) :
  sat P r → (∀ a, P a → sat Q (f a)) → sat Q (r ≫= f).
Proof. destruct r; simpl; auto. Qed.

Lemma sat_wrap {A} (P : A → Prop) ctx (r : result A) : sat P r → sat P (wrap ctx r).
Proof. by destruct r. Qed.

(** The nodes a decoder may produce, with [h] for the hash in their flags, and
    the references to a child. *)
Inductive well_shaped : option bytes → node → Prop :=
| shape_leaf h k v :
    hex_ok k → hasTerm k = true → Forall is_byte v →
    well_shaped h (shortNode k (valueNode v) (NodeFlag h false))
| shape_ext h k n :
    hex_ok k → hasTerm k = false → ref_shaped n →
    well_shaped h (shortNode k n (NodeFlag h false))
| shape_full h cs last :
    length cs = 16 → Forall ref_shaped cs →
    last = nilNode ∨ (∃ v, last = valueNode v ∧ v ≠ [] ∧ Forall is_byte v) →
    well_shaped h (fullNode (cs ++ [last]) (NodeFlag h false))
with ref_shaped : node → Prop :=
| ref_nil : ref_shaped nilNode
| ref_hash b : length b = 32 → Forall is_byte b → ref_shaped (hashNode b)
| ref_embedded n : well_shaped None n → ref_shaped n.

#[export] Hint Constructors well_shaped ref_shaped : s2r.

(** The key of a short node is a hex key: nibbles, then perhaps the terminator. *)
Lemma hex_ok_compactToHex c : Forall is_byte c → hex_ok (compactToHex c).
Proof.
  intros Hc. unfold compactToHex. destruct c as [|b c]; [by apply (hex_path [])|].
  rewrite keybytesToHex_nibbles. pose proof (nibbles_of_ok _ Hc) as Hn.
  assert (∃ x y l, nibbles_of (b :: c) = x :: y :: l) as (x & y & l & El) by (simpl; eauto).
  rewrite El in *. rewrite bool_decide_false by done. inversion Hn as [|?? Hx Hl]; subst.
  cbn [app]. case_bool_decide.
  - rewrite !app_comm_cons, strip_term. by apply hex_path, Forall_drop; constructor.
  - assert (0 ≤ Z.land x 1 < 2)%Z as [? ?].
    { change 1%Z with (Z.ones 1). rewrite Z.land_ones by lia. apply Z.mod_pos_bound. lia. }
    destruct (decide (Z.land x 1 = 0)%Z) as [->|].
    { apply (hex_term l). by inversion Hl. }
    replace (Z.land x 1) with 1%Z by lia. by apply (hex_term (y :: l)).
Qed.

Section decode.
Context `{RlpOps, !RlpSlices}.

Lemma split_bytes b k c r :
  rlp_Split b = Some (k, c, r) → Forall is_byte b →
  Forall is_byte c ∧ Forall is_byte r ∧ length c + length r ≤ length b
  ∧ (k = KList → length c < length b).
Proof.
  intros (pre & -> & Hk)%rlp_Split_slices Hb. rewrite !Forall_app in Hb. destruct Hb as (? & ? & ?).
  rewrite !length_app. split_and!; [done..|lia|]. intros Hl. apply Hk in Hl. destruct pre; simpl; [done|lia].
Qed.

Lemma splitString_bytes b c r :
  rlp_SplitString b = Some (c, r) → Forall is_byte b →
  Forall is_byte c ∧ Forall is_byte r ∧ length r ≤ length b.
Proof.
  intros (k & Hs & _)%rlp_SplitString_Split Hb. destruct (split_bytes _ _ _ _ Hs Hb) as (? & ? & ? & _).
  split_and!; [done..|lia].
Qed.

(** One level of the decoders, for any [dec] that is right on shorter buffers. *)
Section level.
Context (dec : option bytes → bytes → result node) (N : nat).
Context (Hdec : ∀ h buf, length buf < N → Forall is_byte buf → sat (well_shaped h) (dec h buf)).

Definition ref_read (buf : bytes) (p : node * bytes) : Prop :=
  ref_shaped p.1 ∧ Forall is_byte p.2 ∧ length p.2 ≤ length buf.

Lemma decodeRef_sat buf :
  length buf < N → Forall is_byte buf → sat (ref_read buf) (decodeRef dec buf).
Proof.
  intros Hl Hb. unfold decodeRef. destruct (rlp_Split buf) as [[[k c] r]|] eqn:Es; [|done].
  destruct (split_bytes _ _ _ _ Es Hb) as (Hc & Hr & Hle & _).
  simpl. destruct k; simpl; [done|..].
  - case_bool_decide; [|case_bool_decide]; [..|done];
      (split; simpl; [auto with s2r|split; [done|lia]]).
  - case_bool_decide; [done|]. eapply sat_bind; [by apply Hdec|]. intros n Hn.
    split; [by constructor|]. simpl. split; [done|lia].
Qed.

Lemma decodeShort_sat h elems :
  length elems < N → Forall is_byte elems → sat (well_shaped h) (decodeShort dec h elems).
Proof.
  intros Hl Hb. unfold decodeShort. destruct (rlp_SplitString elems) as [[kbuf rest]|] eqn:Es; [|done].
  destruct (splitString_bytes _ _ _ Es Hb) as (Hk & Hr & Hle). cbn [rlp_try mbind outcome_bind].
  pose proof (hex_ok_compactToHex kbuf Hk) as Hhex.
  destruct (hasTerm (compactToHex kbuf)) eqn:Et.
  - destruct (rlp_SplitString rest) as [[val r']|] eqn:Ev; [|done].
    destruct (splitString_bytes _ _ _ Ev Hr) as (? & _). simpl. auto with s2r.
  - eapply sat_bind; [apply sat_wrap, decodeRef_sat; [lia|done]|]. intros [n r'] (Hn & _). simpl. auto with s2r.
Qed.

Lemma decodeChildren_sat count : ∀ i elems,
  length elems < N → Forall is_byte elems →
  sat (λ p, length p.1 = count ∧ Forall ref_shaped p.1 ∧ Forall is_byte p.2)
    (decodeChildren dec count i elems).
Proof.
  induction count as [|count IH]; intros i elems Hl Hb; [by repeat constructor|]. cbn [decodeChildren].
  eapply sat_bind; [by apply sat_wrap, decodeRef_sat|]. intros [n r] (Hn & Hr & Hle). simpl in *.
  eapply sat_bind; [apply IH; [lia|done]|]. intros [cs r'] (Hlen & Hcs & Hr'). simpl in *.
  split_and!; [lia|by constructor|done].
Qed.

Lemma decodeFull_sat h elems :
  length elems < N → Forall is_byte elems → sat (well_shaped h) (decodeFull dec h elems).
Proof.
  intros Hl Hb. unfold decodeFull. eapply sat_bind; [by apply decodeChildren_sat|].
  intros [cs r] (Hlen & Hcs & Hr). simpl in *.
  destruct (rlp_SplitString r) as [[val r']|] eqn:Ev; [|done]. simpl.
  destruct (splitString_bytes _ _ _ Ev Hr) as (Hv & _). constructor; [done..|].
  case_bool_decide; [right|by left]. exists val. split_and!; [done| |done]. intros ->. simpl in *. lia.
Qed.
End level.

Lemma decodeNodeFuel_sat fuel : ∀ h buf,
  length buf < fuel → Forall is_byte buf → sat (well_shaped h) (decodeNodeFuel fuel h buf).
Proof.
  induction fuel as [|fuel IH]; intros h buf Hl Hb; [lia|]. cbn [decodeNodeFuel].
  case_bool_decide; [done|]. destruct (rlp_SplitList buf) as [[elems r]|] eqn:Es; [|done].
  apply rlp_SplitList_Split in Es. destruct (split_bytes _ _ _ _ Es Hb) as (He & _ & _ & Hlt).
  specialize (Hlt eq_refl).
  case_bool_decide; [|case_bool_decide]; [..|done]; apply sat_wrap.
  - apply (decodeShort_sat _ fuel); [exact IH|lia|done].
  - apply (decodeFull_sat _ fuel); [exact IH|lia|done].
Qed.

(** C26: [decodeNode] is total on bytes from anywhere: it reports an error or
    returns a node in which every key is a hex key, exactly the keys with a
    terminator lead to values, a branch has sixteen references and a value or
    nil, every hash has 32 bytes, only the outermost node carries the given
    hash and nothing is dirty.  It never panics, and nested nodes do not make it
    run on. *)
Theorem decodeNode_total h buf :
  Forall is_byte buf →
  match decodeNode h buf with
  | Ok n => well_shaped h n
  | Err _ => True
  | Panic _ | OutOfFuel => False
  end.
Proof. intros Hb. apply (decodeNodeFuel_sat (S (length buf))); [lia|done]. Qed.
End decode.

(** ** Blobs from a stranger *)

Module Witness.
Import Standin.

(** An extension with an empty path to nowhere, which decodes. *)
Definition odd_blob : bytes := [194; 0; 128]%Z.

Lemma decodeNode_total_witness :
  Forall is_byte odd_blob
  ∧ match decodeNode (Some []) odd_blob with
    | Ok n => well_shaped (Some []) n
    | Err _ => True
    | Panic _ | OutOfFuel => False
    end.
Proof.
  assert (Forall is_byte odd_blob) as Hb by (repeat constructor; done).
  split; [done|]. by apply (decodeNode_total (Some []) odd_blob).
Defined.

Example odd_blob_decodes :
  decodeNode (Some []) odd_blob = Ok (shortNode [] nilNode (NodeFlag (Some []) false)).
Proof. reflexivity. Qed.

(** A list of two whose second value is cut off, and a nested oversized node. *)
Example truncated : decodeNode None [194; 0; 129]%Z = Err (ErrListElements 0).
Proof. vm_compute. reflexivity. Qed.
Example oversized :
  decodeNode None (rlp_List (rlp_WriteBytes [0]%Z ++ rlp_List (replicate 40 1%Z)))
  = Err (decodeError (ErrOversized 41) [CtxVal; CtxShort]).
Proof. vm_compute. reflexivity. Qed.
End Witness.
