(* ===== verification/Mpt.v ===== *)
(** * The Merkle Patricia trie as a mathematical object

    The specification the trie package is proved against: canonical trees over
    nibble paths, the finite map a tree stands for, insertion and deletion, the
    consensus encoding and the root hash.  No caching, no store, no fuel. *)
From S2P Require Import Prelude Geth Encoding.
#[local] Set Warnings "-register-all".
Local Open Scope nat_scope.

(** ** Trees *)

(** A leaf holds the rest of its path; an extension shares a path prefix; a
    branch has a child per nibble and the value of the key that ends there. *)
Inductive tree :=
| TLeaf (k v : bytes)
| TExt (k : bytes) (c : tree)
| TFull (cs : list (option tree)) (ov : option bytes).

(** Induction that reaches the children of a branch. *)
Lemma tree_induction (P : tree → Prop) :
  (∀ k v, P (TLeaf k v)) → (∀ k c, P c → P (TExt k c)) →
  (∀ cs ov, (∀ i c, cs !! i = Some (Some c) → P c) → P (TFull cs ov)) →
  ∀ t, P t.
Proof.
  intros Hleaf Hext Hfull. fix IH 1. intros [k v|k c|cs ov].
  - apply Hleaf.
  - apply Hext, IH.
  - apply Hfull. induction cs as [|[c|] cs IHcs]; intros [|i] c' Hi; try discriminate Hi.
    + injection Hi as <-. apply IH.
    + exact (IHcs i c' Hi).
    + exact (IHcs i c' Hi).
Qed.

Definition is_full (t : tree) : Prop := match t with TFull _ _ => True | _ => False end.

(** The value a tree holds at a path. *)
Fixpoint tget (t : tree) (p : bytes) : option bytes :=
  match t with
  | TLeaf k v => if bool_decide (p = k) then Some v else None
  | TExt k c => if bool_decide (take (length k) p = k) then tget c (drop (length k) p) else None
  | TFull cs ov =>
      match p with
      | [] => ov
      | x :: p => match map (λ oc, match oc with Some c => tget c p | None => None end) cs !! nib x with
                  | Some r => r
                  | None => None
                  end
      end
  end.

Definition tget_opt (ot : option tree) (p : bytes) : option bytes :=
  match ot with Some t => tget t p | None => None end.

(** The number of occupied slots of a branch. *)
Definition entries {A} (cs : list (option A)) (ov : option bytes) : nat :=
  occupied cs + match ov with Some _ => 1 | None => 0 end.

(** Canonical trees: no empty value, no empty extension, extensions lead to
    branches, branches have 16 children and at least two occupied slots. *)
Fixpoint wf (t : tree) : Prop :=
  match t with
  | TLeaf k v => path_ok k ∧ v ≠ []
  | TExt k c => path_ok k ∧ k ≠ [] ∧ is_full c ∧ wf c
  | TFull cs ov =>
      length cs = 16 ∧ allP (λ oc, match oc with Some c => wf c | None => True end) cs
      ∧ ov ≠ Some [] ∧ 2 ≤ entries cs ov
  end.
Definition wf_opt (ot : option tree) : Prop := from_option wf True ot.

(** ** Updates *)

(** An extension unless the prefix is empty. *)
Definition mk_ext (k : bytes) (t : tree) : tree :=
  match k with [] => t | _ => TExt k t end.

(** Prepend a path to a tree, merging short nodes. *)
Definition prepend (k : bytes) (t : tree) : tree :=
  match t with
  | TLeaf k' v => TLeaf (k ++ k') v
  | TExt k' c => TExt (k ++ k') c
  | TFull _ _ => mk_ext k t
  end.

(** Put into a branch what remains of a path: a value if nothing remains. *)
Definition put (q : bytes) (v : bytes) (mk : bytes → tree) (b : list (option tree) * option bytes)
    : list (option tree) * option bytes :=
  match q with
  | [] => (b.1, Some v)
  | x :: q => (<[nib x := Some (mk q)]> b.1, b.2)
  end.
Definition empty_branch : list (option tree) * option bytes := (replicate 16 None, None).
Definition full_of (b : list (option tree) * option bytes) : tree := TFull b.1 b.2.

Fixpoint tinsert (t : tree) (p v : bytes) : tree :=
  match t with
  | TLeaf k v0 =>
      if bool_decide (p = k) then TLeaf k v
      else
        let m := prefixLen p k in
        mk_ext (take m p)
          (full_of (put (drop m p) v (λ q, TLeaf q v)
             (put (drop m k) v0 (λ q, TLeaf q v0) empty_branch)))
  | TExt k c =>
      let m := prefixLen p k in
      if bool_decide (m = length k) then TExt k (tinsert c (drop m p) v)
      else
        mk_ext (take m p)
          (full_of (put (drop m p) v (λ q, TLeaf q v)
             (put (drop m k) [] (λ q, mk_ext q c) empty_branch)))
  | TFull cs ov =>
      match p with
      | [] => TFull cs (Some v)
      | x :: p =>
          TFull (alter (λ oc, Some (match oc with
                                    | Some c => tinsert c p v
                                    | None => TLeaf p v
                                    end)) (nib x) cs) ov
      end
  end.
Definition tinsert_opt (ot : option tree) (p v : bytes) : tree :=
  match ot with Some t => tinsert t p v | None => TLeaf p v end.

(** The first occupied child. *)
Fixpoint first_child (i : nat) (cs : list (option tree)) : option (nat * tree) :=
  match cs with
  | [] => None
  | Some c :: _ => Some (i, c)
  | None :: cs => first_child (S i) cs
  end.

(** A branch that lost a slot: one that keeps two is still a branch. *)
Definition reduce (cs : list (option tree)) (ov : option bytes) : option tree :=
  if bool_decide (2 ≤ entries cs ov) then Some (TFull cs ov)
  else
    match ov, first_child 0 cs with
    | Some v, _ => Some (TLeaf [] v)
    | None, Some (i, c) => Some (prepend [Z.of_nat i] c)
    | None, None => None
    end.

Fixpoint tdelete (t : tree) (p : bytes) : option tree :=
  match t with
  | TLeaf k v => if bool_decide (p = k) then None else Some t
  | TExt k c =>
      if bool_decide (take (length k) p = k)
      then prepend k <$> tdelete c (drop (length k) p) else Some t
  | TFull cs ov =>
      match p with
      | [] => match ov with Some _ => reduce cs None | None => Some t end
      | x :: p =>
          reduce (alter (λ oc, match oc with Some c => tdelete c p | None => None end) (nib x) cs) ov
      end
  end.
Definition tdelete_opt (ot : option tree) (p : bytes) : option tree :=
  match ot with Some t => tdelete t p | None => None end.

(** ** Encoding and root hash *)

Section merkle.
Context `{RlpOps, CryptoOps}.

(** How a parent refers to a child: the encoding itself when it is shorter than
    a hash, the hash otherwise. *)
Definition node_ref (enc : bytes) : bytes :=
  if bool_decide (length enc < 32) then enc else rlp_WriteBytes (keccak256 enc).

Fixpoint tenc (t : tree) : bytes :=
  match t with
  | TLeaf k v => rlp_List (rlp_WriteBytes (compact_of (k ++ [16%Z])) ++ rlp_WriteBytes v)
  | TExt k c => rlp_List (rlp_WriteBytes (compact_of k) ++ node_ref (tenc c))
  | TFull cs ov =>
      rlp_List (concat (map (λ oc, match oc with
                                   | Some c => node_ref (tenc c)
                                   | None => rlp_EmptyString
                                   end) cs) ++ rlp_WriteBytes (default [] ov))
  end.

Definition root_hash (ot : option tree) : bytes :=
  match ot with Some t => keccak256 (tenc t) | None => EmptyRootHash end.
End merkle.

(** ** Lookups *)

Lemma take_prefix (k q : bytes) :
  (∃ r, q = k ++ r) ∨ take (length k) q ≠ k.
Proof.
  destruct (decide (take (length k) q = k)) as [E|]; [left|by right].
  exists (drop (length k) q). rewrite <- E at 1. by rewrite take_drop.
Qed.

Lemma tget_ext_app k c r : tget (TExt k c) (k ++ r) = tget c r.
Proof. simpl. by rewrite take_app_length, bool_decide_true, drop_app_length. Qed.

Lemma tget_ext_ne k c q : take (length k) q ≠ k → tget (TExt k c) q = None.
Proof. intros. simpl. by rewrite bool_decide_false. Qed.

Lemma tget_leaf k v q : tget (TLeaf k v) q = if bool_decide (q = k) then Some v else None.
Proof. done. Qed.

Lemma tget_full_nil cs ov : tget (TFull cs ov) [] = ov.
Proof. done. Qed.

Lemma tget_full_cons cs ov x q :
  tget (TFull cs ov) (x :: q) = tget_opt (cs !! nib x ≫= id) q.
Proof.
  simpl. change (map ?f cs) with (f <$> cs). rewrite list_lookup_fmap.
  by destruct (cs !! nib x) as [[?|]|].
Qed.

Lemma app_eq_head (k r : bytes) : r ≠ [] → k ++ r ≠ k.
Proof. intros Hr E. apply Hr. rewrite <- (app_nil_r k) in E at 2. by simplify_list_eq. Qed.

Lemma tget_prepend_app k t r : tget (prepend k t) (k ++ r) = tget t r.
Proof.
  destruct t as [k' v|k' c|cs ov]; simpl.
  - apply (f_equal (λ b : bool, if b then Some v else None)). apply bool_decide_ext.
    split; [apply app_inv_head|congruence].
  - rewrite length_app. rewrite take_app, take_ge, Nat.add_comm, Nat.add_sub by lia.
    rewrite drop_app, drop_ge, Nat.add_sub by lia. simpl.
    replace (bool_decide (k ++ take (length k') r = k ++ k'))
      with (bool_decide (take (length k') r = k')); [done|].
    apply bool_decide_ext. split; [congruence|apply app_inv_head].
  - destruct k as [|x k]; [done|]. apply (tget_ext_app (x :: k)).
Qed.

Lemma tget_prepend_ne k t q : take (length k) q ≠ k → tget (prepend k t) q = None.
Proof.
  intros Hne. destruct t as [k' v|k' c|cs ov]; simpl.
  - rewrite bool_decide_false; [done|]. intros ->. by rewrite take_app_length in Hne.
  - rewrite bool_decide_false; [done|]. intros E. apply Hne.
    apply (f_equal (take (length k))) in E.
    by rewrite take_take, length_app, Nat.min_l, take_app_length in E by lia.
  - destruct k; [by rewrite take_0 in Hne|]. by apply tget_ext_ne.
Qed.

Lemma is_full_prepend k t : is_full t → prepend k t = mk_ext k t.
Proof. by destruct t. Qed.

(** ** Well-formed trees *)

Lemma wf_full_child cs ov i c :
  wf (TFull cs ov) → cs !! i = Some (Some c) → wf c ∧ i < 16.
Proof.
  intros (Hlen & Hall & _) Hi. apply allP_Forall in Hall. split.
  - rewrite Forall_lookup in Hall. apply (Hall i (Some c) Hi).
  - rewrite <- Hlen. by eapply lookup_lt_Some.
Qed.

Lemma nib_of_nat i : nib (Z.of_nat i) = i.
Proof. apply Nat2Z.id. Qed.

Lemma nibble_of_nat i : i < 16 → is_nibble (Z.of_nat i).
Proof. unfold is_nibble. lia. Qed.

Lemma nib_lt x : is_nibble x → nib x < 16.
Proof. unfold is_nibble, nib. lia. Qed.

Lemma nib_inj x y : is_nibble x → is_nibble y → nib x = nib y → x = y.
Proof. unfold is_nibble, nib. lia. Qed.

#[export] Hint Resolve nibble_of_nat nib_lt : s2r.

Lemma tget_child cs ov i c q :
  cs !! i = Some (Some c) → tget (TFull cs ov) (Z.of_nat i :: q) = tget c q.
Proof. intros Hi. by rewrite tget_full_cons, nib_of_nat, Hi. Qed.

Lemma wf_has_key t : wf t → ∃ p v, path_ok p ∧ tget t p = Some v.
Proof.
  induction t as [k v|k c IH|cs ov IH] using tree_induction; intros Hwf.
  - destruct Hwf. exists k, v. by rewrite tget_leaf, bool_decide_true.
  - destruct Hwf as (Hk & _ & _ & Hc). destruct (IH Hc) as (p & v & Hp & Hv).
    exists (k ++ p), v. rewrite tget_ext_app. split; [by apply Forall_app|done].
  - pose proof Hwf as (Hlen & _ & _ & He). destruct ov as [v|].
    { by exists [], v. }
    unfold entries in He. destruct (occupied_one cs) as (i & c & Hi); [lia|].
    destruct (wf_full_child _ _ _ _ Hwf Hi) as [Hc Hi16].
    destruct (IH i c Hi Hc) as (p & v & Hp & Hv). exists (Z.of_nat i :: p), v.
    rewrite (tget_child _ _ _ _ _ Hi). auto with s2r.
Qed.

(** A branch holds keys with different first nibbles. *)
Lemma full_two_keys cs ov : wf (TFull cs ov) →
  ∃ p1 p2, path_ok p1 ∧ path_ok p2 ∧ head p1 ≠ head p2
    ∧ is_Some (tget (TFull cs ov) p1) ∧ is_Some (tget (TFull cs ov) p2).
Proof.
  intros Hwf. pose proof Hwf as (Hlen & _ & _ & He). unfold entries in He.
  assert (Hchild : ∀ i c, cs !! i = Some (Some c) →
    ∃ p, path_ok p ∧ head p = Some (Z.of_nat i) ∧ is_Some (tget (TFull cs ov) p)).
  { intros i c Hi. destruct (wf_full_child _ _ _ _ Hwf Hi) as [Hc Hi16].
    destruct (wf_has_key c Hc) as (p & v & Hp & Hv). exists (Z.of_nat i :: p).
    rewrite (tget_child _ _ _ _ _ Hi), Hv. eauto with s2r. }
  destruct ov as [v|].
  - destruct (occupied_one cs) as (i & c & Hi); [lia|].
    destruct (Hchild i c Hi) as (p & Hp & Hh & Hs). exists [], p. rewrite Hh. eauto.
  - destruct (occupied_two cs) as (i & j & a & b & Hij & Hi & Hj); [lia|].
    destruct (Hchild i a Hi) as (p & Hp & Hh & Hs), (Hchild j b Hj) as (q & Hq & Hh' & Hs').
    exists p, q. rewrite Hh, Hh'. repeat split; auto. intros [= E]. lia.
Qed.
