(* ===== verification/MptFacts.v ===== *)
(** * Insertion, deletion and canonicity of the specification trees

    [tinsert] and [tdelete] are finite-map updates that keep trees canonical,
    and a canonical tree is determined by the map it stands for, so the root
    hash of a trie depends on its content only. *)
From S2P Require Import Prelude Geth Encoding Mpt.
Local Open Scope nat_scope.

Lemma path_ok_app a b : path_ok (a ++ b) ↔ path_ok a ∧ path_ok b.
Proof. apply Forall_app. Qed.

Lemma path_ok_cons x p : path_ok (x :: p) ↔ is_nibble x ∧ path_ok p.
Proof. apply Forall_cons. Qed.

#[export] Hint Resolve -> path_ok_app : s2r.

(** ** Branches built by a split *)

Lemma length_put q v mk b : length (put q v mk b).1 = length b.1.
Proof. destruct q; simpl; [done|]. apply length_insert. Qed.

Lemma tget_put q v mk b r :
  path_ok q → path_ok r → length b.1 = 16 →
  tget (full_of (put q v mk b)) r =
    if bool_decide (head q = head r)
    then match q with [] => Some v | _ :: q' => tget (mk q') (tail r) end
    else tget (full_of b) r.
Proof.
  intros Hq Hr Hlen. unfold full_of. destruct q as [|x q]; simpl head.
  - destruct r as [|y r]; simpl head.
    + by rewrite bool_decide_true.
    + rewrite bool_decide_false by done. unfold put. cbn [fst snd]. by rewrite !tget_full_cons.
  - destruct r as [|y r]; simpl head.
    + rewrite bool_decide_false by done. done.
    + unfold put. cbn [fst snd]. rewrite !tget_full_cons.
      apply path_ok_cons in Hq as [Hx Hq], Hr as [Hy Hr].
      pose proof (nib_lt x Hx). case_bool_decide as Exy.
      * injection Exy as ->. by rewrite list_lookup_insert_eq by lia.
      * rewrite list_lookup_insert_ne; [done|]. intros E. apply Exy. simpl. f_equal. by apply nib_inj.
Qed.

Lemma tget_empty r : tget (full_of empty_branch) r = None.
Proof.
  destruct r as [|x r]; [done|]. unfold full_of, empty_branch. rewrite tget_full_cons.
  cbn [fst]. destruct (replicate 16 None !! nib x) as [[c|]|] eqn:E; try done.
  by apply lookup_replicate in E as [? _].
Qed.

(** A leaf put into a branch answers for its own path. *)
Lemma tget_put_leaf q v b r :
  path_ok q → path_ok r → length b.1 = 16 →
  tget (full_of (put q v (λ q, TLeaf q v) b)) r =
    if bool_decide (r = q) then Some v
    else if bool_decide (head q = head r) then None else tget (full_of b) r.
Proof.
  intros Hq Hr Hlen. rewrite tget_put by done. case_bool_decide as Hh.
  - destruct q as [|x q], r as [|y r]; simpl in Hh; try done.
    rewrite tget_leaf. cbn [tail]. injection Hh as <-.
    case_bool_decide as E1; [subst; by rewrite bool_decide_true|].
    by rewrite bool_decide_false by congruence.
  - rewrite bool_decide_false; [done|]. by intros ->.
Qed.

(** The old node's remainder answers for the paths that extend it. *)
Lemma tget_put_ext q c b r :
  path_ok q → path_ok r → length b.1 = 16 → q ≠ [] → is_full c →
  tget (full_of (put q [] (λ q, mk_ext q c) b)) r =
    if bool_decide (head q = head r) then tget (prepend q c) r else tget (full_of b) r.
Proof.
  intros Hq Hr Hlen Hne Hc. rewrite tget_put by done. case_bool_decide as Hh; [|done].
  destruct q as [|x q], r as [|y r]; simpl in Hh; try done. injection Hh as <-.
  cbn [tail]. rewrite <- is_full_prepend by done.
  destruct (take_prefix q r) as [[r' ->]|Hnp].
  - rewrite tget_prepend_app. change (x :: q ++ r') with ((x :: q) ++ r').
    by rewrite tget_prepend_app.
  - rewrite !tget_prepend_ne; [done| |done]. simpl. congruence.
Qed.

Lemma entries_put q v mk b :
  path_ok q → length b.1 = 16 →
  tget (full_of b) q = None → (∀ x, head q = Some x → b.1 !! nib x = Some None) →
  entries (put q v mk b).1 (put q v mk b).2 = S (entries b.1 b.2).
Proof.
  intros Hq Hlen Hn Hx. unfold entries. destruct q as [|x q]; simpl.
  - unfold full_of in Hn. rewrite tget_full_nil in Hn. rewrite Hn. lia.
  - apply path_ok_cons in Hq as [Hxn _]. rewrite occupied_insert_Some.
    + rewrite (Hx x eq_refl). lia.
    + rewrite Hlen. by apply nib_lt.
Qed.

(** ** Insertion as a map update *)

Definition update (f : bytes → option bytes) (p : bytes) (ov : option bytes) (q : bytes)
  : option bytes := if bool_decide (q = p) then ov else f q.

Lemma tinsert_leaf_get k v0 p v q :
  path_ok k → path_ok p → path_ok q →
  tget (tinsert (TLeaf k v0) p v) q = update (tget (TLeaf k v0)) p (Some v) q.
Proof.
  intros Hk Hp Hq. unfold update. cbn [tinsert].
  case_bool_decide as Epk.
  { subst. rewrite !tget_leaf. by case_bool_decide. }
  destruct (prefixLen_cases p k) as (pre & p' & k' & -> & -> & -> & Hh).
  rewrite take_app_length, !drop_app_length.
  rewrite <- is_full_prepend by done.
  apply path_ok_app in Hp as [_ Hp'], Hk as [_ Hk'].
  destruct (take_prefix pre q) as [[r ->]|Hnp].
  - apply path_ok_app in Hq as [_ Hr]. rewrite tget_prepend_app.
    rewrite tget_put_leaf by (rewrite ?length_put; done).
    rewrite tget_put_leaf by done. rewrite tget_empty, tget_leaf.
    assert (∀ a b : bytes, bool_decide (pre ++ a = pre ++ b) = bool_decide (a = b)) as Happ.
    { intros. apply bool_decide_ext. split; [apply app_inv_head|congruence]. }
    rewrite !Happ. case_bool_decide as E1; [done|]. case_bool_decide as E2.
    + rewrite bool_decide_false; [done|]. intros ->. apply Epk.
      destruct (Hh E2) as [-> ->]. done.
    + case_bool_decide; [done|]. by case_bool_decide.
  - rewrite tget_prepend_ne by done. rewrite bool_decide_false, tget_leaf, bool_decide_false;
      [done| |]; intros ->; by rewrite take_app_length in Hnp.
Qed.

Lemma tinsert_ext_split_get k c p v q :
  path_ok k → path_ok p → path_ok q → is_full c → prefixLen p k ≠ length k →
  tget (tinsert (TExt k c) p v) q = update (tget (TExt k c)) p (Some v) q.
Proof.
  intros Hk Hp Hq Hc Hm. unfold update. cbn [tinsert]. rewrite bool_decide_false by done.
  destruct (prefixLen_cases p k) as (pre & p' & k' & -> & -> & Hlen & Hh).
  rewrite Hlen in *. rewrite take_app_length, !drop_app_length.
  rewrite <- is_full_prepend by done.
  apply path_ok_app in Hp as [_ Hp'], Hk as [_ Hk'].
  assert (Hk'ne : k' ≠ []) by (intros ->; by rewrite app_nil_r in Hm).
  destruct (take_prefix pre q) as [[r ->]|Hnp].
  - apply path_ok_app in Hq as [_ Hr]. rewrite tget_prepend_app.
    rewrite tget_put_leaf by (rewrite ?length_put; done).
    rewrite tget_put_ext, tget_empty by done.
    replace (bool_decide (pre ++ r = pre ++ p')) with (bool_decide (r = p'))
      by (apply bool_decide_ext; split; [congruence|apply app_inv_head]).
    case_bool_decide as E1; [done|].
    assert (Hext : tget (TExt (pre ++ k') c) (pre ++ r) = tget (prepend k' c) r).
    { rewrite <- (tget_prepend_app pre (prepend k' c)).
      destruct c; try done. simpl. destruct k'; [done|]. simpl. done. }
    rewrite Hext. case_bool_decide as E2.
    + rewrite tget_prepend_ne; [done|]. intros Et.
      assert (head p' = head k') as Hpk.
      { rewrite E2. rewrite <- Et. destruct r; [by rewrite take_nil in Et|].
        destruct k'; done. }
      by destruct (Hh Hpk).
    + case_bool_decide as E3; [done|]. rewrite tget_prepend_ne; [done|].
      intros Et. apply E3. rewrite <- Et. destruct r; [by rewrite take_nil in Et|by destruct k'].
  - rewrite tget_prepend_ne by done. rewrite bool_decide_false, tget_ext_ne; [done| |].
    + intros E. apply Hnp. apply (f_equal (take (length pre))) in E.
      by rewrite take_take, length_app, Nat.min_l, take_app_length in E by lia.
    + intros ->. by rewrite take_app_length in Hnp.
Qed.

(** Updating one child of a branch. *)
Lemma tget_alter cs ov x f y q :
  is_nibble x → is_nibble y → length cs = 16 →
  tget (TFull (alter f (nib x) cs) ov) (y :: q) =
    if bool_decide (y = x) then tget_opt (f (cs !! nib x ≫= id)) q
    else tget (TFull cs ov) (y :: q).
Proof.
  intros Hx Hy Hlen. rewrite !tget_full_cons. case_bool_decide as E.
  - subst. rewrite list_lookup_alter_eq.
    destruct (lookup_lt_is_Some_2 cs (nib x)) as [oc Hoc]; [rewrite Hlen; by apply nib_lt|].
    by rewrite Hoc.
  - rewrite list_lookup_alter_ne; [done|]. intros E'. apply E. by apply nib_inj.
Qed.

Lemma ext_key_cases k c p v :
  prefixLen p k = length k → ∃ p', p = k ++ p' ∧ tinsert (TExt k c) p v = TExt k (tinsert c p' v).
Proof.
  intros Hm. cbn [tinsert]. rewrite bool_decide_true, Hm by done.
  destruct (prefixLen_cases p k) as (pre & p' & k' & -> & -> & Hlen & _).
  rewrite Hm, length_app in Hlen. destruct k'; [|simpl in Hlen; lia].
  rewrite app_nil_r in *. exists p'. by rewrite drop_app_length.
Qed.

Lemma tget_tinsert t p v q :
  wf t → path_ok p → path_ok q →
  tget (tinsert t p v) q = update (tget t) p (Some v) q.
Proof.
  revert p q. induction t as [k v0|k c IH|cs ov IH] using tree_induction; intros p q Hwf Hp Hq.
  - destruct Hwf. by apply tinsert_leaf_get.
  - destruct Hwf as (Hk & _ & Hc & Hwf).
    destruct (decide (prefixLen p k = length k)) as [Hm|]; [|by apply tinsert_ext_split_get].
    destruct (ext_key_cases k c p v Hm) as (p' & -> & ->). unfold update.
    apply path_ok_app in Hp as [_ Hp'].
    destruct (take_prefix k q) as [[r ->]|Hnp].
    + apply path_ok_app in Hq as [_ Hr]. rewrite !tget_ext_app, IH by done. unfold update.
      replace (bool_decide (k ++ r = k ++ p')) with (bool_decide (r = p')); [done|].
      apply bool_decide_ext. split; [congruence|apply app_inv_head].
    + rewrite !tget_ext_ne by done. rewrite bool_decide_false; [done|].
      intros ->. by rewrite take_app_length in Hnp.
  - pose proof Hwf as (Hlen & _). unfold update. destruct p as [|x p].
    { destruct q; [done|]. rewrite bool_decide_false by done. cbn [tinsert].
      by rewrite !tget_full_cons. }
    apply path_ok_cons in Hp as [Hx Hp]. destruct q as [|y q].
    { by rewrite bool_decide_false. }
    apply path_ok_cons in Hq as [Hy Hq]. cbn [tinsert].
    rewrite (tget_alter _ _ x (λ oc, Some (match oc with
      Some c => tinsert c p v | None => TLeaf p v end)) y q) by done.
    case_bool_decide as E; [subst y|by rewrite bool_decide_false by congruence].
    replace (bool_decide (x :: q = x :: p)) with (bool_decide (q = p))
      by (apply bool_decide_ext; split; congruence).
    cbn [tget_opt]. rewrite tget_full_cons.
    destruct (cs !! nib x) as [[c|]|] eqn:Hi; simpl.
    + rewrite (IH _ _ Hi) by (done || by eapply (wf_full_child cs ov), Hi). done.
    + done.
    + done.
Qed.

(** ** Insertion keeps trees canonical *)

Lemma wf_prepend k t : path_ok k → wf t → wf (prepend k t).
Proof.
  intros Hk. destruct t as [k' v|k' c|cs ov]; intros Hwf.
  - destruct Hwf. split; [by apply Forall_app|done].
  - destruct Hwf as (Hk' & Hne & Hc & Hw). repeat split; try done.
    + by apply Forall_app.
    + by destruct k.
  - destruct k as [|x k]; [done|]. by split_and!.
Qed.

Lemma wf_put q v mk b :
  path_ok q → length b.1 = 16 → allP (λ oc, match oc with Some c => wf c | None => True end) b.1 →
  (∀ x q', q = x :: q' → wf (mk q')) →
  allP (λ oc, match oc with Some c => wf c | None => True end) (put q v mk b).1.
Proof.
  intros Hq Hlen Hall Hmk. destruct q as [|x q]; simpl; [done|].
  rewrite allP_Forall in *. apply Forall_insert; [done|]. by eapply Hmk.
Qed.

Lemma wf_empty_branch :
  allP (λ oc, match oc with Some c => wf c | None => True end) empty_branch.1.
Proof. by apply allP_Forall, Forall_replicate. Qed.

Lemma empty_slot x : is_nibble x → (replicate 16 (@None tree)) !! nib x = Some None.
Proof. intros Hx%nib_lt. by apply lookup_replicate. Qed.

Lemma put_slot_free q q' v' mk' :
  path_ok q → path_ok q' → head q ≠ head q' →
  (∀ x, head q = Some x → (put q' v' mk' empty_branch).1 !! nib x = Some None)
  ∧ tget (full_of (put q' v' mk' empty_branch)) q = None.
Proof.
  intros Hq Hq' Hne. split.
  - intros x Hx. destruct q as [|y q]; [done|]. injection Hx as ->.
    apply path_ok_cons in Hq as [Hx _]. destruct q' as [|z q']; simpl; [by apply empty_slot|].
    apply path_ok_cons in Hq' as [Hz _]. rewrite list_lookup_insert_ne; [by apply empty_slot|].
    intros E%nib_inj; simpl in *; congruence.
  - rewrite tget_put, tget_empty by done. by rewrite bool_decide_false by congruence.
Qed.

(** The branch made by a split holds two entries, so it is canonical. *)
Lemma wf_split p' k' v v0 mk :
  path_ok p' → path_ok k' → head p' ≠ head k' → v ≠ [] →
  (k' = [] → v0 ≠ []) → (∀ x q', k' = x :: q' → wf (mk q')) →
  wf (full_of (put p' v (λ q, TLeaf q v) (put k' v0 mk empty_branch))).
Proof.
  intros Hp Hk Hh Hv Hv0 Hmk. unfold full_of.
  destruct (put_slot_free p' k' v0 mk Hp Hk Hh) as [Hfree Hnone].
  split; [by rewrite !length_put|split; [|split]].
  - apply wf_put; [done|by rewrite length_put|by apply wf_put, Hmk; try apply wf_empty_branch|].
    intros x q' ->. apply path_ok_cons in Hp as [_ Hp]. done.
  - destruct p', k'; simpl; try done; [congruence..|]. intros [= E]. by apply Hv0.
  - rewrite entries_put by (rewrite ?length_put; done).
    rewrite entries_put; [lia|done|done|apply tget_empty|].
    intros x Hx. destruct k'; [done|]. injection Hx as ->.
    apply path_ok_cons in Hk as [Hk _]. by apply empty_slot.
Qed.

Lemma wf_tinsert t p v : wf t → path_ok p → v ≠ [] → wf (tinsert t p v).
Proof.
  revert p. induction t as [k v0|k c IH|cs ov IH] using tree_induction; intros p Hwf Hp Hv.
  - destruct Hwf as [Hk Hv0]. cbn [tinsert]. case_bool_decide as Epk; [done|].
    destruct (prefixLen_cases p k) as (pre & p' & k' & -> & -> & -> & Hh).
    rewrite take_app_length, !drop_app_length, <- is_full_prepend by done.
    apply path_ok_app in Hp as [Hpre Hp'], Hk as [_ Hk']. apply wf_prepend; [done|].
    apply wf_split; try done.
    + intros E. destruct (Hh E) as [-> ->]. done.
    + intros x q' ->. apply path_ok_cons in Hk' as [_ Hk']. done.
  - destruct Hwf as (Hk & Hne & Hc & Hwf).
    destruct (decide (prefixLen p k = length k)) as [Hm|Hm].
    + destruct (ext_key_cases k c p v Hm) as (p' & -> & ->).
      apply path_ok_app in Hp as [_ Hp']. repeat split; [done|done| |by apply IH].
      destruct c; [done..|]. by destruct p'.
    + cbn [tinsert]. rewrite bool_decide_false by done.
      destruct (prefixLen_cases p k) as (pre & p' & k' & -> & -> & Hlen & Hh).
      rewrite Hlen in *. rewrite take_app_length, !drop_app_length, <- is_full_prepend by done.
      apply path_ok_app in Hp as [Hpre Hp'], Hk as [_ Hk']. apply wf_prepend; [done|].
      assert (k' ≠ []) by (intros ->; by rewrite app_nil_r in Hm).
      apply wf_split; try done.
      * intros E. by destruct (Hh E).
      * intros x q' ->. apply path_ok_cons in Hk' as [_ Hk']. rewrite <- is_full_prepend by done.
        by apply wf_prepend.
  - pose proof Hwf as (Hlen & Hall & Hov & He). destruct p as [|x p]; cbn [tinsert].
    { split; [done|split; [done|split; [congruence|]]]. unfold entries in *. destruct ov; lia. }
    apply path_ok_cons in Hp as [Hx Hp]. rewrite allP_Forall in *.
    destruct (lookup_lt_is_Some_2 cs (nib x)) as [oc Hi]; [rewrite Hlen; by apply nib_lt|].
    rewrite (list_alter_insert _ _ _ _ Hi).
    split; [by rewrite length_insert|split; [|split; [done|]]].
    + apply allP_Forall, Forall_insert; [done|]. destruct oc as [c|]; [|done].
      apply (IH _ _ Hi); try done. by eapply (wf_full_child cs ov), Hi; rewrite <- allP_Forall in Hall.
    + unfold entries in *. rewrite occupied_insert_Some by (rewrite Hlen; by apply nib_lt).
      rewrite Hi. destruct oc; lia.
Qed.

(** ** Deletion *)

Lemma first_child_Some n cs j c :
  first_child n cs = Some (j, c) → n ≤ j ∧ cs !! (j - n) = Some (Some c).
Proof.
  revert n. induction cs as [|[c'|] cs IH]; intros n Hf; simpl in Hf; [done| |].
  - injection Hf as -> ->. by rewrite Nat.sub_diag.
  - destruct (IH _ Hf) as [Hle Hl]. split; [lia|].
    by replace (j - n) with (S (j - S n)) by lia.
Qed.

Lemma first_child_None n cs i c : first_child n cs = None → cs !! i ≠ Some (Some c).
Proof.
  revert n i. induction cs as [|[c'|] cs IH]; intros n [|i] Hf; simpl in *; try done. by eapply IH.
Qed.

(** The shape of a branch after it lost a slot. *)
Inductive reduce_view (cs : list (option tree)) (ov : option bytes) : option tree → Prop :=
| rv_full : 2 ≤ entries cs ov → reduce_view cs ov (Some (TFull cs ov))
| rv_value v : ov = Some v → (∀ i c, cs !! i ≠ Some (Some c)) → reduce_view cs ov (Some (TLeaf [] v))
| rv_child i c : ov = None → cs !! i = Some (Some c) →
    (∀ j c', cs !! j = Some (Some c') → j = i) → reduce_view cs ov (Some (prepend [Z.of_nat i] c))
| rv_none : ov = None → (∀ i c, cs !! i ≠ Some (Some c)) → reduce_view cs ov None.

Lemma reduceP cs ov : reduce_view cs ov (reduce cs ov).
Proof.
  unfold reduce. case_bool_decide as He; [by constructor|]. unfold entries in He.
  destruct ov as [v|].
  - apply rv_value; [done|]. intros i c Hi. by apply (occupied_zero cs i c) in Hi; [|lia].
  - destruct (first_child 0 cs) as [[i c]|] eqn:Hf.
    + apply first_child_Some in Hf as [_ Hi]. rewrite Nat.sub_0_r in Hi.
      apply rv_child; [done|done|]. intros j c' Hj.
      eapply occupied_unique, Hi; [|done]. lia.
    + apply rv_none; [done|]. intros i c. by eapply first_child_None.
Qed.

Lemma tget_full_no_child cs ov q :
  (∀ i c, cs !! i ≠ Some (Some c)) → q ≠ [] → tget (TFull cs ov) q = None.
Proof.
  intros Hn Hq. destruct q as [|x q]; [done|]. rewrite tget_full_cons.
  destruct (cs !! nib x) as [[c|]|] eqn:E; try done. by apply Hn in E.
Qed.

Lemma tget_reduce cs ov q :
  path_ok q → length cs = 16 → tget_opt (reduce cs ov) q = tget (TFull cs ov) q.
Proof.
  intros Hq Hlen. destruct (reduceP cs ov) as [He|v -> Hn|i c -> Hi Hu| -> Hn]; [done| | |].
  - destruct q; [done|]. by rewrite tget_full_no_child.
  - cbn [tget_opt]. destruct q as [|x q].
    { rewrite tget_prepend_ne by done. done. }
    apply path_ok_cons in Hq as [Hx Hq].
    destruct (decide (x = Z.of_nat i)) as [->|Hne].
    + rewrite (tget_child _ _ _ _ _ Hi). apply (tget_prepend_app [_]).
    + rewrite tget_prepend_ne by (simpl; congruence). rewrite tget_full_cons.
      destruct (cs !! nib x) as [[c'|]|] eqn:E; try done. apply Hu in E.
      exfalso. apply Hne. rewrite <- E. unfold nib, is_nibble in *. lia.
  - destruct q; [done|]. by rewrite tget_full_no_child.
Qed.

Lemma wf_reduce cs ov :
  length cs = 16 → allP (λ oc, match oc with Some c => wf c | None => True end) cs →
  ov ≠ Some [] → wf_opt (reduce cs ov).
Proof.
  intros Hlen Hall Hov. destruct (reduceP cs ov) as [He|v -> Hn|i c -> Hi Hu| -> Hn].
  - done.
  - split; [done|congruence].
  - apply wf_prepend.
    + constructor; [|done]. apply nibble_of_nat. rewrite <- Hlen. by eapply lookup_lt_Some.
    + apply allP_Forall in Hall. rewrite Forall_lookup in Hall. apply (Hall _ _ Hi).
  - done.
Qed.

Lemma tget_tdelete t p q :
  wf t → path_ok p → path_ok q → tget_opt (tdelete t p) q = update (tget t) p None q.
Proof.
  revert p q. induction t as [k v|k c IH|cs ov IH] using tree_induction; intros p q Hwf Hp Hq;
    unfold update; cbn [tdelete].
  - case_bool_decide as E; simpl; subst; repeat case_bool_decide; congruence.
  - destruct Hwf as (Hk & _ & _ & Hwf).
    destruct (take_prefix k p) as [[p' ->]|Hnp].
    + rewrite take_app_length, bool_decide_true, drop_app_length by done.
      apply path_ok_app in Hp as [_ Hp'].
      destruct (take_prefix k q) as [[r ->]|Hnq].
      * apply path_ok_app in Hq as [_ Hr]. rewrite tget_ext_app.
        replace (bool_decide (k ++ r = k ++ p')) with (bool_decide (r = p'))
          by (apply bool_decide_ext; split; [congruence|apply app_inv_head]).
        specialize (IH p' r Hwf Hp' Hr). unfold update in IH. rewrite <- IH.
        destruct (tdelete c p'); [apply tget_prepend_app|done].
      * rewrite tget_ext_ne by done.
        destruct (tdelete c p'); simpl; [rewrite tget_prepend_ne by done|]; by case_bool_decide.
    + rewrite bool_decide_false by done. cbn [tget_opt].
      case_bool_decide; [subst; by apply tget_ext_ne|done].
  - pose proof Hwf as (Hlen & _). destruct p as [|x p].
    { destruct ov as [v|].
      - rewrite tget_reduce by done. destruct q; [done|]. rewrite bool_decide_false by done.
        by rewrite !tget_full_cons.
      - cbn [tget_opt]. case_bool_decide; [by subst|done]. }
    apply path_ok_cons in Hp as [Hx Hp]. rewrite tget_reduce by (rewrite ?length_alter; done).
    destruct q as [|y q]; [by rewrite bool_decide_false|].
    apply path_ok_cons in Hq as [Hy Hq].
    rewrite (tget_alter _ _ x (λ oc, match oc with Some c => tdelete c p | None => None end)) by done.
    case_bool_decide as E; [subst y|by rewrite bool_decide_false by congruence].
    replace (bool_decide (x :: q = x :: p)) with (bool_decide (q = p))
      by (apply bool_decide_ext; split; congruence).
    rewrite tget_full_cons. destruct (cs !! nib x) as [[c|]|] eqn:Hi; simpl; try by case_bool_decide.
    apply (IH _ _ Hi); try done. by eapply (wf_full_child cs ov), Hi.
Qed.

Lemma wf_tdelete t p : wf t → path_ok p → wf_opt (tdelete t p).
Proof.
  revert p. induction t as [k v|k c IH|cs ov IH] using tree_induction; intros p Hwf Hp; cbn [tdelete].
  - by case_bool_decide.
  - case_bool_decide as E; [|done]. destruct Hwf as (Hk & _ & _ & Hwf).
    specialize (IH (drop (length k) p) Hwf (Forall_drop _ _ _ Hp)).
    destruct (tdelete c _); [|done]. by apply wf_prepend.
  - pose proof Hwf as (Hlen & Hall & Hov & He). destruct p as [|x p].
    { destruct ov; [by apply wf_reduce|done]. }
    apply path_ok_cons in Hp as [Hx Hp]. apply wf_reduce; [by rewrite length_alter| |done].
    destruct (lookup_lt_is_Some_2 cs (nib x)) as [oc Hi]; [rewrite Hlen; by apply nib_lt|].
    rewrite (list_alter_insert _ _ _ _ Hi), allP_Forall in *.
    apply Forall_insert; [done|]. destruct oc as [c|]; [|done].
    assert (Hc : wf c) by (by eapply (wf_full_child cs ov), Hi).
    specialize (IH _ _ Hi p Hc Hp). by destruct (tdelete c p).
Qed.

(** ** Canonicity: a canonical tree is determined by its map *)

Definition same_map (t1 t2 : tree) : Prop := ∀ q, path_ok q → tget t1 q = tget t2 q.

Lemma common_prefix (k a b p : bytes) :
  p `prefix_of` k ++ a → p `prefix_of` k ++ b → head a ≠ head b → p `prefix_of` k.
Proof.
  revert p. induction k as [|x k IH]; intros p [ra Ha] [rb Hb] Hh; simpl in *.
  - destruct p as [|y p]; [by exists []|]. exfalso. apply Hh.
    by rewrite Ha, Hb.
  - destruct p as [|y p]; [by eexists|]. injection Ha as -> Ha. injection Hb as Hb.
    apply prefix_cons, IH; [by eexists..|done].
Qed.

(** All the paths of an extension start with its prefix. *)
Lemma tget_ext_prefix k c q : is_Some (tget (TExt k c) q) → k `prefix_of` q.
Proof.
  destruct (take_prefix k q) as [[r ->]|Hn]; [by eexists|].
  rewrite tget_ext_ne by done. by intros [].
Qed.

(** A non-leaf holds two different paths. *)
Lemma two_keys t : wf t → (∀ k v, t ≠ TLeaf k v) →
  ∃ p1 p2, path_ok p1 ∧ path_ok p2 ∧ p1 ≠ p2 ∧ is_Some (tget t p1) ∧ is_Some (tget t p2).
Proof.
  intros Hwf Hnl. destruct t as [k v|k c|cs ov]; [by edestruct Hnl| |].
  - destruct Hwf as (Hk & _ & Hc & Hwf). destruct c as [| |cs ov]; [done..|].
    destruct (full_two_keys cs ov Hwf) as (p1 & p2 & H1 & H2 & Hh & S1 & S2).
    exists (k ++ p1), (k ++ p2). rewrite !tget_ext_app, !path_ok_app.
    repeat split; try done. intros E. apply app_inv_head in E. by subst.
  - destruct (full_two_keys cs ov Hwf) as (p1 & p2 & H1 & H2 & Hh & S1 & S2).
    exists p1, p2. repeat split; try done. by intros ->.
Qed.

Lemma leaf_unique k v t : wf (TLeaf k v) → wf t → same_map (TLeaf k v) t → t = TLeaf k v.
Proof.
  intros [Hk _] Hwf Hs. destruct t as [k' v'|k' c|cs ov] eqn:Et.
  - destruct Hwf as [Hk' _]. specialize (Hs k' Hk'). rewrite !tget_leaf in Hs.
    rewrite (bool_decide_true (k' = k')) in Hs by done. case_bool_decide; congruence.
  - destruct (two_keys (TExt k' c) Hwf) as (p1 & p2 & H1 & H2 & Hne & S1 & S2); [done|].
    rewrite <- Hs in S1, S2 by done. rewrite !tget_leaf in S1, S2.
    repeat case_bool_decide; try (by destruct S1); try (by destruct S2). congruence.
  - destruct (two_keys (TFull cs ov) Hwf) as (p1 & p2 & H1 & H2 & Hne & S1 & S2); [done|].
    rewrite <- Hs in S1, S2 by done. rewrite !tget_leaf in S1, S2.
    repeat case_bool_decide; try (by destruct S1); try (by destruct S2). congruence.
Qed.

Lemma ext_full_differ k c cs ov :
  wf (TExt k c) → wf (TFull cs ov) → ¬ same_map (TExt k c) (TFull cs ov).
Proof.
  intros (_ & Hne & _) Hf Hs.
  destruct (full_two_keys cs ov Hf) as (p1 & p2 & H1 & H2 & Hh & S1 & S2).
  rewrite <- Hs in S1, S2 by done. apply tget_ext_prefix in S1, S2.
  apply Hne. apply (prefix_nil_inv k). by apply (common_prefix [] p1 p2).
Qed.

Lemma ext_prefix_le k1 c1 k2 c2 :
  wf (TExt k1 c1) → same_map (TExt k1 c1) (TExt k2 c2) → k2 `prefix_of` k1.
Proof.
  intros (Hk & _ & Hc & Hw) Hs. destruct c1 as [| |cs ov]; [done..|].
  destruct (full_two_keys cs ov Hw) as (p1 & p2 & H1 & H2 & Hh & S1 & S2).
  rewrite <- (tget_ext_app k1), Hs in S1 by (by apply path_ok_app).
  rewrite <- (tget_ext_app k1), Hs in S2 by (by apply path_ok_app).
  apply tget_ext_prefix in S1, S2. by apply (common_prefix k1 p1 p2).
Qed.

Lemma wf_no_empty t q : wf t → tget t q ≠ Some [].
Proof.
  revert q. induction t as [k v|k c IH|cs ov IH] using tree_induction; intros q Hwf.
  - rewrite tget_leaf. destruct Hwf. case_bool_decide; congruence.
  - destruct Hwf as (_ & _ & _ & Hwf). cbn [tget]. case_bool_decide; auto.
  - destruct q as [|x q]; [by destruct Hwf as (_ & _ & Hov & _)|].
    rewrite tget_full_cons. destruct (cs !! nib x) as [[c|]|] eqn:E; try done.
    apply (IH _ _ E). by eapply (wf_full_child cs ov).
Qed.

Lemma wf_no_empty_map t : wf t → ∃ q, path_ok q ∧ tget t q ≠ None.
Proof. intros (p & v & Hp & Hv)%wf_has_key. exists p. by rewrite Hv. Qed.

Lemma canonical t1 t2 : wf t1 → wf t2 → same_map t1 t2 → t1 = t2.
Proof.
  revert t2. induction t1 as [k v|k c IH|cs ov IH] using tree_induction; intros t2 Hw1 Hw2 Hs.
  - symmetry. by apply leaf_unique.
  - destruct t2 as [k2 v2|k2 c2|cs2 ov2].
    + apply leaf_unique; [done..|]. intros q Hq. by rewrite Hs.
    + assert (k = k2) as <-.
      { apply (anti_symm prefix); eapply ext_prefix_le; [apply Hw2| |apply Hw1|done].
        intros q Hq. by rewrite Hs. }
      f_equal. apply IH; [apply Hw1|apply Hw2|]. intros q Hq.
      rewrite <- (tget_ext_app k c), <- (tget_ext_app k c2). apply Hs.
      apply path_ok_app. split; [apply Hw1|done].
    + by edestruct ext_full_differ.
  - destruct t2 as [k2 v2|k2 c2|cs2 ov2].
    + apply leaf_unique; [done..|]. intros q Hq. by rewrite Hs.
    + edestruct (ext_full_differ k2 c2 cs ov); [done..|]. intros q Hq. by rewrite Hs.
    + assert (ov = ov2) as <- by exact (Hs [] (Forall_nil_2 _)). f_equal.
      pose proof Hw1 as (Hlen1 & _). pose proof Hw2 as (Hlen2 & _).
      apply list_eq_same_length with 16; [done..|]. intros i o1 o2 Hi H1 H2.
      assert (Hq : ∀ q, path_ok q → tget_opt o1 q = tget_opt o2 q).
      { intros q Hq. specialize (Hs (Z.of_nat i :: q)).
        rewrite !tget_full_cons, !nib_of_nat, H1, H2 in Hs. apply Hs. auto with s2r. }
      destruct o1 as [c1|], o2 as [c2|]; simpl in Hq; [| | |done].
      * f_equal. apply (IH i); [done|by eapply (wf_full_child cs ov)|by eapply (wf_full_child cs2 ov)|done].
      * destruct (wf_no_empty_map c1) as (q & Hp & Hn); [by eapply (wf_full_child cs ov)|].
        by rewrite Hq in Hn.
      * destruct (wf_no_empty_map c2) as (q & Hp & Hn); [by eapply (wf_full_child cs2 ov)|].
        by rewrite <- Hq in Hn.
Qed.

Lemma canonical_opt o1 o2 :
  wf_opt o1 → wf_opt o2 → (∀ q, path_ok q → tget_opt o1 q = tget_opt o2 q) → o1 = o2.
Proof.
  destruct o1 as [t1|], o2 as [t2|]; simpl; intros H1 H2 Hs; [| | |done].
  - f_equal. by apply canonical.
  - destruct (wf_no_empty_map t1 H1) as (q & Hq & Hn). by rewrite Hs in Hn.
  - destruct (wf_no_empty_map t2 H2) as (q & Hq & Hn). by rewrite <- Hs in Hn.
Qed.
