(* ===== verification/Tracer.v ===== *)
(** * Change tracking: trie_by_cid/trie/tracer.go *)
From S2P Require Import Prelude.

(** Paths are byte strings; a Go set is a map to the empty struct. *)
Record tracer := Tracer {
  inserts : gset bytes;
  deletes : gset bytes;
  accessList : gmap bytes bytes
}.

Definition newTracer : tracer := Tracer ∅ ∅ ∅.

Definition onRead (path val : bytes) (t : tracer) : tracer :=
  Tracer (inserts t) (deletes t) (<[path := val]> (accessList t)).

Definition onInsert (path : bytes) (t : tracer) : tracer :=
  if bool_decide (path ∈ deletes t)
  then Tracer (inserts t) (deletes t ∖ {[path]}) (accessList t)
  else Tracer ({[path]} ∪ inserts t) (deletes t) (accessList t).

Definition onDelete (path : bytes) (t : tracer) : tracer :=
  if bool_decide (path ∈ inserts t)
  then Tracer (inserts t ∖ {[path]}) (deletes t) (accessList t)
  else Tracer (inserts t) ({[path]} ∪ deletes t) (accessList t).

Definition tracer_reset (_ : tracer) : tracer := newTracer.

(** A deep copy: the sets and blobs are values here. *)
Definition tracer_copy (t : tracer) : tracer :=
  Tracer (inserts t) (deletes t) (accessList t).

(** ** Net effect of a sequence of events *)

Inductive event := EInsert (path : bytes) | EDelete (path : bytes) | ERead (path val : bytes).

Definition trace1 (t : tracer) (e : event) : tracer :=
  match e with
  | EInsert p => onInsert p t
  | EDelete p => onDelete p t
  | ERead p v => onRead p v t
  end.
Definition trace (t : tracer) (es : list event) : tracer := fold_left trace1 es t.

(** Whether a node exists at a path, replaying the events over what existed. *)
Definition exists1 (ex : gset bytes) (e : event) : gset bytes :=
  match e with
  | EInsert p => {[p]} ∪ ex
  | EDelete p => ex ∖ {[p]}
  | ERead _ _ => ex
  end.
Definition exists_after (ex : gset bytes) (es : list event) : gset bytes :=
  fold_left exists1 es ex.

(** An event sequence is sensible when nodes are inserted where there is none
    and deleted where there is one. *)
Fixpoint sensible (ex : gset bytes) (es : list event) : Prop :=
  match es with
  | [] => True
  | e :: es =>
      match e with EInsert p => p ∉ ex | EDelete p => p ∈ ex | ERead _ _ => True end
      ∧ sensible (exists1 ex e) es
  end.

(** The tracer describes how the existing paths changed since [ex0]. *)
Definition tracks (ex0 ex : gset bytes) (t : tracer) : Prop :=
  inserts t = ex ∖ ex0 ∧ deletes t = ex0 ∖ ex.

(** Equality of sets built from [∪], [∖] and singletons, path by path. *)
Ltac sets_by_path :=
  apply set_eq; intros q;
  repeat (rewrite elem_of_difference || rewrite elem_of_union || rewrite elem_of_singleton);
  match goal with p : bytes |- _ => destruct (decide (q = p)) as [->|]; tauto end.

Lemma tracks_step ex0 ex t e :
  tracks ex0 ex t →
  match e with EInsert p => p ∉ ex | EDelete p => p ∈ ex | ERead _ _ => True end →
  tracks ex0 (exists1 ex e) (trace1 t e).
Proof.
  intros [Hi Hd] He. destruct e as [p|p|p v]; simpl; unfold onInsert, onDelete, tracks.
  - rewrite Hd. case_bool_decide as Hp; simpl; rewrite ?Hi, ?Hd; rewrite elem_of_difference in Hp;
      destruct (decide (p ∈ ex0)); try tauto; split; sets_by_path.
  - rewrite Hi. case_bool_decide as Hp; simpl; rewrite ?Hi, ?Hd; rewrite elem_of_difference in Hp;
      destruct (decide (p ∈ ex0)); try tauto; split; sets_by_path.
  - done.
Qed.

Lemma tracks_trace ex0 ex t es :
  tracks ex0 ex t → sensible ex es → tracks ex0 (exists_after ex es) (trace t es).
Proof.
  revert ex t. induction es as [|e es IH]; intros ex t Ht Hs; [done|].
  destruct Hs as [He Hs]. apply (IH (exists1 ex e) (trace1 t e)); [|done].
  by apply tracks_step.
Qed.

(** C36: after any sequence of node insertions and deletions that starts from a
    fresh tracer (inserting where no node is, deleting where one is), the
    tracer's insert set is exactly the paths that hold a node now and did not
    before, its delete set exactly those that held one and no longer do; in
    particular the two sets never share a path. *)
Theorem tracer_net_effect ex0 es :
  sensible ex0 es →
  inserts (trace newTracer es) = exists_after ex0 es ∖ ex0
  ∧ deletes (trace newTracer es) = ex0 ∖ exists_after ex0 es
  ∧ inserts (trace newTracer es) ## deletes (trace newTracer es).
Proof.
  intros Hs. destruct (tracks_trace ex0 ex0 newTracer es) as [Hi Hd]; [|done|].
  - split; simpl; set_solver.
  - rewrite Hi, Hd. set_solver.
Qed.

Lemma tracer_net_effect_witness :
  inserts (trace newTracer [EDelete [1%Z]; EInsert [2%Z]; EInsert [1%Z]; EDelete [2%Z]; EInsert [3%Z]])
  = exists_after {[ [1%Z] ]} [EDelete [1%Z]; EInsert [2%Z]; EInsert [1%Z]; EDelete [2%Z]; EInsert [3%Z]]
      ∖ {[ [1%Z] ]}.
Proof.
  eapply proj1, tracer_net_effect. simpl. set_solver.
Defined.
