(* ===== verification/Reader.v ===== *)
(** * Node readers: trie_by_cid/trie/trie_reader.go and trie_id.go *)
From S2P Require Import Prelude Errors Geth Node.

(** The [Reader] interface: what a backing store answers for an owner, a path
    and a node hash ([nilNode] for a nil node). *)
Record Reader := {
  Reader_Node : bytes → bytes → bytes → result node;
  Reader_NodeBlob : bytes → bytes → bytes → result bytes
}.

(** The [NodeReader] interface: [GetReader stateRoot codec], nil when the state
    is not available. *)
Definition NodeReader : Type := bytes → Z → option Reader.

Record trieReader := TrieReader {
  tr_owner : bytes;
  tr_reader : option Reader;
  tr_banned : option (gset bytes)
}.

Definition newTrieReader (stateRoot owner : bytes) (db : NodeReader) (codec : Z)
    : result trieReader :=
  match db stateRoot codec with
  | None => Err (ErrStateNotFound stateRoot)
  | Some r => Ok (TrieReader owner (Some r) None)
  end.

Definition newEmptyReader : trieReader := TrieReader zeroHash None None.

Definition is_banned (r : trieReader) (path : bytes) : bool :=
  match tr_banned r with Some b => bool_decide (path ∈ b) | None => false end.

(** [trieReader.node]: any failure, and a nil node, is a [MissingNodeError]. *)
Definition reader_node (r : trieReader) (path hash : bytes) : result node :=
  if is_banned r path then Err (MissingNodeError (tr_owner r) hash path None)
  else
    match tr_reader r with
    | None => Err (MissingNodeError (tr_owner r) hash path None)
    | Some rd =>
        match Reader_Node rd (tr_owner r) path hash with
        | Ok nilNode => Err (MissingNodeError (tr_owner r) hash path None)
        | Err e => Err (MissingNodeError (tr_owner r) hash path (Some e))
        | o => o
        end
    end.

(** [trieReader.nodeBlob]: likewise, and for an empty blob. *)
Definition nodeBlob (r : trieReader) (path hash : bytes) : result bytes :=
  if is_banned r path then Err (MissingNodeError (tr_owner r) hash path None)
  else
    match tr_reader r with
    | None => Err (MissingNodeError (tr_owner r) hash path None)
    | Some rd =>
        match Reader_NodeBlob rd (tr_owner r) path hash with
        | Ok [] => Err (MissingNodeError (tr_owner r) hash path None)
        | Err e => Err (MissingNodeError (tr_owner r) hash path (Some e))
        | o => o
        end
    end.

(** ** trie_id.go *)

Record ID := { id_StateRoot : bytes; id_Owner : bytes; id_Root : bytes }.

Definition StateTrieID (root : bytes) : ID :=
  {| id_StateRoot := root; id_Owner := zeroHash; id_Root := root |}.
Definition StorageTrieID (stateRoot owner root : bytes) : ID :=
  {| id_StateRoot := stateRoot; id_Owner := owner; id_Root := root |}.
Definition TrieID (root : bytes) : ID :=
  {| id_StateRoot := root; id_Owner := zeroHash; id_Root := root |}.

(** ** What a reader holds *)

(** The reader answers a hash with this blob, on every path. *)
Definition holds (r : trieReader) (hash blob : bytes) : Prop :=
  ∀ path, nodeBlob r path hash = Ok blob.
