(* ===== verification/Trie.v ===== *)
(** * The trie: trie_by_cid/trie/trie.go

    Lookup, insertion and deletion on lazily loaded nodes.  A trie method is a
    state transformer on the [Trie] record; the recursive functions thread the
    tracer, whose changes survive an error. *)
From S2P Require Import Prelude Errors Geth Encoding Node Tracer Reader.
Local Open Scope nat_scope.

Record Trie := MkTrie {
  t_root : node;
  t_owner : bytes;
  t_unhashed : Z;
  t_reader : trieReader;
  t_tracer : tracer
}.

Definition set_root (n : node) (t : Trie) : Trie :=
  MkTrie n (t_owner t) (t_unhashed t) (t_reader t) (t_tracer t).
Definition set_tracer (tr : tracer) (t : Trie) : Trie :=
  MkTrie (t_root t) (t_owner t) (t_unhashed t) (t_reader t) tr.
Definition set_unhashed (u : Z) (t : Trie) : Trie :=
  MkTrie (t_root t) (t_owner t) u (t_reader t) (t_tracer t).

(** [newFlag]. *)
Definition newFlag : nodeFlag := NodeFlag None true.

Definition Trie_Copy (t : Trie) : Trie :=
  MkTrie (t_root t) (t_owner t) (t_unhashed t) (t_reader t) (tracer_copy (t_tracer t)).

(** [Reset]. *)
Definition Trie_Reset (t : Trie) : Trie :=
  MkTrie nilNode zeroHash 0 (t_reader t) (tracer_reset (t_tracer t)).

Section trie.
Context `{RlpOps, CryptoOps}.

(** Computations that thread the tracer. *)
Abbreviation M := (stateM tracer error).

(** [resolveAndTrack] and [resolve]. *)
Definition resolveAndTrack (rd : trieReader) (n prefix : bytes) : M node :=
  blob ← lift (nodeBlob rd prefix (BytesToHash n));
  _ ← modify (onRead prefix blob);
  lift (mustDecodeNode (Some n) blob).

Definition resolve (rd : trieReader) (n : node) (prefix : bytes) : M node :=
  match n with
  | hashNode h => resolveAndTrack rd h prefix
  | _ => mret n
  end.

(** ** Lookup *)

(** Does [key] continue with [nk] at [pos]?  The negation is the code's test. *)
Definition matches_at (key nk : bytes) (pos : nat) : bool :=
  negb (bool_decide (length key < pos + length nk))
  && bool_decide (nk = take (length nk) (drop pos key)).

Fixpoint tryGet (rd : trieReader) (fuel : nat) (origNode : node) (key : bytes) (pos : nat)
    : M (option bytes * node * bool) :=
  match fuel with
  | O => lift OutOfFuel
  | S fuel =>
      match origNode with
      | nilNode => mret (None, nilNode, false)
      | valueNode v => mret (Some v, origNode, false)
      | shortNode nk nv fl =>
          if negb (matches_at key nk pos) then mret (None, origNode, false)
          else
            '(value, newnode, didResolve) ← tryGet rd fuel nv key (pos + length nk);
            let n := if (didResolve : bool) then shortNode nk newnode fl else origNode in
            mret (value, n, didResolve)
      | fullNode cs fl =>
          x ← lift (index key pos);
          c ← lift (index cs (nib x));
          '(value, newnode, didResolve) ← tryGet rd fuel c key (pos + 1);
          let n := if (didResolve : bool) then fullNode (<[nib x := newnode]> cs) fl else origNode in
          mret (value, n, didResolve)
      | hashNode h =>
          child ← resolveAndTrack rd h (take pos key);
          '(value, newnode, _) ← tryGet rd fuel child key pos;
          mret (value, newnode, true)
      | _ => lift (Panic "invalid node")
      end
  end.

(** A node consumes at least one nibble unless it has to be loaded first. *)
Definition fuel_for (key : bytes) : nat := 2 * length key + 2.

Definition TryGet (key : bytes) : stateM Trie error (option bytes) := λ t,
  let k := keybytesToHex key in
  match tryGet (t_reader t) (fuel_for k) (t_root t) k 0 (t_tracer t) with
  | (tr, Ok (value, newroot, didResolve)) =>
      let t := set_tracer tr t in
      (if didResolve : bool then set_root newroot t else t, Ok value)
  | (tr, Err e) => (set_tracer tr t, Err e)
  | (tr, Panic w) => (set_tracer tr t, Panic w)
  | (tr, OutOfFuel) => (set_tracer tr t, OutOfFuel)
  end.

(** [Get], [Update] and [Delete] log an error and go on. *)
Definition log_error {A} (d : A) (m : stateM Trie error A) : stateM Trie error A := λ t,
  match m t with (t, Err _) => (t, Ok d) | r => r end.
Definition Get (key : bytes) : stateM Trie error (option bytes) := log_error None (TryGet key).

(** The number of nodes resolved is returned with the item, except on an error,
    where the error alone is. *)
Fixpoint tryGetNode (rd : trieReader) (fuel : nat) (origNode : node) (path : bytes) (pos : nat)
    : M (option bytes * node * Z) :=
  match fuel with
  | O => lift OutOfFuel
  | S fuel =>
      match origNode with
      | nilNode => mret (None, nilNode, 0%Z)
      | _ =>
          if bool_decide (length path ≤ pos) then
            hash ← lift (match origNode with
                         | hashNode h => Ok (Some h)
                         | _ => '(h, _) ← cache origNode; Ok h
                         end);
            match hash with
            | None => lift (Err ErrNonConsensus)
            | Some hash =>
                blob ← lift (nodeBlob rd path (BytesToHash hash));
                mret (Some blob, origNode, 1%Z)
            end
          else
            match origNode with
            | valueNode _ => mret (None, nilNode, 0%Z)
            | shortNode nk nv fl =>
                if negb (matches_at path nk pos) then mret (None, origNode, 0%Z)
                else
                  '(item, newnode, resolved) ← tryGetNode rd fuel nv path (pos + length nk);
                  let n := if bool_decide (0 < resolved)%Z then shortNode nk newnode fl else origNode in
                  mret (item, n, resolved)
            | fullNode cs fl =>
                x ← lift (index path pos);
                c ← lift (index cs (nib x));
                '(item, newnode, resolved) ← tryGetNode rd fuel c path (pos + 1);
                let n := if bool_decide (0 < resolved)%Z
                         then fullNode (<[nib x := newnode]> cs) fl else origNode in
                mret (item, n, resolved)
            | hashNode h =>
                child ← resolveAndTrack rd h (take pos path);
                '(item, newnode, resolved) ← tryGetNode rd fuel child path pos;
                mret (item, newnode, (resolved + 1)%Z)
            | _ => lift (Panic "invalid node")
            end
      end
  end.

Definition TryGetNode (path : bytes) : stateM Trie error (option bytes * Z) := λ t,
  let k := compactToHex path in
  match tryGetNode (t_reader t) (fuel_for k) (t_root t) k 0 (t_tracer t) with
  | (tr, Ok (item, newroot, resolved)) =>
      let t := set_tracer tr t in
      (if bool_decide (0 < resolved)%Z then set_root newroot t else t, Ok (item, resolved))
  | (tr, Err e) => (set_tracer tr t, Err e)
  | (tr, Panic w) => (set_tracer tr t, Panic w)
  | (tr, OutOfFuel) => (set_tracer tr t, OutOfFuel)
  end.

(** ** Insertion *)

(** Returns whether the trie changed, and the new node. *)
Fixpoint insert (rd : trieReader) (fuel : nat) (n : node) (prefix key : bytes) (value : node)
    : M (bool * node) :=
  match fuel with
  | O => lift OutOfFuel
  | S fuel =>
      match key with
      | [] =>
          match n with
          | valueNode v =>
              match value with
              | valueNode v' => mret (negb (bool_decide (v = v')), value)
              | _ => lift (Panic "interface conversion")
              end
          | _ => mret (true, value)
          end
      | k0 :: krest =>
          match n with
          | shortNode nk nv fl =>
              let matchlen := prefixLen key nk in
              if bool_decide (matchlen = length nk) then
                '(dirty, nn) ← insert rd fuel nv (prefix ++ take matchlen key) (drop matchlen key) value;
                if negb dirty then mret (false, n)
                else mret (true, shortNode nk nn newFlag)
              else
                x ← lift (index nk matchlen);
                '(_, c1) ← insert rd fuel nilNode (prefix ++ take (matchlen + 1) nk)
                             (drop (matchlen + 1) nk) nv;
                cs ← lift (assign (replicate 17 nilNode) (nib x) c1);
                y ← lift (index key matchlen);
                '(_, c2) ← insert rd fuel nilNode (prefix ++ take (matchlen + 1) key)
                             (drop (matchlen + 1) key) value;
                cs ← lift (assign cs (nib y) c2);
                let branch := fullNode cs newFlag in
                if bool_decide (matchlen = 0) then mret (true, branch)
                else
                  _ ← modify (onInsert (prefix ++ take matchlen key));
                  mret (true, shortNode (take matchlen key) branch newFlag)
          | fullNode cs fl =>
              c ← lift (index cs (nib k0));
              '(dirty, nn) ← insert rd fuel c (prefix ++ [k0]) krest value;
              if negb dirty then mret (false, n)
              else mret (true, fullNode (<[nib k0 := nn]> cs) newFlag)
          | nilNode =>
              _ ← modify (onInsert prefix);
              mret (true, shortNode key value newFlag)
          | hashNode h =>
              rn ← resolveAndTrack rd h prefix;
              '(dirty, nn) ← insert rd fuel rn prefix key value;
              if negb dirty then mret (false, rn) else mret (true, nn)
          | _ => lift (Panic "invalid node")
          end
      end
  end.

(** ** Deletion *)

(** [concat]. *)
Definition concat_keys (s1 s2 : bytes) : bytes := s1 ++ s2.

(** The loop that looks for the only entry left in a branch: its index, -1 for
    none, -2 (and stop) for two. *)
Fixpoint scanChildren (i pos : Z) (cs : list node) : Z :=
  match cs with
  | [] => pos
  | nilNode :: cs => scanChildren (i + 1) pos cs
  | _ :: cs => if bool_decide (pos = -1)%Z then scanChildren (i + 1) i cs else (-2)%Z
  end.

(** The reduction of a branch that lost an entry (the end of the [fullNode] case
    of [delete]): one left entry makes it a short node. *)
Definition reduceFull (rd : trieReader) (cs : list node) (prefix : bytes) : M (bool * node) :=
  let pos := scanChildren 0 (-1) cs in
  if bool_decide (0 ≤ pos)%Z then
    c ← lift (index cs (nib pos));
    let reduced := shortNode [pos] c newFlag in
    if bool_decide (pos = 16)%Z then mret (true, reduced)
    else
      cnode ← resolve rd c (prefix ++ [pos]);
      match cnode with
      | shortNode ck cv _ =>
          _ ← modify (onDelete (prefix ++ [pos]));
          mret (true, shortNode (pos :: ck) cv newFlag)
      | _ => mret (true, reduced)
      end
  else mret (true, fullNode cs newFlag).

Fixpoint delete (rd : trieReader) (fuel : nat) (n : node) (prefix key : bytes)
    : M (bool * node) :=
  match fuel with
  | O => lift OutOfFuel
  | S fuel =>
      match n with
      | shortNode nk nv fl =>
          let matchlen := prefixLen key nk in
          if bool_decide (matchlen < length nk) then mret (false, n)
          else if bool_decide (matchlen = length key) then
            _ ← modify (onDelete prefix);
            mret (true, nilNode)
          else
            '(dirty, child) ← delete rd fuel nv (prefix ++ take (length nk) key)
                                (drop (length nk) key);
            if negb dirty then mret (false, n)
            else
              match child with
              | shortNode ck cv _ =>
                  _ ← modify (onDelete (prefix ++ nk));
                  mret (true, shortNode (concat_keys nk ck) cv newFlag)
              | _ => mret (true, shortNode nk child newFlag)
              end
      | fullNode cs fl =>
          k0 ← lift (index key 0);
          c ← lift (index cs (nib k0));
          '(dirty, nn) ← delete rd fuel c (prefix ++ [k0]) (drop 1 key);
          if negb dirty then mret (false, n)
          else
            let cs := <[nib k0 := nn]> cs in
            match nn with
            | nilNode => reduceFull rd cs prefix
            | _ => mret (true, fullNode cs newFlag)
            end
      | valueNode _ => mret (true, nilNode)
      | nilNode => mret (false, nilNode)
      | hashNode h =>
          rn ← resolveAndTrack rd h prefix;
          '(dirty, nn) ← delete rd fuel rn prefix key;
          if negb dirty then mret (false, rn) else mret (true, nn)
      | _ => lift (Panic "invalid node")
      end
  end.

(** ** The public operations *)

(** Run a recursive update from the root: the new root is stored on success
    only, the tracer in any case. *)
Definition update_root (m : M (bool * node)) : stateM Trie error unit := λ t,
  match m (t_tracer t) with
  | (tr, Ok (_, n)) => (set_root n (set_tracer tr t), Ok tt)
  | (tr, Err e) => (set_tracer tr t, Err e)
  | (tr, Panic w) => (set_tracer tr t, Panic w)
  | (tr, OutOfFuel) => (set_tracer tr t, OutOfFuel)
  end.

Definition bump_unhashed (t : Trie) : Trie := set_unhashed (t_unhashed t + 1) t.

(** [TryUpdate] is [tryUpdate]. *)
Definition TryUpdate (key value : bytes) : stateM Trie error unit := λ t,
  let t := bump_unhashed t in
  let k := keybytesToHex key in
  if bool_decide (length value ≠ 0) then
    update_root (insert (t_reader t) (fuel_for k) (t_root t) [] k (valueNode value)) t
  else
    update_root (delete (t_reader t) (fuel_for k) (t_root t) [] k) t.

Definition TryDelete (key : bytes) : stateM Trie error unit := λ t,
  let t := bump_unhashed t in
  let k := keybytesToHex key in
  update_root (delete (t_reader t) (fuel_for k) (t_root t) [] k) t.

Definition Update (key value : bytes) : stateM Trie error unit :=
  log_error tt (TryUpdate key value).
Definition Delete (key : bytes) : stateM Trie error unit := log_error tt (TryDelete key).

(** ** Construction *)

Definition New (id : ID) (db : NodeReader) (codec : Z) : result Trie :=
  reader ← newTrieReader (id_StateRoot id) (id_Owner id) db codec;
  let trie := MkTrie nilNode (id_Owner id) 0 reader newTracer in
  if bool_decide (id_Root id ≠ zeroHash ∧ id_Root id ≠ EmptyRootHash) then
    match resolveAndTrack reader (id_Root id) [] (t_tracer trie) with
    | (tr, Ok rootnode) => Ok (set_root rootnode (set_tracer tr trie))
    | (_, Err e) => Err e
    | (_, Panic w) => Panic w
    | (_, OutOfFuel) => OutOfFuel
    end
  else Ok trie.

Definition NewEmpty (db : NodeReader) (StateTrieCodec : Z) : result Trie :=
  match New (TrieID zeroHash) db StateTrieCodec with
  | Err _ => Panic "NewEmpty"
  | o => o
  end.
End trie.
