(* ===== verification/Repr.v ===== *)
(** * In-memory nodes and the trees they stand for

    The representation relation between the [node] objects of trie.go, with
    their cached hashes, dirty bits and unresolved references, and the trees of
    [Mpt]; and the theorem that the decoder inverts the consensus encoding. *)
From S2P Require Import Prelude Errors Geth Encoding Node Mpt MptFacts Tracer Reader Trie.
Local Open Scope nat_scope.

(** The 17th child of a branch. *)
Definition onode (ov : option bytes) : node :=
  match ov with Some v => valueNode v | None => nilNode end.

Definition missing (e : error) : Prop := ∃ o h p err, e = MissingNodeError o h p err.

(** The reader answers [h] with [blob] wherever it is asked; unless it is
    [full], it may also report the node missing. *)
Definition answers (full : bool) (rd : trieReader) (h blob : bytes) : Prop :=
  ∀ path, nodeBlob rd path h = Ok blob
          ∨ (full = false ∧ ∃ e, nodeBlob rd path h = Err e ∧ missing e).

Section repr.
Context `{RlpOps, CryptoOps}.
Context (full : bool) (rd : trieReader).

(** Does a parent refer to this tree by hash? *)
Definition by_hash (t : tree) : Prop := 32 ≤ length (tenc t).

Definition available (t : tree) : Prop :=
  answers full rd (BytesToHash (keccak256 (tenc t))) (tenc t).

(** Everything below [t] that is referred to by hash is in the store. *)
Fixpoint stored_below (t : tree) : Prop :=
  match t with
  | TLeaf _ _ => True
  | TExt _ c => (by_hash c → available c) ∧ stored_below c
  | TFull cs _ =>
      allP (λ oc, match oc with
                  | Some c => (by_hash c → available c) ∧ stored_below c
                  | None => True
                  end) cs
  end.

(** What the flags of a node promise about it: a cached hash is its hash, and
    only nodes referred to by hash (or the root) have one; a clean node with a
    hash is in the store with everything below; a clean node without a hash is
    embedded in its parent.  In a [hashed] trie every node without a hash is. *)
Definition flag_ok (hashed root : bool) (t : tree) (fl : nodeFlag) : Prop :=
  match flag_hash fl with
  | Some h =>
      h = keccak256 (tenc t) ∧ (root = true ∨ by_hash t)
      ∧ (flag_dirty fl = false → available t ∧ stored_below t)
  | None => flag_dirty fl = false ∨ hashed = true → root = false ∧ ¬ by_hash t
  end.

Definition has_hash (fl : nodeFlag) : bool :=
  match flag_hash fl with Some _ => true | None => false end.

(** Below a node with a cached hash everything is hashed. *)
Inductive repr : bool → bool → tree → node → Prop :=
| repr_leaf hashed root k v fl :
    flag_ok hashed root (TLeaf k v) fl →
    repr hashed root (TLeaf k v) (shortNode (k ++ [16%Z]) (valueNode v) fl)
| repr_ext hashed root k c nc fl :
    flag_ok hashed root (TExt k c) fl → repr (hashed || has_hash fl) false c nc →
    repr hashed root (TExt k c) (shortNode k nc fl)
| repr_full hashed root cs ov ncs fl :
    flag_ok hashed root (TFull cs ov) fl → length ncs = length cs →
    (∀ i c nc, cs !! i = Some (Some c) → ncs !! i = Some nc → repr (hashed || has_hash fl) false c nc) →
    (∀ i nc, cs !! i = Some None → ncs !! i = Some nc → nc = nilNode) →
    repr hashed root (TFull cs ov) (fullNode (ncs ++ [onode ov]) fl)
| repr_hash hashed root t :
    root = true ∨ by_hash t → available t → stored_below t →
    repr hashed root t (hashNode (keccak256 (tenc t))).

Definition repr_opt (hashed root : bool) (ot : option tree) (n : node) : Prop :=
  match ot with Some t => repr hashed root t n | None => n = nilNode end.

(** The decoded form of a tree: children too long to embed become references. *)
Fixpoint expand (h : option bytes) (t : tree) : node :=
  let child c := if bool_decide (length (tenc c) < 32) then expand None c
                 else hashNode (keccak256 (tenc c)) in
  match t with
  | TLeaf k v => shortNode (k ++ [16%Z]) (valueNode v) (NodeFlag h false)
  | TExt k c => shortNode k (child c) (NodeFlag h false)
  | TFull cs ov =>
      fullNode (map (λ oc, match oc with Some c => child c | None => nilNode end) cs
                ++ [onode ov]) (NodeFlag h false)
  end.

Definition expand_child (c : tree) : node :=
  if bool_decide (length (tenc c) < 32) then expand None c else hashNode (keccak256 (tenc c)).
Definition expand_slot (oc : option tree) : node :=
  match oc with Some c => expand_child c | None => nilNode end.

(** ** Outcomes *)

(** A computation yields a result that satisfies [P], or reports a missing node
    when the store is not full; it neither panics nor runs out of fuel. *)
Definition expects {A} (P : A → Prop) (o : result A) : Prop :=
  match o with
  | Ok a => P a
  | Err e => full = false ∧ missing e
  | _ => False
  end.
Definition yields {A} (m : stateM tracer error A) (P : A → Prop) : Prop :=
  ∀ tr, expects P (m tr).2.

Lemma yields_ret {A} (a : A) (P : A → Prop) : P a → yields (mret a) P.
Proof. intros Ha tr. exact Ha. Qed.

Lemma yields_ok {A} (a : A) (P : A → Prop) : P a → yields (lift (Ok a)) P.
Proof. intros Ha tr. exact Ha. Qed.

Lemma yields_bind {A B} (m : stateM tracer error A) (f : A → stateM tracer error B) P Q :
  yields m P → (∀ a, P a → yields (f a) Q) → yields (m ≫= f) Q.
Proof.
  intros Hm Hf tr. specialize (Hm tr). mred. destruct (m tr) as [tr' [a|e|w|]]; try done.
  by apply Hf.
Qed.

Lemma yields_bind_ok {A B} (a : A) (f : A → stateM tracer error B) Q :
  yields (f a) Q → yields (lift (Ok a) ≫= f) Q.
Proof. intros Hf tr. exact (Hf tr). Qed.

Lemma yields_modify {B} g (f : unit → stateM tracer error B) Q :
  yields (f tt) Q → yields (modify g ≫= f) Q.
Proof. intros Hf tr. exact (Hf (g tr)). Qed.

Lemma yields_mono {A} (m : stateM tracer error A) (P Q : A → Prop) :
  yields m P → (∀ a, P a → Q a) → yields m Q.
Proof.
  intros Hm HPQ tr. specialize (Hm tr). destruct (m tr) as [tr' [a|e|w|]]; try done. by apply HPQ.
Qed.

(** ** The decoder inverts the encoding *)

Context `{!RlpLaws, !CryptoLaws}.

Definition slot_ref (oc : option tree) : bytes :=
  match oc with Some c => node_ref (tenc c) | None => rlp_EmptyString end.

Lemma tenc_list t : ∃ p, tenc t = rlp_List p.
Proof. destruct t; eexists; reflexivity. Qed.

(** A reference is one RLP item. *)
Lemma slot_ref_item oc : ∃ i, slot_ref oc = rlp_item_enc i.
Proof.
  destruct oc as [c|]; simpl; [|by exists (RStr [])]. unfold node_ref.
  case_bool_decide; [|by eexists (RStr _)].
  destruct (tenc_list c) as [p ->]. by exists (RList p).
Qed.

Lemma slot_refs_items cs : ∃ l, map slot_ref cs = rlp_item_enc <$> l ∧ length l = length cs.
Proof.
  induction cs as [|oc cs (l & E & L)]; [by exists []|].
  destruct (slot_ref_item oc) as [i Ei]. exists (i :: l). simpl. by rewrite E, Ei, L.
Qed.

(** The reference decoder, given that the node decoder works on embedded trees. *)
Lemma decodeRef_slot dec oc rest :
  (∀ c, oc = Some c → length (tenc c) < 32 → dec None (tenc c ++ rest) = Ok (expand None c)) →
  decodeRef dec (slot_ref oc ++ rest) = Ok (expand_slot oc, rest).
Proof.
  intros Hdec. unfold decodeRef. destruct oc as [c|]; simpl.
  - unfold node_ref, expand_child. case_bool_decide as Hl.
    + specialize (Hdec c eq_refl Hl). destruct (tenc_list c) as [p Ep].
      rewrite Ep in *. rewrite rlp_Split_list. cbn. unfold hashLen.
      rewrite bool_decide_false by (rewrite length_app; lia). by rewrite Hdec.
    + rewrite rlp_Split_string. pose proof (keccak256_length (tenc c)) as Hk. unfold hashLen in Hk.
      replace (rlp_string_kind _) with KString by (destruct (keccak256 _) as [|? [|]]; done).
      cbn. rewrite Hk. done.
  - unfold rlp_EmptyString. rewrite rlp_Split_string. done.
Qed.

Lemma decodeChildren_slots dec cs : ∀ i rest,
  (∀ c r, Some c ∈ cs → length (tenc c) < 32 → dec None (tenc c ++ r) = Ok (expand None c)) →
  decodeChildren dec (length cs) i (concat (map slot_ref cs) ++ rest)
  = Ok (map expand_slot cs, rest).
Proof.
  induction cs as [|oc cs IH]; intros i rest Hdec; [done|]. cbn [map concat length decodeChildren].
  rewrite <- app_assoc, decodeRef_slot.
  - cbn. rewrite IH; [done|]. intros c r Hc. apply Hdec. by right.
  - intros c ->. apply Hdec. by left.
Qed.

(** The payload of an encoded list is shorter than the list. *)
Ltac payload_length H :=
  match type of H with length (rlp_List ?p) ≤ _ => pose proof (rlp_List_length p) end.

Lemma decode_tenc fuel h t rest :
  wf t → length (tenc t) ≤ fuel →
  decodeNodeFuel (S fuel) h (tenc t ++ rest) = Ok (expand h t).
Proof.
  revert fuel h rest. induction t as [k v|k c IH|cs ov IH] using tree_induction;
    intros fuel h rest Hwf Hfuel; cbn [decodeNodeFuel];
    rewrite bool_decide_false by
      (rewrite length_app; edestruct tenc_list as [p ->]; pose proof (rlp_List_length p); lia).
  - destruct Hwf as [Hk Hv]. cbn [tenc]. rewrite rlp_SplitList_list.
    pose proof (rlp_CountValues_items [RStr (compact_of (k ++ [16%Z])); RStr v]) as Hc.
    cbn in Hc. rewrite app_nil_r in Hc. rewrite Hc. cbn.
    unfold decodeShort. rewrite rlp_SplitString_string. cbn.
    rewrite compactToHex_compact_of by (by constructor). rewrite hasTerm_snoc, bool_decide_true by done.
    rewrite <- (app_nil_r (rlp_WriteBytes v)), rlp_SplitString_string. done.
  - destruct Hwf as (Hk & Hne & Hf & Hwf). cbn [tenc] in *. rewrite rlp_SplitList_list.
    destruct (slot_ref_item (Some c)) as [i Ei].
    pose proof (rlp_CountValues_items [RStr (compact_of k); i]) as Hc.
    cbn in Hc. rewrite <- Ei, app_nil_r in Hc. cbn [slot_ref] in Hc. rewrite Hc. cbn [wrap].
    unfold decodeShort. rewrite bool_decide_true by done. rewrite rlp_SplitString_string. cbn.
    rewrite compactToHex_compact_of by (by constructor). rewrite path_ok_no_term by done.
    rewrite <- (app_nil_r (node_ref (tenc c))), (decodeRef_slot _ (Some c)); [done|].
    intros ? [= <-] Hl. payload_length Hfuel. unfold node_ref in *. rewrite bool_decide_true in * by done.
    rewrite length_app in *. destruct fuel as [|fuel]; [lia|]. apply IH; [done|lia].
  - pose proof Hwf as (Hlen & Hall & Hov & _). cbn [tenc] in *. rewrite rlp_SplitList_list.
    destruct (slot_refs_items cs) as (l & Eis & Lis).
    pose proof (rlp_CountValues_items (l ++ [RStr (default [] ov)])) as Hc.
    rewrite fmap_app, concat_app, <- Eis, length_app, Lis, Hlen in Hc. cbn in Hc.
    rewrite app_nil_r in Hc. fold slot_ref in *. change (map (λ oc, _) cs) with (map slot_ref cs) in *.
    rewrite Hc. cbn [wrap Nat.add Z.of_nat]. rewrite bool_decide_false, bool_decide_true by done.
    unfold decodeFull.
    rewrite <- Hlen, decodeChildren_slots.
    + cbn. rewrite <- (app_nil_r (rlp_WriteBytes _)), rlp_SplitString_string. cbn.
      destruct ov as [[|]|]; done.
    + intros c r Hin Hl. payload_length Hfuel. rewrite length_app in *.
      pose proof (length_concat_elem (slot_ref (Some c)) (map slot_ref cs)) as Hle.
      specialize (Hle ltac:(by apply (list_elem_of_fmap_2 slot_ref))).
      unfold slot_ref at 1, node_ref in Hle. rewrite bool_decide_true in Hle by done.
      apply list_elem_of_lookup in Hin as [i Hi]. destruct fuel as [|fuel]; [lia|].
      apply (IH _ _ Hi); [by eapply (wf_full_child cs ov)|lia].
Qed.

Lemma decodeNode_tenc h t : wf t → decodeNode h (tenc t) = Ok (expand h t).
Proof.
  intros Hwf. unfold decodeNode, decodeNodeUnsafe.
  by rewrite <- (app_nil_r (tenc t)) at 2; apply decode_tenc.
Qed.

(** C32: the blob of a tree decodes to its root node, with short children
    embedded and long ones left as hashes; bytes after the blob are ignored. *)
Theorem decode_roundtrip h t rest : wf t → decodeNode h (tenc t ++ rest) = Ok (expand h t).
Proof.
  intros Hwf. unfold decodeNode, decodeNodeUnsafe. apply decode_tenc; [done|].
  rewrite length_app. lia.
Qed.

(** ** What the decoder returns represents the tree *)

Lemma stored_below_child cs ov i c :
  stored_below (TFull cs ov) → cs !! i = Some (Some c) →
  (by_hash c → available c) ∧ stored_below c.
Proof. intros Hs Hi. cbn in Hs. rewrite allP_Forall, Forall_lookup in Hs. apply (Hs _ _ Hi). Qed.

Lemma flag_ok_embedded hs c : length (tenc c) < 32 → flag_ok hs false c (NodeFlag None false).
Proof. unfold flag_ok, by_hash. simpl. intros. split; [done|lia]. Qed.

Lemma repr_expand hs root h t :
  wf t → stored_below t → flag_ok hs root t (NodeFlag h false) → repr hs root t (expand h t).
Proof.
  revert hs root h. induction t as [k v|k c IH|cs ov IH] using tree_induction;
    intros hs root h Hwf Hs Hfl.
  - by constructor.
  - destruct Hwf as (_ & _ & _ & Hwf), Hs as [Ha Hs]. cbn. constructor; [done|].
    case_bool_decide; [apply IH; auto using flag_ok_embedded|].
    assert (by_hash c) by (unfold by_hash; lia). apply repr_hash; auto.
  - cbn. constructor; [done|by rewrite length_map| |].
    + intros i c nc Hi Hn. rewrite list_lookup_fmap, Hi in Hn. injection Hn as <-.
      destruct (stored_below_child _ _ _ _ Hs Hi) as [Ha Hs'].
      destruct (wf_full_child _ _ _ _ Hwf Hi) as [Hwf' _].
      case_bool_decide; [apply (IH _ _ Hi); auto using flag_ok_embedded|].
      assert (by_hash c) by (unfold by_hash; lia). apply repr_hash; auto.
    + intros i nc Hi Hn. rewrite list_lookup_fmap, Hi in Hn. by injection Hn as <-.
Qed.

Lemma flag_ok_mono hs hs' root t fl :
  (hs' = true → hs = true) → flag_ok hs root t fl → flag_ok hs' root t fl.
Proof. unfold flag_ok. destruct (flag_hash fl); [done|]. intros Hm Hf [?|?]; auto. Qed.

Lemma repr_mono hs hs' root t n :
  (hs' = true → hs = true) → repr hs root t n → repr hs' root t n.
Proof.
  intros Hm Hr. revert hs' Hm.
  induction Hr as [hs root k v fl Hfl|hs root k c nc fl Hfl Hc IH|hs root cs ov ncs fl Hfl Hlen Hcs IH Hnil|];
    intros hs' Hm; constructor; try (by eapply flag_ok_mono); try done.
  - apply IH. rewrite !orb_true_iff; tauto.
  - intros i c nc Hi Hn. eapply IH; [done..|]. rewrite !orb_true_iff; tauto.
Qed.

Lemma repr_weaken hs root t n : repr hs root t n → repr false root t n.
Proof. by apply repr_mono. Qed.

(** A node that is not an unresolved reference. *)
Definition resolved (n : node) : Prop := match n with hashNode _ => False | _ => True end.

#[export] Instance resolved_dec n : Decision (resolved n).
Proof. destruct n; apply _. Defined.

Lemma resolved_expand h t : resolved (expand h t).
Proof. by destruct t. Qed.

(** Resolving a reference gives the node it stands for, or a missing-node error. *)
Lemma resolve_repr hs root t prefix :
  wf t → root = true ∨ by_hash t → available t → stored_below t →
  yields (resolveAndTrack rd (keccak256 (tenc t)) prefix) (λ n, repr hs root t n ∧ resolved n).
Proof.
  intros Hwf Hroot Ha Hs tr. unfold resolveAndTrack. mred.
  destruct (Ha prefix) as [-> | (Hf & e & -> & He)]; [|done].
  mred. unfold mustDecodeNode. rewrite decodeNode_tenc by done.
  split; [|by apply resolved_expand]. apply repr_expand; [done|done|]. by split.
Qed.
End repr.

#[export] Hint Resolve resolved_expand : s2r.
#[export] Hint Resolve repr_weaken : s2r.

(** A branch with an embedded child and a value, and four bytes after its blob. *)
Module Witness.
Import Standin.

Definition branch : tree :=
  TFull (Some (TLeaf [] [5]%Z) :: replicate 15 None) (Some [6; 7]%Z).

Lemma decode_roundtrip_witness :
  wf branch
  ∧ decodeNode (Some [1]%Z) (tenc branch ++ [1; 2; 3; 4]%Z) = Ok (expand (Some [1]%Z) branch).
Proof.
  assert (wf branch) as Hw.
  { simpl. repeat split; try done; try (repeat constructor; done); simpl; try lia. }
  split; [done|]. by apply decode_roundtrip.
Defined.
End Witness.
