(* ===== verification/Refine.v ===== *)
(** * The trie operations refine the finite map of [Mpt]

    Lookup, insertion and deletion on lazily loaded nodes give what the
    operations on trees give, on every branch of the code. *)
From S2P Require Import Prelude Errors Geth Encoding Node Mpt MptFacts Tracer Reader Trie Repr.
Local Open Scope nat_scope.

(** ** Keys *)

Lemma matches_at_spec key nk pos r :
  drop pos key = r → r ≠ [] → matches_at key nk pos = bool_decide (take (length nk) r = nk).
Proof.
  intros <- Hne. unfold matches_at.
  assert (Hlt : pos < length key).
  { destruct (decide (pos < length key)); [done|]. rewrite drop_ge in Hne by lia. done. }
  case_bool_decide as Hl; simpl.
  - symmetry. apply bool_decide_false. intros E. apply (f_equal length) in E.
    rewrite length_take, length_drop in E. lia.
  - apply bool_decide_ext. split; congruence.
Qed.

Lemma not_nibble_16 : ¬ is_nibble 16.
Proof. unfold is_nibble. lia. Qed.

Lemma take_term k p : path_ok k → path_ok p →
  take (length k) (p ++ [16%Z]) = k ↔ take (length k) p = k.
Proof.
  intros Hk Hp. destruct (decide (length k ≤ length p)).
  - by rewrite take_app_le.
  - split; intros E; exfalso.
    + rewrite take_ge in E by (rewrite length_app; simpl; lia). subst k.
      apply path_ok_app in Hk as [_ Hk]. inversion Hk. by apply not_nibble_16.
    + apply (f_equal length) in E. rewrite length_take in E. lia.
Qed.

Lemma take_term_term k p : path_ok k → path_ok p →
  take (length (k ++ [16%Z])) (p ++ [16%Z]) = k ++ [16%Z] ↔ p = k.
Proof.
  intros Hk Hp. split; [|intros ->; by rewrite take_ge].
  rewrite length_app. simpl. intros E. destruct (decide (length p ≤ length k)) as [Hle|Hle].
  - rewrite take_ge in E by (rewrite length_app; simpl; lia). by apply app_inj_tail in E as [-> _].
  - rewrite take_app_le in E by lia. exfalso.
    assert (path_ok (k ++ [16%Z])) as Ho by (rewrite <- E; by apply Forall_take).
    apply path_ok_app in Ho as [_ Ho]. inversion Ho. by apply not_nibble_16.
Qed.

Section refine.
Context `{RlpOps, CryptoOps, !RlpLaws, !CryptoLaws}.
Context (full : bool) (rd : trieReader).
Abbreviation repr := (repr full rd).
Abbreviation yields := (yields full).

(** Fuel: two steps a nibble, and one more for an unresolved node. *)
Definition need (n : node) (p : bytes) : nat :=
  2 * length p + match n with hashNode _ => 3 | _ => 2 end.

Ltac fuel := unfold need in *; cbn -[Nat.mul] in *; rewrite ?length_app in *; simpl length in *; lia.

Lemma need_le n p : need n p ≤ 2 * length p + 3.
Proof. unfold need. destruct n; lia. Qed.

Lemma need_resolved n p : resolved n → need n p = 2 * length p + 2.
Proof. by destruct n. Qed.

(** ** Lookup *)

Lemma tryGet_onode fuel ov key pos :
  yields (tryGet rd (S fuel) (onode ov) key pos) (λ r, r = (ov, onode ov, false)).
Proof. by destruct ov. Qed.

Lemma nodes_lookup (cs : list (option tree)) (ncs : list node) i oc ov :
  length ncs = length cs → cs !! i = Some oc →
  ∃ nc, ncs !! i = Some nc ∧ (ncs ++ [onode ov]) !! i = Some nc.
Proof.
  intros Hlen Hi. destruct (lookup_lt_is_Some_2 ncs i) as [nc Hn].
  { rewrite Hlen. by eapply lookup_lt_Some. }
  exists nc. split; [done|]. rewrite lookup_app_l by (by eapply lookup_lt_Some). done.
Qed.

Lemma nodes_last (ncs : list node) n : length ncs = 16 → (ncs ++ [n]) !! 16 = Some n.
Proof. intros Hl. rewrite <- Hl. by apply list_lookup_middle. Qed.

Lemma children_weaken hs (cs : list (option tree)) (ncs : list node) :
  (∀ i c nc, cs !! i = Some (Some c) → ncs !! i = Some nc → repr hs false c nc) →
  (∀ i c nc, cs !! i = Some (Some c) → ncs !! i = Some nc → repr false false c nc).
Proof. intros Hc i c nc Hi Hn. eapply repr_weaken, Hc; done. Qed.

(** Replacing one child keeps a branch a branch. *)
Lemma repr_full_insert hs root cs ov ncs fl i oc' nc' :
  flag_ok full rd hs root (TFull (<[i := oc']> cs) ov) fl → length ncs = length cs →
  (∀ i c nc, cs !! i = Some (Some c) → ncs !! i = Some nc → repr (hs || has_hash fl) false c nc) →
  (∀ i nc, cs !! i = Some None → ncs !! i = Some nc → nc = nilNode) →
  i < length cs → repr_opt full rd (hs || has_hash fl) false oc' nc' →
  repr hs root (TFull (<[i := oc']> cs) ov) (fullNode (<[i := nc']> (ncs ++ [onode ov])) fl).
Proof.
  intros Hfl Hlen Hcs Hnil Hi Hr. rewrite insert_app_l by lia.
  constructor; [done|by rewrite !length_insert| |].
  - intros j c nc. destruct (decide (i = j)) as [<-|].
    + rewrite !list_lookup_insert_eq by lia. intros [= ->] [= <-]. done.
    + rewrite !list_lookup_insert_ne by done. apply Hcs.
  - intros j nc. destruct (decide (i = j)) as [<-|].
    + rewrite !list_lookup_insert_eq by lia. intros [= ->] [= <-]. done.
    + rewrite !list_lookup_insert_ne by done. apply Hnil.
Qed.

Lemma tryGet_spec fuel : ∀ hs root t n p key pos,
  wf t → repr hs root t n → path_ok p → drop pos key = p ++ [16%Z] → need n p ≤ fuel →
  yields (tryGet rd fuel n key pos)
    (λ '(v, n', didResolve), v = tget t p ∧ repr hs root t n' ∧ (didResolve = false → n' = n)).
Proof.
  induction fuel as [|fuel IH]; intros hs root t n p key pos Hwf Hr Hp Hkey Hfuel;
    [destruct n; fuel|].
  assert (Hne : p ++ [16%Z] ≠ []) by (by destruct p).
  destruct Hr as [hs root k v fl Hfl|hs root k c nc fl Hfl Hc|hs root cs ov ncs fl Hfl Hlen Hcs Hnil|hs root t Hh Ha Hs];
    cbn [tryGet].
  - destruct Hwf as [Hk _]. rewrite (matches_at_spec _ _ _ _ Hkey Hne).
    rewrite (bool_decide_ext _ (p = k)) by (by apply take_term_term). rewrite tget_leaf.
    case_bool_decide as E; simpl; [|by apply yields_ret; split_and!; [|constructor|]].
    destruct fuel; [fuel|].
    eapply yields_bind; [by apply (tryGet_onode _ (Some v))|]. intros ? ->.
    apply yields_ret. split_and!; [done|by constructor|done].
  - destruct Hwf as (Hk & Hkne & Hf & Hwf). rewrite (matches_at_spec _ _ _ _ Hkey Hne).
    rewrite (bool_decide_ext _ (take (length k) p = k)) by (by apply take_term).
    destruct (take_prefix k p) as [[p' ->]|Hnp].
    + rewrite take_app_length, bool_decide_true, tget_ext_app by done. simpl.
      apply path_ok_app in Hp as [_ Hp'].
      eapply yields_bind; [eapply (IH _ _ _ _ p'); try done|].
      * rewrite <- drop_drop, Hkey, <- app_assoc, drop_app_length. done.
      * pose proof (need_le nc p'). destruct k; [done|]. fuel.
      * intros [[v nc'] dr] (-> & Hr & Hdr). apply yields_ret.
        destruct dr; split_and!; try done; by constructor.
    + rewrite bool_decide_false, tget_ext_ne by done. apply yields_ret.
      split_and!; [done|by constructor|done].
  - pose proof Hwf as (Hlen16 & _).
    destruct p as [|x p].
    + assert (key !! pos = Some 16%Z) as ->%index_lookup.
      { rewrite <- (Nat.add_0_r pos), <- lookup_drop, Hkey. done. }
      apply yields_bind_ok.
      assert ((ncs ++ [onode ov]) !! nib 16 = Some (onode ov)) as Hn
        by (apply nodes_last; congruence).
      rewrite (index_lookup _ _ _ Hn). apply yields_bind_ok.
      destruct fuel; [fuel|].
      eapply yields_bind; [by apply tryGet_onode|]. intros ? ->.
      apply yields_ret. split_and!; [done|by constructor|done].
    + assert (key !! pos = Some x) as ->%index_lookup.
      { rewrite <- (Nat.add_0_r pos), <- lookup_drop, Hkey. done. }
      apply yields_bind_ok. apply path_ok_cons in Hp as [Hx Hp].
      destruct (lookup_lt_is_Some_2 cs (nib x)) as [oc Hi]; [rewrite Hlen16; by apply nib_lt|].
      destruct (nodes_lookup cs ncs _ _ ov Hlen Hi) as (nc & Hn & Hn').
      rewrite (index_lookup _ _ _ Hn'), tget_full_cons, Hi. apply yields_bind_ok.
      destruct oc as [c|].
      * destruct (wf_full_child _ _ _ _ Hwf Hi) as [Hwf' _].
        eapply yields_bind; [eapply (IH _ _ _ _ p); try done; [by eapply Hcs| |]|].
        { rewrite <- drop_drop, Hkey. done. }
        { pose proof (need_le nc p). fuel. }
        intros [[v nc'] dr] (-> & Hr & Hdr). apply yields_ret.
        destruct dr; split_and!; try done; [|by constructor].
        rewrite <- (list_insert_id cs (nib x) (Some c)) by done.
        apply repr_full_insert; try done; [by rewrite list_insert_id|by eapply lookup_lt_Some].
      * rewrite (Hnil _ _ Hi Hn). destruct fuel; [fuel|].
        apply yields_bind with (λ r, r = (None, nilNode, false)); [by apply yields_ret|].
        intros ? ->. apply yields_ret. split_and!; [done|by constructor|done].
  - eapply yields_bind; [by eapply resolve_repr|]. intros n [Hr Hres].
    eapply yields_bind; [eapply IH; try done; rewrite need_resolved by done; fuel|].
    intros [[v n'] dr] (-> & Hr' & _). apply yields_ret. done.
Qed.

(** ** Insertion *)

(** What is left of a key below a branch slot: the node itself at its end. *)
Definition tail_node (q : bytes) (n : node) : node :=
  match q with [] => n | _ => shortNode q n newFlag end.

Lemma newFlag_ok root t : flag_ok full rd false root t newFlag.
Proof. by intros [|]. Qed.
#[local] Hint Resolve newFlag_ok : core.

Lemma insert_nil fuel prefix q value :
  yields (insert rd (S fuel) nilNode prefix q value) (λ r, r = (true, tail_node q value)).
Proof. destruct q; [by apply yields_ret|by apply yields_modify, yields_ret]. Qed.

(** The code of a short node whose key leaves the inserted key at [pre]. *)
Lemma insert_split fuel pre x r y s nv fl prefix value :
  x ≠ y → nib x < 17 → nib y < 17 →
  yields (insert rd (S (S fuel)) (shortNode (pre ++ x :: r) nv fl) prefix (pre ++ y :: s) value)
    (λ res, res = (true, tail_node pre
       (fullNode (<[nib y := tail_node s value]> (<[nib x := tail_node r nv]> (replicate 17 nilNode)))
          newFlag))).
Proof.
  intros Hxy Hx Hy.
  assert (Hm : prefixLen (pre ++ y :: s) (pre ++ x :: r) = length pre).
  { rewrite prefixLen_app, prefixLen_heads; [lia|]. simpl. congruence. }
  remember (S fuel) as f eqn:Ef. cbn [insert].
  destruct (pre ++ y :: s) as [|k0 krest] eqn:Ekey; [by destruct pre|]. rewrite <- Ekey in *.
  rewrite Hm, bool_decide_false by (rewrite length_app; simpl; lia).
  rewrite (index_lookup (pre ++ x :: r) _ x) by (by apply list_lookup_middle). apply yields_bind_ok.
  assert (Hd : ∀ z l, drop (length pre + 1) (pre ++ z :: l) = l).
  { intros z l. rewrite <- drop_drop, drop_app_length. done. }
  rewrite !Hd. subst f.
  eapply yields_bind; [apply insert_nil|]. intros ? ->.
  rewrite assign_ok by done. apply yields_bind_ok.
  rewrite (index_lookup (pre ++ y :: s) _ y) by (by apply list_lookup_middle). apply yields_bind_ok.
  eapply yields_bind; [apply insert_nil|]. intros ? ->.
  rewrite assign_ok by (by rewrite length_insert). apply yields_bind_ok.
  rewrite take_app_length. destruct pre as [|z pre]; [by apply yields_ret|].
  cbn [length]. rewrite bool_decide_false by lia. by apply yields_modify, yields_ret.
Qed.

(** The nodes of a branch under construction. *)
Definition branch_repr (b : list (option tree) * option bytes) (ns : list node) : Prop :=
  ∃ ncs, ns = ncs ++ [onode b.2] ∧ length ncs = length b.1
    ∧ (∀ i c nc, b.1 !! i = Some (Some c) → ncs !! i = Some nc → repr false false c nc)
    ∧ (∀ i nc, b.1 !! i = Some None → ncs !! i = Some nc → nc = nilNode).

Lemma branch_repr_empty : branch_repr empty_branch (replicate 17 nilNode).
Proof.
  exists (replicate 16 nilNode). split; [done|split; [done|split]].
  - intros i c nc Hi. apply (lookup_replicate 16) in Hi as [Hi _]. done.
  - intros i nc _ Hi. by apply (lookup_replicate 16) in Hi as [-> _].
Qed.

Lemma branch_repr_full root b ns :
  branch_repr b ns → repr false root (full_of b) (fullNode ns newFlag).
Proof. intros (ncs & -> & Hlen & Hc & Hn). by constructor. Qed.

(** [put] writes slot [z], the next nibble of the path or the terminator. *)
Lemma branch_repr_put b ns q v mk z nc :
  branch_repr b ns → length b.1 = 16 → path_ok q → z = default 16%Z (head q) →
  (q = [] → nc = valueNode v) → (∀ x q', q = x :: q' → repr false false (mk q') nc) →
  branch_repr (put q v mk b) (<[nib z := nc]> ns).
Proof.
  intros (ncs & -> & Hlen & Hc & Hn) H16 Hq -> Hnil Hcons. destruct q as [|x q]; simpl.
  - rewrite (Hnil eq_refl). exists ncs. split; [|done]. simpl. change (nib 16) with 16.
    rewrite insert_app_r_alt by lia. by rewrite Hlen, H16.
  - apply path_ok_cons in Hq as [Hx _]. pose proof (nib_lt x Hx).
    exists (<[nib x := nc]> ncs). rewrite insert_app_l by lia. split; [done|].
    cbn [fst snd]. rewrite !length_insert. split; [done|]. split.
    + intros j c nc'. simpl. destruct (decide (nib x = j)) as [<-|].
      * rewrite !list_lookup_insert_eq by lia. intros [= <-] [= <-]. by eapply Hcons.
      * rewrite !list_lookup_insert_ne by done. apply Hc.
    + intros j nc'. simpl. destruct (decide (nib x = j)) as [<-|].
      * by rewrite !list_lookup_insert_eq by lia.
      * rewrite !list_lookup_insert_ne by done. apply Hn.
Qed.

(** The two tails: a leaf, and the rest of an extension. *)
Lemma repr_tail_leaf root q v : repr false root (TLeaf q v) (tail_node (q ++ [16%Z]) (valueNode v)).
Proof. destruct q; by apply (repr_leaf _ _ _ _ _ _ newFlag). Qed.

Lemma repr_tail_ext root q c nc : is_full c → repr false root c nc → repr false false c nc →
  repr false root (mk_ext q c) (tail_node q nc).
Proof. intros. destruct q; [done|by constructor]. Qed.

Lemma branch_put_leaf b ns q v z r :
  branch_repr b ns → length b.1 = 16 → path_ok q → q ++ [16%Z] = z :: r →
  branch_repr (put q v (λ q, TLeaf q v) b) (<[nib z := tail_node r (valueNode v)]> ns).
Proof.
  intros Hb H16 Hq E. apply branch_repr_put; try done.
  - destruct q; injection E; done.
  - intros ->. by injection E as _ <-.
  - intros x q' ->. injection E as -> <-. apply repr_tail_leaf.
Qed.

Lemma insert_short_match fuel nk nv fl prefix key value :
  key ≠ [] → prefixLen key nk = length nk →
  insert rd (S fuel) (shortNode nk nv fl) prefix key value =
    ('(dirty, nn) ← insert rd fuel nv (prefix ++ take (length nk) key) (drop (length nk) key) value;
     if negb dirty then mret (false, shortNode nk nv fl) else mret (true, shortNode nk nn newFlag)).
Proof.
  intros Hne Hm. cbn [insert]. destruct key; [done|]. by rewrite Hm, bool_decide_true.
Qed.

Lemma insert_hash fuel h prefix key value :
  key ≠ [] →
  insert rd (S fuel) (hashNode h) prefix key value =
    (rn ← resolveAndTrack rd h prefix;
     '(dirty, nn) ← insert rd fuel rn prefix key value;
     if negb dirty then mret (false, rn) else mret (true, nn)).
Proof. by destruct key. Qed.

Lemma snoc_head (q : bytes) : ∃ z r, q ++ [16%Z] = z :: r ∧ z = default 16%Z (head q).
Proof. destruct q; simpl; eauto. Qed.

Lemma slot_lt q z r : path_ok q → q ++ [16%Z] = z :: r → nib z < 17.
Proof.
  destruct q as [|x q]; intros Hq [= <- <-]; [unfold nib; lia|].
  apply path_ok_cons in Hq as [Hx _]. pose proof (nib_lt x Hx). lia.
Qed.

Lemma slots_differ p k :
  path_ok p → path_ok k → head p ≠ head k → default 16%Z (head p) ≠ default 16%Z (head k).
Proof.
  intros Hp Hk Hh. destruct p as [|x p], k as [|y k]; simpl in *; try congruence.
  - apply path_ok_cons in Hk as [Hk _]. unfold is_nibble in Hk. lia.
  - apply path_ok_cons in Hp as [Hp _]. unfold is_nibble in Hp. lia.
Qed.

Lemma repr_split root pre b ns :
  branch_repr b ns → repr false root (mk_ext pre (full_of b)) (tail_node pre (fullNode ns newFlag)).
Proof. intros Hb. apply repr_tail_ext; [done|by apply branch_repr_full..]. Qed.

(** Inserting below a short node whose key diverges from the path. *)
Lemma insert_leaf_split fuel root k v0 fl p prefix v :
  path_ok k → path_ok p → p ≠ k →
  yields (insert rd (S (S fuel)) (shortNode (k ++ [16%Z]) (valueNode v0) fl) prefix
            (p ++ [16%Z]) (valueNode v))
    (λ '(dirty, n'), dirty = true ∧ repr false root (tinsert (TLeaf k v0) p v) n').
Proof.
  intros Hk Hp Hpk. cbn [tinsert]. rewrite bool_decide_false by done.
  destruct (prefixLen_cases p k) as (pre & p' & k' & -> & -> & -> & Hh).
  rewrite take_app_length, !drop_app_length.
  apply path_ok_app in Hp as [Hpre Hp'], Hk as [_ Hk'].
  assert (Hne : head p' ≠ head k') by (intros E; by destruct (Hh E) as [-> ->]).
  destruct (snoc_head p') as (y & s & Ey & Hy), (snoc_head k') as (x & r & Ex & Hx).
  rewrite <- !app_assoc, Ex, Ey. eapply yields_mono; [apply insert_split|].
  - subst. by apply not_eq_sym, slots_differ.
  - by eapply slot_lt, Ex.
  - by eapply slot_lt, Ey.
  - intros ? ->. split; [done|]. apply repr_split.
    apply branch_put_leaf; [|by rewrite length_put|done|done].
    apply branch_put_leaf; [apply branch_repr_empty|done..].
Qed.

Lemma insert_ext_split fuel root k c nc fl p prefix v :
  path_ok k → path_ok p → is_full c → repr false false c nc → prefixLen p k ≠ length k →
  yields (insert rd (S (S fuel)) (shortNode k nc fl) prefix (p ++ [16%Z]) (valueNode v))
    (λ '(dirty, n'), dirty = true ∧ repr false root (tinsert (TExt k c) p v) n').
Proof.
  intros Hk Hp Hf Hc Hm. cbn [tinsert]. rewrite bool_decide_false by done.
  destruct (prefixLen_cases p k) as (pre & p' & k' & -> & -> & Hl & Hh).
  rewrite Hl in *. rewrite take_app_length, !drop_app_length.
  apply path_ok_app in Hp as [Hpre Hp'], Hk as [_ Hk'].
  destruct k' as [|x r]; [by rewrite app_nil_r in Hm|].
  assert (Hne : head p' ≠ head (x :: r)) by (intros E; by destruct (Hh E)).
  destruct (snoc_head p') as (y & s & Ey & Hy).
  rewrite <- !app_assoc, Ey. eapply yields_mono; [apply insert_split|].
  - subst. by apply not_eq_sym, (slots_differ p' (x :: r)).
  - apply path_ok_cons in Hk' as [Hx _]. pose proof (nib_lt x Hx). lia.
  - by eapply slot_lt, Ey.
  - intros ? ->. split; [done|]. apply repr_split.
    apply branch_put_leaf; [|by rewrite length_put|done|done].
    apply branch_repr_put; try done; [apply branch_repr_empty|].
    intros ? ? [= <- <-]. by apply repr_tail_ext.
Qed.

(** Inserting at a branch slot that is empty. *)
Lemma insert_onode fuel ov prefix v :
  yields (insert rd (S fuel) (onode ov) prefix [] (valueNode v))
    (λ '(dirty, n'), n' = valueNode v ∧ (dirty = false → ov = Some v)).
Proof.
  destruct ov as [v0|]; apply yields_ret; split; try done.
  case_bool_decide; [by subst|done].
Qed.

Lemma insert_spec fuel : ∀ root t n p prefix v,
  wf t → repr false root t n → path_ok p → need n p ≤ fuel →
  yields (insert rd fuel n prefix (p ++ [16%Z]) (valueNode v))
    (λ '(dirty, n'), repr false root (tinsert t p v) n' ∧ (dirty = false → tinsert t p v = t)).
Proof.
  induction fuel as [|fuel IH]; intros root t n p prefix v Hwf Hr Hp Hfuel; [destruct n; fuel|].
  assert (Hne : p ++ [16%Z] ≠ []) by (by destruct p).
  assert (fuel = S (fuel - 1)) as Hf1 by (destruct n; fuel).
  pose proof Hr as Hr0.
  remember false as hs eqn:Ehs in Hr.
  destruct Hr as [hs root k v0 fl Hfl|hs root k c nc fl Hfl Hc|hs root cs ov ncs fl Hfl Hlen Hcs Hnil|hs root t Hh Ha Hs]; subst hs.
  - destruct Hwf as [Hk _]. destruct (decide (p = k)) as [->|Hpk].
    + rewrite insert_short_match; [|done|].
      2:{ rewrite <- (app_nil_r (k ++ [16%Z])) at 1. apply prefixLen_prefix. }
      rewrite drop_ge by done. cbn [tinsert]. rewrite bool_decide_true, Hf1 by done.
      eapply yields_bind; [by apply (insert_onode _ (Some v0))|].
      intros [dirty nn] (-> & Hd). destruct dirty; apply yields_ret; simpl.
      * split; [by constructor|done].
      * injection (Hd eq_refl) as ->. done.
    + rewrite Hf1. eapply yields_mono; [by apply insert_leaf_split|].
      intros [dirty n'] [-> Hr]. done.
  - apply repr_weaken in Hc. destruct Hwf as (Hk & Hkne & Hf & Hwf). destruct (decide (prefixLen p k = length k)) as [Hm|Hm].
    + destruct (ext_key_cases k c p v Hm) as (p' & -> & ->).
      apply path_ok_app in Hp as [_ Hp']. rewrite insert_short_match; [|done|].
      2:{ rewrite <- app_assoc. apply prefixLen_prefix. }
      rewrite <- app_assoc, drop_app_length.
      eapply yields_bind; [eapply (IH false c); try done|].
      { pose proof (need_le nc p'). destruct k; [done|]. fuel. }
      intros [dirty nn] [Hrc Hd]. destruct dirty; apply yields_ret; simpl.
      * split; [by constructor|done].
      * rewrite (Hd eq_refl). done.
    + rewrite Hf1. eapply yields_mono; [by apply insert_ext_split|].
      intros [dirty n'] [-> Hr]. done.
  - pose proof (children_weaken _ _ _ Hcs) as Hcs'. clear Hcs. rename Hcs' into Hcs.
    pose proof Hwf as (Hlen16 & _). destruct p as [|x p]; cbn [app insert].
    + assert ((ncs ++ [onode ov]) !! nib 16 = Some (onode ov)) as Hn
        by (apply nodes_last; congruence).
      rewrite (index_lookup _ _ _ Hn). apply yields_bind_ok. rewrite Hf1.
      eapply yields_bind; [apply insert_onode|]. intros [dirty nn] (-> & Hd).
      cbn [tinsert]. destruct dirty; apply yields_ret; simpl.
      * split; [|done]. change (nib 16) with 16.
        rewrite insert_app_r_alt by lia. rewrite Hlen, Hlen16.
        by apply (repr_full _ _ _ _ _ (Some v)).
      * by rewrite (Hd eq_refl) in *.
    + apply path_ok_cons in Hp as [Hx Hp].
      destruct (lookup_lt_is_Some_2 cs (nib x)) as [oc Hi]; [rewrite Hlen16; by apply nib_lt|].
      destruct (nodes_lookup cs ncs _ _ ov Hlen Hi) as (nc & Hn & Hn').
      rewrite (index_lookup _ _ _ Hn'). apply yields_bind_ok. cbn [tinsert].
      rewrite (list_alter_insert _ _ _ _ Hi).
      eapply yields_bind with (λ '(dirty, n'),
        repr false false (match oc with Some c => tinsert c p v | None => TLeaf p v end) n'
        ∧ (dirty = false → oc = Some (match oc with Some c => tinsert c p v | None => TLeaf p v end))).
      { destruct oc as [c|].
        - destruct (wf_full_child _ _ _ _ Hwf Hi) as [Hwf' _].
          eapply yields_mono; [eapply (IH false c); try done; [by eapply Hcs|]|].
          + pose proof (need_le nc p). fuel.
          + intros [dirty n'] [Hrc Hd]. split; [done|]. intros E. by rewrite Hd.
        - rewrite (Hnil _ _ Hi Hn), Hf1. eapply yields_mono; [apply insert_nil|].
          intros ? ->. split; [apply repr_tail_leaf|done]. }
      intros [dirty nn] [Hrc Hd]. destruct dirty; apply yields_ret; simpl.
      * split; [|done]. apply repr_full_insert; try done. by eapply lookup_lt_Some.
      * rewrite <- (Hd eq_refl), list_insert_id by done. done.
  - rewrite insert_hash by done.
    eapply yields_bind; [by eapply resolve_repr|]. intros n [Hr Hres].
    eapply yields_bind; [eapply IH; try done; rewrite need_resolved by done; fuel|].
    intros [dirty n'] [Hr' Hd]. destruct dirty; apply yields_ret; simpl; [done|].
    by rewrite (Hd eq_refl).
Qed.

(** ** Deletion *)

Definition live (ns : list node) (j : nat) : Prop := ∃ n, ns !! j = Some n ∧ n ≠ nilNode.

Lemma live_cons n ns j : live (n :: ns) (S j) ↔ live ns j.
Proof. done. Qed.

Lemma scan_found_none i pos ns :
  (∀ k, ¬ live ns k) → scanChildren i pos ns = pos.
Proof.
  revert i. induction ns as [|n ns IH]; intros i Hn; [done|].
  assert (n = nilNode) as ->.
  { destruct n; try done; by edestruct (Hn 0); eexists. }
  apply IH. intros k. apply (Hn (S k)).
Qed.

Lemma scan_found_two i pos ns k : live ns k → pos ≠ (-1)%Z → scanChildren i pos ns = (-2)%Z.
Proof.
  revert i k. induction ns as [|n ns IH]; intros i k Hk Hpos; [by destruct Hk as (? & ? & _)|].
  destruct k as [|k]; cbn [scanChildren].
  - destruct Hk as (n' & [= ->] & Hn). destruct n'; try done; by rewrite bool_decide_false.
  - destruct n; try (by rewrite bool_decide_false); by eapply IH.
Qed.

Lemma scan_one i ns j : (0 ≤ i)%Z →
  live ns j → (∀ k, live ns k → k = j) → scanChildren i (-1) ns = (i + Z.of_nat j)%Z.
Proof.
  revert i j. induction ns as [|n ns IH]; intros i j Hi Hj Hu; [by destruct Hj as (? & ? & _)|].
  destruct j as [|j]; cbn [scanChildren].
  - destruct Hj as (n' & [= ->] & Hn).
    assert (Hrest : scanChildren (i + 1) i ns = (i + Z.of_nat 0)%Z).
    { rewrite scan_found_none; [lia|]. intros k Hk. specialize (Hu (S k) Hk). done. }
    destruct n'; done || by rewrite bool_decide_true.
  - assert (n = nilNode) as ->.
    { destruct n; try done; ospecialize (Hu 0 _); try done; by eexists. }
    rewrite (IH (i + 1)%Z j); [lia|lia|done|]. intros k Hk. specialize (Hu (S k) Hk). lia.
Qed.

Lemma scan_two i ns j k : (0 ≤ i)%Z →
  live ns j → live ns k → j < k → scanChildren i (-1) ns = (-2)%Z.
Proof.
  revert i j k. induction ns as [|n ns IH]; intros i j k Hi Hj Hk Hjk;
    [by destruct Hj as (? & ? & _)|].
  destruct k as [|k]; [lia|]. apply live_cons in Hk. destruct j as [|j]; cbn [scanChildren].
  - destruct Hj as (n' & [= ->] & Hn).
    assert (Hrest : scanChildren (i + 1) i ns = (-2)%Z) by (by eapply scan_found_two; [|lia]).
    destruct n'; done || by rewrite bool_decide_true.
  - apply live_cons in Hj.
    destruct n; rewrite ?bool_decide_true by done;
      first [apply (IH (i + 1)%Z j k); [lia|done|done|lia] | eapply scan_found_two; [done|lia]].
Qed.

Lemma repr_not_nil root t n : repr false root t n → n ≠ nilNode.
Proof. by destruct 1. Qed.

(** The live slots of a branch are its occupied ones. *)
Lemma branch_live b ns j :
  branch_repr b ns → length b.1 = 16 →
  live ns j ↔ (∃ c, b.1 !! j = Some (Some c)) ∨ (j = 16 ∧ is_Some b.2).
Proof.
  intros (ncs & -> & Hlen & Hc & Hn) H16. unfold live. split.
  - intros (n & Hj & Hne). destruct (decide (j < 16)) as [Hlt|Hge].
    + rewrite lookup_app_l in Hj by lia.
      destruct (lookup_lt_is_Some_2 b.1 j) as [[c|] Hi]; [lia|left; eauto|].
      by rewrite (Hn _ _ Hi Hj) in Hne.
    + right. pose proof (lookup_lt_Some _ _ _ Hj) as Hl. rewrite length_app in Hl. simpl in Hl.
      assert (j = 16) as -> by lia. split; [done|].
      rewrite (nodes_last ncs (onode b.2)) in Hj by lia. injection Hj as <-.
      destruct b.2; [by eexists|done].
  - intros [[c Hi] | [-> [v Hv]]].
    + destruct (nodes_lookup _ _ _ _ b.2 Hlen Hi) as (nc & Hnc & Hnc').
      exists nc. split; [done|]. eapply repr_not_nil, Hc; done.
    + exists (onode b.2). split; [apply (nodes_last ncs); lia|]. by rewrite Hv.
Qed.

Lemma branch_repr_child b ns i c :
  branch_repr b ns → b.1 !! i = Some (Some c) → ∃ nc, ns !! i = Some nc ∧ repr false false c nc.
Proof.
  intros (ncs & -> & Hlen & Hc & Hn) Hi.
  destruct (nodes_lookup _ _ _ _ b.2 Hlen Hi) as (nc & Hnc & Hnc'). eauto.
Qed.

Lemma resolve_spec c nc prefix :
  wf c → repr false false c nc → yields (resolve rd nc prefix) (λ n, repr false false c n ∧ resolved n).
Proof.
  intros Hwf Hr. destruct nc; try (by apply yields_ret).
  inversion Hr; subst. by apply resolve_repr.
Qed.

(** A resolved node is a short node or a branch, as its tree is. *)
Lemma repr_shape hs root t n :
  repr hs root t n → resolved n →
  (∃ k v fl, n = shortNode k v fl) ∨ (∃ cs fl, n = fullNode cs fl ∧ is_full t).
Proof. destruct 1; intros Hres; eauto 6. done. Qed.

(** A short node takes a prefix by extending its key. *)
Lemma repr_short_prepend root pre c ck cv fl :
  repr false false c (shortNode ck cv fl) →
  repr false root (prepend pre c) (shortNode (pre ++ ck) cv newFlag).
Proof.
  inversion 1; subst; simpl.
  - rewrite app_assoc. by constructor.
  - constructor; [done|]. by eapply repr_weaken.
Qed.

Lemma reduceFull_spec root cs ov ns prefix :
  branch_repr (cs, ov) ns → length cs = 16 → 1 ≤ entries cs ov →
  (∀ i c, cs !! i = Some (Some c) → wf c) →
  yields (reduceFull rd ns prefix)
    (λ '(dirty, n'), dirty = true ∧ repr_opt full rd false root (reduce cs ov) n' ∧ resolved n').
Proof.
  intros Hb H16 He Hwf. unfold reduceFull.
  pose proof (λ j, branch_live (cs, ov) ns j Hb H16) as Hlive. cbn [fst snd] in Hlive.
  destruct (reduceP cs ov) as [He2|v -> Hn|i c -> Hi Hu| -> Hn].
  - assert (∃ j k, j < k ∧ live ns j ∧ live ns k) as (j & k & Hjk & Hj & Hk).
    { unfold entries in He2. destruct ov as [v|].
      - destruct (occupied_one cs) as (j & c & Hj); [lia|].
        exists j, 16. rewrite !Hlive. pose proof (lookup_lt_Some _ _ _ Hj).
        split_and!; [lia|left; eauto|right; eauto].
      - destruct (occupied_two cs) as (i & j & a & b & Hij & Hi & Hj); [lia|].
        destruct (decide (i < j)); [exists i, j|exists j, i]; rewrite !Hlive;
          (split_and!; [lia|left; eauto|left; eauto]). }
    rewrite (scan_two 0 ns j k) by done. rewrite bool_decide_false by lia.
    apply yields_ret. split_and!; try done. by apply (branch_repr_full _ (cs, ov)).
  - rewrite (scan_one 0 ns 16); [|done|apply Hlive; eauto|].
    2:{ intros k [[c Hk]|[-> _]]%Hlive; [by edestruct Hn|done]. }
    rewrite bool_decide_true by lia. destruct Hb as (ncs & -> & Hlen & _). simpl in Hlen.
    rewrite (index_lookup _ _ (valueNode v)) by (apply nodes_last; lia). apply yields_bind_ok.
    rewrite bool_decide_true by done. apply yields_ret. split_and!; try done.
    by apply (repr_leaf _ _ _ _ []).
  - rewrite (scan_one 0 ns i); [|done|apply Hlive; eauto|].
    2:{ intros k [[c' Hk]|[-> [? ?]]]%Hlive; [by eapply Hu|done]. }
    rewrite bool_decide_true by lia. rewrite Z.add_0_l.
    destruct (branch_repr_child _ _ _ _ Hb Hi) as (nc & Hnc & Hrc).
    rewrite nib_of_nat, (index_lookup _ _ _ Hnc). apply yields_bind_ok.
    pose proof (lookup_lt_Some _ _ _ Hi). rewrite bool_decide_false by lia.
    eapply yields_bind; [by eapply resolve_spec; [eapply Hwf|]|]. intros cn [Hr Hres].
    destruct (repr_shape _ _ _ _ Hr Hres) as [(ck & cv & fl & ->)|(ccs & fl & -> & Hf)].
    + apply yields_modify, yields_ret. split_and!; try done. by eapply (repr_short_prepend _ [_]).
    + apply yields_ret. split_and!; try done. cbn. rewrite is_full_prepend by done.
      by apply repr_ext.
  - unfold entries in He. destruct (occupied_one cs) as (j & c & Hj); [lia|]. by edestruct Hn.
Qed.

Lemma reduce_two cs ov : 2 ≤ entries cs ov → reduce cs ov = Some (TFull cs ov).
Proof. intros. unfold reduce. by rewrite bool_decide_true. Qed.

(** Deleting never empties a branch. *)
Lemma reduce_some cs ov : 1 ≤ entries cs ov → is_Some (reduce cs ov).
Proof.
  intros He. destruct (reduceP cs ov) as [| | |Hov Hn]; try by eexists.
  subst. unfold entries in He. destruct (occupied_one cs) as (j & c & Hj); [lia|]. by edestruct Hn.
Qed.

Lemma tdelete_full_some c p : wf c → is_full c → path_ok p → is_Some (tdelete c p).
Proof.
  intros Hwf Hf Hp. destruct c as [| |cs ov]; [done..|].
  pose proof Hwf as (Hlen & _ & _ & He). unfold entries in He. destruct p as [|x p]; cbn [tdelete].
  - destruct ov; [|by eexists]. apply reduce_some. unfold entries. lia.
  - apply path_ok_cons in Hp as [Hx _].
    destruct (lookup_lt_is_Some_2 cs (nib x)) as [oc Hi]; [rewrite Hlen; by apply nib_lt|].
    rewrite (list_alter_insert _ _ _ _ Hi). apply reduce_some. unfold entries.
    destruct (match oc with Some c => tdelete c p | None => None end).
    + rewrite occupied_insert_Some by (rewrite Hlen; by apply nib_lt). rewrite Hi. destruct oc; lia.
    + pose proof (occupied_insert_None cs (nib x)) as Ho. rewrite Hi in Ho. destruct oc; lia.
Qed.

(** What a deletion promises of the node it returns. *)
Definition deleted (root : bool) (t : tree) (ot : option tree) (r : bool * node) : Prop :=
  if r.1 then repr_opt full rd false root ot r.2 ∧ resolved r.2
  else ot = Some t ∧ repr false root t r.2.

Lemma prefixLen_lt p k :
  take (length k) p ≠ k → prefixLen p k < length k.
Proof.
  intros Hne. destruct (prefixLen_cases p k) as (pre & p' & k' & -> & -> & -> & _).
  rewrite length_app. destruct k'; [|simpl; lia].
  rewrite app_nil_r, take_app_length in Hne. done.
Qed.

Lemma repr_branch root cs ov ns fl :
  repr false root (TFull cs ov) (fullNode ns fl) → branch_repr (cs, ov) ns.
Proof. inversion 1; subst. exists ncs. split_and!; try done. by eapply children_weaken. Qed.

Lemma branch_repr_insert cs ov ns i oc nc :
  branch_repr (cs, ov) ns → i < length cs → repr_opt full rd false false oc nc →
  branch_repr (<[i := oc]> cs, ov) (<[i := nc]> ns).
Proof.
  intros (ncs & -> & Hlen & Hc & Hn) Hi Hr. cbn [fst snd] in *.
  pose proof (repr_full_insert false true cs ov ncs newFlag i oc nc (newFlag_ok _ _) Hlen Hc Hn Hi Hr) as Hf.
  by apply repr_branch in Hf.
Qed.

Lemma branch_repr_value cs ov ov' ns :
  branch_repr (cs, ov) ns → length cs = 16 → branch_repr (cs, ov') (<[16 := onode ov']> ns).
Proof.
  intros (ncs & -> & Hlen & Hc & Hn) H16. cbn [fst snd] in *. exists ncs.
  split; [|done]. rewrite insert_app_r_alt by lia. by rewrite Hlen, H16.
Qed.

(** The code after the recursive call on a slot of a branch. *)
Lemma deleted_branch root cs ov cs' ov' ns fl i (r : bool * node) prefix :
  repr false root (TFull cs ov) (fullNode ns fl) → length cs' = 16 →
  (if r.1 then
     branch_repr (cs', ov') (<[i := r.2]> ns) ∧ 1 ≤ entries cs' ov'
     ∧ (r.2 ≠ nilNode → 2 ≤ entries cs' ov') ∧ (∀ j c, cs' !! j = Some (Some c) → wf c)
   else reduce cs' ov' = Some (TFull cs ov)) →
  yields (let '(dirty, nn) := r in
          if negb dirty then mret (false, fullNode ns fl)
          else let cs := <[i := nn]> ns in
               match nn with
               | nilNode => reduceFull rd cs prefix
               | _ => mret (true, fullNode cs newFlag)
               end)
    (deleted root (TFull cs ov) (reduce cs' ov')).
Proof.
  intros Hr Hlen Hc. destruct r as [[] nn]; cbn [fst snd negb] in *; [|by apply yields_ret].
  destruct Hc as (Hb & He & Hne & Hwf).
  assert (nn = nilNode ∨ nn ≠ nilNode) as [->|Hnn] by (destruct nn; auto).
  - eapply yields_mono; [by eapply reduceFull_spec|]. intros [d n'] (-> & ? & ?). by split.
  - assert (yields (mret (true, fullNode (<[i:=nn]> ns) newFlag))
              (deleted root (TFull cs ov) (reduce cs' ov'))) as Hret.
    { apply yields_ret. rewrite reduce_two by auto. split; [|done]. by apply (branch_repr_full _ (cs', ov')). }
    by destruct nn.
Qed.

Lemma delete_onode fuel ov prefix key :
  yields (delete rd (S fuel) (onode ov) prefix key)
    (λ r, r = (match ov with Some _ => true | None => false end, nilNode)).
Proof. by destruct ov; apply yields_ret. Qed.

Lemma delete_spec fuel : ∀ root t n p prefix,
  wf t → repr false root t n → path_ok p → need n p ≤ fuel →
  yields (delete rd fuel n prefix (p ++ [16%Z])) (deleted root t (tdelete t p)).
Proof.
  induction fuel as [|fuel IH]; intros root t n p prefix Hwf Hr Hp Hfuel; [destruct n; fuel|].
  assert (fuel = S (fuel - 1)) as Hf1 by (destruct n; fuel).
  pose proof Hr as Hr0.
  remember false as hs eqn:Ehs in Hr.
  destruct Hr as [hs root k v0 fl Hfl|hs root k c nc fl Hfl Hc|hs root cs ov ncs fl Hfl Hlen Hcs Hnil|hs root t Hh Ha Hs]; subst hs; cbn [delete].
  - destruct Hwf as [Hk _]. cbn [tdelete]. destruct (decide (p = k)) as [->|Hpk].
    + pose proof (prefixLen_prefix (k ++ [16%Z]) []) as Epl. rewrite app_nil_r in Epl. rewrite Epl.
      rewrite (bool_decide_false (_ < _)) by lia. rewrite !bool_decide_true by done.
      by apply yields_modify, yields_ret.
    + rewrite (bool_decide_true (_ < _)).
      2:{ apply prefixLen_lt. by rewrite take_term_term. }
      rewrite bool_decide_false by done. by apply yields_ret.
  - apply repr_weaken in Hc. destruct Hwf as (Hk & Hkne & Hf & Hwf). cbn [tdelete].
    destruct (take_prefix k p) as [[p' ->]|Hnp].
    + rewrite take_app_length, (bool_decide_true (k = k)), drop_app_length by done.
      apply path_ok_app in Hp as [_ Hp'].
      rewrite <- app_assoc, prefixLen_prefix, (bool_decide_false (_ < _)) by lia.
      rewrite bool_decide_false by (rewrite !length_app; simpl; lia). rewrite drop_app_length.
      eapply yields_bind; [eapply (IH false c); try done|].
      { pose proof (need_le nc p'). destruct k; [done|]. fuel. }
      destruct (tdelete_full_some c p' Hwf Hf Hp') as [c' Hc']. rewrite Hc'.
      intros [[] nn] Hd; unfold deleted in Hd; cbn [fst snd repr_opt negb fmap option_fmap option_map] in *.
      * destruct Hd as [Hr Hres].
        destruct (repr_shape _ _ _ _ Hr Hres) as [(ck & cv & fl' & ->)|(ccs & fl' & -> & Hf')].
        -- apply yields_modify, yields_ret. split; [|done]. by eapply repr_short_prepend.
        -- apply yields_ret. split; [|done]. cbn. rewrite is_full_prepend by done.
           destruct k; [done|]. by apply repr_ext.
      * destruct Hd as [[= ->] Hr]. apply yields_ret. split; [|done].
        cbn [fst]. f_equal. by rewrite is_full_prepend; [destruct k|].
    + rewrite (bool_decide_true (_ < _)).
      2:{ apply prefixLen_lt. by rewrite take_term. }
      rewrite bool_decide_false by done. by apply yields_ret.
  - pose proof (children_weaken _ _ _ Hcs) as Hcs'. clear Hcs. rename Hcs' into Hcs.
    pose proof Hwf as (Hlen16 & Hall & _ & He). pose proof (repr_branch _ _ _ _ _ Hr0) as Hb.
    destruct p as [|x p]; cbn [app tdelete].
    + apply yields_bind_ok.
      assert ((ncs ++ [onode ov]) !! nib 16 = Some (onode ov)) as Hn
        by (apply nodes_last; congruence).
      rewrite (index_lookup _ _ _ Hn). apply yields_bind_ok. rewrite Hf1.
      eapply yields_bind; [apply delete_onode|]. intros ? ->.
      destruct ov as [v|]; [|by apply yields_ret].
      apply (deleted_branch _ _ _ _ _ _ _ _ (true, nilNode)); [done|done|].
      cbn [fst snd]. unfold entries in *. split_and!; [|lia|done|].
      * by apply (branch_repr_value cs (Some v) None).
      * intros j c Hj. by eapply (wf_full_child cs).
    + apply path_ok_cons in Hp as [Hx Hp]. apply yields_bind_ok.
      destruct (lookup_lt_is_Some_2 cs (nib x)) as [oc Hi]; [rewrite Hlen16; by apply nib_lt|].
      destruct (nodes_lookup cs ncs _ _ ov Hlen Hi) as (nc & Hn & Hn').
      rewrite (index_lookup _ _ _ Hn'). apply yields_bind_ok.
      rewrite (list_alter_insert _ _ _ _ Hi). cbn [drop]. rewrite drop_0.
      pose proof (lookup_lt_Some _ _ _ Hi) as Hil.
      destruct oc as [c|].
      * destruct (wf_full_child _ _ _ _ Hwf Hi) as [Hwf' _].
        eapply yields_bind; [eapply (IH false c); try done; [by eapply Hcs|]|].
        { pose proof (need_le nc p). fuel. }
        intros r Hd. apply deleted_branch; [done|by rewrite length_insert|].
        destruct r as [[] nn]; cbn [fst snd]; unfold deleted in Hd; cbn [fst snd] in Hd.
        -- destruct Hd as [Hr _]. split_and!; [by apply branch_repr_insert| | |].
           ++ unfold entries in *. destruct (tdelete c p).
              ** rewrite occupied_insert_Some, Hi by done. lia.
              ** pose proof (occupied_insert_None cs (nib x)) as Ho. rewrite Hi in Ho. lia.
           ++ intros Hne. unfold entries in *. destruct (tdelete c p); [|done].
              rewrite occupied_insert_Some, Hi by done. lia.
           ++ intros j c'. destruct (decide (nib x = j)) as [<-|].
              ** rewrite list_lookup_insert_eq by done. intros [= E].
                 pose proof (wf_tdelete c p Hwf' Hp) as Hw. by rewrite E in Hw.
              ** rewrite list_lookup_insert_ne by done. intros Hj. by eapply (wf_full_child cs).
        -- destruct Hd as [-> _]. rewrite list_insert_id by done. by apply reduce_two.
      * rewrite (Hnil _ _ Hi Hn), Hf1. eapply yields_bind; [apply (delete_onode _ None)|].
        intros ? ->. apply yields_ret. split; [|done]. cbn [fst].
        rewrite list_insert_id by done. by apply reduce_two.
  - eapply yields_bind; [by eapply resolve_repr|]. intros n [Hr Hres].
    eapply yields_bind; [eapply IH; try done; rewrite need_resolved by done; fuel|].
    intros [[] n'] Hd; apply yields_ret; [done|]. split; [apply Hd|done].
Qed.
End refine.
