(* ===== verification/Hasher.v ===== *)
(** * Hashing: trie_by_cid/trie/hasher.go

    Collapsing a trie to its root hash, caching the hashes computed on the way.
    The goroutines that a parallel hasher starts for the children of a branch
    each write their own slot; a schedule is the order in which they do it. *)
From S2P Require Import Prelude Errors Geth Encoding Node Mpt MptFacts Tracer Reader Trie Repr Refine.
Local Open Scope nat_scope.

(** A hasher: sequential, or parallel with a schedule of the 16 goroutines. *)
Definition hasher : Type := option (list nat).
Definition newHasher (parallel : bool) (schedule : list nat) : hasher :=
  if parallel then Some schedule else None.

Section hasher.
Context `{RlpOps, CryptoOps}.

Definition hashData (data : bytes) : node := hashNode (keccak256 data).

Definition shortnodeToHash (n : node) (force : bool) : node :=
  let enc := encode n in
  if bool_decide (length enc < 32) && negb force then n else hashData enc.
Definition fullnodeToHash (n : node) (force : bool) : node :=
  let enc := encode n in
  if bool_decide (length enc < 32) && negb force then n else hashData enc.

(** [cached.flags.hash = hn], or nil when the node was too small to be hashed. *)
Definition set_hash (hashed : node) (fl : nodeFlag) : nodeFlag :=
  match hashed with
  | hashNode h => NodeFlag (Some h) (flag_dirty fl)
  | _ => NodeFlag None (flag_dirty fl)
  end.

(** The collapsed and the cached child; the [hash] method is an argument. *)
Definition hashShortNodeChildren (hash : node → bool → result (node * node))
    (Key : bytes) (Val : node) (flags : nodeFlag) : result (node * node) :=
  key ← hexToCompact Key;
  '(hv, cv) ← match Val with
              | fullNode _ _ | shortNode _ _ _ => hash Val false
              | _ => Ok (Val, Val)
              end;
  Ok (shortNode key hv flags, shortNode Key cv flags).

(** One goroutine, or one round of the loop: slot [i] of both copies. *)
Definition hashSlot (results : list (option (result (node * node)))) (i : nat)
    (s : list node * list node) : result (list node * list node) :=
  r ← index results i;
  match r with
  | Some r =>
      '(h, c) ← r;
      collapsed ← assign s.1 i h;
      cached ← assign s.2 i c;
      Ok (collapsed, cached)
  | None =>
      collapsed ← assign s.1 i nilValueNode;
      Ok (collapsed, s.2)
  end.

Definition hashFullNodeChildren (h : hasher) (hash : node → bool → result (node * node))
    (Children : list node) (flags : nodeFlag) : result (node * node) :=
  let results := map (λ c, match c with nilNode => None | _ => Some (hash c false) end) Children in
  '(collapsed, cached) ← foldM (hashSlot results) (default (seq 0 16) h) (Children, Children);
  Ok (fullNode collapsed flags, fullNode cached flags).

Fixpoint hash (h : hasher) (n : node) (force : bool) : result (node * node) :=
  '(cached_hash, _) ← cache n;
  match cached_hash with
  | Some hv => Ok (hashNode hv, n)
  | None =>
      match n with
      | shortNode k v fl =>
          '(collapsed, cached) ← hashShortNodeChildren (hash h) k v fl;
          let hashed := shortnodeToHash collapsed force in
          match cached with
          | shortNode k v fl => Ok (hashed, shortNode k v (set_hash hashed fl))
          | _ => Ok (hashed, cached)
          end
      | fullNode cs fl =>
          '(collapsed, cached) ← hashFullNodeChildren h (hash None) cs fl;
          let hashed := fullnodeToHash collapsed force in
          match cached with
          | fullNode cs fl => Ok (hashed, fullNode cs (set_hash hashed fl))
          | _ => Ok (hashed, cached)
          end
      | _ => Ok (n, n)
      end
  end.

Definition proofHash (h : hasher) (original : node) : result (node * node) :=
  match original with
  | shortNode k v fl =>
      '(sn, _) ← hashShortNodeChildren (hash h) k v fl;
      Ok (sn, shortnodeToHash sn false)
  | fullNode cs fl =>
      '(fn, _) ← hashFullNodeChildren h (hash None) cs fl;
      Ok (fn, fullnodeToHash fn false)
  | n => Ok (n, n)
  end.

(** ** trie.go: [hashRoot] and [Hash] *)

Definition hashRoot (schedule : list nat) (t : Trie) : Trie * result (node * node) :=
  match t_root t with
  | nilNode => (t, Ok (hashNode EmptyRootHash, nilNode))
  | root =>
      let h := newHasher (bool_decide (100 ≤ t_unhashed t)%Z) schedule in
      (set_unhashed 0 t, hash h root true)
  end.

Definition Trie_Hash (schedule : list nat) : stateM Trie error bytes := λ t,
  match hashRoot schedule t with
  | (t, Ok (hashed, cached)) =>
      (set_root cached t,
       match hashed with
       | hashNode h => Ok (BytesToHash h)
       | _ => Panic "interface conversion"
       end)
  | (t, Err e) => (t, Err e)
  | (t, Panic w) => (t, Panic w)
  | (t, OutOfFuel) => (t, OutOfFuel)
  end.
End hasher.

(** ** Parallel hashing does not depend on the schedule *)

Section parallel.
Context `{RlpOps, CryptoOps}.

(** What slot [i] is set to, and the effect of setting it. *)
Definition slot_value (results : list (option (result (node * node)))) (i : nat)
    : option (node * option node) :=
  match results !! i with
  | Some None => Some (nilValueNode, None)
  | Some (Some (Ok (h, c))) => Some (h, Some c)
  | _ => None
  end.
Definition write_slot (i : nat) (v : node * option node) (s : list node * list node)
    : list node * list node :=
  (<[i := v.1]> s.1, match v.2 with Some c => <[i := c]> s.2 | None => s.2 end).
Definition slot_fits (i : nat) (v : node * option node) (s : list node * list node) : Prop :=
  i < length s.1 ∧ (is_Some v.2 → i < length s.2).

Lemma hashSlot_ok results i s v :
  slot_value results i = Some v → slot_fits i v s → hashSlot results i s = Ok (write_slot i v s).
Proof.
  unfold slot_value, hashSlot, index, slot_fits, write_slot. destruct s as [col cac].
  destruct (results !! i) as [[[[h c]| | |]|]|]; try done; intros [= <-] [H1 H2];
    simpl in *; rewrite (assign_ok col) by done; simpl; [|done].
  by rewrite assign_ok by (apply H2; eauto).
Qed.

Lemma hashSlot_inv results i s s' :
  hashSlot results i s = Ok s' →
  ∃ v, slot_value results i = Some v ∧ slot_fits i v s ∧ s' = write_slot i v s.
Proof.
  unfold slot_value, hashSlot, index, slot_fits, write_slot, assign. destruct s as [col cac].
  destruct (results !! i) as [[[[h c]| | |]|]|]; try done; simpl;
    repeat (case_bool_decide; simpl; try done).
  - intros [= <-]. by exists (h, Some c).
  - intros [= <-]. exists (nilValueNode, None). split_and!; try done. by intros [].
Qed.

(** Goroutines of different slots commute. *)
Lemma hashSlot_comm results i j s0 s1 s2 :
  i ≠ j → hashSlot results i s0 = Ok s1 → hashSlot results j s1 = Ok s2 →
  ∃ s1', hashSlot results j s0 = Ok s1' ∧ hashSlot results i s1' = Ok s2.
Proof.
  intros Hij (v & Hv & [F1 F2] & ->)%hashSlot_inv (w & Hw & [G1 G2] & ->)%hashSlot_inv.
  exists (write_slot j w s0). destruct s0 as [col cac], v as [h oc], w as [h' oc'].
  unfold write_slot, slot_fits in *. simpl in *. rewrite length_insert in *.
  split.
  - refine (hashSlot_ok results j (col, cac) (h', oc') Hw _). split; [done|]. simpl. destruct oc; rewrite ?length_insert in *; done.
  - rewrite (hashSlot_ok results i _ (h, oc) Hv).
    + unfold write_slot. simpl. rewrite list_insert_insert_ne by done.
      destruct oc, oc'; try done. by rewrite (list_insert_insert_ne cac) by done.
    + split; simpl; [by rewrite length_insert|]. destruct oc'; rewrite ?length_insert; done.
Qed.

Lemma hashFullNodeChildren_schedule hash schedule cs fl r :
  schedule ≡ₚ seq 0 16 →
  hashFullNodeChildren (Some schedule) hash cs fl = Ok r ↔
  hashFullNodeChildren None hash cs fl = Ok r.
Proof.
  intros Hp. unfold hashFullNodeChildren. cbn [from_option id].
  set (f := hashSlot _).
  assert (∀ l l', l ≡ₚ l' → ∀ s', foldM f l (cs, cs) = Ok s' → foldM f l' (cs, cs) = Ok s') as Hperm.
  { intros l l' Hl s'. apply foldM_perm; [|apply _|done]. intros i j s0 s1 s2. apply hashSlot_comm. }
  apply bind_Ok_ext. intros s. split; apply Hperm; [done|by symmetry].
Qed.

Lemma hash_schedule schedule n force r :
  schedule ≡ₚ seq 0 16 → hash (Some schedule) n force = Ok r ↔ hash None n force = Ok r.
Proof.
  intros Hp. revert force r. induction n as [| cs fl | k v IH fl | | | | |]; intros force r; try done.
  - cbn [hash]. destruct (cache _) as [[[hv|] d]| | |]; try done. cbn.
    apply bind_Ok_ext. intros a. by apply hashFullNodeChildren_schedule.
  - cbn [hash]. destruct (cache _) as [[[hv|] d]| | |]; try done. cbn.
    apply bind_Ok_ext. intros a. unfold hashShortNodeChildren.
    destruct (hexToCompact k); try done. cbn.
    apply bind_Ok_ext. intros [hv cv]. destruct v; try done; apply IH.
Qed.

(** C27: hashing a node gives the same hash, collapsed node and cached node
    sequentially and in parallel, whatever order the sixteen goroutines of each
    branch happen to write their slots in: they share two slices, but not a slot. *)
Theorem parallel_hash_deterministic s1 s2 n force r :
  s1 ≡ₚ seq 0 16 → s2 ≡ₚ seq 0 16 →
  (hash (newHasher true s1) n force = Ok r ↔ hash (newHasher true s2) n force = Ok r)
  ∧ (hash (newHasher true s1) n force = Ok r ↔ hash (newHasher false []) n force = Ok r).
Proof.
  intros H1 H2. unfold newHasher.
  split; rewrite (hash_schedule s1) by done; [by rewrite hash_schedule|done].
Qed.
End parallel.


(** ** The hasher computes the root hash *)

Section correct.
Context `{RlpOps, CryptoOps, !RlpLaws, !CryptoLaws}.
Context (full : bool) (rd : trieReader).
Abbreviation repr := (repr full rd).
Abbreviation flag_ok := (flag_ok full rd).

(** The loop over the slots of a branch. *)
Lemma foldM_slots results vals : ∀ dc dk todo rest,
  length dc = length dk → length vals = length todo →
  (∀ i v, vals !! i = Some v → slot_value results (length dc + i) = Some v) →
  foldM (hashSlot results) (seq (length dc) (length vals)) (dc ++ todo ++ rest, dk ++ todo ++ rest)
  = Ok (dc ++ vals.*1 ++ rest, dk ++ zip_with (λ v n, default n v.2) vals todo ++ rest).
Proof.
  induction vals as [|v vals IH]; intros dc dk [|n todo] rest Hd Hl Hv; try done; simpl.
  simpl in Hl. pose proof (Hv 0 v eq_refl) as Hv0. rewrite Nat.add_0_r in Hv0.
  rewrite (hashSlot_ok _ _ _ v Hv0) by
    (split; simpl; rewrite !length_app; simpl; [lia|intros _; lia]).
  simpl. unfold write_slot. cbn [fst snd]. rewrite list_insert_middle by done.
  replace (match v.2 with Some c => _ | None => _ end)
    with (dk ++ default n v.2 :: todo ++ rest)
    by (destruct v.2; [by rewrite list_insert_middle by done|done]).
  specialize (IH (dc ++ [v.1]) (dk ++ [default n v.2]) todo rest).
  rewrite !length_app, <- !app_assoc, Nat.add_1_r in IH. apply IH; [simpl; lia|lia|].
  intros i w Hi. specialize (Hv (S i) w Hi). by rewrite <- Nat.add_succ_comm in Hv.
Qed.

(** Hashing a node that has no cached hash yet. *)
Definition hash_result (root : bool) (t : tree) (hashed cached : node) : Prop :=
  repr true root t cached
  ∧ encode hashed = (if root then rlp_WriteBytes (keccak256 (tenc t)) else node_ref (tenc t))
  ∧ (root = true ∨ by_hash t → hashed = hashNode (keccak256 (tenc t))).

Definition to_hash (n : node) (force : bool) : node :=
  let enc := encode n in
  if bool_decide (length enc < 32) && negb force then n else hashData enc.

Lemma to_hash_ok hs root t collapsed fl :
  encode collapsed = tenc t → resolved collapsed → flag_hash fl = None → flag_ok hs root t fl →
  let hashed := to_hash collapsed root in
  encode hashed = (if root then rlp_WriteBytes (keccak256 (tenc t)) else node_ref (tenc t))
  ∧ (root = true ∨ by_hash t → hashed = hashNode (keccak256 (tenc t)))
  ∧ flag_ok true root t (set_hash hashed fl).
Proof.
  intros He Hres Hfh Hfl. unfold to_hash, Repr.flag_ok, node_ref, by_hash, hashData in *.
  rewrite He, Hfh in *. case_bool_decide as Hl; destruct root; cbn [andb negb].
  - split_and!; [done|done|]. simpl. split_and!; auto. intros E. by destruct Hfl; auto.
  - split_and!; [done|intros [|]; [done|lia]|]. destruct collapsed; simpl; try done; lia.
  - split_and!; [done|done|]. simpl. split_and!; auto. intros E. by destruct Hfl; auto.
  - split_and!; [done|done|]. simpl. split_and!; auto; [right; lia|].
    intros E. destruct Hfl; [auto|lia].
Qed.

Lemma flag_hashed hs root t fl h :
  flag_hash fl = Some h → flag_ok hs root t fl →
  flag_ok true root t fl ∧ h = keccak256 (tenc t) ∧ (root = true ∨ by_hash t).
Proof. intros E Hf. unfold Repr.flag_ok in *. rewrite E in *. naive_solver. Qed.

(** The children of a branch, collapsed and cached. *)
Lemma hash_children cs ov ncs (h : node → bool → result (node * node)) fl :
  wf (TFull cs ov) → length ncs = length cs →
  (∀ i c nc, cs !! i = Some (Some c) → ncs !! i = Some nc →
     nc ≠ nilNode ∧ ∃ hd cd, h nc false = Ok (hd, cd) ∧ hash_result false c hd cd) →
  (∀ i nc, cs !! i = Some None → ncs !! i = Some nc → nc = nilNode) →
  ∃ col cac,
    hashFullNodeChildren None h (ncs ++ [onode ov]) fl
      = Ok (fullNode (col ++ [onode ov]) fl, fullNode (cac ++ [onode ov]) fl)
    ∧ map encode col = map slot_ref cs ∧ length cac = length cs
    ∧ (∀ i c nc, cs !! i = Some (Some c) → cac !! i = Some nc → repr true false c nc)
    ∧ (∀ i nc, cs !! i = Some None → cac !! i = Some nc → nc = nilNode).
Proof.
  intros Hwf Hlen Hc Hn. pose proof Hwf as (H16 & _).
  set (results := map (λ c, match c with nilNode => None | _ => Some (h c false) end) (ncs ++ [onode ov])).
  destruct (list_choose (λ i v, ∃ oc, cs !! i = Some oc ∧ slot_value results i = Some v
      ∧ encode v.1 = slot_ref oc
      ∧ match oc with
        | Some c => ∃ cn, v.2 = Some cn ∧ repr true false c cn
        | None => v.2 = None
        end) 16) as (vals & Hlv & Hvals).
  { intros i Hi. destruct (lookup_lt_is_Some_2 cs i) as [oc Hoc]; [lia|].
    destruct (lookup_lt_is_Some_2 ncs i) as [nc Hnc]; [lia|].
    assert (results !! i = Some (match nc with nilNode => None | _ => Some (h nc false) end)) as Hr.
    { unfold results. rewrite list_lookup_fmap, lookup_app_l, Hnc by lia. done. }
    unfold slot_value. rewrite Hr. destruct oc as [c|].
    - destruct (Hc i c nc Hoc Hnc) as (Hnn & hd & cd & Hh & Hrc & He & _).
      exists (hd, Some cd), (Some c). rewrite Hh. split; [done|]. split; [by destruct nc|].
      split; [done|]. by exists cd.
    - rewrite (Hn i nc Hoc Hnc). exists (nilValueNode, None), None. done. }
  exists (vals.*1), (zip_with (λ v n, default n v.2) vals ncs).
  assert (Hvl : length vals = length ncs) by lia.
  split; [|split; [|split; [|split]]].
  - unfold hashFullNodeChildren. fold results. cbn [from_option id].
    pose proof (foldM_slots results vals [] [] ncs [onode ov] eq_refl Hvl) as Hf.
    rewrite Hlv in Hf. cbn [length app] in Hf. rewrite Hf; [done|].
    intros i v Hi. by destruct (Hvals i v Hi) as (oc & _ & Hs & _).
  - apply list_eq_same_length with 16; rewrite ?length_map, ?length_fmap; [done..|].
    intros i x y Hi Hx Hy. rewrite <- list_fmap_compose, list_lookup_fmap in Hx.
    rewrite list_lookup_fmap in Hy. destruct (vals !! i) as [v|] eqn:Ev; [|done].
    destruct (Hvals i v Ev) as (oc & Hoc & _ & He & _). rewrite Hoc in Hy.
    simpl in *. by simplify_eq.
  - rewrite length_zip_with. lia.
  - intros i c nc Hi Hz. apply lookup_zip_with_Some in Hz as (v & n & -> & Hv & Hnc).
    destruct (Hvals i v Hv) as (oc & Hoc & _ & _ & Hm). simplify_eq.
    destruct Hm as (cn & -> & Hr). done.
  - intros i nc Hi Hz. apply lookup_zip_with_Some in Hz as (v & n & -> & Hv & Hnc).
    destruct (Hvals i v Hv) as (oc & Hoc & _ & _ & Hm). simplify_eq.
    rewrite Hm. simpl. by eapply Hn.
Qed.

Lemma encode_full cs ov col fl :
  map encode col = map slot_ref cs → encode (fullNode (col ++ [onode ov]) fl) = tenc (TFull cs ov).
Proof.
  intros E. cbn [encode tenc]. rewrite map_app, concat_app, E. cbn [map concat].
  rewrite app_nil_r. do 2 f_equal. by destruct ov.
Qed.

(** A reference by hash. *)
Lemma hash_node_result (root : bool) t n :
  root = true ∨ by_hash t → repr true root t n → hash_result root t (hashNode (keccak256 (tenc t))) n.
Proof.
  intros Hr Hn. split; [done|split; [|done]]. cbn [encode]. destruct root; [done|].
  unfold node_ref, by_hash in *. rewrite bool_decide_false; [done|]. destruct Hr; [done|lia].
Qed.

Lemma cached_result hs root t n fl h :
  flag_hash fl = Some h → flag_ok hs root t fl → repr true root t n →
  hash_result root t (hashNode h) n.
Proof.
  intros E Hf Hn. destruct (flag_hashed _ _ _ _ _ E Hf) as (_ & -> & Hr). by apply hash_node_result.
Qed.

(** The hash of a node from its collapsed form. *)
Lemma to_hash_result hs root t collapsed cached fl :
  encode collapsed = tenc t → resolved collapsed → flag_hash fl = None → flag_ok hs root t fl →
  (flag_ok true root t (set_hash (to_hash collapsed root) fl) → repr true root t cached) →
  hash_result root t (to_hash collapsed root) cached.
Proof.
  intros He Hres Hfh Hfl Hc. destruct (to_hash_ok _ _ _ _ _ He Hres Hfh Hfl) as (HA & HB & HC).
  split; auto.
Qed.

Lemma has_hash_Some fl h : flag_hash fl = Some h → has_hash fl = true.
Proof. unfold has_hash. by intros ->. Qed.

(** Collapsing the children of an extension. *)
Lemma hash_ext_child hs c nc k fl :
  path_ok k → wf c → is_full c → repr hs false c nc →
  (∃ hd cd, hash None nc false = Ok (hd, cd) ∧ hash_result false c hd cd) →
  ∃ hd cd, hashShortNodeChildren (hash None) k nc fl
             = Ok (shortNode (compact_of k) hd fl, shortNode k cd fl)
    ∧ encode hd = node_ref (tenc c) ∧ repr true false c cd.
Proof.
  intros Hk Hwf Hf Hr (hd & cd & Hh & Hc & He & _). unfold hashShortNodeChildren.
  rewrite compact_of_ok by (by constructor). mred.
  destruct nc; try (by inversion Hr); try (rewrite Hh; eauto; fail).
  injection Hh as <- <-. eauto.
Qed.

Lemma hash_spec hs root t n :
  repr hs root t n → wf t →
  ∃ hashed cached, hash None n root = Ok (hashed, cached) ∧ hash_result root t hashed cached.
Proof.
  induction 1 as [hs root k v fl Hfl|hs root k c nc fl Hfl Hc IH|hs root cs ov ncs fl Hfl Hlen Hcs IH Hnil
                 |hs root t Hr Ha Hs]; intros Hwf; cbn [hash].
  - cbn [cache]. destruct (flag_hash fl) as [h|] eqn:Efl; mred.
    + eexists _, _. split; [done|]. eapply cached_result; [done..|]. constructor.
      by eapply flag_hashed.
    + destruct Hwf as [Hk Hv]. unfold hashShortNodeChildren.
      rewrite compact_of_ok by (by constructor). mred. eexists _, _. split; [done|].
      eapply (to_hash_result _ _ _ (shortNode (compact_of (k ++ [16%Z])) (valueNode v) fl)); try done.
      intros. by constructor.
  - destruct Hwf as (Hk & Hkne & Hf & Hwf).
    cbn [cache]. destruct (flag_hash fl) as [h|] eqn:Efl; mred.
    + eexists _, _. split; [done|]. eapply cached_result; [done..|]. constructor.
      * by eapply flag_hashed.
      * rewrite (has_hash_Some _ _ Efl) in *. by destruct hs.
    + destruct (hash_ext_child _ _ _ k fl Hk Hwf Hf Hc (IH Hwf)) as (hd & cd & Hh & He & Hr).
      rewrite Hh. mred. eexists _, _. split; [done|].
      eapply (to_hash_result _ _ _ (shortNode (compact_of k) hd fl)); try done.
      * cbn [encode tenc]. by rewrite He.
      * intros. by constructor.
  - cbn [cache]. destruct (flag_hash fl) as [h|] eqn:Efl; mred.
    + eexists _, _. split; [done|]. eapply cached_result; [done..|]. constructor; try done.
      * by eapply flag_hashed.
      * rewrite (has_hash_Some _ _ Efl) in *. by destruct hs.
    + destruct (hash_children cs ov ncs (hash None) fl) as (col & cac & Hh & He & Hlc & Hrc & Hnc); try done.
      { intros i c nc Hi Hn. split; [by eapply (repr_not_nil full rd), repr_weaken, Hcs|].
        apply (IH i c nc Hi Hn). by eapply (wf_full_child cs ov). }
      rewrite Hh. mred. eexists _, _. split; [done|].
      eapply (to_hash_result _ _ _ (fullNode (col ++ [onode ov]) fl)); try done.
      * by apply encode_full.
      * intros. by constructor.
  - eexists _, _. split; [done|]. apply hash_node_result; [done|]. by constructor.
Qed.
End correct.

(** ** Two schedules on a branch *)

Module Witness.
Import Standin.

Definition branch : node :=
  fullNode (shortNode [1; 16]%Z (valueNode [1]%Z) (NodeFlag None true)
            :: shortNode [2; 16]%Z (valueNode [2]%Z) (NodeFlag None true)
            :: replicate 15 nilNode) (NodeFlag None true).

Lemma parallel_hash_deterministic_witness :
  ∃ r, hash (newHasher true (rev (seq 0 16))) branch true = Ok r
       ∧ hash (newHasher true (seq 0 16)) branch true = Ok r.
Proof.
  destruct (hash (newHasher true (seq 0 16)) branch true) as [r| | |] eqn:E; try by vm_compute in E.
  exists r. split; [|done]. revert E.
  eapply proj1, (parallel_hash_deterministic (seq 0 16) (rev (seq 0 16)) branch true r);
    [done|symmetry; apply Permutation_rev].
Defined.
End Witness.
