(* ===== verification/TrieSpec.v ===== *)
(** * The trie as a finite map

    The contract of trie_by_cid/trie/trie.go, seen from its callers: a trie
    holds a finite map from keys to values, its operations are the operations
    of the map, and its hash is a function of the map alone. *)
From S2P Require Import Prelude Errors Geth Encoding Node Mpt MptFacts Tracer Reader Trie Repr Refine Hasher.
Local Open Scope nat_scope.

(** ** The map of a tree *)

(** The tree holds exactly the entries of [m], at the nibbles of their keys. *)
Definition models (ot : option tree) (m : gmap bytes bytes) : Prop :=
  (∀ k, Forall is_byte k → tget_opt ot (nibbles_of k) = m !! k)
  ∧ (∀ q, path_ok q → is_Some (tget_opt ot q) → ∃ k, Forall is_byte k ∧ q = nibbles_of k)
  ∧ (∀ k, is_Some (m !! k) → Forall is_byte k).

Lemma nibbles_of_inj k k' : Forall is_byte k → Forall is_byte k' → nibbles_of k = nibbles_of k' → k = k'.
Proof.
  intros Hk Hk' E. apply keybytesToHex_inj; [done|done|]. by rewrite !keybytesToHex_nibbles, E.
Qed.

Lemma models_empty : models None ∅.
Proof.
  split; [|split].
  - done.
  - by intros q _ [].
  - intros k [v Hk]. by rewrite lookup_empty in Hk.
Qed.

(** An update of the tree at a key is the update of the map. *)
Lemma models_update ot ot' m k ov :
  models ot m → Forall is_byte k →
  (∀ q, path_ok q → tget_opt ot' q = update (tget_opt ot) (nibbles_of k) ov q) →
  models ot' (partial_alter (λ _, ov) k m).
Proof.
  intros (Hm & Hp & Hb) Hk Hu. unfold update in Hu. split; [|split].
  - intros k' Hk'. rewrite Hu by auto with s2r. case_bool_decide as E.
    + apply nibbles_of_inj in E as ->; [|done..]. by rewrite lookup_partial_alter_eq.
    + rewrite lookup_partial_alter_ne by congruence. auto.
  - intros q Hq. rewrite Hu by done. case_bool_decide as E; [|auto].
    subst. eauto.
  - intros k'. destruct (decide (k = k')) as [->|]; [done|].
    rewrite lookup_partial_alter_ne by done. auto.
Qed.

(** A canonical tree is determined by its map. *)
Lemma models_unique ot ot' m : wf_opt ot → wf_opt ot' → models ot m → models ot' m → ot = ot'.
Proof.
  intros Hw Hw' (Hm & Hp & _) (Hm' & Hp' & _). apply canonical_opt; [done..|]. intros q Hq.
  destruct (tget_opt ot q) as [v|] eqn:E.
  - destruct (Hp q Hq) as (k & Hk & ->); [by eexists|]. by rewrite Hm', <- Hm, E.
  - destruct (tget_opt ot' q) as [v|] eqn:E'; [|done].
    destruct (Hp' q Hq) as (k & Hk & ->); [by eexists|]. by rewrite Hm, <- Hm', E' in E.
Qed.

Lemma models_insert ot m k v :
  models ot m → wf_opt ot → Forall is_byte k → v ≠ [] →
  models (Some (tinsert_opt ot (nibbles_of k) v)) (<[k := v]> m) ∧
  wf (tinsert_opt ot (nibbles_of k) v).
Proof.
  intros Hm Hw Hk Hv. split.
  - apply (models_update ot _ m k (Some v)); [done..|]. intros q Hq.
    destruct ot as [t|]; cbn [tget_opt tinsert_opt].
    + apply tget_tinsert; auto with s2r.
    + unfold update. by rewrite tget_leaf.
  - destruct ot as [t|]; simpl; [apply wf_tinsert|split]; auto with s2r.
Qed.

Lemma models_delete ot m k :
  models ot m → wf_opt ot → Forall is_byte k →
  models (tdelete_opt ot (nibbles_of k)) (base.delete k m) ∧ wf_opt (tdelete_opt ot (nibbles_of k)).
Proof.
  intros Hm Hw Hk. split.
  - apply (models_update ot _ m k None); [done..|]. intros q Hq.
    destruct ot as [t|]; cbn [tget_opt tdelete_opt].
    + apply tget_tdelete; auto with s2r.
    + unfold update. by case_bool_decide.
  - destruct ot as [t|]; simpl; [apply wf_tdelete|]; auto with s2r.
Qed.

(** ** The tree and the root hash of a map *)

Definition tree_of (m : gmap bytes bytes) : option tree :=
  map_fold (λ k v ot, Some (tinsert_opt ot (nibbles_of k) v)) None m.

(** Maps a trie can hold: keys are byte strings, no value is empty. *)
Definition map_ok (m : gmap bytes bytes) : Prop := map_Forall (λ k v, Forall is_byte k ∧ v ≠ []) m.

Lemma tree_of_models m : map_ok m → wf_opt (tree_of m) ∧ models (tree_of m) m.
Proof.
  unfold tree_of. revert m.
  apply (map_fold_weak_ind (λ ot m, map_ok m → wf_opt ot ∧ models ot m)).
  - intros _. split; [done|apply models_empty].
  - intros k v m ot Hk IH Hok. apply map_Forall_insert in Hok as [[Hb Hv] Hok]; [|done].
    destruct (IH Hok) as [Hw Hm]. destruct (models_insert ot m k v) as [H1 H2]; try done.
Qed.

Definition map_root `{RlpOps, CryptoOps} (m : gmap bytes bytes) : bytes := root_hash (tree_of m).

(** ** A trie object holds a map *)

Section holds.
Context `{RlpOps, CryptoOps}.

Definition represents (full hashed : bool) (ot : option tree) (T : Trie) : Prop :=
  repr_opt full (t_reader T) hashed true ot (t_root T) ∧ wf_opt ot.

Definition holds_map (full hashed : bool) (m : gmap bytes bytes) (T : Trie) : Prop :=
  ∃ ot, represents full hashed ot T ∧ models ot m.

Context `{!RlpLaws, !CryptoLaws}.

Lemma holds_map_weaken full hs m T : holds_map full hs m T → holds_map full false m T.
Proof.
  intros (ot & [Hr Hw] & Hm). exists ot. split; [split|]; try done.
  destruct ot; [|done]. by eapply repr_weaken.
Qed.

Lemma holds_map_ok full hs m T : holds_map full hs m T → map_ok m.
Proof.
  intros (ot & [_ Hw] & Hm & Hp & Hb) k v Hk.
  assert (Forall is_byte k) as Hkb by (apply Hb; by eexists). split; [done|]. intros ->.
  rewrite <- Hm in Hk by done. destruct ot as [t|]; [|done].
  by eapply (wf_no_empty t), Hk.
Qed.

(** The tree of a trie that holds [m] is the tree of [m]. *)
Lemma holds_map_tree full hs m T :
  holds_map full hs m T → represents full hs (tree_of m) T.
Proof.
  intros Hh. destruct (tree_of_models m) as [Hw Hm]; [by eapply holds_map_ok|].
  destruct Hh as (ot & [Hr Hw'] & Hm'). by rewrite (models_unique (tree_of m) ot m).
Qed.

Lemma fuel_for_S k : fuel_for k = S (S (2 * length k)).
Proof. unfold fuel_for. lia. Qed.

(** Fuel is enough for any key. *)
Lemma need_fuel_for n key : need n (nibbles_of key) ≤ fuel_for (keybytesToHex key).
Proof.
  rewrite keybytesToHex_nibbles. unfold need, fuel_for. rewrite length_app. simpl. destruct n; lia.
Qed.

(** The outcome of an operation that may meet a missing node. *)
Definition outcome_or_missing {A} (full : bool) (T T' : Trie) (r : result A) (ok : A → Prop) : Prop :=
  match r with
  | Ok a => ok a
  | Err e => full = false ∧ missing e ∧ t_root T' = t_root T ∧ t_reader T' = t_reader T
  | Panic _ | OutOfFuel => False
  end.

Lemma TryGet_lemma full hs m T key :
  holds_map full hs m T → Forall is_byte key →
  let '(T', r) := TryGet key T in
  outcome_or_missing full T T' r (λ v, v = m !! key ∧ holds_map full hs m T').
Proof.
  intros (ot & [Hr Hw] & Hm) Hk. unfold TryGet.
  set (k := keybytesToHex key).
  assert (Hy : yields full (tryGet (t_reader T) (fuel_for k) (t_root T) k 0)
    (λ '(v, n', dr), v = tget_opt ot (nibbles_of key)
       ∧ repr_opt full (t_reader T) hs true ot n' ∧ (dr = false → n' = t_root T))).
  { destruct ot as [t|]; cbn [repr_opt tget_opt wf_opt] in *.
    - apply tryGet_spec; auto with s2r; [|apply need_fuel_for].
      unfold k. by rewrite keybytesToHex_nibbles.
    - rewrite Hr, fuel_for_S. by apply yields_ret. }
  specialize (Hy (t_tracer T)).
  destruct (tryGet _ _ _ _ _ _) as [tr [[[v n'] dr]|e|w|]]; simpl in *; try done.
  - destruct Hy as (-> & Hr' & Hdr). split; [by apply Hm|].
    exists ot. split; [|done]. split; [|done]. destruct dr; [done|]. by rewrite (Hdr eq_refl) in Hr'.
  - by destruct Hy.
Qed.

(** A recursive update that computes the tree [ot'] of [m']. *)
Lemma update_root_lemma full T ot' m' (run : stateM tracer error (bool * node)) :
  yields full run (λ '(d, n'), repr_opt full (t_reader T) false true ot' n') →
  wf_opt ot' → models ot' m' →
  let '(T', r) := update_root run T in
  outcome_or_missing full T T' r (λ _, holds_map full false m' T').
Proof.
  intros Hy Hw Hm. unfold update_root. specialize (Hy (t_tracer T)).
  destruct (run _) as [tr [[d n']|e|w|]]; simpl in *; try done.
  - by exists ot'.
  - by destruct Hy.
Qed.

Lemma insert_root_lemma full T ot m key v :
  represents full false ot T → models ot m → Forall is_byte key → v ≠ [] →
  let k := keybytesToHex key in
  let '(T', r) := update_root (insert (t_reader T) (fuel_for k) (t_root T) [] k (valueNode v)) T in
  outcome_or_missing full T T' r (λ _, holds_map full false (<[key := v]> m) T').
Proof.
  intros [Hr Hw] Hm Hk Hv k. destruct (models_insert ot m key v) as [Hm' Hw']; try done.
  apply (update_root_lemma full T (Some (tinsert_opt ot (nibbles_of key) v))); [|done..].
  unfold k at 2. rewrite keybytesToHex_nibbles. destruct ot as [t|]; cbn [repr_opt tinsert_opt] in *.
  - eapply yields_mono; [apply (insert_spec full (t_reader T) _ true t); auto with s2r; apply need_fuel_for|].
    intros [d n'] [? _]. done.
  - rewrite Hr, fuel_for_S.
    eapply yields_mono; [apply insert_nil|]. intros ? ->. apply repr_tail_leaf.
Qed.

Lemma delete_root_lemma full T ot m key :
  represents full false ot T → models ot m → Forall is_byte key →
  let k := keybytesToHex key in
  let '(T', r) := update_root (delete (t_reader T) (fuel_for k) (t_root T) [] k) T in
  outcome_or_missing full T T' r (λ _, holds_map full false (base.delete key m) T').
Proof.
  intros [Hr Hw] Hm Hk k. destruct (models_delete ot m key) as [Hm' Hw']; try done.
  apply (update_root_lemma full T (tdelete_opt ot (nibbles_of key))); [|done..].
  unfold k at 2. rewrite keybytesToHex_nibbles. destruct ot as [t|]; cbn [repr_opt tdelete_opt] in *.
  - eapply yields_mono; [apply (delete_spec full (t_reader T) _ true t); auto with s2r; apply need_fuel_for|].
    intros [d n'] Hd. unfold deleted in Hd. destruct d; simpl in *; [by destruct Hd|].
    destruct Hd as [-> Hd]. done.
  - rewrite Hr, fuel_for_S. by apply yields_ret.
Qed.

Lemma Trie_Hash_lemma full hs m T schedule :
  schedule ≡ₚ seq 0 16 → holds_map full hs m T →
  (Trie_Hash schedule T).2 = Ok (map_root m) ∧ holds_map full true m (Trie_Hash schedule T).1
  ∧ t_reader (Trie_Hash schedule T).1 = t_reader T.
Proof.
  intros Hp Hh. pose proof (holds_map_tree _ _ _ _ Hh) as [Hr Hw].
  destruct (tree_of_models m) as [_ Hm]; [by eapply holds_map_ok|].
  unfold Trie_Hash, hashRoot, map_root. destruct (tree_of m) as [t|] eqn:Et; cbn [repr_opt] in Hr.
  - destruct (hash_spec full (t_reader T) hs true t (t_root T) Hr Hw)
      as (hashed & cached & Hhash & Hrc & _ & Hhd).
    rewrite (Hhd (or_introl eq_refl)) in Hhash.
    assert (Hany : hash (newHasher (bool_decide (100 ≤ t_unhashed T)%Z) schedule) (t_root T) true
              = Ok (hashNode (keccak256 (tenc t)), cached)).
    { case_bool_decide; [|done]. by apply hash_schedule. }
    assert (t_root T ≠ nilNode) as Hnn by (by eapply repr_not_nil, repr_weaken).
    destruct (t_root T) eqn:En; try done; rewrite Hany; simpl;
      (rewrite BytesToHash_id by apply keccak256_length; split; [done|];
       split; [by exists (Some t)|done]).
  - rewrite Hr. simpl. rewrite BytesToHash_id by apply EmptyRootHash_length.
    split; [done|]. split; [by exists None|done].
Qed.

Lemma TryUpdate_lemma full m T key value :
  holds_map full false m T → Forall is_byte key →
  let '(T', r) := TryUpdate key value T in
  outcome_or_missing full T T' r
    (λ _, holds_map full false (if decide (value = []) then base.delete key m else <[key := value]> m) T').
Proof.
  intros (ot & Hr & Hm) Hk. unfold TryUpdate. destruct (decide (value = [])) as [->|Hv].
  - rewrite bool_decide_false by (simpl; lia).
    by apply (delete_root_lemma full (bump_unhashed T) ot).
  - rewrite bool_decide_true by (by destruct value).
    by apply (insert_root_lemma full (bump_unhashed T) ot).
Qed.

Lemma TryDelete_lemma full m T key :
  holds_map full false m T → Forall is_byte key →
  let '(T', r) := TryDelete key T in
  outcome_or_missing full T T' r (λ _, holds_map full false (base.delete key m) T').
Proof.
  intros (ot & Hr & Hm) Hk. by apply (delete_root_lemma full (bump_unhashed T) ot).
Qed.

(** ** Sequences of operations *)

Inductive op :=
| OGet (key : bytes)
| OUpdate (key value : bytes)
| ODelete (key : bytes)
| OHash (schedule : list nat).

Definition op_ok (o : op) : Prop :=
  match o with
  | OGet k | OUpdate k _ | ODelete k => Forall is_byte k
  | OHash schedule => schedule ≡ₚ seq 0 16
  end.

(** The answer of an operation: a value, a hash or nothing. *)
Definition answer (A : Type) (f : A → option bytes) (x : Trie * result A) : Trie * result (option bytes) :=
  (x.1, match x.2 with Ok a => Ok (f a) | Err e => Err e | Panic w => Panic w | OutOfFuel => OutOfFuel end).
Definition run_op (o : op) (T : Trie) : Trie * result (option bytes) :=
  match o with
  | OGet k => TryGet k T
  | OUpdate k v => answer unit (λ _, None) (TryUpdate k v T)
  | ODelete k => answer unit (λ _, None) (TryDelete k T)
  | OHash schedule => answer bytes Some (Trie_Hash schedule T)
  end.
Fixpoint run_ops (os : list op) (T : Trie) : Trie * list (result (option bytes)) :=
  match os with
  | [] => (T, [])
  | o :: os => let '(T, r) := run_op o T in let '(T, rs) := run_ops os T in (T, r :: rs)
  end.

(** The same operations on a finite map. *)
Definition spec_op (o : op) (m : gmap bytes bytes) : gmap bytes bytes * option bytes :=
  match o with
  | OGet k => (m, m !! k)
  | OUpdate k v => (if decide (v = []) then base.delete k m else <[k := v]> m, None)
  | ODelete k => (base.delete k m, None)
  | OHash _ => (m, Some (map_root m))
  end.
Fixpoint spec_ops (os : list op) (m : gmap bytes bytes) : gmap bytes bytes * list (option bytes) :=
  match os with
  | [] => (m, [])
  | o :: os => let '(m, r) := spec_op o m in let '(m, rs) := spec_ops os m in (m, r :: rs)
  end.

Lemma run_op_lemma m T o :
  holds_map true false m T → op_ok o →
  (run_op o T).2 = Ok (spec_op o m).2 ∧ holds_map true false (spec_op o m).1 (run_op o T).1.
Proof.
  intros Hh Ho. destruct o as [k|k v|k|schedule]; cbn [run_op spec_op op_ok fst snd] in *.
  - pose proof (TryGet_lemma true false m T k Hh Ho) as H'.
    destruct (TryGet k T) as [T' [v|e|w|]]; try done; simpl in H'.
    + by destruct H' as [-> ?].
    + by destruct H'.
  - pose proof (TryUpdate_lemma true m T k v Hh Ho) as H'.
    destruct (TryUpdate k v T) as [T' [u|e|w|]]; try done; simpl in H'. by destruct H'.
  - pose proof (TryDelete_lemma true m T k Hh Ho) as H'.
    destruct (TryDelete k T) as [T' [u|e|w|]]; try done; simpl in H'. by destruct H'.
  - destruct (Trie_Hash_lemma true false m T schedule Ho Hh) as (H' & H'' & _).
    destruct (Trie_Hash schedule T) as [T' r]. simpl in *. subst r.
    split; [done|]. by eapply holds_map_weaken.
Qed.

Lemma run_ops_lemma os m T :
  holds_map true false m T → Forall op_ok os →
  (run_ops os T).2 = map Ok (spec_ops os m).2
  ∧ holds_map true false (spec_ops os m).1 (run_ops os T).1.
Proof.
  revert m T. induction os as [|o os IH]; intros m T Hh Ho; [done|].
  inversion Ho as [|?? Ho1 Ho2]; subst. destruct (run_op_lemma m T o Hh Ho1) as [E Hh'].
  cbn [run_ops spec_ops]. destruct (run_op o T) as [T' r], (spec_op o m) as [m' a]. simpl in *. subst r.
  destruct (IH m' T' Hh' Ho2) as [E' Hh'']. destruct (run_ops os T'), (spec_ops os m'). simpl in *.
  by rewrite E'.
Qed.

Lemma holds_map_fresh full hs owner unhashed rd tr :
  holds_map full hs ∅ (MkTrie nilNode owner unhashed rd tr).
Proof. exists None. split; [done|apply models_empty]. Qed.

(** Opening a trie by its root hash. *)
Lemma New_lemma full (id : ID) (db : NodeReader) codec rd t m :
  newTrieReader (id_StateRoot id) (id_Owner id) db codec = Ok rd →
  wf t → models (Some t) m → id_Root id = keccak256 (tenc t) →
  id_Root id ≠ zeroHash → id_Root id ≠ EmptyRootHash →
  available full rd t → stored_below full rd t →
  match New id db codec with
  | Ok T => holds_map full true m T ∧ t_reader T = rd
  | Err e => full = false ∧ missing e
  | _ => False
  end.
Proof.
  intros Hrd Hw Hm Hroot Hz He Ha Hs. unfold New. rewrite Hrd. simpl.
  rewrite bool_decide_true by done. rewrite Hroot.
  pose proof (resolve_repr full rd true true t [] Hw (or_introl eq_refl) Ha Hs newTracer) as Hy.
  destruct (resolveAndTrack _ _ _ _) as [tr [n|e|w|]]; try done. simpl in *.
  destruct Hy as [Hr _]. split; [|done]. by exists (Some t).
Qed.

(** ** Properties *)

(** C1: on a store that holds every node the trie refers to, any sequence of
    lookups, updates (an empty value deletes), deletions and hash computations,
    on any keys and from any loaded or partly loaded state, never panics, never
    fails and never runs out of fuel, and answers exactly as the same sequence
    on a finite map does, the hash being a function of the map alone. *)
Theorem trie_refines_map os m T :
  holds_map true false m T → Forall op_ok os →
  (run_ops os T).2 = map Ok (spec_ops os m).2
  ∧ holds_map true false (spec_ops os m).1 (run_ops os T).1.
Proof. apply run_ops_lemma. Qed.

(** C28: a lookup, even one that has to load nodes from a store where some are
    missing, either answers the value of the map and leaves a trie that holds
    the same map, or reports a [MissingNodeError] (only when the store is
    incomplete) and leaves the root as it was. *)
Theorem TryGet_correct full hs m T key :
  holds_map full hs m T → Forall is_byte key →
  let '(T', r) := TryGet key T in
  outcome_or_missing full T T' r (λ v, v = m !! key ∧ holds_map full hs m T').
Proof. apply TryGet_lemma. Qed.

(** C8: an update or a deletion is atomic: it either makes the trie hold the
    updated map, or reports a [MissingNodeError] (only when the store is
    incomplete) and leaves the root exactly as it was; an update with an empty
    value is a deletion. *)
Theorem TryUpdate_TryDelete_atomic full m T key value :
  holds_map full false m T → Forall is_byte key →
  (let '(T', r) := TryUpdate key value T in
   outcome_or_missing full T T' r
     (λ _, holds_map full false (if decide (value = []) then base.delete key m else <[key := value]> m) T'))
  ∧ (let '(T', r) := TryDelete key T in
     outcome_or_missing full T T' r (λ _, holds_map full false (base.delete key m) T')).
Proof. split; [by apply TryUpdate_lemma|by apply TryDelete_lemma]. Qed.

(** C9: [Hash] returns the Merkle root of the map the trie holds, whatever
    hashes were cached, whatever part of the trie is loaded, and whether the
    hasher runs sequentially or in parallel with any schedule; afterwards every
    node of the trie carries its hash. *)
Theorem Trie_Hash_correct full hs m T schedule :
  schedule ≡ₚ seq 0 16 → holds_map full hs m T →
  (Trie_Hash schedule T).2 = Ok (map_root m) ∧ holds_map full true m (Trie_Hash schedule T).1.
Proof.
  intros Hp Hh. destruct (Trie_Hash_lemma full hs m T schedule Hp Hh) as (? & ? & _). done.
Qed.

(** C29: opening a trie by the root hash of a map whose nodes are in the store
    gives a trie that holds that map, or a [MissingNodeError] when the store is
    incomplete. *)
Theorem New_correct full (id : ID) (db : NodeReader) codec rd t m :
  newTrieReader (id_StateRoot id) (id_Owner id) db codec = Ok rd →
  wf t → models (Some t) m → id_Root id = keccak256 (tenc t) →
  id_Root id ≠ zeroHash → id_Root id ≠ EmptyRootHash →
  available full rd t → stored_below full rd t →
  match New id db codec with
  | Ok T => holds_map full true m T ∧ t_reader T = rd
  | Err e => full = false ∧ missing e
  | _ => False
  end.
Proof. apply New_lemma. Qed.
End holds.

(** ** Witnesses *)

Module Witness.
Import Standin.

Definition fresh : Trie := MkTrie nilNode zeroHash 0 newEmptyReader newTracer.

Lemma keys_ok (k : bytes) : forallb (λ b, bool_decide (is_byte b)) k = true → Forall is_byte k.
Proof.
  rewrite forallb_forall, Forall_forall. intros Hk b Hb. apply list_elem_of_In, Hk in Hb.
  by apply bool_decide_eq_true in Hb.
Qed.

Definition script : list op :=
  [OUpdate [18; 52] [1]; OUpdate [18; 53] [2; 3]; OHash (seq 0 16); OUpdate [18] [9];
   OGet [18; 53]; ODelete [18; 52]; OUpdate [18] []; OGet [18]; OHash (rev (seq 0 16))]%Z.

Lemma trie_refines_map_witness :
  (run_ops script fresh).2 = map Ok (spec_ops script ∅).2.
Proof.
  apply (trie_refines_map script ∅ fresh).
  - apply holds_map_fresh.
  - unfold script. repeat apply Forall_cons_2; try apply Forall_nil_2; cbn [op_ok];
      first [by apply keys_ok | done | symmetry; apply Permutation_rev].
Defined.

Definition M12 : gmap bytes bytes := {[ [18%Z] := [7%Z] ]}.
Definition T12 : tree := TLeaf [1; 2]%Z [7]%Z.

(** A trie whose root is an unresolved reference into an empty store. *)
Definition absent : Trie :=
  MkTrie (hashNode (keccak256 (tenc T12))) zeroHash 0 newEmptyReader newTracer.

Lemma absent_holds hs : holds_map false hs M12 absent.
Proof.
  exists (Some T12). split; [split|].
  - apply repr_hash; [by left| |done]. intros path. right. split; [done|]. eexists. split; [done|].
    by eexists _, _, _, _.
  - simpl. split; [|done]. repeat constructor; unfold is_nibble; lia.
  - change (Some T12) with (Some (tinsert_opt None (nibbles_of [18%Z]) [7%Z])).
    apply (models_insert None ∅); [apply models_empty|done|by apply keys_ok|done].
Defined.

Lemma TryGet_correct_witness :
  let '(T', r) := TryGet [18%Z] absent in
  outcome_or_missing false absent T' r (λ v, v = M12 !! [18%Z] ∧ holds_map false false M12 T').
Proof. apply TryGet_correct; [apply absent_holds|by apply keys_ok]. Defined.

Lemma TryUpdate_TryDelete_atomic_witness :
  let '(T', r) := TryUpdate [18%Z] [8%Z] absent in
  outcome_or_missing false absent T' r
    (λ _, holds_map false false (<[ [18%Z] := [8%Z] ]> M12) T').
Proof.
  eapply proj1, (TryUpdate_TryDelete_atomic false _ absent [18%Z] [8%Z]);
    [apply absent_holds|by apply keys_ok].
Defined.

Lemma Trie_Hash_correct_witness :
  (Trie_Hash (seq 0 16) absent).2 = Ok (map_root M12).
Proof. eapply proj1, (Trie_Hash_correct false false); [done|apply absent_holds]. Defined.

(** A store that holds one node. *)
Definition one_node : Reader :=
  {| Reader_Node _ _ _ := Err ErrNotFound; Reader_NodeBlob _ _ _ := Ok (tenc T12) |}.

Lemma New_correct_witness :
  match New (TrieID (keccak256 (tenc T12))) (λ _ _, Some one_node) 0 with
  | Ok T => holds_map true true M12 T ∧ t_reader T = TrieReader zeroHash (Some one_node) None
  | Err e => true = false ∧ missing e
  | _ => False
  end.
Proof.
  apply (New_correct true _ _ _ _ T12).
  - done.
  - simpl. split; [|done]. repeat constructor; unfold is_nibble; lia.
  - change (Some T12) with (Some (tinsert_opt None (nibbles_of [18%Z]) [7%Z])).
    apply (models_insert None ∅); [apply models_empty|done|by apply keys_ok|done].
  - done.
  - intros E. by vm_compute in E.
  - intros E. by vm_compute in E.
  - intros path. left. done.
  - done.
Defined.
End Witness.
