(* ===== verification/NodeSet.v ===== *)
(** * Dirty nodes: nodeset.go, and the node conversions of database_node.go

    The nodes a commit collects, keyed by path, and the collapsed form in which
    they are kept. *)
From S2P Require Import Prelude Errors Geth Encoding Node Tracer.
Local Open Scope nat_scope.

(** ** database_node.go: collapsed and expanded nodes *)

(** A loop over children that stops at the first panic. *)
Definition map_result {A B} (f : A → result B) : list A → result (list B) :=
  fix go l := match l with
              | [] => Ok []
              | a :: l => b ← f a; bs ← go l; Ok (b :: bs)
              end.

Fixpoint simplifyNode (n : node) : result node :=
  match n with
  | shortNode k v _ => v ← simplifyNode v; Ok (rawShortNode k v)
  | fullNode cs _ =>
      cs ← map_result (λ c, match c with nilNode => Ok nilNode | _ => simplifyNode c end) cs;
      Ok (rawFullNode cs)
  | valueNode _ | hashNode _ | rawNode _ => Ok n
  | _ => Panic "unknown node type"
  end.

Fixpoint expandNode (hash : option bytes) (n : node) : result node :=
  match n with
  | rawShortNode k v =>
      v ← expandNode None v; Ok (shortNode (compactToHex k) v (NodeFlag hash false))
  | rawFullNode cs =>
      cs ← map_result (λ c, match c with nilNode => Ok nilNode | _ => expandNode None c end) cs;
      Ok (fullNode cs (NodeFlag hash false))
  | valueNode _ | hashNode _ => Ok n
  | _ => Panic "unknown node type"
  end.

Section nodeset.
Context `{RlpOps, CryptoOps}.

(** [forGatherChildren]: the hashes handed to the callback, in order. *)
Fixpoint forGatherChildren (n : node) : result (list bytes) :=
  match n with
  | rawShortNode _ v => forGatherChildren v
  | rawFullNode cs =>
      hs ← map_result forGatherChildren cs; Ok (concat (take 16 hs))
  | hashNode h => Ok [BytesToHash h]
  | valueNode _ | nilNode | rawNode _ => Ok []
  | _ => Panic "unknown node type"
  end.

(** ** nodeset.go *)

(** A zero hash, size 0 and a nil node mark a deletion. *)
Record memoryNode := MemoryNode { mn_hash : bytes; mn_size : Z; mn_node : node }.

Definition mn_rlp (n : memoryNode) : result bytes :=
  match mn_node n with
  | rawNode b => Ok b
  | _ => nodeToBytes (mn_node n)
  end.

Definition mn_obj (n : memoryNode) : result node :=
  match mn_node n with
  | rawNode b => mustDecodeNode (Some (mn_hash n)) b
  | _ => expandNode (Some (mn_hash n)) (mn_node n)
  end.

Definition isDeleted (n : memoryNode) : bool := bool_decide (mn_hash n = zeroHash).

Record leaf := Leaf { leaf_blob : bytes; leaf_parent : bytes }.

Record NodeSet := MkNodeSet {
  ns_owner : bytes;
  ns_nodes : gmap bytes memoryNode;
  ns_leaves : list leaf;
  ns_updates : Z;
  ns_deletes : Z;
  ns_accessList : gmap bytes bytes
}.

Definition NewNodeSet (owner : bytes) (accessList : gmap bytes bytes) : NodeSet :=
  MkNodeSet owner ∅ [] 0 0 accessList.

Definition markUpdated (path : bytes) (n : memoryNode) (set : NodeSet) : NodeSet :=
  MkNodeSet (ns_owner set) (<[path := n]> (ns_nodes set)) (ns_leaves set)
    (ns_updates set + 1) (ns_deletes set) (ns_accessList set).

Definition markDeleted (path : bytes) (set : NodeSet) : NodeSet :=
  MkNodeSet (ns_owner set) (<[path := MemoryNode zeroHash 0 nilNode]> (ns_nodes set)) (ns_leaves set)
    (ns_updates set) (ns_deletes set + 1) (ns_accessList set).

Definition addLeaf (l : leaf) (set : NodeSet) : NodeSet :=
  MkNodeSet (ns_owner set) (ns_nodes set) (ns_leaves set ++ [l])
    (ns_updates set) (ns_deletes set) (ns_accessList set).

Definition ns_Size (set : NodeSet) : Z * Z := (ns_updates set, ns_deletes set).

(** [Hashes], in some order. *)
Definition Hashes (set : NodeSet) : list bytes := (λ kv, mn_hash kv.2) <$> map_to_list (ns_nodes set).

(** [forEachWithOrder]: the entries in descending order of their paths. *)
Fixpoint insert_path (kv : bytes * memoryNode) (l : list (bytes * memoryNode)) :=
  match l with
  | [] => [kv]
  | kv' :: l => if bytes_le kv'.1 kv.1 then kv :: kv' :: l else kv' :: insert_path kv l
  end.
Definition forEachWithOrder (set : NodeSet) : list (bytes * memoryNode) :=
  foldr insert_path [] (map_to_list (ns_nodes set)).

(** A merged set: at most one set per owner. *)
Abbreviation MergedNodeSet := (gmap bytes NodeSet).
Definition NewMergedNodeSet : MergedNodeSet := ∅.
Definition Merge (other : NodeSet) (set : MergedNodeSet) : MergedNodeSet * result unit :=
  match set !! ns_owner other with
  | Some _ => (set, Err (ErrDuplicateTrie (ns_owner other)))
  | None => (<[ns_owner other := other]> set, Ok tt)
  end.
Definition NewWithNodeSet (set : NodeSet) : MergedNodeSet := (Merge set NewMergedNodeSet).1.

(** ** tracer.go: [markDeletions] *)

Definition markDeletions (t : tracer) (set : NodeSet) : NodeSet :=
  foldr (λ path set, match ns_accessList set !! path with
                     | Some _ => markDeleted path set
                     | None => set
                     end) set (elements (deletes t)).
End nodeset.
Abbreviation MergedNodeSet := (gmap bytes NodeSet).

(** ** Facts *)

Section facts.
Context `{RlpOps, CryptoOps}.

(** Every entry is visited once, longest extensions of a path first. *)
Lemma insert_path_perm kv l : insert_path kv l ≡ₚ kv :: l.
Proof.
  induction l as [|kv' l IH]; simpl; [done|]. destruct (bytes_le _ _); [done|].
  rewrite IH. apply Permutation_swap.
Qed.

Lemma forEachWithOrder_perm set : forEachWithOrder set ≡ₚ map_to_list (ns_nodes set).
Proof.
  unfold forEachWithOrder. induction (map_to_list (ns_nodes set)) as [|kv l IH]; simpl; [done|].
  by rewrite insert_path_perm, IH.
Qed.

Definition descending (l : list (bytes * memoryNode)) : Prop :=
  StronglySorted (λ kv kv', bytes_le kv'.1 kv.1 = true) l.

Lemma insert_path_sorted kv l : descending l → descending (insert_path kv l).
Proof.
  unfold descending. induction 1 as [|kv' l Hs IH Hf]; simpl; [repeat constructor|].
  destruct (bytes_le kv'.1 kv.1) eqn:E.
  - constructor; [by constructor|]. constructor; [done|].
    eapply Forall_impl; [exact Hf|]. intros x Hx. exact (bytes_le_trans _ _ _ Hx E).
  - constructor; [done|]. rewrite insert_path_perm. constructor; [|done].
    destruct (bytes_le_total kv.1 kv'.1); congruence.
Qed.

Lemma forEachWithOrder_sorted set : descending (forEachWithOrder set).
Proof.
  unfold forEachWithOrder. induction (map_to_list (ns_nodes set)) as [|kv l IH]; simpl;
    [constructor|by apply insert_path_sorted].
Qed.

(** C33: the database is given every node of a set exactly once, and a node is
    given before any node on the way from the root to it, so the children of a
    node are in the database when it is inserted. *)
Theorem forEachWithOrder_correct set :
  forEachWithOrder set ≡ₚ map_to_list (ns_nodes set)
  ∧ ∀ i j p ext n n',
      forEachWithOrder set !! i = Some (p ++ ext, n) → forEachWithOrder set !! j = Some (p, n') →
      ext ≠ [] → i < j.
Proof.
  split; [apply forEachWithOrder_perm|]. intros i j p ext n n' Hi Hj Hne.
  pose proof (bytes_lt_app p ext Hne) as Hlt. destruct (Nat.lt_trichotomy i j) as [?|[->|Hji]]; [done|..].
  - rewrite Hi in Hj. injection Hj as E _. rewrite E in Hlt. by destruct (irreflexivity bytes_lt p).
  - pose proof (strongly_sorted_lookup _ _ _ _ _ _ (forEachWithOrder_sorted set) Hj Hi Hji) as Hle.
    simpl in Hle. assert (p ++ ext = p) as E.
    { apply bytes_le_antisym; [done|]. apply bytes_le_lt. by right. }
    rewrite E in Hlt. by destruct (irreflexivity bytes_lt p).
Qed.

(** The conversions keep the encoding. *)
Lemma node_ind_full (P : node → Prop) :
  P nilNode → (∀ cs fl, Forall P cs → P (fullNode cs fl)) →
  (∀ k v fl, P v → P (shortNode k v fl)) → (∀ h, P (hashNode h)) → (∀ v, P (valueNode v)) →
  (∀ b, P (rawNode b)) → (∀ cs, Forall P cs → P (rawFullNode cs)) →
  (∀ k v, P v → P (rawShortNode k v)) → ∀ n, P n.
Proof.
  intros H1' H2' H3' H4' H5' H6' H7' H8'. fix IH 1.
  intros [|cs fl|k v fl|h|v|b|cs|k v].
  - apply H1'.
  - apply H2'. induction cs as [|c cs IHcs]; constructor; [apply IH|apply IHcs].
  - apply H3', IH.
  - apply H4'.
  - apply H5'.
  - apply H6'.
  - apply H7'. induction cs as [|c cs IHcs]; constructor; [apply IH|apply IHcs].
  - apply H8', IH.
Qed.

Lemma map_result_Forall2 {A B} (f : A → result B) l l' :
  map_result f l = Ok l' → Forall2 (λ a b, f a = Ok b) l l'.
Proof.
  revert l'. induction l as [|a l IH]; simpl; intros l'.
  - intros [= <-]. constructor.
  - destruct (f a) as [b| | |] eqn:E; try done. simpl.
    destruct (map_result f l) as [bs| | |]; try done. simpl. intros [= <-]. constructor; auto.
Qed.

Lemma simplifyNode_encode n n' : simplifyNode n = Ok n' → encode n' = encode n.
Proof.
  revert n'. induction n as [|cs fl IH|k v fl IH| | | | |] using node_ind_full;
    intros n'; cbn [simplifyNode]; try done; try (by intros [= <-]).
  - destruct (map_result _ cs) as [cs'| | |] eqn:E; try done. intros [= <-]. cbn [encode].
    do 2 f_equal. apply map_result_Forall2 in E. induction E as [|c c' cs cs' Hc _ IHE]; [done|].
    inversion IH as [|?? Hc0 IH']; subst. simpl. rewrite IHE by done. f_equal.
    destruct c; try (by injection Hc as <-); auto.
  - destruct (simplifyNode v) as [v'| | |] eqn:E; try done. intros [= <-]. cbn [encode].
    by rewrite (IH v').
Qed.
End facts.
