(* ===== verification/Committer.v ===== *)
(** * Committing: trie_by_cid/trie/committer.go and [Trie.Commit]

    The dirty nodes of a hashed trie are collapsed and collected, by path, in a
    node set. *)
From S2P Require Import Prelude Errors Geth Encoding Node Mpt MptFacts Tracer Reader.
From S2P Require Import Trie Repr Refine Hasher TrieSpec NodeSet.
Local Open Scope nat_scope.

Section committer.
Context `{RlpOps, CryptoOps}.

(** Computations that thread the node set. *)
Abbreviation C := (stateM NodeSet error).

(** [estimateSize]; of a branch the first 16 children count. *)
Fixpoint estimateSize (n : node) : result Z :=
  match n with
  | shortNode k v _ => s ← estimateSize v; Ok (3 + Z.of_nat (length k) + s)%Z
  | fullNode cs _ =>
      (fix sum (i : nat) (s : Z) (cs : list node) : result Z :=
         match cs with
         | [] => Ok s
         | c :: cs =>
             if bool_decide (i < 16) then
               match c with
               | nilNode => sum (S i) (s + 1)%Z cs
               | _ => e ← estimateSize c; sum (S i) (s + e)%Z cs
               end
             else Ok s
         end) 0 3%Z cs
  | valueNode v => Ok (1 + Z.of_nat (length v))%Z
  | hashNode h => Ok (1 + Z.of_nat (length h))%Z
  | _ => Panic "node type"
  end.

Definition store (collectLeaf : bool) (path : bytes) (n : node) : C node :=
  '(hash, _) ← lift (cache n);
  match hash with
  | None =>
      λ set, (match ns_accessList set !! path with
              | Some _ => markDeleted path set
              | None => set
              end, Ok n)
  | Some hash =>
      size ← lift (estimateSize n);
      sn ← lift (simplifyNode n);
      let nhash := BytesToHash hash in
      _ ← modify (markUpdated path (MemoryNode nhash (u16 size) sn));
      _ ← modify (match n with
                  | shortNode _ (valueNode val) _ =>
                      if collectLeaf : bool then addLeaf (Leaf val nhash) else id
                  | _ => id
                  end);
      mret (hashNode hash)
  end.

(** The loop over the children of a branch; the 17th is kept. *)
Definition commitChildren (commit : bytes → node → C node) (path : bytes) : nat → list node → C (list node) :=
  fix go i cs :=
    match cs with
    | [] => mret []
    | c :: cs =>
        if bool_decide (i < 16) then
          c' ← match c with
               | nilNode => mret nilNode
               | hashNode h => mret (hashNode h)
               | _ => commit (path ++ [Z.of_nat i]) c
               end;
          cs' ← go (S i) cs;
          mret (c' :: cs')
        else mret (c :: cs)
    end.

Fixpoint commit (collectLeaf : bool) (path : bytes) (n : node) : C node :=
  '(hash, dirty) ← lift (cache n);
  match hash, dirty with
  | Some h, false => mret (hashNode h)
  | _, _ =>
      match n with
      | shortNode k v fl =>
          v' ← match v with
               | fullNode _ _ => commit collectLeaf (path ++ k) v
               | _ => mret v
               end;
          key ← lift (hexToCompact k);
          store collectLeaf path (shortNode key v' fl)
      | fullNode cs fl =>
          cs' ← commitChildren (commit collectLeaf) path 0 cs;
          store collectLeaf path (fullNode cs' fl)
      | hashNode _ => mret n
      | _ => lift (Panic "invalid node")
      end
  end.

(** [committer.Commit]: the result must be a hash. *)
Definition committer_Commit (collectLeaf : bool) (n : node) : C bytes :=
  r ← commit collectLeaf [] n;
  match r with
  | hashNode h => mret h
  | _ => lift (Panic "interface conversion")
  end.

(** ** trie.go: [Commit] *)

Definition clear_tracer (t : Trie) : Trie := set_tracer (tracer_reset (t_tracer t)) t.

(** [Trie.Commit]; the tracer is reset whatever happens. *)
Definition Trie_Commit (schedule : list nat) (collectLeaf : bool)
    : stateM Trie error (bytes * option NodeSet) := λ t,
  let nodes := markDeletions (t_tracer t) (NewNodeSet (t_owner t) (accessList (t_tracer t))) in
  match t_root t with
  | nilNode => (clear_tracer t, Ok (EmptyRootHash, Some nodes))
  | _ =>
      match Trie_Hash schedule t with
      | (t, Ok rootHash) =>
          match cache (t_root t) with
          | Ok (hashedNode, false) =>
              (clear_tracer (set_root (match hashedNode with Some h => hashNode h | None => nilNode end) t),
               Ok (rootHash, None))
          | Ok (_, true) =>
              match committer_Commit collectLeaf (t_root t) nodes with
              | (nodes, Ok h) => (clear_tracer (set_root (hashNode h) t), Ok (rootHash, Some nodes))
              | (_, Err e) => (clear_tracer t, Err e)
              | (_, Panic w) => (clear_tracer t, Panic w)
              | (_, OutOfFuel) => (clear_tracer t, OutOfFuel)
              end
          | Err e => (clear_tracer t, Err e)
          | Panic w => (clear_tracer t, Panic w)
          | OutOfFuel => (clear_tracer t, OutOfFuel)
          end
      | (t, Err e) => (clear_tracer t, Err e)
      | (t, Panic w) => (clear_tracer t, Panic w)
      | (t, OutOfFuel) => (clear_tracer t, OutOfFuel)
      end
  end.
End committer.

(** ** What a commit collects *)

Section kept.
Context `{RlpOps, CryptoOps}.
Context (full : bool) (rd : trieReader).

(** A tree is kept if its encoding is in the node set, at a path that extends
    [pfx], or was in the store already. *)
Definition covered (pfx : bytes) (nodes : gmap bytes memoryNode) (t : tree) : Prop :=
  ∃ path mn, pfx `prefix_of` path ∧ nodes !! path = Some mn
    ∧ mn_hash mn = keccak256 (tenc t) ∧ mn_rlp mn = Ok (tenc t).
Definition kept (pfx : bytes) (nodes : gmap bytes memoryNode) (t : tree) : Prop :=
  covered pfx nodes t ∨ available full rd t.

Fixpoint kept_below (pfx : bytes) (nodes : gmap bytes memoryNode) (t : tree) : Prop :=
  match t with
  | TLeaf _ _ => True
  | TExt _ c => (by_hash c → kept pfx nodes c) ∧ kept_below pfx nodes c
  | TFull cs _ =>
      allP (λ oc, match oc with
                  | Some c => (by_hash c → kept pfx nodes c) ∧ kept_below pfx nodes c
                  | None => True
                  end) cs
  end.

Lemma kept_below_full pfx nodes cs ov :
  kept_below pfx nodes (TFull cs ov) ↔
  ∀ i c, cs !! i = Some (Some c) → (by_hash c → kept pfx nodes c) ∧ kept_below pfx nodes c.
Proof.
  cbn [kept_below]. rewrite allP_Forall, Forall_lookup. split; intros Hk i.
  - intros c Hi. apply (Hk i _ Hi).
  - intros [c|] Hi; [by eapply Hk|done].
Qed.

Lemma stored_kept_below pfx nodes t : stored_below full rd t → kept_below pfx nodes t.
Proof.
  induction t as [k v|k c IH|cs ov IH] using tree_induction; intros Hs; [done| |].
  - destruct Hs as [Ha Hs]. split; [right; auto|auto].
  - apply kept_below_full. intros i c Hi. destruct (stored_below_child _ _ _ _ _ _ Hs Hi) as [Ha Hs'].
    split; [right; auto|]. by eapply IH.
Qed.

(** What is kept stays kept when no path that extends [pfx] changes. *)
Lemma kept_below_change pfx pfx' nodes nodes' t :
  pfx' `prefix_of` pfx → (∀ p, pfx `prefix_of` p → nodes' !! p = nodes !! p) →
  (kept pfx nodes t → kept pfx' nodes' t) ∧ (kept_below pfx nodes t → kept_below pfx' nodes' t).
Proof.
  intros Hp Hn.
  assert (Hk : ∀ t, kept pfx nodes t → kept pfx' nodes' t).
  { intros t' [(path & mn & Hpp & Hl & Hh)|]; [left|by right].
    exists path, mn. split_and!; try apply Hh; [by etrans|by rewrite Hn]. }
  split; [apply Hk|].
  induction t as [k v|k c IH|cs ov IH] using tree_induction; [done| |].
  - intros [H1' H2']. split; auto.
  - rewrite !kept_below_full. intros Hc i c Hi. destruct (Hc i c Hi). split; eauto.
Qed.
End kept.

(** ** Where the entries of a node set come from *)

Fixpoint subtrees (t : tree) : list tree :=
  t :: match t with
       | TLeaf _ _ => []
       | TExt _ c => subtrees c
       | TFull cs _ => concat (map (λ oc, match oc with Some c => subtrees c | None => [] end) cs)
       end.

Lemma subtrees_self t : t ∈ subtrees t.
Proof. destruct t; left. Qed.

Lemma subtrees_child cs ov i c x :
  cs !! i = Some (Some c) → x ∈ subtrees c → x ∈ subtrees (TFull cs ov).
Proof.
  intros Hi Hx. right. apply list_elem_of_In, in_concat. exists (subtrees c).
  split; [|by apply list_elem_of_In].
  apply in_map_iff. exists (Some c). split; [done|]. apply list_elem_of_In. by eapply list_elem_of_lookup_2.
Qed.

Section entries.
Context `{RlpOps, CryptoOps}.

(** A deletion, or a node of [t] under its hash. *)
Definition entry_of (t : tree) (mn : memoryNode) : Prop :=
  isDeleted mn = true
  ∨ ∃ c, c ∈ subtrees t ∧ mn_hash mn = keccak256 (tenc c) ∧ mn_rlp mn = Ok (tenc c)
      ∧ ∃ l, forGatherChildren (mn_node mn) = Ok l.
Definition only_of (t : tree) (set set' : NodeSet) : Prop :=
  ∀ p mn, ns_nodes set' !! p = Some mn → ns_nodes set !! p = Some mn ∨ entry_of t mn.

Lemma only_of_refl t set : only_of t set set.
Proof. intros p mn. by left. Qed.

Lemma only_of_trans t s1 s2 s3 : only_of t s1 s2 → only_of t s2 s3 → only_of t s1 s3.
Proof. intros H12 H23 p mn Hp. destruct (H23 p mn Hp) as [Hp'|]; [by apply H12|by right]. Qed.

Lemma only_of_mono t t' set set' :
  (∀ c, c ∈ subtrees t → c ∈ subtrees t') → only_of t set set' → only_of t' set set'.
Proof.
  intros Hsub Ho p mn Hp. destruct (Ho p mn Hp) as [|[|(c & Hc & Hr)]]; [by left|right; by left|].
  right. right. exists c. auto.
Qed.

Lemma map_result_gather {A} (f : node → result A) cs cs' :
  Forall2 (λ c c', match c with nilNode => Ok nilNode | _ => simplifyNode c end = Ok c') cs cs' →
  Forall (λ n, ∀ sn, simplifyNode n = Ok sn → ∃ l, f sn = Ok l) cs →
  (∃ l, f nilNode = Ok l) → ∃ ls, map_result f cs' = Ok ls.
Proof.
  intros Hs Hf [ln Hn]. revert Hf. induction Hs as [|c c' cs cs' Hc _ IH]; intros Hf; [by eexists|].
  inversion Hf as [|?? Hf1 Hf2]; subst. destruct (IH Hf2) as [ls Hls]. simpl.
  assert (∃ l, f c' = Ok l) as [l ->].
  { destruct c; try (by apply Hf1). injection Hc as <-. by exists ln. }
  simpl. rewrite Hls. by eexists.
Qed.

Lemma simplifyNode_gather n sn : simplifyNode n = Ok sn → ∃ l, forGatherChildren sn = Ok l.
Proof.
  revert sn. induction n as [|cs fl IH|k v fl IH| | | | |] using node_ind_full;
    intros sn; cbn [simplifyNode]; try done; try (by intros [= <-]; eexists).
  - destruct (map_result _ cs) as [cs'| | |] eqn:E; try done. intros [= <-]. cbn [forGatherChildren].
    apply map_result_Forall2 in E. destruct (map_result_gather forGatherChildren _ _ E IH) as [ls Hls];
      [by eexists|]. rewrite Hls. by eexists.
  - destruct (simplifyNode v) as [v'| | |]; try done. intros [= <-]. cbn. by apply IH.
Qed.
End entries.

(** ** The committer keeps every node *)

Section correct.
Context `{RlpOps, CryptoOps, !RlpLaws, !CryptoLaws}.
Context (full : bool) (rd : trieReader) (collectLeaf : bool).
Abbreviation repr := (repr full rd).
Abbreviation flag_ok := (flag_ok full rd).

(** Collapsed nodes that can be measured and simplified. *)
Definition sizable (n : node) : Prop :=
  n ≠ nilNode ∧ (∃ s, estimateSize n = Ok s) ∧ ∃ sn, simplifyNode n = Ok sn.

(** Only paths that extend [pfx] changed. *)
Definition changes_below (pfx : bytes) (set set' : NodeSet) : Prop :=
  ∀ p, ¬ pfx `prefix_of` p → ns_nodes set' !! p = ns_nodes set !! p.

Definition committed (path : bytes) (root : bool) (t : tree) (set set' : NodeSet) (n' : node) : Prop :=
  changes_below path set set' ∧ only_of t set set' ∧ sizable n'
  ∧ encode n' = (if root then rlp_WriteBytes (keccak256 (tenc t)) else node_ref (tenc t))
  ∧ kept_below full rd path (ns_nodes set') t
  ∧ (root = true ∨ by_hash t → kept full rd path (ns_nodes set') t ∧ n' = hashNode (keccak256 (tenc t))).

Lemma sizable_hash h : sizable (hashNode h).
Proof. split; [done|split; by eexists]. Qed.

(** The end of a commit: the collapsed node [n] of [t] is stored. *)
Lemma store_spec path root t n fl set :
  cache n = Ok (flag_hash fl, flag_dirty fl) → flag_ok true root t fl →
  encode n = tenc t → (∃ k v fl', n = shortNode k v fl') ∨ (∃ cs fl', n = fullNode cs fl') →
  sizable n →
  ∃ set' n', store collectLeaf path n set = (set', Ok n')
    ∧ (∀ p, p ≠ path → ns_nodes set' !! p = ns_nodes set !! p)
    ∧ only_of t set set' ∧ sizable n'
    ∧ encode n' = (if root then rlp_WriteBytes (keccak256 (tenc t)) else node_ref (tenc t))
    ∧ (root = true ∨ by_hash t → covered path (ns_nodes set') t ∧ n' = hashNode (keccak256 (tenc t))).
Proof.
  intros Hc Hfl He Hshape (Hnn & [s Hs] & [sn Hsn]). unfold store. rewrite Hc.
  unfold Repr.flag_ok in Hfl. destruct (flag_hash fl) as [h|]; mred.
  - destruct Hfl as (-> & Hr & _). rewrite Hs, Hsn. mred.
    rewrite BytesToHash_id by apply keccak256_length.
    set (mn := MemoryNode _ _ sn).
    assert (Hrlp : mn_rlp mn = Ok (tenc t)).
    { unfold mn_rlp. simpl. rewrite <- He, <- (simplifyNode_encode n sn Hsn).
      destruct Hshape as [(k & v & fl' & ->)|(cs & fl' & ->)]; cbn [simplifyNode] in Hsn.
      - destruct (simplifyNode v); try done. by injection Hsn as <-.
      - destruct (map_result _ cs); try done. by injection Hsn as <-. }
    eexists _, _. split; [done|].
    assert (Hnodes : ∀ g : NodeSet → NodeSet, (∀ x, ns_nodes (g x) = ns_nodes x) →
              ns_nodes (g (markUpdated path mn set)) = <[path := mn]> (ns_nodes set)) by (by intros g ->).
    rewrite Hnodes by (intros x; destruct n as [| |k0 v0 fl0| | | | |]; try done;
                       destruct v0; try done; by destruct collectLeaf).
    split; [|split; [|split; [apply sizable_hash|split]]].
    + intros p Hp. by rewrite lookup_insert_ne.
    + intros p mn' Hp. rewrite Hnodes in Hp
        by (intros x; destruct n as [| |k0 v0 fl0| | | | |]; try done;
            destruct v0; try done; by destruct collectLeaf).
      destruct (decide (p = path)) as [->|]; [|left; by rewrite lookup_insert_ne in Hp].
      rewrite lookup_insert_eq in Hp. injection Hp as <-. right. right.
      exists t. split_and!; [apply subtrees_self|done|done|]. by eapply simplifyNode_gather.
    + cbn [encode]. destruct root; [done|]. unfold node_ref, by_hash in *.
      rewrite bool_decide_false; [done|]. destruct Hr; [done|lia].
    + intros _. split; [|done]. exists path, mn. rewrite lookup_insert_eq. done.
  - destruct (Hfl (or_intror eq_refl)) as [-> Hsmall]. unfold by_hash in *.
    eexists _, n. split; [done|]. split; [|split; [|split; [by split; eauto|split]]].
    + intros p Hp. destruct (ns_accessList set !! path); [|done]. simpl. by rewrite lookup_insert_ne.
    + intros p mn Hp. destruct (ns_accessList set !! path); [|by left]. simpl in Hp.
      destruct (decide (p = path)) as [->|]; [|left; by rewrite lookup_insert_ne in Hp].
      rewrite lookup_insert_eq in Hp. injection Hp as <-. right. left. unfold isDeleted.
      by rewrite bool_decide_true.
    + rewrite He. unfold node_ref. rewrite bool_decide_true by lia. done.
    + intros [|]; [done|lia].
Qed.

Lemma changes_below_weaken pfx pfx' set set' :
  pfx `prefix_of` pfx' → changes_below pfx' set set' → changes_below pfx set set'.
Proof. intros Hp Hc p Hn. apply Hc. intros Hp'. apply Hn. by etrans. Qed.

Lemma changes_below_trans pfx s1 s2 s3 :
  changes_below pfx s1 s2 → changes_below pfx s2 s3 → changes_below pfx s1 s3.
Proof. intros H12 H23 p Hp. by rewrite H23, H12. Qed.

(** Two slots of a branch have disjoint paths. *)
Lemma slot_paths_disjoint path i j p :
  i ≠ j → path ++ [Z.of_nat i] `prefix_of` p → ¬ path ++ [Z.of_nat j] `prefix_of` p.
Proof.
  intros Hij [r1 ->] [r2 E]. rewrite <- !app_assoc in E. apply app_inv_head in E.
  injection E. lia.
Qed.

(** What the loop over the children promises of a slot. *)
Definition slot_kept (path : bytes) (i : nat) (nodes : gmap bytes memoryNode) (oc : option tree) : Prop :=
  match oc with
  | Some c => (by_hash c → kept full rd (path ++ [Z.of_nat i]) nodes c)
              ∧ kept_below full rd (path ++ [Z.of_nat i]) nodes c
  | None => True
  end.

Lemma slot_kept_change path i nodes nodes' oc :
  (∀ p, path ++ [Z.of_nat i] `prefix_of` p → nodes' !! p = nodes !! p) →
  slot_kept path i nodes oc → slot_kept path i nodes' oc.
Proof.
  intros Hn. destruct oc as [c|]; [|done]. intros [H1' H2'].
  destruct (kept_below_change full rd (path ++ [Z.of_nat i]) (path ++ [Z.of_nat i]) nodes nodes' c) as [H3' H4'];
    [done..|]. split; auto.
Qed.

Definition sizable_slot (n : node) : Prop := n = nilNode ∨ sizable n.

(** One round of the loop. *)
Lemma commit_slot path i oc nc set :
  match oc with
  | Some c => nc ≠ nilNode ∧ ∃ set' n', commit collectLeaf (path ++ [Z.of_nat i]) nc set = (set', Ok n')
                ∧ committed (path ++ [Z.of_nat i]) false c set set' n'
  | None => nc = nilNode
  end →
  ∃ set' n', (match nc with
              | nilNode => mret nilNode
              | hashNode h => mret (hashNode h)
              | _ => commit collectLeaf (path ++ [Z.of_nat i]) nc
              end : stateM NodeSet error node) set = (set', Ok n')
    ∧ changes_below (path ++ [Z.of_nat i]) set set'
    ∧ match oc with Some c => only_of c set set' | None => set' = set end
    ∧ sizable_slot n' ∧ encode n' = slot_ref oc
    ∧ slot_kept path i (ns_nodes set') oc.
Proof.
  destruct oc as [c|].
  - intros (Hnn & set' & n' & Hcm & Hch & Ho & Hsz & He & Hb & Hk). exists set', n'.
    split; [|split; [done|split; [done|split; [by right|split; [done|split; [|done]]]]]].
    + by destruct nc.
    + intros Hby. by apply Hk; right.
  - intros ->. exists set, nilNode. split; [done|]. split; [done|]. split; [done|]. split; [by left|]. done.
Qed.

Lemma commitChildren_spec path ov cs : ∀ ncs i set,
  length ncs = length cs → i + length cs = 16 →
  (∀ j c nc, cs !! j = Some (Some c) → ncs !! j = Some nc → nc ≠ nilNode ∧ ∀ set,
     ∃ set' n', commit collectLeaf (path ++ [Z.of_nat (i + j)]) nc set = (set', Ok n')
       ∧ committed (path ++ [Z.of_nat (i + j)]) false c set set' n') →
  (∀ j nc, cs !! j = Some None → ncs !! j = Some nc → nc = nilNode) →
  ∃ set' col, commitChildren (commit collectLeaf) path i (ncs ++ [onode ov]) set
                = (set', Ok (col ++ [onode ov]))
    ∧ (∀ p, (∀ j, i ≤ j → ¬ path ++ [Z.of_nat j] `prefix_of` p) → ns_nodes set' !! p = ns_nodes set !! p)
    ∧ (∀ t, (∀ j c x, cs !! j = Some (Some c) → x ∈ subtrees c → x ∈ subtrees t) → only_of t set set')
    ∧ Forall sizable_slot col ∧ map encode col = map slot_ref cs
    ∧ (∀ j oc, cs !! j = Some oc → slot_kept path (i + j) (ns_nodes set') oc).
Proof.
  induction cs as [|oc cs IH]; intros [|nc ncs] i set Hl Hi Hc Hn; try done.
  - exists set, []. simpl in *. rewrite Nat.add_0_r in Hi. subst i.
    split; [done|]. split; [done|]. split; [intros; apply only_of_refl|]. split; [constructor|]. done.
  - simpl in Hl, Hi. destruct (commit_slot path i oc nc set) as (set1 & n1 & E1 & Hch & Ho1 & Hs1 & He1 & Hk1).
    { destruct oc as [c|].
      - destruct (Hc 0 c nc eq_refl eq_refl) as [Hnn Hcm]. rewrite Nat.add_0_r in Hcm. eauto.
      - by apply (Hn 0 nc). }
    destruct (IH ncs (S i) set1) as (set2 & col & E2 & Hch2 & Ho2 & Hs2 & He2 & Hk2); [lia|lia| | |].
    { intros j c nc' Hj Hnc. rewrite Nat.add_succ_comm. by apply (Hc (S j)). }
    { intros j nc' Hj Hnc. by apply (Hn (S j)). }
    exists set2, (n1 :: col). split; [|split; [|split; [|split; [by constructor|split]]]].
    + cbn [commitChildren app]. rewrite bool_decide_true by lia.
      rewrite (bind_step _ _ _ _ _ E1).
      change ((fix go (i : nat) (cs : list node) := _) (S i) (ncs ++ [onode ov]))
        with (commitChildren (commit collectLeaf) path (S i) (ncs ++ [onode ov])).
      by rewrite (bind_step _ _ _ _ _ E2).
    + intros p Hp. rewrite Hch2 by (intros j Hj; apply Hp; lia). apply Hch, Hp. lia.
    + intros t Ht. apply (only_of_trans _ _ set1).
      * destruct oc as [c|]; [|subst; apply only_of_refl]. eapply only_of_mono, Ho1.
        intros x. by apply (Ht 0).
      * apply Ho2. intros j c x Hj. by apply (Ht (S j)).
    + cbn [map]. by rewrite He1, He2.
    + intros [|j] oc' Hj.
      * injection Hj as <-. rewrite Nat.add_0_r. eapply slot_kept_change, Hk1.
        intros p Hp. apply Hch2. intros j Hj Hp'. apply (slot_paths_disjoint path i j p); [lia|done|done].
      * rewrite <- Nat.add_succ_comm. by apply Hk2.
Qed.

Lemma by_hash_ref (root : bool) t :
  root = true ∨ by_hash t →
  encode (hashNode (keccak256 (tenc t)))
  = (if root then rlp_WriteBytes (keccak256 (tenc t)) else node_ref (tenc t)).
Proof.
  intros Hr. cbn [encode]. destruct root; [done|]. unfold node_ref, by_hash in *.
  rewrite bool_decide_false; [done|]. destruct Hr; [done|lia].
Qed.

(** A node that is a reference already, or is clean. *)
Lemma committed_stored path root t set :
  root = true ∨ by_hash t → available full rd t → stored_below full rd t →
  committed path root t set set (hashNode (keccak256 (tenc t))).
Proof.
  intros Hr Ha Hs. split; [done|]. split; [apply only_of_refl|]. split; [apply sizable_hash|]. split; [by apply by_hash_ref|].
  split; [by apply stored_kept_below|]. intros _. split; [by right|done].
Qed.

Lemma committed_clean path hs root t fl h set :
  flag_hash fl = Some h → flag_dirty fl = false → flag_ok hs root t fl →
  committed path root t set set (hashNode h).
Proof.
  intros E Ed Hf. unfold Repr.flag_ok in Hf. rewrite E in Hf. destruct Hf as (-> & Hr & Hcl).
  destruct (Hcl Ed). by apply committed_stored.
Qed.

(** The children are committed, then the node itself. *)
Lemma committed_store path root t n fl set set1 :
  cache n = Ok (flag_hash fl, flag_dirty fl) → flag_ok true root t fl →
  encode n = tenc t → (∃ k v fl', n = shortNode k v fl') ∨ (∃ cs fl', n = fullNode cs fl') →
  sizable n → changes_below path set set1 → only_of t set set1 →
  (∀ nodes, (∀ p, p ≠ path → nodes !! p = ns_nodes set1 !! p) → kept_below full rd path nodes t) →
  ∃ set' n', store collectLeaf path n set1 = (set', Ok n') ∧ committed path root t set set' n'.
Proof.
  intros Hc Hfl He Hshape Hsz Hch Ho Hb.
  destruct (store_spec path root t n fl set1) as (set' & n' & Hs & Hn & Ho' & Hsz' & He' & Hk); try done.
  exists set', n'. split; [done|]. split; [|split; [by eapply only_of_trans|split; [done|split; [done|split; [by apply Hb|]]]]].
  - intros p Hp. rewrite Hn by (by intros ->). by apply Hch.
  - intros Hr. destruct (Hk Hr). split; [by left|done].
Qed.

Lemma sizable_short k v fl : sizable v → sizable (shortNode k v fl).
Proof.
  intros (_ & [s Hs] & [sn Hsn]). split; [done|]. cbn [estimateSize simplifyNode].
  rewrite Hs, Hsn. split; by eexists.
Qed.

Lemma map_result_ok {A B} (f : A → result B) l :
  Forall (λ a, ∃ b, f a = Ok b) l → ∃ l', map_result f l = Ok l'.
Proof.
  induction 1 as [|a l [b Hb] _ [l' IH]]; simpl; [by eexists|]. rewrite Hb. simpl. rewrite IH. by eexists.
Qed.

Lemma simplify_slot n : sizable_slot n →
  ∃ sn, match n with nilNode => Ok nilNode | _ => simplifyNode n end = Ok sn.
Proof. intros [->|(Hn & _ & [sn Hsn])]; [by eexists|]. exists sn. by destruct n. Qed.

Lemma sizable_full col ov fl :
  Forall sizable_slot col → sizable (fullNode (col ++ [onode ov]) fl).
Proof.
  intros Hc. split; [done|split].
  - cbn [estimateSize].
    match goal with |- ∃ s, ?sum 0 3%Z _ = _ =>
      assert (∀ s i, ∃ s', sum i s (col ++ [onode ov]) = Ok s') as Hsum; [|apply Hsum] end.
    induction Hc as [|c col Hc _ IH]; intros s i; cbn [app].
    + case_bool_decide; [|by eexists]. destruct ov; by eexists.
    + case_bool_decide; [|by eexists]. destruct Hc as [->|(Hn & [e He] & _)]; [apply IH|].
      destruct c; try done; rewrite He; apply IH.
  - cbn [simplifyNode]. edestruct (map_result_ok
      (λ c, match c with nilNode => Ok nilNode | _ => simplifyNode c end)) as [l Hl];
      [|rewrite Hl; by eexists].
    apply Forall_app. split; [by eapply Forall_impl, simplify_slot|].
    apply Forall_singleton. destruct ov; by eexists.
Qed.

Lemma sizable_value v : sizable (valueNode v).
Proof. split; [done|split; by eexists]. Qed.

(** Committing below an extension. *)
Lemma commit_ext hs path root c k nc fl set :
  repr hs false c nc → wf (TExt k c) → flag_ok true root (TExt k c) fl →
  (∀ path set, ∃ set' n', commit collectLeaf path nc set = (set', Ok n')
     ∧ committed path false c set set' n') →
  ∃ set' n', ((v' ← match nc with
                    | fullNode _ _ => commit collectLeaf (path ++ k) nc
                    | _ => mret nc
                    end;
               key ← lift (hexToCompact k);
               store collectLeaf path (shortNode key v' fl)) : stateM NodeSet error node) set
               = (set', Ok n')
    ∧ committed path root (TExt k c) set set' n'.
Proof.
  intros Hc (Hk & Hkne & Hf & Hwf) Hfl Hcm.
  destruct (Hcm (path ++ k) set) as (set1 & v' & E1 & Hch & Ho & Hsz & He & Hb & Hkc).
  assert (E2 : (match nc with
                | fullNode _ _ => commit collectLeaf (path ++ k) nc
                | _ => mret nc
                end : stateM NodeSet error node) set = (set1, Ok v')).
  { destruct nc; try done; by inversion Hc; subst. }
  rewrite (bind_step _ _ _ _ _ E2), compact_of_ok, lift_step by (by constructor).
  eapply (committed_store _ _ _ _ fl); try done.
  - cbn [encode tenc]. by rewrite He.
  - left. eauto.
  - by apply sizable_short.
  - eapply changes_below_weaken, Hch. by eexists.
  - eapply only_of_mono, Ho. intros x Hx. by right.
  - intros nodes Hn.
    destruct (kept_below_change full rd (path ++ k) path (ns_nodes set1) nodes c) as [Hk1 Hk2];
      [by eexists| |split; [|auto]].
    + intros p [r ->]. apply Hn. rewrite <- app_assoc. intros E.
      apply (f_equal length) in E. rewrite !length_app in E. destruct k; [done|simpl in E; lia].
    + intros Hby. apply Hk1, Hkc. by right.
Qed.

(** Committing the children of a branch. *)
Lemma commit_full path root cs ov ncs fl set :
  wf (TFull cs ov) → flag_ok true root (TFull cs ov) fl → length ncs = length cs →
  (∀ j c nc, cs !! j = Some (Some c) → ncs !! j = Some nc → nc ≠ nilNode ∧ ∀ path set,
     ∃ set' n', commit collectLeaf path nc set = (set', Ok n') ∧ committed path false c set set' n') →
  (∀ j nc, cs !! j = Some None → ncs !! j = Some nc → nc = nilNode) →
  ∃ set' n', ((cs' ← commitChildren (commit collectLeaf) path 0 (ncs ++ [onode ov]);
               store collectLeaf path (fullNode cs' fl)) : stateM NodeSet error node) set
               = (set', Ok n')
    ∧ committed path root (TFull cs ov) set set' n'.
Proof.
  intros Hwf Hfl Hlen Hc Hn. pose proof Hwf as (H16 & _).
  destruct (commitChildren_spec path ov cs ncs 0 set) as (set1 & col & E1 & Hch & Ho & Hsz & He & Hk);
    [done|lia| |done|].
  { intros j c nc Hj Hnc. destruct (Hc j c nc Hj Hnc). auto. }
  rewrite (bind_step _ _ _ _ _ E1).
  eapply (committed_store _ _ _ _ fl); try done.
  - by apply encode_full.
  - right. eauto.
  - by apply sizable_full.
  - intros p Hp. apply Hch. intros j _ Hp'. apply Hp. etrans; [|exact Hp']. by eexists.
  - apply Ho. intros j c x Hj. by apply subtrees_child with j.
  - intros nodes Hnodes. apply kept_below_full. intros i c Hi. specialize (Hk i (Some c) Hi).
    destruct Hk as [Hk1 Hk2].
    destruct (kept_below_change full rd (path ++ [Z.of_nat i]) path (ns_nodes set1) nodes c) as [Hk3 Hk4];
      [by eexists| |split; auto].
    intros p [r ->]. apply Hnodes. rewrite <- app_assoc. intros E.
    apply (f_equal length) in E. rewrite !length_app in E. simpl in E. lia.
Qed.

Lemma commit_spec hs root t n :
  repr hs root t n → hs = true → wf t → ∀ path set,
  ∃ set' n', commit collectLeaf path n set = (set', Ok n') ∧ committed path root t set set' n'.
Proof.
  induction 1 as [hs root k v fl Hfl|hs root k c nc fl Hfl Hc IH|hs root cs ov ncs fl Hfl Hlen Hcs IH Hnil
                 |hs root t Hr Ha Hs]; intros -> Hwf path set; cbn [commit cache];
    [rewrite lift_step; destruct (flag_hash fl) as [h|] eqn:Efl; [destruct (flag_dirty fl) eqn:Ed|];
      try (exists set, (hashNode h); split; [done|by eapply committed_clean])..|].
  1,2: destruct Hwf as [Hk Hv]; rewrite (bind_step _ _ _ set (valueNode v)) by done;
    rewrite compact_of_ok, lift_step by (by constructor);
    (eapply (committed_store _ _ _ _ fl); try done; [left; eauto|apply sizable_short, sizable_value|apply only_of_refl]).
  1,2: by eapply commit_ext; [|done..|]; [done|intros; apply IH; [by destruct (has_hash fl)|apply Hwf]].
  1,2: apply commit_full; try done; intros j c nc Hj Hnc;
    (split; [by eapply (repr_not_nil full rd), repr_weaken, Hcs|]); intros;
    (apply (IH j c nc Hj Hnc); [by destruct (has_hash fl)|by eapply (wf_full_child cs ov)]).
  exists set, (hashNode (keccak256 (tenc t))). split; [done|]. by apply committed_stored.
Qed.

Lemma cache_repr hs root t n :
  repr hs root t n → resolved n → ∃ h d, cache n = Ok (h, d) ∧
    (h = None → d = true ∨ (root = false ∧ ¬ by_hash t))
    ∧ (d = false → ∀ h', h = Some h' → h' = keccak256 (tenc t) ∧ available full rd t ∧ stored_below full rd t).
Proof.
  intros Hr Hres.
  assert (∀ fl, cache n = Ok (flag_hash fl, flag_dirty fl) → flag_ok hs root t fl → ∃ h d, cache n = Ok (h, d) ∧
    (h = None → d = true ∨ (root = false ∧ ¬ by_hash t))
    ∧ (d = false → ∀ h', h = Some h' → h' = keccak256 (tenc t) ∧ available full rd t ∧ stored_below full rd t)) as Hgen.
  { intros fl Hc Hfl. exists (flag_hash fl), (flag_dirty fl). split; [done|].
    unfold Repr.flag_ok in Hfl. destruct (flag_hash fl).
    - split; [done|]. intros Hd h' [= <-]. naive_solver.
    - split; [|done]. intros _. destruct (flag_dirty fl); [by left|right; auto]. }
  destruct Hr; [by eapply Hgen|by eapply Hgen|by eapply Hgen|done].
Qed.

(** What a commit promises: every node of the tree of the map is in the node
    set or was in the store, and the node set holds nothing but nodes of that
    tree, under their hashes, and deletions. *)
Definition commit_keeps (m : gmap bytes bytes) (ons : option NodeSet) : Prop :=
  match tree_of m with
  | None => ∀ ns p mn, ons = Some ns → ns_nodes ns !! p = Some mn → isDeleted mn = true
  | Some t =>
      let nodes := match ons with Some ns => ns_nodes ns | None => ∅ end in
      kept full rd [] nodes t ∧ kept_below full rd [] nodes t
      ∧ ∀ p mn, nodes !! p = Some mn → entry_of t mn
  end.
End correct.

Section commit.
Context `{RlpOps, CryptoOps, !RlpLaws, !CryptoLaws}.

Lemma markDeletions_deleted t owner al p mn :
  ns_nodes (markDeletions t (NewNodeSet owner al)) !! p = Some mn → isDeleted mn = true.
Proof.
  unfold markDeletions. revert p mn. induction (elements (deletes t)) as [|q l IH]; intros p mn; simpl.
  - by rewrite lookup_empty.
  - destruct (ns_accessList _ !! q); [|apply IH]. simpl.
    destruct (decide (p = q)) as [->|]; [|rewrite lookup_insert_ne by done; apply IH].
    rewrite lookup_insert_eq. intros [= <-]. unfold isDeleted. by rewrite bool_decide_true.
Qed.

Lemma Trie_Commit_lemma full hs m T schedule collectLeaf :
  schedule ≡ₚ seq 0 16 → holds_map full hs m T →
  ∃ T' ons, Trie_Commit schedule collectLeaf T = (T', Ok (map_root m, ons))
    ∧ commit_keeps full (t_reader T) m ons ∧ t_tracer T' = newTracer.
Proof.
  intros Hp Hh. unfold Trie_Commit. set (nodes := markDeletions _ _).
  destruct (Trie_Hash_lemma full hs m T schedule Hp Hh) as (E & Hh' & Erd).
  pose proof (holds_map_tree _ _ _ _ Hh) as [Hr0 _].
  pose proof (holds_map_tree _ _ _ _ Hh') as [Hr Hw].
  unfold commit_keeps, map_root in *.
  destruct (Trie_Hash schedule T) as [T1 r] eqn:EH. simpl in *. subst r. rewrite Erd in Hr.
  destruct (tree_of m) as [t|]; cbn [repr_opt wf_opt from_option] in *.
  - assert (t_root T ≠ nilNode) as Hnn by (by eapply repr_not_nil, repr_weaken).
    assert (∃ T' ons,
      match cache (t_root T1) with
      | Ok (hashedNode, false) =>
          (clear_tracer (set_root (match hashedNode with Some h => hashNode h | None => nilNode end) T1),
           Ok (root_hash (Some t), None))
      | Ok (_, true) =>
          match committer_Commit collectLeaf (t_root T1) nodes with
          | (nodes, Ok h) => (clear_tracer (set_root (hashNode h) T1), Ok (root_hash (Some t), Some nodes))
          | (_, Err e) => (clear_tracer T1, Err e)
          | (_, Panic w) => (clear_tracer T1, Panic w)
          | (_, OutOfFuel) => (clear_tracer T1, OutOfFuel)
          end
      | Err e => (clear_tracer T1, Err e)
      | Panic w => (clear_tracer T1, Panic w)
      | OutOfFuel => (clear_tracer T1, OutOfFuel)
      end = (T', Ok (root_hash (Some t), ons))
      ∧ (let nodes := match ons with Some ns => ns_nodes ns | None => ∅ end in
         kept full (t_reader T) [] nodes t ∧ kept_below full (t_reader T) [] nodes t
         ∧ ∀ p mn, nodes !! p = Some mn → entry_of t mn)
      ∧ t_tracer T' = newTracer) as Hgoal.
    { destruct (commit_spec full (t_reader T) collectLeaf true true t (t_root T1) Hr eq_refl Hw [] nodes)
        as (set' & n' & Hcm & _ & Ho & _ & _ & Hb & Hk).
      destruct (Hk (or_introl eq_refl)) as [Hk' ->].
      assert (He : ∀ p mn, ns_nodes set' !! p = Some mn → entry_of t mn).
      { intros p mn Hl. destruct (Ho p mn Hl) as [Hl'|]; [|done]. left.
        by eapply markDeletions_deleted. }
      assert (Hcc : committer_Commit collectLeaf (t_root T1) nodes = (set', Ok (keccak256 (tenc t)))).
      { unfold committer_Commit. by rewrite (bind_step _ _ _ _ _ Hcm). }
      destruct (decide (resolved (t_root T1))) as [Hres|Hres].
      - destruct (cache_repr full (t_reader T) true true t (t_root T1) Hr Hres) as (h & d & -> & Hn & Hcl).
        destruct d; [rewrite Hcc; eexists _, (Some set'); done|].
        eexists _, None. split; [done|]. split; [|done].
        destruct h as [h|]; [|by destruct (Hn eq_refl) as [|[]]].
        destruct (Hcl eq_refl h eq_refl) as (_ & Ha & Hs).
        split; [by right|split; [by apply stored_kept_below|]].
        intros p mn Hl. by rewrite lookup_empty in Hl.
      - destruct (t_root T1); try done. cbn [cache]. rewrite Hcc. eexists _, (Some set'). done. }
    destruct (t_root T); try done; apply Hgoal.
  - rewrite Hr0. eexists _, (Some nodes). split; [done|]. split; [|done].
    intros ns p mn [= <-]. apply markDeletions_deleted.
Qed.
End commit.
