(* ===== verification/Database.v ===== *)
(** * The trie database: database.go, preimages.go and internal/util.go

    An in-memory layer of reference-counted dirty nodes and an optional clean
    cache in front of a content-addressed store.  Sizes ([common.StorageSize], a
    float64 that only ever holds integers here) are integers; timers and metrics
    are left out. *)
From S2P Require Import Prelude Errors Geth Encoding Node Reader NodeSet.
Local Open Scope Z_scope.

(** ** Data *)

(** [cachedNode]; [children] is [None] for the nil map. *)
Record cachedNode := CachedNode {
  cn_node : node;
  cn_size : Z;
  cn_parents : Z;
  cn_children : option (gmap bytes Z);
  cn_flushPrev : bytes;
  cn_flushNext : bytes
}.

Definition cn_set_children (c : option (gmap bytes Z)) (n : cachedNode) : cachedNode :=
  CachedNode (cn_node n) (cn_size n) (cn_parents n) c (cn_flushPrev n) (cn_flushNext n).
Definition cn_set_parents (p : Z) (n : cachedNode) : cachedNode :=
  CachedNode (cn_node n) (cn_size n) p (cn_children n) (cn_flushPrev n) (cn_flushNext n).
Definition cn_set_prev (h : bytes) (n : cachedNode) : cachedNode :=
  CachedNode (cn_node n) (cn_size n) (cn_parents n) (cn_children n) h (cn_flushNext n).
Definition cn_set_next (h : bytes) (n : cachedNode) : cachedNode :=
  CachedNode (cn_node n) (cn_size n) (cn_parents n) (cn_children n) (cn_flushPrev n) h.

(** [reflect.TypeOf(cachedNode{}).Size()] on a 64-bit machine. *)
Definition cachedNodeSize : Z := 96.
Definition cachedNodeChildrenSize : Z := 48.

Definition u32 (z : Z) : Z := z mod 2 ^ 32.

Section database.
Context `{RlpOps, CryptoOps, DiskOps, CacheOps, AccountOps}.

(** preimages.go *)
Record preimageStore := PreimageStore {
  ps_disk : disk;
  ps_preimages : gmap bytes bytes;
  ps_preimagesSize : Z
}.

Definition newPreimageStore (d : disk) : preimageStore := PreimageStore d ∅ 0.

Definition insertPreimage1 (hash preimage : bytes) (s : preimageStore) : preimageStore :=
  match ps_preimages s !! hash with
  | Some _ => s
  | None => PreimageStore (ps_disk s) (<[hash := preimage]> (ps_preimages s))
              (ps_preimagesSize s + Z.of_nat (hashLen + length preimage))
  end.
Definition insertPreimage (preimages : gmap bytes bytes) (s : preimageStore) : preimageStore :=
  map_fold insertPreimage1 s preimages.

Definition preimage (hash : bytes) (s : preimageStore) : option bytes :=
  match ps_preimages s !! hash with
  | Some b => Some b
  | None => ReadPreimage (ps_disk s) hash
  end.

Definition ps_size (s : preimageStore) : Z := ps_preimagesSize s.

(** database.go *)
Record Database := MkDatabase {
  diskdb : disk;
  cleans : option cleanCache;
  dirties : gmap bytes cachedNode;
  oldest : bytes;
  newest : bytes;
  gcnodes : Z;
  gcsize : Z;
  dirtiesSize : Z;
  childrenSize : Z;
  preimages : option preimageStore
}.

Record Config := MkConfig { cfg_Cache : Z; cfg_Journal : string; cfg_Preimages : bool }.

Definition set_cleans (c : option cleanCache) (db : Database) : Database :=
  MkDatabase (diskdb db) c (dirties db) (oldest db) (newest db) (gcnodes db) (gcsize db)
    (dirtiesSize db) (childrenSize db) (preimages db).
Definition set_dirties (d : gmap bytes cachedNode) (db : Database) : Database :=
  MkDatabase (diskdb db) (cleans db) d (oldest db) (newest db) (gcnodes db) (gcsize db)
    (dirtiesSize db) (childrenSize db) (preimages db).
Definition set_oldest (h : bytes) (db : Database) : Database :=
  MkDatabase (diskdb db) (cleans db) (dirties db) h (newest db) (gcnodes db) (gcsize db)
    (dirtiesSize db) (childrenSize db) (preimages db).
Definition set_newest (h : bytes) (db : Database) : Database :=
  MkDatabase (diskdb db) (cleans db) (dirties db) (oldest db) h (gcnodes db) (gcsize db)
    (dirtiesSize db) (childrenSize db) (preimages db).
Definition set_gc (n s : Z) (db : Database) : Database :=
  MkDatabase (diskdb db) (cleans db) (dirties db) (oldest db) (newest db) n s
    (dirtiesSize db) (childrenSize db) (preimages db).
Definition add_dirtiesSize (d : Z) (db : Database) : Database :=
  MkDatabase (diskdb db) (cleans db) (dirties db) (oldest db) (newest db) (gcnodes db) (gcsize db)
    (dirtiesSize db + d) (childrenSize db) (preimages db).
Definition add_childrenSize (d : Z) (db : Database) : Database :=
  MkDatabase (diskdb db) (cleans db) (dirties db) (oldest db) (newest db) (gcnodes db) (gcsize db)
    (dirtiesSize db) (childrenSize db + d) (preimages db).

Definition NewDatabaseWithConfig (d : disk) (config : option Config) : Database :=
  let cleans := match config with
                | Some c => if bool_decide (0 < cfg_Cache c)
                            then Some (if bool_decide (cfg_Journal c = EmptyString)
                                       then cache_New (cfg_Cache c * 1024 * 1024)
                                       else cache_LoadFromFileOrNew (cfg_Journal c) (cfg_Cache c * 1024 * 1024))
                            else None
                | None => None
                end in
  let preimage := match config with
                  | Some c => if cfg_Preimages c then Some (newPreimageStore d) else None
                  | None => None
                  end in
  MkDatabase d cleans {[ zeroHash := CachedNode nilNode 0 0 (Some ∅) zeroHash zeroHash ]}
    zeroHash zeroHash 0 0 0 0 preimage.
Definition NewDatabase (d : disk) : Database := NewDatabaseWithConfig d None.

(** internal/util.go *)
Definition Keccak256ToCid (codec : Z) (h : bytes) : result bytes :=
  match multihash_Encode h with
  | None => Err ErrCid
  | Some buf => Ok (NewCidV1 codec buf)
  end.

(** ** cachedNode methods (database_node.go) *)

Definition cn_rlp (n : cachedNode) : result bytes :=
  match cn_node n with
  | rawNode b => Ok b
  | _ => nodeToBytes (cn_node n)
  end.

Definition cn_obj (hash : bytes) (n : cachedNode) : result node :=
  match cn_node n with
  | rawNode b => mustDecodeNodeUnsafe (Some hash) b
  | _ => expandNode (Some hash) (cn_node n)
  end.

(** The children [forChilds] visits: the external ones (in some order), then
    those inside the node. *)
Definition forChilds (n : cachedNode) : result (list bytes) :=
  let external := match cn_children n with Some c => (map_to_list c).*1 | None => [] end in
  match cn_node n with
  | rawNode _ => Ok external
  | _ => inside ← forGatherChildren (cn_node n); Ok (external ++ inside)
  end.

(** ** Operations *)

Abbreviation D := (stateM Database error).

(** Follow the pointer [db.dirties[hash]]: nil panics. *)
Definition get_dirty (hash : bytes) : D cachedNode := λ db,
  match dirties db !! hash with
  | Some n => (db, Ok n)
  | None => (db, Panic "nil pointer dereference")
  end.
Definition put_dirty (hash : bytes) (n : cachedNode) : D unit :=
  modify (λ db, set_dirties (<[hash := n]> (dirties db)) db).
Definition upd_dirty (hash : bytes) (f : cachedNode → cachedNode) : D unit :=
  n ← get_dirty hash; put_dirty hash (f n).
Definition read {A} (f : Database → A) : D A := λ db, (db, Ok (f db)).

(** [if c := db.dirties[child]; c != nil { c.parents++ }]. *)
Definition bump_parents (child : bytes) (db : Database) : Database :=
  match dirties db !! child with
  | Some c => set_dirties (<[child := cn_set_parents (u32 (cn_parents c + 1)) c]> (dirties db)) db
  | None => db
  end.

Definition insert (hash : bytes) (size : Z) (n : node) : D unit :=
  known ← read (λ db, bool_decide (is_Some (dirties db !! hash)));
  if known : bool then mret tt
  else
    prev ← read newest;
    let entry := CachedNode n (u16 size) 0 None prev zeroHash in
    cs ← lift (forChilds entry);
    _ ← modify (λ db, foldl (λ db c, bump_parents c db) db cs);
    _ ← put_dirty hash entry;
    old ← read oldest;
    _ ← (if bool_decide (old = zeroHash) then
           _ ← modify (set_oldest hash); modify (set_newest hash)
         else
           new ← read newest;
           _ ← upd_dirty new (cn_set_next hash);
           modify (set_newest hash));
    (* [common.HashLength + entry.size] is a uint16 sum *)
    modify (add_dirtiesSize (u16 (Z.of_nat hashLen + cn_size entry))).

(** [Node]; a node read from disk is put into the clean cache. *)
Definition Node (hash : bytes) (codec : Z) : D bytes := λ db,
  if bool_decide (hash = zeroHash) then (db, Err ErrNotFound)
  else
    match (c ← cleans db; cache_Get c hash) with
    | Some enc => (db, Ok enc)
    | None =>
        match dirties db !! hash with
        | Some dirty => (db, cn_rlp dirty)
        | None =>
            match Keccak256ToCid codec hash with
            | Ok cid =>
                match disk_Get (diskdb db) cid with
                | None => (db, Err ErrDisk)
                | Some [] => (db, Err ErrNotFound)
                | Some enc =>
                    (set_cleans (c ← cleans db; Some (cache_Set hash enc c)) db, Ok enc)
                end
            | Err e => (db, Err e)
            | Panic w => (db, Panic w)
            | OutOfFuel => (db, OutOfFuel)
            end
        end
    end.

(** [Nodes], in some order. *)
Definition Nodes (db : Database) : list bytes :=
  filter (λ h, h ≠ zeroHash) (map_to_list (dirties db)).*1.

Definition reference (child parent : bytes) : D unit :=
  known ← read (λ db, bool_decide (is_Some (dirties db !! child)));
  if negb known then mret tt
  else
    p ← get_dirty parent;
    skip ← match cn_children p with
           | None =>
               _ ← put_dirty parent (cn_set_children (Some ∅) p);
               _ ← modify (add_childrenSize cachedNodeChildrenSize);
               mret false
           | Some cs => mret (bool_decide (is_Some (cs !! child)) && negb (bool_decide (parent = zeroHash)))
           end;
    if skip : bool then mret tt
    else
      _ ← upd_dirty child (λ n, cn_set_parents (u32 (cn_parents n + 1)) n);
      p ← get_dirty parent;
      let cs := default ∅ (cn_children p) in
      let count := u16 (default 0 (cs !! child) + 1) in
      _ ← put_dirty parent (cn_set_children (Some (<[child := count]> cs)) p);
      if bool_decide (count = 1) then modify (add_childrenSize (Z.of_nat hashLen + 2)) else mret tt.

(** Take one reference from [parent] to [child] away. *)
Definition drop_reference (child parent : bytes) : D unit :=
  p ← get_dirty parent;
  match cn_children p with
  | Some cs =>
      let count := default 0 (cs !! child) in
      if bool_decide (0 < count) then
        if bool_decide (count = 1) then
          _ ← put_dirty parent (cn_set_children (Some (base.delete child cs)) p);
          modify (add_childrenSize (- (Z.of_nat hashLen + 2)))
        else put_dirty parent (cn_set_children (Some (<[child := count - 1]> cs)) p)
      else mret tt
  | None => mret tt
  end.

(** Unlink a node from the flush-list. *)
Definition unlink (child : bytes) (node : cachedNode) : D unit :=
  old ← read oldest;
  new ← read newest;
  if bool_decide (child = old) then
    _ ← modify (set_oldest (cn_flushNext node));
    upd_dirty (cn_flushNext node) (cn_set_prev zeroHash)
  else if bool_decide (child = new) then
    _ ← modify (set_newest (cn_flushPrev node));
    upd_dirty (cn_flushPrev node) (cn_set_next zeroHash)
  else
    _ ← upd_dirty (cn_flushPrev node) (cn_set_next (cn_flushNext node));
    upd_dirty (cn_flushNext node) (cn_set_prev (cn_flushPrev node)).

(** A loop over the children found when it starts. *)
Definition forEach {A} (f : A → D unit) : list A → D unit :=
  fix go l := match l with [] => mret tt | a :: l => _ ← f a; go l end.

Fixpoint dereference (fuel : nat) (child parent : bytes) : D unit :=
  match fuel with
  | O => lift OutOfFuel
  | S fuel =>
      _ ← drop_reference child parent;
      known ← read (λ db, dirties db !! child);
      match known with
      | None => mret tt
      | Some node =>
          let parents := if bool_decide (0 < cn_parents node) then cn_parents node - 1 else cn_parents node in
          let node := cn_set_parents parents node in
          _ ← put_dirty child node;
          if bool_decide (parents = 0) then
            _ ← unlink child node;
            node ← get_dirty child;
            cs ← lift (forChilds node);
            _ ← forEach (λ h, dereference fuel h child) cs;
            _ ← modify (λ db, set_dirties (base.delete child (dirties db)) db);
            _ ← modify (add_dirtiesSize (- (Z.of_nat hashLen + cn_size node)));
            match cn_children node with
            | Some _ => modify (add_childrenSize (- cachedNodeChildrenSize))
            | None => mret tt
            end
          else mret tt
      end
  end.

(** A chain of cascading removals visits each dirty node at most once. *)
Definition Reference (child parent : bytes) : D unit := reference child parent.
Definition Dereference (root : bytes) : D unit := λ db,
  if bool_decide (root = zeroHash) then (db, Ok tt)
  else
    match dereference (S (S (size (dirties db)))) root zeroHash db with
    | (db', Ok _) =>
        (set_gc (gcnodes db' + (Z.of_nat (size (dirties db)) - Z.of_nat (size (dirties db'))))
           (gcsize db' + (dirtiesSize db - dirtiesSize db')) db', Ok tt)
    | r => r
    end.

(** The insertions of one node set, children before parents. *)
Definition insert_set (set : NodeSet) : D unit :=
  forEach (λ kv : bytes * memoryNode,
    if isDeleted kv.2 then mret tt else insert (mn_hash kv.2) (mn_size kv.2) (mn_node kv.2))
    (forEachWithOrder set).

(** [Update]; [owners] is the order in which Go's map iteration yields the
    non-zero owners, the account trie comes last. *)
Definition Update (owners : list bytes) (nodes : MergedNodeSet) : D unit :=
  let order := owners ++ match nodes !! zeroHash with Some _ => [zeroHash] | None => [] end in
  _ ← forEach (λ owner, match nodes !! owner with Some set => insert_set set | None => mret tt end) order;
  match nodes !! zeroHash with
  | None => mret tt
  | Some set =>
      forEach (λ n, match decode_StateAccount (leaf_blob n) with
                    | None => lift (Err ErrRlp)
                    | Some account =>
                        if bool_decide (acc_Root account ≠ EmptyRootHash)
                        then reference (acc_Root account) (leaf_parent n) else mret tt
                    end) (ns_leaves set)
  end.

Definition Size (db : Database) : Z * Z :=
  let metadataSize := (Z.of_nat (size (dirties db)) - 1) * cachedNodeSize in
  let metaroot := match dirties db !! zeroHash with
                  | Some n => match cn_children n with Some c => Z.of_nat (size c) | None => 0 end
                  | None => 0
                  end in
  (dirtiesSize db + childrenSize db + metadataSize - metaroot * (Z.of_nat hashLen + 2),
   match preimages db with Some s => ps_size s | None => 0 end).

(** ** The reader of a database *)

(** [GetReader]: the answers of [hashReader] on the database as it is.  The
    clean cache a read may fill does not change later answers. *)
Definition hashReader (db : Database) (codec : Z) : Reader := {|
  Reader_NodeBlob _ _ hash := (Node hash codec db).2;
  Reader_Node _ _ hash := blob ← (Node hash codec db).2; decodeNodeUnsafe (Some hash) blob
|}.
Definition GetReader (db : Database) : NodeReader := λ _ codec, Some (hashReader db codec).
End database.
