(* ===== verification/Persist.v ===== *)
(** * What the database keeps

    Facts about [Database]: reads do not disturb later reads, insertions keep
    every node readable, and a committed trie can be reopened by its root. *)
From S2P Require Import Prelude Errors Geth Encoding Node Mpt MptFacts Tracer Reader.
From S2P Require Import Trie Repr Refine Hasher TrieSpec NodeSet Committer Database.
Local Open Scope nat_scope.

Section persist.
Context `{RlpOps, CryptoOps, DiskOps, CacheOps, AccountOps}.
Abbreviation D := (stateM Database error).

(** The collapsed node held for a hash. *)
Definition content (db : Database) (h : bytes) : option node := cn_node <$> dirties db !! h.

(** Same nodes, same store: only counters, links and sizes may differ. *)
Definition same_content (db db' : Database) : Prop :=
  diskdb db' = diskdb db ∧ cleans db' = cleans db ∧ ∀ h, content db' h = content db h.

#[export] Instance same_content_preorder : PreOrder same_content.
Proof.
  split; [done|]. intros d1 d2 d3 (E1 & E2 & E3) (F1 & F2 & F3).
  split_and!; [congruence..|]. intros h. by rewrite F3.
Qed.

#[local] Hint Extern 0 (same_content _ _) => reflexivity : core.

(** A computation that, whatever its outcome, keeps the contents. *)
Definition keeps {A} (m : D A) : Prop := ∀ db, same_content db (m db).1.

Lemma keeps_bind {A B} (m : D A) (f : A → D B) : keeps m → (∀ a, keeps (f a)) → keeps (m ≫= f).
Proof.
  intros Hm Hf db. specialize (Hm db). mred. destruct (m db) as [db' [a|e|w|]]; simpl in *; try done.
  etrans; [done|apply Hf].
Qed.

Lemma keeps_ret {A} (a : A) : keeps (mret a).
Proof. by intros db. Qed.
Lemma keeps_lift {A} (o : result A) : keeps (lift o).
Proof. by intros db. Qed.
Lemma keeps_read {A} (f : Database → A) : keeps (read f).
Proof. by intros db. Qed.
Lemma keeps_modify f : (∀ db, same_content db (f db)) → keeps (modify f).
Proof. intros Hf db. apply Hf. Qed.
Lemma keeps_get_dirty h : keeps (get_dirty h).
Proof. intros db. unfold get_dirty. by destruct (dirties db !! h). Qed.

(** Replacing an entry by one with the same node. *)
Lemma same_content_put db h n n' :
  dirties db !! h = Some n → cn_node n' = cn_node n →
  same_content db (set_dirties (<[h := n']> (dirties db)) db).
Proof.
  intros Hh Hn. split_and!; [done..|]. intros h'. unfold content. simpl.
  destruct (decide (h' = h)) as [->|]; [|by rewrite lookup_insert_ne].
  rewrite lookup_insert_eq, Hh. simpl. by rewrite Hn.
Qed.

Lemma keeps_upd_dirty h f : (∀ n, cn_node (f n) = cn_node n) → keeps (upd_dirty h f).
Proof.
  intros Hf db. unfold upd_dirty, get_dirty, put_dirty. mred.
  destruct (dirties db !! h) as [n|] eqn:E; [|done]. eapply same_content_put; [exact E|apply Hf].
Qed.

(** After reading an entry, write it back with the same node. *)
Lemma keeps_get_put {B} h (f : cachedNode → cachedNode) (k : cachedNode → unit → D B) :
  (∀ n, cn_node (f n) = cn_node n) → (∀ n u, keeps (k n u)) →
  keeps (n ← get_dirty h; u ← put_dirty h (f n); k n u).
Proof.
  intros Hf Hk db. unfold get_dirty, put_dirty. mred.
  destruct (dirties db !! h) as [n|] eqn:E; [|done].
  etrans; [|apply Hk]. eapply same_content_put; [exact E|apply Hf].
Qed.

Lemma keeps_forEach {A} (f : A → D unit) l : (∀ a, keeps (f a)) → keeps (forEach f l).
Proof.
  intros Hf. induction l as [|a l IH]; [apply keeps_ret|]. apply keeps_bind; [done|]. by intros.
Qed.

Lemma keeps_reference child parent : keeps (reference child parent).
Proof.
  unfold reference. apply keeps_bind; [apply keeps_read|]. intros [|]; simpl; [|apply keeps_ret].
  intros db. destruct (dirties db !! parent) as [p|] eqn:Ep.
  2:{ unfold mbind, stateM_bind. unfold get_dirty at 1. by rewrite Ep. }
  rewrite (bind_step _ _ db db p) by (unfold get_dirty; by rewrite Ep).
  assert (Hrest : keeps (
      _ ← upd_dirty child (λ n, cn_set_parents (u32 (cn_parents n + 1)) n);
      p ← get_dirty parent;
      let cs := default ∅ (cn_children p) in
      let count := u16 (default 0%Z (cs !! child) + 1) in
      _ ← put_dirty parent (cn_set_children (Some (<[child := count]> cs)) p);
      if bool_decide (count = 1%Z) then modify (add_childrenSize (Z.of_nat hashLen + 2)) else mret tt)).
  { apply keeps_bind; [by apply keeps_upd_dirty|]. intros _.
    apply (keeps_get_put _ (λ p, cn_set_children
       (Some (<[child := u16 (default 0%Z (default ∅ (cn_children p) !! child) + 1)]> (default ∅ (cn_children p)))) p));
      [done|]. intros n _. case_bool_decide; [by apply keeps_modify|apply keeps_ret]. }
  destruct (cn_children p) as [cs|].
  - rewrite (bind_step _ _ db db (bool_decide (is_Some (cs !! child)) && negb (bool_decide (parent = zeroHash))))
      by done.
    destruct (_ && _); [done|apply Hrest].
  - rewrite (bind_step _ _ db (add_childrenSize cachedNodeChildrenSize
      (set_dirties (<[parent := cn_set_children (Some ∅) p]> (dirties db)) db)) false) by done.
    etrans; [|apply Hrest]. by eapply (same_content_put db parent p (cn_set_children (Some ∅) p)).
Qed.

(** ** Reads *)

Context `{!CacheLaws}.

(** The cache answers as the rest of the database would. *)
Definition coherent (codec : Z) (db : Database) : Prop :=
  ∀ c h b, cleans db = Some c → cache_Get c h = Some b → h ≠ zeroHash →
    (Node h codec (set_cleans None db)).2 = Ok b.


(** A database that was just opened, not from a journal, is coherent. *)
Lemma NewDatabase_coherent codec d config :
  match config with Some c => cfg_Journal c = EmptyString | None => True end →
  coherent codec (NewDatabaseWithConfig d config).
Proof.
  intros Hj c h b. unfold NewDatabaseWithConfig. simpl. destruct config as [cfg|]; [|done].
  case_bool_decide; [|done]. rewrite bool_decide_true by done. intros [= <-]. by rewrite cache_New_empty.
Qed.



(** ** Insertions *)

(** The flush-list has an end to append to. *)
Definition db_wf (db : Database) : Prop :=
  is_Some (dirties db !! zeroHash) ∧ (oldest db ≠ zeroHash → is_Some (dirties db !! newest db)).

(** A node whose children can be gathered. *)
Definition gatherable (n : node) : Prop := ∃ l, forGatherChildren n = Ok l.

Lemma content_is_Some db h : is_Some (content db h) ↔ is_Some (dirties db !! h).
Proof. unfold content. by rewrite fmap_is_Some. Qed.

Lemma bump_parents_same c db :
  same_content db (bump_parents c db) ∧ oldest (bump_parents c db) = oldest db
  ∧ newest (bump_parents c db) = newest db.
Proof.
  unfold bump_parents. destruct (dirties db !! c) as [n|] eqn:E; [|done].
  split; [|done]. by eapply same_content_put.
Qed.

Lemma bump_all_same cs db :
  same_content db (foldl (λ db c, bump_parents c db) db cs)
  ∧ oldest (foldl (λ db c, bump_parents c db) db cs) = oldest db
  ∧ newest (foldl (λ db c, bump_parents c db) db cs) = newest db.
Proof.
  revert db. induction cs as [|c cs IH]; intros db; [done|]. simpl.
  destruct (IH (bump_parents c db)) as (H1' & H2' & H3'), (bump_parents_same c db) as (F1 & F2 & F3).
  split_and!; [by etrans|congruence|congruence].
Qed.

(** What an insertion does to the contents. *)
Definition inserted (h : bytes) (n : node) (db db' : Database) : Prop :=
  diskdb db' = diskdb db ∧ cleans db' = cleans db
  ∧ ∀ h', content db' h' = match content db h' with
                           | Some x => Some x
                           | None => if decide (h' = h) then Some n else None
                           end.

Lemma forChilds_ok n size prev :
  gatherable n → ∃ l, forChilds (CachedNode n size 0 None prev zeroHash) = Ok l.
Proof. intros [l Hl]. unfold forChilds. simpl. rewrite Hl. destruct n; by eexists. Qed.

Lemma same_content_inserted h n d1 d2 d3 :
  inserted h n d1 d2 → same_content d2 d3 → inserted h n d1 d3.
Proof.
  intros (E1 & E2 & E3) (F1 & F2 & F3). split_and!; [congruence..|]. intros h'. by rewrite F3.
Qed.

Lemma insert_lemma h size n db :
  db_wf db → gatherable n →
  ∃ db', Database.insert h size n db = (db', Ok tt) ∧ db_wf db' ∧ inserted h n db db'.
Proof.
  intros [Hz Hnew] Hg. unfold Database.insert.
  rewrite (bind_step _ _ db db (bool_decide (is_Some (dirties db !! h)))) by done.
  case_bool_decide as Hin.
  { exists db. split; [done|]. split; [done|]. split_and!; [done..|]. intros h'.
    destruct (decide (h' = h)) as [->|]; [|by destruct (content db h')].
    apply content_is_Some in Hin as [x Hx]. by rewrite Hx. }
  rewrite (bind_step _ _ db db (newest db)) by done.
  destruct (forChilds_ok n (u16 size) (newest db) Hg) as [cs Hcs]. rewrite Hcs, lift_step.
  set (db1 := foldl (λ db c, bump_parents c db) db cs).
  rewrite (bind_step _ _ db db1 tt) by done.
  destruct (bump_all_same cs db) as ((S1 & S2 & S3) & So & Sn). fold db1 in S1, S2, S3, So, Sn.
  set (entry := CachedNode n (u16 size) 0 None (newest db) zeroHash).
  set (db2 := set_dirties (<[h := entry]> (dirties db1)) db1).
  rewrite (bind_step _ _ db1 db2 tt) by done.
  rewrite (bind_step _ _ db2 db2 (oldest db)) by (unfold read; by rewrite <- So).
  assert (Hins : inserted h n db db2).
  { split_and!; [done..|]. intros h'. unfold content. simpl.
    destruct (decide (h' = h)) as [->|].
    - rewrite lookup_insert_eq. destruct (dirties db !! h) eqn:E; [|done]. by destruct Hin; eexists.
    - rewrite lookup_insert_ne by done. specialize (S3 h'). unfold content in S3. rewrite S3.
      by destruct (dirties db !! h'). }
  assert (Hz2 : is_Some (dirties db2 !! zeroHash)).
  { apply content_is_Some. destruct Hins as (_ & _ & ->). apply content_is_Some in Hz as [x ->].
    by eexists. }
  case_bool_decide as Hold.
  - eexists. split; [done|]. split.
    + split; [done|]. intros _. simpl. rewrite lookup_insert_eq. by eexists.
    + eapply same_content_inserted; [exact Hins|done].
  - specialize (Hnew Hold).
    assert (is_Some (dirties db2 !! newest db2)) as [e He].
    { unfold db2. cbn [newest set_dirties]. rewrite Sn. apply content_is_Some.
      destruct Hins as (_ & _ & E). fold db2. rewrite E. apply content_is_Some in Hnew as [x ->]. by eexists. }
    set (db3 := set_dirties (<[newest db2 := cn_set_next h e]> (dirties db2)) db2).
    assert (Hs3 : same_content db2 db3) by (by eapply same_content_put).
    rewrite (bind_step _ _ db2 (set_newest h db3) tt).
    2:{ rewrite (bind_step _ _ db2 db2 (newest db2)) by done.
        rewrite (bind_step _ _ db2 db3 tt); [done|].
        unfold upd_dirty. rewrite (bind_step _ _ db2 db2 e) by (unfold get_dirty; by rewrite He). done. }
    eexists. split; [done|]. destruct (Hs3) as (_ & _ & Hc3). split.
    + split.
      * apply content_is_Some. change (is_Some (content db3 zeroHash)). rewrite Hc3.
        by apply content_is_Some.
      * intros _. apply content_is_Some. change (is_Some (content db3 h)). rewrite Hc3.
        apply content_is_Some. simpl. rewrite lookup_insert_eq. by eexists.
    + eapply same_content_inserted; [exact Hins|]. etrans; [exact Hs3|done].
Qed.

(** What a series of insertions of the entries [P] does to the contents. *)
Definition grown (P : memoryNode → Prop) (db db' : Database) : Prop :=
  diskdb db' = diskdb db ∧ cleans db' = cleans db
  ∧ (∀ h x, content db h = Some x → content db' h = Some x)
  ∧ (∀ h x, content db' h = Some x →
       content db h = Some x ∨ ∃ mn, P mn ∧ isDeleted mn = false ∧ mn_hash mn = h ∧ mn_node mn = x).

Lemma grown_refl P db : grown P db db.
Proof. split_and!; auto. Qed.

Lemma grown_trans P d1 d2 d3 : grown P d1 d2 → grown P d2 d3 → grown P d1 d3.
Proof.
  intros (E1 & E2 & E3 & E4) (F1 & F2 & F3 & F4). split_and!; [congruence..|auto|].
  intros h x Hx. destruct (F4 h x Hx) as [Hx'|]; auto.
Qed.

Lemma grown_mono (P Q : memoryNode → Prop) db db' : (∀ mn, P mn → Q mn) → grown P db db' → grown Q db db'.
Proof.
  intros HPQ (E1 & E2 & E3 & E4). split_and!; try done. intros h x Hx.
  destruct (E4 h x Hx) as [|(mn & ? & ?)]; [by left|right; eauto].
Qed.

Lemma insert_entries l db :
  db_wf db → Forall (λ kv : bytes * memoryNode, isDeleted kv.2 = true ∨ gatherable (mn_node kv.2)) l →
  ∃ db', forEach (λ kv : bytes * memoryNode,
           if isDeleted kv.2 then mret tt
           else Database.insert (mn_hash kv.2) (mn_size kv.2) (mn_node kv.2)) l db = (db', Ok tt)
    ∧ db_wf db' ∧ grown (λ mn, mn ∈ l.*2) db db'
    ∧ ∀ kv, kv ∈ l → isDeleted kv.2 = false → is_Some (content db' (mn_hash kv.2)).
Proof.
  revert db. induction l as [|kv l IH]; intros db Hwf Hl.
  { exists db. split; [done|]. split; [done|]. split; [apply grown_refl|]. by intros kv ?%not_elem_of_nil. }
  inversion Hl as [|?? Hkv Hl']; subst.
  assert (∃ db1, (if isDeleted kv.2 then mret tt
           else Database.insert (mn_hash kv.2) (mn_size kv.2) (mn_node kv.2)) db = (db1, Ok tt)
    ∧ db_wf db1 ∧ grown (λ mn, mn ∈ (kv :: l).*2) db db1
    ∧ (isDeleted kv.2 = false → is_Some (content db1 (mn_hash kv.2)))) as (db1 & E1 & Hwf1 & Hg1 & Hin1).
  { destruct (isDeleted kv.2) eqn:Ed.
    - exists db. split; [done|]. split; [done|]. split; [apply grown_refl|done].
    - destruct Hkv as [|Hg]; [congruence|].
      destruct (insert_lemma (mn_hash kv.2) (mn_size kv.2) (mn_node kv.2) db Hwf Hg)
        as (db1 & E & Hwf1 & E1 & E2 & E3).
      exists db1. split; [done|]. split; [done|]. split.
      + split_and!; [done|done| |].
        * intros h x Hx. by rewrite E3, Hx.
        * intros h x. rewrite E3. destruct (content db h) eqn:Eh; [by left|].
          case_decide; [|done]. intros [= <-]. right. exists kv.2. subst. split_and!; [by left|done..].
      + intros _. rewrite E3. destruct (content db (mn_hash kv.2)); [by eexists|].
        rewrite decide_True by done. by eexists. }
  destruct (IH db1 Hwf1 Hl') as (db2 & E2 & Hwf2 & Hg2 & Hin2).
  exists db2. split; [|split; [done|split]].
  - cbn [forEach]. by rewrite (bind_step _ _ _ _ _ E1).
  - eapply grown_trans; [done|]. eapply grown_mono, Hg2. intros mn Hmn. by right.
  - intros kv' [->|Hkv']%elem_of_cons Hd; [|by apply Hin2].
    destruct (Hin1 Hd) as [x Hx]. destruct Hg2 as (_ & _ & Hg2 & _). rewrite (Hg2 _ _ Hx). by eexists.
Qed.

Lemma insert_set_lemma set db :
  db_wf db → (∀ p mn, ns_nodes set !! p = Some mn → isDeleted mn = true ∨ gatherable (mn_node mn)) →
  ∃ db', insert_set set db = (db', Ok tt) ∧ db_wf db'
    ∧ grown (λ mn, ∃ p, ns_nodes set !! p = Some mn) db db'
    ∧ ∀ p mn, ns_nodes set !! p = Some mn → isDeleted mn = false → is_Some (content db' (mn_hash mn)).
Proof.
  intros Hwf Hs.
  assert (Hin : ∀ kv, kv ∈ forEachWithOrder set ↔ ns_nodes set !! kv.1 = Some kv.2).
  { intros [p mn]. rewrite forEachWithOrder_perm. apply elem_of_map_to_list. }
  destruct (insert_entries (forEachWithOrder set) db Hwf) as (db' & E & Hwf' & Hg & Hi).
  { apply Forall_forall. intros kv Hkv%Hin. by eapply Hs. }
  exists db'. split; [done|]. split; [done|]. split.
  - eapply grown_mono, Hg. intros mn Hmn. apply list_elem_of_fmap in Hmn as (kv & -> & Hkv).
    exists kv.1. by apply Hin.
  - intros p mn Hp. by apply (Hi (p, mn)), Hin.
Qed.

(** Updating the database with the node set of one trie. *)
Lemma Update_single_lemma set owners db :
  db_wf db → owners ≡ₚ filter (λ o, o ≠ zeroHash) [ns_owner set] →
  (∀ p mn, ns_nodes set !! p = Some mn → isDeleted mn = true ∨ gatherable (mn_node mn)) →
  let db' := (Database.Update owners (NewWithNodeSet set) db).1 in
  grown (λ mn, ∃ p, ns_nodes set !! p = Some mn) db db'
  ∧ ∀ p mn, ns_nodes set !! p = Some mn → isDeleted mn = false → is_Some (content db' (mn_hash mn)).
Proof.
  intros Hwf Ho Hs. cbn zeta.
  destruct (insert_set_lemma set db Hwf Hs) as (db1 & E1 & _ & Hg & Hi).
  assert (Hm : ∀ o, NewWithNodeSet set !! o = if decide (o = ns_owner set) then Some set else None).
  { intros o. unfold NewWithNodeSet, Merge, NewMergedNodeSet. rewrite lookup_empty. simpl.
    case_decide as Eo; [subst; apply lookup_insert_eq|by rewrite lookup_insert_ne by done]. }
  assert (Horder : owners ++ match NewWithNodeSet set !! zeroHash with Some _ => [zeroHash] | None => [] end
                   = [ns_owner set]).
  { rewrite Hm. destruct (decide (ns_owner set = zeroHash)) as [E|E].
    - rewrite decide_True by done. rewrite filter_cons_False in Ho by tauto.
      apply Permutation_nil_r in Ho as ->. by rewrite E.
    - rewrite decide_False, app_nil_r by congruence. rewrite filter_cons_True in Ho by done.
      by apply Permutation_singleton_r in Ho as ->. }
  unfold Database.Update. rewrite Horder.
  rewrite (bind_step _ _ db db1 tt).
  2:{ cbn [forEach]. rewrite Hm, decide_True by done. by rewrite (bind_step _ _ _ _ _ E1). }
  assert (Hsame : ∀ m : D unit, keeps m → grown (λ mn, ∃ p, ns_nodes set !! p = Some mn) db (m db1).1
      ∧ ∀ p mn, ns_nodes set !! p = Some mn → isDeleted mn = false →
          is_Some (content (m db1).1 (mn_hash mn))).
  { intros m Hk. destruct (Hk db1) as (K1 & K2 & K3). destruct Hg as (G1 & G2 & G3 & G4). split.
    - split_and!; [congruence..| |]; intros h x; rewrite K3; auto.
    - intros p mn Hp Hd. rewrite K3. by eapply Hi. }
  destruct (NewWithNodeSet set !! zeroHash); apply Hsame; [|apply keeps_ret].
  apply keeps_forEach. intros lf. destruct (decode_StateAccount _); [|apply keeps_lift].
  case_bool_decide; [apply keeps_reference|apply keeps_ret].
Qed.
End persist.

(** ** A committed trie can be reopened *)

Section reopen.
Context `{RlpOps, CryptoOps, DiskOps, CacheOps, AccountOps, !RlpLaws, !CryptoLaws}.

(** The reader that [New] makes over a database. *)
Definition db_reader (owner : bytes) (codec : Z) (db : Database) : trieReader :=
  TrieReader owner (Some (hashReader db codec)) None.

Definition node_rlp (n : node) : result bytes :=
  match n with rawNode b => Ok b | _ => nodeToBytes n end.

Lemma db_reader_available owner codec db t :
  available true (db_reader owner codec db) t ↔
  (Node (keccak256 (tenc t)) codec db).2 = Ok (tenc t).
Proof.
  unfold available, answers, nodeBlob. simpl. rewrite BytesToHash_id by apply keccak256_length.
  assert (tenc t ≠ []) as Hne.
  { destruct (tenc_list t) as [p ->]. pose proof (rlp_List_length p). intros E. rewrite E in *. simpl in *. lia. }
  split.
  - intros Ha. destruct (Ha []) as [E|[? _]]; [|done].
    destruct (Node _ codec db) as [db' [[|b bs]|e|w|]]; simpl in *; try done.
  - intros E path. left. rewrite E. by destruct (tenc t).
Qed.

(** No two nodes of the tree, and no node of the tree and blob of the database,
    have the same hash without being the same; no hash is zero. *)
Definition collision_free (db : Database) (t : tree) : Prop :=
  (∀ c c', c ∈ subtrees t → c' ∈ subtrees t → keccak256 (tenc c) = keccak256 (tenc c') → tenc c = tenc c')
  ∧ ∀ c, c ∈ subtrees t → keccak256 (tenc c) ≠ zeroHash
      ∧ (∀ n, content db (keccak256 (tenc c)) = Some n → node_rlp n = Ok (tenc c))
      ∧ (∀ cl b, cleans db = Some cl → cache_Get cl (keccak256 (tenc c)) = Some b → b = tenc c).

Lemma kept_readable owner codec db db' t c nodes :
  collision_free db t → c ∈ subtrees t →
  grown (entry_of t) db db' →
  (∀ p mn, nodes !! p = Some mn → isDeleted mn = false → is_Some (content db' (mn_hash mn))) →
  kept true (db_reader owner codec db) [] nodes c →
  available true (db_reader owner codec db') c.
Proof.
  intros [Hcf1 Hcf2] Hc (G1 & G2 & G3 & G4) Hin Hk. apply db_reader_available.
  destruct (Hcf2 c Hc) as (Hz & Hd & Hcl). unfold Node. rewrite bool_decide_false by done. rewrite G2.
  destruct (cleans db ≫= λ cl, cache_Get cl (keccak256 (tenc c))) as [enc|] eqn:Ecl.
  { simpl. f_equal. destruct (cleans db) as [cl|]; [|done]. by eapply Hcl. }
  destruct (dirties db' !! keccak256 (tenc c)) as [e|] eqn:Ed; simpl.
  - change (cn_rlp e) with (node_rlp (cn_node e)).
    assert (content db' (keccak256 (tenc c)) = Some (cn_node e)) as Hcon
      by (unfold content; by rewrite Ed).
    destruct (G4 _ _ Hcon) as [Hold|(mn & He & Hdel & Hh & Hn)]; [by apply Hd|].
    destruct He as [|(c' & Hc' & Hh' & Hr & _)]; [congruence|].
    rewrite <- Hn, (Hcf1 c c'); [done|done|done|congruence].
  - destruct Hk as [(path & mn & _ & Hp & Hh & Hr)|Ha].
    { destruct (Hin _ _ Hp) as [x Hx]; [unfold isDeleted; rewrite bool_decide_false; congruence|].
      unfold content in Hx. by rewrite Hh, Ed in Hx. }
    apply db_reader_available in Ha. unfold Node in Ha. rewrite bool_decide_false, Ecl in Ha by done.
    assert (dirties db !! keccak256 (tenc c) = None) as Hnone.
    { destruct (dirties db !! keccak256 (tenc c)) as [e|] eqn:E; [|done].
      assert (content db' (keccak256 (tenc c)) = Some (cn_node e)) as Hcon
        by (apply G3; unfold content; by rewrite E).
      unfold content in Hcon. by rewrite Ed in Hcon. }
    rewrite Hnone, <- G1 in Ha. destruct (Keccak256ToCid codec _) as [cid|e|w|]; try done.
    by destruct (disk_Get (diskdb db') cid) as [[|]|].
Qed.

Lemma kept_stored rd rd' nodes t0 t :
  (∀ c, c ∈ subtrees t0 → kept true rd [] nodes c → available true rd' c) →
  (∀ c, c ∈ subtrees t → c ∈ subtrees t0) →
  kept_below true rd [] nodes t → stored_below true rd' t.
Proof.
  intros Hk. induction t as [k v|k c IH|cs ov IH] using tree_induction; intros Hsub Hb; [done| |].
  - destruct Hb as [Hb1 Hb2].
    assert (∀ x, x ∈ subtrees c → x ∈ subtrees t0) as Hsub' by (intros x Hx; apply Hsub; by right).
    split; [|by apply IH]. intros Hby. apply Hk; [apply Hsub', subtrees_self|auto].
  - cbn [stored_below]. apply allP_Forall, Forall_lookup. intros i [c|] Hi; [|done].
    rewrite kept_below_full in Hb. destruct (Hb i c Hi) as [Hb1 Hb2].
    assert (∀ x, x ∈ subtrees c → x ∈ subtrees t0) as Hsub'
      by (intros x Hx; apply Hsub; by eapply subtrees_child).
    split; [|by apply (IH i)]. intros Hby. apply Hk; [apply Hsub', subtrees_self|auto].
Qed.

(** The database after the node set of a commit, if any, was written to it. *)
Definition written (owners : list bytes) (ons : option NodeSet) (db : Database) : Database :=
  match ons with Some ns => (Database.Update owners (NewWithNodeSet ns) db).1 | None => db end.

Lemma reopen_lemma owner codec db m t ons owners (id : ID) :
  db_wf db → tree_of m = Some t → map_ok m → collision_free db t →
  keccak256 (tenc t) ≠ EmptyRootHash →
  commit_keeps true (db_reader owner codec db) m ons →
  (∀ ns, ons = Some ns → owners ≡ₚ filter (λ o, o ≠ zeroHash) [ns_owner ns]) →
  id_Root id = map_root m →
  ∃ T, New id (GetReader (written owners ons db)) codec = Ok T ∧ holds_map true true m T.
Proof.
  intros Hwf Ht Hok Hcf Hne Hk Ho Hid. unfold commit_keeps in Hk. rewrite Ht in Hk.
  destruct Hk as (Hk & Hb & He). destruct (tree_of_models m Hok) as [Hw Hm]. rewrite Ht in Hw, Hm.
  set (db' := written owners ons db).
  assert (grown (entry_of t) db db'
    ∧ ∀ p mn, (match ons with Some ns => ns_nodes ns | None => ∅ end) !! p = Some mn →
        isDeleted mn = false → is_Some (content db' (mn_hash mn))) as [Hg Hin].
  { unfold db', written. destruct ons as [ns|].
    - destruct (Update_single_lemma ns owners db Hwf (Ho ns eq_refl)) as [Hg Hin].
      + intros p mn Hp. destruct (He p mn Hp) as [|(c & _ & _ & _ & Hl)]; [by left|by right].
      + split; [|done]. eapply grown_mono, Hg. intros mn [p Hp]. by eapply He.
    - split; [apply grown_refl|]. intros p mn Hp. by rewrite lookup_empty in Hp. }
  assert (Hav : ∀ c, c ∈ subtrees t →
    kept true (db_reader owner codec db) [] (match ons with Some ns => ns_nodes ns | None => ∅ end) c →
    available true (db_reader (id_Owner id) codec db') c).
  { intros c Hc Hkc. pose proof (kept_readable owner codec db db' t c _ Hcf Hc Hg Hin Hkc) as Ha.
    rewrite db_reader_available in *. done. }
  assert (Hroot : id_Root id = keccak256 (tenc t)) by (rewrite Hid; unfold map_root; by rewrite Ht).
  assert (Hz : id_Root id ≠ zeroHash) by (rewrite Hroot; apply Hcf, subtrees_self).
  assert (Ha : available true (db_reader (id_Owner id) codec db') t)
    by (apply Hav; [apply subtrees_self|done]).
  pose proof (New_lemma true id (GetReader db') codec (db_reader (id_Owner id) codec db') t m
    eq_refl Hw Hm Hroot Hz ltac:(by rewrite Hroot) Ha (kept_stored _ _ _ t t Hav (λ _ Hx, Hx) Hb)) as HN.
  destruct (New id (GetReader db') codec) as [T|e|w|]; [|by destruct HN|done|done].
  exists T. split; [done|]. apply HN.
Qed.
End reopen.

(** ** Properties *)

Section properties.
Context `{RlpOps, CryptoOps, DiskOps, CacheOps, AccountOps, !RlpLaws, !CryptoLaws, !CacheLaws}.

(** C10: committing a trie that sits on a database, writing the collected node
    set to the database and opening a trie by the returned root gives a trie
    that holds exactly the map of the committed one, with every node readable.
    This holds whatever part of the trie was loaded or hashed before, whether
    the hasher ran in parallel, in whatever order the sets are written, and
    whether or not leaves were collected. *)
Theorem commit_reopen hs m t T db codec schedule collectLeaf :
  holds_map true hs m T → t_reader T = db_reader (t_owner T) codec db →
  schedule ≡ₚ seq 0 16 → db_wf db → tree_of m = Some t → collision_free db t →
  keccak256 (tenc t) ≠ EmptyRootHash →
  ∃ T' ons, Trie_Commit schedule collectLeaf T = (T', Ok (map_root m, ons))
    ∧ ∀ owners id, id_Root id = map_root m →
        (∀ ns, ons = Some ns → owners ≡ₚ filter (λ o, o ≠ zeroHash) [ns_owner ns]) →
        ∃ T2, New id (GetReader (written owners ons db)) codec = Ok T2 ∧ holds_map true true m T2.
Proof.
  intros Hh Hrd Hp Hwf Ht Hcf Hne.
  destruct (Trie_Commit_lemma true hs m T schedule collectLeaf Hp Hh) as (T' & ons & E & Hk & _).
  exists T', ons. split; [done|]. intros owners id Hid Ho. rewrite Hrd in Hk.
  eapply reopen_lemma; try done. by eapply holds_map_ok.
Qed.

(** C25: committing returns the Merkle root of the map and resets the tracer;
    every node of the tree is then in the returned set or was in the store
    already, and the set holds nothing but nodes of that tree, each under its
    own hash, and deletion markers. *)
Theorem Trie_Commit_correct full hs m T schedule collectLeaf :
  schedule ≡ₚ seq 0 16 → holds_map full hs m T →
  ∃ T' ons, Trie_Commit schedule collectLeaf T = (T', Ok (map_root m, ons))
    ∧ commit_keeps full (t_reader T) m ons ∧ t_tracer T' = newTracer.
Proof. apply Trie_Commit_lemma. Qed.


Lemma bump_all_size cs db : dirtiesSize (foldl (λ db c, bump_parents c db) db cs) = dirtiesSize db.
Proof.
  revert db. induction cs as [|c cs IH]; intros db; [done|]. simpl. rewrite IH.
  unfold bump_parents. by destruct (dirties db !! c).
Qed.

(** The bytes a new node of this size should account for: a hash and the node. *)
Definition node_bytes (size : Z) : Z := (Z.of_nat hashLen + u16 size)%Z.

Lemma insert_size_lemma h size n db db' :
  dirties db !! h = None → Database.insert h size n db = (db', Ok tt) →
  dirtiesSize db' = (dirtiesSize db + u16 (node_bytes size))%Z.
Proof.
  intros Hnone. unfold Database.insert.
  rewrite (bind_step _ _ db db (bool_decide (is_Some (dirties db !! h)))) by done.
  rewrite bool_decide_false by (rewrite Hnone; by intros []).
  rewrite (bind_step _ _ db db (newest db)) by done.
  destruct (forChilds _) as [cs|e|w|]; try done. rewrite lift_step.
  unfold upd_dirty, read, put_dirty, get_dirty. mred.
  intros Hf. repeat (case_match; simplify_eq/=); by rewrite bump_all_size.
Qed.

(** C35: the size account is exact for small nodes only.  A new node of up to
    65503 bytes adds its size and the hash length; one of 65504 to 65535 bytes
    adds 65536 less, because the sum is computed in uint16 ([Dereference]
    subtracts it in full). *)
Theorem insert_size_wraps h size n db db' :
  dirties db !! h = None → Database.insert h size n db = (db', Ok tt) → (0 ≤ size < 65536)%Z →
  dirtiesSize db' = (dirtiesSize db + Z.of_nat hashLen + size
                     - if decide (65504 ≤ size)%Z then 65536 else 0)%Z.
Proof.
  intros Hn Hi Hs. rewrite (insert_size_lemma _ _ _ _ _ Hn Hi). unfold node_bytes, u16, hashLen.
  rewrite (Z.mod_small size) by lia. change (Z.of_nat 32) with 32%Z. case_decide as Hd.
  - rewrite <- (Z_mod_plus_full _ (-1)), Z.mod_small by lia. lia.
  - rewrite Z.mod_small by lia. lia.
Qed.
End properties.

(** ** Witnesses *)

Module Witness.
Import Standin.

Definition db0 : Database := NewDatabase (∅ : gmap bytes bytes).
Definition M1 : gmap bytes bytes := {[ [18; 52]%Z := [1]%Z ]}.
Definition L1 : tree := TLeaf [1; 2; 3; 4]%Z [1]%Z.
Definition T1 : Trie :=
  MkTrie (shortNode ([1; 2; 3; 4]%Z ++ [16%Z]) (valueNode [1%Z]) newFlag) zeroHash 1
    (db_reader zeroHash 1 db0) newTracer.

Lemma db0_wf : db_wf db0.
Proof. split; [by eexists|done]. Qed.

Lemma T1_holds : holds_map true false M1 T1.
Proof.
  assert (Forall is_byte [18; 52]%Z) as Hk by (repeat constructor; unfold is_byte; lia).
  destruct (models_insert None ∅ [18; 52]%Z [1]%Z models_empty I Hk) as [Hm Hw]; [done|].
  exists (Some L1). split; [split; [by apply repr_leaf, newFlag_ok|exact Hw]|exact Hm].
Qed.

Lemma commit_reopen_witness :
  ∃ T' ons, Trie_Commit (seq 0 16) true T1 = (T', Ok (map_root M1, ons))
    ∧ ∀ owners id, id_Root id = map_root M1 →
        (∀ ns, ons = Some ns → owners ≡ₚ filter (λ o, o ≠ zeroHash) [ns_owner ns]) →
        ∃ T2, New id (GetReader (written owners ons db0)) 1 = Ok T2 ∧ holds_map true true M1 T2.
Proof.
  apply (commit_reopen false M1 L1 T1 db0 1 (seq 0 16) true).
  - apply T1_holds.
  - reflexivity.
  - done.
  - apply db0_wf.
  - by vm_compute.
  - split.
    + intros c c' Hc Hc'. apply list_elem_of_singleton in Hc as ->.
      by apply list_elem_of_singleton in Hc' as ->.
    + intros c Hc. apply list_elem_of_singleton in Hc as ->.
      split; [intros E; by vm_compute in E|]. split; [|done].
      intros n Hn. by vm_compute in Hn.
  - intros E. by vm_compute in E.
Defined.

Lemma Trie_Commit_correct_witness :
  ∃ T' ons, Trie_Commit (rev (seq 0 16)) false T1 = (T', Ok (map_root M1, ons))
    ∧ commit_keeps true (t_reader T1) M1 ons ∧ t_tracer T' = newTracer.
Proof.
  apply (Trie_Commit_correct true false); [symmetry; apply Permutation_rev|apply T1_holds].
Defined.



Lemma insert_size_wraps_witness :
  dirtiesSize (Database.insert [7]%Z 65510 (hashNode [9]%Z) db0).1
  = (dirtiesSize db0 + Z.of_nat hashLen + 65510 - if decide (65504 ≤ 65510)%Z then 65536 else 0)%Z.
Proof.
  apply (insert_size_wraps [7]%Z 65510 (hashNode [9]%Z) db0); [done|vm_compute; reflexivity|lia].
Defined.

(** Inserting and releasing one large node leaves a negative size. *)
Example released_size_negative :
  dirtiesSize (Dereference [7]%Z (Database.insert [7]%Z 65510 (hashNode [9]%Z) db0).1).1 = (-65536)%Z.
Proof. vm_compute. reflexivity. Qed.
End Witness.
