(* ===== verification/FlushList.v ===== *)
(** * The flush list of the database

    The dirty nodes are a doubly-linked list, oldest first, through their
    [flushPrev] and [flushNext]; a node also counts its parents.  The ghost list
    of [flushing] is the order of the links; [Database.insert] appends to it. *)
From S2P Require Import Prelude Errors Geth Encoding Node Mpt MptFacts Tracer Reader.
From S2P Require Import Trie Repr Refine Hasher TrieSpec NodeSet Committer Database Persist.
Local Open Scope Z_scope.

Section flush.
Context `{RlpOps, CryptoOps, DiskOps, CacheOps, AccountOps}.

(** [flushPrev] of the oldest node and, on an empty list, [newest] mean nothing:
    [dereference] leaves hashes of removed nodes there. *)
Record flushing (db : Database) (l : list bytes) : Prop := {
  fl_metaroot : is_Some (dirties db !! zeroHash);
  fl_unique : NoDup l;
  fl_nodes h : h ∈ l ↔ h ≠ zeroHash ∧ is_Some (dirties db !! h);
  fl_oldest : oldest db = default zeroHash (head l);
  fl_newest : l ≠ [] → last l = Some (newest db);
  fl_links i a b : l !! i = Some a → l !! S i = Some b →
    ∃ x y, dirties db !! a = Some x ∧ dirties db !! b = Some y ∧ cn_flushNext x = b ∧ cn_flushPrev y = a;
  fl_end a x : last l = Some a → dirties db !! a = Some x → cn_flushNext x = zeroHash;
  fl_parents h x : dirties db !! h = Some x → 0 ≤ cn_parents x < 2 ^ 32
}.

Lemma flushing_empty db l : flushing db l → oldest db = zeroHash ↔ l = [].
Proof.
  intros Hl. rewrite (fl_oldest _ _ Hl). destruct l as [|a l]; [done|]. simpl. split; [|done].
  intros ->. by destruct (proj1 (fl_nodes _ _ Hl zeroHash) ltac:(left)).
Qed.

(** How often a hash is among the children of a node. *)
Definition occurrences (c : bytes) (cs : list bytes) : Z := Z.of_nat (length (filter (λ h, h = c) cs)).

(** The entry of a child with that many new parents. *)
Definition adopted (cs : list bytes) (c : bytes) (e : cachedNode) : cachedNode :=
  cn_set_parents (u32 (cn_parents e + occurrences c cs)) e.

Definition bump_all (cs : list bytes) (db : Database) : Database :=
  foldl (λ db c, bump_parents c db) db cs.

Lemma bump_all_dirties cs c : ∀ db,
  (∀ h x, dirties db !! h = Some x → 0 ≤ cn_parents x < 2 ^ 32) →
  dirties (bump_all cs db) !! c = adopted cs c <$> dirties db !! c.
Proof.
  unfold bump_all. induction cs as [|c' cs IH]; intros db Hr.
  - simpl. destruct (dirties db !! c) as [e|] eqn:Ee; [|done]. simpl. unfold adopted, occurrences, u32. simpl.
    rewrite Z.add_0_r, Z.mod_small by (by eapply Hr). by destruct e.
  - simpl. rewrite IH.
    + unfold bump_parents, adopted, occurrences. rewrite filter_cons. destruct (decide (c' = c)) as [->|Hc].
      * destruct (dirties db !! c) as [e|] eqn:Ee; [|by rewrite Ee]. simpl. rewrite lookup_insert_eq. simpl.
        unfold cn_set_parents, u32. simpl. rewrite Zplus_mod_idemp_l.
        rewrite Nat2Z.inj_succ, <- Z.add_assoc, Z.add_1_l. done.
      * destruct (dirties db !! c'); [|done]. simpl. by rewrite lookup_insert_ne.
    + intros h x. unfold bump_parents. destruct (dirties db !! c') as [e|]; [|by apply Hr]. simpl.
      intros [[<- <-]|[_ Hx]]%lookup_insert_Some; [|by eapply Hr]. simpl. unfold u32. by apply Z.mod_pos_bound.
Qed.

Lemma bump_all_rest cs : ∀ db, ∃ d, bump_all cs db = set_dirties d db.
Proof.
  unfold bump_all. induction cs as [|c cs IH]; intros db; simpl.
  - exists (dirties db). by destruct db.
  - destruct (IH (bump_parents c db)) as [d ->]. unfold bump_parents. destruct (dirties db !! c); by exists d.
Qed.

(** The new entry, and what becomes of another one. *)
Definition new_entry (db : Database) (size : Z) (n : node) : cachedNode :=
  CachedNode n (u16 size) 0 None (newest db) zeroHash.
Definition after_insert (db : Database) (h : bytes) (cs : list bytes) (c : bytes) (e : cachedNode) : cachedNode :=
  if decide (oldest db ≠ zeroHash ∧ c = newest db) then cn_set_next h (adopted cs c e) else adopted cs c e.

(** Everything an insertion of a new node does. *)
Record appended (h : bytes) (size : Z) (n : node) (cs : list bytes) (db db' : Database) : Prop := {
  ap_entry : dirties db' !! h = Some (new_entry db size n);
  ap_others c : c ≠ h → dirties db' !! c = after_insert db h cs c <$> dirties db !! c;
  ap_oldest : oldest db' = if decide (oldest db = zeroHash) then h else oldest db;
  ap_newest : newest db' = h;
  ap_size : dirtiesSize db' = dirtiesSize db + u16 (Z.of_nat hashLen + u16 size);
  ap_rest : diskdb db' = diskdb db ∧ cleans db' = cleans db ∧ gcnodes db' = gcnodes db
            ∧ gcsize db' = gcsize db ∧ childrenSize db' = childrenSize db ∧ preimages db' = preimages db
}.

Lemma insert_known h size n db : is_Some (dirties db !! h) → Database.insert h size n db = (db, Ok tt).
Proof.
  intros Hh. unfold Database.insert.
  rewrite (bind_step _ _ db db (bool_decide (is_Some (dirties db !! h)))) by done. by rewrite bool_decide_true.
Qed.

Lemma insert_new h size n db cs :
  (∀ c x, dirties db !! c = Some x → 0 ≤ cn_parents x < 2 ^ 32) →
  dirties db !! h = None → (oldest db ≠ zeroHash → is_Some (dirties db !! newest db)) →
  forChilds (new_entry db size n) = Ok cs →
  ∃ db', Database.insert h size n db = (db', Ok tt) ∧ appended h size n cs db db'.
Proof.
  intros Hr Hh Hnew Hcs. unfold Database.insert.
  rewrite (bind_step _ _ db db (bool_decide (is_Some (dirties db !! h)))) by done.
  rewrite bool_decide_false by (rewrite Hh; by intros []).
  rewrite (bind_step _ _ db db (newest db)) by done. fold (new_entry db size n). rewrite Hcs, lift_step.
  rewrite (bind_step (modify _) _ db (bump_all cs db) tt) by done.
  pose proof (λ c, bump_all_dirties cs c db Hr) as Hb. destruct (bump_all_rest cs db) as [d Ed]. rewrite Ed in *.
  simpl in Hb. rewrite (bind_step (put_dirty h _) _ _ (set_dirties (<[h := new_entry db size n]> d) db) tt) by done.
  rewrite (bind_step (read oldest) _ _ (set_dirties (<[h := new_entry db size n]> d) db) (oldest db)) by done.
  case_bool_decide as Hold.
  - eexists. split; [reflexivity|]. split; simpl; try done.
    + by rewrite lookup_insert_eq.
    + intros c Hc. rewrite lookup_insert_ne, Hb by done. destruct (dirties db !! c); [|done]. simpl.
      unfold after_insert. by rewrite decide_False by tauto.
    + by rewrite decide_True.
  - destruct (Hnew Hold) as [e He]. assert (newest db ≠ h) as Hne by congruence.
    rewrite (bind_step (new ← read newest; _) _ _
      (set_newest h (set_dirties (<[newest db := cn_set_next h (adopted cs (newest db) e)]>
         (<[h := new_entry db size n]> d)) db)) tt).
    + eexists. split; [reflexivity|]. split; simpl; try done.
      * by rewrite lookup_insert_ne, lookup_insert_eq.
      * intros c Hc. unfold after_insert. destruct (decide (c = newest db)) as [->|Hcn].
        -- rewrite lookup_insert_eq, He. simpl. by rewrite decide_True.
        -- rewrite !lookup_insert_ne, Hb by done. destruct (dirties db !! c); [|done]. simpl.
           by rewrite decide_False by tauto.
      * by rewrite decide_False.
    + rewrite (bind_step (read newest) _ _ (set_dirties (<[h := new_entry db size n]> d) db) (newest db)) by done.
      unfold upd_dirty, get_dirty, put_dirty, modify. mred. simpl.
      rewrite lookup_insert_ne, Hb, He by done. done.
Qed.

(** The new node is the end of the flush list. *)
Lemma appended_flushing h size n cs db db' l :
  flushing db l → dirties db !! h = None → appended h size n cs db db' → flushing db' (l ++ [h]).
Proof.
  intros Hl Hh Ha. assert (h ∉ l) as Hhl by (intros Hin; apply (fl_nodes _ _ Hl) in Hin as [_ [? ?]]; congruence).
  assert (h ≠ zeroHash) as Hz by (intros ->; destruct (fl_metaroot _ _ Hl); congruence).
  pose proof (ap_others _ _ _ _ _ _ Ha) as Ho. pose proof (ap_entry _ _ _ _ _ _ Ha) as He.
  assert (∀ c e, after_insert db h cs c e = cn_set_next (cn_flushNext (after_insert db h cs c e)) (adopted cs c e)) as Ea.
  { intros c e. unfold after_insert. by case_decide. }
  assert (∀ c, is_Some (dirties db' !! c) ↔ c = h ∨ is_Some (dirties db !! c)) as Hdom.
  { intros c. destruct (decide (c = h)) as [->|Hc]; [rewrite He; split; eauto|].
    rewrite Ho, fmap_is_Some by done. tauto. }
  split.
  - apply Hdom. right. apply Hl.
  - apply NoDup_app. split_and!; [apply Hl|by intros x Hx ->%list_elem_of_singleton|apply NoDup_singleton].
  - intros c. rewrite elem_of_app, list_elem_of_singleton, (fl_nodes _ _ Hl), Hdom. naive_solver.
  - rewrite (ap_oldest _ _ _ _ _ _ Ha). case_decide as E.
    + apply (flushing_empty db l Hl) in E as ->. done.
    + rewrite (fl_oldest _ _ Hl). destruct l; [|done]. by destruct E; apply (flushing_empty db [] Hl).
  - intros _. by rewrite last_snoc, (ap_newest _ _ _ _ _ _ Ha).
  - intros i a b Hia Hib. destruct (decide (S i < length l)%nat) as [Hi|Hi].
    + rewrite lookup_app_l in Hia by lia. rewrite lookup_app_l in Hib by lia.
      destruct (fl_links _ _ Hl i a b Hia Hib) as (x & y & Hx & Hy & Hnx & Hpy).
      assert (a ≠ newest db) as Han.
      { intros ->. assert (l ≠ []) as Hne by (by intros ->). pose proof (fl_newest _ _ Hl Hne) as Hlast.
        rewrite last_lookup in Hlast. pose proof (NoDup_lookup _ _ _ _ (fl_unique _ _ Hl) Hia Hlast). lia. }
      exists (after_insert db h cs a x), (after_insert db h cs b y). split_and!.
      * rewrite Ho, Hx; [done|]. intros ->. congruence.
      * rewrite Ho, Hy; [done|]. intros ->. congruence.
      * unfold after_insert. by rewrite decide_False by tauto.
      * rewrite Ea. done.
    + pose proof (lookup_lt_Some _ _ _ Hib) as Hlen. rewrite length_app in Hlen. simpl in Hlen.
      assert (S i = length l) as Ei by lia. rewrite Ei, list_lookup_middle in Hib by done. injection Hib as <-.
      rewrite lookup_app_l in Hia by lia. assert (l ≠ []) as Hne by (by intros ->).
      pose proof (fl_newest _ _ Hl Hne) as Hlast. rewrite last_lookup, <- Ei in Hlast. simpl in Hlast.
      rewrite Hia in Hlast. injection Hlast as ->.
      assert (newest db ∈ l) as [_ [x Hx]]%(fl_nodes _ _ Hl) by (by eapply list_elem_of_lookup_2).
      exists (after_insert db h cs (newest db) x), (new_entry db size n). split_and!; [|done| |done].
      * rewrite Ho, Hx; [done|]. intros E. congruence.
      * unfold after_insert. rewrite decide_True; [done|]. split; [|done]. by rewrite (flushing_empty db l Hl).
  - intros a x. rewrite last_snoc. intros [= <-]. rewrite He. by intros [= <-].
  - intros c x. destruct (decide (c = h)) as [->|Hc]; [rewrite He; by intros [= <-]|].
    rewrite Ho by done. intros (e & He' & ->)%fmap_Some. rewrite Ea. simpl. unfold u32. by apply Z.mod_pos_bound.
Qed.

Lemma flushing_newest db l : flushing db l → oldest db ≠ zeroHash → is_Some (dirties db !! newest db).
Proof.
  intros Hl Hold. assert (l ≠ []) as Hne by (by rewrite <- (flushing_empty db l Hl)).
  apply (fl_nodes _ _ Hl). pose proof (fl_newest _ _ Hl Hne) as E. rewrite last_lookup in E.
  by eapply list_elem_of_lookup_2.
Qed.

Lemma flushing_wf db l : flushing db l → db_wf db.
Proof. intros Hl. split; [apply Hl|by eapply flushing_newest]. Qed.

Lemma NewDatabase_flushing d config : flushing (NewDatabaseWithConfig d config) [].
Proof.
  split; try done; simpl.
  - apply NoDup_nil_2.
  - intros h. rewrite elem_of_nil. split; [done|]. intros [Hh [x Hx]]. by rewrite lookup_singleton_ne in Hx.
  - by intros h x [<- <-]%lookup_singleton_Some.
Qed.

Lemma insert_run h size n db l :
  flushing db l → gatherable n →
  ∃ db', Database.insert h size n db = (db', Ok tt) ∧
    match dirties db !! h with
    | Some _ => db' = db
    | None => ∃ cs, forChilds (new_entry db size n) = Ok cs ∧ appended h size n cs db db' ∧ flushing db' (l ++ [h])
    end.
Proof.
  intros Hl Hg. destruct (dirties db !! h) as [e|] eqn:Hh.
  { exists db. split; [|done]. apply insert_known. by rewrite Hh. }
  destruct (forChilds_ok n (u16 size) (newest db) Hg) as [cs Hcs].
  destruct (insert_new h size n db cs (fl_parents _ _ Hl) Hh (flushing_newest db l Hl) Hcs) as (db' & E & Ha).
  exists db'. split; [done|]. exists cs. split_and!; [done|done|]. by eapply appended_flushing.
Qed.

(** C31: inserting a node never fails.  A node that is present is left alone.
    A new one becomes the end of the flush list: the links in both directions
    run through the old list and on to it, and both endpoints are right.  Its
    entry has no parents and no external children; each of its children that is
    in memory has as many parents more as it occurs among them; no other node,
    size or counter changes, and the size of the node is added up. *)
Theorem insert_correct h size n db l :
  flushing db l → gatherable n →
  ∃ db', Database.insert h size n db = (db', Ok tt) ∧
    match dirties db !! h with
    | Some _ => db' = db
    | None => ∃ cs, forChilds (new_entry db size n) = Ok cs ∧ appended h size n cs db db' ∧ flushing db' (l ++ [h])
    end.
Proof. apply insert_run. Qed.
End flush.

(** ** Witnesses *)

Module Witness.
Import Standin.

Definition db0 : Database := NewDatabase (∅ : gmap bytes bytes).
Definition first : bytes := replicate 32 9.
Definition second : bytes := replicate 32 7.
Definition db1 : Database := (Database.insert first 5 (valueNode [1]) db0).1.

Lemma db1_flushing : flushing db1 [first].
Proof.
  destruct (insert_run first 5 (valueNode [1]) db0 [] (NewDatabase_flushing _ _)) as (db' & E & cs & _ & _ & Hl);
    [by eexists|]. unfold db1. by rewrite E.
Qed.

(** A second node that has the first as a child twice. *)
Definition parent : node := rawFullNode ([hashNode first; hashNode first] ++ replicate 15 nilNode).

Lemma insert_correct_witness :
  ∃ db', Database.insert second 3 parent db1 = (db', Ok tt) ∧
    match dirties db1 !! second with
    | Some _ => db' = db1
    | None => ∃ cs, forChilds (new_entry db1 3 parent) = Ok cs ∧ appended second 3 parent cs db1 db'
                    ∧ flushing db' [first; second]
    end.
Proof. apply (insert_correct second 3 parent db1 [first]); [apply db1_flushing|eexists; vm_compute; reflexivity]. Defined.

(** The first node now has two parents and is followed by the second. *)
Example linked :
  (λ h, (λ x, (cn_parents x, cn_flushPrev x, cn_flushNext x))
          <$> dirties (Database.insert second 3 parent db1).1 !! h) <$> [first; second]
  = [Some (2, zeroHash, second); Some (0, first, zeroHash)].
Proof. vm_compute. reflexivity. Qed.
End Witness.
