(* ===== verification/AccessList.v ===== *)
(** * Per-transaction state: access_list.go and transient_storage.go

    The access list of EIP-2929/2930 and the transient storage of EIP-1153, as
    trie_by_cid/state keeps them (direct_by_leaf has the same code).  Go maps are
    finite maps; a slot set is a [gset].  Both structures are undone entry by
    entry when a snapshot is reverted, so the facts needed there are that the
    reverse operations undo exactly. *)
From S2P Require Import Prelude Errors Geth.
Local Open Scope nat_scope.

Abbreviation Storage := (gmap bytes bytes).
Abbreviation transientStorage := (gmap bytes Storage).

Module AccessList.
(** [addresses] maps an address to the index of its slots, -1 for none. *)
Record accessList := MkAccessList {
  addresses : gmap bytes Z;
  slots : list (gset bytes)
}.

Definition newAccessList : accessList := MkAccessList ∅ [].

Definition ContainsAddress (address : bytes) (al : accessList) : bool :=
  bool_decide (is_Some (addresses al !! address)).

(** A slice index may be negative: it panics like one out of range. *)
Definition slots_at (al : accessList) (idx : Z) : result (gset bytes) :=
  if bool_decide (0 ≤ idx)%Z then index (slots al) (Z.to_nat idx) else Panic "index out of range".

Definition Contains (address slot : bytes) (al : accessList) : result (bool * bool) :=
  match addresses al !! address with
  | None => Ok (false, false)
  | Some idx =>
      if bool_decide (idx = -1)%Z then Ok (true, false)
      else s ← slots_at al idx; Ok (true, bool_decide (slot ∈ s))
  end.

(** [Copy] copies both levels of maps: the copy shares nothing with the original. *)
Definition al_Copy (a : accessList) : accessList :=
  MkAccessList (addresses a) ((λ s, s) <$> slots a).

Definition AddAddress (address : bytes) (al : accessList) : accessList * bool :=
  match addresses al !! address with
  | Some _ => (al, false)
  | None => (MkAccessList (<[address := (-1)%Z]> (addresses al)) (slots al), true)
  end.

(** The results are the new list, whether the address and whether the slot was added. *)
Definition AddSlot (address slot : bytes) (al : accessList) : result (accessList * (bool * bool)) :=
  let fresh addrPresent :=
    Ok (MkAccessList (<[address := Z.of_nat (length (slots al))]> (addresses al))
          (slots al ++ [{[slot]}]), (negb addrPresent, true)) in
  match addresses al !! address with
  | None => fresh false
  | Some idx =>
      if bool_decide (idx = -1)%Z then fresh true
      else
        slotmap ← slots_at al idx;
        if bool_decide (slot ∈ slotmap) then Ok (al, (false, false))
        else Ok (MkAccessList (addresses al) (<[Z.to_nat idx := {[slot]} ∪ slotmap]> (slots al)),
                 (false, true))
  end.

Definition DeleteSlot (address slot : bytes) (al : accessList) : result accessList :=
  match addresses al !! address with
  | None => Panic "reverting slot change, address not present in list"
  | Some idx =>
      slotmap ← slots_at al idx;
      let slotmap := slotmap ∖ {[slot]} in
      if bool_decide (slotmap = ∅) then
        Ok (MkAccessList (<[address := (-1)%Z]> (addresses al)) (take (Z.to_nat idx) (slots al)))
      else Ok (MkAccessList (addresses al) (<[Z.to_nat idx := slotmap]> (slots al)))
  end.

Definition DeleteAddress (address : bytes) (al : accessList) : accessList :=
  MkAccessList (delete address (addresses al)) (slots al).

(** Every index is -1 or that of a non-empty slot set, and no two addresses
    share one. *)
Definition wf (al : accessList) : Prop :=
  (∀ a idx, addresses al !! a = Some idx →
     idx = (-1)%Z ∨ ∃ s, (0 ≤ idx)%Z ∧ slots al !! Z.to_nat idx = Some s ∧ s ≠ ∅)
  ∧ (∀ a b idx, addresses al !! a = Some idx → addresses al !! b = Some idx →
     (0 ≤ idx)%Z → a = b).

(** The specification: the addresses on the list and the slots of each. *)
Definition slots_of (al : accessList) (a : bytes) : option (gset bytes) :=
  idx ← addresses al !! a;
  Some (if bool_decide (idx = -1)%Z then ∅ else default ∅ (slots al !! Z.to_nat idx)).

Lemma wf_new : wf newAccessList.
Proof. split; simpl; intros *; by rewrite lookup_empty. Qed.

Lemma slots_at_ok al idx s :
  (0 ≤ idx)%Z → slots al !! Z.to_nat idx = Some s → slots_at al idx = Ok s.
Proof. intros Hi Hs. unfold slots_at, index. by rewrite bool_decide_true, Hs. Qed.

Lemma Contains_spec a x al :
  wf al →
  Contains a x al = Ok (bool_decide (is_Some (slots_of al a)),
                        bool_decide (x ∈ default ∅ (slots_of al a))).
Proof.
  intros [Hw _]. unfold Contains, slots_of. destruct (addresses al !! a) as [idx|] eqn:Ha; simpl.
  2: done.
  destruct (Hw _ _ Ha) as [->|(s & Hi & Hs & _)]; [rewrite bool_decide_true by done; done|].
  rewrite bool_decide_false by lia. rewrite (slots_at_ok _ _ s) by done. simpl. by rewrite Hs.
Qed.

Lemma ContainsAddress_spec a al :
  ContainsAddress a al = bool_decide (is_Some (slots_of al a)).
Proof.
  unfold ContainsAddress, slots_of. destruct (addresses al !! a); done.
Qed.

Lemma AddAddress_wf a al : wf al → wf (AddAddress a al).1.
Proof.
  intros [Hw Hd]. unfold AddAddress. destruct (addresses al !! a) as [i|] eqn:Ha; [done|].
  split; simpl.
  - intros b idx [[<- <-]|[_ Hb]]%lookup_insert_Some; [by left|eauto].
  - intros b c idx [[<- <-]|[_ Hb]]%lookup_insert_Some; [lia|].
    intros [[<- <-]|[_ Hc]]%lookup_insert_Some; [lia|eauto].
Qed.

Lemma AddAddress_undo a al al' :
  AddAddress a al = (al', true) → DeleteAddress a al' = al.
Proof.
  unfold AddAddress. destruct (addresses al !! a) eqn:Ha; intros [= <-].
  unfold DeleteAddress. simpl. rewrite delete_insert_id by done. by destruct al.
Qed.

Lemma AddAddress_slots_of a b al :
  wf al →
  slots_of (AddAddress a al).1 b
  = if decide (a = b) then Some (default ∅ (slots_of al b)) else slots_of al b.
Proof.
  intros _. unfold AddAddress. destruct (addresses al !! a) as [i|] eqn:Ha; unfold slots_of; simpl.
  - case_decide as E; [subst b; by rewrite Ha|done].
  - case_decide as E; [subst b; by rewrite lookup_insert_eq, Ha|by rewrite lookup_insert_ne].
Qed.

Lemma slots_of_idx al a idx s :
  addresses al !! a = Some idx → (0 ≤ idx)%Z → slots al !! Z.to_nat idx = Some s →
  slots_of al a = Some s.
Proof.
  intros Ha Hi Hs. unfold slots_of. rewrite Ha. simpl.
  by rewrite bool_decide_false, Hs by lia.
Qed.

(** The two ways [AddSlot] changes the list. *)
Inductive added (a x : bytes) (al : accessList) : accessList → bool → Prop :=
| added_fresh present :
    (addresses al !! a = None ∧ present = false ∨ addresses al !! a = Some (-1)%Z ∧ present = true) →
    added a x al (MkAccessList (<[a := Z.of_nat (length (slots al))]> (addresses al))
                    (slots al ++ [{[x]}])) (negb present)
| added_old idx s :
    addresses al !! a = Some idx → (0 ≤ idx)%Z → slots al !! Z.to_nat idx = Some s → x ∉ s → s ≠ ∅ →
    added a x al (MkAccessList (addresses al) (<[Z.to_nat idx := {[x]} ∪ s]> (slots al))) false.

Lemma AddSlot_cases a x al :
  wf al →
  (AddSlot a x al = Ok (al, (false, false)) ∧ ∃ s, slots_of al a = Some s ∧ x ∈ s)
  ∨ ∃ al' ac, AddSlot a x al = Ok (al', (ac, true)) ∧ added a x al al' ac.
Proof.
  intros [Hw _]. unfold AddSlot. destruct (addresses al !! a) as [idx|] eqn:Ha.
  2: { right. eexists _, _. split; [done|]. apply added_fresh. by left. }
  destruct (Hw _ _ Ha) as [->|(s & Hi & Hs & Hne)].
  { right. eexists _, _. rewrite bool_decide_true by done. split; [done|].
    apply added_fresh. by right. }
  rewrite bool_decide_false by lia. rewrite (slots_at_ok _ _ s) by done. mred.
  case_bool_decide as Hx.
  - left. split; [done|]. exists s. split; [by eapply slots_of_idx|done].
  - right. eexists _, _. split; [done|]. by apply added_old.
Qed.

Lemma added_wf a x al al' ac : wf al → added a x al al' ac → wf al'.
Proof.
  intros [Hw Hd] [present _|idx s Ha Hi Hs Hx Hne]; split; simpl.
  - intros b i [[<- <-]|[_ Hb]]%lookup_insert_Some.
    + right. exists {[x]}. rewrite Nat2Z.id, lookup_app_r, Nat.sub_diag by lia. set_solver by lia.
    + destruct (Hw _ _ Hb) as [->|(s & Hi & Hs & Hne)]; [by left|right]. exists s.
      by rewrite lookup_app_l by (by eapply lookup_lt_Some).
  - assert (∀ b, addresses al !! b ≠ Some (Z.of_nat (length (slots al)))) as Hfresh.
    { intros b Hb. destruct (Hw _ _ Hb) as [?|(s & _ & Hs%lookup_lt_Some & _)]; lia. }
    intros b c i [[<- <-]|[_ Hb]]%lookup_insert_Some [[<- E]|[_ Hc]]%lookup_insert_Some Hi; try done.
    + by destruct (Hfresh c).
    + subst i. by destruct (Hfresh b).
    + eauto.
  - intros b i Hb. destruct (Hw _ _ Hb) as [->|(s' & Hi' & Hs' & Hne')]; [by left|right].
    rewrite list_lookup_insert. case_decide as E.
    + exists ({[x]} ∪ s). split_and!; [done|done|set_solver].
    + exists s'. done.
  - exact Hd.
Qed.

Lemma AddSlot_wf a x al al' r : wf al → AddSlot a x al = Ok (al', r) → wf al'.
Proof.
  intros Hw E. destruct (AddSlot_cases a x al Hw) as [[E' _]|(l & ac & E' & Ha)];
    rewrite E' in E; simplify_eq; [done|by eapply added_wf].
Qed.

(** Undoing an addition of a slot: [accessListAddSlotChange.revert]. *)
Lemma added_undo a x al al' ac :
  wf al → added a x al al' ac →
  ∃ al'', DeleteSlot a x al' = Ok al'' ∧ (if ac then DeleteAddress a al'' else al'') = al.
Proof.
  intros [Hw _] [present Hp|idx s Ha Hi Hs Hx Hne]; unfold DeleteSlot; simpl.
  - rewrite lookup_insert_eq.
    rewrite (slots_at_ok _ _ {[x]}); simpl; [|lia|by rewrite Nat2Z.id, lookup_app_r, Nat.sub_diag by lia].
    rewrite bool_decide_true by set_solver. eexists. split; [done|].
    rewrite Nat2Z.id, take_app_length, insert_insert_eq. unfold DeleteAddress.
    destruct Hp as [[Ha ->]|[Ha ->]]; simpl.
    + rewrite delete_insert_id by done. by destruct al.
    + rewrite insert_id by done. by destruct al.
  - rewrite Ha, (slots_at_ok _ _ ({[x]} ∪ s)); simpl; [|done|].
    2: { apply list_lookup_insert_eq. by eapply lookup_lt_Some. }
    rewrite bool_decide_false by set_solver. eexists. split; [done|].
    rewrite list_insert_insert_eq. replace (({[x]} ∪ s) ∖ {[x]}) with s by set_solver.
    rewrite list_insert_id by done. by destruct al.
Qed.

Lemma added_slots_of a x b al al' ac :
  wf al → added a x al al' ac →
  slots_of al' b = if decide (a = b) then Some ({[x]} ∪ default ∅ (slots_of al b)) else slots_of al b.
Proof.
  intros [Hw Hd] [present Hp|idx s Ha Hi Hs Hx Hne]; unfold slots_of; simpl.
  - case_decide as E.
    + subst b. rewrite lookup_insert_eq. simpl. rewrite bool_decide_false by lia.
      rewrite Nat2Z.id, lookup_app_r, Nat.sub_diag by lia. simpl.
      destruct Hp as [[-> _]|[-> _]]; simpl; f_equal; set_solver.
    + rewrite lookup_insert_ne by done. destruct (addresses al !! b) as [i|] eqn:Hb; [|done]. simpl.
      destruct (Hw _ _ Hb) as [->|(s & Hi & Hs & _)]; [done|].
      by rewrite lookup_app_l by (by eapply lookup_lt_Some).
  - case_decide as E.
    + subst b. rewrite Ha. simpl. rewrite bool_decide_false by lia.
      rewrite list_lookup_insert_eq by (by eapply lookup_lt_Some). by rewrite Hs.
    + destruct (addresses al !! b) as [i|] eqn:Hb; [|done]. simpl.
      case_bool_decide as Ei; [done|]. rewrite list_lookup_insert_ne; [done|]. intros E'.
      apply E, (Hd _ _ idx); [done| |done].
      destruct (Hw _ _ Hb) as [?|(? & ? & _)]; [done|]. by replace idx with i by lia.
Qed.

(** C40: the access list is a map from addresses to sets of slots: an addition
    changes exactly the entry it names, reports what was new, and the undo
    operations the journal uses take it back exactly. *)
Theorem AddSlot_correct a x al :
  wf al →
  ∃ al' ac sc, AddSlot a x al = Ok (al', (ac, sc)) ∧ wf al'
    ∧ ac = negb (ContainsAddress a al)
    ∧ Contains a x al = Ok (negb ac, negb sc)
    ∧ (∀ b, slots_of al' b = if decide (a = b) then Some ({[x]} ∪ default ∅ (slots_of al b))
                             else slots_of al b)
    ∧ (if sc then ∃ al'', DeleteSlot a x al' = Ok al'' ∧ (if ac then DeleteAddress a al'' else al'') = al
       else al' = al).
Proof.
  intros Hw. rewrite Contains_spec, ContainsAddress_spec by done.
  destruct (AddSlot_cases a x al Hw) as [(E & s & Hs & Hx)|(al' & ac & E & Ha)].
  - exists al, false, false. rewrite Hs. simpl. rewrite !bool_decide_true by eauto.
    split_and!; try done. intros b. case_decide as Eb; [subst b|done].
    rewrite Hs. simpl. f_equal. set_solver.
  - exists al', ac, true. split_and!; [done|by eapply added_wf| | |by intros; apply added_slots_of with ac|
      by apply added_undo].
    + destruct Ha as [present Hp|idx s Ha Hi Hs Hx Hne].
      * unfold slots_of. by destruct Hp as [[-> ->]|[-> ->]].
      * by rewrite (slots_of_idx al a idx s).
    + destruct Ha as [present Hp|idx s Ha Hi Hs Hx Hne].
      * unfold slots_of. destruct Hp as [[-> ->]|[-> ->]]; simpl.
        -- done.
        -- done.
      * rewrite (slots_of_idx al a idx s) by done. simpl.
        by rewrite bool_decide_false.
Qed.

Theorem AddSlot_correct_witness :
  ∃ al' ac sc, AddSlot [1%Z] [2%Z] (AddAddress [1%Z] newAccessList).1 = Ok (al', (ac, sc)) ∧ sc = true.
Proof.
  destruct (AddSlot_correct [1%Z] [2%Z] (AddAddress [1%Z] newAccessList).1)
    as (al' & ac & sc & E & _ & _ & Hc & _); [apply AddAddress_wf, wf_new|].
  exists al', ac, sc. split; [done|]. vm_compute in Hc. by destruct sc.
Defined.
End AccessList.

Module TransientStorage.
Definition newTransientStorage : transientStorage := ∅.

Definition ts_Set (addr key value : bytes) (t : transientStorage) : transientStorage :=
  let t := match t !! addr with None => <[addr := ∅]> t | Some _ => t end in
  <[addr := <[key := value]> (default ∅ (t !! addr))]> t.

(** A missing entry of the inner map is the zero hash too. *)
Definition ts_Get (addr key : bytes) (t : transientStorage) : bytes :=
  match t !! addr with
  | None => zeroHash
  | Some val => default zeroHash (val !! key)
  end.

Definition ts_Copy (t : transientStorage) : transientStorage := (λ s, s) <$> t.

Lemma ts_Get_Set a k v b l t :
  ts_Get b l (ts_Set a k v t) = if decide (a = b ∧ k = l) then v else ts_Get b l t.
Proof.
  unfold ts_Get, ts_Set. destruct (decide (a = b)) as [<-|Hab].
  - rewrite lookup_insert_eq. destruct (decide (k = l)) as [<-|Hkl].
    + by rewrite lookup_insert_eq, decide_True.
    + rewrite lookup_insert_ne, decide_False by naive_solver.
      destruct (t !! a) as [s|] eqn:Ha; [by rewrite Ha|by rewrite lookup_insert_eq].
  - rewrite decide_False, lookup_insert_ne by naive_solver.
    destruct (t !! a); [done|by rewrite lookup_insert_ne].
Qed.
End TransientStorage.
