(* ===== verification/StateOps.v ===== *)
(** * The interfaces of the state package: trie_by_cid/state/database.go

    [Trie] and [Database], which the package works against, are classes;
    CachingDB.v gives the implementation the repository runs.  Two more classes
    stand for what the language leaves open. *)
From S2P Require Import Prelude Errors Geth.
Local Open Scope Z_scope.

(** ** The interfaces of database.go *)

(** [Trie]: the methods the package calls on it. *)
Class TrieOps := {
  trie : Type;
  trie_TryGet : bytes → stateM trie error (option bytes);
  trie_TryGetAccount : bytes → stateM trie error (option StateAccount);
  trie_TryUpdate : bytes → bytes → stateM trie error unit;
  trie_TryUpdateAccount : bytes → StateAccount → stateM trie error unit;
  trie_TryDelete : bytes → stateM trie error unit;
  trie_TryDeleteAccount : bytes → stateM trie error unit;
  trie_Hash : stateM trie error bytes;
  trie_Prove : bytes → Z → stateM trie error (list bytes)
}.

(** [Database]; reading code fills caches. *)
Class DatabaseOps `{TrieOps} := {
  database : Type;
  OpenTrie : bytes → database → result trie;
  OpenStorageTrie : bytes → bytes → bytes → database → result trie;
  CopyTrie : trie → result trie;
  ContractCode : bytes → stateM database error bytes;
  ContractCodeSize : bytes → stateM database error Z
}.

(** Go visits the entries of a map in an arbitrary order. *)
Class RangeOps := { range : ∀ {A}, gmap bytes A → list (bytes * A) }.
Class RangeLaws `{RangeOps} := {
  range_perm {A} (m : gmap bytes A) : range m ≡ₚ map_to_list m
}.

(** A [select] with several ready cases takes any of them, and goroutines run
    as far as the scheduler lets them: the choices are a stream of numbers, read
    one after the other.  Every behaviour is that of some stream. *)
Class SchedOps := { choose : nat → nat }.

(** ** The laws of the interfaces *)

(** A call that neither panics nor diverges. *)
Definition returns {A} (r : result A) : Prop :=
  match r with Ok _ | Err _ => True | _ => False end.

Section reads.
Context `{TrieOps, !DatabaseOps}.

(** Two tries, two databases that answer every read alike. *)
Definition same_reads (t t' : trie) : Prop :=
  (∀ k, (trie_TryGet k t').2 = (trie_TryGet k t).2)
  ∧ (∀ a, (trie_TryGetAccount a t').2 = (trie_TryGetAccount a t).2).
Definition same_db (d d' : database) : Prop :=
  (∀ h, (ContractCode h d').2 = (ContractCode h d).2)
  ∧ (∀ s a r, OpenStorageTrie s a r d' = OpenStorageTrie s a r d)
  ∧ (∀ r, OpenTrie r d' = OpenTrie r d).

(** What has become of a trie that was only read and copied. *)
Inductive reads_of (t0 : trie) : trie → Prop :=
| reads_refl : reads_of t0 t0
| reads_get k t : reads_of t0 t → reads_of t0 (trie_TryGet k t).1
| reads_copy t t' : reads_of t0 t → CopyTrie t = Ok t' → reads_of t0 t'.
End reads.

(** Reads of a well-formed trie do not disturb later reads. *)
Class TrieLaws `{TrieOps} := {
  trie_inv : trie → Prop;
  TryGet_reads k t : trie_inv t →
    trie_inv (trie_TryGet k t).1 ∧ same_reads t (trie_TryGet k t).1 ∧ returns (trie_TryGet k t).2;
  TryGetAccount_reads a t : trie_inv t →
    trie_inv (trie_TryGetAccount a t).1 ∧ same_reads t (trie_TryGetAccount a t).1
    ∧ returns (trie_TryGetAccount a t).2
}.

Class DatabaseLaws `{TrieLaws, !DatabaseOps} := {
  db_inv : database → Prop;
  ContractCode_reads h d : db_inv d →
    db_inv (ContractCode h d).1 ∧ same_db d (ContractCode h d).1 ∧ returns (ContractCode h d).2;
  ContractCodeSize_reads h d : db_inv d →
    db_inv (ContractCodeSize h d).1 ∧ same_db d (ContractCodeSize h d).1;
  ContractCodeSize_value h d : db_inv d →
    (ContractCodeSize h d).2 = (c ← (ContractCode h d).2; Ok (Z.of_nat (length c)));
  OpenStorageTrie_inv s a r d : db_inv d →
    match OpenStorageTrie s a r d with Ok t => trie_inv t | Err _ => True | _ => False end;
  OpenTrie_inv r d : db_inv d →
    match OpenTrie r d with Ok t => trie_inv t | Err _ => True | _ => False end;
  CopyTrie_reads t : trie_inv t →
    ∃ t', CopyTrie t = Ok t' ∧ trie_inv t' ∧ same_reads t t'
}.

(** A trie holds a map from hashed keys to values, and hashes to its root. *)
Class TrieMapLaws `{CryptoOps, AccountOps, TrieOps, !DatabaseOps} := {
  trie_map : trie → gmap bytes bytes → Prop;
  root_of : gmap bytes bytes → bytes;
  TryUpdate_map k v t m : trie_map t m → v ≠ [] →
    ∃ t', trie_TryUpdate k v t = (t', Ok tt) ∧ trie_map t' (<[keccak256 k := v]> m);
  TryDelete_map k t m : trie_map t m →
    ∃ t', trie_TryDelete k t = (t', Ok tt) ∧ trie_map t' (base.delete (keccak256 k) m);
  TryUpdateAccount_map a acc b t m : trie_map t m → encode_StateAccount acc = Some b →
    ∃ t', trie_TryUpdateAccount a acc t = (t', Ok tt) ∧ trie_map t' (<[keccak256 a := b]> m);
  TryDeleteAccount_map a t m : trie_map t m →
    ∃ t', trie_TryDeleteAccount a t = (t', Ok tt) ∧ trie_map t' (base.delete (keccak256 a) m);
  Hash_map t m : trie_map t m → ∃ t', trie_Hash t = (t', Ok (root_of m)) ∧ trie_map t' m;
  TryGet_map k t m : trie_map t m → trie_map (trie_TryGet k t).1 m;
  CopyTrie_map t t' m : trie_map t m → CopyTrie t = Ok t' → trie_map t' m
}.

(** Reading such a trie; [Keccak256] is assumed not to give the zero hash where a
    root is compared with it. *)
Class TrieReadLaws `{CryptoOps, AccountOps, TrieOps, !DatabaseOps, !TrieLaws, !TrieMapLaws} := {
  trie_map_inv t m : trie_map t m → trie_inv t;
  TryGet_value k t m : trie_map t m → (trie_TryGet k t).2 = Ok (m !! keccak256 k);
  TryGetAccount_absent a t m :
    trie_map t m → m !! keccak256 a = None → (trie_TryGetAccount a t).2 = Ok None;
  TryGetAccount_stored a t m b :
    trie_map t m → m !! keccak256 a = Some b →
    match decode_StateAccount b with
    | Some acc => (trie_TryGetAccount a t).2 = Ok (Some acc)
    | None => ∃ e, (trie_TryGetAccount a t).2 = Err e
    end;
  root_of_nonzero m : (∀ b, keccak256 b ≠ zeroHash) → root_of m ≠ zeroHash
}.

Section facts.
Context `{TrieLaws, !DatabaseOps, !DatabaseLaws}.

#[export] Instance same_reads_equiv : Equivalence same_reads.
Proof.
  split; [done|by intros t t' [? ?]; split|].
  intros t1 t2 t3 [A1 B1] [A2 B2]. split; intros; congruence.
Qed.
#[export] Instance same_db_equiv : Equivalence same_db.
Proof.
  split; [done|by intros t t' (? & ? & ?); split_and!|].
  intros t1 t2 t3 (A1 & B1 & C1) (A2 & B2 & C2). split_and!; intros; congruence.
Qed.

Lemma reads_of_inv t0 t : trie_inv t0 → reads_of t0 t → trie_inv t ∧ same_reads t0 t.
Proof.
  intros Ht0. induction 1 as [|k t _ [IH1 IH2]|t t' _ [IH1 IH2] Hc]; [done|..].
  - destruct (TryGet_reads k t IH1) as (? & ? & _). split; [done|by etrans].
  - destruct (CopyTrie_reads t IH1) as (? & E & ? & ?). rewrite Hc in E. injection E as <-.
    split; [done|by etrans].
Qed.
End facts.

Lemma reads_of_map `{TrieMapLaws} t0 t m : reads_of t0 t → trie_map t0 m → trie_map t m.
Proof. induction 1; intros; eauto using TryGet_map, CopyTrie_map. Qed.
