(* ===== verification/Prefetcher.v ===== *)
(** * The trie prefetcher: trie_by_cid/state/trie_prefetcher.go

    A [subfetcher] is a goroutine that loads the entries of one trie.  Its record
    holds its fields, the buffered channel [wake], which of [stop] and [term]
    are closed, and where the goroutine is; [moves] lists what it can do next, a
    [select] having one entry for each ready case.  The channel [copy] has no
    buffer, so a copy is handed over in one move, when somebody waits for it.

    The owner of the prefetcher and the goroutines run interleaved: before each
    operation on a subfetcher the goroutine makes any number of moves, and an
    operation that blocks lets it move until it can go on.  [choose] makes every
    choice.  The meters are left out. *)
From S2P Require Import Prelude Errors Geth StateOps.
Local Open Scope nat_scope.

(** Where the goroutine [loop] is: opening the trie, in the outer [select], in
    the loop over the tasks it has taken, or done ([term] is closed). *)
Inductive position := Opening | Waiting | Loading (tasks : list bytes) | Ended.

Section prefetcher.
Context `{TrieOps, !DatabaseOps, RangeOps, SchedOps}.

Record subfetcher := MkSubfetcher {
  sf_state : bytes;
  sf_owner : bytes;
  sf_root : bytes;
  sf_trie : option trie;
  sf_tasks : list bytes;
  sf_wake : bool;
  sf_stop : bool;
  sf_seen : gset bytes;
  sf_dups : Z;
  sf_used : list bytes;
  sf_at : position
}.

Definition eta_sf (sf : subfetcher) : subfetcher :=
  MkSubfetcher (sf_state sf) (sf_owner sf) (sf_root sf) (sf_trie sf) (sf_tasks sf) (sf_wake sf)
    (sf_stop sf) (sf_seen sf) (sf_dups sf) (sf_used sf) (sf_at sf).
Definition upd_sf_trie f (sf : subfetcher) : subfetcher := ltac:(update_field eta_sf sf_trie f sf).
Definition upd_sf_tasks f (sf : subfetcher) : subfetcher := ltac:(update_field eta_sf sf_tasks f sf).
Definition upd_sf_wake f (sf : subfetcher) : subfetcher := ltac:(update_field eta_sf sf_wake f sf).
Definition upd_sf_stop f (sf : subfetcher) : subfetcher := ltac:(update_field eta_sf sf_stop f sf).
Definition upd_sf_seen f (sf : subfetcher) : subfetcher := ltac:(update_field eta_sf sf_seen f sf).
Definition upd_sf_dups f (sf : subfetcher) : subfetcher := ltac:(update_field eta_sf sf_dups f sf).
Definition upd_sf_used f (sf : subfetcher) : subfetcher := ltac:(update_field eta_sf sf_used f sf).
Definition upd_sf_at f (sf : subfetcher) : subfetcher := ltac:(update_field eta_sf sf_at f sf).

Definition newSubfetcher (state owner root : bytes) : subfetcher :=
  MkSubfetcher state owner root None [] false false ∅ 0 [] Opening.

(** Sending on [wake] never blocks: the channel holds one message.  The keys are
    queued and the message is sent in one step: should the goroutine fetch its
    tasks in between, woken by an earlier message, it finds none the next time. *)
Definition schedule (keys : list bytes) (sf : subfetcher) : subfetcher :=
  upd_sf_wake (λ _, true) (upd_sf_tasks (λ tasks, tasks ++ keys) sf).

(** ** The goroutine *)

Definition open_trie (db : database) (state owner root : bytes) : result trie :=
  if bool_decide (owner = zeroHash) then OpenTrie root db else OpenStorageTrie state owner root db.
Definition sf_open (db : database) (sf : subfetcher) : result trie :=
  open_trie db (sf_state sf) (sf_owner sf) (sf_root sf).

(** [sf.db.CopyTrie(sf.trie)]; it panics on nil. *)
Definition copy_trie (sf : subfetcher) : result trie :=
  match sf_trie sf with
  | Some t => CopyTrie t
  | None => Panic "unknown trie type <nil>"
  end.

(** The default case of the inner [select]; the result of the read is dropped. *)
Definition load_task (task : bytes) (sf : subfetcher) : result subfetcher :=
  if bool_decide (task ∈ sf_seen sf) then Ok (upd_sf_dups (Z.add 1) sf)
  else
    match sf_trie sf with
    | None => Panic "nil pointer dereference"
    | Some t =>
        let '(t, r) := trie_TryGet task t in
        match r with
        | Ok _ | Err _ => Ok (upd_sf_seen (union {[task]}) (upd_sf_trie (λ _, Some t) sf))
        | Panic w => Panic w
        | OutOfFuel => OutOfFuel
        end
    end.

(** A move: the new state, and the copy that was handed over in it. *)
Definition move := result (subfetcher * option trie).
Definition silent (sf : subfetcher) : move := Ok (sf, None).
Definition hand_over (pos : position) (sf : subfetcher) : move :=
  t ← copy_trie sf; Ok (upd_sf_at (λ _, pos) sf, Some t).

(** [moves wanted]: somebody is waiting for a copy, or nobody is. *)
Definition moves (wanted : bool) (db : database) (sf : subfetcher) : list move :=
  match sf_at sf with
  | Ended => []
  | Opening =>
      [match sf_open db sf with
       | Ok t => silent (upd_sf_at (λ _, Waiting) (upd_sf_trie (λ _, Some t) sf))
       | Err _ => silent (upd_sf_at (λ _, Ended) sf)
       | Panic w => Panic w
       | OutOfFuel => OutOfFuel
       end]
  | Waiting =>
      (if sf_wake sf
       then [silent (upd_sf_at (λ _, Loading (sf_tasks sf))
               (upd_sf_tasks (λ _, []) (upd_sf_wake (λ _, false) sf)))] else [])
      ++ (if wanted then [hand_over Waiting sf] else [])
      ++ (if sf_stop sf then [silent (upd_sf_at (λ _, Ended) sf)] else [])
  | Loading [] => [silent (upd_sf_at (λ _, Waiting) sf)]
  | Loading (task :: rest) =>
      let stopped :=
        if sf_stop sf
        then [silent (upd_sf_at (λ _, Ended) (upd_sf_tasks (λ tasks, tasks ++ task :: rest) sf))]
        else [] in
      let copied := if wanted then [hand_over (Loading rest) sf] else [] in
      match stopped ++ copied with
      | [] => [sf ← load_task task sf; silent (upd_sf_at (λ _, Loading rest) sf)]
      | ready => ready
      end
  end.

(** ** Running goroutine and owner *)

(** The state of a run: how many choices were made, and the subfetcher. *)
Abbreviation F_ := (stateM (nat * subfetcher) error).

(** One move, or nothing when the goroutine is blocked. *)
Definition one_move (wanted : bool) (db : database) : F_ (option (option trie)) := λ p,
  let '(clock, sf) := p in
  match moves wanted db sf with
  | [] => (p, Ok None)
  | m :: ms =>
      match nth (choose clock mod length (m :: ms)) (m :: ms) m with
      | Ok (sf, copied) => ((S clock, sf), Ok (Some copied))
      | Err e => (p, Err e)
      | Panic w => (p, Panic w)
      | OutOfFuel => (p, OutOfFuel)
      end
  end.

Fixpoint run_moves (n : nat) (db : database) : F_ unit :=
  match n with
  | O => mret tt
  | S n =>
      r ← one_move false db;
      match r with None => mret tt | Some _ => run_moves n db end
  end.
Definition background (db : database) : F_ unit := λ p,
  let '(clock, sf) := p in run_moves (choose clock) db (S clock, sf).

(** [term] is closed. *)
Definition ended (sf : subfetcher) : bool := match sf_at sf with Ended => true | _ => false end.

(** An owner that waits lets the goroutine move; [turns] moves are enough. *)
Definition turns : nat := 6.

Fixpoint peek_loop (fuel : nat) (db : database) : F_ (option trie) :=
  match fuel with
  | O => lift OutOfFuel
  | S fuel =>
      sf ← gets snd;
      if ended sf then
        match sf_trie sf with
        | None => mret None
        | Some _ => t ← lift (copy_trie sf); mret (Some t)
        end
      else
        r ← one_move true db;
        match r with
        | None => lift (Panic "deadlock")
        | Some None => peek_loop fuel db
        | Some (Some t) => mret (Some t)
        end
  end.
Definition peek (db : database) : F_ (option trie) := _ ← background db; peek_loop turns db.

Fixpoint abort_loop (fuel : nat) (db : database) : F_ unit :=
  match fuel with
  | O => lift OutOfFuel
  | S fuel =>
      sf ← gets snd;
      if ended sf then mret tt
      else
        r ← one_move false db;
        match r with
        | None => lift (Panic "deadlock")
        | Some _ => abort_loop fuel db
        end
  end.
Definition abort (db : database) : F_ unit :=
  _ ← background db;
  _ ← modify (λ p, (p.1, upd_sf_stop (λ _, true) p.2));
  abort_loop turns db.

(** ** The prefetcher *)

(** [fetches] is nil in an active prefetcher; [fetchers] is nil in a copy and
    after [close].  The [Database], which is the one of the [StateDB], is an
    argument of the methods. *)
Record triePrefetcher := MkPrefetcher {
  pf_root : bytes;
  pf_fetches : option (gmap bytes (option trie));
  pf_fetchers : option (gmap bytes subfetcher);
  pf_clock : nat
}.
Abbreviation P_ := (stateM triePrefetcher error).

Definition upd_fetchers f (p : triePrefetcher) : triePrefetcher :=
  MkPrefetcher (pf_root p) (pf_fetches p) (f (pf_fetchers p)) (pf_clock p).

Definition newTriePrefetcher (root : bytes) : triePrefetcher := MkPrefetcher root None (Some ∅) 0.

Definition trieID (owner root : bytes) : bytes := owner ++ root.

(** [p.fetchers[id]]; a nil map has no entries. *)
Definition fetcher (id : bytes) (p : triePrefetcher) : option subfetcher :=
  default ∅ (pf_fetchers p) !! id.

(** Run an operation of the subfetcher under [id]. *)
Definition on_fetcher {A} (id : bytes) (sf : subfetcher) (m : F_ A) : P_ A := λ p,
  let '((clock, sf), r) := m (pf_clock p, sf) in
  (MkPrefetcher (pf_root p) (pf_fetches p) (<[id := sf]> <$> pf_fetchers p) clock, r).

Definition pf_close (db : database) : P_ unit :=
  fetchers ← gets (λ p, range (default ∅ (pf_fetchers p)));
  _ ← iterM (λ kv, on_fetcher kv.1 kv.2 (abort db)) fetchers;
  modify (upd_fetchers (λ _, None)).

(** The two loops of [copy]. *)
Fixpoint copy_fetches (l : list (bytes * option trie)) (copied : gmap bytes (option trie))
    : result (gmap bytes (option trie)) :=
  match l with
  | [] => Ok copied
  | (root, None) :: l => copy_fetches l copied
  | (root, Some fetch) :: l => t ← CopyTrie fetch; copy_fetches l (<[root := Some t]> copied)
  end.
Fixpoint copy_fetchers (db : database) (l : list (bytes * subfetcher))
    (copied : gmap bytes (option trie)) : P_ (gmap bytes (option trie)) :=
  match l with
  | [] => mret copied
  | (id, sf) :: l => t ← on_fetcher id sf (peek db); copy_fetchers db l (<[id := t]> copied)
  end.

Definition pf_copy (db : database) : P_ triePrefetcher :=
  p ← gets id;
  fetches ← match pf_fetches p with
            | Some fetches => lift (copy_fetches (range fetches) ∅)
            | None => copy_fetchers db (range (default ∅ (pf_fetchers p))) ∅
            end;
  mret (MkPrefetcher (pf_root p) (Some fetches) None 0).

Definition pf_prefetch (db : database) (owner root : bytes) (keys : list bytes) : P_ unit := λ p,
  match pf_fetches p with
  | Some _ => (p, Ok tt)
  | None =>
      let id := trieID owner root in
      match pf_fetchers p, fetcher id p with
      | None, _ => (p, Panic "assignment to entry in nil map")
      | Some _, found =>
          let sf := default (newSubfetcher (pf_root p) owner root) found in
          on_fetcher id sf (_ ← background db; modify (λ q, (q.1, schedule keys q.2))) p
      end
  end.

Definition pf_trie (db : database) (owner root : bytes) : P_ (option trie) := λ p,
  let id := trieID owner root in
  match pf_fetches p with
  | Some fetches =>
      match fetches !! id with
      | Some (Some t) => (p, t ← CopyTrie t; Ok (Some t))
      | _ => (p, Ok None)
      end
  | None =>
      match fetcher id p with
      | None => (p, Ok None)
      | Some sf => on_fetcher id sf (_ ← abort db; peek db) p
      end
  end.

Definition pf_used (owner root : bytes) (used : list bytes) (p : triePrefetcher) : triePrefetcher :=
  let id := trieID owner root in
  match fetcher id p with
  | Some sf => upd_fetchers (fmap <[id := upd_sf_used (λ _, used) sf]>) p
  | None => p
  end.
End prefetcher.
