(* ===== verification/PrefetcherSpec.v ===== *)
(** * The prefetcher only warms tries up

    Whatever the goroutines do and however the scheduler chooses, what the
    prefetcher hands out is a trie that was opened under the asked root and since
    then only read and copied; asking never fails, deadlocks or runs on. *)
From S2P Require Import Prelude Errors Geth StateOps Prefetcher.
Local Open Scope nat_scope.

Section spec.
Context `{TrieOps, !DatabaseOps, RangeOps, SchedOps, !RangeLaws, !TrieLaws, !DatabaseLaws}.
Abbreviation F_ := (stateM (nat * subfetcher) error).
Abbreviation P_ := (stateM triePrefetcher error).

(** A trie as the database would open it, up to reads. *)
Definition lent (db : database) (st owner root : bytes) (t : trie) : Prop :=
  ∃ t0, open_trie db st owner root = Ok t0 ∧ reads_of t0 t.

Lemma open_trie_inv db st owner root : db_inv db →
  match open_trie db st owner root with Ok t => trie_inv t | Err _ => True | _ => False end.
Proof.
  intros Hd. unfold open_trie. case_bool_decide; [by apply OpenTrie_inv|by apply OpenStorageTrie_inv].
Qed.

Lemma lent_inv db st owner root t : db_inv db → lent db st owner root t → trie_inv t.
Proof.
  intros Hd (t0 & E & Hr). pose proof (open_trie_inv db st owner root Hd) as Hi. rewrite E in Hi.
  by apply (reads_of_inv t0 t).
Qed.

Lemma lent_copy db st owner root t :
  db_inv db → lent db st owner root t → ∃ t', CopyTrie t = Ok t' ∧ lent db st owner root t'.
Proof.
  intros Hd Ht. destruct (CopyTrie_reads t) as (t' & E & _); [by eapply lent_inv|].
  exists t'. split; [done|]. destruct Ht as (t0 & E0 & Hr). exists t0. split; [done|by eapply reads_copy].
Qed.

Lemma lent_db db db' st owner root t :
  same_db db db' → lent db st owner root t → lent db' st owner root t.
Proof.
  intros (_ & Hs & Ha) (t0 & E & Hr). exists t0. split; [|done]. rewrite <- E. unfold open_trie.
  by case_bool_decide.
Qed.

(** ** Subfetchers *)

Record sf_inv (db : database) (st owner root : bytes) (sf : subfetcher) : Prop := {
  fi_state : sf_state sf = st;
  fi_owner : sf_owner sf = owner;
  fi_root : sf_root sf = root;
  fi_trie : match sf_trie sf with
            | Some t => lent db st owner root t
            | None => sf_at sf = Opening ∨ sf_at sf = Ended
            end;
  fi_wake : sf_tasks sf ≠ [] → sf_wake sf = true ∨ sf_at sf = Ended
}.

Section subfetcher.
Context (db : database) (st owner root : bytes).
Hypothesis Hdb : db_inv db.
Abbreviation inv := (sf_inv db st owner root).

(** How many moves are left when somebody waits for a copy or for the end. *)
Definition weight (sf : subfetcher) : nat :=
  (if sf_wake sf then 2 else 0)
  + match sf_at sf with Opening => 2 | Loading _ => 2 | Waiting => 1 | Ended => 0 end.

(** What a move does. *)
Record moved_ok (wanted : bool) (sf sf' : subfetcher) (copied : option trie) : Prop := {
  mo_inv : inv sf';
  mo_stop : sf_stop sf' = sf_stop sf;
  mo_copied t : copied = Some t → wanted = true ∧ lent db st owner root t;
  mo_weight : wanted = true ∨ sf_stop sf = true → copied = None →
    sf_at sf' = Ended ∨ weight sf' < weight sf
}.

(** A goroutine with a trie keeps the invariant as long as no wake-up is lost;
    one that ends always does. *)
Lemma inv_moved sf sf' :
  inv sf → sf_state sf' = sf_state sf → sf_owner sf' = sf_owner sf → sf_root sf' = sf_root sf →
  sf_trie sf' = sf_trie sf →
  sf_at sf' = Ended
  ∨ (sf_at sf ≠ Opening ∧ sf_at sf ≠ Ended ∧ (sf_tasks sf' ≠ [] → sf_wake sf' = true)) → inv sf'.
Proof.
  intros [] Es Eo Er Et Hat. split; try congruence.
  - rewrite Et. destruct (sf_trie sf); [done|]. naive_solver.
  - naive_solver.
Qed.

Lemma working_wakes sf : inv sf → sf_at sf ≠ Ended → sf_tasks sf ≠ [] → sf_wake sf = true.
Proof. intros Hi He Ht. by destruct (fi_wake _ _ _ _ _ Hi Ht). Qed.

Lemma ends_ok wanted sf sf' :
  inv sf → sf_state sf' = sf_state sf → sf_owner sf' = sf_owner sf → sf_root sf' = sf_root sf →
  sf_trie sf' = sf_trie sf → sf_stop sf' = sf_stop sf → sf_at sf' = Ended → moved_ok wanted sf sf' None.
Proof. intros Hi ??????. split; [|done..|by left]. eapply inv_moved; eauto. Qed.

Lemma hand_over_ok pos sf :
  inv sf → sf_at sf ≠ Opening → sf_at sf ≠ Ended →
  ∃ t, hand_over pos sf = Ok (upd_sf_at (λ _, pos) sf, Some t)
    ∧ moved_ok true sf (upd_sf_at (λ _, pos) sf) (Some t).
Proof.
  intros Hi Ho He. pose proof (fi_trie _ _ _ _ _ Hi) as Ht. unfold hand_over, copy_trie.
  destruct (sf_trie sf) as [t|] eqn:Et; [|naive_solver].
  destruct (lent_copy db st owner root t) as (t' & -> & Ht'); [done..|].
  exists t'. split; [done|]. split; [|done|naive_solver|done].
  apply (inv_moved sf); try done. right. split_and!; [done..|by apply (working_wakes sf)].
Qed.

Lemma load_task_ok task rest sf :
  inv sf → sf_at sf = Loading (task :: rest) →
  ∃ sf', load_task task sf = Ok sf' ∧ inv (upd_sf_at (λ _, Loading rest) sf') ∧ sf_stop sf' = sf_stop sf.
Proof.
  intros Hi Hat. pose proof (fi_trie _ _ _ _ _ Hi) as Ht. unfold load_task.
  destruct (sf_trie sf) as [t|] eqn:Et; [|rewrite Hat in Ht; by destruct Ht].
  pose proof (working_wakes sf Hi) as Hw. rewrite Hat in Hw.
  case_bool_decide.
  { eexists. split; [done|]. split; [|done]. apply (inv_moved sf); try done. right. rewrite Hat.
    split_and!; [done..|]. by apply Hw. }
  destruct (TryGet_reads task t) as (_ & _ & Hret); [by eapply lent_inv|].
  assert (lent db st owner root (trie_TryGet task t).1) as Ht'.
  { destruct Ht as (t0 & E & Hr). exists t0. split; [done|by apply reads_get]. }
  destruct (trie_TryGet task t) as [t' r]. simpl in *.
  destruct r; try done; (eexists; split; [done|]; split; [|done]; split; simpl; [apply Hi..|done|]; left; by apply Hw).
Qed.

Lemma open_ok wanted sf m :
  inv sf → sf_at sf = Opening → m ∈ moves wanted db sf →
  ∃ sf' copied, m = Ok (sf', copied) ∧ moved_ok wanted sf sf' copied.
Proof.
  intros Hi Hat Hm. unfold moves in Hm. rewrite Hat in Hm. apply list_elem_of_singleton in Hm as ->.
  unfold sf_open. rewrite (fi_state _ _ _ _ _ Hi), (fi_owner _ _ _ _ _ Hi), (fi_root _ _ _ _ _ Hi).
  pose proof (open_trie_inv db st owner root Hdb) as Hopen.
  destruct (open_trie db st owner root) as [t|e| |] eqn:E; try done; eexists _, None; (split; [done|]).
  - split; [|done|done|right; unfold weight; simpl; rewrite Hat; lia].
    split; simpl; try apply Hi; [by exists t; split; [|constructor]|].
    left. apply (working_wakes sf); [done|by rewrite Hat|done].
  - by apply ends_ok.
Qed.

Lemma waiting_ok wanted sf m :
  inv sf → sf_at sf = Waiting → m ∈ moves wanted db sf →
  ∃ sf' copied, m = Ok (sf', copied) ∧ moved_ok wanted sf sf' copied.
Proof.
  intros Hi Hat Hm. unfold moves in Hm. rewrite Hat in Hm. apply elem_of_app in Hm as [Hm|[Hm|Hm]%elem_of_app].
  - destruct (sf_wake sf) eqn:Hw; [|by apply not_elem_of_nil in Hm].
    apply list_elem_of_singleton in Hm as ->. eexists _, None. split; [done|]. split; [|done|done|].
    + apply (inv_moved sf); try done. right. by rewrite Hat.
    + right. unfold weight. simpl. rewrite Hat, Hw. lia.
  - destruct wanted; [|by apply not_elem_of_nil in Hm]. apply list_elem_of_singleton in Hm as ->.
    destruct (hand_over_ok Waiting sf) as (t & -> & Ht); [done|by rewrite Hat..|]. by eexists _, _.
  - destruct (sf_stop sf) eqn:Hs; [|by apply not_elem_of_nil in Hm].
    apply list_elem_of_singleton in Hm as ->. eexists _, None. split; [done|]. by apply ends_ok.
Qed.

Lemma loading_ok wanted tasks sf m :
  inv sf → sf_at sf = Loading tasks → m ∈ moves wanted db sf →
  ∃ sf' copied, m = Ok (sf', copied) ∧ moved_ok wanted sf sf' copied.
Proof.
  intros Hi Hat Hm. unfold moves in Hm. rewrite Hat in Hm. destruct tasks as [|task rest].
  { apply list_elem_of_singleton in Hm as ->. eexists _, None. split; [done|]. split; [|done|done|].
    - apply (inv_moved sf); try done. right. rewrite Hat. split_and!; [done..|].
      apply (working_wakes sf); [done|by rewrite Hat].
    - right. unfold weight. simpl. rewrite Hat. lia. }
  assert (∀ m', m' = silent (upd_sf_at (λ _, Ended) (upd_sf_tasks (λ tasks, tasks ++ task :: rest) sf)) →
    ∃ sf' copied, m' = Ok (sf', copied) ∧ moved_ok wanted sf sf' copied) as Hend.
  { intros ? ->. eexists _, None. split; [done|]. by apply ends_ok. }
  assert (wanted = true → ∀ m', m' = hand_over (Loading rest) sf →
    ∃ sf' copied, m' = Ok (sf', copied) ∧ moved_ok wanted sf sf' copied) as Hcopy.
  { intros -> ? ->. destruct (hand_over_ok (Loading rest) sf) as (t & -> & Ht); [done|by rewrite Hat..|].
    by eexists _, _. }
  destruct (sf_stop sf) eqn:Hs, wanted; simpl in Hm; rewrite ?elem_of_cons, ?elem_of_nil in Hm;
    [destruct Hm as [Hm|[Hm|[]]]; auto|destruct Hm as [Hm|[]]; auto..|].
  destruct Hm as [->|[]]. destruct (load_task_ok task rest sf Hi Hat) as (sf' & -> & Hi' & Hst).
  eexists _, None. split; [done|]. split; [done|exact Hst|done|]. rewrite Hs. naive_solver.
Qed.

(** Every move that is possible goes well. *)
Lemma moves_ok wanted sf m :
  inv sf → m ∈ moves wanted db sf → ∃ sf' copied, m = Ok (sf', copied) ∧ moved_ok wanted sf sf' copied.
Proof.
  intros Hi Hm. destruct (sf_at sf) as [| |tasks|] eqn:Hat; [by apply open_ok|by apply waiting_ok|
    by eapply loading_ok|]. unfold moves in Hm. rewrite Hat in Hm. by apply not_elem_of_nil in Hm.
Qed.

(** A goroutine somebody waits for is never blocked. *)
Lemma moves_some wanted sf :
  wanted = true ∨ sf_stop sf = true → sf_at sf ≠ Ended → moves wanted db sf ≠ [].
Proof.
  intros Hw He. unfold moves. destruct (sf_at sf) as [| |[|task rest]|]; try done.
  - destruct (sf_wake sf); [done|]. destruct wanted, (sf_stop sf); naive_solver.
  - destruct wanted, (sf_stop sf); naive_solver.
Qed.

(** ** Running goroutine and owner *)

(** A run that ends with a value, in a good state. *)
Definition runs {A} (m : F_ A) (p : nat * subfetcher) (Q : subfetcher → A → Prop) : Prop :=
  ∃ clock' sf' a, m p = ((clock', sf'), Ok a) ∧ inv sf' ∧ Q sf' a.

Lemma runs_ret {A} (a : A) p Q : inv p.2 → Q p.2 a → runs (mret a) p Q.
Proof. destruct p as [clock sf]. intros. by exists clock, sf, a. Qed.

Lemma runs_bind {A B} (m : F_ A) (f : A → F_ B) p (Q : subfetcher → A → Prop) R :
  runs m p Q → (∀ clock sf a, inv sf → Q sf a → runs (f a) (clock, sf) R) → runs (m ≫= f) p R.
Proof.
  intros (clock & sf & a & E & Hi & HQ) Hf.
  destruct (Hf clock sf a Hi HQ) as (c' & sf' & b & E' & ?). exists c', sf', b.
  split; [|done]. unfold mbind, stateM_bind. by rewrite E.
Qed.

Lemma runs_weaken {A} (m : F_ A) p (Q R : subfetcher → A → Prop) :
  runs m p Q → (∀ sf a, inv sf → Q sf a → R sf a) → runs m p R.
Proof. intros (clock & sf & a & E & Hi & HQ) HR. exists clock, sf, a. auto. Qed.

Lemma one_move_runs wanted clock sf :
  inv sf → runs (one_move wanted db) (clock, sf) (λ sf' r,
    match r with
    | None => sf' = sf ∧ moves wanted db sf = []
    | Some copied => moved_ok wanted sf sf' copied
    end ∧ (is_Some r → sf_at sf ≠ Ended)).
Proof.
  intros Hi. unfold one_move, runs. destruct (moves wanted db sf) as [|m ms] eqn:Em.
  { exists clock, sf, None. split_and!; [done..|by intros []]. }
  set (m' := nth _ _ _). assert (m' ∈ m :: ms) as Hm.
  { apply list_elem_of_In, nth_In, Nat.mod_upper_bound. done. }
  rewrite <- Em in Hm. destruct (moves_ok wanted sf m' Hi Hm) as (sf' & copied & -> & Hmv).
  exists (S clock), sf', (Some copied). split_and!; [done|apply Hmv|done|].
  intros _ Hat. unfold moves in Em. by rewrite Hat in Em.
Qed.

(** Only the goroutine moves: what the owner has set stays. *)
Lemma background_runs clock sf :
  inv sf →
  runs (background db) (clock, sf) (λ sf' _, sf_stop sf' = sf_stop sf ∧ (sf_at sf = Ended → sf' = sf)).
Proof.
  intros Hi. change (runs (run_moves (choose clock) db) (S clock, sf)
    (λ sf' _, sf_stop sf' = sf_stop sf ∧ (sf_at sf = Ended → sf' = sf))).
  revert sf Hi. generalize (choose clock), (S clock). intros n.
  induction n as [|n IH]; intros c sf Hi; cbn [run_moves]; [by apply runs_ret|].
  eapply runs_bind; [by apply one_move_runs|]. cbv beta. intros c' sf' [copied|] Hi' Hr.
  - destruct Hr as [Hr He]. eapply runs_weaken; [by apply IH|]. cbv beta. intros sf'' _ _ [-> _].
    split; [apply Hr|intros Hat; by destruct He].
  - destruct Hr as [[-> _] _]. by apply runs_ret.
Qed.

Lemma weight_bound sf : weight sf ≤ 4.
Proof. unfold weight. destruct (sf_wake sf), (sf_at sf); lia. Qed.

Lemma ended_true sf : ended sf = true ↔ sf_at sf = Ended.
Proof. unfold ended. by destruct (sf_at sf). Qed.
Lemma ended_false sf : ended sf = false ↔ sf_at sf ≠ Ended.
Proof. unfold ended. by destruct (sf_at sf). Qed.

Lemma runs_gets {B} (f : subfetcher → F_ B) p R :
  runs (f p.2) p R → runs (sf ← gets snd; f sf) p R.
Proof. done. Qed.

(** What [peek] hands out. *)
Definition lent_opt (ot : option trie) : Prop := ∀ t, ot = Some t → lent db st owner root t.

Lemma peek_loop_runs fuel : ∀ clock sf,
  inv sf → sf_at sf = Ended ∧ 0 < fuel ∨ S (weight sf) < fuel →
  runs (peek_loop fuel db) (clock, sf) (λ sf' ot, lent_opt ot ∧ (sf_at sf = Ended → sf' = sf)).
Proof.
  induction fuel as [|fuel IH]; intros clock sf Hi Hf; [lia|]. cbn [peek_loop]. apply runs_gets.
  cbn [snd]. destruct (ended sf) eqn:He.
  { pose proof (fi_trie _ _ _ _ _ Hi) as Ht. unfold copy_trie.
    destruct (sf_trie sf) as [t|] eqn:Et; [|by apply runs_ret].
    destruct (lent_copy db st owner root t) as (t' & E & Ht'); [done..|]. rewrite E.
    apply (runs_ret (Some t')); [done|]. split; [by intros ? [= <-]|done]. }
  apply ended_false in He. destruct Hf as [[? _]|Hf]; [done|].
  eapply runs_bind; [by apply one_move_runs|]. cbv beta. intros c' sf' [[t|]|] Hi' [Hr _].
  - apply runs_ret; [done|]. split; [|done]. intros ? [= <-]. by apply Hr.
  - eapply runs_weaken; [apply IH; [done|]|cbv beta; intros sf'' ot _ [? _]; by split].
    destruct (mo_weight _ _ _ _ Hr) as [?|?]; [by left|done|left; split; [done|lia]|right; lia].
  - destruct Hr as [_ Hr]. by apply moves_some in Hr; [|left|].
Qed.

Lemma abort_loop_runs fuel : ∀ clock sf,
  inv sf → sf_stop sf = true → sf_at sf = Ended ∧ 0 < fuel ∨ S (weight sf) < fuel →
  runs (abort_loop fuel db) (clock, sf) (λ sf' _, sf_at sf' = Ended).
Proof.
  induction fuel as [|fuel IH]; intros clock sf Hi Hs Hf; [lia|]. cbn [abort_loop]. apply runs_gets.
  cbn [snd]. destruct (ended sf) eqn:He; [apply runs_ret; [done|by apply ended_true]|].
  apply ended_false in He. destruct Hf as [[? _]|Hf]; [done|].
  eapply runs_bind; [by apply one_move_runs|]. cbv beta. intros c' sf' [copied|] Hi' [Hr _].
  - apply IH; [done|by rewrite (mo_stop _ _ _ _ Hr)|].
    destruct copied as [t|]; [by destruct (mo_copied _ _ _ _ Hr t)|].
    destruct (mo_weight _ _ _ _ Hr) as [?|?]; [by right|done|left; split; [done|lia]|right; lia].
  - destruct Hr as [_ Hr]. by apply moves_some in Hr; [|right|].
Qed.

Lemma peek_runs clock sf :
  inv sf → runs (peek db) (clock, sf) (λ sf' ot, lent_opt ot ∧ (sf_at sf = Ended → sf' = sf)).
Proof.
  intros Hi. eapply runs_bind; [by apply background_runs|]. cbv beta. intros c' sf' _ Hi' [_ He].
  eapply runs_weaken; [apply peek_loop_runs; [done|]|].
  - right. pose proof (weight_bound sf'). unfold turns. lia.
  - cbv beta. intros sf'' ot _ [? He']. split; [done|]. intros Hat. specialize (He Hat). subst sf'. auto.
Qed.

Lemma abort_runs clock sf : inv sf → runs (abort db) (clock, sf) (λ sf' _, sf_at sf' = Ended).
Proof.
  intros Hi. eapply runs_bind; [by apply background_runs|]. cbv beta. intros c' sf' _ Hi' _.
  set (sf2 := upd_sf_stop (λ _, true) sf'). assert (inv sf2) as Hi2 by by destruct Hi'.
  change (runs (abort_loop turns db) (c', sf2) (λ sf' _, sf_at sf' = Ended)).
  apply abort_loop_runs; [done|done|]. right. pose proof (weight_bound sf2). unfold turns. lia.
Qed.
End subfetcher.

(** ** Prefetchers *)

Record pf_inv (db : database) (st : bytes) (p : triePrefetcher) : Prop := {
  pi_root : pf_root p = st;
  pi_fetches fetches id t :
    pf_fetches p = Some fetches → fetches !! id = Some (Some t) →
    ∃ owner root, id = trieID owner root ∧ length owner = hashLen ∧ lent db st owner root t;
  pi_fetchers fetchers id sf :
    pf_fetchers p = Some fetchers → fetchers !! id = Some sf →
    ∃ owner root, id = trieID owner root ∧ length owner = hashLen ∧ sf_inv db st owner root sf;
  pi_active : pf_fetches p = None → is_Some (pf_fetchers p)
}.

(** Identifiers are unambiguous: owners have one length. *)
Lemma trieID_inj owner owner' root root' :
  length owner = hashLen → length owner' = hashLen →
  trieID owner root = trieID owner' root' → owner = owner' ∧ root = root'.
Proof. intros Ho Ho' E. apply app_inj_1 in E; [done|congruence]. Qed.

Lemma pf_inv_new db st : pf_inv db st (newTriePrefetcher st).
Proof. split; try done. simpl. intros ??? [= <-]. by rewrite lookup_empty. Qed.

Lemma sf_inv_db db db' st owner root sf :
  same_db db db' → sf_inv db st owner root sf → sf_inv db' st owner root sf.
Proof.
  intros Hdd []. split; try done. destruct (sf_trie sf); [|done]. by eapply lent_db.
Qed.

Lemma pf_inv_db db db' st p : same_db db db' → pf_inv db st p → pf_inv db' st p.
Proof.
  intros Hdd []. split; try done.
  - intros fetches id t Hf Ht. destruct (pi_fetches0 _ _ _ Hf Ht) as (owner & root & ? & ? & ?).
    exists owner, root. split_and!; [done..|by eapply lent_db].
  - intros fetchers id sf Hf Hsf. destruct (pi_fetchers0 _ _ _ Hf Hsf) as (owner & root & ? & ? & ?).
    exists owner, root. split_and!; [done..|by eapply sf_inv_db].
Qed.

Section prefetcher.
Context (db : database) (st : bytes).
Hypothesis Hdb : db_inv db.

Lemma fetcher_inv p owner root sf :
  pf_inv db st p → length owner = hashLen → fetcher (trieID owner root) p = Some sf →
  sf_inv db st owner root sf.
Proof.
  intros Hp Ho Hsf. unfold fetcher in Hsf. destruct (pf_fetchers p) as [fetchers|] eqn:Ef; [|done].
  destruct (pi_fetchers _ _ _ Hp _ _ _ Ef Hsf) as (owner' & root' & E & Ho' & Hi).
  by apply trieID_inj in E as [-> ->].
Qed.

Lemma pf_inv_insert p owner root sf clock :
  pf_inv db st p → length owner = hashLen → sf_inv db st owner root sf →
  pf_inv db st (MkPrefetcher (pf_root p) (pf_fetches p) (<[trieID owner root := sf]> <$> pf_fetchers p) clock).
Proof.
  intros [] Ho Hi. split; simpl; try done.
  - intros fetchers id sf' Hf. destruct (pf_fetchers p) as [fetchers0|]; [|done]. injection Hf as <-.
    intros [[<- <-]|[_ Hsf]]%lookup_insert_Some; [by exists owner, root|by eapply pi_fetchers0].
  - intros Hf. apply fmap_is_Some, pi_active0, Hf.
Qed.

(** An operation of a subfetcher within the prefetcher. *)
Lemma on_fetcher_spec {A} p owner root sf (m : F_ A) Q :
  pf_inv db st p → length owner = hashLen →
  (∀ clock, runs db st owner root m (clock, sf) Q) →
  ∃ p' a sf', on_fetcher (trieID owner root) sf m p = (p', Ok a) ∧ pf_inv db st p' ∧ Q sf' a
    ∧ p' = MkPrefetcher (pf_root p) (pf_fetches p) (<[trieID owner root := sf']> <$> pf_fetchers p) (pf_clock p').
Proof.
  intros Hp Ho Hm. unfold on_fetcher. destruct (Hm (pf_clock p)) as (clock' & sf' & a & E & Hi & HQ).
  rewrite E. eexists _, a, sf'. split_and!; [done|by apply pf_inv_insert|done|done].
Qed.

Lemma pf_prefetch_spec p owner root keys :
  pf_inv db st p → length owner = hashLen →
  ∃ p', pf_prefetch db owner root keys p = (p', Ok tt) ∧ pf_inv db st p'.
Proof.
  intros Hp Ho. unfold pf_prefetch. destruct (pf_fetches p) as [fetches|] eqn:Ef; [by exists p|].
  destruct (pi_active _ _ _ Hp Ef) as [fetchers Hf]. rewrite Hf.
  set (sf := default _ _). assert (sf_inv db st owner root sf) as Hi.
  { unfold sf. destruct (fetcher _ p) as [sf'|] eqn:Esf; simpl; [by eapply fetcher_inv|].
    split; simpl; [apply Hp|done|done|by left|done]. }
  destruct (on_fetcher_spec p owner root sf (_ ← background db; modify (λ q, (q.1, schedule keys q.2)))
    (λ _ _, True) Hp Ho) as (p' & [] & sf' & E & Hp' & _); [|by exists p'].
  intros clock. eapply runs_bind; [by apply background_runs|]. cbv beta. intros c' sf' _ Hi' _.
  exists c', (schedule keys sf'), tt. split_and!; [done| |done].
  destruct Hi'. split; simpl; try done. by left.
Qed.

Lemma pf_trie_spec p owner root :
  pf_inv db st p → length owner = hashLen →
  ∃ p' ot, pf_trie db owner root p = (p', Ok ot) ∧ pf_inv db st p'
    ∧ lent_opt db st owner root ot
    ∧ (∀ sf, pf_fetches p = None → fetcher (trieID owner root) p = Some sf →
         ∃ sf', fetcher (trieID owner root) p' = Some sf' ∧ sf_at sf' = Ended).
Proof.
  intros Hp Ho. unfold pf_trie. destruct (pf_fetches p) as [fetches|] eqn:Ef.
  { destruct (fetches !! trieID owner root) as [[t|]|] eqn:Et; [|by exists p, None; split_and!..].
    destruct (pi_fetches _ _ _ Hp _ _ _ Ef Et) as (owner' & root' & E & Ho' & Hl).
    apply trieID_inj in E as [<- <-]; [|done..]. destruct (lent_copy _ _ _ _ _ Hdb Hl) as (t' & -> & Hl').
    exists p, (Some t'). split_and!; [done..|by intros ? [= <-]|done]. }
  destruct (fetcher (trieID owner root) p) as [sf|] eqn:Esf; [|by exists p, None; split_and!].
  destruct (on_fetcher_spec p owner root sf (_ ← abort db; peek db)
    (λ sf' ot, lent_opt db st owner root ot ∧ sf_at sf' = Ended) Hp Ho) as (p' & ot & sf' & -> & Hp' & [Hl He] & Ep).
  - intros clock. eapply runs_bind; [apply abort_runs; [done|by eapply fetcher_inv]|]. cbv beta.
    intros c' sf' _ Hi' Hat. eapply runs_weaken; [by apply peek_runs|]. cbv beta.
    intros sf'' ot _ [? He]. rewrite He by done. done.
  - exists p', ot. split_and!; [done..|]. intros _ _ _. exists sf'. split; [|done].
    destruct (pi_active _ _ _ Hp Ef) as [fetchers Hf]. rewrite Ep. unfold fetcher. simpl. rewrite Hf. simpl.
    apply lookup_insert_eq.
Qed.


Lemma pf_used_inv p owner root used :
  pf_inv db st p → length owner = hashLen → pf_inv db st (pf_used owner root used p).
Proof.
  intros Hp Ho. unfold pf_used. destruct (fetcher (trieID owner root) p) as [sf|] eqn:Esf; [|done].
  unfold upd_fetchers. apply pf_inv_insert; [done..|].
  pose proof (fetcher_inv p owner root sf Hp Ho Esf) as []. by split.
Qed.

(** The entries of the fetchers are subfetchers of the prefetcher. *)
Definition its_fetcher (id : bytes) (sf : subfetcher) : Prop :=
  ∃ owner root, id = trieID owner root ∧ length owner = hashLen ∧ sf_inv db st owner root sf.

Lemma range_fetchers p id sf :
  pf_inv db st p → (id, sf) ∈ range (default ∅ (pf_fetchers p)) → its_fetcher id sf.
Proof.
  intros Hp Hin. rewrite range_perm, elem_of_map_to_list in Hin.
  destruct (pf_fetchers p) as [m|] eqn:Em; simpl in Hin; [by eapply pi_fetchers|].
  by rewrite lookup_empty in Hin.
Qed.

Lemma abort_all_spec l : ∀ p,
  (∀ id sf, (id, sf) ∈ l → its_fetcher id sf) → pf_inv db st p →
  ∃ p', iterM (λ kv, on_fetcher kv.1 kv.2 (abort db)) l p = (p', Ok tt) ∧ pf_fetches p' = pf_fetches p.
Proof.
  induction l as [|[id sf] l IH]; intros p Hl Hp; [by exists p|].
  destruct (Hl id sf) as (owner & root & -> & Ho & Hi); [by left|].
  destruct (on_fetcher_spec p owner root sf (abort db) (λ sf' _, sf_at sf' = Ended) Hp Ho)
    as (p1 & [] & sf' & E & Hp1 & _ & Ep1); [intros clock; by apply abort_runs|].
  destruct (IH p1) as (p' & E' & Ef'); [intros; apply Hl; by right|done|].
  exists p'. cbn [iterM]. erewrite bind_step by exact E. split; [done|]. rewrite Ef'. by rewrite Ep1.
Qed.

Lemma pf_close_spec p :
  pf_inv db st p → ∃ p', pf_close db p = (p', Ok tt) ∧ pf_fetchers p' = None ∧ pf_fetches p' = pf_fetches p.
Proof.
  intros Hp. unfold pf_close. rewrite (bind_step _ _ p p (range (default ∅ (pf_fetchers p)))) by done.
  destruct (abort_all_spec (range (default ∅ (pf_fetchers p))) p) as (p' & E & Ef);
    [intros id sf; by apply range_fetchers|done|]. cbv beta.
  rewrite (bind_step _ _ _ _ _ E). by eexists.
Qed.

Lemma pf_inv_lend copied owner root ot :
  pf_inv db st (MkPrefetcher st (Some copied) None 0) → length owner = hashLen → lent_opt db st owner root ot →
  pf_inv db st (MkPrefetcher st (Some (<[trieID owner root := ot]> copied)) None 0).
Proof.
  intros [] Ho Hl. split; simpl; try done. intros ? id t [= <-].
  intros [[<- ->]|[_ Ht]]%lookup_insert_Some; [|by eapply pi_fetches0]. exists owner, root.
  split_and!; [done..|by apply Hl].
Qed.

(** The copies go into an inactive prefetcher. *)
Lemma copy_fetches_spec l : ∀ copied,
  (∀ id t, (id, Some t) ∈ l → ∃ owner root,
     id = trieID owner root ∧ length owner = hashLen ∧ lent db st owner root t) →
  pf_inv db st (MkPrefetcher st (Some copied) None 0) →
  ∃ copied', copy_fetches l copied = Ok copied' ∧ pf_inv db st (MkPrefetcher st (Some copied') None 0).
Proof.
  induction l as [|[id [t|]] l IH]; intros copied Hl Hc; simpl; [by exists copied| |].
  - destruct (Hl id t) as (owner & root & -> & Ho & Ht); [by left|].
    destruct (lent_copy _ _ _ _ _ Hdb Ht) as (t' & -> & Ht'). simpl. apply IH; [intros; apply Hl; by right|].
    apply pf_inv_lend; [done..|by intros ? [= <-]].
  - apply IH; [intros; apply Hl; by right|done].
Qed.

Lemma copy_fetchers_spec l : ∀ p copied,
  (∀ id sf, (id, sf) ∈ l → its_fetcher id sf) → pf_inv db st p → pf_inv db st (MkPrefetcher st (Some copied) None 0) →
  ∃ p' copied', copy_fetchers db l copied p = (p', Ok copied') ∧ pf_inv db st p'
    ∧ pf_inv db st (MkPrefetcher st (Some copied') None 0).
Proof.
  induction l as [|[id sf] l IH]; intros p copied Hl Hp Hc; [by exists p, copied|].
  destruct (Hl id sf) as (owner & root & -> & Ho & Hi); [by left|].
  destruct (on_fetcher_spec p owner root sf (peek db) (λ _ ot, lent_opt db st owner root ot) Hp Ho)
    as (p1 & ot & sf' & E & Hp1 & Hot & _).
  { intros clock. eapply runs_weaken; [by apply peek_runs|]. by intros ?? _ [? _]. }
  cbn [copy_fetchers]. erewrite bind_step by exact E.
  apply IH; [intros; apply Hl; by right|done|by apply pf_inv_lend].
Qed.

Lemma pf_copy_spec p :
  pf_inv db st p → ∃ p' c, pf_copy db p = (p', Ok c) ∧ pf_inv db st p' ∧ pf_inv db st c
    ∧ is_Some (pf_fetches c).
Proof.
  intros Hp. pose proof (pi_root _ _ _ Hp) as Hr.
  assert (pf_inv db st (MkPrefetcher st (Some ∅) None 0)) as Hempty.
  { split; try done. simpl. intros ??? [= <-]. by rewrite lookup_empty. }
  unfold pf_copy. rewrite (bind_step _ _ p p p) by done. cbv beta.
  destruct (pf_fetches p) as [fetches|] eqn:Ef.
  - destruct (copy_fetches_spec (range fetches) ∅) as (c & E & Hc); [|done|].
    { intros id t Hin. rewrite range_perm, elem_of_map_to_list in Hin.
      apply (pi_fetches _ _ _ Hp _ _ _ Ef Hin). }
    rewrite (bind_step _ _ p p c) by (unfold lift; by rewrite E). exists p. eexists. rewrite Hr. by split_and!.
  - destruct (copy_fetchers_spec (range (default ∅ (pf_fetchers p))) p ∅) as (p' & c & E & Hp' & Hc); [intros id sf; by apply range_fetchers|done..|].
    rewrite (bind_step _ _ _ _ _ E). exists p'. eexists. rewrite Hr. by split_and!.
Qed.

(** ** Any use of a prefetcher *)

(** A session: what a [StateDB] and its copies do with a prefetcher.  [UseCopy]
    asks a copy instead, which is made on the way. *)
Inductive use :=
| UsePrefetch (owner root : bytes) (keys : list bytes)
| UseTrie (owner root : bytes)
| UseCopy (owner root : bytes)
| UseUsed (owner root : bytes) (used : list bytes).

Definition use_owner (u : use) : bytes :=
  match u with UsePrefetch o _ _ | UseTrie o _ | UseCopy o _ | UseUsed o _ _ => o end.
Definition use_root (u : use) : bytes :=
  match u with UsePrefetch _ r _ | UseTrie _ r | UseCopy _ r | UseUsed _ r _ => r end.

Definition run_use (u : use) : P_ (option trie) :=
  match u with
  | UsePrefetch owner root keys => _ ← pf_prefetch db owner root keys; mret None
  | UseTrie owner root => pf_trie db owner root
  | UseCopy owner root => c ← pf_copy db; lift (pf_trie db owner root c).2
  | UseUsed owner root used => _ ← modify (pf_used owner root used); mret None
  end.
Fixpoint run_uses (l : list use) : P_ (list (option trie)) :=
  match l with
  | [] => mret []
  | u :: l => r ← run_use u; rs ← run_uses l; mret (r :: rs)
  end.

Lemma run_use_spec u p :
  pf_inv db st p → length (use_owner u) = hashLen →
  ∃ p' ot, run_use u p = (p', Ok ot) ∧ pf_inv db st p' ∧ lent_opt db st (use_owner u) (use_root u) ot.
Proof.
  intros Hp Ho. destruct u as [owner root keys|owner root|owner root|owner root used]; simpl in *.
  - destruct (pf_prefetch_spec p owner root keys) as (p' & E & Hp'); [done..|].
    exists p', None. erewrite bind_step by exact E. by split_and!.
  - destruct (pf_trie_spec p owner root) as (p' & ot & E & Hp' & Hl & _); [done..|]. by exists p', ot.
  - destruct (pf_copy_spec p Hp) as (p' & c & E & Hp' & Hc & _).
    destruct (pf_trie_spec c owner root) as (c' & ot & E' & _ & Hl & _); [done..|].
    exists p', ot. erewrite bind_step by exact E. unfold lift. rewrite E'. by split_and!.
  - exists (pf_used owner root used p), None. split_and!; [done|by apply pf_used_inv|done].
Qed.

Lemma run_uses_spec l : ∀ p,
  pf_inv db st p → Forall (λ u, length (use_owner u) = hashLen) l →
  ∃ p' rs, run_uses l p = (p', Ok rs) ∧ pf_inv db st p'
    ∧ Forall2 (λ u ot, lent_opt db st (use_owner u) (use_root u) ot) l rs.
Proof.
  induction l as [|u l IH]; intros p Hp Hl; [by exists p, []; split_and!; [..|constructor]|].
  apply Forall_cons in Hl as [Hu Hl]. destruct (run_use_spec u p Hp Hu) as (p1 & ot & E & Hp1 & Hot).
  destruct (IH p1 Hp1 Hl) as (p' & rs & E' & Hp' & Hrs). exists p', (ot :: rs). cbn [run_uses].
  erewrite bind_step by exact E. erewrite bind_step by exact E'. split_and!; [done..|by constructor].
Qed.

(** C22: whatever a prefetcher is asked, in whatever order, and however its
    goroutines are scheduled, every call returns: waiting for a goroutine never
    deadlocks or runs on, and no goroutine panics.  A trie it hands out, itself
    or through a copy, is a trie the database opens for the asked owner and root,
    only read and copied since.  Closing it, which waits for all its goroutines,
    returns as well. *)
Theorem prefetcher_transparent l :
  Forall (λ u, length (use_owner u) = hashLen) l →
  ∃ p answers, run_uses l (newTriePrefetcher st) = (p, Ok answers)
    ∧ Forall2 (λ u ot, ∀ t, ot = Some t →
        ∃ t0, open_trie db st (use_owner u) (use_root u) = Ok t0 ∧ reads_of t0 t) l answers
    ∧ (pf_close db p).2 = Ok tt.
Proof.
  intros Hl. destruct (run_uses_spec l _ (pf_inv_new db st) Hl) as (p & rs & E & Hp & Hrs).
  exists p, rs. split_and!; [done..|]. by destruct (pf_close_spec p Hp) as (p' & -> & _).
Qed.
End prefetcher.
End spec.
