(* ===== verification/PrefetcherTasks.v ===== *)
(** * The tasks of a subfetcher

    A goroutine that is left alone loads everything it was asked for and then
    sleeps; no wake-up is lost.  Every task is accounted for, and the ones that
    are lost are exactly those at whose turn a copy was asked for. *)
From S2P Require Import Prelude Errors Geth StateOps Prefetcher PrefetcherSpec.
Local Open Scope nat_scope.

(** The tasks that are still to be done. *)
Definition backlog `{TrieOps} (sf : subfetcher) : list bytes :=
  match sf_at sf with Loading tasks => tasks | _ => [] end ++ sf_tasks sf.

(** ** The states a subfetcher can reach *)

Section reached.
Context `{TrieOps, !DatabaseOps, RangeOps, SchedOps}.
Context (db : database) (st owner root : bytes).

(** A task is lost when its turn in the loop hands over a copy instead. *)
Definition lost (sf : subfetcher) (copied : option trie) : nat :=
  match copied, sf_at sf with Some _, Loading (_ :: _) => 1 | _, _ => 0 end.

(** The states a subfetcher can reach, with the number of tasks scheduled and
    the number of tasks lost so far. *)
Inductive reached : nat → nat → subfetcher → Prop :=
| reached_new : reached 0 0 (newSubfetcher st owner root)
| reached_schedule n d keys sf : reached n d sf → reached (n + length keys) d (schedule keys sf)
| reached_stop n d sf : reached n d sf → reached n d (upd_sf_stop (λ _, true) sf)
| reached_used n d used sf : reached n d sf → reached n d (upd_sf_used (λ _, used) sf)
| reached_move n d wanted sf sf' copied :
    reached n d sf → Ok (sf', copied) ∈ moves wanted db sf → reached n (d + lost sf copied) sf'.
End reached.

Section tasks.
Context `{TrieOps, !DatabaseOps, RangeOps, SchedOps, !TrieLaws, !DatabaseLaws}.
Context (db : database) (st owner root : bytes).
Hypothesis Hdb : db_inv db.
Abbreviation inv := (sf_inv db st owner root).

(** ** Left alone *)

(** How many moves the goroutine makes before it sleeps. *)
Definition moves_left (sf : subfetcher) : nat :=
  match sf_at sf with
  | Opening => 1
  | Loading tasks => S (length tasks)
  | Waiting | Ended => 0
  end + (if sf_wake sf then 2 + length (sf_tasks sf) else 0).

Definition working (sf : subfetcher) : Prop :=
  inv sf ∧ sf_stop sf = false ∧ sf_at sf ≠ Ended ∧ ∃ t, open_trie db st owner root = Ok t.
Definition known (sf : subfetcher) (k : bytes) : Prop := k ∈ sf_seen sf ∨ k ∈ backlog sf.

(** What a move does: it does not forget a task, and something is left to do. *)
Definition progress (sf sf' : subfetcher) : Prop :=
  working sf' ∧ moves_left sf' < moves_left sf ∧ ∀ k, known sf k → known sf' k.

Lemma load_task_progress task rest sf :
  working sf → sf_at sf = Loading (task :: rest) →
  ∃ sf', load_task task sf = Ok sf' ∧ progress sf (upd_sf_at (λ _, Loading rest) sf').
Proof.
  intros (Hi & Hs & He & Ho) Hat.
  destruct (load_task_ok db st owner root Hdb task rest sf Hi Hat) as (sf' & E & Hi' & Hs').
  exists sf'. split; [done|]. unfold load_task in E.
  assert (sf_tasks sf' = sf_tasks sf ∧ sf_wake sf' = sf_wake sf ∧ sf_seen sf' = {[task]} ∪ sf_seen sf)
    as (Et & Ew & Ese).
  { case_bool_decide; [injection E as <-; split_and!; [done..|set_solver]|].
    destruct (sf_trie sf) as [t|]; [|done]. destruct (trie_TryGet task t) as [t' []]; try done;
      by injection E as <-. }
  split; [|split].
  - split_and!; [done|by rewrite <- Hs|done|done].
  - unfold moves_left. simpl. rewrite Hat, Et, Ew. simpl. lia.
  - intros k. unfold known, backlog. simpl. rewrite Hat, Et, Ese. simpl. rewrite elem_of_cons. set_solver.
Qed.

Lemma one_move_single clock sf sf' :
  moves false db sf = [silent sf'] → one_move false db (clock, sf) = ((S clock, sf'), Ok (Some None)).
Proof. intros E. unfold one_move. rewrite E. cbn [length]. by rewrite Nat.mod_1_r. Qed.

(** Opening, taking the tasks, and going back to the outer [select]. *)
Lemma open_progress sf t :
  working sf → sf_at sf = Opening → open_trie db st owner root = Ok t →
  ∃ sf', moves false db sf = [silent sf'] ∧ progress sf sf'.
Proof.
  intros (Hi & Hs & He & _) Hat Ho. unfold moves, sf_open. rewrite Hat.
  rewrite (fi_state _ _ _ _ _ Hi), (fi_owner _ _ _ _ _ Hi), (fi_root _ _ _ _ _ Hi), Ho.
  eexists. split; [done|]. split; [|split].
  - split_and!; [|done..|by exists t]. split; simpl; try apply Hi; [by exists t; split; [|constructor]|].
    left. apply (working_wakes db st owner root sf); [done|by rewrite Hat|done].
  - unfold moves_left. simpl. rewrite Hat. lia.
  - intros k. unfold known, backlog. simpl. by rewrite Hat.
Qed.

Lemma wake_progress sf :
  working sf → sf_at sf = Waiting → sf_wake sf = true →
  ∃ sf', moves false db sf = [silent sf'] ∧ progress sf sf'.
Proof.
  intros (Hi & Hs & He & Ho) Hat Hwk. unfold moves. rewrite Hat, Hs, Hwk.
  eexists. split; [done|]. split; [|split].
  - split_and!; [|done..]. apply (inv_moved db st owner root sf); try done. right. by rewrite Hat.
  - unfold moves_left. simpl. rewrite Hat, Hwk. lia.
  - intros k. unfold known, backlog. simpl. by rewrite Hat, app_nil_r.
Qed.

Lemma loaded_progress sf :
  working sf → sf_at sf = Loading [] → ∃ sf', moves false db sf = [silent sf'] ∧ progress sf sf'.
Proof.
  intros (Hi & Hs & He & Ho) Hat. unfold moves. rewrite Hat. eexists. split; [done|]. split; [|split].
  - split_and!; [|done..]. apply (inv_moved db st owner root sf); try done. right. rewrite Hat.
    split_and!; [done..|]. apply (working_wakes db st owner root sf); [done|by rewrite Hat].
  - unfold moves_left. simpl. rewrite Hat. simpl. lia.
  - intros k. unfold known, backlog. simpl. by rewrite Hat.
Qed.

Lemma moves_progress sf :
  working sf →
  (∃ sf', moves false db sf = [silent sf'] ∧ progress sf sf')
  ∨ moves false db sf = [] ∧ sf_at sf = Waiting ∧ sf_wake sf = false.
Proof.
  intros Hw. pose proof Hw as (Hi & Hs & He & (t & Ho)).
  destruct (sf_at sf) as [| |[|task rest]|] eqn:Hat; [..|done].
  - left. by eapply open_progress.
  - destruct (sf_wake sf) eqn:Hwk; [left; by apply wake_progress|right]. unfold moves. by rewrite Hat, Hwk, Hs.
  - left. by apply loaded_progress.
  - left. unfold moves. rewrite Hat, Hs. cbn [app].
    destruct (load_task_progress task rest sf Hw Hat) as (sf' & -> & Hp). by eexists.
Qed.

Lemma run_moves_drains n : ∀ clock sf,
  working sf → moves_left sf ≤ n →
  ∃ clock' sf', run_moves n db (clock, sf) = ((clock', sf'), Ok tt)
    ∧ working sf' ∧ sf_at sf' = Waiting ∧ sf_wake sf' = false ∧ ∀ k, known sf k → known sf' k.
Proof.
  induction n as [|n IH]; intros clock sf Hw Hn.
  - exists clock, sf. split; [done|]. pose proof Hw as (_ & _ & He & _). unfold moves_left in Hn.
    destruct (sf_at sf), (sf_wake sf); simpl in Hn; try lia; [|done]. by split_and!.
  - cbn [run_moves]. destruct (moves_progress sf Hw) as [(sf' & E & Hw' & Hlt & Hk)|(E & Hat & Hwk)].
    + erewrite bind_step by by apply one_move_single.
      destruct (IH (S clock) sf' Hw') as (c & sf2 & E2 & Hw2 & Hat & Hwk & Hk2); [lia|].
      exists c, sf2. split_and!; auto.
    + erewrite bind_step by (unfold one_move; by rewrite E). by exists clock, sf.
Qed.

(** Whatever was scheduled, moved and asked for, there is a wake-up for the tasks
    in the queue. *)
Lemma reached_inv n d sf : reached db st owner root n d sf → inv sf.
Proof.
  induction 1 as [|n d keys sf _ []|n d sf _ []|n d used sf _ []|n d wanted sf sf' copied _ IH Hm].
  - split; try done. by left.
  - split; try done. by left.
  - by split.
  - by split.
  - destruct (moves_ok db st owner root Hdb wanted sf _ IH Hm) as (sf1 & c & [= <- <-] & Hok). apply Hok.
Qed.

(** C23: a subfetcher in any state it can reach, however tasks were scheduled
    while it moved and copies were asked for, loads every key in its queue once it
    is left alone, if it was not stopped and its trie can be opened, and goes to
    sleep with an empty queue, after a number of moves that is bounded by the
    number of queued keys: no wake-up is lost, even for keys that were scheduled
    while it was loading others. *)
Theorem subfetcher_drains n d rounds clock sf t :
  reached db st owner root n d sf →
  sf_stop sf = false → sf_at sf ≠ Ended → open_trie db st owner root = Ok t →
  length (backlog sf) + 4 ≤ rounds →
  ∃ clock' sf', run_moves rounds db (clock, sf) = ((clock', sf'), Ok tt)
    ∧ sf_at sf' = Waiting ∧ sf_tasks sf' = [] ∧ (∀ k, k ∈ backlog sf → k ∈ sf_seen sf')
    ∧ one_move false db (clock', sf') = ((clock', sf'), Ok None).
Proof.
  intros Hi%reached_inv Hs He Ho Hn. destruct (run_moves_drains rounds clock sf) as (c & sf' & E & Hw & Hat & Hwk & Hk).
  - split_and!; eauto.
  - unfold moves_left, backlog in *. destruct (sf_at sf), (sf_wake sf); rewrite ?length_app in Hn; simpl in *; lia.
  - destruct Hw as (Hi' & Hs' & _ & _). assert (sf_tasks sf' = []) as Ht.
    { destruct (sf_tasks sf') eqn:Et; [done|]. pose proof (fi_wake _ _ _ _ _ Hi') as Hwake.
      rewrite Et, Hwk, Hat in Hwake. by destruct Hwake. }
    exists c, sf'. split_and!; try done.
    + intros k Hin. destruct (Hk k) as [?|Hb]; [by right|done|]. unfold backlog in Hb. rewrite Hat, Ht in Hb.
      by apply not_elem_of_nil in Hb.
    + unfold one_move, moves. by rewrite Hat, Hwk, Hs'.
Qed.

End tasks.

(** ** Every task is accounted for *)

Section accounting.
Context `{TrieOps, !DatabaseOps, RangeOps, SchedOps}.
Context (db : database) (st owner root : bytes).

Abbreviation reached := (reached db st owner root).

Lemma reached_one_move n d wanted clock clock' sf sf' copied :
  reached n d sf → one_move wanted db (clock, sf) = ((clock', sf'), Ok (Some copied)) →
  reached n (d + lost sf copied) sf'.
Proof.
  intros Hr. unfold one_move. destruct (moves wanted db sf) as [|m ms] eqn:Em; [done|].
  set (m' := nth _ _ _). assert (m' ∈ m :: ms) as Hm.
  { apply list_elem_of_In, nth_In, Nat.mod_upper_bound. done. }
  rewrite <- Em in Hm. destruct m' as [[sf1 c]| | |]; try done. intros [= _ -> ->].
  by eapply reached_move.
Qed.

Definition tally (sf : subfetcher) : Z :=
  Z.of_nat (size (sf_seen sf)) + sf_dups sf + Z.of_nat (length (backlog sf)).

Lemma load_task_tally task rest sf sf' :
  sf_at sf = Loading (task :: rest) → load_task task sf = Ok sf' →
  tally (upd_sf_at (λ _, Loading rest) sf') = tally sf.
Proof.
  intros Hat. unfold load_task, tally, backlog. rewrite Hat. case_bool_decide as Hin.
  - intros [= <-]. simpl. lia.
  - destruct (sf_trie sf) as [t|]; [|done]. destruct (trie_TryGet task t) as [t' []]; try done;
      intros [= <-]; simpl; rewrite size_union by set_solver; rewrite size_singleton; lia.
Qed.

Lemma hand_over_inv pos sf sf' copied :
  Ok (sf', copied) = hand_over pos sf → sf' = upd_sf_at (λ _, pos) sf ∧ is_Some copied.
Proof. unfold hand_over. destruct (copy_trie sf); try done. intros [= -> ->]. by split. Qed.

(** A move that is not at a task changes neither the tally nor the losses. *)
Lemma idle_tally wanted sf sf' copied :
  (∀ task rest, sf_at sf ≠ Loading (task :: rest)) → Ok (sf', copied) ∈ moves wanted db sf →
  tally sf' = tally sf ∧ lost sf copied = 0.
Proof.
  intros Hn. unfold moves, tally, backlog, lost.
  destruct (sf_at sf) as [| |[|task rest]|] eqn:Hat; [..|by destruct (Hn task rest)|by intros ?%elem_of_nil].
  - rewrite list_elem_of_singleton. destruct (sf_open db sf); intros [= -> ->]; by simpl.
  - rewrite !elem_of_app. intros [Hm|[Hm|Hm]].
    + destruct (sf_wake sf); [|by apply elem_of_nil in Hm]. apply list_elem_of_singleton in Hm as [= -> ->].
      simpl. by rewrite app_nil_r.
    + destruct wanted; [|by apply elem_of_nil in Hm].
      apply list_elem_of_singleton, hand_over_inv in Hm as [-> [t ->]]. by simpl.
    + destruct (sf_stop sf); [|by apply elem_of_nil in Hm]. apply list_elem_of_singleton in Hm as [= -> ->].
      by simpl.
  - rewrite list_elem_of_singleton. intros [= -> ->]. by simpl.
Qed.

Lemma task_tally wanted task rest sf sf' copied :
  sf_at sf = Loading (task :: rest) → Ok (sf', copied) ∈ moves wanted db sf →
  (tally sf' + Z.of_nat (lost sf copied) = tally sf)%Z.
Proof.
  intros Hat. unfold moves, lost. rewrite Hat.
  assert (Ok (sf', copied) = silent (upd_sf_at (λ _, Ended) (upd_sf_tasks (λ tasks, tasks ++ task :: rest) sf)) →
    (tally sf' + Z.of_nat (match copied with Some _ => 1 | None => 0 end) = tally sf)%Z) as Hstop.
  { intros [= -> ->]. unfold tally, backlog. simpl. rewrite Hat. rewrite !length_app. simpl. lia. }
  assert (Ok (sf', copied) = hand_over (Loading rest) sf →
    (tally sf' + Z.of_nat (match copied with Some _ => 1 | None => 0 end) = tally sf)%Z) as Hcopy.
  { intros [-> [t ->]]%hand_over_inv. unfold tally, backlog. simpl. rewrite Hat. simpl. lia. }
  destruct (sf_stop sf), wanted; cbn [app]; rewrite ?elem_of_cons, elem_of_nil; try by intuition.
  destruct (load_task task sf) as [sf1| | |] eqn:E; try (by intros [?|?]). intros [[= -> ->]|[]].
  pose proof (load_task_tally task rest sf sf1 Hat E). lia.
Qed.

(** C24: in every state a subfetcher can reach, under any scheduling and any
    requests, the number of scheduled tasks is the number of distinct keys
    loaded, plus the duplicates, plus what is still queued, plus the tasks at
    whose turn a copy was handed over: those, and only those, are forgotten. *)
Theorem tasks_accounted n d sf : reached n d sf → (tally sf + Z.of_nat d = Z.of_nat n)%Z.
Proof.
  induction 1 as [|n d keys sf _ IH|n d sf _ IH|n d used sf _ IH|n d wanted sf sf' copied _ IH Hm]; [done|..].
  - unfold tally, backlog in *. simpl. rewrite !length_app in *. lia.
  - done.
  - done.
  - destruct (sf_at sf) as [| |[|task rest]|] eqn:Hat;
      try (destruct (idle_tally wanted sf sf' copied) as [-> ->]; [by rewrite Hat|done|lia]).
    pose proof (task_tally wanted task rest sf sf' copied Hat Hm). lia.
Qed.
End accounting.
