(* ===== verification/StateData.v ===== *)
(** * The state of trie_by_cid/state: data and interfaces

    A [*stateObject] is held by exactly one owner at a time: the map
    [stateObjects], or the one journal entry that recorded it when
    [createObject] replaced it in the map.  All changes go through the map, so
    objects are values stored in their owner, and a method of an object is a
    computation on the pair of the [StateDB] it points to and the object.

    The timers and metrics are left out. *)
From S2P Require Import Prelude Errors Geth AccessList.
From S2P Require Export StateOps Prefetcher.
Export AccessList.AccessList(accessList, newAccessList).
Local Open Scope Z_scope.

(** ** Accounts *)

(** A [types.StateAccount] value as [newObject] gets it: the balance and the
    code hash may be nil. *)
Record accountValue := MkAccountValue {
  av_Nonce : Z; av_Balance : option Z; av_Root : bytes; av_CodeHash : option bytes
}.
Definition zeroAccount : accountValue := MkAccountValue 0 None zeroHash None.
Definition account_value (a : StateAccount) : accountValue :=
  MkAccountValue (acc_Nonce a) (Some (acc_Balance a)) (acc_Root a) (Some (acc_CodeHash a)).

(** A [types.Log]; the payload is what the code does not look at. *)
Record Log := MkLog {
  log_Payload : bytes; log_TxHash : bytes; log_TxIndex : Z; log_Index : Z;
  log_BlockNumber : Z; log_BlockHash : bytes
}.

Definition u64 (z : Z) : Z := z mod 2 ^ 64.

Section data.
Context `{CryptoOps, TrieOps, !DatabaseOps, SnapOps}.

Record stateObject := MkObject {
  address : bytes;
  addrHash : bytes;
  data : StateAccount;
  obj_trie : option trie;
  code : option bytes;           (* nil or a slice *)
  originStorage : Storage;
  pendingStorage : Storage;
  dirtyStorage : Storage;
  dirtyCode : bool;
  suicided : bool;
  deleted : bool
}.

(** The entries of the journal (journal.go). *)
Inductive journalEntry :=
| createObjectChange (account : bytes)
| resetObjectChange (prev : stateObject) (prevdestruct : bool)
| suicideChange (account : bytes) (prev : bool) (prevbalance : Z)
| balanceChange (account : bytes) (prev : Z)
| nonceChange (account : bytes) (prev : Z)
| storageChange (account key prevalue : bytes)
| codeChange (account : bytes) (prevcode : option bytes) (prevhash : bytes)
| refundChange (prev : Z)
| addLogChange (txhash : bytes)
| addPreimageChange (hash : bytes)
| touchChange (account : bytes)
| accessListAddAccountChange (address : bytes)
| accessListAddSlotChange (address slot : bytes)
| transientStorageChange (account key prevalue : bytes).

Record journal := MkJournal {
  entries : list journalEntry;
  dirties : gmap bytes Z
}.

Record revision := MkRevision { rev_id : Z; journalIndex : nat }.

Record StateDB := MkStateDB {
  db : database;
  prefetcher : option triePrefetcher;
  sdb_trie : trie;
  originalRoot : bytes;
  snaps : option snapTree;
  snap : option snapshot;
  snapAccounts : gmap bytes bytes;
  snapStorage : gmap bytes (gmap bytes (option bytes));
  stateObjects : gmap bytes stateObject;
  stateObjectsPending : gset bytes;
  stateObjectsDirty : gset bytes;
  stateObjectsDestruct : gset bytes;
  dbErr : option error;
  refund : Z;
  thash : bytes;
  txIndex : Z;
  logs : gmap bytes (list Log);
  logSize : Z;
  preimages : gmap bytes bytes;
  access : accessList;
  transient : transientStorage;
  jrnl : journal;
  validRevisions : list revision;
  nextRevisionId : Z;
  AccountUpdated : Z;
  StorageUpdated : Z;
  AccountDeleted : Z;
  StorageDeleted : Z
}.

(** ** Field updates *)

Definition eta_object (o : stateObject) : stateObject :=
  MkObject (address o) (addrHash o) (data o) (obj_trie o) (code o) (originStorage o)
    (pendingStorage o) (dirtyStorage o) (dirtyCode o) (suicided o) (deleted o).

Definition upd_data f (o : stateObject) : stateObject := ltac:(update_field eta_object data f o).
Definition upd_obj_trie f (o : stateObject) : stateObject := ltac:(update_field eta_object obj_trie f o).
Definition upd_code f (o : stateObject) : stateObject := ltac:(update_field eta_object code f o).
Definition upd_origin f (o : stateObject) : stateObject := ltac:(update_field eta_object originStorage f o).
Definition upd_pending f (o : stateObject) : stateObject := ltac:(update_field eta_object pendingStorage f o).
Definition upd_dirty f (o : stateObject) : stateObject := ltac:(update_field eta_object dirtyStorage f o).
Definition upd_dirtyCode f (o : stateObject) : stateObject := ltac:(update_field eta_object dirtyCode f o).
Definition upd_suicided f (o : stateObject) : stateObject := ltac:(update_field eta_object suicided f o).
Definition upd_deleted f (o : stateObject) : stateObject := ltac:(update_field eta_object deleted f o).

Definition acc_set_Nonce (n : Z) (a : StateAccount) : StateAccount :=
  MkStateAccount n (acc_Balance a) (acc_Root a) (acc_CodeHash a).
Definition acc_set_Balance (b : Z) (a : StateAccount) : StateAccount :=
  MkStateAccount (acc_Nonce a) b (acc_Root a) (acc_CodeHash a).
Definition acc_set_Root (r : bytes) (a : StateAccount) : StateAccount :=
  MkStateAccount (acc_Nonce a) (acc_Balance a) r (acc_CodeHash a).
Definition acc_set_CodeHash (h : bytes) (a : StateAccount) : StateAccount :=
  MkStateAccount (acc_Nonce a) (acc_Balance a) (acc_Root a) h.

Definition eta_sdb (s : StateDB) : StateDB :=
  MkStateDB (db s) (prefetcher s) (sdb_trie s) (originalRoot s) (snaps s) (snap s) (snapAccounts s) (snapStorage s)
    (stateObjects s) (stateObjectsPending s) (stateObjectsDirty s) (stateObjectsDestruct s) (dbErr s)
    (refund s) (thash s) (txIndex s) (logs s) (logSize s) (preimages s) (access s) (transient s)
    (jrnl s) (validRevisions s) (nextRevisionId s) (AccountUpdated s) (StorageUpdated s)
    (AccountDeleted s) (StorageDeleted s).

Definition upd_db f (s : StateDB) : StateDB := ltac:(update_field eta_sdb db f s).
Definition upd_prefetcher f (s : StateDB) : StateDB := ltac:(update_field eta_sdb prefetcher f s).
Definition upd_trie f (s : StateDB) : StateDB := ltac:(update_field eta_sdb sdb_trie f s).
Definition upd_snapAccounts f (s : StateDB) : StateDB := ltac:(update_field eta_sdb snapAccounts f s).
Definition upd_snapStorage f (s : StateDB) : StateDB := ltac:(update_field eta_sdb snapStorage f s).
Definition upd_objects f (s : StateDB) : StateDB := ltac:(update_field eta_sdb stateObjects f s).
Definition upd_pendings f (s : StateDB) : StateDB := ltac:(update_field eta_sdb stateObjectsPending f s).
Definition upd_dirtys f (s : StateDB) : StateDB := ltac:(update_field eta_sdb stateObjectsDirty f s).
Definition upd_destruct f (s : StateDB) : StateDB := ltac:(update_field eta_sdb stateObjectsDestruct f s).
Definition upd_dbErr f (s : StateDB) : StateDB := ltac:(update_field eta_sdb dbErr f s).
Definition upd_refund f (s : StateDB) : StateDB := ltac:(update_field eta_sdb refund f s).
Definition upd_thash f (s : StateDB) : StateDB := ltac:(update_field eta_sdb thash f s).
Definition upd_txIndex f (s : StateDB) : StateDB := ltac:(update_field eta_sdb txIndex f s).
Definition upd_logs f (s : StateDB) : StateDB := ltac:(update_field eta_sdb logs f s).
Definition upd_logSize f (s : StateDB) : StateDB := ltac:(update_field eta_sdb logSize f s).
Definition upd_preimages f (s : StateDB) : StateDB := ltac:(update_field eta_sdb preimages f s).
Definition upd_access f (s : StateDB) : StateDB := ltac:(update_field eta_sdb access f s).
Definition upd_transient f (s : StateDB) : StateDB := ltac:(update_field eta_sdb transient f s).
Definition upd_journal f (s : StateDB) : StateDB := ltac:(update_field eta_sdb jrnl f s).
Definition upd_revisions f (s : StateDB) : StateDB := ltac:(update_field eta_sdb validRevisions f s).
Definition upd_nextRevisionId f (s : StateDB) : StateDB := ltac:(update_field eta_sdb nextRevisionId f s).
Definition upd_AccountUpdated f (s : StateDB) : StateDB := ltac:(update_field eta_sdb AccountUpdated f s).
Definition upd_StorageUpdated f (s : StateDB) : StateDB := ltac:(update_field eta_sdb StorageUpdated f s).
Definition upd_AccountDeleted f (s : StateDB) : StateDB := ltac:(update_field eta_sdb AccountDeleted f s).
Definition upd_StorageDeleted f (s : StateDB) : StateDB := ltac:(update_field eta_sdb StorageDeleted f s).

(** ** Computations *)

(** A method of an object. *)
Abbreviation O_ := (stateM (StateDB * stateObject) error).

Definition on_sdb (f : StateDB → StateDB) : O_ unit := modify (λ p, (f p.1, p.2)).
Definition on_self (f : stateObject → stateObject) : O_ unit := modify (λ p, (p.1, f p.2)).
Definition sdb_gets {A} (f : StateDB → A) : O_ A := gets (λ p, f p.1).
Definition self {A} (f : stateObject → A) : O_ A := gets (λ p, f p.2).

(** Run a computation on a part of the state (a trie, the database), keeping
    its outcome for the caller to inspect; panics propagate. *)
Definition try_on {S T A} (get : S → T) (put : T → S → S) (m : stateM T error A)
    : stateM S error (A + error) := λ s,
  match m (get s) with
  | (t, Ok a) => (put t s, Ok (inl a))
  | (t, Err e) => (put t s, Ok (inr e))
  | (t, Panic w) => (put t s, Panic w)
  | (t, OutOfFuel) => (put t s, OutOfFuel)
  end.

(** ** The journal *)

Definition newJournal : journal := MkJournal [] ∅.

Definition dirtied (e : journalEntry) : option bytes :=
  match e with
  | createObjectChange a | suicideChange a _ _ | balanceChange a _ | nonceChange a _
  | storageChange a _ _ | codeChange a _ _ | touchChange a => Some a
  | resetObjectChange _ _ | refundChange _ | addLogChange _ | addPreimageChange _
  | accessListAddAccountChange _ | accessListAddSlotChange _ _
  | transientStorageChange _ _ _ => None
  end.

Definition bump (addr : bytes) (m : gmap bytes Z) : gmap bytes Z :=
  <[addr := default 0 (m !! addr) + 1]> m.

Definition journal_append (e : journalEntry) (j : journal) : journal :=
  MkJournal (entries j ++ [e])
    (match dirtied e with Some a => bump a (dirties j) | None => dirties j end).

Definition journal_dirty (addr : bytes) (j : journal) : journal :=
  MkJournal (entries j) (bump addr (dirties j)).

Definition journal_length (j : journal) : nat := length (entries j).

(** ** The sticky database error *)

Definition setError (err : error) (s : StateDB) : StateDB :=
  upd_dbErr (λ e, match e with None => Some err | Some e => Some e end) s.
Definition Error (s : StateDB) : option error := dbErr s.
End data.
