(* ===== verification/StateObject.v ===== *)
(** * State objects: state_object.go

    Every method is a computation on the pair of the [StateDB] ([s.db]) and the
    object itself. *)
From S2P Require Import Prelude Errors Geth AccessList StateData.
Local Open Scope Z_scope.

(** [common.HexToAddress("0000000000000000000000000000000000000003")]. *)
Definition ripemd : bytes := replicate 19 0 ++ [3].

Section object.
Context `{RlpOps, CryptoOps, CommonOps, TrieOps, !DatabaseOps, SnapOps, RangeOps, SchedOps}.

(** A method of an object. *)
Abbreviation O_ := (stateM (StateDB * stateObject) error).

(** [empty]: EIP-161 emptiness. *)
Definition empty (s : stateObject) : bool :=
  bool_decide (acc_Nonce (data s) = 0) && bool_decide (acc_Balance (data s) = 0)
  && bool_decide (acc_CodeHash (data s) = EmptyCodeHash).

Definition newObject (addr : bytes) (a : accountValue) : stateObject :=
  let root := if bool_decide (av_Root a = zeroHash) then EmptyRootHash else av_Root a in
  MkObject addr (keccak256 addr)
    (MkStateAccount (av_Nonce a) (default 0 (av_Balance a)) root (default EmptyCodeHash (av_CodeHash a)))
    None None ∅ ∅ ∅ false false false.

Definition markSuicided : O_ unit := on_self (upd_suicided (λ _, true)).

Definition so_append (e : journalEntry) : O_ unit := on_sdb (upd_journal (journal_append e)).

Definition touch : O_ unit :=
  addr ← self address;
  _ ← so_append (touchChange addr);
  if bool_decide (addr = ripemd) then on_sdb (upd_journal (journal_dirty addr)) else mret tt.

(** The prefetcher is asked for a trie, if there is one. *)
Definition prefetched (owner root : bytes) : O_ (option trie) := λ p,
  match prefetcher p.1 with
  | None => (p, Ok None)
  | Some pf =>
      let '(pf, t) := pf_trie (db p.1) owner root pf in
      ((upd_prefetcher (λ _, Some pf) p.1, p.2), t)
  end.

(** [db.OpenStorageTrie]; an error comes back as a value. *)
Definition open_storage : O_ (trie + error) := λ p,
  let '(s, o) := p in
  match OpenStorageTrie (originalRoot s) (addrHash o) (acc_Root (data o)) (db s) with
  | Ok t => ((s, upd_obj_trie (λ _, Some t) o), Ok (inl t))
  | Err e => (p, Ok (inr e))
  | Panic w => (p, Panic w)
  | OutOfFuel => (p, OutOfFuel)
  end.

(** [getTrie]: on first use a trie the prefetcher has, or opened. *)
Definition getTrie : O_ (trie + error) :=
  o ← self id;
  match obj_trie o with
  | Some t => mret (inl t)
  | None =>
      t ← (if bool_decide (acc_Root (data o) = EmptyRootHash) then mret None
           else prefetched (addrHash o) (acc_Root (data o)));
      match t with
      | Some t => _ ← on_self (upd_obj_trie (λ _, Some t)); mret (inl t)
      | None => open_storage
      end
  end.

(** Run a method of the trie the object holds. *)
Definition on_trie {A} (t : trie) (m : stateM trie error A) : O_ (A + error) :=
  try_on (λ _, t) (λ t p, (p.1, upd_obj_trie (λ _, Some t) p.2)) m.

(** The database read of [GetCommittedState], without a snapshot. *)
Definition read_trie (key : bytes) : O_ (option bytes + error) :=
  tr ← getTrie;
  match tr with
  | inr err => mret (inr err)
  | inl tr => on_trie tr (trie_TryGet key)
  end.

(** The content of a stored slot: [rlp.Split] and [SetBytes]; an error leaves zero. *)
Definition slot_value (enc : bytes) : bytes * option error :=
  match enc with
  | [] => (zeroHash, None)
  | _ => match rlp_Split enc with
         | Some (_, content, _) => (BytesToHash content, None)
         | None => (BytesToHash [], Some ErrRlp)
         end
  end.

Definition cache_slot (key enc : bytes) : O_ bytes :=
  let '(value, err) := slot_value enc in
  _ ← match err with Some err => on_sdb (setError err) | None => mret tt end;
  _ ← on_self (upd_origin <[key := value]>);
  mret value.

Definition so_GetCommittedState (key : bytes) : O_ bytes :=
  o ← self id;
  match pendingStorage o !! key with
  | Some value => mret value
  | None =>
  match originStorage o !! key with
  | Some value => mret value
  | None =>
  destructed ← sdb_gets (λ s, bool_decide (address o ∈ stateObjectsDestruct s));
  if destructed : bool then mret zeroHash
  else
    snp ← sdb_gets snap;
    match (s ← snp; Snap_Storage s (addrHash o) (keccak256 key)) with
    | Some enc => cache_slot key enc
    | None =>
        r ← read_trie key;
        match r with
        | inr err => _ ← on_sdb (setError err); mret zeroHash
        | inl enc => cache_slot key (default [] enc)
        end
    end
  end
  end.

Definition so_GetState (key : bytes) : O_ bytes :=
  dirty ← self (λ o, dirtyStorage o !! key);
  match dirty with
  | Some value => mret value
  | None => so_GetCommittedState key
  end.

Definition so_setState (key value : bytes) : O_ unit := on_self (upd_dirty <[key := value]>).

Definition so_SetState (key value : bytes) : O_ unit :=
  prev ← so_GetState key;
  if bool_decide (prev = value) then mret tt
  else
    addr ← self address;
    _ ← so_append (storageChange addr key prev);
    so_setState key value.

(** The loop of [finalise] and the reset of the dirty slots. *)
Definition finalise_slots (o : stateObject) : stateObject :=
  upd_dirty (λ _, ∅) (upd_pending (λ p, dirtyStorage o ∪ p) o).

(** The keys of a loop over slots whose value is not the original one. *)
Definition changed_keys (origin : Storage) (slots : list (bytes * bytes)) : list bytes :=
  (filter (λ kv, kv.2 ≠ default zeroHash (origin !! kv.1)) slots).*1.
Definition slotsToPrefetch (o : stateObject) : list bytes :=
  changed_keys (originStorage o) (range (dirtyStorage o)).

(** Run a method of the prefetcher, if there is one. *)
Definition on_prefetcher (m : database → stateM triePrefetcher error unit) (s : StateDB)
    : StateDB * result unit :=
  match prefetcher s with
  | None => (s, Ok tt)
  | Some pf => let '(pf, r) := m (db s) pf in (upd_prefetcher (λ _, Some pf) s, r)
  end.

Definition o_prefetch (owner root : bytes) (keys : list bytes) : O_ unit := λ p,
  let '(s, r) := on_prefetcher (λ d, pf_prefetch d owner root keys) p.1 in ((s, p.2), r).

(** [finalise]: the dirty slots become pending; on request the prefetcher is
    given those that have changed. *)
Definition so_finalise (prefetch : bool) : O_ unit :=
  o ← self id;
  _ ← on_self finalise_slots;
  let slots := slotsToPrefetch o in
  if prefetch && bool_decide (slots ≠ []) && bool_decide (acc_Root (data o) ≠ EmptyRootHash) then
    o_prefetch (addrHash o) (acc_Root (data o)) slots
  else mret tt.

(** [if s.db.snap != nil { ... storage[hash] = v }] *)
Definition cache_snap_slot (key : bytes) (v : option bytes) : O_ unit :=
  h ← self addrHash;
  on_sdb (λ s, match snap s with
               | None => s
               | Some _ =>
                   let storage := default ∅ (snapStorage s !! h) in
                   upd_snapStorage <[h := <[keccak256 key := v]> storage]> s
               end).

(** One turn of the loop of [updateTrie]; the trie has been opened before. *)
Definition write_slot (kv : bytes * bytes) : O_ (unit + error) :=
  let '(key, value) := kv in
  known ← self (λ o, default zeroHash (originStorage o !! key));
  if bool_decide (value = known) then mret (inl tt)
  else
    _ ← on_self (upd_origin <[key := value]>);
    tr ← getTrie;
    match tr with
    | inr err => mret (inr err)
    | inl tr =>
      if bool_decide (value = zeroHash) then
        r ← on_trie tr (trie_TryDelete key);
        match r with
        | inr err => mret (inr err)
        | inl _ =>
            _ ← on_sdb (upd_StorageDeleted (Z.add 1));
            _ ← cache_snap_slot key None;
            mret (inl tt)
        end
      else
        let v := rlp_WriteBytes (TrimLeftZeroes value) in
        r ← on_trie tr (trie_TryUpdate key v);
        match r with
        | inr err => mret (inr err)
        | inl _ =>
            _ ← on_sdb (upd_StorageUpdated (Z.add 1));
            _ ← cache_snap_slot key (Some v);
            mret (inl tt)
        end
    end.

(** The loop; the first error is recorded and ends it. *)
Fixpoint write_slots (l : list (bytes * bytes)) : O_ (unit + error) :=
  match l with
  | [] => mret (inl tt)
  | kv :: l =>
      r ← write_slot kv;
      match r with
      | inr err => _ ← on_sdb (setError err); mret (inr err)
      | inl _ => write_slots l
      end
  end.

(** [updateTrie]: nil without error when nothing was loaded or changed. *)
Definition updateTrie : O_ (option trie + error) :=
  _ ← so_finalise false;
  o ← self id;
  let pending := pendingStorage o in
  if bool_decide (pending = ∅) then mret (inl (obj_trie o))
  else
    tr ← getTrie;
    match tr with
    | inr err => _ ← on_sdb (setError err); mret (inr err)
    | inl _ =>
        r ← write_slots (range pending);
        match r with
        | inr err => mret (inr err)
        | inl _ =>
            _ ← on_sdb (upd_prefetcher (fmap (pf_used (addrHash o) (acc_Root (data o))
                          (changed_keys (originStorage o) (range pending)))));
            _ ← on_self (upd_pending (λ _, ∅));
            t ← self obj_trie;
            mret (inl t)
        end
    end.

Definition updateRoot : O_ unit :=
  r ← updateTrie;
  match r with
  | inr _ | inl None => mret tt
  | inl (Some tr) =>
      h ← on_trie tr trie_Hash;
      match h with
      | inl h => on_self (upd_data (acc_set_Root h))
      | inr _ => mret tt
      end
  end.

Definition so_setBalance (amount : Z) : O_ unit := on_self (upd_data (acc_set_Balance amount)).

Definition so_SetBalance (amount : Z) : O_ unit :=
  o ← self id;
  _ ← so_append (balanceChange (address o) (acc_Balance (data o)));
  so_setBalance amount.

Definition so_AddBalance (amount : Z) : O_ unit :=
  o ← self id;
  if bool_decide (amount = 0) then (if empty o then touch else mret tt)
  else so_SetBalance (acc_Balance (data o) + amount).

Definition so_SubBalance (amount : Z) : O_ unit :=
  if bool_decide (amount = 0) then mret tt
  else o ← self id; so_SetBalance (acc_Balance (data o) - amount).

(** [deepCopy]; the new object belongs to the [StateDB] the caller gives it to. *)
Definition deepCopy (s : stateObject) : result stateObject :=
  let o := newObject (address s) (account_value (data s)) in
  t ← match obj_trie s with
      | None => Ok None
      | Some t => t ← CopyTrie t; Ok (Some t)
      end;
  Ok (MkObject (address o) (addrHash o) (data o) t (code s) (originStorage s) (pendingStorage s)
        (dirtyStorage s) (dirtyCode s) (suicided s) (deleted s)).

(** Run a method of the shared [Database]. *)
Definition on_db {A} (m : stateM database error A) : O_ (A + error) :=
  try_on (λ p : StateDB * stateObject, db p.1) (λ d p, (upd_db (λ _, d) p.1, p.2)) m.

(** [Code]: a failed load gives nil and is remembered. *)
Definition Code : O_ (option bytes) :=
  o ← self id;
  match code o with
  | Some c => mret (Some c)
  | None =>
      if bool_decide (acc_CodeHash (data o) = EmptyCodeHash) then mret None
      else
        r ← on_db (ContractCode (BytesToHash (acc_CodeHash (data o))));
        match r with
        | inl c => _ ← on_self (upd_code (λ _, Some c)); mret (Some c)
        | inr err =>
            _ ← on_sdb (setError (ErrLoadCode (acc_CodeHash (data o)) err));
            _ ← on_self (upd_code (λ _, None)); mret None
        end
  end.

Definition CodeSize : O_ Z :=
  o ← self id;
  match code o with
  | Some c => mret (Z.of_nat (length c))
  | None =>
      if bool_decide (acc_CodeHash (data o) = EmptyCodeHash) then mret 0
      else
        r ← on_db (ContractCodeSize (BytesToHash (acc_CodeHash (data o))));
        match r with
        | inl size => mret size
        | inr err => _ ← on_sdb (setError (ErrLoadCodeSize (acc_CodeHash (data o)) err)); mret 0
        end
  end.

Definition so_setCode (codeHash : bytes) (c : option bytes) : O_ unit :=
  on_self (λ o, upd_dirtyCode (λ _, true)
                  (upd_data (acc_set_CodeHash codeHash) (upd_code (λ _, c) o))).

Definition so_SetCode (codeHash : bytes) (c : option bytes) : O_ unit :=
  prevcode ← Code;
  o ← self id;
  _ ← so_append (codeChange (address o) prevcode (acc_CodeHash (data o)));
  so_setCode codeHash c.

Definition so_setNonce (nonce : Z) : O_ unit := on_self (upd_data (acc_set_Nonce nonce)).

Definition so_SetNonce (nonce : Z) : O_ unit :=
  o ← self id;
  _ ← so_append (nonceChange (address o) (acc_Nonce (data o)));
  so_setNonce nonce.
End object.
