(* ===== verification/StateDB.v ===== *)
(** * The StateDB: statedb.go and the undo operations of journal.go

    Methods are computations on the [StateDB] record.  A pointer returned by
    [getStateObject] is the object found under its address in [stateObjects]:
    [on_obj] runs a method on it and writes it back. *)
From S2P Require Import Prelude Errors Geth AccessList StateData StateObject.
Import AccessList(AddAddress, AddSlot, DeleteSlot, DeleteAddress, ContainsAddress, Contains).
Import TransientStorage(newTransientStorage, ts_Set, ts_Get).
Local Open Scope Z_scope.

(** [params.Rules]: the flags [Prepare] looks at. *)
Record Rules := MkRules { IsBerlin : bool; IsShanghai : bool }.

Section statedb.
Context `{RlpOps, CryptoOps, CommonOps, TrieOps, !DatabaseOps, SnapOps, RangeOps, SchedOps}.

(** Methods of the [StateDB] and of an object. *)
Abbreviation S_ := (stateM StateDB error).
Abbreviation O_ := (stateM (StateDB * stateObject) error).

(** The keys of a Go map used as a set, in some order. *)
Definition range_set (X : gset bytes) : list bytes := (range (gset_to_gmap tt X)).*1.

Definition New (root : bytes) (d : database) (trees : option snapTree) : result StateDB :=
  tr ← OpenTrie root d;
  Ok (MkStateDB d None tr root trees (t ← trees; Tree_Snapshot t root) ∅ ∅ ∅ ∅ ∅ ∅ None 0 zeroHash 0
        ∅ 0 ∅ newAccessList newTransientStorage newJournal [] 0 0 0 0 0).

(** [StartPrefetcher] (the name of the meters is left out), [StopPrefetcher]. *)
Definition StopPrefetcher : S_ unit := λ s,
  match prefetcher s with
  | None => (s, Ok tt)
  | Some pf =>
      let '(pf, r) := pf_close (db s) pf in
      match r with
      | Ok _ => (upd_prefetcher (λ _, None) s, Ok tt)
      | _ => (upd_prefetcher (λ _, Some pf) s, r)
      end
  end.
Definition StartPrefetcher : S_ unit :=
  _ ← StopPrefetcher;
  modify (λ s, match snap s with
               | Some _ => upd_prefetcher (λ _, Some (newTriePrefetcher (originalRoot s))) s
               | None => s
               end).

(** ** Finding and making objects *)

Definition setStateObject (o : stateObject) (s : StateDB) : StateDB :=
  upd_objects <[address o := o]> s.

Definition on_obj {A} (o : stateObject) (m : O_ A) : S_ A := λ s,
  let '((s', o'), r) := m (s, o) in (setStateObject o' s', r).

Definition append (e : journalEntry) : S_ unit := modify (upd_journal (journal_append e)).

(** Run a method of the account trie. *)
Definition on_account_trie {A} (m : stateM trie error A) : S_ (A + error) :=
  try_on sdb_trie (λ t, upd_trie (λ _, t)) m.

(** The account read of [getDeletedStateObject]; the first option tells whether
    the snapshot or the trie had an answer at all. *)
Definition snap_account (acc : snapAccount) : accountValue :=
  let root := BytesToHash (sa_Root acc) in
  MkAccountValue (sa_Nonce acc) (Some (sa_Balance acc))
    (if bool_decide (root = zeroHash) then EmptyRootHash else root)
    (Some (match sa_CodeHash acc with [] => EmptyCodeHash | h => h end)).

Definition load_account (addr : bytes) : S_ (option accountValue) :=
  snp ← gets snap;
  match (s ← snp; Snap_Account s (keccak256 addr)) with
  | Some acc => mret (snap_account <$> acc)
  | None =>
      r ← on_account_trie (trie_TryGetAccount addr);
      match r with
      | inl acc => mret (account_value <$> acc)
      | inr err => _ ← modify (setError (ErrGetStateObject addr err)); mret None
      end
  end.

Definition getDeletedStateObject (addr : bytes) : S_ (option stateObject) :=
  live ← gets (λ s, stateObjects s !! addr);
  match live with
  | Some obj => mret (Some obj)
  | None =>
      acc ← load_account addr;
      match acc with
      | None => mret None
      | Some a =>
          let obj := newObject addr a in
          _ ← modify (setStateObject obj);
          mret (Some obj)
      end
  end.

Definition getStateObject (addr : bytes) : S_ (option stateObject) :=
  obj ← getDeletedStateObject addr;
  mret (o ← obj; if deleted o then None else Some o).

(** The new object, and the previous one unless it was deleted. *)
Definition createObject (addr : bytes) : S_ (stateObject * option stateObject) :=
  prev ← getDeletedStateObject addr;
  prevdestruct ← match prev with
    | None => mret false
    | Some p =>
        was ← gets (λ s, bool_decide (address p ∈ stateObjectsDestruct s));
        _ ← (if was : bool then mret tt else modify (upd_destruct (union {[address p]})));
        mret was
    end;
  let newobj := newObject addr zeroAccount in
  _ ← append match prev with
             | None => createObjectChange addr
             | Some p => resetObjectChange p prevdestruct
             end;
  _ ← modify (setStateObject newobj);
  mret (newobj, p ← prev; if deleted p then None else Some p).

Definition GetOrNewStateObject (addr : bytes) : S_ stateObject :=
  obj ← getStateObject addr;
  match obj with
  | Some o => mret o
  | None => r ← createObject addr; mret r.1
  end.

Definition CreateAccount (addr : bytes) : S_ unit :=
  '(newobj, prev) ← createObject addr;
  match prev with
  | Some p => on_obj newobj (so_setBalance (acc_Balance (data p)))
  | None => mret tt
  end.

(** ** Logs, preimages and refunds *)

Definition AddLog (log : Log) : S_ unit :=
  th ← gets thash;
  _ ← append (addLogChange th);
  _ ← modify (λ s,
    let log := MkLog (log_Payload log) th (u64 (txIndex s)) (logSize s)
                 (log_BlockNumber log) (log_BlockHash log) in
    upd_logs <[th := default [] (logs s !! th) ++ [log]]> s);
  modify (upd_logSize (λ n, u64 (n + 1))).

(** [GetLogs] annotates the stored logs. *)
Definition GetLogs (hash : bytes) (blockNumber : Z) (blockHash : bytes) : S_ (list Log) :=
  let mark l := MkLog (log_Payload l) (log_TxHash l) (log_TxIndex l) (log_Index l) blockNumber blockHash in
  _ ← modify (upd_logs (alter (fmap mark) hash));
  gets (λ s, default [] (logs s !! hash)).

Definition Logs : S_ (list Log) := gets (λ s, concat (range (logs s)).*2).

Definition AddPreimage (hash preimage : bytes) : S_ unit :=
  known ← gets (λ s, preimages s !! hash);
  match known with
  | Some _ => mret tt
  | None =>
      _ ← append (addPreimageChange hash);
      modify (upd_preimages <[hash := preimage]>)
  end.

Definition AddRefund (gas : Z) : S_ unit :=
  r ← gets refund;
  _ ← append (refundChange r);
  modify (upd_refund (λ r, u64 (r + gas))).

Definition SubRefund (gas : Z) : S_ unit :=
  r ← gets refund;
  _ ← append (refundChange r);
  if bool_decide (r < gas) then lift (Panic "Refund counter below zero")
  else modify (upd_refund (λ r, r - gas)).

Definition GetRefund : S_ Z := gets refund.

(** ** Getters *)

(** [if stateObject != nil { return m(stateObject) }; return none]. *)
Definition with_object {A} (addr : bytes) (m : O_ A) (none : A) : S_ A :=
  obj ← getStateObject addr;
  match obj with
  | Some o => on_obj o m
  | None => mret none
  end.

Definition Exist (addr : bytes) : S_ bool := with_object addr (mret true) false.
Definition Empty (addr : bytes) : S_ bool := with_object addr (self empty) true.
Definition GetBalance (addr : bytes) : S_ Z := with_object addr (self (λ o, acc_Balance (data o))) 0.
Definition GetNonce (addr : bytes) : S_ Z := with_object addr (self (λ o, acc_Nonce (data o))) 0.
Definition TxIndex : S_ Z := gets txIndex.
Definition GetCode (addr : bytes) : S_ (option bytes) := with_object addr Code None.
Definition GetCodeSize (addr : bytes) : S_ Z := with_object addr CodeSize 0.
Definition GetCodeHash (addr : bytes) : S_ bytes :=
  with_object addr (self (λ o, BytesToHash (acc_CodeHash (data o)))) zeroHash.
Definition GetState (addr key : bytes) : S_ bytes := with_object addr (so_GetState key) zeroHash.
Definition GetCommittedState (addr key : bytes) : S_ bytes :=
  with_object addr (so_GetCommittedState key) zeroHash.
Definition HasSuicided (addr : bytes) : S_ bool := with_object addr (self suicided) false.

(** Run a method on an object that is not in [stateObjects]. *)
Definition on_copy {A} (o : stateObject) (m : O_ A) : S_ A := λ s,
  let '((s', _), r) := m (s, o) in (s', r).

(** [StorageTrie]: the trie of a copy, with all changes written to it. *)
Definition StorageTrie (addr : bytes) : S_ (option trie + error) :=
  obj ← getStateObject addr;
  match obj with
  | None => mret (inl None)
  | Some o =>
      cpy ← lift (deepCopy o);
      on_copy cpy (
        r ← updateTrie;
        match r with
        | inr err => mret (inr err)
        | inl _ =>
            t ← getTrie;
            mret match t with inl t => inl (Some t) | inr err => inr err end
        end)
  end.

Definition GetProofByHash (addrHash : bytes) : S_ (list bytes + error) :=
  on_account_trie (trie_Prove addrHash 0).
Definition GetProof (addr : bytes) : S_ (list bytes + error) := GetProofByHash (keccak256 addr).

Definition GetStorageProof (a key : bytes) : S_ (list bytes + error) :=
  r ← StorageTrie a;
  match r with
  | inr err => mret (inr err)
  | inl None => mret (inr ErrNoStorageTrie)
  | inl (Some t) =>
      match (trie_Prove (keccak256 key) 0 t).2 with
      | Ok proof => mret (inl proof)
      | Err e => mret (inr e)
      | Panic w => lift (Panic w)
      | OutOfFuel => lift OutOfFuel
      end
  end.

(** ** Setters *)

(** [GetOrNewStateObject] never returns nil. *)
Definition with_new_object {A} (addr : bytes) (m : O_ A) : S_ A :=
  o ← GetOrNewStateObject addr; on_obj o m.

Definition AddBalance (addr : bytes) (amount : Z) : S_ unit := with_new_object addr (so_AddBalance amount).
Definition SubBalance (addr : bytes) (amount : Z) : S_ unit := with_new_object addr (so_SubBalance amount).
Definition SetBalance (addr : bytes) (amount : Z) : S_ unit := with_new_object addr (so_SetBalance amount).
Definition SetNonce (addr : bytes) (nonce : Z) : S_ unit := with_new_object addr (so_SetNonce nonce).
(** [code] is [None] for the nil slice, which hashes as the empty one. *)
Definition SetCode (addr : bytes) (code : option bytes) : S_ unit :=
  with_new_object addr (so_SetCode (keccak256 (default [] code)) code).
Definition SetState (addr key value : bytes) : S_ unit := with_new_object addr (so_SetState key value).

Definition SetStorage (addr : bytes) (storage : Storage) : S_ unit :=
  _ ← modify (upd_destruct (union {[addr]}));
  with_new_object addr (iterM (λ kv, so_SetState kv.1 kv.2) (range storage)).

Definition Suicide (addr : bytes) : S_ bool :=
  obj ← getStateObject addr;
  match obj with
  | None => mret false
  | Some o =>
      _ ← append (suicideChange addr (suicided o) (acc_Balance (data o)));
      _ ← on_obj o (_ ← markSuicided; so_setBalance 0);
      mret true
  end.

Definition setTransientState (addr key value : bytes) : S_ unit :=
  modify (upd_transient (ts_Set addr key value)).
Definition GetTransientState (addr key : bytes) : S_ bytes := gets (λ s, ts_Get addr key (transient s)).

Definition SetTransientState (addr key value : bytes) : S_ unit :=
  prev ← GetTransientState addr key;
  if bool_decide (prev = value) then mret tt
  else
    _ ← append (transientStorageChange addr key prev);
    setTransientState addr key value.

Definition SetTxContext (th : bytes) (ti : Z) : S_ unit :=
  _ ← modify (upd_thash (λ _, th)); modify (upd_txIndex (λ _, ti)).

(** ** The access list *)

Definition AddAddressToAccessList (addr : bytes) : S_ unit :=
  al ← gets access;
  let '(al, added) := AddAddress addr al in
  _ ← modify (upd_access (λ _, al));
  if added : bool then append (accessListAddAccountChange addr) else mret tt.

Definition AddSlotToAccessList (addr slot : bytes) : S_ unit :=
  al ← gets access;
  '(al, (addrMod, slotMod)) ← lift (AddSlot addr slot al);
  _ ← modify (upd_access (λ _, al));
  _ ← (if addrMod : bool then append (accessListAddAccountChange addr) else mret tt);
  if slotMod : bool then append (accessListAddSlotChange addr slot) else mret tt.

Definition AddressInAccessList (addr : bytes) : S_ bool := gets (λ s, ContainsAddress addr (access s)).
Definition SlotInAccessList (addr slot : bytes) : S_ (bool * bool) :=
  al ← gets access; lift (Contains addr slot al).

(** The list [Prepare] builds. *)
Definition prepared (rules : Rules) (sender coinbase : bytes) (dst : option bytes)
    (precompiles : list bytes) (list : list (bytes * list bytes)) : result accessList :=
  let add a al := (AddAddress a al).1 in
  let al := add sender newAccessList in
  let al := match dst with Some d => add d al | None => al end in
  let al := foldl (λ al a, add a al) al precompiles in
  al ← foldM (λ el al, foldM (λ key al, r ← AddSlot el.1 key al; Ok r.1) el.2 (add el.1 al)) list al;
  Ok (if IsShanghai rules then add coinbase al else al).

Definition Prepare (rules : Rules) (sender coinbase : bytes) (dst : option bytes)
    (precompiles : list bytes) (list : list (bytes * list bytes)) : S_ unit :=
  _ ← (if IsBerlin rules then
         al ← lift (prepared rules sender coinbase dst precompiles list);
         modify (upd_access (λ _, al))
       else mret tt);
  modify (upd_transient (λ _, newTransientStorage)).

(** ** Undoing (journal.go) *)

(** [s.getStateObject(addr).m()]: nil panics. *)
Definition must_object {A} (addr : bytes) (m : O_ A) : S_ A :=
  obj ← getStateObject addr;
  match obj with
  | Some o => on_obj o m
  | None => lift (Panic "nil pointer dereference")
  end.

Definition revert_entry (e : journalEntry) : S_ unit :=
  match e with
  | createObjectChange account =>
      _ ← modify (upd_objects (base.delete account));
      modify (upd_dirtys (λ X, X ∖ {[account]}))
  | resetObjectChange prev prevdestruct =>
      _ ← modify (setStateObject prev);
      if prevdestruct : bool then mret tt else modify (upd_destruct (λ X, X ∖ {[address prev]}))
  | suicideChange account prev prevbalance =>
      obj ← getStateObject account;
      match obj with
      | Some o => on_obj o (_ ← on_self (upd_suicided (λ _, prev)); so_setBalance prevbalance)
      | None => mret tt
      end
  | touchChange _ => mret tt
  | balanceChange account prev => must_object account (so_setBalance prev)
  | nonceChange account prev => must_object account (so_setNonce prev)
  | codeChange account prevcode prevhash =>
      must_object account (so_setCode (BytesToHash prevhash) prevcode)
  | storageChange account key prevalue => must_object account (so_setState key prevalue)
  | transientStorageChange account key prevalue => setTransientState account key prevalue
  | refundChange prev => modify (upd_refund (λ _, prev))
  | addLogChange txhash =>
      ls ← gets (λ s, default [] (logs s !! txhash));
      _ ← match ls with
          | [] => lift (Panic "slice bounds out of range")
          | [_] => modify (upd_logs (base.delete txhash))
          | _ => modify (upd_logs <[txhash := take (length ls - 1) ls]>)
          end;
      modify (upd_logSize (λ n, u64 (n - 1)))
  | addPreimageChange hash => modify (upd_preimages (base.delete hash))
  | accessListAddAccountChange address => modify (upd_access (DeleteAddress address))
  | accessListAddSlotChange address slot =>
      al ← gets access;
      al ← lift (DeleteSlot address slot al);
      modify (upd_access (λ _, al))
  end.

(** Drop the dirty tracking an entry induced. *)
Definition untrack (e : journalEntry) (j : journal) : journal :=
  match dirtied e with
  | None => j
  | Some a =>
      let n := default 0 (dirties j !! a) - 1 in
      MkJournal (entries j)
        (if bool_decide (n = 0) then base.delete a (dirties j) else <[a := n]> (dirties j))
  end.

Definition journal_revert (snapshot : nat) : S_ unit :=
  es ← gets (λ s, entries (jrnl s));
  if bool_decide (length es < snapshot)%nat then lift (Panic "slice bounds out of range")
  else
    _ ← iterM (λ e, _ ← revert_entry e; modify (upd_journal (untrack e))) (rev (drop snapshot es));
    modify (upd_journal (λ j, MkJournal (take snapshot es) (dirties j))).

(** ** Snapshots *)

Definition Snapshot : S_ Z :=
  id ← gets nextRevisionId;
  _ ← modify (upd_nextRevisionId (Z.add 1));
  _ ← modify (λ s, upd_revisions (λ rs, rs ++ [MkRevision id (journal_length (jrnl s))]) s);
  mret id.

(** Go's [sort.Search]: binary search for the first index where [f] holds. *)
Fixpoint sort_Search (fuel : nat) (i j : nat) (f : nat → bool) : nat :=
  match fuel with
  | O => i
  | S fuel =>
      if bool_decide (i < j)%nat then
        let h := ((i + j) / 2)%nat in
        if f h then sort_Search fuel i h f else sort_Search fuel (h + 1) j f
      else i
  end.

Definition RevertToSnapshot (revid : Z) : S_ unit :=
  revs ← gets validRevisions;
  let idx := sort_Search (length revs) 0 (length revs)
               (λ i, match revs !! i with Some r => bool_decide (revid ≤ rev_id r) | None => true end) in
  match revs !! idx with
  | Some r =>
      if bool_decide (rev_id r = revid) then
        _ ← journal_revert (journalIndex r);
        modify (upd_revisions (take idx))
      else lift (Panic "revision id cannot be reverted")
  | None => lift (Panic "revision id cannot be reverted")
  end.

(** ** Ending a transaction *)

Definition clearJournalAndRefund (s : StateDB) : StateDB :=
  let s := match entries (jrnl s) with
           | [] => s
           | _ => upd_refund (λ _, 0) (upd_journal (λ _, newJournal) s)
           end in
  upd_revisions (λ _, []) s.

(** One turn of the loop of [Finalise]. *)
Definition finalise_one (deleteEmptyObjects : bool) (addr : bytes) : S_ unit :=
  found ← gets (λ s, stateObjects s !! addr);
  match found with
  | None => mret tt
  | Some obj =>
      _ ← (if suicided obj || (deleteEmptyObjects && empty obj) then
             modify (λ s,
               let s := upd_destruct (union {[address obj]})
                          (upd_objects <[addr := upd_deleted (λ _, true) obj]> s) in
               match snap s with
               | Some _ => upd_snapStorage (base.delete (addrHash obj))
                             (upd_snapAccounts (base.delete (addrHash obj)) s)
               | None => s
               end)
           else on_obj obj (so_finalise true));
      modify (λ s, upd_dirtys (union {[addr]}) (upd_pendings (union {[addr]}) s))
  end.

Definition Finalise (deleteEmptyObjects : bool) : S_ unit :=
  dirty ← gets (λ s, (range (dirties (jrnl s))).*1);
  s0 ← gets id;
  _ ← iterM (finalise_one deleteEmptyObjects) dirty;
  let addressesToPrefetch := filter (λ a, is_Some (stateObjects s0 !! a)) dirty in
  _ ← (if bool_decide (addressesToPrefetch ≠ [])
       then on_prefetcher (λ d, pf_prefetch d zeroHash (originalRoot s0) addressesToPrefetch)
       else mret tt);
  modify clearJournalAndRefund.

Definition updateStateObject (obj : stateObject) : S_ unit :=
  r ← on_account_trie (trie_TryUpdateAccount (address obj) (data obj));
  _ ← match r with
      | inr err => modify (setError (ErrUpdateStateObject (address obj) err))
      | inl _ => mret tt
      end;
  modify (λ s, match snap s with
               | None => s
               | Some _ =>
                   let a := data obj in
                   upd_snapAccounts <[addrHash obj :=
                     SlimAccountRLP (acc_Nonce a) (acc_Balance a) (acc_Root a) (acc_CodeHash a)]> s
               end).

Definition deleteStateObject (obj : stateObject) : S_ unit :=
  r ← on_account_trie (trie_TryDeleteAccount (address obj));
  match r with
  | inr err => modify (setError (ErrDeleteStateObject (address obj) err))
  | inl _ => mret tt
  end.

(** [s.stateObjects[addr]] of a pending address: nil panics. *)
Definition pending_object (addr : bytes) : S_ stateObject := λ s,
  match stateObjects s !! addr with
  | Some o => (s, Ok o)
  | None => (s, Panic "nil pointer dereference")
  end.

(** One turn of the first loop of [IntermediateRoot], and of the second. *)
Definition update_one (addr : bytes) : S_ unit :=
  obj ← pending_object addr;
  if deleted obj then mret tt else on_obj obj updateRoot.

Definition store_one (addr : bytes) : S_ unit :=
  obj ← pending_object addr;
  if deleted obj then _ ← deleteStateObject obj; modify (upd_AccountDeleted (Z.add 1))
  else _ ← updateStateObject obj; modify (upd_AccountUpdated (Z.add 1)).

(** The account trie is exchanged for the prefetcher's copy of the trie of the
    original root, if it has one. *)
Definition take_account_trie : S_ unit := λ s,
  match prefetcher s with
  | None => (s, Ok tt)
  | Some pf =>
      let '(pf, r) := pf_trie (db s) zeroHash (originalRoot s) pf in
      let s := upd_prefetcher (λ _, Some pf) s in
      match r with
      | Ok t => (upd_trie (λ old, default old t) s, Ok tt)
      | Err e => (s, Err e)
      | Panic w => (s, Panic w)
      | OutOfFuel => (s, OutOfFuel)
      end
  end.

(** [close] is deferred to the end; the meters of what was used come before. *)
Definition IntermediateRoot (deleteEmptyObjects : bool) : S_ bytes :=
  _ ← Finalise deleteEmptyObjects;
  pending ← gets (λ s, range_set (stateObjectsPending s));
  _ ← iterM update_one pending;
  _ ← take_account_trie;
  pending ← gets (λ s, range_set (stateObjectsPending s));
  _ ← iterM store_one pending;
  _ ← modify (λ s, upd_prefetcher (fmap (pf_used zeroHash (originalRoot s) pending)) s);
  _ ← modify (upd_pendings (λ _, ∅));
  h ← on_account_trie trie_Hash;
  _ ← StopPrefetcher;
  match h with inl h => mret h | inr e => lift (Err e) end.

(** ** Copying *)

(** Copy one object into the objects of the copy, unless it is there. *)
Definition copy_object (s : StateDB) (addr : bytes) (objs : gmap bytes stateObject)
    : result (gmap bytes stateObject) :=
  match objs !! addr with
  | Some _ => Ok objs
  | None =>
      match stateObjects s !! addr with
      | None => Panic "nil pointer dereference"
      | Some o => c ← deepCopy o; Ok (<[addr := c]> objs)
      end
  end.

(** [s] itself changes only in its prefetcher, which hands over copies. *)
Definition copy_prefetcher : S_ (option triePrefetcher) := λ s,
  match prefetcher s with
  | None => (s, Ok None)
  | Some pf =>
      let '(pf, r) := pf_copy (db s) pf in
      (upd_prefetcher (λ _, Some pf) s, c ← r; Ok (Some c))
  end.

Definition Copy : S_ StateDB :=
  s ← gets id;
  t ← lift (CopyTrie (sdb_trie s));
  let dirty := filter (λ a, is_Some (stateObjects s !! a)) (range (dirties (jrnl s))).*1 in
  objs ← lift (foldM (copy_object s) dirty ∅);
  objs ← lift (foldM (copy_object s) (range_set (stateObjectsPending s)) objs);
  objs ← lift (foldM (copy_object s) (range_set (stateObjectsDirty s)) objs);
  pf ← copy_prefetcher;
  mret (MkStateDB (db s) pf t (originalRoot s) (snaps s)
        (match snaps s with Some _ => snap s | None => None end)
        (match snaps s with Some _ => snapAccounts s | None => ∅ end)
        (match snaps s with Some _ => snapStorage s | None => ∅ end)
        objs
        (list_to_set dirty ∪ stateObjectsPending s) (list_to_set dirty ∪ stateObjectsDirty s)
        (stateObjectsDestruct s) None (refund s) zeroHash 0 (logs s) (logSize s) (preimages s)
        (AccessList.al_Copy (access s)) (TransientStorage.ts_Copy (transient s)) newJournal [] 0 0 0 0 0).

Definition convertAccountSet (set : gset bytes) (s : StateDB) : gset bytes :=
  set_map (λ addr, match stateObjects s !! addr with
                   | None => keccak256 addr
                   | Some obj => addrHash obj
                   end) set.
End statedb.
