(* ===== verification/StateView.v ===== *)
(** * What can be observed of a StateDB

    The laws the state package relies on of its tries and database, the values
    the getters observe of an object, and the equivalence of states that agree
    on all of them.  Reading fills caches (objects, storage slots, code) and may
    record a database error; up to this equivalence it changes nothing. *)
From S2P Require Import Prelude Errors Geth AccessList StateOps Prefetcher PrefetcherSpec.
From S2P Require Import StateData StateObject StateDB.
Import TransientStorage(ts_Get).
Local Open Scope Z_scope.

Section view.
Context `{RlpOps, CryptoOps, CommonOps, TrieOps, !DatabaseOps, SnapOps, RangeOps, SchedOps}.
Context `{!CryptoLaws, !TrieLaws, !DatabaseLaws, !SnapLaws}.

Abbreviation S_ := (stateM StateDB error).
Abbreviation O_ := (stateM (StateDB * stateObject) error).

(** ** What an object shows *)

(** What the values of an object depend on besides itself. *)
Record env := MkEnv {
  env_db : database; env_root : bytes; env_snap : option snapshot; env_destruct : gset bytes
}.
Definition env_of (s : StateDB) : env :=
  MkEnv (db s) (originalRoot s) (snap s) (stateObjectsDestruct s).

(** Environments that agree for the object at an address. *)
Definition same_env_at (a : bytes) (E F : env) : Prop :=
  same_db (env_db E) (env_db F) ∧ env_root E = env_root F ∧ env_snap E = env_snap F
  ∧ (a ∈ env_destruct E ↔ a ∈ env_destruct F).

(** The encoded slot in the snapshot or the storage trie; [None] for an error. *)
Definition stored_slot (E : env) (o : stateObject) (key : bytes) : option bytes :=
  match (s ← env_snap E; Snap_Storage s (addrHash o) (keccak256 key)) with
  | Some enc => Some enc
  | None =>
      let opened := match obj_trie o with
                    | Some t => Ok t
                    | None => OpenStorageTrie (env_root E) (addrHash o) (acc_Root (data o)) (env_db E)
                    end in
      match (t ← opened; (trie_TryGet key t).2) with
      | Ok enc => Some (default [] enc)
      | _ => None
      end
  end.

Definition committed (E : env) (o : stateObject) (key : bytes) : bytes :=
  match pendingStorage o !! key with
  | Some v => v
  | None =>
      match originStorage o !! key with
      | Some v => v
      | None =>
          if bool_decide (address o ∈ env_destruct E) then zeroHash
          else match stored_slot E o key with
               | Some enc => (slot_value enc).1
               | None => zeroHash
               end
      end
  end.

Definition current (E : env) (o : stateObject) (key : bytes) : bytes :=
  default (committed E o key) (dirtyStorage o !! key).

Definition code_of (E : env) (o : stateObject) : option bytes :=
  match code o with
  | Some c => Some c
  | None =>
      if bool_decide (acc_CodeHash (data o) = EmptyCodeHash) then None
      else match (ContractCode (BytesToHash (acc_CodeHash (data o))) (env_db E)).2 with
           | Ok c => Some c
           | _ => None
           end
  end.

Record obj_same (E F : env) (o p : stateObject) : Prop := {
  os_address : address o = address p;
  os_addrHash : addrHash o = addrHash p;
  os_data : data o = data p;
  os_pending : pendingStorage o = pendingStorage p;
  os_suicided : suicided o = suicided p;
  os_deleted : deleted o = deleted p;
  os_code : code_of E o = code_of F p;
  os_committed k : committed E o k = committed F p k;
  os_current k : current E o k = current F p k
}.

Record obj_ok (a : bytes) (o : stateObject) : Prop := {
  ok_address : address o = a;
  ok_addrHash : addrHash o = keccak256 a;
  ok_trie t : obj_trie o = Some t → trie_inv t;
  ok_CodeHash : length (acc_CodeHash (data o)) = hashLen;
  ok_Root : acc_Root (data o) ≠ zeroHash
}.

Lemma same_env_at_refl a E : same_env_at a E E.
Proof. by split_and!. Qed.

Lemma stored_slot_env E F o k :
  same_env_at (address o) E F → stored_slot E o k = stored_slot F o k.
Proof.
  intros ((_ & Hd & _) & Hr & Hs & _). unfold stored_slot. rewrite Hs, Hr.
  destruct (_ ≫= _); [done|]. destruct (obj_trie o); [done|]. by rewrite Hd.
Qed.

Lemma committed_env E F o k : same_env_at (address o) E F → committed E o k = committed F o k.
Proof.
  intros HE. unfold committed. rewrite (stored_slot_env E F) by done.
  destruct (pendingStorage o !! k), (originStorage o !! k); try done.
  rewrite (bool_decide_ext _ (address o ∈ env_destruct F)); [done|]. apply HE.
Qed.

Lemma obj_same_env E F o : same_env_at (address o) E F → obj_same E F o o.
Proof.
  intros HE. split; try done.
  - destruct HE as ((Hc & _) & _). unfold code_of. by rewrite Hc.
  - intros k. by apply committed_env.
  - intros k. unfold current. by rewrite (committed_env E F).
Qed.

Lemma obj_same_refl E o : obj_same E E o o.
Proof. apply obj_same_env, same_env_at_refl. Qed.
Lemma obj_same_sym E F o p : obj_same E F o p → obj_same F E p o.
Proof. intros []; by split. Qed.
Lemma obj_same_trans E F G o p q : obj_same E F o p → obj_same F G p q → obj_same E G o q.
Proof. intros [] []; split; intros; etrans; eauto. Qed.

(** ** What a state shows *)

(** The account [getDeletedStateObject] would load, and the object it returns. *)
Definition account_at (s : StateDB) (a : bytes) : option accountValue :=
  match (n ← snap s; Snap_Account n (keccak256 a)) with
  | Some acc => snap_account <$> acc
  | None =>
      match (trie_TryGetAccount a (sdb_trie s)).2 with
      | Ok acc => account_value <$> acc
      | _ => None
      end
  end.
Definition obj_at (s : StateDB) (a : bytes) : option stateObject :=
  match stateObjects s !! a with
  | Some o => Some o
  | None => newObject a <$> account_at s a
  end.

(** The prefetcher is one for the original root.  It tells the account trie from
    storage tries by the zero hash, which must not be the hash of an address. *)
Definition prefetcher_inv (d : database) (root : bytes) (pf : option triePrefetcher) : Prop :=
  ∀ p, pf = Some p → pf_inv d root p ∧ ∀ a, keccak256 a ≠ zeroHash.

Lemma prefetcher_inv_db d d' root pf :
  same_db d d' → prefetcher_inv d root pf → prefetcher_inv d' root pf.
Proof. intros Hdd Hp p E. destruct (Hp p E). split; [by eapply pf_inv_db|done]. Qed.

Record sdb_inv (s : StateDB) : Prop := {
  si_trie : trie_inv (sdb_trie s);
  si_db : db_inv (db s);
  si_prefetcher : prefetcher_inv (db s) (originalRoot s) (prefetcher s);
  si_obj a o : stateObjects s !! a = Some o → obj_ok a o;
  si_pending a : a ∈ stateObjectsPending s → is_Some (stateObjects s !! a);
  si_dirty a : a ∈ stateObjectsDirty s → is_Some (stateObjects s !! a);
  si_access : AccessList.wf (access s);
  si_logs h : logs s !! h ≠ Some [];
  si_logSize : 0 ≤ logSize s < 2 ^ 64;
  si_accounts a acc :
    (trie_TryGetAccount a (sdb_trie s)).2 = Ok (Some acc) → length (acc_CodeHash acc) = hashLen
}.

(** Two well-formed states that no getter tells apart; the journal, the
    revisions, the recorded database error and the counters are not compared. *)
Record same (s t : StateDB) : Prop := {
  sm_inv : sdb_inv s;
  sm_inv' : sdb_inv t;
  sm_db : same_db (db s) (db t);
  sm_trie : same_reads (sdb_trie s) (sdb_trie t);
  sm_root : originalRoot s = originalRoot t;
  sm_snap : snap s = snap t;
  sm_snaps : snaps s = snaps t;
  sm_snapAccounts : snapAccounts s = snapAccounts t;
  sm_snapStorage : snapStorage s = snapStorage t;
  sm_pending : stateObjectsPending s = stateObjectsPending t;
  sm_dirty : stateObjectsDirty s = stateObjectsDirty t;
  sm_destruct : stateObjectsDestruct s = stateObjectsDestruct t;
  sm_refund : refund s = refund t;
  sm_thash : thash s = thash t;
  sm_txIndex : txIndex s = txIndex t;
  sm_logs : logs s = logs t;
  sm_logSize : logSize s = logSize t;
  sm_preimages : preimages s = preimages t;
  sm_access : access s = access t;
  sm_transient a k : ts_Get a k (transient s) = ts_Get a k (transient t);
  sm_obj a : option_Forall2 (obj_same (env_of s) (env_of t)) (obj_at s a) (obj_at t a)
}.

Lemma same_refl s : sdb_inv s → same s s.
Proof. intros Hs. split; try done. intros a. destruct (obj_at s a); constructor. apply obj_same_refl. Qed.

Lemma same_sym s t : same s t → same t s.
Proof.
  intros []; split; auto; try (by symmetry). intros a. destruct (sm_obj0 a); constructor.
  by apply obj_same_sym.
Qed.

Lemma same_trans s t u : same s t → same t u → same s u.
Proof.
  intros [] []; split; auto; try (by etrans); intros a; [intros k; by rewrite sm_transient0|].
  specialize (sm_obj1 a). destruct (sm_obj0 a) as [o p Ho|]; inversion sm_obj1; constructor.
  by eapply obj_same_trans.
Qed.

(** The journal and the recorded error do not matter. *)
Lemma same_journal_l f s t : same s t → same (upd_journal f s) t.
Proof. intros [[] ?]; split; try done. Qed.
Lemma same_journal_r f s t : same s t → same s (upd_journal f t).
Proof. intros [? [] ?]; split; try done. Qed.

Lemma same_env s t a : same s t → same_env_at a (env_of s) (env_of t).
Proof. intros []; split_and!; try done. by simpl; rewrite sm_destruct0. Qed.

Lemma obj_same_rebase E E' F F' o p :
  obj_same E F o p → same_env_at (address o) E E' → same_env_at (address o) F F' →
  obj_same E' F' o p.
Proof.
  intros Ho HE HF. eapply obj_same_trans; [apply obj_same_sym, obj_same_env, HE|].
  eapply obj_same_trans; [exact Ho|]. apply obj_same_env. by rewrite <- (os_address _ _ _ _ Ho).
Qed.

(** ** Objects in the map *)

Lemma obj_at_live s a o : stateObjects s !! a = Some o → obj_at s a = Some o.
Proof. intros Ho. unfold obj_at. by rewrite Ho. Qed.

Lemma obj_at_set s o a :
  obj_at (setStateObject o s) a = if decide (address o = a) then Some o else obj_at s a.
Proof.
  unfold obj_at. simpl. case_decide as E; [subst a; by rewrite lookup_insert_eq|].
  by rewrite lookup_insert_ne.
Qed.

Lemma sdb_inv_set s o : sdb_inv s → obj_ok (address o) o → sdb_inv (setStateObject o s).
Proof.
  intros [] Ho. split; try done; simpl.
  - intros a p [[<- <-]|[_ Hp]]%lookup_insert_Some; eauto.
  - intros a [p Hp]%si_pending0. rewrite lookup_insert_is_Some. destruct (decide (address o = a)); eauto.
  - intros a [p Hp]%si_dirty0. rewrite lookup_insert_is_Some. destruct (decide (address o = a)); eauto.
Qed.

(** Putting objects that show the same under one address into both states. *)
Lemma same_set s t o p :
  same s t → obj_ok (address o) o → obj_ok (address o) p → obj_same (env_of s) (env_of t) o p →
  same (setStateObject o s) (setStateObject p t).
Proof.
  intros Hst Ho Hp Hop. pose proof (ok_address _ _ Hp) as Hap.
  assert (sdb_inv (setStateObject o s)) by (by apply sdb_inv_set; [apply Hst|]).
  assert (sdb_inv (setStateObject p t)).
  { apply sdb_inv_set; [apply Hst|]. by rewrite Hap. }
  destruct Hst; split; try done. intros a. rewrite !obj_at_set, Hap.
  case_decide; [by constructor|apply sm_obj0].
Qed.

(** The object loaded for an address. *)
Lemma newObject_ok a acc :
  (∀ h, av_CodeHash acc = Some h → length h = hashLen) → obj_ok a (newObject a acc).
Proof.
  intros Hc. split; try done; simpl.
  - destruct (av_CodeHash acc); simpl; [by apply Hc|apply EmptyCodeHash_length].
  - case_bool_decide; [apply EmptyRootHash_nonzero|done].
Qed.

Lemma account_at_ok s a acc h :
  sdb_inv s → account_at s a = Some acc → av_CodeHash acc = Some h → length h = hashLen.
Proof.
  intros Hs. unfold account_at. destruct (_ ≫= _) as [[sa|]|] eqn:Hsa; simpl; try done.
  - intros [= <-]. simpl. intros [= <-]. destruct (snap s) as [n|]; [|done]. simpl in Hsa.
    destruct (Snap_Account_CodeHash _ _ _ Hsa) as [->|Hl]; [apply EmptyCodeHash_length|].
    by destruct (sa_CodeHash sa).
  - destruct (trie_TryGetAccount a (sdb_trie s)).2 as [[acc'|]| | |] eqn:Ht; try done.
    intros [= <-] [= <-]. by eapply (si_accounts _ Hs).
Qed.

Lemma obj_at_ok s a o : sdb_inv s → obj_at s a = Some o → obj_ok a o.
Proof.
  intros Hs. unfold obj_at. destruct (stateObjects s !! a) as [p|] eqn:Hp.
  - intros [= <-]. by apply Hs.
  - destruct (account_at s a) as [acc|] eqn:Hacc; intros [= <-]. apply newObject_ok.
    intros h. by apply account_at_ok with s a.
Qed.
End view.
