(* ===== verification/StateReads.v ===== *)
(** * Reads of a StateDB

    Every getter answers what StateView.v defines and leaves a state that shows
    the same: it only fills caches, and may remember a database error. *)
From S2P Require Import Prelude Errors Geth AccessList StateOps Prefetcher PrefetcherSpec.
From S2P Require Import StateData StateObject StateDB StateView.
Local Open Scope Z_scope.

Section reads.
Context `{RlpOps, CryptoOps, CommonOps, TrieOps, !DatabaseOps, SnapOps, RangeOps, SchedOps}.
Context `{!CryptoLaws, !TrieLaws, !DatabaseLaws, !SnapLaws}.

Abbreviation S_ := (stateM StateDB error).
Abbreviation O_ := (stateM (StateDB * stateObject) error).

(** ** Filling the caches of an object *)

Lemma obj_same_intro E F o p :
  address o = address p → addrHash o = addrHash p → data o = data p →
  pendingStorage o = pendingStorage p → dirtyStorage o = dirtyStorage p →
  suicided o = suicided p → deleted o = deleted p →
  code_of E o = code_of F p → (∀ k, committed E o k = committed F p k) → obj_same E F o p.
Proof. intros ???? Hd ??? Hc. split; try done. intros k. unfold current. by rewrite Hc, Hd. Qed.

Lemma obj_same_origin E o k v :
  pendingStorage o !! k = None → originStorage o !! k = None → committed E o k = v →
  obj_same E E o (upd_origin <[k := v]> o).
Proof.
  intros Hp Ho Hv. apply obj_same_intro; try done. intros l. unfold committed. simpl.
  destruct (decide (k = l)) as [<-|Hkl].
  - unfold committed in Hv. rewrite Hp, Ho in *. by rewrite lookup_insert_eq.
  - by rewrite lookup_insert_ne.
Qed.

Lemma obj_same_trie E o t t' :
  (obj_trie o = Some t
   ∨ obj_trie o = None
     ∧ OpenStorageTrie (env_root E) (addrHash o) (acc_Root (data o)) (env_db E) = Ok t) →
  same_reads t t' → obj_same E E o (upd_obj_trie (λ _, Some t') o).
Proof.
  intros Ht [Hr _]. apply obj_same_intro; try done. intros l. unfold committed. simpl.
  assert (stored_slot E (upd_obj_trie (λ _, Some t') o) l = stored_slot E o l) as ->; [|done].
  unfold stored_slot. simpl. destruct (_ ≫= _); [done|].
  destruct Ht as [->|[-> ->]]; simpl; by rewrite Hr.
Qed.

Lemma obj_same_code E o c : code_of E o = c → obj_same E E o (upd_code (λ _, c) o).
Proof.
  intros Hc. apply obj_same_intro; try done. unfold code_of in *. simpl.
  destruct (code o) eqn:Ec; simpl in *; [by subst c|]. destruct c; [|done]. done.
Qed.

(** ** Methods that only read *)

(** From [p] to [p']: the database's caches, the prefetcher and the recorded
    error may differ, the object shows the same. *)
Definition caches_differ (s s' : StateDB) : Prop :=
  ∃ d e pf, s' = upd_db (λ _, d) (upd_dbErr (λ _, e) (upd_prefetcher (λ _, pf) s))
    ∧ db_inv d ∧ same_db (db s) d ∧ prefetcher_inv d (originalRoot s) pf.
Definition oreads (p p' : StateDB * stateObject) : Prop :=
  caches_differ p.1 p'.1
  ∧ obj_same (env_of p.1) (env_of p'.1) p.2 p'.2 ∧ obj_ok (address p.2) p'.2.

Definition oyields {A} (m : O_ A) (p : StateDB * stateObject) (v : A) : Prop :=
  ∃ p', m p = (p', Ok v) ∧ oreads p p'.

Record p_ok (p : StateDB * stateObject) : Prop := {
  po_db : db_inv (db p.1);
  po_prefetcher : prefetcher_inv (db p.1) (originalRoot p.1) (prefetcher p.1);
  po_obj : obj_ok (address p.2) p.2
}.

Lemma oreads_ok p p' : oreads p p' → p_ok p'.
Proof.
  intros ((d & e & pf & Hs & Hd & _ & Hp) & Ho & Hk). split; [by rewrite Hs..|].
  by rewrite <- (os_address _ _ _ _ Ho).
Qed.

Lemma caches_refl s :
  db_inv (db s) → prefetcher_inv (db s) (originalRoot s) (prefetcher s) → caches_differ s s.
Proof. intros Hd Hp. exists (db s), (dbErr s), (prefetcher s). split_and!; [by destruct s|done..]. Qed.

Lemma oreads_refl p : p_ok p → oreads p p.
Proof. intros [Hd Hp Ho]. split_and!; [by apply caches_refl|apply obj_same_refl|done]. Qed.

Lemma caches_trans s t u : caches_differ s t → caches_differ t u → caches_differ s u.
Proof.
  intros (d & e & pf & Hs & Hd & Hdd & Hp) (d' & e' & pf' & Hs' & Hd' & Hdd' & Hp'). subst t u.
  exists d', e', pf'. split_and!; [done..|by etrans|done].
Qed.

Lemma oreads_trans p q r : oreads p q → oreads q r → oreads p r.
Proof.
  intros (Hc & Ho & Hk) (Hc' & Ho' & Hk'). split_and!; [by eapply caches_trans|by eapply obj_same_trans|].
  by rewrite (os_address _ _ _ _ Ho).
Qed.

(** Remembering an error, changing the object, using the database or the prefetcher. *)
Lemma oreads_setError s o err : p_ok (s, o) → oreads (s, o) (setError err s, o).
Proof.
  intros [Hd Hp Ho]. split_and!; [|apply obj_same_refl|done].
  exists (db s), (dbErr (setError err s)), (prefetcher s). split_and!; [by destruct s|done..].
Qed.

Lemma oreads_self s o o' :
  p_ok (s, o) → obj_same (env_of s) (env_of s) o o' → obj_ok (address o) o' → oreads (s, o) (s, o').
Proof. intros [Hd Hp Ho] Hs Hk. split_and!; [by apply caches_refl|done|done]. Qed.

Lemma oreads_db s o d :
  p_ok (s, o) → db_inv d → same_db (db s) d → oreads (s, o) (upd_db (λ _, d) s, o).
Proof.
  intros [Hd Hp Ho] Hd' Hdd. split_and!; [|apply obj_same_env; by split_and!|done].
  exists d, (dbErr s), (prefetcher s). split_and!; [by destruct s|done|done|by eapply prefetcher_inv_db].
Qed.

Lemma oreads_prefetcher s o pf :
  p_ok (s, o) → prefetcher_inv (db s) (originalRoot s) pf →
  oreads (s, o) (upd_prefetcher (λ _, pf) s, o).
Proof.
  intros [Hd Hp Ho] Hp'. split_and!; [|apply obj_same_env; by split_and!|done].
  exists (db s), (dbErr s), pf. split_and!; [by destruct s|done..].
Qed.

Lemma obj_ok_upd_trie a o t : obj_ok a o → trie_inv t → obj_ok a (upd_obj_trie (λ _, Some t) o).
Proof. intros [] Ht. split; try done. simpl. by intros ? [= <-]. Qed.

Lemma obj_ok_origin a o f : obj_ok a o → obj_ok a (upd_origin f o).
Proof. by intros []. Qed.
Lemma obj_ok_code a o c : obj_ok a o → obj_ok a (upd_code c o).
Proof. by intros []. Qed.

Lemma upd_obj_trie_id o t : obj_trie o = Some t → upd_obj_trie (λ _, Some t) o = o.
Proof. destruct o. unfold upd_obj_trie. simpl. by intros ->. Qed.

(** The trie of an object, before it is asked for: its own, or as opened. *)
Definition storage_trie (s : StateDB) (o : stateObject) : result trie :=
  match obj_trie o with
  | Some t => Ok t
  | None => OpenStorageTrie (originalRoot s) (addrHash o) (acc_Root (data o)) (db s)
  end.

Lemma storage_trie_Ok s o t :
  storage_trie s o = Ok t →
  obj_trie o = Some t
  ∨ obj_trie o = None ∧ OpenStorageTrie (originalRoot s) (addrHash o) (acc_Root (data o)) (db s) = Ok t.
Proof. unfold storage_trie. destruct (obj_trie o); [intros [= ->]; by left|by right]. Qed.

(** A trie from the prefetcher is the one that would be opened. *)
Lemma prefetched_spec s o root a :
  db_inv (db s) → prefetcher_inv (db s) (originalRoot s) (prefetcher s) → addrHash o = keccak256 a →
  ∃ pf ot, prefetched (addrHash o) root (s, o) = ((upd_prefetcher (λ _, pf) s, o), Ok ot)
    ∧ prefetcher_inv (db s) (originalRoot s) pf ∧ (prefetcher s = None → pf = None)
    ∧ (∀ t, ot = Some t → ∃ t0,
         OpenStorageTrie (originalRoot s) (addrHash o) root (db s) = Ok t0 ∧ reads_of t0 t).
Proof.
  intros Hd Hp Ha. unfold prefetched. simpl in *. destruct (prefetcher s) as [p|] eqn:Ep.
  - destruct (Hp p eq_refl) as [Hi Hz].
    destruct (pf_trie_spec (db s) (originalRoot s) Hd p (addrHash o) root Hi)
      as (p' & ot & -> & Hi' & Hl & _); [rewrite Ha; apply keccak256_length|].
    exists (Some p'), ot. split_and!; [done|by intros ? [= <-]|done|]. intros t ->.
    destruct (Hl t eq_refl) as (t0 & E & Hr). exists t0. split; [|done]. unfold open_trie in E.
    rewrite bool_decide_false in E; [done|]. rewrite Ha. apply Hz.
  - exists None, None. split_and!; [by destruct s; simpl in *; subst|done|done|done].
Qed.

(** [getTrie]: the object keeps the trie it was given. *)
Lemma getTrie_spec s o a :
  db_inv (db s) → prefetcher_inv (db s) (originalRoot s) (prefetcher s) → addrHash o = keccak256 a →
  ∃ pf r o', getTrie (s, o) = ((upd_prefetcher (λ _, pf) s, o'), Ok r)
    ∧ prefetcher_inv (db s) (originalRoot s) pf ∧ (prefetcher s = None → pf = None)
    ∧ match r with
      | inl t => o' = upd_obj_trie (λ _, Some t) o ∧ ∃ t0, storage_trie s o = Ok t0 ∧ reads_of t0 t
      | inr e => o' = o ∧ storage_trie s o = Err e
      end.
Proof.
  intros Hd Hp Ha. unfold getTrie, storage_trie.
  rewrite (bind_step _ _ (s, o) (s, o) o) by done. simpl in *.
  destruct (obj_trie o) as [t|] eqn:Et.
  { exists (prefetcher s), (inl t), o.
    split_and!; [by destruct s|done|done|by rewrite upd_obj_trie_id|by exists t; split; [|constructor]]. }
  pose proof (OpenStorageTrie_inv (originalRoot s) (addrHash o) (acc_Root (data o)) (db s) Hd) as Hopen.
  assert (∃ pf ot, (if bool_decide (acc_Root (data o) = EmptyRootHash) then mret None
       else prefetched (addrHash o) (acc_Root (data o))) (s, o) = ((upd_prefetcher (λ _, pf) s, o), Ok ot)
    ∧ prefetcher_inv (db s) (originalRoot s) pf ∧ (prefetcher s = None → pf = None)
    ∧ (∀ t, ot = Some t → ∃ t0, OpenStorageTrie (originalRoot s) (addrHash o) (acc_Root (data o)) (db s) = Ok t0
         ∧ reads_of t0 t)) as (pf & ot & E & Hpf & Hn & Hot).
  { case_bool_decide; [|by eapply prefetched_spec].
    exists (prefetcher s), None. split_and!; [by destruct s|done|done|done]. }
  erewrite bind_step by exact E. destruct ot as [t|].
  - destruct (Hot t eq_refl) as (t0 & E0 & Hr). rewrite E0 in *.
    exists pf, (inl t), (upd_obj_trie (λ _, Some t) o). split_and!; [done..|by exists t0].
  - unfold open_storage. simpl. destruct (OpenStorageTrie _ _ _ _) as [t|e| |] eqn:E0; try done.
    + exists pf, (inl t), (upd_obj_trie (λ _, Some t) o). split_and!; [done..|].
      exists t. split_and!; [done..|constructor].
    + by exists pf, (inr e), o.
Qed.

Lemma storage_trie_inv s o t : p_ok (s, o) → storage_trie s o = Ok t → trie_inv t.
Proof.
  intros [Hd _ Ho] [E|[_ E]]%storage_trie_Ok; [by eapply (ok_trie _ _ Ho)|].
  pose proof (OpenStorageTrie_inv (originalRoot s) (addrHash o) (acc_Root (data o)) (db s) Hd) as Hi.
  simpl in *. by rewrite E in Hi.
Qed.

(** [getTrie] followed by a read of the trie. *)
Lemma read_trie_spec s o k :
  p_ok (s, o) → (n ← snap s; Snap_Storage n (addrHash o) (keccak256 k)) = None →
  ∃ p' r, read_trie k (s, o) = (p', Ok r) ∧ oreads (s, o) p' ∧ pendingStorage p'.2 = pendingStorage o
    ∧ originStorage p'.2 = originStorage o
    ∧ stored_slot (env_of s) o k = match r with inl enc => Some (default [] enc) | inr _ => None end.
Proof.
  intros Hok Hsn. unfold read_trie, stored_slot. change (env_snap (env_of s)) with (snap s). rewrite Hsn.
  destruct (getTrie_spec s o (address o)) as (pf & r & o' & E & Hpf & _ & Hr); [apply Hok..|].
  erewrite bind_step by exact E.
  pose proof (oreads_prefetcher s o pf Hok Hpf) as Hop. pose proof (oreads_ok _ _ Hop) as Hok'.
  change (match obj_trie o with Some t => Ok t | None => _ end) with (storage_trie s o).
  destruct r as [t|e].
  - destruct Hr as (-> & t0 & E0 & Hr). pose proof (storage_trie_inv s o t0 Hok E0) as Hi0. rewrite E0.
    destruct (reads_of_inv t0 t Hi0 Hr) as [Hi Hs].
    simpl. rewrite <- (proj1 Hs k). destruct (TryGet_reads k t Hi) as (Hi' & Hs' & Hret).
    unfold on_trie, try_on. destruct (trie_TryGet k t) as [t' q]. simpl in *.
    assert (oreads (s, o) (upd_prefetcher (λ _, pf) s, upd_obj_trie (λ _, Some t') o)).
    { eapply oreads_trans; [exact Hop|]. apply oreads_self; [done| |apply obj_ok_upd_trie; [apply Hok|done]].
      eapply obj_same_trie; [by apply storage_trie_Ok|by etrans]. }
    destruct q; try done; eexists _, _; split_and!; done.
  - destruct Hr as (-> & ->). exists (upd_prefetcher (λ _, pf) s, o), (inr e).
    split_and!; [done|done|done|done|done].
Qed.

Lemma cache_slot_spec s o k enc :
  p_ok (s, o) → pendingStorage o !! k = None → originStorage o !! k = None →
  committed (env_of s) o k = (slot_value enc).1 →
  oyields (cache_slot k enc) (s, o) (committed (env_of s) o k).
Proof.
  intros Hok Hp Ho Hc. unfold cache_slot, oyields. destruct (slot_value enc) as [v err]. simpl in Hc. subst v.
  destruct err as [err|]; eexists; (split; [reflexivity|]).
  - eapply oreads_trans; [by apply (oreads_setError s o err)|].
    apply oreads_self; [by apply (oreads_ok (s, o)), oreads_setError| |apply obj_ok_origin, Hok].
    by apply obj_same_origin.
  - apply oreads_self; [done| |apply obj_ok_origin, Hok]. by apply obj_same_origin.
Qed.

Lemma so_GetCommittedState_unfold s o k :
  so_GetCommittedState k (s, o) =
  match pendingStorage o !! k with
  | Some v => ((s, o), Ok v)
  | None =>
  match originStorage o !! k with
  | Some v => ((s, o), Ok v)
  | None =>
      if bool_decide (address o ∈ stateObjectsDestruct s) then ((s, o), Ok zeroHash)
      else match (n ← snap s; Snap_Storage n (addrHash o) (keccak256 k)) with
           | Some enc => cache_slot k enc (s, o)
           | None => match read_trie k (s, o) with
                     | (p, Ok (inl enc)) => cache_slot k (default [] enc) p
                     | (p, Ok (inr err)) => ((setError err p.1, p.2), Ok zeroHash)
                     | (p, Err e) => (p, Err e)
                     | (p, Panic w) => (p, Panic w)
                     | (p, OutOfFuel) => (p, OutOfFuel)
                     end
           end
  end
  end.
Proof.
  unfold so_GetCommittedState, self, sdb_gets, gets. mred. simpl.
  destruct (pendingStorage o !! k); [done|]. destruct (originStorage o !! k); [done|].
  case_bool_decide; [done|]. destruct (snap s) as [n|]; simpl; [destruct (Snap_Storage _ _ _); [done|]|];
    by destruct (read_trie k (s, o)) as [p [[]| | |]].
Qed.

Lemma so_GetCommittedState_spec s o k :
  p_ok (s, o) → oyields (so_GetCommittedState k) (s, o) (committed (env_of s) o k).
Proof.
  intros Hok. unfold oyields. rewrite so_GetCommittedState_unfold.
  destruct (pendingStorage o !! k) as [v|] eqn:Hp.
  { exists (s, o). unfold committed. rewrite Hp. split; [done|by apply oreads_refl]. }
  destruct (originStorage o !! k) as [v|] eqn:Ho.
  { exists (s, o). unfold committed. rewrite Hp, Ho. split; [done|by apply oreads_refl]. }
  case_bool_decide as Hd.
  { exists (s, o). unfold committed. rewrite Hp, Ho, bool_decide_true by done.
    split; [done|by apply oreads_refl]. }
  assert (committed (env_of s) o k
    = match stored_slot (env_of s) o k with Some enc => (slot_value enc).1 | None => zeroHash end) as Hc.
  { unfold committed. by rewrite Hp, Ho, bool_decide_false. }
  destruct (n ← snap s; Snap_Storage n (addrHash o) (keccak256 k)) as [enc|] eqn:Hsn.
  { apply cache_slot_spec; try done. rewrite Hc. unfold stored_slot.
    change (env_snap (env_of s)) with (snap s). by rewrite Hsn. }
  destruct (read_trie_spec s o k Hok Hsn) as ([s' o'] & r & E & Hr & Hp' & Ho' & Hst).
  simpl in Hp', Ho'. rewrite E. rewrite Hst in Hc. pose proof (oreads_ok _ _ Hr) as Hok'.
  destruct r as [enc|err].
  - destruct (cache_slot_spec s' o' k (default [] enc)) as (p'' & E' & Hr'); [congruence..| |].
    { rewrite <- Hc. symmetry. apply Hr. }
    exists p''. rewrite E'. split; [|by eapply oreads_trans]. do 2 f_equal. symmetry. apply Hr.
  - exists (setError err s', o'). rewrite Hc. split; [done|].
    eapply oreads_trans; [done|]. by apply oreads_setError.
Qed.

Lemma so_GetState_spec s o k :
  p_ok (s, o) → oyields (so_GetState k) (s, o) (current (env_of s) o k).
Proof.
  intros Hok. unfold oyields, so_GetState, self, gets, current. mred. simpl.
  destruct (dirtyStorage o !! k) as [v|].
  - exists (s, o). split; [done|by apply oreads_refl].
  - by apply so_GetCommittedState_spec.
Qed.

Lemma Code_spec s o : p_ok (s, o) → oyields Code (s, o) (code_of (env_of s) o).
Proof.
  intros Hok. pose proof Hok as [Hd Hpf Ho]. unfold Code, self, gets, oyields. mred. simpl.
  unfold code_of. destruct (code o) as [c|] eqn:Ec.
  { exists (s, o). split; [done|by apply oreads_refl]. }
  case_bool_decide as Hemp; [exists (s, o); split; [done|by apply oreads_refl]|].
  set (h := BytesToHash _). destruct (ContractCode_reads h (db s) Hd) as (Hd' & Hdd & Hret).
  assert (code_of (env_of s) o = match (ContractCode h (db s)).2 with Ok c => Some c | _ => None end) as Hc.
  { unfold code_of. by rewrite Ec, bool_decide_false. }
  unfold on_db, try_on. simpl. destruct (ContractCode h (db s)) as [d r]. simpl in *.
  assert (oreads (s, o) (upd_db (λ _, d) s, o)) as Hr by (by apply oreads_db).
  assert (code_of (env_of (upd_db (λ _, d) s)) o = code_of (env_of s) o) as Hc'.
  { symmetry. apply Hr. }
  destruct r as [c|err| |]; try done; eexists; (split; [reflexivity|]).
  - eapply oreads_trans; [exact Hr|]. apply oreads_self; [by eapply oreads_ok| |by apply obj_ok_code].
    apply obj_same_code. exact (eq_trans Hc' Hc).
  - eapply oreads_trans; [exact Hr|].
    eapply oreads_trans; [apply (oreads_setError _ _ (ErrLoadCode (acc_CodeHash (data o)) err)); by eapply oreads_ok|].
    apply oreads_self; [by apply (oreads_ok (upd_db (λ _, d) s, o)), oreads_setError; eapply oreads_ok| |by apply obj_ok_code].
    apply obj_same_code. exact (eq_trans Hc' Hc).
Qed.

Lemma CodeSize_spec s o :
  p_ok (s, o) →
  oyields CodeSize (s, o) (match code_of (env_of s) o with Some c => Z.of_nat (length c) | None => 0 end).
Proof.
  intros Hok. pose proof Hok as [Hd Hpf Ho]. unfold CodeSize, self, gets, oyields. mred. simpl.
  unfold code_of. destruct (code o) as [c|] eqn:Ec.
  { exists (s, o). split; [done|by apply oreads_refl]. }
  case_bool_decide as Hemp; [exists (s, o); split; [done|by apply oreads_refl]|].
  set (h := BytesToHash _). destruct (ContractCodeSize_reads h (db s) Hd) as (Hd' & Hdd).
  pose proof (ContractCodeSize_value h (db s) Hd) as Hv.
  destruct (ContractCode_reads h (db s) Hd) as (_ & _ & Hret).
  unfold on_db, try_on. simpl. destruct (ContractCodeSize h (db s)) as [d r]. simpl in *.
  assert (oreads (s, o) (upd_db (λ _, d) s, o)) as Hr by (by apply oreads_db).
  destruct (ContractCode h (db s)).2 as [c|err| |]; try done; simpl in Hv; subst r; eexists; (split; [reflexivity|]).
  - done.
  - eapply oreads_trans; [exact Hr|]. apply oreads_setError. by eapply oreads_ok.
Qed.

(** ** Reads of the state *)

(** [s'] shows the same as [s], and no journal entry or revision was added. *)
Record reads_to (s s' : StateDB) : Prop := {
  rt_same : same s s';
  rt_journal : jrnl s' = jrnl s;
  rt_revisions : validRevisions s' = validRevisions s;
  rt_nextId : nextRevisionId s' = nextRevisionId s
}.

Lemma reads_to_refl s : sdb_inv s → reads_to s s.
Proof. intros Hs. split; try done. by apply same_refl. Qed.
Lemma reads_to_trans s t u : reads_to s t → reads_to t u → reads_to s u.
Proof. intros [] []. split; [by eapply same_trans|congruence..]. Qed.

(** New caches of the database, another prefetcher, another recorded error. *)
Lemma reads_to_caches s s' : sdb_inv s → caches_differ s s' → reads_to s s'.
Proof.
  intros Hs (d & e & pf & -> & Hd & Hdd & Hpf). split; try done. split; try done.
  - by destruct Hs.
  - intros a. change (obj_at (upd_db _ _) a) with (obj_at s a).
    destruct (obj_at s a) as [o|]; constructor. apply obj_same_env. by split_and!.
Qed.

(** The account trie after a read. *)
Lemma reads_to_trie s t e :
  sdb_inv s → trie_inv t → same_reads (sdb_trie s) t →
  reads_to s (upd_trie (λ _, t) (upd_dbErr (λ _, e) s)).
Proof.
  intros Hs Ht Htt. split; try done. split; try done.
  - pose proof (si_accounts _ Hs) as Ha. destruct Hs. split; try done.
    intros a acc. simpl. rewrite (proj2 Htt). apply Ha.
  - intros a. assert (obj_at (upd_trie (λ _, t) (upd_dbErr (λ _, e) s)) a = obj_at s a)
      as ->. { unfold obj_at, account_at. simpl. by rewrite (proj2 Htt). }
    destruct (obj_at s a) as [o|]; constructor. apply obj_same_env. by split_and!.
Qed.

Lemma account_at_same s t a : same s t → account_at t a = account_at s a.
Proof.
  intros Hst. unfold account_at. rewrite <- (sm_snap _ _ Hst).
  by rewrite (proj2 (sm_trie _ _ Hst)).
Qed.

(** Keeping an object that was loaded. *)
Lemma same_load s a o : sdb_inv s → obj_at s a = Some o → same s (setStateObject o s).
Proof.
  intros Hs Ho. pose proof (obj_at_ok s a o Hs Ho) as Hok. pose proof (ok_address _ _ Hok) as Ha.
  assert (sdb_inv (setStateObject o s)) by (apply sdb_inv_set; [done|by rewrite Ha]).
  split; try done. intros b. rewrite obj_at_set, Ha. case_decide as E.
  - subst b. rewrite Ho. constructor. apply obj_same_refl.
  - destruct (obj_at s b); constructor. apply obj_same_refl.
Qed.

Lemma load_account_spec s a :
  sdb_inv s →
  ∃ s', load_account a s = (s', Ok (account_at s a)) ∧ reads_to s s' ∧ stateObjects s' = stateObjects s.
Proof.
  intros Hs. unfold load_account, account_at, gets. mred. simpl.
  destruct (match snap s with Some n => Snap_Account n (keccak256 a) | None => None end) as [acc|] eqn:Hsn;
    unfold mbind, option_bind; rewrite Hsn.
  { exists s. split; [done|]. split; [by apply reads_to_refl|done]. }
  destruct (TryGetAccount_reads a (sdb_trie s)) as (Hi & Hr & Hret); [apply Hs|].
  unfold on_account_trie, try_on. destruct (trie_TryGetAccount a (sdb_trie s)) as [t r]. simpl in *.
  destruct r as [acc|err| |]; try done; eexists; (split; [done|]); split; try done.
  - by apply (reads_to_trie s t (dbErr s)).
  - by apply (reads_to_trie s t (dbErr (setError (ErrGetStateObject a err) s))).
Qed.

Lemma getDeletedStateObject_spec s a :
  sdb_inv s →
  ∃ s', getDeletedStateObject a s = (s', Ok (obj_at s a)) ∧ reads_to s s'
    ∧ (∀ o, obj_at s a = Some o → stateObjects s' !! a = Some o)
    ∧ (obj_at s a = None → stateObjects s' = stateObjects s).
Proof.
  intros Hs. unfold getDeletedStateObject, obj_at, gets. mred.
  destruct (stateObjects s !! a) as [o|] eqn:Ho.
  { exists s. split; [done|]. split; [by apply reads_to_refl|]. split; [by intros ? [= <-]|done]. }
  destruct (load_account_spec s a Hs) as (s' & E & Hr & Hobj). rewrite E.
  destruct (account_at s a) as [acc|] eqn:Hacc; simpl.
  2: { exists s'. split; [done|]. by split. }
  assert (obj_at s' a = Some (newObject a acc)) as Hat.
  { unfold obj_at. by rewrite Hobj, Ho, (account_at_same s s'), Hacc by apply Hr. }
  exists (setStateObject (newObject a acc) s'). split; [done|].
  split_and!; [|by intros ? [= <-]; apply lookup_insert_eq|done].
  eapply reads_to_trans; [exact Hr|]. split; try done. apply same_load with a; [|done].
  by apply (rt_same _ _ Hr).
Qed.

(** [getStateObject] hides deleted objects. *)
Definition live (o : option stateObject) : option stateObject :=
  o ← o; if deleted o then None else Some o.

Lemma getStateObject_spec s a :
  sdb_inv s →
  ∃ s', getStateObject a s = (s', Ok (live (obj_at s a))) ∧ reads_to s s'
    ∧ (∀ o, obj_at s a = Some o → stateObjects s' !! a = Some o).
Proof.
  intros Hs. destruct (getDeletedStateObject_spec s a Hs) as (s' & E & Hr & Ho & _).
  exists s'. unfold getStateObject. by rewrite (bind_step _ _ _ _ _ E).
Qed.

Lemma live_p_ok s a o : sdb_inv s → stateObjects s !! a = Some o → p_ok (s, o).
Proof.
  intros Hs Ho. pose proof (si_obj _ Hs _ _ Ho) as Hok. split; [apply Hs..|]. simpl.
  by rewrite (ok_address _ _ Hok).
Qed.

(** A reading method of an object in the map. *)
Lemma on_obj_reads {A} s a o (m : O_ A) v :
  sdb_inv s → stateObjects s !! a = Some o → oyields m (s, o) v →
  ∃ s', on_obj o m s = (s', Ok v) ∧ reads_to s s'
    ∧ ∃ o', stateObjects s' !! a = Some o' ∧ obj_same (env_of s) (env_of s') o o'.
Proof.
  intros Hs Ho ([s' o'] & E & Hr). pose proof (si_obj _ Hs _ _ Ho) as Hok.
  destruct Hr as (Hc & Hoo & Hok'). simpl in *.
  pose proof (os_address _ _ _ _ Hoo) as Haddr. pose proof (ok_address _ _ Hok) as Ha.
  exists (setStateObject o' s'). pose proof (reads_to_caches s s' Hs Hc) as [].
  unfold on_obj. rewrite E. split; [done|]. split.
  - split; try done. replace s with (setStateObject o s) at 1.
    + apply same_set; [done|by rewrite Ha|done..].
    + unfold setStateObject, upd_objects. rewrite Ha, insert_id by done. by destruct s.
  - exists o'. split; [|done]. simpl. rewrite <- Haddr, Ha. apply lookup_insert_eq.
Qed.

Lemma with_object_reads {A} s a (m : O_ A) none (f : env → stateObject → A) :
  (∀ s o, p_ok (s, o) → oyields m (s, o) (f (env_of s) o)) →
  (∀ E F o p, obj_same E F o p → f E o = f F p) →
  sdb_inv s →
  ∃ s', with_object a m none s
        = (s', Ok (match live (obj_at s a) with Some o => f (env_of s) o | None => none end))
    ∧ reads_to s s'.
Proof.
  intros Hm Hf Hs. unfold with_object.
  destruct (getStateObject_spec s a Hs) as (s1 & E & Hr & Ho). rewrite (bind_step _ _ _ _ _ E).
  destruct (live (obj_at s a)) as [o|] eqn:Hl; [|by exists s1].
  assert (obj_at s a = Some o) as Hat.
  { unfold live in Hl. destruct (obj_at s a) as [p|]; simpl in Hl; [|done]. by destruct (deleted p); simplify_eq. }
  pose proof (sm_inv' _ _ (rt_same _ _ Hr)) as Hs1.
  destruct (on_obj_reads s1 a o m (f (env_of s1) o)) as (s2 & E2 & Hr2 & _); [done|by apply Ho| |].
  { apply Hm, live_p_ok with a; [done|by apply Ho]. }
  exists s2. rewrite E2. split; [|by eapply reads_to_trans]. do 2 f_equal. apply Hf.
  apply obj_same_env. eapply same_env, same_sym, Hr.
Qed.

(** What the getters of two states with the same view return. *)
Lemma live_same s t a :
  same s t → option_Forall2 (obj_same (env_of s) (env_of t)) (live (obj_at s a)) (live (obj_at t a)).
Proof.
  intros Hst. destruct (sm_obj _ _ Hst a) as [o p Hop|]; [|constructor]. unfold live. simpl.
  rewrite <- (os_deleted _ _ _ _ Hop). by destruct (deleted o); constructor.
Qed.

(** ** Starting and stopping the prefetcher *)

Context `{!RangeLaws}.

Lemma StopPrefetcher_reads s :
  sdb_inv s → ∃ s', StopPrefetcher s = (s', Ok tt) ∧ s' = upd_prefetcher (λ _, None) s ∧ reads_to s s'.
Proof.
  intros Hs. exists (upd_prefetcher (λ _, None) s). split_and!; [|done|].
  - unfold StopPrefetcher. destruct (prefetcher s) as [p|] eqn:Ep; [|by destruct s; simpl in *; subst].
    destruct (si_prefetcher _ Hs p Ep) as [Hi _].
    by destruct (pf_close_spec _ _ (si_db _ Hs) p Hi) as (p' & -> & _).
  - apply reads_to_caches; [done|]. exists (db s), (dbErr s), None. split_and!; [done|apply Hs|done|done].
Qed.

Lemma StartPrefetcher_reads s :
  sdb_inv s → (∀ a, keccak256 a ≠ zeroHash) → ∃ s', StartPrefetcher s = (s', Ok tt) ∧ reads_to s s'.
Proof.
  intros Hs Hz. destruct (StopPrefetcher_reads s Hs) as (s1 & E & -> & Hr).
  unfold StartPrefetcher. rewrite (bind_step _ _ _ _ _ E). unfold modify. simpl.
  destruct (snap s) as [n|]; [|by exists (upd_prefetcher (λ _, None) s)].
  eexists. split; [done|]. apply reads_to_caches; [done|].
  exists (db s), (dbErr s), (Some (newTriePrefetcher (originalRoot s))). split_and!; [done|apply Hs|done|].
  intros p [= <-]. split; [apply pf_inv_new|done].
Qed.
End reads.
