(* ===== verification/Revert.v ===== *)
(** * Snapshots: undoing the journal

    Every journaled operation can be undone: running the [revert] methods of
    the entries it appended, latest first, on any state that shows the same as
    its result gives a state that shows the same as its start. *)
From S2P Require Import Prelude Errors Geth AccessList StateData StateObject StateDB StateView StateReads.
Import TransientStorage(ts_Get, ts_Set, ts_Get_Set).
Local Open Scope Z_scope.

Section revert.
Context `{RlpOps, CryptoOps, CommonOps, TrieOps, !DatabaseOps, SnapOps, RangeOps, SchedOps}.
Context `{!CryptoLaws, !TrieLaws, !DatabaseLaws, !SnapLaws}.

Abbreviation S_ := (stateM StateDB error).
Abbreviation O_ := (stateM (StateDB * stateObject) error).

(** ** Undoing *)

(** The loop of [journal.revert] over entries given latest first. *)
Definition undo (es : list journalEntry) : S_ unit :=
  iterM (λ e, _ ← revert_entry e; modify (upd_journal (untrack e))) es.

Record same_revisions (s t : StateDB) : Prop := {
  sr_revisions : validRevisions t = validRevisions s;
  sr_nextId : nextRevisionId t = nextRevisionId s
}.

Definition undoes (es : list journalEntry) (s g : StateDB) : Prop :=
  ∀ t, same s t → ∃ t', undo es t = (t', Ok tt) ∧ same g t' ∧ same_revisions t t'.

(** From [s] to [s'] by operations that can be undone. *)
Record step (s s' : StateDB) : Prop := {
  st_inv : sdb_inv s';
  st_undo : ∃ new, entries (jrnl s') = entries (jrnl s) ++ new ∧ undoes (rev new) s' s;
  st_revisions : same_revisions s s'
}.

Lemma same_revisions_refl s : same_revisions s s.
Proof. done. Qed.
Lemma same_revisions_trans s t u : same_revisions s t → same_revisions t u → same_revisions s u.
Proof. intros [] []. split; congruence. Qed.

Lemma iterM_app {E T A} (f : A → stateM T E unit) l k s s' :
  iterM f l s = (s', Ok tt) → iterM f (l ++ k) s = iterM f k s'.
Proof.
  revert s. induction l as [|a l IH]; intros s; simpl; [by intros [= ->]|].
  unfold mbind, stateM_bind. destruct (f a s) as [s1 [[]| | |]]; try done. apply IH.
Qed.

Lemma undoes_app es es' s g g' : undoes es s g → undoes es' g g' → undoes (es ++ es') s g'.
Proof.
  intros Hu1 Hu2 t Ht. destruct (Hu1 t Ht) as (t1 & E1 & Hs1 & Hr1).
  destruct (Hu2 t1 Hs1) as (t2 & E2 & Hs2 & Hr2). exists t2. unfold undo.
  rewrite (iterM_app _ _ _ _ _ E1). split_and!; [done|done|]. by eapply same_revisions_trans.
Qed.

Lemma undoes_nil s g : same g s → undoes [] s g.
Proof. intros Hg t Ht. exists t. split_and!; [done| |done]. by eapply same_trans. Qed.

Lemma step_reads s s' : reads_to s s' → step s s'.
Proof.
  intros [Hsm Hj Hr Hn]. split; [apply Hsm| |by split]. exists []. rewrite app_nil_r, Hj.
  split; [done|]. by apply undoes_nil.
Qed.

Lemma step_refl s : sdb_inv s → step s s.
Proof. intros. by apply step_reads, reads_to_refl. Qed.

Lemma step_trans s t u : step s t → step t u → step s u.
Proof.
  intros [? (n1 & E1 & U1) ?] [? (n2 & E2 & U2) ?]. split; [done| |by eapply same_revisions_trans].
  exists (n1 ++ n2). rewrite E2, E1, app_assoc, rev_app_distr. split; [done|]. by eapply undoes_app.
Qed.

(** One undone entry; dropping the dirty count is not observed. *)
Lemma undoes_one e s g :
  (∀ t, same s t → ∃ t', revert_entry e t = (t', Ok tt) ∧ same g t' ∧ same_revisions t t') →
  undoes [e] s g.
Proof.
  intros He t Ht. destruct (He t Ht) as (t' & E & Hg & Hr). exists (upd_journal (untrack e) t').
  unfold undo. simpl. rewrite (bind_step _ _ _ _ _ (bind_step _ _ _ _ _ E)).
  split_and!; [done|by apply same_journal_r|]. destruct Hr. by split.
Qed.

(** An operation with one journal entry. *)
Lemma step_entry e s s' :
  sdb_inv s' → entries (jrnl s') = entries (jrnl s) ++ [e] → same_revisions s s' →
  (∀ t, same s' t → ∃ t', revert_entry e t = (t', Ok tt) ∧ same s t' ∧ same_revisions t t') →
  step s s'.
Proof. intros Hi He Hr Hu. split; [done| |done]. exists [e]. split; [done|]. by apply undoes_one. Qed.

(** ** Changing one object *)

Lemma sdb_inv_journal f s : sdb_inv s → sdb_inv (upd_journal f s).
Proof. by intros []. Qed.

Lemma getStateObject_same s t a o :
  same s t → stateObjects s !! a = Some o → deleted o = false →
  ∃ t' p, getStateObject a t = (t', Ok (Some p)) ∧ same s t' ∧ same_revisions t t'
    ∧ stateObjects t' !! a = Some p ∧ obj_same (env_of s) (env_of t') o p.
Proof.
  intros Hst Ho Hd. destruct (getStateObject_spec t a) as (t' & E & Hr & Hin); [apply Hst|].
  pose proof (sm_obj _ _ Hst a) as Hob. rewrite (obj_at_live _ _ _ Ho) in Hob.
  inversion Hob as [? p Hop Heq Hp|]; subst. symmetry in Hp.
  assert (live (obj_at t a) = Some p) as Hl.
  { rewrite Hp. unfold live. simpl. by rewrite <- (os_deleted _ _ _ _ Hop), Hd. }
  exists t', p. rewrite E, Hl. split_and!; [done| | |by apply Hin|].
  - eapply same_trans; [exact Hst|apply Hr].
  - destruct Hr. by split.
  - eapply obj_same_rebase; [exact Hop|apply same_env_at_refl|]. eapply same_env, Hr.
Qed.

Lemma mutate_step s a o e (f u : stateObject → stateObject) :
  sdb_inv s → stateObjects s !! a = Some o → deleted o = false →
  obj_ok a (f o) → deleted (f o) = false →
  (∀ t t' p, getStateObject a t = (t', Ok (Some p)) → revert_entry e t = (setStateObject (u p) t', Ok tt)) →
  (∀ F p, same_env_at a (env_of s) F → obj_same (env_of s) F (f o) p → obj_same (env_of s) F o (u p)) →
  (∀ p, obj_ok a p → obj_ok a (u p)) →
  step s (setStateObject (f o) (upd_journal (journal_append e) s)).
Proof.
  intros Hs Ho Hd Hok Hdf Hrev Hu Huok. pose proof (ok_address _ _ Hok) as Ha.
  set (s' := setStateObject (f o) (upd_journal (journal_append e) s)).
  assert (sdb_inv s') as Hs'.
  { apply sdb_inv_set; [by apply sdb_inv_journal|by rewrite Ha]. }
  apply (step_entry e); [done..|]. intros t Ht.
  destruct (getStateObject_same s' t a (f o) Ht) as (t1 & p & E & Hst & Hr & Hp & Hop); [|done|].
  { unfold s'. simpl. rewrite Ha. apply lookup_insert_eq. }
  exists (setStateObject (u p) t1). rewrite (Hrev _ _ _ E).
  pose proof (si_obj _ (sm_inv' _ _ Hst) _ _ Hp) as Hpok.
  assert (obj_same (env_of s) (env_of t1) o (u p)) as Hou.
  { apply Hu; [|exact Hop]. apply (same_env s' t1 a Hst). }
  split_and!; [done| |by destruct Hr].
  pose proof (si_obj _ Hs _ _ Ho) as Hoo.
  assert (same (setStateObject o s') (setStateObject (u p) t1)) as Hfin.
  { apply same_set; [done| | |done]; rewrite (ok_address _ _ Hoo); [done|by apply Huok]. }
  eapply same_trans; [|exact Hfin]. 
  replace (setStateObject o s') with (upd_journal (journal_append e) s).
  - by apply same_journal_r, same_refl.
  - unfold s', setStateObject, upd_objects. simpl.
    rewrite Ha, (ok_address _ _ Hoo), insert_insert_eq, insert_id by done. by destruct s.
Qed.

(** The changes to the account data all undo in the same way. *)
Lemma must_object_revert a u t t' p :
  getStateObject a t = (t', Ok (Some p)) →
  must_object a (on_self u) t = (setStateObject (u p) t', Ok tt).
Proof. intros E. unfold must_object. by rewrite (bind_step _ _ _ _ _ E). Qed.

Lemma acc_eta a : MkStateAccount (acc_Nonce a) (acc_Balance a) (acc_Root a) (acc_CodeHash a) = a.
Proof. by destruct a. Qed.

Lemma same_upd_data E F o p (f g : StateAccount → StateAccount) :
  (∀ a, acc_Root (f a) = acc_Root a ∧ acc_CodeHash (f a) = acc_CodeHash a) →
  (∀ a, acc_Root (g a) = acc_Root a ∧ acc_CodeHash (g a) = acc_CodeHash a) →
  g (f (data o)) = data o →
  obj_same E F (upd_data f o) p → obj_same E F o (upd_data g p).
Proof.
  intros Hf Hg Hgf [Ha Hah Hda Hpe Hsu Hde Hco Hcm Hcu].
  assert (∀ G q h k, (∀ a, acc_Root (h a) = acc_Root a ∧ acc_CodeHash (h a) = acc_CodeHash a) →
    committed G (upd_data h q) k = committed G q k) as Hc.
  { intros G q h k Hh. unfold committed, stored_slot. simpl. by rewrite (proj1 (Hh _)). }
  assert (∀ G q h, (∀ a, acc_Root (h a) = acc_Root a ∧ acc_CodeHash (h a) = acc_CodeHash a) →
    code_of G (upd_data h q) = code_of G q) as Hcd.
  { intros G q h Hh. unfold code_of. simpl. by rewrite (proj2 (Hh _)). }
  split; try done; simpl in *.
  - by rewrite <- Hda.
  - rewrite (Hcd E o f Hf) in Hco. by rewrite Hcd.
  - intros k. by rewrite Hc, <- Hcm, Hc.
  - intros k. specialize (Hcu k). unfold current in *. rewrite !Hc in * by done. done.
Qed.

Lemma data_step s a o e (f g : StateAccount → StateAccount) :
  sdb_inv s → stateObjects s !! a = Some o → deleted o = false →
  (∀ a, acc_Root (f a) = acc_Root a ∧ acc_CodeHash (f a) = acc_CodeHash a) →
  (∀ a, acc_Root (g a) = acc_Root a ∧ acc_CodeHash (g a) = acc_CodeHash a) →
  g (f (data o)) = data o →
  revert_entry e = must_object a (on_self (upd_data g)) →
  step s (setStateObject (upd_data f o) (upd_journal (journal_append e) s)).
Proof.
  intros Hs Ho Hd Hf Hg Hgf He.
  assert (∀ h p, (∀ a, acc_Root (h a) = acc_Root a ∧ acc_CodeHash (h a) = acc_CodeHash a) →
    obj_ok a p → obj_ok a (upd_data h p)) as Hok.
  { intros h p Hh []. destruct (Hh (data p)) as [Er Ec]. split; try done; simpl; by rewrite ?Er, ?Ec. }
  eapply mutate_step with (u := upd_data g); try done.
  - by apply Hok, (si_obj _ Hs).
  - intros t t' p E. rewrite He. by apply must_object_revert.
  - intros F p _. by apply same_upd_data.
  - intros p. by apply Hok.
Qed.

(** ** Methods of an object *)

(** Run a computation to its end. *)
Ltac ran := eexists _, tt; split; [reflexivity|]; cbv beta iota delta [fst snd id].

Definition method_steps {A} (m : O_ A) : Prop := ∀ s a o,
  sdb_inv s → stateObjects s !! a = Some o → deleted o = false →
  ∃ s' v, on_obj o m s = (s', Ok v) ∧ step s s'.

Lemma so_SetBalance_steps n : method_steps (so_SetBalance n).
Proof.
  intros s a o Hs Ho Hd. ran.
  rewrite (ok_address _ _ (si_obj _ Hs _ _ Ho)).
  eapply data_step with (g := acc_set_Balance (acc_Balance (data o))); try done.
  unfold acc_set_Balance. simpl. apply acc_eta.
Qed.

Lemma so_SetNonce_steps n : method_steps (so_SetNonce n).
Proof.
  intros s a o Hs Ho Hd. ran.
  rewrite (ok_address _ _ (si_obj _ Hs _ _ Ho)).
  eapply data_step with (g := acc_set_Nonce (acc_Nonce (data o))); try done.
  unfold acc_set_Nonce. simpl. apply acc_eta.
Qed.

Lemma touch_steps : method_steps touch.
Proof.
  intros s a o Hs Ho Hd. pose proof (si_obj _ Hs _ _ Ho) as Hok.
  assert (∀ f, (∀ j, entries (f j) = entries j ++ [touchChange (address o)]) →
    step s (setStateObject o (upd_journal f s))) as Hstep.
  { intros f Hf. assert (setStateObject o (upd_journal f s) = upd_journal f s) as ->.
    { unfold setStateObject, upd_objects. simpl. rewrite (ok_address _ _ Hok), insert_id by done. done. }
    apply (step_entry (touchChange (address o))); [by apply sdb_inv_journal|apply Hf|done|].
    intros t Ht. exists t. split_and!; [done| |done].
    eapply same_trans; [apply same_journal_r, same_refl, Hs|exact Ht]. }
  unfold on_obj, touch, self, gets, so_append, on_sdb. mred. case_bool_decide; mred; ran.
  - by apply (Hstep (λ j, journal_dirty (address o) (journal_append (touchChange (address o)) j))).
  - by apply (Hstep (journal_append (touchChange (address o)))).
Qed.

Lemma so_AddBalance_steps n : method_steps (so_AddBalance n).
Proof.
  intros s a o Hs Ho Hd. unfold so_AddBalance, self, gets.
  unfold on_obj. mred. cbv beta delta [id]. case_bool_decide as Hn.
  - destruct (empty o); [exact (touch_steps s a o Hs Ho Hd)|]. ran.
    apply step_reads. split; try done. by apply same_load with a; [|apply obj_at_live].
  - exact (so_SetBalance_steps _ s a o Hs Ho Hd).
Qed.

Lemma so_SubBalance_steps n : method_steps (so_SubBalance n).
Proof.
  intros s a o Hs Ho Hd. unfold so_SubBalance. case_bool_decide as Hn.
  - ran.
    apply step_reads. split; try done. by apply same_load with a; [|apply obj_at_live].
  - exact (so_SetBalance_steps _ s a o Hs Ho Hd).
Qed.

(** A read followed by one journaled change. *)
Lemma on_obj_after_read {A} s a o (m : O_ A) v s1 o1 :
  sdb_inv s → stateObjects s !! a = Some o → deleted o = false →
  m (s, o) = ((s1, o1), Ok v) → oreads (s, o) (s1, o1) →
  reads_to s (setStateObject o1 s1) ∧ sdb_inv (setStateObject o1 s1)
  ∧ stateObjects (setStateObject o1 s1) !! a = Some o1 ∧ deleted o1 = false ∧ address o1 = a
  ∧ env_of (setStateObject o1 s1) = env_of s1 ∧ obj_same (env_of s) (env_of s1) o o1.
Proof.
  intros Hs Ho Hd E Hr. pose proof (si_obj _ Hs _ _ Ho) as Hok.
  destruct (on_obj_reads s a o m v Hs Ho) as (s' & E' & Hr' & _); [by exists (s1, o1)|].
  unfold on_obj in E'. rewrite E in E'. injection E' as <-.
  assert (address o1 = a) as Ha.
  { rewrite <- (ok_address _ _ Hok). symmetry. apply Hr. }
  split_and!; [done|apply Hr'| | |done|done|apply Hr].
  2: { rewrite <- Hd. symmetry. apply Hr. }
  simpl. rewrite Ha. apply lookup_insert_eq.
Qed.

Lemma set_twice o o' f s :
  address o = address o' →
  setStateObject o (upd_journal f (setStateObject o' s)) = setStateObject o (upd_journal f s).
Proof. intros Ha. unfold setStateObject, upd_objects. simpl. by rewrite Ha, insert_insert_eq. Qed.

Lemma same_upd_dirty E F o p k v prev :
  prev = current E o k →
  obj_same E F (upd_dirty <[k := v]> o) p → obj_same E F o (upd_dirty <[k := prev]> p).
Proof.
  intros Hprev [Ha Hah Hda Hpe Hsu Hde Hco Hcm Hcu]. split; try done. intros l.
  specialize (Hcu l). unfold current in *. simpl in *.
  destruct (decide (k = l)) as [<-|Hkl]; [by rewrite lookup_insert_eq|].
  rewrite lookup_insert_ne in * by done. exact Hcu.
Qed.

Lemma so_SetState_steps k v : method_steps (so_SetState k v).
Proof.
  intros s a o Hs Ho Hd. pose proof (si_obj _ Hs _ _ Ho) as Hok.
  destruct (so_GetState_spec s o k) as ([s1 o1] & E & Hr).
  { by apply live_p_ok with a. }
  destruct (on_obj_after_read s a o _ _ s1 o1 Hs Ho Hd E Hr) as (Hr1 & Hs1 & Ho1 & Hd1 & Ha1 & He1 & Hoo).
  unfold on_obj, so_SetState. rewrite (bind_step _ _ _ _ _ E). case_bool_decide as Hv.
  - exists (setStateObject o1 s1), tt. split; [done|]. by apply step_reads.
  - exists (setStateObject (upd_dirty <[k := v]> o1)
      (upd_journal (journal_append (storageChange a k (current (env_of s) o k))) s1)), tt.
    split; [unfold self, gets, so_append, on_sdb, so_setState, on_self; mred; simpl; by rewrite Ha1|].
    eapply step_trans; [by apply step_reads|].
    rewrite <- (set_twice _ o1) by done.
    apply mutate_step with (a := a) (u := upd_dirty <[k := current (env_of s) o k]>); try done.
    + destruct (si_obj _ Hs1 _ _ Ho1). by split.
    + intros t t' p Et. simpl. by apply must_object_revert.
    + intros F p _. apply same_upd_dirty. rewrite He1. symmetry. symmetry. apply Hoo.
    + intros p []. by split.
Qed.

Definition set_code (h : bytes) (c : option bytes) (o : stateObject) : stateObject :=
  upd_dirtyCode (λ _, true) (upd_data (acc_set_CodeHash h) (upd_code (λ _, c) o)).

Lemma same_set_code E F o p h c prev :
  same_env_at (address o) E F → prev = code_of E o →
  obj_same E F (set_code h c o) p → obj_same E F o (set_code (acc_CodeHash (data o)) prev p).
Proof.
  intros HE Hprev [Ha Hah Hda Hpe Hsu Hde Hco Hcm Hcu].
  split; try done; simpl in *.
  - rewrite <- Hda. destruct (data o). done.
  - subst prev. destruct (code_of E o) as [c'|] eqn:Ec; unfold code_of in *; simpl in *; [done|].
    destruct (code o); [done|]. case_bool_decide; [done|]. by rewrite (proj1 (proj1 HE)).
Qed.

Lemma so_SetCode_steps h c : length h = hashLen → method_steps (so_SetCode h c).
Proof.
  intros Hh s a o Hs Ho Hd. pose proof (si_obj _ Hs _ _ Ho) as Hok.
  destruct (Code_spec s o) as ([s1 o1] & E & Hr).
  { by apply live_p_ok with a. }
  destruct (on_obj_after_read s a o _ _ s1 o1 Hs Ho Hd E Hr) as (Hr1 & Hs1 & Ho1 & Hd1 & Ha1 & He1 & Hoo).
  exists (setStateObject (set_code h c o1)
      (upd_journal (journal_append (codeChange a (code_of (env_of s) o) (acc_CodeHash (data o1)))) s1)), tt.
  split.
  { unfold on_obj, so_SetCode. rewrite (bind_step _ _ _ _ _ E).
    unfold self, gets, so_append, on_sdb, so_setCode, on_self. mred. simpl. by rewrite Ha1. }
  eapply step_trans; [by apply step_reads|]. rewrite <- (set_twice _ o1) by done.
  pose proof (si_obj _ Hs1 _ _ Ho1) as Hok1.
  apply mutate_step with (a := a) (u := set_code (acc_CodeHash (data o1)) (code_of (env_of s) o)); try done.
  - destruct Hok1. by split.
  - intros t t' p Et. simpl. rewrite BytesToHash_id by apply Hok1. by apply must_object_revert.
  - intros F p HF. apply same_set_code; [by rewrite Ha1|]. rewrite He1. apply Hoo.
  - intros p []. split; try done. apply Hok1.
Qed.

(** [Suicide]. *)
Lemma suicide_step s a o :
  sdb_inv s → stateObjects s !! a = Some o → deleted o = false →
  step s (setStateObject (upd_data (acc_set_Balance 0) (upd_suicided (λ _, true) o))
            (upd_journal (journal_append (suicideChange a (suicided o) (acc_Balance (data o)))) s)).
Proof.
  intros Hs Ho Hd. pose proof (si_obj _ Hs _ _ Ho) as Hok.
  set (f := λ p, upd_data (acc_set_Balance 0) (upd_suicided (λ _, true) p)).
  apply mutate_step with (a := a) (f := f)
    (u := λ p, upd_data (acc_set_Balance (acc_Balance (data o))) (upd_suicided (λ _, suicided o) p)); try done.
  - destruct Hok. by split.
  - intros t t' p Et. simpl. by rewrite (bind_step _ _ _ _ _ Et).
  - intros F p _ Hop.
    assert (obj_same (env_of s) F (upd_suicided (λ _, true) o)
              (upd_data (acc_set_Balance (acc_Balance (data o))) p)) as [].
    { eapply (same_upd_data _ _ _ _ (acc_set_Balance 0)); [done|done| |exact Hop].
      unfold acc_set_Balance. simpl. apply acc_eta. }
    split; try done.
  - intros p []. by split.
Qed.
End revert.
