(* ===== verification/Undo.v ===== *)
(** * Undoing the other operations

    Creating objects, and the changes that are not of one object: refunds, logs,
    preimages, transient storage and the access list. *)
From S2P Require Import Prelude Errors Geth AccessList StateData StateObject StateDB StateView.
From S2P Require Import StateReads Revert.
Import TransientStorage(ts_Get, ts_Set, ts_Get_Set).
Local Open Scope Z_scope.

Section undo.
Context `{RlpOps, CryptoOps, CommonOps, TrieOps, !DatabaseOps, SnapOps, RangeOps, SchedOps}.
Context `{!CryptoLaws, !TrieLaws, !DatabaseLaws, !SnapLaws}.

Abbreviation S_ := (stateM StateDB error).
Abbreviation O_ := (stateM (StateDB * stateObject) error).

(** A computation that ends, and can be undone. *)
Definition steps {A} (m : S_ A) (s : StateDB) : Prop := ∃ s' v, m s = (s', Ok v) ∧ step s s'.

(** ** Creating objects *)

(** The state after [createObject] at [a] has put the object [n], given the state
    in which it found [prev]. *)
Definition created (s : StateDB) (a : bytes) (prev : option stateObject) (n : stateObject) : StateDB :=
  let s1 := match prev with
            | Some p => if bool_decide (address p ∈ stateObjectsDestruct s) then s
                        else upd_destruct (union {[address p]}) s
            | None => s
            end in
  let e := match prev with
           | None => createObjectChange a
           | Some p => resetObjectChange p (bool_decide (address p ∈ stateObjectsDestruct s))
           end in
  setStateObject n (upd_journal (journal_append e) s1).

Lemma createObject_run s s1 a prev :
  getDeletedStateObject a s = (s1, Ok prev) →
  createObject a s = (created s1 a prev (newObject a zeroAccount), Ok (newObject a zeroAccount, live prev)).
Proof.
  intros E. unfold createObject. rewrite (bind_step _ _ _ _ _ E). unfold created, append, gets.
  destruct prev as [p|]; mred; [|done]. by case_bool_decide.
Qed.

Lemma newObject_zero_ok a : obj_ok a (newObject a zeroAccount).
Proof. apply newObject_ok. by intros h. Qed.

Lemma created_inv s a prev n : sdb_inv s → obj_ok a n → sdb_inv (created s a prev n).
Proof.
  intros Hs Hn. unfold created. apply sdb_inv_set; [|by rewrite (ok_address _ _ Hn)].
  apply sdb_inv_journal. destruct prev; [|done]. case_bool_decide; [done|]. by destruct Hs.
Qed.

(** Views of the addresses other than the one created. *)
Lemma obj_at_created s a prev n b :
  a ≠ b → address n = a → obj_at (created s a prev n) b = obj_at s b.
Proof.
  intros Hab Hn. unfold created. rewrite obj_at_set, Hn, decide_False by done.
  destruct prev; [|done]. by case_bool_decide.
Qed.

Lemma created_env s a prev n b :
  a ≠ b → (∀ p, prev = Some p → address p = a) →
  same_env_at b (env_of (created s a prev n)) (env_of s).
Proof.
  intros Hab Hp. split_and!; try by (destruct prev; [simpl; case_bool_decide|]).
  destruct prev as [p|]; [|done]. specialize (Hp p eq_refl). unfold created. simpl.
  case_bool_decide; simpl; [done|]. set_solver.
Qed.

Lemma created_new_step s a n :
  sdb_inv s → obj_at s a = None → obj_ok a n → step s (created s a None n).
Proof.
  intros Hs Hn Hnok. pose proof (ok_address _ _ Hnok) as Hna. assert (stateObjects s !! a = None) as Hlive.
  { unfold obj_at in Hn. by destruct (stateObjects s !! a). }
  assert (account_at s a = None) as Hacc.
  { unfold obj_at in Hn. rewrite Hlive in Hn. by destruct (account_at s a). }
  apply (step_entry (createObjectChange a)); [by apply created_inv|done..|].
  intros t Ht. eexists. split; [reflexivity|]. split; [|done].
  pose proof Ht as [I1 I2]. 
  assert (a ∉ stateObjectsPending s) as Hnp.
  { intros [o Ho]%(si_pending _ Hs). by rewrite Hlive in Ho. }
  assert (a ∉ stateObjectsDirty s) as Hnd.
  { intros [o Ho]%(si_dirty _ Hs). by rewrite Hlive in Ho. }
  simpl in *. split; simpl; try done.
  - destruct I2 as [J1 J2 JP J3 J4 J5 J6 J7 J8 J9]. split; simpl; try done.
    + intros b o [_ Ho]%lookup_delete_Some. by apply J3.
    + intros b Hb. rewrite lookup_delete_ne; [by apply J4|]. intros <-. by rewrite <- sm_pending in Hb.
    + intros b [Hb Hne]%elem_of_difference. rewrite lookup_delete_ne by set_solver. by apply J5.
  - rewrite <- sm_dirty. set_solver.
  - intros b. destruct (decide (a = b)) as [<-|Hab].
    + rewrite Hn. unfold obj_at. simpl. rewrite lookup_delete_eq.
      assert (account_at t a = account_at s a) as Heq by exact (account_at_same _ _ a Ht).
      unfold account_at in Heq |- *. simpl. rewrite Heq. fold (account_at s a). rewrite Hacc. constructor.
    + specialize (sm_obj b). rewrite obj_at_created in sm_obj by done.
      assert (obj_at t b = obj_at (upd_dirtys (λ X, X ∖ {[a]}) (upd_objects (base.delete a) t)) b) as <-;
        [|exact sm_obj].
      unfold obj_at. simpl. by rewrite lookup_delete_ne.
Qed.

Lemma created_reset_step s a p n :
  sdb_inv s → stateObjects s !! a = Some p → obj_ok a n → step s (created s a (Some p) n).
Proof.
  intros Hs Hp Hnok. pose proof (ok_address _ _ Hnok) as Hna. pose proof (si_obj _ Hs _ _ Hp) as Hok. pose proof (ok_address _ _ Hok) as Ha.
  set (was := bool_decide (address p ∈ stateObjectsDestruct s)).
  apply (step_entry (resetObjectChange p was)).
  - by apply created_inv.
  - unfold created. by case_bool_decide.
  - unfold created. by case_bool_decide.
  - intros t Ht.
    set (t1 := setStateObject p t).
    set (t' := if was then t1 else upd_destruct (λ X, X ∖ {[address p]}) t1).
    exists t'. split; [unfold t', was; simpl; by case_bool_decide|].
    assert (sdb_inv t1) as Ht1 by (apply sdb_inv_set; [apply Ht|by rewrite Ha]).
    assert (sdb_inv t') as Ht'.
    { unfold t'. destruct was; [done|]. by destruct Ht1. }
    assert (stateObjectsDestruct s = stateObjectsDestruct t') as HD.
    { pose proof (sm_destruct _ _ Ht) as E. unfold t', t1, was, created in *. simpl in *.
      case_bool_decide; simpl in *; [done|]. rewrite <- E. set_solver. }
    assert (same_revisions t t') by (unfold t'; by destruct was).
    split; [|done]. pose proof Ht as [I1 I2].
    assert (∀ {A} (f : StateDB → A), (∀ g x, f (upd_destruct g x) = f x) →
      (∀ g x, f (upd_objects g x) = f x) → (∀ g x, f (upd_journal g x) = f x) →
      f (created s a (Some p) n) = f s ∧ f t' = f t) as Hf.
    { intros A f F1 F2 F3. unfold created, t', t1, setStateObject. rewrite F2, F3.
      destruct was; rewrite ?F1, ?F2; case_bool_decide; by rewrite ?F1. }
    assert (same_env_at a (env_of s) (env_of t')) as Henv.
    { split_and!; simpl.
      - destruct (Hf _ db) as [<- ->]; done.
      - destruct (Hf _ originalRoot) as [<- ->]; done.
      - destruct (Hf _ snap) as [<- ->]; done.
      - by rewrite HD. }
    split; try done; try match goal with |- ?f _ = ?f _ => destruct (Hf _ f) as [<- ->]; done end.
    + destruct (Hf _ db) as [<- ->]; done.
    + destruct (Hf _ sdb_trie) as [<- ->]; done.
    + intros b k. destruct (Hf _ transient) as [<- ->]; done.
    + intros b. assert (obj_at t' b = obj_at t1 b) as ->.
      { unfold t'. by destruct was. }
      unfold t1. rewrite obj_at_set, Ha. case_decide as Eb.
      * subst b. rewrite (obj_at_live _ _ _ Hp). constructor. by apply obj_same_env; rewrite Ha.
      * specialize (sm_obj b). rewrite obj_at_created in sm_obj by done.
        destruct (obj_at s b) as [o|] eqn:Eo; inversion sm_obj as [? q Hoq|]; constructor.
        pose proof (ok_address _ _ (obj_at_ok s b o Hs Eo)) as Hab.
        eapply obj_same_rebase; [exact Hoq| |]; rewrite Hab.
        -- apply created_env; [done|]. by intros ? [= <-].
        -- split_and!; simpl.
           ++ by destruct (Hf _ db) as [_ ->].
           ++ by destruct (Hf _ originalRoot) as [_ ->].
           ++ by destruct (Hf _ snap) as [_ ->].
           ++ unfold t', t1. destruct was; simpl; [done|]. rewrite Ha. set_solver.
Qed.

Lemma created_step s s1 a n :
  sdb_inv s → getDeletedStateObject a s = (s1, Ok (obj_at s a)) → obj_ok a n →
  step s (created s1 a (obj_at s a) n).
Proof.
  intros Hs E Hn. destruct (getDeletedStateObject_spec s a Hs) as (s1' & E' & Hr & Hlive & _).
  rewrite E in E'. injection E' as <-.
  pose proof (sm_inv' _ _ (rt_same _ _ Hr)) as Hs1.
  eapply step_trans; [by apply step_reads|]. destruct (obj_at s a) as [p|] eqn:Hp.
  - apply created_reset_step; [done| |done]. by apply Hlive.
  - apply created_new_step; [done| |done]. pose proof (sm_obj _ _ (rt_same _ _ Hr) a) as Ho.
    rewrite Hp in Ho. by inversion Ho.
Qed.

Lemma createObject_steps s a :
  sdb_inv s →
  ∃ s', createObject a s = (s', Ok (newObject a zeroAccount, live (obj_at s a))) ∧ step s s'
    ∧ stateObjects s' !! a = Some (newObject a zeroAccount).
Proof.
  intros Hs. destruct (getDeletedStateObject_spec s a Hs) as (s1 & E & _).
  eexists. rewrite (createObject_run _ _ _ _ E). split; [done|]. split.
  - apply created_step; [done..|apply newObject_zero_ok].
  - unfold created. simpl. apply lookup_insert_eq.
Qed.

Lemma GetOrNewStateObject_steps s a :
  sdb_inv s →
  ∃ s' o, GetOrNewStateObject a s = (s', Ok o) ∧ step s s'
    ∧ stateObjects s' !! a = Some o ∧ deleted o = false.
Proof.
  intros Hs. destruct (getStateObject_spec s a Hs) as (s1 & E & Hr & Hlive).
  unfold GetOrNewStateObject. rewrite (bind_step _ _ _ _ _ E).
  destruct (live (obj_at s a)) as [o|] eqn:Hl.
  - exists s1, o. unfold live in Hl. destruct (obj_at s a) as [p|]; [|done]. simpl in Hl.
    destruct (deleted p) eqn:Hd; [done|]. injection Hl as <-.
    split_and!; [done|by apply step_reads|by apply Hlive|done].
  - destruct (createObject_steps s1 a) as (s2 & E2 & Hst & Hin); [apply Hr|].
    rewrite (bind_step _ _ _ _ _ E2). eexists s2, _.
    split_and!; [done|by eapply step_trans; [apply step_reads|]|done|done].
Qed.

(** ** Setters *)

Lemma with_new_object_steps {A} a (m : O_ A) s :
  sdb_inv s → method_steps m → steps (with_new_object a m) s.
Proof.
  intros Hs Hm. destruct (GetOrNewStateObject_steps s a Hs) as (s1 & o & E & Hst & Ho & Hd).
  unfold steps, with_new_object. rewrite (bind_step _ _ _ _ _ E).
  destruct (Hm s1 a o (st_inv _ _ Hst) Ho Hd) as (s2 & v & E2 & Hst2).
  exists s2, v. split; [done|]. by eapply step_trans.
Qed.

Lemma CreateAccount_steps s a : sdb_inv s → steps (CreateAccount a) s.
Proof.
  intros Hs. destruct (getDeletedStateObject_spec s a Hs) as (s1 & E & _).
  pose proof (createObject_run _ _ _ _ E) as Ec. unfold steps, CreateAccount.
  rewrite (bind_step _ _ _ _ _ Ec). cbv beta iota.
  destruct (live (obj_at s a)) as [p|].
  - exists (created s1 a (obj_at s a) (upd_data (acc_set_Balance (acc_Balance (data p))) (newObject a zeroAccount))), tt.
    split.
    + unfold on_obj, so_setBalance, on_self, modify. unfold created, setStateObject, upd_objects. simpl.
      by rewrite insert_insert_eq.
    + apply created_step; [done..|]. destruct (newObject_zero_ok a). by split.
  - eexists _, tt. split; [done|]. apply created_step; [done..|apply newObject_zero_ok].
Qed.

Lemma Suicide_steps s a : sdb_inv s → steps (Suicide a) s.
Proof.
  intros Hs. destruct (getStateObject_spec s a Hs) as (s1 & E & Hr & Hlive).
  unfold steps, Suicide. rewrite (bind_step _ _ _ _ _ E).
  destruct (live (obj_at s a)) as [o|] eqn:Hl; [|exists s1, false; split; [done|by apply step_reads]].
  unfold live in Hl. destruct (obj_at s a) as [p|]; [|done]. simpl in Hl.
  destruct (deleted p) eqn:Hd; [done|]. injection Hl as <-.
  eexists _, true. split; [reflexivity|].
  eapply step_trans; [by apply step_reads|]. apply suicide_step; [apply Hr|by apply Hlive|done].
Qed.

(** ** Changes that are not of one object *)

Lemma AddRefund_steps s n : sdb_inv s → steps (AddRefund n) s.
Proof.
  intros Hs. eexists _, tt. split; [reflexivity|].
  apply (step_entry (refundChange (refund s))); [by destruct Hs|done..|].
  intros t Ht. eexists. split; [reflexivity|]. split; [|done].
  destruct Ht as [_ [] ]. by split.
Qed.

Lemma SubRefund_steps s n : sdb_inv s → n ≤ refund s → steps (SubRefund n) s.
Proof.
  intros Hs Hn. unfold steps, SubRefund, gets, append. mred.
  rewrite bool_decide_false by lia. eexists _, tt. split; [reflexivity|].
  apply (step_entry (refundChange (refund s))); [by destruct Hs|done..|].
  intros t Ht. eexists. split; [reflexivity|]. split; [|done].
  destruct Ht as [_ [] ]. by split.
Qed.

Lemma u64_succ_pred n : 0 ≤ n < 2 ^ 64 → u64 (u64 (n + 1) - 1) = n.
Proof.
  intros Hn. unfold u64. rewrite Zminus_mod_idemp_l. replace (n + 1 - 1) with n by lia.
  by apply Z.mod_small.
Qed.

Lemma u64_range n : 0 ≤ u64 n < 2 ^ 64.
Proof. apply Z.mod_pos_bound. lia. Qed.

Lemma revert_log t h ls l :
  logs t !! h = Some (ls ++ [l]) →
  revert_entry (addLogChange h) t
  = (upd_logSize (λ n, u64 (n - 1))
       (upd_logs (match ls with [] => base.delete h | _ => <[h := ls]> end) t), Ok tt).
Proof.
  intros El. unfold revert_entry, gets. mred. rewrite El. cbv [from_option id].
  destruct ls as [|l1 ls]; [done|].
  assert (take (length ((l1 :: ls) ++ [l]) - 1) ((l1 :: ls) ++ [l]) = l1 :: ls) as Htake.
  { rewrite length_app, Nat.add_sub. apply take_app_length. }
  assert (2 ≤ length ((l1 :: ls) ++ [l]))%nat as Hlen by (rewrite length_app; simpl; lia).
  clear El. destruct ((l1 :: ls) ++ [l]) as [|k1 [|k2 ks]]; [simpl in Hlen; lia..|].
  cbv [from_option id]. by rewrite Htake.
Qed.

Lemma AddLog_steps s l : sdb_inv s → steps (AddLog l) s.
Proof.
  intros Hs. eexists _, tt. split; [reflexivity|].
  pose proof Hs as [J1 J2 JP J3 J4 J5 J6 J7 J8 J9].
  apply (step_entry (addLogChange (thash s))); [|done..|].
  { split; try done; simpl; [|apply u64_range]. intros h [[_ E]|[_ E]]%lookup_insert_Some.
    - by destruct (default [] (logs s !! thash s)).
    - by destruct (J7 h). }
  intros t Ht. pose proof (sm_logs _ _ Ht) as El. pose proof (sm_logSize _ _ Ht) as En. simpl in El, En.
  eexists. split; [eapply revert_log; rewrite <- El; apply lookup_insert_eq|]. split; [|done].
  assert (match default [] (logs s !! thash s) with
          | [] => base.delete (thash s)
          | _ => <[thash s := default [] (logs s !! thash s)]>
          end (logs t) = logs s) as Elogs.
  { rewrite <- El. destruct (logs s !! thash s) as [[|l1 ls]|] eqn:Els; simpl.
    - by destruct (J7 (thash s)).
    - by rewrite insert_insert_eq, insert_id.
    - by rewrite delete_insert_id. }
  destruct Ht as [_ [] ]. simpl in *. split; try done; simpl.
  - split; try done; simpl; [|apply u64_range]. by rewrite Elogs.
  - by rewrite <- En, u64_succ_pred.
Qed.

Lemma AddPreimage_steps s h b : sdb_inv s → steps (AddPreimage h b) s.
Proof.
  intros Hs. unfold steps, AddPreimage, gets, append. mred.
  destruct (preimages s !! h) as [p|] eqn:Hp; [exists s, tt; split; [done|by apply step_refl]|].
  eexists _, tt. split; [reflexivity|].
  apply (step_entry (addPreimageChange h)); [by destruct Hs|done..|].
  intros t Ht. eexists. split; [reflexivity|]. split; [|done].
  pose proof (sm_preimages _ _ Ht) as Ep. simpl in Ep. destruct Ht as [_ [] ]. simpl in *.
  split; try done. simpl. by rewrite <- Ep, delete_insert_id.
Qed.

Lemma SetTransientState_steps s a k v : sdb_inv s → steps (SetTransientState a k v) s.
Proof.
  intros Hs. unfold steps, SetTransientState, GetTransientState, gets, append. mred.
  case_bool_decide as Hv; [exists s, tt; split; [done|by apply step_refl]|].
  eexists _, tt. split; [reflexivity|].
  apply (step_entry (transientStorageChange a k (ts_Get a k (transient s)))); [by destruct Hs|done..|].
  intros t Ht. eexists. split; [reflexivity|]. split; [|done].
  pose proof (sm_transient _ _ Ht) as Et. simpl in Et. destruct Ht as [_ [] ]. simpl in *.
  split; try done. simpl. intros b l. rewrite ts_Get_Set, <- Et, ts_Get_Set.
  case_decide as E; [by destruct E as [<- <-]|done].
Qed.

(** Undoing a change of the access list. *)
Lemma undo_access s al f t :
  sdb_inv s → same (upd_journal f (upd_access (λ _, al) s)) t →
  same s (upd_access (λ _, access s) t).
Proof.
  intros Hs Ht. destruct Ht as [_ [] ]. simpl in *. split; try done.
  split; try done. apply Hs.
Qed.

Lemma upd_access_id s : upd_access (λ _, access s) s = s.
Proof. by destruct s. Qed.

Lemma sdb_inv_access s al : sdb_inv s → AccessList.wf al → sdb_inv (upd_access (λ _, al) s).
Proof. by intros []. Qed.

Lemma AddAddressToAccessList_steps s a : sdb_inv s → steps (AddAddressToAccessList a) s.
Proof.
  intros Hs. pose proof (AccessList.AddAddress_wf a _ (si_access _ Hs)) as Hwf.
  unfold steps, AddAddressToAccessList, gets, append. mred.
  destruct (AccessList.AddAddress a (access s)) as [al added] eqn:E.
  pose proof (sdb_inv_access s al Hs Hwf) as Hs'.
  destruct added; eexists _, tt; (split; [reflexivity|]).
  - apply (step_entry (accessListAddAccountChange a)); [by apply sdb_inv_journal|done..|].
    intros t Ht. exists (upd_access (λ _, access s) t).
    pose proof (sm_access _ _ Ht) as Ea. simpl in Ea. split_and!; [|by apply (undo_access s al _ t Hs Ht)|done].
    simpl. unfold modify, upd_access. rewrite <- Ea. by rewrite (AccessList.AddAddress_undo _ _ _ E).
  - unfold AccessList.AddAddress in E. destruct (AccessList.addresses (access s) !! a); [|done].
    injection E as <-. rewrite upd_access_id. by apply step_refl.
Qed.

Lemma AddSlotToAccessList_steps s a x : sdb_inv s → steps (AddSlotToAccessList a x) s.
Proof.
  intros Hs. pose proof (si_access _ Hs) as Hwf. unfold steps, AddSlotToAccessList, gets, append. mred.
  destruct (AccessList.AddSlot_cases a x _ Hwf) as [[-> _]|(al & ac & -> & Hadd)]; mred.
  { exists s, tt. unfold modify. rewrite upd_access_id. split; [done|by apply step_refl]. }
  pose proof (sdb_inv_access s al Hs (AccessList.added_wf _ _ _ _ _ Hwf Hadd)) as Hs'.
  destruct (AccessList.added_undo _ _ _ _ _ Hwf Hadd) as (al2 & E1 & E2).
  destruct ac; eexists _, tt; (split; [reflexivity|]).
  - split; [by do 2 apply sdb_inv_journal| |done].
    exists [accessListAddAccountChange a; accessListAddSlotChange a x]. split.
    { simpl. by rewrite <- app_assoc. }
    intros t Ht. pose proof (sm_access _ _ Ht) as Ea. simpl in Ea.
    exists (upd_journal (untrack (accessListAddAccountChange a) ∘ untrack (accessListAddSlotChange a x))
              (upd_access (λ _, access s) t)).
    split; [|split; [|done]].
    + unfold undo. simpl. unfold gets. mred. rewrite <- Ea, E1. mred.
      unfold upd_journal, upd_access. simpl. by rewrite E2.
    + apply same_journal_r.
      apply (undo_access s al (λ j, journal_append (accessListAddSlotChange a x)
               (journal_append (accessListAddAccountChange a) j)) t Hs Ht).
  - apply (step_entry (accessListAddSlotChange a x)); [by apply sdb_inv_journal|done..|].
    intros t Ht. pose proof (sm_access _ _ Ht) as Ea. simpl in Ea.
    exists (upd_access (λ _, access s) t). split_and!; [|by apply (undo_access s al _ t Hs Ht)|done].
    simpl. unfold gets. mred. rewrite <- Ea, E1. mred. by rewrite E2.
Qed.
End undo.
