(* ===== verification/Snapshot.v ===== *)
(** * Snapshots and reverting to them

    The operations the EVM performs on a StateDB between two [Finalise] calls,
    the questions it can ask, and the contract of [Snapshot] and
    [RevertToSnapshot] over every sequence of them. *)
From S2P Require Import Prelude Errors Geth AccessList StateData StateObject StateDB StateView.
From S2P Require Import StateReads Revert Undo.
Import TransientStorage(ts_Get).
Local Open Scope Z_scope.

Section snapshot.
Context `{RlpOps, CryptoOps, CommonOps, TrieOps, !DatabaseOps, SnapOps, RangeOps, SchedOps}.
Context `{!CryptoLaws, !TrieLaws, !DatabaseLaws, !SnapLaws}.

Abbreviation S_ := (stateM StateDB error).
Abbreviation O_ := (stateM (StateDB * stateObject) error).

(** ** Questions and operations *)

Inductive query :=
| QExist (a : bytes) | QEmpty (a : bytes) | QBalance (a : bytes) | QNonce (a : bytes)
| QCode (a : bytes) | QCodeSize (a : bytes) | QCodeHash (a : bytes)
| QState (a k : bytes) | QCommittedState (a k : bytes) | QSuicided (a : bytes)
| QRefund | QTransient (a k : bytes) | QAddress (a : bytes) | QSlot (a k : bytes)
| QLogs | QPreimages | QTxIndex.

Definition answer (q : query) : Type :=
  match q with
  | QExist _ | QEmpty _ | QSuicided _ | QAddress _ => bool
  | QBalance _ | QNonce _ | QCodeSize _ | QRefund | QTxIndex => Z
  | QCode _ => option bytes
  | QCodeHash _ | QState _ _ | QCommittedState _ _ | QTransient _ _ => bytes
  | QSlot _ _ => bool * bool
  | QLogs => gmap bytes (list Log)
  | QPreimages => gmap bytes bytes
  end.

Definition ask (q : query) : S_ (answer q) :=
  match q with
  | QExist a => Exist a
  | QEmpty a => Empty a
  | QBalance a => GetBalance a
  | QNonce a => GetNonce a
  | QCode a => GetCode a
  | QCodeSize a => GetCodeSize a
  | QCodeHash a => GetCodeHash a
  | QState a k => GetState a k
  | QCommittedState a k => GetCommittedState a k
  | QSuicided a => HasSuicided a
  | QRefund => GetRefund
  | QTransient a k => GetTransientState a k
  | QAddress a => AddressInAccessList a
  | QSlot a k => SlotInAccessList a k
  | QLogs => gets logs
  | QPreimages => gets preimages
  | QTxIndex => TxIndex
  end.

Inductive evm_op :=
| OpAsk (q : query)
| OpCreateAccount (a : bytes)
| OpAddBalance (a : bytes) (n : Z) | OpSubBalance (a : bytes) (n : Z) | OpSetBalance (a : bytes) (n : Z)
| OpSetNonce (a : bytes) (n : Z)
| OpSetCode (a : bytes) (c : option bytes)
| OpSetState (a k v : bytes)
| OpSuicide (a : bytes)
| OpSetTransientState (a k v : bytes)
| OpAddRefund (n : Z) | OpSubRefund (n : Z)
| OpAddLog (l : Log)
| OpAddPreimage (h b : bytes)
| OpAddAddress (a : bytes) | OpAddSlot (a k : bytes)
| OpSnapshot
| OpRevert (id : Z).

Definition discard {A} (m : S_ A) : S_ unit := _ ← m; mret tt.

Definition run_op (o : evm_op) : S_ unit :=
  match o with
  | OpAsk q => discard (ask q)
  | OpCreateAccount a => CreateAccount a
  | OpAddBalance a n => AddBalance a n
  | OpSubBalance a n => SubBalance a n
  | OpSetBalance a n => SetBalance a n
  | OpSetNonce a n => SetNonce a n
  | OpSetCode a c => SetCode a c
  | OpSetState a k v => SetState a k v
  | OpSuicide a => discard (Suicide a)
  | OpSetTransientState a k v => SetTransientState a k v
  | OpAddRefund n => AddRefund n
  | OpSubRefund n => SubRefund n
  | OpAddLog l => AddLog l
  | OpAddPreimage h b => AddPreimage h b
  | OpAddAddress a => AddAddressToAccessList a
  | OpAddSlot a k => AddSlotToAccessList a k
  | OpSnapshot => discard Snapshot
  | OpRevert id => RevertToSnapshot id
  end.

Definition run_ops (os : list evm_op) : S_ unit := iterM run_op os.

(** ** Answers depend on the view only, and asking changes nothing *)

Lemma ask_object {A} s t a (m : O_ A) none (f : env → stateObject → A) :
  (∀ s o, p_ok (s, o) → oyields m (s, o) (f (env_of s) o)) →
  (∀ E F o p, obj_same E F o p → f E o = f F p) →
  same s t →
  (∃ s' v, with_object a m none s = (s', Ok v) ∧ reads_to s s')
  ∧ (with_object a m none s).2 = (with_object a m none t).2.
Proof.
  intros Hm Hf Hst.
  destruct (with_object_reads s a m none f Hm Hf (sm_inv _ _ Hst)) as (s' & Es & Hr).
  destruct (with_object_reads t a m none f Hm Hf (sm_inv' _ _ Hst)) as (t' & Et & _).
  rewrite Es, Et. split; [by eexists _, _|]. simpl.
  destruct (live_same s t a Hst) as [o p Hop|]; [|done]. f_equal. by apply Hf.
Qed.

Lemma oyields_pure {A} (g : stateObject → A) s o : p_ok (s, o) → oyields (self g) (s, o) (g o).
Proof. intros Hok. exists (s, o). split; [done|by apply oreads_refl]. Qed.

Lemma ask_self {A} s t a (g : stateObject → A) none :
  (∀ E F o p, obj_same E F o p → g o = g p) → same s t →
  (∃ s' v, with_object a (self g) none s = (s', Ok v) ∧ reads_to s s')
  ∧ (with_object a (self g) none s).2 = (with_object a (self g) none t).2.
Proof. intros Hg. apply (ask_object s t a _ _ (λ _ o, g o)); [|done]. intros. by apply oyields_pure. Qed.

Lemma ask_pure {A} (g : StateDB → A) s t :
  same s t → g s = g t →
  (∃ s' v, (gets g : S_ A) s = (s', Ok v) ∧ reads_to s s') ∧ ((gets g : S_ A) s).2 = ((gets g : S_ A) t).2.
Proof.
  intros Hst Hg. split.
  - eexists s, _. split; [done|]. apply reads_to_refl, Hst.
  - unfold gets. simpl. by rewrite Hg.
Qed.

Lemma ask_spec q s t :
  same s t → (∃ s' v, ask q s = (s', Ok v) ∧ reads_to s s') ∧ (ask q s).2 = (ask q t).2.
Proof.
  intros Hst. destruct q; simpl.
  - apply (ask_object s t a _ _ (λ _ _, true)); [|done|done].
    intros s0 o Hok. exists (s0, o). split; [done|by apply oreads_refl].
  - apply ask_self; [|done]. intros E F o p Hop. unfold empty. by rewrite (os_data _ _ _ _ Hop).
  - apply ask_self; [|done]. intros E F o p Hop. by rewrite (os_data _ _ _ _ Hop).
  - apply ask_self; [|done]. intros E F o p Hop. by rewrite (os_data _ _ _ _ Hop).
  - apply (ask_object s t a _ _ code_of); [by intros; apply Code_spec| |done].
    intros E F o p Hop. apply Hop.
  - apply (ask_object s t a _ _ (λ E o, match code_of E o with Some c => Z.of_nat (length c) | None => 0 end));
      [by intros; apply CodeSize_spec| |done].
    intros E F o p Hop. by rewrite (os_code _ _ _ _ Hop).
  - apply ask_self; [|done]. intros E F o p Hop. by rewrite (os_data _ _ _ _ Hop).
  - apply (ask_object s t a _ _ (λ E o, current E o k)); [by intros; apply so_GetState_spec| |done].
    intros E F o p Hop. apply Hop.
  - apply (ask_object s t a _ _ (λ E o, committed E o k)); [by intros; apply so_GetCommittedState_spec| |done].
    intros E F o p Hop. apply Hop.
  - apply ask_self; [|done]. intros E F o p Hop. apply Hop.
  - apply ask_pure; [done|]. apply Hst.
  - apply (ask_pure (λ s, ts_Get a k (transient s)) s t Hst), (sm_transient _ _ Hst).
  - apply (ask_pure (λ s, AccessList.ContainsAddress a (access s)) s t Hst).
    by rewrite (sm_access _ _ Hst).
  - unfold SlotInAccessList, gets. mred. rewrite <- (sm_access _ _ Hst).
    rewrite (AccessList.Contains_spec a k) by apply Hst.
    split; [|done]. eexists s, _. split; [done|]. apply reads_to_refl, Hst.
  - apply ask_pure; [done|]. apply Hst.
  - apply ask_pure; [done|]. apply Hst.
  - apply ask_pure; [done|]. apply Hst.
Qed.

#[export] Instance ask_proper q : Proper (same ==> eq) (λ s, (ask q s).2).
Proof. intros s t Hst. by apply ask_spec. Qed.

(** ** Every operation but the two on snapshots can be undone *)

Definition op_ok (o : evm_op) (s : StateDB) : Prop :=
  match o with
  | OpSubRefund n => n ≤ refund s
  | OpRevert id => id ∈ rev_id <$> validRevisions s
  | _ => True
  end.

#[export] Instance op_ok_dec o s : Decision (op_ok o s).
Proof. destruct o; simpl; apply _. Defined.

Definition on_snapshots (o : evm_op) : bool :=
  match o with OpSnapshot | OpRevert _ => true | _ => false end.

Lemma steps_unit (m : S_ unit) s : steps m s → ∃ s', m s = (s', Ok tt) ∧ step s s'.
Proof. intros (s' & [] & E & Hst). by exists s'. Qed.

Lemma steps_discard {A} (m : S_ A) s : steps m s → steps (discard m) s.
Proof.
  intros (s' & v & E & Hst). exists s', tt. unfold discard.
  by rewrite (bind_step _ _ _ _ _ E).
Qed.

Lemma run_op_steps o s :
  sdb_inv s → op_ok o s → on_snapshots o = false → steps (run_op o) s.
Proof.
  intros Hs Hok Hn. destruct o; try done; simpl in *.
  - apply steps_discard. destruct (ask_spec q s s (same_refl _ Hs)) as [(s' & v & E & Hr) _].
    exists s', v. split; [done|by apply step_reads].
  - by apply CreateAccount_steps.
  - apply with_new_object_steps; [done|apply so_AddBalance_steps].
  - apply with_new_object_steps; [done|apply so_SubBalance_steps].
  - apply with_new_object_steps; [done|apply so_SetBalance_steps].
  - apply with_new_object_steps; [done|apply so_SetNonce_steps].
  - apply with_new_object_steps; [done|]. apply so_SetCode_steps, keccak256_length.
  - apply with_new_object_steps; [done|apply so_SetState_steps].
  - by apply steps_discard, Suicide_steps.
  - by apply SetTransientState_steps.
  - by apply AddRefund_steps.
  - by apply SubRefund_steps.
  - by apply AddLog_steps.
  - by apply AddPreimage_steps.
  - by apply AddAddressToAccessList_steps.
  - by apply AddSlotToAccessList_steps.
Qed.

(** ** The stack of snapshots *)

(** The revisions, each with the state it was taken in: undoing the entries
    since a revision leads back to that state. *)
Inductive chain : list (revision * StateDB) → list journalEntry → StateDB → Prop :=
| chain_nil es s : chain [] es s
| chain_snoc ps r g es new s :
    journalIndex r = length es → entries (jrnl g) = es → validRevisions g = ps.*1 →
    undoes (rev new) s g → chain ps es g → chain (ps ++ [(r, g)]) (es ++ new) s.

Lemma chain_same ps es s t : chain ps es s → same s t → chain ps es t.
Proof.
  intros [|ps' r g es' new s0 Hi He Hr Hu Hc] Hst; constructor; try done.
  intros u Ht. apply Hu. by eapply same_trans.
Qed.

Lemma chain_step ps es new s s' :
  chain ps es s → undoes (rev new) s' s → chain ps (es ++ new) s'.
Proof.
  intros [|ps' r g es' new' s0 Hi He Hr Hu Hc] Hun; [constructor|]. rewrite <- app_assoc.
  constructor; try done. rewrite rev_app_distr. by eapply undoes_app.
Qed.

Lemma chain_revert ps es s :
  chain ps es s → ∀ before r g after, ps = before ++ (r, g) :: after →
  (journalIndex r ≤ length es)%nat ∧ undoes (rev (drop (journalIndex r) es)) s g
  ∧ take (journalIndex r) es = entries (jrnl g) ∧ validRevisions g = before.*1
  ∧ chain before (entries (jrnl g)) g.
Proof.
  induction 1 as [|ps r' g' es new s Hi He Hr Hu Hc IH]; intros before r g after E.
  { by destruct before. }
  destruct (decide (after = [])) as [->|Hne].
  - apply app_inj_tail in E as [<- [= <- <-]]. rewrite length_app, Hi.
    rewrite drop_app_length, take_app_length, He. split; [lia|done].
  - destruct (exists_last Hne) as (after' & p & ->).
    rewrite app_comm_cons, app_assoc in E. apply app_inj_tail in E as [-> <-].
    destruct (IH before r g after' eq_refl) as (Hle & Hun & Hch). rewrite length_app. split; [lia|].
    rewrite drop_app_le, take_app_le by lia. split; [|done].
    rewrite rev_app_distr. by eapply undoes_app.
Qed.

(** A StateDB as the operations leave it: consistent, with revisions in order
    and an undoable journal. *)
Record hist (s : StateDB) (ps : list (revision * StateDB)) : Prop := {
  h_inv : sdb_inv s;
  h_revs : validRevisions s = ps.*1;
  h_chain : chain ps (entries (jrnl s)) s;
  h_sorted i j p q : (i < j)%nat → ps !! i = Some p → ps !! j = Some q → rev_id p.1 < rev_id q.1;
  h_next p : p ∈ ps → rev_id p.1 < nextRevisionId s
}.
Definition well_formed (s : StateDB) : Prop := ∃ ps, hist s ps.

(** States without snapshots are well formed whatever their journal holds. *)
Lemma well_formed_fresh s : sdb_inv s → validRevisions s = [] → well_formed s.
Proof.
  intros Hs Hr. exists []. split; [done|done|constructor|done|]. by intros p ?%not_elem_of_nil.
Qed.

(** A new StateDB is well formed. *)
Lemma New_well_formed root d trees t :
  OpenTrie root d = Ok t → trie_inv t → db_inv d →
  (∀ a acc, (trie_TryGetAccount a t).2 = Ok (Some acc) → length (acc_CodeHash acc) = hashLen) →
  ∃ s, New root d trees = Ok s ∧ well_formed s.
Proof.
  intros Ho Ht Hd Hacc. unfold New. rewrite Ho. simpl. eexists. split; [reflexivity|].
  apply well_formed_fresh; [|done]. by split.
Qed.

Lemma sort_Search_spec fuel i j k f :
  (i ≤ k ≤ j)%nat → (j - i ≤ fuel)%nat →
  (∀ n, (n < k)%nat → f n = false) → (∀ n, (k ≤ n < j)%nat → f n = true) →
  sort_Search fuel i j f = k.
Proof.
  revert i j. induction fuel as [|fuel IH]; intros i j Hk Hf Hlo Hhi; simpl; [lia|].
  case_bool_decide as Hij; [|lia].
  assert (i ≤ (i + j) / 2 < j)%nat as [Hh1 Hh2].
  { split; [apply Nat.div_le_lower_bound; lia|apply Nat.Div0.div_lt_upper_bound; lia]. }
  destruct (f ((i + j) / 2)%nat) eqn:Eh.
  - assert (k ≤ (i + j) / 2)%nat.
    { destruct (decide (k ≤ (i + j) / 2)%nat) as [|Hn]; [done|]. by rewrite Hlo in Eh by lia. }
    apply IH; try lia; [done|]. intros n Hn. apply Hhi. lia.
  - assert ((i + j) / 2 < k)%nat.
    { destruct (decide ((i + j) / 2 < k)%nat) as [|Hn]; [done|]. by rewrite Hhi in Eh by lia. }
    apply IH; try lia; done.
Qed.

(** Where [RevertToSnapshot] finds a valid revision. *)
Lemma find_revision s before r g after :
  hist s (before ++ (r, g) :: after) →
  sort_Search (length (validRevisions s)) 0 (length (validRevisions s))
    (λ i, match validRevisions s !! i with Some q => bool_decide (rev_id r ≤ rev_id q) | None => true end)
  = length before.
Proof.
  intros Hh. pose proof (h_sorted _ _ Hh) as Hsort. rewrite (h_revs _ _ Hh), length_fmap, length_app. simpl.
  assert ((before ++ (r, g) :: after) !! length before = Some (r, g)) as Hat.
  { by rewrite lookup_app_r, Nat.sub_diag. }
  apply sort_Search_spec; [lia|lia| |].
  - intros n Hn. rewrite list_lookup_fmap.
    destruct (lookup_lt_is_Some_2 (before ++ (r, g) :: after) n) as [p Hp]; [rewrite length_app; simpl; lia|].
    rewrite Hp. simpl. apply bool_decide_false. specialize (Hsort n _ p _ Hn Hp Hat). simpl in Hsort. lia.
  - intros n Hn. rewrite list_lookup_fmap.
    destruct ((before ++ (r, g) :: after) !! n) as [p|] eqn:Hp; [|done]. simpl. apply bool_decide_true.
    destruct (decide (n = length before)) as [->|Hne].
    + rewrite Hat in Hp. by injection Hp as <-.
    + assert (length before < n)%nat as Hlt by lia.
      specialize (Hsort _ n _ p Hlt Hat Hp). simpl in Hsort. lia.
Qed.

Lemma journal_revert_spec s n g :
  (n ≤ length (entries (jrnl s)))%nat → sdb_inv s →
  undoes (rev (drop n (entries (jrnl s)))) s g →
  ∃ s', journal_revert n s = (s', Ok tt) ∧ same g s' ∧ same_revisions s s'
    ∧ entries (jrnl s') = take n (entries (jrnl s)).
Proof.
  intros Hn Hs Hu. destruct (Hu s (same_refl _ Hs)) as (t & E & Hg & Hr).
  unfold journal_revert. rewrite (bind_step (gets _) _ s s (entries (jrnl s)) eq_refl).
  rewrite bool_decide_false by lia. unfold undo in E. rewrite (bind_step _ _ _ _ _ E). eexists. split; [reflexivity|].
  split_and!; [by apply same_journal_r|by destruct Hr|done].
Qed.

Lemma RevertToSnapshot_spec s before r g after :
  hist s (before ++ (r, g) :: after) →
  ∃ s', RevertToSnapshot (rev_id r) s = (s', Ok tt) ∧ same g s'
    ∧ entries (jrnl s') = entries (jrnl g) ∧ validRevisions s' = validRevisions g
    ∧ nextRevisionId s' = nextRevisionId s ∧ hist s' before.
Proof.
  intros Hh.
  destruct (chain_revert _ _ _ (h_chain _ _ Hh) before r g after eq_refl) as (Hle & Hun & Hes' & Hrg & Hch).
  destruct (journal_revert_spec s _ g Hle (h_inv _ _ Hh) Hun) as (t & E & Hg & [Hr1 Hr2] & Hes).
  unfold RevertToSnapshot, gets. mred. rewrite (find_revision s before r g after Hh).
  rewrite (h_revs _ _ Hh), fmap_app, lookup_app_r, length_fmap, Nat.sub_diag by (by rewrite length_fmap).
  simpl. rewrite bool_decide_true by done. rewrite E.
  assert (take (length before) (validRevisions t) = before.*1) as Hrevs.
  { rewrite Hr1, (h_revs _ _ Hh), fmap_app. rewrite <- (length_fmap fst before). apply take_app_length. }
  eexists. split; [reflexivity|]. 
  assert (same g (upd_revisions (take (length before)) t)) as Hg' by (destruct Hg as [? [] ]; by split).
  rewrite Hes' in Hes. split_and!; [done|done|by rewrite Hrg|done|]. split; simpl; [apply Hg'|done| | |].
  - rewrite Hes. by eapply chain_same.
  - intros i j p q Hij Hp Hq. by eapply (h_sorted _ _ Hh i j); try done; apply lookup_app_l_Some.
  - intros p Hp. rewrite Hr2. apply (h_next _ _ Hh). set_solver.
Qed.

(** ** One operation *)

(** Revisions are only ever dropped, or added with a new number. *)
Definition revisions_grow (s : StateDB) (ps ps' : list (revision * StateDB)) : Prop :=
  ∀ p, p ∈ ps' → p ∈ ps ∨ rev_id p.1 = nextRevisionId s.

Lemma hist_step s s' ps : hist s ps → step s s' → hist s' ps.
Proof.
  intros [] [Hi (new & He & Hu) [Hr Hn]]. split; [done| | |done|].
  - by rewrite Hr.
  - rewrite He. by eapply chain_step.
  - by rewrite Hn.
Qed.

Lemma Snapshot_spec s ps :
  hist s ps →
  ∃ s' r, Snapshot s = (s', Ok (nextRevisionId s)) ∧ hist s' (ps ++ [(r, s)])
    ∧ rev_id r = nextRevisionId s ∧ nextRevisionId s' = 1 + nextRevisionId s.
Proof.
  intros [Hi Hr Hc Hsort Hnext]. eexists _, (MkRevision (nextRevisionId s) (length (entries (jrnl s)))).
  split; [reflexivity|]. split; [|done].
  assert (∀ f g, same s (upd_revisions f (upd_nextRevisionId g s))) as Hsame.
  { intros f g. destruct (same_refl _ Hi) as [? [] ]. by split. }
  split; simpl.
  - by destruct Hi.
  - by rewrite Hr, fmap_app.
  - eapply (chain_snoc ps _ s _ []) in Hc; [rewrite app_nil_r in Hc; exact Hc|done..|].
    apply undoes_nil, Hsame.
  - intros i j p q Hij [Hp|[Hlp Hp]]%lookup_app_Some [Hq|[Hlq Hq]]%lookup_app_Some.
    + by eapply Hsort.
    + apply list_lookup_singleton_Some in Hq as [_ <-]. simpl. apply Hnext. by eapply list_elem_of_lookup_2.
    + apply lookup_lt_Some in Hq. lia.
    + apply list_lookup_singleton_Some in Hp as [? _], Hq as [? _]. lia.
  - intros p [Hp%Hnext| ->%list_elem_of_singleton]%elem_of_app; simpl; lia.
Qed.

Lemma run_op_hist o s ps :
  hist s ps → op_ok o s →
  ∃ s' ps', run_op o s = (s', Ok tt) ∧ hist s' ps' ∧ revisions_grow s ps ps'
    ∧ nextRevisionId s ≤ nextRevisionId s'.
Proof.
  intros Hh Hok. destruct (on_snapshots o) eqn:Ho.
  2: { destruct (steps_unit _ _ (run_op_steps o s (h_inv _ _ Hh) Hok Ho)) as (s' & E & Hst).
       exists s', ps. split_and!; [done|by eapply hist_step|by left|].
       by rewrite (sr_nextId _ _ (st_revisions _ _ Hst)). }
  destruct o; try done; simpl.
  - destruct (Snapshot_spec s ps Hh) as (s' & r & E & Hh' & Hid & Hn).
    exists s', (ps ++ [(r, s)]). unfold discard. rewrite (bind_step _ _ _ _ _ E).
    split_and!; [done|done| |lia]. intros p [Hp| ->%list_elem_of_singleton]%elem_of_app; [by left|by right].
  - simpl in Hok. rewrite (h_revs _ _ Hh), <- list_fmap_compose in Hok.
    apply list_elem_of_fmap in Hok as ([r' g] & -> & (before & after & ->)%list_elem_of_split).
    destruct (RevertToSnapshot_spec s before r' g after Hh) as (s' & E & _ & _ & _ & Hn & Hh').
    exists s', before. split_and!; [done|done| |lia]. intros p Hp. left. set_solver.
Qed.

(** An operation that is not [op_ok] panics. *)
Lemma run_op_fails o s : ¬ op_ok o s → ∃ s' w, run_op o s = (s', Panic w).
Proof.
  intros Hn. destruct o; try by destruct Hn.
  - simpl in *. unfold SubRefund, gets, append. mred. rewrite bool_decide_true by lia. by eexists _, _.
  - simpl in *. unfold RevertToSnapshot, gets. mred.
    destruct (validRevisions s !! _) as [r|] eqn:Er; [|by eexists _, _].
    case_bool_decide as Hid; [|by eexists _, _]. destruct Hn. apply list_elem_of_fmap.
    exists r. split; [done|]. by eapply list_elem_of_lookup_2.
Qed.

Lemma run_ops_hist os s ps s' :
  hist s ps → run_ops os s = (s', Ok tt) →
  ∃ ps', hist s' ps' ∧ nextRevisionId s ≤ nextRevisionId s'
    ∧ ∀ p, p ∈ ps' → p ∈ ps ∨ nextRevisionId s ≤ rev_id p.1.
Proof.
  revert s ps. induction os as [|o os IH]; intros s ps Hh E.
  { injection E as <-. exists ps. split_and!; [done|lia|by left]. }
  unfold run_ops in E. simpl in E. destruct (decide (op_ok o s)) as [Hok|Hok].
  2: { destruct (run_op_fails o s Hok) as (s1 & w & E1).
       unfold mbind, stateM_bind in E. by rewrite E1 in E. }
  destruct (run_op_hist o s ps Hh Hok) as (s1 & ps1 & E1 & Hh1 & Hg & Hn).
  rewrite (bind_step _ _ _ _ _ E1) in E. destruct (IH s1 ps1 Hh1 E) as (ps2 & Hh2 & Hn2 & Hg2).
  exists ps2. split_and!; [done|lia|]. intros p [Hp|Hp]%Hg2; [|right; lia].
  destruct (Hg p Hp) as [?| ->]; [by left|right; lia].
Qed.

(** Reverting after any operations to a snapshot that is still valid. *)
Lemma revert_after s os s1 id s2 :
  well_formed s → Snapshot s = (s1, Ok id) → run_ops os s1 = (s2, Ok tt) →
  id ∈ rev_id <$> validRevisions s2 →
  ∃ s3, RevertToSnapshot id s2 = (s3, Ok tt) ∧ same s s3
    ∧ entries (jrnl s3) = entries (jrnl s) ∧ validRevisions s3 = validRevisions s ∧ well_formed s3.
Proof.
  intros [ps Hh] Es Hrun Hin. destruct (Snapshot_spec s ps Hh) as (s1' & r & E & Hh1 & Hid & Hn).
  rewrite E in Es. injection Es as <- <-.
  destruct (run_ops_hist os s1' _ s2 Hh1 Hrun) as (ps2 & Hh2 & _ & Hg).
  rewrite (h_revs _ _ Hh2), <- list_fmap_compose in Hin.
  apply list_elem_of_fmap in Hin as ([r' g] & Hr' & Hp). simpl in Hr'.
  assert (g = s) as ->.
  { destruct (Hg _ Hp) as [[Hold|Hnew%list_elem_of_singleton]%elem_of_app|Hnew]; [|by simplify_eq|simpl in *; lia].
    pose proof (h_next _ _ Hh _ Hold). simpl in *. lia. }
  apply list_elem_of_split in Hp as (before & after & ->).
  destruct (RevertToSnapshot_spec s2 before r' s after Hh2) as (s3 & E3 & Hs & He & Hv & _ & Hh3).
  exists s3. rewrite Hr'. split_and!; [done..|by exists before].
Qed.

(** ** Properties *)

(** C2: whatever the EVM did since a snapshot (creating, overwriting and
    destroying accounts, changing balances, nonces, code and storage, logs,
    refunds, access lists, transient storage, taking and reverting inner
    snapshots), reverting to it while it is valid succeeds and gives back a
    state that answers every question as the state of the snapshot did, with
    its journal and its outer snapshots. *)
Theorem RevertToSnapshot_correct s os s1 id s2 :
  well_formed s → Snapshot s = (s1, Ok id) → run_ops os s1 = (s2, Ok tt) →
  id ∈ rev_id <$> validRevisions s2 →
  ∃ s3, RevertToSnapshot id s2 = (s3, Ok tt)
    ∧ (∀ q, (ask q s3).2 = (ask q s).2)
    ∧ stateObjectsDestruct s3 = stateObjectsDestruct s
    ∧ entries (jrnl s3) = entries (jrnl s) ∧ validRevisions s3 = validRevisions s
    ∧ well_formed s3.
Proof.
  intros Hw Es Hrun Hin. destruct (revert_after s os s1 id s2 Hw Es Hrun Hin) as (s3 & E & Hs & He & Hv & Hw3).
  exists s3. split_and!; [done| | |done..].
  - intros q. symmetry. by apply ask_spec.
  - symmetry. apply Hs.
Qed.

(** C15: no sequence of operations makes a well-formed StateDB fail, except
    subtracting more than the refund counter holds and reverting to a revision
    that is not valid; every other run ends, well formed.  In particular no
    undo ever meets a missing object. *)
Theorem run_ops_safe s os :
  well_formed s →
  (∃ s', run_ops os s = (s', Ok tt) ∧ well_formed s')
  ∨ (∃ before o after s1, os = before ++ o :: after ∧ run_ops before s = (s1, Ok tt)
     ∧ well_formed s1 ∧ match o with
       | OpSubRefund n => refund s1 < n
       | OpRevert id => id ∉ rev_id <$> validRevisions s1
       | _ => False
       end).
Proof.
  intros [ps Hh]. revert s ps Hh. induction os as [|o os IH]; intros s ps Hh.
  { left. exists s. split; [done|by exists ps]. }
  destruct (decide (op_ok o s)) as [Hok|Hok].
  - destruct (run_op_hist o s ps Hh Hok) as (s1 & ps1 & E1 & Hh1 & _). unfold run_ops. simpl.
    rewrite (bind_step _ _ _ _ _ E1).
    destruct (IH s1 ps1 Hh1) as [Hrun|(b & o' & a & s2 & -> & E2 & Hw & Hbad)]; [by left|right].
    exists (o :: b), o', a, s2. split_and!; [done| |done|done]. simpl. by rewrite (bind_step _ _ _ _ _ E1).
  - right. exists [], o, os, s. split_and!; [done|done|by exists ps|].
    destruct o; simpl in *; try (by apply Hok); lia || done.
Qed.
End snapshot.
