(* ===== verification/Frame.v ===== *)
(** * What the operations of a StateDB leave alone

    The set of destructed addresses changes only where an object replaces
    another one, and the journal entry made there tells how to undo it.  Both
    facts hold of every run, whatever the tries and the database do, and are
    proved along the structure of the code: [framed] has one rule per
    construct. *)
From S2P Require Import Prelude Errors Geth AccessList StateOps Prefetcher.
From S2P Require Import StateData StateObject StateDB StateView StateReads Revert Undo Snapshot.
Local Open Scope Z_scope.

Section frame.
Context `{RlpOps, CryptoOps, CommonOps, TrieOps, !DatabaseOps, SnapOps, RangeOps, SchedOps}.

Abbreviation S_ := (stateM StateDB error).
Abbreviation O_ := (stateM (StateDB * stateObject) error).

Definition plain (e : journalEntry) : Prop :=
  match e with resetObjectChange _ _ => False | _ => True end.

#[export] Instance plain_dec e : Decision (plain e).
Proof. destruct e; simpl; apply _. Defined.

(** How many entries dirty an address, and how often the journal counts it. *)
Definition dirtying (a : bytes) (es : list journalEntry) : nat :=
  length (filter (λ e, dirtied e = Some a) es).
Definition dirty_count (a : bytes) (j : journal) : Z := default 0 (dirties j !! a).

Lemma dirtying_app a es es' : dirtying a (es ++ es') = (dirtying a es + dirtying a es')%nat.
Proof. unfold dirtying. by rewrite filter_app, length_app. Qed.

Lemma dirtying_cons a e es :
  dirtying a (e :: es) = ((if decide (dirtied e = Some a) then 1 else 0) + dirtying a es)%nat.
Proof. unfold dirtying. rewrite filter_cons. by case_decide. Qed.

Lemma dirty_count_bump a b m : default 0 (bump b m !! a) = default 0 (m !! a) + if decide (a = b) then 1 else 0.
Proof.
  unfold bump. case_decide as E; [subst b; by rewrite lookup_insert_eq|].
  rewrite lookup_insert_ne by done. lia.
Qed.

(** Nothing is destructed, and only plain entries are added, which are counted. *)
Record frame (t t' : StateDB) : Prop := {
  fr_destruct : stateObjectsDestruct t' = stateObjectsDestruct t;
  fr_entries : ∃ new, entries (jrnl t') = entries (jrnl t) ++ new ∧ Forall plain new
    ∧ ∀ a, dirty_count a (jrnl t) + Z.of_nat (dirtying a new) ≤ dirty_count a (jrnl t')
}.

#[export] Instance frame_preorder : PreOrder frame.
Proof.
  split.
  - intros t. split; [done|]. exists []. rewrite app_nil_r. split_and!; [done|done|]. intros a. change (dirtying a []) with 0%nat. lia.
  - intros t1 t2 t3 [D1 (n1 & E1 & P1 & C1)] [D2 (n2 & E2 & P2 & C2)]. split; [congruence|].
    exists (n1 ++ n2). rewrite E2, E1, app_assoc. split_and!; [done|by apply Forall_app|].
    intros a. specialize (C1 a). specialize (C2 a). rewrite dirtying_app. lia.
Qed.

(** A computation that keeps a relation between its states; of an object method,
    between the StateDBs. *)
Definition keeps {A} (R : StateDB → StateDB → Prop) (m : S_ A) : Prop := ∀ t, R t (m t).1.
Definition okeeps {A} (R : StateDB → StateDB → Prop) (m : O_ A) : Prop := ∀ p, R p.1 (m p).1.1.

Section rules.
Context (R : StateDB → StateDB → Prop) `{!PreOrder R}.

Lemma keeps_sdb_ret {A} (a : A) : keeps R (mret a).
Proof. by intros t. Qed.
Lemma keeps_gets {A} (f : StateDB → A) : keeps R (gets f).
Proof. by intros t. Qed.
Lemma keeps_sdb_lift {A} (o : result A) : keeps R (lift o).
Proof. by intros t. Qed.
Lemma keeps_sdb_bind {A C} (m : S_ A) (f : A → S_ C) : keeps R m → (∀ a, keeps R (f a)) → keeps R (m ≫= f).
Proof.
  intros Hm Hf t. unfold mbind, stateM_bind. specialize (Hm t).
  destruct (m t) as [t' [a|e|w|]]; simpl in *; [|done..]. etrans; [exact Hm|apply Hf].
Qed.
Lemma okeeps_ret {A} (a : A) : okeeps R (mret a).
Proof. by intros p. Qed.
Lemma okeeps_gets {A} (f : StateDB * stateObject → A) : okeeps R (gets f).
Proof. by intros p. Qed.
Lemma okeeps_self f : okeeps R (on_self f).
Proof. by intros p. Qed.
Lemma okeeps_bind {A C} (m : O_ A) (f : A → O_ C) : okeeps R m → (∀ a, okeeps R (f a)) → okeeps R (m ≫= f).
Proof.
  intros Hm Hf p. unfold mbind, stateM_bind. specialize (Hm p).
  destruct (m p) as [p' [a|e|w|]]; simpl in *; [|done..]. etrans; [exact Hm|apply Hf].
Qed.
End rules.

(** ** Frames of the methods of an object *)

Lemma frame_same t t' :
  stateObjectsDestruct t' = stateObjectsDestruct t → jrnl t' = jrnl t → frame t t'.
Proof.
  intros Hd He. split; [done|]. exists []. rewrite He, app_nil_r. split_and!; [done|done|]. intros a. change (dirtying a []) with 0%nat. lia.
Qed.

Lemma dirty_count_append a e j :
  dirty_count a (journal_append e j) = dirty_count a j + Z.of_nat (dirtying a [e]).
Proof.
  rewrite dirtying_cons. change (dirtying a []) with 0%nat. unfold dirty_count. simpl.
  destruct (dirtied e) as [b|]; [|rewrite decide_False by done; lia].
  rewrite dirty_count_bump. destruct (decide (a = b)) as [->|Hn].
  - by rewrite decide_True.
  - rewrite decide_False by congruence. lia.
Qed.

Lemma frame_append e t : plain e → frame t (upd_journal (journal_append e) t).
Proof.
  intros He. split; [done|]. exists [e]. split_and!; [done|by constructor|]. intros a.
  change (jrnl (upd_journal _ t)) with (journal_append e (jrnl t)). rewrite dirty_count_append. lia.
Qed.

Lemma frame_dirty a t : frame t (upd_journal (journal_dirty a) t).
Proof.
  split; [done|]. exists []. rewrite app_nil_r. split_and!; [done|done|]. intros b. change (dirtying b []) with 0%nat. unfold dirty_count. simpl.
  rewrite dirty_count_bump. case_decide; lia.
Qed.

Lemma okeeps_on_sdb f : (∀ t, frame t (f t)) → okeeps frame (on_sdb f).
Proof. intros Hf p. apply Hf. Qed.

Lemma okeeps_append e : plain e → okeeps frame (so_append e).
Proof. intros He p. by apply frame_append. Qed.

Lemma okeeps_same {A} (m : O_ A) :
  (∀ p, stateObjectsDestruct (m p).1.1 = stateObjectsDestruct p.1
        ∧ jrnl (m p).1.1 = jrnl p.1) → okeeps frame m.
Proof. intros Hm p. destruct (Hm p). by apply frame_same. Qed.

Lemma okeeps_prefetched owner root : okeeps frame (prefetched owner root).
Proof.
  apply okeeps_same. intros [t o]. unfold prefetched. simpl. destruct (prefetcher t); [|done].
  by destruct (pf_trie _ _ _ _).
Qed.

Lemma okeeps_open_storage : okeeps frame open_storage.
Proof. apply okeeps_same. intros [t o]. unfold open_storage. by destruct (OpenStorageTrie _ _ _ _). Qed.

Lemma okeeps_on_trie {A} t (m : stateM trie error A) : okeeps frame (on_trie t m).
Proof. apply okeeps_same. intros p. unfold on_trie, try_on. by destruct (m t) as [t' []]. Qed.

Lemma okeeps_on_db {A} (m : stateM database error A) : okeeps frame (on_db m).
Proof. apply okeeps_same. intros p. unfold on_db, try_on. by destruct (m _) as [d []]. Qed.

Lemma okeeps_setError err : okeeps frame (on_sdb (setError err)).
Proof. apply okeeps_on_sdb. intros t. by apply frame_same. Qed.

Create HintDb frames.
#[local] Hint Resolve okeeps_prefetched okeeps_open_storage okeeps_on_trie okeeps_on_db okeeps_setError : frames.
#[local] Hint Resolve okeeps_ret okeeps_gets okeeps_self frame_preorder I : frames.
#[local] Hint Extern 1 (okeeps _ (so_append _)) => (apply okeeps_append; exact I) : frames.

(** Follow the structure of a method. *)
Ltac oframes :=
  unfold self, sdb_gets; cbv beta zeta;
  repeat first
    [ solve [eauto with frames]
    | eapply okeeps_bind; [apply frame_preorder| |intros ?]
    | case_match
    | eapply okeeps_gets; apply frame_preorder
    | eapply okeeps_ret; apply frame_preorder
    | eapply okeeps_self; apply frame_preorder ].

Lemma okeeps_getTrie : okeeps frame getTrie.
Proof. unfold getTrie. oframes. Qed.
#[local] Hint Resolve okeeps_getTrie : frames.

Lemma okeeps_read_trie k : okeeps frame (read_trie k).
Proof. unfold read_trie. oframes. Qed.
Lemma okeeps_cache_slot k enc : okeeps frame (cache_slot k enc).
Proof. unfold cache_slot. oframes. Qed.
#[local] Hint Resolve okeeps_read_trie okeeps_cache_slot : frames.

Lemma okeeps_so_GetCommittedState k : okeeps frame (so_GetCommittedState k).
Proof. unfold so_GetCommittedState. oframes. Qed.
#[local] Hint Resolve okeeps_so_GetCommittedState : frames.
Lemma okeeps_so_GetState k : okeeps frame (so_GetState k).
Proof. unfold so_GetState. oframes. Qed.
#[local] Hint Resolve okeeps_so_GetState : frames.
Lemma okeeps_so_SetState k v : okeeps frame (so_SetState k v).
Proof. unfold so_SetState, so_setState. oframes. Qed.
Lemma okeeps_Code : okeeps frame Code.
Proof. unfold Code. oframes. Qed.
Lemma okeeps_CodeSize : okeeps frame CodeSize.
Proof. unfold CodeSize. oframes. Qed.
#[local] Hint Resolve okeeps_Code : frames.
Lemma okeeps_so_SetCode h c : okeeps frame (so_SetCode h c).
Proof. unfold so_SetCode, so_setCode. oframes. Qed.
Lemma okeeps_so_SetNonce n : okeeps frame (so_SetNonce n).
Proof. unfold so_SetNonce, so_setNonce. oframes. Qed.
Lemma okeeps_so_SetBalance n : okeeps frame (so_SetBalance n).
Proof. unfold so_SetBalance, so_setBalance. oframes. Qed.
#[local] Hint Resolve okeeps_so_SetBalance : frames.
Lemma okeeps_touch : okeeps frame touch.
Proof.
  unfold touch. oframes. apply okeeps_on_sdb. intros t. apply frame_dirty.
Qed.
#[local] Hint Resolve okeeps_touch : frames.
Lemma okeeps_so_AddBalance n : okeeps frame (so_AddBalance n).
Proof. unfold so_AddBalance. oframes. Qed.
Lemma okeeps_so_SubBalance n : okeeps frame (so_SubBalance n).
Proof. unfold so_SubBalance. oframes. Qed.

(** ** Frames of the methods of a StateDB *)

Lemma keeps_same {A} (m : S_ A) :
  (∀ t, stateObjectsDestruct (m t).1 = stateObjectsDestruct t
        ∧ jrnl (m t).1 = jrnl t) → keeps frame m.
Proof. intros Hm t. destruct (Hm t). by apply frame_same. Qed.

Lemma keeps_on_obj {A} o (m : O_ A) : okeeps frame m → keeps frame (on_obj o m).
Proof.
  intros Hm t. specialize (Hm (t, o)). unfold on_obj. destruct (m (t, o)) as [[t' o'] r]. simpl in *.
  etrans; [exact Hm|]. by apply frame_same.
Qed.

Lemma keeps_append e : plain e → keeps frame (append e).
Proof. intros He t. by apply frame_append. Qed.

Lemma keeps_sdb_modify f : (∀ t, frame t (f t)) → keeps frame (modify f).
Proof. intros Hf t. apply Hf. Qed.

Lemma keeps_load_account a : keeps frame (load_account a).
Proof.
  apply keeps_same. intros t. unfold load_account, on_account_trie, try_on, gets. mred.
  destruct (option_bind _ _ _ (snap t)) as [[]|]; [done..|]. cbn.
  by destruct (trie_TryGetAccount a (sdb_trie t)) as [t' [[]| | |]].
Qed.

#[local] Hint Resolve keeps_on_obj keeps_load_account keeps_sdb_ret keeps_gets keeps_sdb_lift : frames.
#[local] Hint Extern 1 (keeps _ (append _)) => (apply keeps_append; exact I) : frames.
#[local] Hint Extern 1 (keeps _ (modify _)) => (apply keeps_sdb_modify; intros ?; by apply frame_same) : frames.

Ltac frames :=
  cbv beta zeta;
  repeat first
    [ solve [eauto with frames]
    | eapply keeps_sdb_bind; [apply frame_preorder| |intros ?]
    | case_match
    | eapply keeps_gets; apply frame_preorder
    | eapply keeps_sdb_lift; apply frame_preorder
    | eapply keeps_sdb_ret; apply frame_preorder ].

Lemma keeps_getDeletedStateObject a : keeps frame (getDeletedStateObject a).
Proof. unfold getDeletedStateObject. frames. Qed.
#[local] Hint Resolve keeps_getDeletedStateObject : frames.
Lemma keeps_getStateObject a : keeps frame (getStateObject a).
Proof. unfold getStateObject. frames. Qed.
#[local] Hint Resolve keeps_getStateObject : frames.
Lemma keeps_with_object {A} a (m : O_ A) none : okeeps frame m → keeps frame (with_object a m none).
Proof. intros Hm. unfold with_object. frames. Qed.
#[local] Hint Resolve okeeps_CodeSize okeeps_so_SetState okeeps_so_SetCode okeeps_so_SetNonce
  okeeps_so_AddBalance okeeps_so_SubBalance keeps_with_object : frames.

Lemma okeeps_pure {A} (f : stateObject → A) : okeeps frame (self f).
Proof. by intros p. Qed.
#[local] Hint Resolve okeeps_pure : frames.

Lemma keeps_ask q : keeps frame (ask q).
Proof.
  destruct q; simpl; try (apply keeps_with_object; oframes); unfold GetRefund, GetTransientState,
    AddressInAccessList, SlotInAccessList, TxIndex; frames.
Qed.

(** ** The operations *)

(** Every operation but [RevertToSnapshot] keeps what frames and the creation of
    an object keep. *)
Section ops.
Context (R : StateDB → StateDB → Prop) `{!PreOrder R}.
Context (HR : ∀ t t', frame t t' → R t t') (Hnew : ∀ t a prev n, R t (created t a prev n)).

Lemma keeps_frame {A} (m : S_ A) : keeps frame m → keeps R m.
Proof. intros Hm t. apply HR, Hm. Qed.

Lemma keeps_createObject a : keeps R (createObject a).
Proof.
  intros t. pose proof (HR _ _ (keeps_getDeletedStateObject a t)) as Hf.
  destruct (getDeletedStateObject a t) as [t1 r] eqn:E. simpl in Hf.
  destruct r as [prev|e|w|]; [|by unfold createObject, mbind, stateM_bind; rewrite E..].
  rewrite (createObject_run _ _ _ _ E). simpl. etrans; [exact Hf|apply Hnew].
Qed.

Lemma keeps_with_new_object {A} a (m : O_ A) : okeeps frame m → keeps R (with_new_object a m).
Proof.
  intros Hm. unfold with_new_object, GetOrNewStateObject.
  eapply keeps_sdb_bind; [done| |intros o; by apply keeps_frame, keeps_on_obj].
  eapply keeps_sdb_bind; [done|apply keeps_frame, keeps_getStateObject|intros [o|]].
  - by apply keeps_sdb_ret.
  - eapply keeps_sdb_bind; [done|apply keeps_createObject|intros r]. by apply keeps_sdb_ret.
Qed.

Lemma keeps_CreateAccount a : keeps R (CreateAccount a).
Proof.
  unfold CreateAccount. eapply keeps_sdb_bind; [done|apply keeps_createObject|intros [n [p|]]].
  - apply keeps_frame, keeps_on_obj, okeeps_self, frame_preorder.
  - by apply keeps_sdb_ret.
Qed.

Lemma keeps_run_op o : (∀ id, o ≠ OpRevert id) → keeps R (run_op o).
Proof.
  intros Hn. destruct o; simpl; try (by destruct (Hn id));
    try (apply keeps_with_new_object; eauto with frames); try apply keeps_CreateAccount;
    apply keeps_frame; unfold discard, AddRefund, SubRefund, AddLog, AddPreimage, SetTransientState,
      GetTransientState, setTransientState, AddAddressToAccessList, AddSlotToAccessList, StateDB.Snapshot, Suicide,
      markSuicided, so_setBalance.
  - frames. apply keeps_ask.
  - frames. apply keeps_on_obj. oframes.
  - frames.
  - frames.
  - frames.
  - frames.
  - frames.
  - frames.
  - frames.
  - frames.
Qed.
End ops.

(** ** Undoing restores the set of destructed addresses *)

(** Entries, latest first, and the set they are undone from: every address whose
    object was replaced is in the set at the time that is undone. *)
Fixpoint destructs_ok (es : list journalEntry) (X : gset bytes) : Prop :=
  match es with
  | [] => True
  | resetObjectChange p d :: es =>
      address p ∈ X ∧ destructs_ok es (if d then X else X ∖ {[address p]})
  | _ :: es => destructs_ok es X
  end.
Definition undoable (t : StateDB) : Prop := destructs_ok (rev (entries (jrnl t))) (stateObjectsDestruct t).

Definition still (t t' : StateDB) : Prop := undoable t → undoable t'.
#[export] Instance still_preorder : PreOrder still.
Proof. split; [by intros t Ht|]. intros t1 t2 t3. unfold still. auto. Qed.

Lemma destructs_ok_plain es new X : Forall plain new → destructs_ok (rev new ++ es) X ↔ destructs_ok es X.
Proof.
  induction new as [|e new IH] using rev_ind; [done|]. rewrite Forall_app, Forall_singleton.
  intros [Hn He]. rewrite rev_app_distr. simpl. rewrite <- (IH Hn). by destruct e.
Qed.

Lemma frame_still t t' : frame t t' → still t t'.
Proof.
  intros [Hd (new & He & Hn & _)] Hu. unfold undoable. rewrite Hd, He, rev_app_distr. by apply destructs_ok_plain.
Qed.

Lemma still_created t a prev n : still t (created t a prev n).
Proof.
  unfold still, undoable, created. intros Hu. destruct prev as [p|]; simpl; rewrite rev_app_distr; [|done].
  simpl. case_bool_decide as Hp; simpl; [done|]. split; [set_solver|].
  by replace (({[address p]} ∪ stateObjectsDestruct t) ∖ {[address p]}) with (stateObjectsDestruct t) by set_solver.
Qed.

(** Every operation but reverting keeps the journal undoable. *)
Lemma run_op_still o : (∀ id, o ≠ OpRevert id) → keeps still (run_op o).
Proof. apply keeps_run_op; [apply still_preorder|apply frame_still|apply still_created]. Qed.

(** ** The journal counts what it dirties *)

Definition counted (j : journal) : Prop := ∀ a, Z.of_nat (dirtying a (entries j)) ≤ dirty_count a j.
Definition counting (t t' : StateDB) : Prop := counted (jrnl t) → counted (jrnl t').
#[export] Instance counting_preorder : PreOrder counting.
Proof. split; [by intros t Ht|]. intros t1 t2 t3. unfold counting. auto. Qed.

Lemma frame_counting t t' : frame t t' → counting t t'.
Proof.
  intros [_ (new & He & _ & Hc)] Ht a. specialize (Ht a). specialize (Hc a). rewrite He, dirtying_app. lia.
Qed.

Lemma counting_created t a prev n : counting t (created t a prev n).
Proof.
  unfold counting, created. intros Ht b. specialize (Ht b). simpl. rewrite dirty_count_append, dirtying_app.
  destruct prev; [case_bool_decide|]; simpl; lia.
Qed.

Lemma run_op_counting o : (∀ id, o ≠ OpRevert id) → keeps counting (run_op o).
Proof. apply keeps_run_op; [apply counting_preorder|apply frame_counting|apply counting_created]. Qed.

Lemma keeps_must_object {A} a (m : O_ A) : okeeps frame m → keeps frame (must_object a m).
Proof. intros Hm. unfold must_object. frames. Qed.

Lemma keeps_revert_entry e : plain e → keeps frame (revert_entry e).
Proof.
  intros He. destruct e; try done; simpl; unfold so_setBalance, so_setNonce, so_setState, so_setCode, setTransientState;
    try (apply keeps_must_object, okeeps_self, frame_preorder); frames.
  apply keeps_on_obj. oframes.
Qed.
End frame.
