(* ===== verification/Iterator.v ===== *)
(** * Iterators: trie_by_cid/trie/iterator.go

    The pre-order [nodeIterator] with its explicit stack, the key-value
    [Iterator], and the difference and union iterators.  The Go interface
    [NodeIterator] is the class [IterOps].

    The stack is a list with the current node first.  The nodes an iterator
    loads are not linked into its trie; the trie itself is only used by [Hash],
    for its root when the iteration starts, and for its reader. *)
From S2P Require Import Prelude Errors Geth Encoding Node Tracer Reader Trie Hasher.
Local Open Scope nat_scope.

(** ** The interface *)

(** A resolver is asked for an owner, a path and a hash, and may answer the
    empty blob. *)
Abbreviation NodeResolver := (bytes → bytes → bytes → bytes).

Class IterOps (I : Type) := {
  ni_Next : bool → I → I * result bool;
  ni_Error : I → option error;
  ni_Hash : I → bytes;
  ni_Parent : I → bytes;
  ni_Path : I → bytes;
  ni_NodeBlob : I → I * result (option bytes);
  ni_Leaf : I → bool;
  ni_LeafKey : I → result bytes;
  ni_LeafBlob : I → result bytes;
  ni_LeafProof : I → result (list bytes);
  ni_AddResolver : NodeResolver → I → result I
}.

(** ** The key-value iterator *)

Section kv.
Context {I : Type} `{!IterOps I}.

Record Iterator := MkIterator {
  nodeIt : I;
  Key : option bytes;
  Value : option bytes;
  Err_ : option error
}.

Definition NewIterator (it : I) : Iterator := MkIterator it None None None.

(** [Next]: nodes are skipped until a leaf. *)
Fixpoint Iterator_Next (fuel : nat) (it : Iterator) : Iterator * result bool :=
  match fuel with
  | O => (it, OutOfFuel)
  | S fuel =>
      match ni_Next true (nodeIt it) with
      | (n, Ok true) =>
          if ni_Leaf n then
            match ni_LeafKey n, ni_LeafBlob n with
            | Ok k, Ok v => (MkIterator n (Some k) (Some v) (Err_ it), Ok true)
            | Panic w, _ | _, Panic w => (MkIterator n (Key it) (Value it) (Err_ it), Panic w)
            | Err e, _ | _, Err e => (MkIterator n (Key it) (Value it) (Err_ it), Err e)
            | _, _ => (MkIterator n (Key it) (Value it) (Err_ it), OutOfFuel)
            end
          else Iterator_Next fuel (MkIterator n (Key it) (Value it) (Err_ it))
      | (n, Ok false) => (MkIterator n None None (ni_Error n), Ok false)
      | (n, Err e) => (MkIterator n (Key it) (Value it) (Err_ it), Err e)
      | (n, Panic w) => (MkIterator n (Key it) (Value it) (Err_ it), Panic w)
      | (n, OutOfFuel) => (MkIterator n (Key it) (Value it) (Err_ it), OutOfFuel)
      end
  end.

Definition Iterator_Prove (it : Iterator) : result (list bytes) := ni_LeafProof (nodeIt it).
End kv.
Arguments Iterator : clear implicits.

(** ** The node iterator *)

Record nodeIteratorState := MkState {
  is_hash : bytes;
  is_node : node;
  is_parent : bytes;
  is_index : Z;
  is_pathlen : nat
}.
Definition set_index (i : Z) (s : nodeIteratorState) : nodeIteratorState :=
  MkState (is_hash s) (is_node s) (is_parent s) i (is_pathlen s).

(** What is stored in [nodeIterator.err]. *)
Inductive iterError :=
| errIteratorEnd
| seekError (key : bytes) (err : error)
| nodeError (err : error).

Record nodeIterator := MkNodeIterator {
  it_trie : Trie;
  it_stack : list nodeIteratorState;
  it_path : bytes;
  it_err : option iterError;
  it_resolver : option NodeResolver
}.
Definition set_trie (t : Trie) (it : nodeIterator) : nodeIterator :=
  MkNodeIterator t (it_stack it) (it_path it) (it_err it) (it_resolver it).
Definition set_pos (stack : list nodeIteratorState) (path : bytes) (it : nodeIterator) : nodeIterator :=
  MkNodeIterator (it_trie it) stack path (it_err it) (it_resolver it).
Definition set_err (e : option iterError) (it : nodeIterator) : nodeIterator :=
  MkNodeIterator (it_trie it) (it_stack it) (it_path it) e (it_resolver it).

(** The parent with its index moved on, the state and the path of the child;
    nothing when there are no more children. *)
Abbreviation next_child := (option (nodeIteratorState * nodeIteratorState * bytes)).

(** What [peek] returns: the next state, whether it has a parent, and its path. *)
Abbreviation peeked := ((nodeIteratorState * bool * bytes) + iterError)%type.

Section iterator.
Context `{RlpOps, CryptoOps}.
(** The schedule of a parallel [Trie.Hash]. *)
Context (schedule : list nat).

Abbreviation I_ := (stateM nodeIterator error).

Definition it_Hash (it : nodeIterator) : bytes :=
  match it_stack it with [] => zeroHash | s :: _ => is_hash s end.
Definition it_Parent (it : nodeIterator) : bytes :=
  match it_stack it with [] => zeroHash | s :: _ => is_parent s end.
Definition it_ParentPath (it : nodeIterator) : bytes :=
  match it_stack it with [] => [] | s :: _ => take (is_pathlen s) (it_path it) end.
Definition it_Path (it : nodeIterator) : bytes := it_path it.
Definition it_Leaf (it : nodeIterator) : bool := hasTerm (it_path it).

Definition it_LeafKey (it : nodeIterator) : result bytes :=
  match is_node <$> head (it_stack it) with
  | Some (valueNode _) => hexToKeyBytes (it_path it)
  | _ => Panic "not at leaf"
  end.
Definition it_LeafBlob (it : nodeIterator) : result bytes :=
  match is_node <$> head (it_stack it) with
  | Some (valueNode v) => Ok v
  | _ => Panic "not at leaf"
  end.

(** The loop of [LeafProof]; the [i]-th node from the root. *)
Fixpoint leafProofs (i : nat) (nodes : list node) : result (list bytes) :=
  match nodes with
  | [] => Ok []
  | n :: nodes =>
      '(n, hashed) ← proofHash (newHasher false []) n;
      here ← match hashed with
             | hashNode _ => enc ← nodeToBytes n; Ok [enc]
             | _ => if bool_decide (i = 0) then enc ← nodeToBytes n; Ok [enc] else Ok []
             end;
      rest ← leafProofs (S i) nodes;
      Ok (here ++ rest)
  end.
Definition it_LeafProof (it : nodeIterator) : result (list bytes) :=
  match is_node <$> head (it_stack it) with
  | Some (valueNode _) => leafProofs 0 (rev (is_node <$> tail (it_stack it)))
  | _ => Panic "not at leaf"
  end.

Definition it_Error (it : nodeIterator) : option error :=
  match it_err it with
  | None | Some errIteratorEnd => None
  | Some (seekError _ e) | Some (nodeError e) => Some e
  end.

Definition it_AddResolver (resolver : NodeResolver) (it : nodeIterator) : nodeIterator :=
  MkNodeIterator (it_trie it) (it_stack it) (it_path it) (it_err it) (Some resolver).

(** *** Loading nodes *)

(** What the resolver has, nothing when there is none. *)
Definition resolver_blob (it : nodeIterator) (hash path : bytes) : bytes :=
  match it_resolver it with
  | Some resolver => resolver (t_owner (it_trie it)) path (BytesToHash hash)
  | None => []
  end.

Definition resolveHash (it : nodeIterator) (hash path : bytes) : result node :=
  let stored := reader_node (t_reader (it_trie it)) path (BytesToHash hash) in
  match resolver_blob it hash path with
  | [] => stored
  | blob => match decodeNode (Some hash) blob with
            | Err _ => stored
            | r => r
            end
  end.

Definition resolveBlob (it : nodeIterator) (hash path : bytes) : result bytes :=
  match resolver_blob it hash path with
  | [] => nodeBlob (t_reader (it_trie it)) path (BytesToHash hash)
  | blob => Ok blob
  end.

(** [nodeIteratorState.resolve]. *)
Definition state_resolve (it : nodeIterator) (path : bytes) (st : nodeIteratorState)
    : result nodeIteratorState :=
  match is_node st with
  | hashNode h =>
      resolved ← resolveHash it h path;
      Ok (MkState (BytesToHash h) resolved (is_parent st) (is_index st) (is_pathlen st))
  | _ => Ok st
  end.

Definition it_NodeBlob : I_ (option bytes) := λ it,
  if bool_decide (it_Hash it = zeroHash) then (it, Ok None)
  else
    match resolveBlob it (it_Hash it) (it_path it) with
    | Ok blob => (it, Ok (Some blob))
    | Err e => (set_err (Some (nodeError e)) it, Ok None)
    | Panic w => (it, Panic w)
    | OutOfFuel => (it, OutOfFuel)
    end.

(** *** Children *)

(** The state of a child, not resolved yet. *)
Definition child_state (child : node) (ancestor path : bytes) : result nodeIteratorState :=
  '(hash, _) ← cache child;
  Ok (MkState (BytesToHash (default [] hash)) child ancestor (-1) (length path)).

(** The first child at [index] or after it: its state, its path, its index. *)
Fixpoint findChildIn (cs : list node) (index : Z) (path ancestor : bytes)
    : result (option (nodeIteratorState * bytes * Z)) :=
  match cs with
  | [] => Ok None
  | nilNode :: cs => findChildIn cs (index + 1) path ancestor
  | child :: _ =>
      st ← child_state child ancestor path;
      Ok (Some (st, path ++ [index], index))
  end.
Definition findChild (cs : list node) (index : Z) (path ancestor : bytes)
    : result (option (nodeIteratorState * bytes * Z)) :=
  findChildIn (drop (Z.to_nat index) cs) index path ancestor.

Definition short_child (parent : nodeIteratorState) (key : bytes) (child : node) (path ancestor : bytes)
    : result next_child :=
  if bool_decide (is_index parent < 0)%Z then
    st ← child_state child ancestor path;
    Ok (Some (parent, st, path ++ key))
  else Ok None.

Definition nextChild (path : bytes) (parent : nodeIteratorState) (ancestor : bytes)
    : result next_child :=
  match is_node parent with
  | fullNode cs _ =>
      r ← findChild cs (is_index parent + 1) path ancestor;
      Ok ('(st, p, index) ← r; Some (set_index (index - 1) parent, st, p))
  | shortNode key v _ => short_child parent key v path ancestor
  | _ => Ok None
  end.

(** The loop of [nextChildAt]: the last child before the seek position.  The
    index grows, so a branch has room for as many turns as it has children. *)
Fixpoint closerChild (fuel : nat) (cs : list node) (path ancestor key : bytes)
    (best : nodeIteratorState * bytes * Z) : result (nodeIteratorState * bytes * Z) :=
  match fuel with
  | O => OutOfFuel
  | S fuel =>
      r ← findChild cs (best.2 + 1) path ancestor;
      match r with
      | None => Ok best
      | Some next =>
          if bytes_le key next.1.2 then Ok best else closerChild fuel cs path ancestor key next
      end
  end.

Definition nextChildAt (key path : bytes) (parent : nodeIteratorState) (ancestor : bytes)
    : result next_child :=
  match is_node parent with
  | fullNode cs _ =>
      r ← findChild cs (is_index parent + 1) path ancestor;
      match r with
      | None => Ok None
      | Some first =>
          '(st, p, index) ← (if bytes_le key first.1.2 then Ok first
                             else closerChild (S (length cs)) cs path ancestor key first);
          Ok (Some (set_index (index - 1) parent, st, p))
      end
  | shortNode k v _ => short_child parent k v path ancestor
  | _ => Ok None
  end.

(** *** Moving *)

Definition init : I_ peeked := λ it,
  match Trie_Hash schedule (it_trie it) with
  | (t, Ok root) =>
      let it := set_trie t it in
      let hash := if bool_decide (root ≠ EmptyRootHash) then root else zeroHash in
      (it, match state_resolve it [] (MkState hash (t_root t) zeroHash (-1) 0) with
           | Ok st => Ok (inl (st, false, []))
           | Err e => Ok (inr (nodeError e))
           | Panic w => Panic w
           | OutOfFuel => OutOfFuel
           end)
  | (t, Err e) => (set_trie t it, Err e)
  | (t, Panic w) => (set_trie t it, Panic w)
  | (t, OutOfFuel) => (set_trie t it, OutOfFuel)
  end.

(** Climb from the current node until one has a next child, and resolve it. *)
Fixpoint climb (find : bytes → nodeIteratorState → bytes → result next_child) (it : nodeIterator)
    (stack : list nodeIteratorState) (path : bytes) : nodeIterator * result peeked :=
  match stack with
  | [] => (set_pos [] path it, Ok (inr errIteratorEnd))
  | parent :: rest =>
      let ancestor := if bool_decide (is_hash parent = zeroHash) then is_parent parent
                      else is_hash parent in
      match find path parent ancestor with
      | Ok (Some (parent, st, path')) =>
          (set_pos (parent :: rest) path it,
           match state_resolve it path' st with
           | Ok st => Ok (inl (st, true, path'))
           | Err e => Ok (inr (nodeError e))
           | Panic w => Panic w
           | OutOfFuel => OutOfFuel
           end)
      | Ok None => climb find it rest (take (is_pathlen parent) path)
      | Err e => (set_pos stack path it, Err e)
      | Panic w => (set_pos stack path it, Panic w)
      | OutOfFuel => (set_pos stack path it, OutOfFuel)
      end
  end.

(** [pop]; the stack is not empty where it is called. *)
Definition pop (it : nodeIterator) : nodeIterator :=
  match it_stack it with
  | [] => it
  | last :: stack => set_pos stack (take (is_pathlen last) (it_path it)) it
  end.

Definition peek_with (find : bytes → nodeIteratorState → bytes → result next_child) (stay : bool)
    : I_ peeked := λ it,
  match it_stack it with
  | [] => init it
  | _ :: _ =>
      let it := if stay then it else pop it in
      climb find it (it_stack it) (it_path it)
  end.

Definition peek (descend : bool) : I_ peeked := peek_with nextChild descend.
Definition peekSeek (seekKey : bytes) : I_ peeked := λ it,
  peek_with (nextChildAt seekKey) (bool_decide (it_path it `prefix_of` seekKey)) it.

(** [push]: the parent, if any, is the top of the stack. *)
Definition push (st : nodeIteratorState) (has_parent : bool) (path : bytes) (it : nodeIterator)
    : nodeIterator :=
  let stack := match it_stack it with
               | parent :: rest =>
                   if has_parent then set_index (is_index parent + 1) parent :: rest else it_stack it
               | [] => []
               end in
  set_pos (st :: stack) path it.

(** The loop of [seek].  Every node it passes over but the last has a path that
    leads to the key. *)
Fixpoint seekLoop (fuel : nat) (prefix key : bytes) : I_ (option iterError) := λ it,
  match fuel with
  | O => (it, OutOfFuel)
  | S fuel =>
      (r ← peekSeek key;
       match r with
       | inr errIteratorEnd => mret (Some errIteratorEnd)
       | inr (seekError _ e) | inr (nodeError e) => mret (Some (seekError prefix e))
       | inl (st, has_parent, path) =>
           if bytes_le key path then mret None
           else _ ← modify (push st has_parent path); seekLoop fuel prefix key
       end) it
  end.

Definition seek (prefix : bytes) : I_ (option iterError) :=
  let key := keybytesToHex prefix in
  let key := take (length key - 1) key in
  seekLoop (length key + 3) prefix key.

(** The step at the end of [Next]. *)
Definition advance (descend : bool) : I_ bool :=
  r ← peek descend;
  match r with
  | inl (st, has_parent, path) =>
      _ ← modify (set_err None);
      _ ← modify (push st has_parent path);
      mret true
  | inr e => _ ← modify (set_err (Some e)); mret false
  end.

Definition it_Next (descend : bool) : I_ bool := λ it,
  match it_err it with
  | Some errIteratorEnd => (it, Ok false)
  | Some (seekError key _) =>
      (e ← seek key;
       _ ← modify (set_err e);
       match e with
       | Some _ => mret false
       | None => advance descend
       end) it
  | _ => advance descend it
  end.

Definition newNodeIterator (start : bytes) (t : Trie) : Trie * result nodeIterator :=
  match Trie_Hash schedule t with
  | (t, Ok root) =>
      if bool_decide (root = EmptyRootHash) then
        (t, Ok (MkNodeIterator t [] [] (Some errIteratorEnd) None))
      else
        match seek start (MkNodeIterator t [] [] None None) with
        | (it, Ok e) => (it_trie it, Ok (set_err e it))
        | (it, Err e) => (it_trie it, Err e)
        | (it, Panic w) => (it_trie it, Panic w)
        | (it, OutOfFuel) => (it_trie it, OutOfFuel)
        end
  | (t, Err e) => (t, Err e)
  | (t, Panic w) => (t, Panic w)
  | (t, OutOfFuel) => (t, OutOfFuel)
  end.

(** [Trie.NodeIterator]. *)
Definition NodeIterator (start : bytes) : Trie → Trie * result nodeIterator := newNodeIterator start.

#[export] Instance node_iter_ops : IterOps nodeIterator := {|
  ni_Next := it_Next;
  ni_Error := it_Error;
  ni_Hash := it_Hash;
  ni_Parent := it_Parent;
  ni_Path := it_Path;
  ni_NodeBlob := it_NodeBlob;
  ni_Leaf := it_Leaf;
  ni_LeafKey := it_LeafKey;
  ni_LeafBlob := it_LeafBlob;
  ni_LeafProof := it_LeafProof;
  ni_AddResolver r it := Ok (it_AddResolver r it)
|}.
End iterator.
