(* ===== verification/SetIterators.v ===== *)
(** * Difference and union of iterators: the rest of iterator.go

    Both iterators are iterators over iterators.  Their loops take fuel: how
    often they turn depends on the iterators below them.  The union keeps its
    iterators in a heap; Go's [container/heap] is written out. *)
From S2P Require Import Prelude Errors Geth Iterator.
Local Open Scope nat_scope.

(** [compareNodes]: by path, leaves first, then by hash and by value. *)
Definition compareNodes {A B} `{!IterOps A, !IterOps B} (a : A) (b : B) : result comparison :=
  match bytes_compare (ni_Path a) (ni_Path b) with
  | Eq =>
      if ni_Leaf a && negb (ni_Leaf b) then Ok Lt
      else if ni_Leaf b && negb (ni_Leaf a) then Ok Gt
      else
        match bytes_compare (ni_Hash a) (ni_Hash b) with
        | Eq =>
            if ni_Leaf a && ni_Leaf b then
              x ← ni_LeafBlob a; y ← ni_LeafBlob b; Ok (bytes_compare x y)
            else Ok Eq
        | c => Ok c
        end
  | c => Ok c
  end.

(** Run a method of a part of the state. *)
Definition on_part {S T A} (get : S → T) (put : T → S → S) (m : T → T * result A) : stateM S error A :=
  λ s, let '(t, r) := m (get s) in (put t s, r).

(** ** The difference iterator *)

Section difference.
Context {A B : Type} `{!IterOps A, !IterOps B}.
Context (fuel : nat).

Record differenceIterator := MkDifference { di_a : A; di_b : B; di_eof : bool; di_count : Z }.
Definition set_a (a : A) (it : differenceIterator) : differenceIterator :=
  MkDifference a (di_b it) (di_eof it) (di_count it).
Definition set_b (b : B) (it : differenceIterator) : differenceIterator :=
  MkDifference (di_a it) b (di_eof it) (di_count it).
Definition set_eof (it : differenceIterator) : differenceIterator :=
  MkDifference (di_a it) (di_b it) true (di_count it).
Definition incr_count (it : differenceIterator) : differenceIterator :=
  MkDifference (di_a it) (di_b it) (di_eof it) (di_count it + 1)%Z.

Abbreviation D_ := (stateM differenceIterator error).

(** The first [Next] of [a]; its answer is not looked at. *)
Definition NewDifferenceIterator (a : A) (b : B) : result differenceIterator :=
  let '(a, r) := ni_Next true a in
  _ ← r; Ok (MkDifference a b false 0).

Definition next_a (descend : bool) : D_ bool := on_part di_a set_a (ni_Next descend).
Definition next_b (descend : bool) : D_ bool := on_part di_b set_b (ni_Next descend).

(** The loop of [Next]. *)
Fixpoint differenceLoop (fuel : nat) : D_ bool := λ it,
  match fuel with
  | O => (it, OutOfFuel)
  | S fuel =>
      (c ← lift (compareNodes (di_a it) (di_b it));
       match c with
       | Lt =>
           more ← next_a true;
           if negb more then _ ← modify set_eof; mret true
           else _ ← modify incr_count; differenceLoop fuel
       | Gt => mret true
       | Eq =>
           let hasHash := bool_decide (ni_Hash (di_a it) = zeroHash) in
           more ← next_b hasHash;
           if negb more then mret false
           else
             _ ← modify incr_count;
             more ← next_a hasHash;
             if negb more then _ ← modify set_eof; mret true
             else _ ← modify incr_count; differenceLoop fuel
       end) it
  end.

Definition di_Next (_ : bool) : D_ bool :=
  more ← next_b true;
  if negb more then mret false
  else
    _ ← modify incr_count;
    eof ← gets di_eof;
    if eof : bool then mret true else differenceLoop fuel.

Definition di_Error (it : differenceIterator) : option error :=
  match ni_Error (di_a it) with Some e => Some e | None => ni_Error (di_b it) end.

#[export] Instance difference_iter_ops : IterOps differenceIterator := {|
  ni_Next := di_Next;
  ni_Error := di_Error;
  ni_Hash it := ni_Hash (di_b it);
  ni_Parent it := ni_Parent (di_b it);
  ni_Path it := ni_Path (di_b it);
  ni_NodeBlob := on_part di_b set_b ni_NodeBlob;
  ni_Leaf it := ni_Leaf (di_b it);
  ni_LeafKey it := ni_LeafKey (di_b it);
  ni_LeafBlob it := ni_LeafBlob (di_b it);
  ni_LeafProof it := ni_LeafProof (di_b it);
  ni_AddResolver _ _ := Panic "not implemented"
|}.
End difference.
Arguments differenceIterator : clear implicits.

(** ** container/heap *)

Section heap.
Context {I : Type} (Less : I → I → result bool).

Definition less_at (h : list I) (i j : nat) : result bool :=
  x ← index h i; y ← index h j; Less x y.
Definition swap (i j : nat) (h : list I) : list I :=
  match h !! i, h !! j with
  | Some x, Some y => <[j := x]> (<[i := y]> h)
  | _, _ => h
  end.

(** The position falls, or at least halves. *)
Fixpoint heap_up (fuel : nat) (j : nat) (h : list I) : result (list I) :=
  match fuel with
  | O => OutOfFuel
  | S fuel =>
      let i := (j - 1) / 2 in
      if bool_decide (i = j) then Ok h
      else l ← less_at h j i; if l : bool then heap_up fuel i (swap i j h) else Ok h
  end.

(** The position grows, and is less than [n]. *)
Fixpoint heap_down (fuel : nat) (i n : nat) (h : list I) : result (list I) :=
  match fuel with
  | O => OutOfFuel
  | S fuel =>
      let j1 := 2 * i + 1 in
      if bool_decide (n ≤ j1) then Ok h
      else
        j ← (if bool_decide (j1 + 1 < n) then
               l ← less_at h (j1 + 1) j1; Ok (if l : bool then j1 + 1 else j1)
             else Ok j1);
        l ← less_at h j i;
        if l : bool then heap_down fuel j n (swap i j h) else Ok h
  end.

(** [heap.Init]: from the last inner position down to the root. *)
Definition heap_Init (h : list I) : result (list I) :=
  let n := length h in
  foldM (λ i h, heap_down (S n) i n h) (rev (seq 0 (n / 2))) h.

Definition heap_Push (x : I) (h : list I) : result (list I) :=
  heap_up (S (length h)) (length h) (h ++ [x]).

(** [nodeIteratorHeap.Pop] takes the last element off. *)
Definition heap_Pop (h : list I) : result (I * list I) :=
  match h with
  | [] => Panic "index out of range"
  | _ =>
      let n := length h - 1 in
      h ← heap_down (S n) 0 n (swap 0 n h);
      x ← index h n;
      Ok (x, take n h)
  end.
End heap.

(** ** The union iterator *)

Section union.
Context {I : Type} `{!IterOps I}.
Context (fuel : nat).

Definition Less (a b : I) : result bool :=
  c ← compareNodes a b; Ok (match c with Lt => true | _ => false end).

Record unionIterator := MkUnion { ui_items : list I; ui_count : Z }.
Abbreviation U_ := (stateM unionIterator error).

Definition NewUnionIterator (iters : list I) : result unionIterator :=
  h ← heap_Init Less iters; Ok (MkUnion h 0).

(** [heap.Pop(it.items)], and counting an iterator that moved and pushing it. *)
Definition pop_least : U_ I := λ it,
  match heap_Pop Less (ui_items it) with
  | Ok (x, h) => (MkUnion h (ui_count it), Ok x)
  | Err e => (it, Err e)
  | Panic w => (it, Panic w)
  | OutOfFuel => (it, OutOfFuel)
  end.
Definition push_back (x : I) : U_ unit := λ it,
  match heap_Push Less x (ui_items it) with
  | Ok h => (MkUnion h (ui_count it + 1), Ok tt)
  | Err e => (it, Err e)
  | Panic w => (it, Panic w)
  | OutOfFuel => (it, OutOfFuel)
  end.
Definition move_on (x : I) (descend : bool) : U_ unit :=
  let '(x, r) := ni_Next descend x in
  more ← lift r;
  if more : bool then push_back x else mret tt.

(** Should the first of the heap be skipped, too? *)
Definition skips (descend : bool) (least top : I) : result bool :=
  if negb descend && bool_decide (ni_Path least `prefix_of` ni_Path top) then Ok true
  else c ← compareNodes least top; Ok (match c with Eq => true | _ => false end).

Fixpoint skipLoop (fuel : nat) (descend : bool) (least : I) : U_ unit := λ it,
  match fuel with
  | O => (it, OutOfFuel)
  | S fuel =>
      match ui_items it with
      | [] => (it, Ok tt)
      | top :: _ =>
          (skip ← lift (skips descend least top);
           if skip : bool then
             skipped ← pop_least;
             _ ← move_on skipped (bool_decide (ni_Hash skipped = zeroHash));
             skipLoop fuel descend least
           else mret tt) it
      end
  end.

Definition ui_Next (descend : bool) : U_ bool := λ it,
  match ui_items it with
  | [] => (it, Ok false)
  | _ =>
      (least ← pop_least;
       _ ← skipLoop fuel descend least;
       _ ← move_on least descend;
       gets (λ it, bool_decide (ui_items it ≠ []))) it
  end.

(** The methods below index the heap and panic when it is empty. *)
Definition first (it : unionIterator) : result I := index (ui_items it) 0.
Definition ui_Hash (it : unionIterator) : result bytes := x ← first it; Ok (ni_Hash x).
Definition ui_Parent (it : unionIterator) : result bytes := x ← first it; Ok (ni_Parent x).
Definition ui_Path (it : unionIterator) : result bytes := x ← first it; Ok (ni_Path x).
Definition ui_Leaf (it : unionIterator) : result bool := x ← first it; Ok (ni_Leaf x).
Definition ui_LeafKey (it : unionIterator) : result bytes := x ← first it; ni_LeafKey x.
Definition ui_LeafBlob (it : unionIterator) : result bytes := x ← first it; ni_LeafBlob x.
Definition ui_LeafProof (it : unionIterator) : result (list bytes) := x ← first it; ni_LeafProof x.
Definition ui_NodeBlob : U_ (option bytes) := λ it,
  match ui_items it with
  | [] => (it, Panic "index out of range")
  | x :: h => let '(x, r) := ni_NodeBlob x in (MkUnion (x :: h) (ui_count it), r)
  end.

Definition ui_Error (it : unionIterator) : option error :=
  head (omap ni_Error (ui_items it)).
End union.
