(* ===== verification/Walk.v ===== *)
(** * The pre-order walk of a tree

    What iterating over a trie visits: every node of its tree and every value,
    each under its path, parents before children and children in the order of
    their nibbles.  The paths are strictly increasing and the values are those
    of the map. *)
From stdpp Require Import sorting.
From S2P Require Import Prelude Geth Encoding Mpt MptFacts.
Local Open Scope nat_scope.

(** What is visited: a node, or the value a key leads to. *)
Inductive item := INode (t : tree) | IVal (v : bytes).

(** The 17 slots of a branch. *)
Definition full_items (cs : list (option tree)) (ov : option bytes) : list (option item) :=
  map (option_map INode) cs ++ [option_map IVal ov].

(** The occupied slots, the first one numbered [i]. *)
Fixpoint slots (i : Z) (l : list (option item)) : list (bytes * item) :=
  match l with
  | [] => []
  | Some x :: l => ([i], x) :: slots (i + 1) l
  | None :: l => slots (i + 1) l
  end.

Definition children (x : item) : list (bytes * item) :=
  match x with
  | INode (TLeaf k v) => [(k ++ [16%Z], IVal v)]
  | INode (TExt k c) => [(k, INode c)]
  | INode (TFull cs ov) => slots 0 (full_items cs ov)
  | IVal _ => []
  end.

Fixpoint walk (p : bytes) (t : tree) : list (bytes * item) :=
  (p, INode t) ::
  match t with
  | TLeaf k v => [(p ++ k ++ [16%Z], IVal v)]
  | TExt k c => walk (p ++ k) c
  | TFull cs ov =>
      (fix go (i : Z) (cs : list (option tree)) : list (bytes * item) :=
         match cs with
         | [] => []
         | Some c :: cs => walk (p ++ [i]) c ++ go (i + 1)%Z cs
         | None :: cs => go (i + 1)%Z cs
         end) 0%Z cs
      ++ match ov with Some v => [(p ++ [16%Z], IVal v)] | None => [] end
  end.
Definition walk_item (p : bytes) (x : item) : list (bytes * item) :=
  match x with INode t => walk p t | IVal v => [(p, IVal v)] end.
Definition walk_children (p : bytes) (l : list (bytes * item)) : list (bytes * item) :=
  l ≫= λ kx, walk_item (p ++ kx.1) kx.2.

Arguments walk_children : simpl never.

Lemma walk_children_cons p k x l : walk_children p ((k, x) :: l) = walk_item (p ++ k) x ++ walk_children p l.
Proof. done. Qed.
Lemma walk_children_app p l l' : walk_children p (l ++ l') = walk_children p l ++ walk_children p l'.
Proof. apply bind_app. Qed.

Lemma slots_app i l l' : slots i (l ++ l') = slots i l ++ slots (i + Z.of_nat (length l)) l'.
Proof.
  revert i. induction l as [|[x|] l IH]; intros i; simpl; [by rewrite Z.add_0_r| |];
    rewrite IH; by replace (i + 1 + Z.of_nat (length l))%Z with (i + Z.of_nat (S (length l)))%Z by lia.
Qed.

(** A node comes first, then what is below its children. *)
Lemma walk_item_eq p x :
  (∀ cs ov, x = INode (TFull cs ov) → length cs = 16) →
  walk_item p x = (p, x) :: walk_children p (children x).
Proof.
  intros Hlen. destruct x as [[k v|k c|cs ov]|v]; [done| | |done].
  - simpl. by rewrite walk_children_cons, app_nil_r.
  - specialize (Hlen cs ov eq_refl). cbn [walk_item walk children]. f_equal. unfold full_items.
    rewrite slots_app, walk_children_app, length_map, Hlen. f_equal.
    + clear Hlen. generalize 0%Z. induction cs as [|[c|] cs IH]; intros i; simpl; [done| |apply IH].
      by rewrite IH.
    + rewrite Z.add_0_l. destruct ov; simpl; [|done]. by rewrite walk_children_cons.
Qed.

Definition wf_item (x : item) : Prop := match x with INode t => wf t | IVal v => v ≠ [] end.

Lemma walk_item_wf p x : wf_item x → walk_item p x = (p, x) :: walk_children p (children x).
Proof. intros Hw. apply walk_item_eq. intros cs ov ->. apply Hw. Qed.

(** ** Children *)

Lemma slots_spec i l k x :
  (k, x) ∈ slots i l ↔ ∃ j, l !! j = Some (Some x) ∧ k = [(i + Z.of_nat j)%Z].
Proof.
  revert i. induction l as [|[y|] l IH]; intros i; simpl.
  - split; [by intros ?%not_elem_of_nil|by intros (j & ? & _)].
  - rewrite elem_of_cons, IH. split.
    + intros [[= -> ->]|(j & Hj & ->)]; [exists 0|exists (S j)]; split; simpl; try done; f_equal; lia.
    + intros ([|j] & Hj & ->); simpl in Hj; [left|right; exists j].
      * injection Hj as ->. do 2 f_equal. lia.
      * split; [done|]. f_equal. lia.
  - rewrite IH. split; [intros (j & Hj & ->); exists (S j)|intros ([|j] & Hj & ->); [done|exists j]];
      (split; [done|]); f_equal; lia.
Qed.

Lemma full_items_lookup cs ov j x :
  length cs = 16 → full_items cs ov !! j = Some (Some x) →
  (∃ c, cs !! j = Some (Some c) ∧ x = INode c) ∨ (j = 16 ∧ ∃ v, ov = Some v ∧ x = IVal v).
Proof.
  intros Hlen. unfold full_items. change (map (option_map INode) cs) with (option_map INode <$> cs).
  rewrite lookup_app_Some, list_lookup_fmap, length_fmap, Hlen.
  intros [Hj|[Hle Hj]].
  - left. apply fmap_Some in Hj as (oc & Hoc & E). destruct oc as [c|]; [|done].
    injection E as ->. by exists c.
  - right. destruct (j - 16) as [|n] eqn:E; [|by rewrite lookup_cons_ne_0, lookup_nil in Hj by lia].
    destruct ov as [v|]; [|done]. injection Hj as <-. split; [lia|by exists v].
Qed.

(** A path of nibbles, or a whole key with its terminator. *)
Definition step_ok (x : item) (k : bytes) : Prop :=
  k ≠ [] ∧ match x with INode _ => path_ok k | IVal _ => ∃ q, path_ok q ∧ k = q ++ [16%Z] end.

Lemma children_ok x k y : wf_item x → (k, y) ∈ children x → wf_item y ∧ step_ok y k.
Proof.
  intros Hw. destruct x as [[k' v|k' c|cs ov]|v]; simpl; try by intros ?%not_elem_of_nil.
  - intros [= -> ->]%list_elem_of_singleton. destruct Hw as [Hk Hv]. split; [done|]. split; [|by exists k'].
    by destruct k'.
  - intros [= -> ->]%list_elem_of_singleton. destruct Hw as (Hk & Hne & _ & Hc). done.
  - intros (j & Hj & ->)%slots_spec. simpl in Hw. pose proof Hw as (Hlen & _ & Hov & _).
    apply full_items_lookup in Hj as [(c & Hc & ->)|(-> & v & -> & ->)]; [| |done].
    + destruct (wf_full_child cs ov j c Hw Hc) as [Hwc Hj]. split; [done|]. split; [done|].
      apply Forall_singleton. unfold is_nibble. lia.
    + split; [simpl; congruence|]. split; [done|]. exists []. done.
Qed.

(** ** Order *)

Lemma path_lt_last q k : path_ok k → bytes_lt (q ++ k) (q ++ [16%Z]).
Proof.
  intros Hk. rewrite bytes_lt_app_l. destruct k as [|x k]; [by apply bytes_lt_nil_l|].
  apply Forall_cons in Hk as [Hx _]. unfold is_nibble in Hx. apply bytes_lt_cons. lia.
Qed.

(** Everything below an item extends its path. *)
Lemma walk_item_prefix x : wf_item x → ∀ p q y, (q, y) ∈ walk_item p x → p `prefix_of` q.
Proof.
  intros Hw p q y. destruct x as [t|v].
  2:{ simpl. by intros [= -> ->]%list_elem_of_singleton. }
  revert p q y. induction t as [k v|k c IH|cs ov IH] using tree_induction; intros p q y;
    rewrite walk_item_wf by done; intros [[= -> ->]|Hin]%elem_of_cons; try done;
    unfold walk_children in Hin; apply list_elem_of_bind in Hin as ([k' z] & Hz & Hin); simpl in Hz.
  - apply list_elem_of_singleton in Hin as [= -> ->]. apply list_elem_of_singleton in Hz as [= -> ->].
    by apply prefix_app_r.
  - apply list_elem_of_singleton in Hin as [= -> ->]. apply IH in Hz; [|by destruct Hw as (_ & _ & _ & ?)].
    by eapply prefix_app_l.
  - simpl in Hin. apply slots_spec in Hin as (j & Hj & ->).
    apply full_items_lookup in Hj as [(c & Hc & ->)|(-> & v & -> & ->)]; [| |apply Hw].
    + eapply prefix_app_l, (IH j c Hc); [by eapply wf_full_child|exact Hz].
    + apply list_elem_of_singleton in Hz as [= -> ->]. by apply prefix_app_r.
Qed.

Lemma slots_heads i l k x : (k, x) ∈ slots i l → ∃ j, k = [j] ∧ (i ≤ j)%Z.
Proof. intros (j & _ & ->)%slots_spec. eexists. split; [done|lia]. Qed.

Lemma walk_children_prefix p l q y :
  (∀ k x, (k, x) ∈ l → wf_item x) → (q, y) ∈ walk_children p l →
  ∃ k x, (k, x) ∈ l ∧ p ++ k `prefix_of` q.
Proof.
  unfold walk_children. intros Hw ([k x] & Hq & Hin)%list_elem_of_bind. simpl in Hq. exists k, x.
  split; [done|]. eapply walk_item_prefix; [by eapply Hw|done].
Qed.

(** A later child is after everything below an earlier one. *)
Lemma bytes_lt_branch p i j r r' : (i < j)%Z → bytes_lt (p ++ i :: r) (p ++ j :: r').
Proof. intros Hij. apply bytes_lt_app_l, bytes_lt_cons. by left. Qed.

Lemma walk_slots_sorted p l : ∀ i,
  (∀ k x, (k, x) ∈ slots i l → wf_item x ∧ ∀ q, StronglySorted bytes_lt (walk_item q x).*1) →
  StronglySorted bytes_lt (walk_children p (slots i l)).*1.
Proof.
  induction l as [|[x|] l IH]; intros i Hs; simpl; [constructor| |by apply IH].
  rewrite walk_children_cons, fmap_app. destruct (Hs [i] x) as [Hx Hsx]; [by left|].
  assert (∀ k y, (k, y) ∈ slots (i + 1) l → wf_item y ∧ ∀ q, StronglySorted bytes_lt (walk_item q y).*1)
    as Hl by (intros k y Hy; apply (Hs k y); by right).
  apply StronglySorted_app. split_and!; [|done|by apply IH].
  intros a b ([qa ya] & -> & Ha)%list_elem_of_fmap ([qb yb] & -> & Hb)%list_elem_of_fmap. simpl.
  apply walk_item_prefix in Ha as [ra ->]; [|done].
  destruct (walk_children_prefix p (slots (i + 1) l) qb yb) as (k & y & Hk & [rb ->]);
    [intros k z Hz; by destruct (Hl k z Hz)|done|].
  apply slots_heads in Hk as (j & -> & Hij). rewrite <- !app_assoc. apply bytes_lt_branch. lia.
Qed.

(** Everything below an item is after it. *)
Lemma walk_below_lt p x q y :
  wf_item x → (q, y) ∈ walk_children p (children x) → bytes_lt p q.
Proof.
  intros Hx Hq. destruct (walk_children_prefix p (children x) q y) as (k & z & Hk & [r ->]); [|done|].
  - intros k z Hk. by eapply children_ok.
  - apply children_ok in Hk as [_ [Hne _]]; [|done]. rewrite <- app_assoc. apply bytes_lt_app. by destruct k.
Qed.

Lemma walk_item_sorted x : wf_item x → ∀ p, StronglySorted bytes_lt (walk_item p x).*1.
Proof.
  intros Hx p. assert (StronglySorted bytes_lt (walk_children p (children x)).*1) as Hc.
  - destruct x as [t|v]; [|constructor]. revert p. induction t as [k v|k c IH|cs ov IH] using tree_induction; intros p.
    + repeat constructor.
    + simpl. rewrite walk_children_cons, app_nil_r. rewrite walk_item_wf by apply Hx. constructor; [apply IH, Hx|].
      apply Forall_fmap, Forall_forall. intros [q y] Hq. by eapply walk_below_lt; [|exact Hq]; apply Hx.
    + apply walk_slots_sorted. intros k x Hin. destruct (children_ok (INode (TFull cs ov)) k x Hx Hin) as [Hwx _].
      split; [done|]. intros q. rewrite walk_item_wf by done. constructor.
      * apply slots_spec in Hin as (j & Hj & ->).
        apply full_items_lookup in Hj as [(c & Hcj & ->)|(-> & v & -> & ->)]; [|constructor|apply Hx].
        by apply (IH j c Hcj).
      * apply Forall_fmap, Forall_forall. intros [r y] Hr. by eapply walk_below_lt.
  - rewrite walk_item_wf by done. constructor; [done|].
    apply Forall_fmap, Forall_forall. intros [q y] Hq. by eapply walk_below_lt.
Qed.

Lemma walk_sorted p t : wf t → StronglySorted bytes_lt (walk p t).*1.
Proof. intros Hw. by apply (walk_item_sorted (INode t)). Qed.

(** ** The values *)

Lemma below_value p x q v :
  wf_item x → (q, IVal v) ∈ walk_item p x ↔
  match x with
  | IVal v' => q = p ∧ v = v'
  | INode t => ∃ k y, (k, y) ∈ children x ∧ (q, IVal v) ∈ walk_item (p ++ k) y
  end.
Proof.
  intros Hx. destruct x as [t|v'].
  - rewrite walk_item_wf, elem_of_cons by done. unfold walk_children. rewrite list_elem_of_bind. split.
    + intros [?|([k y] & ? & ?)]; [done|by eexists _, _].
    + intros (k & y & ? & ?). right. by exists (k, y).
  - simpl. rewrite list_elem_of_singleton. naive_solver.
Qed.

Lemma walk_value t : wf t → ∀ p q v,
  (q, IVal v) ∈ walk p t ↔ ∃ k, path_ok k ∧ q = p ++ k ++ [16%Z] ∧ tget t k = Some v.
Proof.
  induction t as [k' v'|k' c IH|cs ov IH] using tree_induction; intros Hw p q v;
    change (walk p ?t) with (walk_item p (INode t)); rewrite below_value by done; simpl.
  - setoid_rewrite list_elem_of_singleton. split.
    + intros (k & y & [= -> ->] & Hq). apply list_elem_of_singleton in Hq as [= -> ->].
      exists k'. split_and!; [apply Hw|done|by rewrite bool_decide_true].
    + intros (k & Hk & -> & Hv). case_bool_decide; [|done]. injection Hv as ->. subst k.
      eexists _, _. split; [done|]. by apply list_elem_of_singleton.
  - setoid_rewrite list_elem_of_singleton. destruct Hw as (Hk' & Hne & Hf & Hc). split.
    + intros (k & y & [= -> ->] & Hq). apply IH in Hq as (r & Hr & -> & Hv); [|done].
      exists (k' ++ r). rewrite <- !app_assoc. split_and!; [by apply Forall_app|done|].
      by rewrite take_app_length, drop_app_length, bool_decide_true.
    + intros (k & Hk & -> & Hv). case_bool_decide as E; [|done].
      assert (k = k' ++ drop (length k') k) as Ek by (rewrite <- E at 1; by rewrite take_drop).
      eexists _, _. split; [done|]. apply IH; [done|]. exists (drop (length k') k).
      split_and!; [by apply Forall_drop|by rewrite Ek at 1; rewrite <- !app_assoc|done].
  - pose proof Hw as (Hlen & _). split.
    + intros (k & y & (j & Hj & ->)%slots_spec & Hq). rewrite Z.add_0_l in Hq.
      apply full_items_lookup in Hj as [(c & Hc & ->)|(-> & v' & -> & ->)]; [| |done].
      * destruct (wf_full_child cs ov j c Hw Hc) as [Hwc Hj]. apply (IH j c Hc Hwc) in Hq as (r & Hr & -> & Hv).
        exists (Z.of_nat j :: r). rewrite <- !app_assoc. split_and!; [|done|].
        -- constructor; [unfold is_nibble; lia|done].
        -- pose proof (tget_child cs ov j c r Hc) as E. simpl in E. by rewrite E.
      * apply list_elem_of_singleton in Hq as [= -> ->]. by exists [].
    + intros ([|x k] & Hk & -> & Hv).
      * exists [16%Z], (IVal v). split; [|by left]. apply slots_spec. exists 16. split; [|done].
        unfold full_items. rewrite lookup_app_r by (rewrite length_map; lia).
        rewrite length_map, Hlen. simpl. by rewrite Hv.
      * apply Forall_cons in Hk as [Hx Hk].
        change (tget (TFull cs ov) (x :: k) = Some v) in Hv. rewrite tget_full_cons in Hv.
        destruct (cs !! nib x) as [[c|]|] eqn:Hc; try done.
        exists [x], (INode c). split.
        -- apply slots_spec. exists (nib x). split.
           ++ unfold full_items. change (map (option_map INode) cs) with (option_map INode <$> cs).
              rewrite lookup_app_l by (rewrite length_fmap; by eapply lookup_lt_Some).
              by rewrite list_lookup_fmap, Hc.
           ++ unfold is_nibble, nib in *. f_equal. lia.
        -- apply (IH (nib x) c Hc); [by eapply wf_full_child|]. exists k. rewrite <- !app_assoc. done.
Qed.
