(* ===== verification/IteratorSpec.v ===== *)
(** * What the node iterator visits

    The stack of a [nodeIterator] stands for the part of the walk of the tree
    (Walk.v) that is still to come.  [Next] takes its first element, whatever is
    loaded, cached or resolved on the way; a node that cannot be loaded is
    reported and can be asked for again. *)
From S2P Require Import Prelude Errors Geth Encoding Node Mpt MptFacts Tracer Reader.
From S2P Require Import Trie Repr Refine Hasher TrieSpec Iterator Walk.
Local Open Scope nat_scope.

(** The two ways of reading a node agree. *)
Definition decodes (rd : trieReader) `{RlpOps, CryptoOps} : Prop := ∀ path h,
  match nodeBlob rd path h with
  | Ok blob => ∀ n, decodeNode (Some h) blob = Ok n → n ≠ nilNode → reader_node rd path h = Ok n
  | Err e => missing e → ∃ e', reader_node rd path h = Err e' ∧ missing e'
  | _ => True
  end.

Section spec.
Context `{RlpOps, CryptoOps, !RlpLaws, !CryptoLaws}.
Context (full : bool) (rd : trieReader) (Hrd : decodes rd).

(** A resolver may have nothing, or nothing one can use; what it has otherwise
    is the node asked for. *)
Definition honest (r : option NodeResolver) : Prop :=
  match r with
  | None => True
  | Some r => ∀ owner path t, wf t → let b := r owner path (keccak256 (tenc t)) in
      b = [] ∨ b = tenc t ∨ ∃ e, decodeNode (Some (keccak256 (tenc t))) b = Err e
  end.

(** The iterator works on this reader. *)
Definition reads_from (it : nodeIterator) : Prop :=
  t_reader (it_trie it) = rd ∧ honest (it_resolver it).

(** ** Nodes and items *)

Definition item_repr (root : bool) (x : item) (n : node) : Prop :=
  match x with INode t => repr full rd true root t n | IVal v => n = valueNode v end.
Definition slot_repr (ox : option item) (n : node) : Prop :=
  match ox with Some x => item_repr false x n | None => n = nilNode end.

(** Nodes referred to by hash, and the root, have one. *)
Definition item_hash (root : bool) (x : item) : bytes :=
  match x with
  | INode t => if root || bool_decide (32 ≤ length (tenc t)) then keccak256 (tenc t) else zeroHash
  | IVal _ => zeroHash
  end.

Lemma BytesToHash_keccak b : BytesToHash (keccak256 b) = keccak256 b.
Proof. apply BytesToHash_id, keccak256_length. Qed.

Lemma full_slots root cs ov ncs fl :
  repr full rd true root (TFull cs ov) (fullNode ncs fl) → length cs = 16 →
  Forall2 slot_repr (full_items cs ov) ncs.
Proof.
  intros Hr Hlen. inversion Hr as [| |? ? ? ? ncs' ? _ Hl Hcs Hnil|]; subst. simpl in Hcs.
  unfold full_items. apply Forall2_app.
  - apply Forall2_same_length_lookup. rewrite length_map. split; [done|]. intros i ox n Hox Hn.
    change (map (option_map INode) cs) with (option_map INode <$> cs) in Hox.
    rewrite list_lookup_fmap in Hox. destruct (cs !! i) as [[c|]|] eqn:Hc; try done; injection Hox as <-.
    + by apply (Hcs i c n).
    + by apply (Hnil i n).
  - constructor; [|constructor]. by destruct ov.
Qed.

Lemma item_repr_not_nil root x n : item_repr root x n → n ≠ nilNode.
Proof. destruct x as [t|v]; simpl; [|by intros ->]. by destruct 1. Qed.

(** The cached hash of a loaded node. *)
Lemma item_cache root x n :
  item_repr root x n → ∃ h d, cache n = Ok (h, d)
    ∧ (resolved n → BytesToHash (default [] h) = item_hash root x).
Proof.
  intros Hx.
  assert (∀ t fl, flag_ok full rd true root t fl →
            BytesToHash (default [] (flag_hash fl)) = item_hash root (INode t)) as Hfl.
  { intros t fl. unfold flag_ok, item_hash, by_hash. destruct (flag_hash fl) as [h|]; simpl.
    - intros (-> & Hb & _). rewrite BytesToHash_keccak. destruct root; [done|].
      destruct Hb as [?|Hb]; [done|]. by rewrite bool_decide_true.
    - intros [-> Hb]; [by right|]. rewrite bool_decide_false by done. apply BytesToHash_nil. }
  destruct x as [t|v]; simpl in Hx.
  - destruct Hx; eexists _, _; (split; [reflexivity|]); try (intros _; by apply Hfl). done.
  - subst n. eexists _, _. split; [reflexivity|]. intros _. apply BytesToHash_nil.
Qed.

(** A child as it is found: not loaded yet. *)
Definition fresh (x : item) (len : nat) (s : nodeIteratorState) : Prop :=
  item_repr false x (is_node s) ∧ is_index s = (-1)%Z ∧ is_pathlen s = len
  ∧ (resolved (is_node s) → is_hash s = item_hash false x).

Lemma child_state_fresh x n anc path :
  item_repr false x n → ∃ s, child_state n anc path = Ok s ∧ fresh x (length path) s.
Proof.
  intros Hx. destruct (item_cache false x n Hx) as (h & d & E & Hh). unfold child_state. rewrite E.
  eexists. split; [reflexivity|]. by split_and!.
Qed.

(** A loaded node. *)
Definition at_item (root : bool) (x : item) (s : nodeIteratorState) : Prop :=
  item_repr root x (is_node s) ∧ resolved (is_node s) ∧ is_hash s = item_hash root x.

Definition missing_node {A} (r : result A) : Prop := full = false ∧ ∃ e, r = Err e ∧ missing e.

Lemma resolveHash_ok it root t path :
  reads_from it → wf t → root = true ∨ by_hash t → available full rd t → stored_below full rd t →
  (∃ n, resolveHash it (keccak256 (tenc t)) path = Ok n ∧ repr full rd true root t n ∧ resolved n)
  ∨ missing_node (resolveHash it (keccak256 (tenc t)) path).
Proof.
  intros [Hr Hh] Hw Hroot Ha Hs. set (h := keccak256 (tenc t)).
  assert (repr full rd true root t (expand (Some h) t) ∧ resolved (expand (Some h) t)) as Hexp.
  { split; [|apply resolved_expand]. apply repr_expand; [done|done|]. by split. }
  assert (expand (Some h) t ≠ nilNode) as Hnn by (destruct t; done).
  assert ((∃ n, reader_node rd path h = Ok n ∧ repr full rd true root t n ∧ resolved n)
          ∨ missing_node (reader_node rd path h)) as Hstored.
  { pose proof (Hrd path h) as Hd. destruct (Ha path) as [E|(Hf & e & E & He)]; unfold h in *;
      rewrite BytesToHash_keccak in E; rewrite E in Hd.
    - left. eexists. split; [apply Hd; [by apply decodeNode_tenc|done]|done].
    - right. destruct (Hd He) as (e' & -> & ?). split; [done|]. by exists e'. }
  unfold resolveHash, resolver_blob. rewrite Hr. unfold h in *. rewrite BytesToHash_keccak in *.
  destruct (it_resolver it) as [r|]; [|done].
  destruct (Hh (t_owner (it_trie it)) path t Hw) as [->|[->|(e & He)]]; [done| |].
  - destruct (tenc t) eqn:Et; [done|]. rewrite <- Et in *. rewrite decodeNode_tenc by done. left. by eexists.
  - destruct (r _ _ _) as [|]; [done|]. by rewrite He.
Qed.

Lemma state_resolve_ok it root x path s :
  reads_from it → wf_item x → item_repr root x (is_node s) →
  (resolved (is_node s) → is_hash s = item_hash root x) →
  (∃ s', state_resolve it path s = Ok s' ∧ at_item root x s' ∧ is_parent s' = is_parent s
     ∧ is_index s' = is_index s ∧ is_pathlen s' = is_pathlen s)
  ∨ missing_node (state_resolve it path s).
Proof.
  intros Hit Hw Hx Hh. destruct (decide (resolved (is_node s))) as [Hr|Hr].
  { left. exists s. unfold state_resolve. split_and!; try done; [|split_and!; auto]. by destruct (is_node s). }
  destruct x as [t|v]; simpl in Hx; [|by rewrite Hx in Hr].
  assert (is_node s = hashNode (keccak256 (tenc t)) ∧ (root = true ∨ by_hash t)
          ∧ available full rd t ∧ stored_below full rd t) as (E & Hroot & Ha & Hs)
    by (inversion Hx; subst; match goal with E : _ = is_node s |- _ => rewrite <- E in Hr end; by try done).
  unfold state_resolve. rewrite E.
  destruct (resolveHash_ok it root t path Hit Hw Hroot Ha Hs) as [(n & -> & Hn & Hrn)|[Hf (e & -> & He)]].
  - left. eexists. split; [reflexivity|]. split_and!; try done.
    split_and!; [done..|]. unfold item_hash. cbn [is_hash]. rewrite BytesToHash_keccak.
    destruct root; [done|]. destruct Hroot as [?|Hb]; [done|]. by rewrite bool_decide_true.
  - right. split; [done|]. by exists e.
Qed.

(** ** The children still to be visited *)

Definition remaining (s : nodeIteratorState) (x : item) : list (bytes * item) :=
  match x with
  | INode (TFull cs ov) =>
      slots (is_index s + 1) (drop (Z.to_nat (is_index s + 1)) (full_items cs ov))
  | _ => if bool_decide (is_index s < 0)%Z then children x else []
  end.

Lemma remaining_fresh x s : is_index s = (-1)%Z → remaining s x = children x.
Proof. intros E. unfold remaining. rewrite E. by destruct x as [[]|]. Qed.

(** What [findChild] finds is the first occupied slot. *)
Lemma findChildIn_spec l ns path anc : Forall2 slot_repr l ns → ∀ i,
  match slots i l with
  | [] => findChildIn ns i path anc = Ok None
  | (k, x) :: rest => ∃ j c, k = [j] ∧ (i ≤ j)%Z
      ∧ findChildIn ns i path anc = Ok (Some (c, path ++ k, j)) ∧ fresh x (length path) c
      ∧ slots j (drop (Z.to_nat (j - i)) l) = (k, x) :: rest
      ∧ slots (j + 1) (drop (Z.to_nat (j + 1 - i)) l) = rest
  end.
Proof.
  induction 1 as [|ox n l ns Hn Hl IH]; intros i; simpl; [done|]. destruct ox as [x|]; simpl in Hn.
  - destruct (child_state_fresh x n anc path Hn) as (c & E & Hc). exists i, c.
    split_and!; [done|lia| |done| |].
    + pose proof (item_repr_not_nil false x n Hn). rewrite E. by destruct n.
    + by rewrite Z.sub_diag.
    + by replace (i + 1 - i)%Z with 1%Z by lia.
  - subst n. specialize (IH (i + 1)%Z). destruct (slots (i + 1) l) as [|[k x] rest]; [done|].
    destruct IH as (j & c & -> & Hj & E & Hc & E1 & E2). exists j, c. split_and!; [done|lia|done|done| |].
    + replace (Z.to_nat (j - i)) with (S (Z.to_nat (j - (i + 1)))) by lia. done.
    + replace (Z.to_nat (j + 1 - i)) with (S (Z.to_nat (j + 1 - (i + 1)))) by lia. done.
Qed.

Lemma findChild_spec l ns path anc i : Forall2 slot_repr l ns → (0 ≤ i)%Z →
  match slots i (drop (Z.to_nat i) l) with
  | [] => findChild ns i path anc = Ok None
  | (k, x) :: rest => ∃ j c, k = [j] ∧ (i ≤ j)%Z
      ∧ findChild ns i path anc = Ok (Some (c, path ++ k, j)) ∧ fresh x (length path) c
      ∧ slots j (drop (Z.to_nat j) l) = (k, x) :: rest
      ∧ slots (j + 1) (drop (Z.to_nat (j + 1)) l) = rest
  end.
Proof.
  intros Hl Hi. pose proof (findChildIn_spec (drop (Z.to_nat i) l) (drop (Z.to_nat i) ns) path anc
    (Forall2_drop _ _ _ _ Hl) i) as Hf. unfold findChild.
  destruct (slots i _) as [|[k x] rest]; [done|]. destruct Hf as (j & c & -> & Hj & E & Hc & E1 & E2).
  exists j, c. rewrite drop_drop in E1, E2. split_and!; try done.
  - by replace (Z.to_nat j) with (Z.to_nat i + Z.to_nat (j - i)) by lia.
  - by replace (Z.to_nat (j + 1)) with (Z.to_nat i + Z.to_nat (j + 1 - i)) by lia.
Qed.

(** ** Choosing the next child *)

Abbreviation finder := (bytes → nodeIteratorState → bytes → result next_child).

(** A finder takes the first of the remaining children that [choose] keeps. *)
Definition found (find : finder) (choose : bytes → list (bytes * item) → list (bytes * item))
    (path : bytes) (s : nodeIteratorState) (x : item) (anc : bytes) : Prop :=
  match choose path (remaining s x) with
  | [] => remaining s x = [] ∧ find path s anc = Ok None
  | (k, y) :: rest => ∃ i c,
      find path s anc = Ok (Some (set_index i s, c, path ++ k)) ∧ fresh y (length path) c
      ∧ (-1 ≤ i)%Z ∧ remaining (set_index i s) x = (k, y) :: rest
      ∧ remaining (set_index (i + 1) s) x = rest
  end.
Definition finds find choose : Prop := ∀ root path s x anc,
  at_item root x s → wf_item x → (-1 ≤ is_index s)%Z → found find choose path s x anc.

Lemma set_index_id s : set_index (is_index s) s = s.
Proof. by destruct s. Qed.

(** The single child of a short node, for either finder. *)
Lemma short_found find choose path s x anc k y n :
  (∀ l, length l ≤ 1 → choose path l = l) → children x = [(k, y)] →
  (∀ i, remaining (set_index i s) x = if bool_decide (i < 0)%Z then children x else []) →
  item_repr false y n → (-1 ≤ is_index s)%Z →
  find path s anc = short_child s k n path anc → found find choose path s x anc.
Proof.
  intros Hch Hc Hrem Hn Hi Hf. unfold found.
  pose proof (Hrem (is_index s)) as E. rewrite set_index_id in E.
  rewrite Hch by (rewrite E; case_bool_decide; rewrite ?Hc; simpl; lia).
  rewrite E, Hf. unfold short_child. case_bool_decide as Hlt; [rewrite Hc|done].
  destruct (child_state_fresh y n anc path Hn) as (c & Ec & Hfr). exists (is_index s), c.
  rewrite set_index_id, Ec, E, Hrem, Hc.
  rewrite (bool_decide_false (is_index s + 1 < 0)%Z) by lia.
  by split_and!.
Qed.

(** The shape of a loaded node. *)
Lemma at_node root t s :
  at_item root (INode t) s →
  match t with
  | TLeaf k v => ∃ fl, is_node s = shortNode (k ++ [16%Z]) (valueNode v) fl
  | TExt k c => ∃ n fl, is_node s = shortNode k n fl ∧ item_repr false (INode c) n
  | TFull cs ov => ∃ ns fl, is_node s = fullNode ns fl
      ∧ (length cs = 16 → Forall2 slot_repr (full_items cs ov) ns)
  end.
Proof.
  intros (Hx & Hr & _). simpl in Hx. remember (is_node s) as n eqn:En. clear En.
  destruct t; inversion Hx; subst; try done; eexists; try eexists; try done.
  split; [reflexivity|]. by eapply full_slots.
Qed.

Lemma nextChild_finds : finds nextChild (λ _ l, l).
Proof.
  intros root path s x anc Hat Hw Hi. destruct x as [[k v|k c|cs ov]|v].
  - destruct (at_node _ _ _ Hat) as (fl & E).
    eapply (short_found _ _ _ _ _ _ (k ++ [16%Z]) (IVal v)); try done. unfold nextChild. by rewrite E.
  - destruct (at_node _ _ _ Hat) as (n & fl & E & Hn).
    eapply (short_found _ _ _ _ _ _ k (INode c)); try done. unfold nextChild. by rewrite E.
  - destruct (at_node _ _ _ Hat) as (ns & fl & E & Hns). unfold found, remaining, nextChild. rewrite E.
    pose proof (findChild_spec _ _ path anc (is_index s + 1) (Hns (proj1 Hw)) ltac:(lia)) as Hf.
    destruct (slots _ _) as [|[k x] rest]; [by rewrite Hf|].
    destruct Hf as (j & c & -> & Hj & -> & Hc & E1 & E2). exists (j - 1)%Z, c. cbn [is_index set_index].
    replace (j - 1 + 1)%Z with j by lia. split_and!; try done. lia.
  - destruct Hat as (Hx & _). simpl in Hx. unfold found, remaining, nextChild. rewrite Hx. simpl.
    by destruct (bool_decide _).
Qed.
(** ** The stack and what it stands for *)

Definition path_of (x : item) (p : bytes) : Prop :=
  match x with INode _ => path_ok p | IVal _ => ∃ q, path_ok q ∧ p = q ++ [16%Z] end.

(** The top [s] of a stack, at path [p ++ k] below a node at path [p]. *)
Record frame (root : bool) (s : nodeIteratorState) (stk : list nodeIteratorState) (p k : bytes)
    (x : item) : Prop := {
  frame_root : root = true ↔ stk = [];
  frame_wf : wf_item x;
  frame_at : at_item root x s;
  frame_len : is_pathlen s = length p;
  frame_index : (-1 ≤ is_index s)%Z;
  frame_path : path_of x (p ++ k)
}.

(** A stack, the path of its top, and what is still to be visited. *)
Inductive stands : list nodeIteratorState → bytes → list (bytes * item) → Prop :=
| stands_nil : stands [] [] []
| stands_cons root s stk p k x pend :
    stands stk p pend → frame root s stk p k x →
    stands (s :: stk) (p ++ k) (walk_children (p ++ k) (remaining s x) ++ pend).

Lemma remaining_children s x k y :
  wf_item x → (-1 ≤ is_index s)%Z → (k, y) ∈ remaining s x → (k, y) ∈ children x.
Proof.
  intros Hw Hi. unfold remaining. destruct x as [[k' v|k' c|cs ov]|v];
    try (case_bool_decide; [done|by intros ?%not_elem_of_nil]).
  intros (j & Hj & ->)%slots_spec. rewrite lookup_drop in Hj. simpl. apply slots_spec.
  eexists. split; [exact Hj|]. f_equal. lia.
Qed.

Lemma remaining_wf s x :
  wf_item x → (-1 ≤ is_index s)%Z → Forall (λ kx, wf_item kx.2) (remaining s x).
Proof.
  intros Hw Hi. apply Forall_forall. intros [k y] Hin. by eapply children_ok, remaining_children.
Qed.

Lemma path_of_child x y p k :
  wf_item x → path_of x p → (k, y) ∈ children x → path_of y (p ++ k).
Proof.
  intros Hw Hp Hin. destruct x as [t|v]; [|by apply not_elem_of_nil in Hin].
  destruct (children_ok _ _ _ Hw Hin) as [_ [_ Hk]]. simpl in Hp. destruct y; simpl in *.
  - by apply Forall_app.
  - destruct Hk as (q & Hq & ->). exists (p ++ q). rewrite app_assoc. split; [by apply Forall_app|done].
Qed.

(** Where a stack stands after a child [k] was found below its top. *)
Record arrives (par : nodeIteratorState) (stk : list nodeIteratorState) (p : bytes)
    (k : bytes) (y : item) (rest pend : list (bytes * item)) (r : peeked) : Prop := {
  arrives_ok : wf_item y ∧ k ≠ [] ∧ path_of y (p ++ k);
  arrives_back : ∃ root p0 k0 x, p = p0 ++ k0 ∧ frame root par stk p0 k0 x
    ∧ remaining par x = (k, y) :: rest ∧ stands stk p0 pend;
  arrives_to :
    (∃ st, r = inl (st, true, p ++ k) ∧ at_item false y st ∧ is_index st = (-1)%Z
       ∧ is_pathlen st = length p
       ∧ stands (set_index (is_index par + 1) par :: stk) p (walk_children p rest ++ pend))
    ∨ (full = false ∧ ∃ e, missing e ∧ r = inr (nodeError e))
}.

(** The top has a next child. *)
Lemma climb_here find choose it root s stk p0 k0 x pend k y rest :
  reads_from it → finds find choose →
  stands stk p0 pend → frame root s stk p0 k0 x → choose (p0 ++ k0) (remaining s x) = (k, y) :: rest →
  ∃ par r, climb find it (s :: stk) (p0 ++ k0) = (set_pos (par :: stk) (p0 ++ k0) it, Ok r)
    ∧ arrives par stk (p0 ++ k0) k y rest pend r.
Proof.
  intros Hit Hf Hst [Hroot Hw Hat Hlen Hi Hp] Hch. set (p := p0 ++ k0) in *. simpl.
  set (anc := if bool_decide (is_hash s = zeroHash) then is_parent s else is_hash s).
  specialize (Hf root p s x anc Hat Hw Hi). unfold found in Hf. rewrite Hch in Hf.
  destruct Hf as (i & c & -> & (Hc & Hci & Hcl & Hch') & Hi' & E1 & E2).
  assert ((k, y) ∈ children x) as Hin.
  { apply (remaining_children (set_index i s)); [done|done|]. rewrite E1. by left. }
  destruct (children_ok _ _ _ Hw Hin) as [Hwy [Hne _]].
  assert (wf_item y ∧ k ≠ [] ∧ path_of y (p ++ k)) as Hy by (split_and!; [done|done|by apply (path_of_child x)]).
  assert (∀ i, (-1 ≤ i)%Z → frame root (set_index i s) stk p0 k0 x) as Hfr by done.
  destruct (state_resolve_ok it false y (p ++ k) c Hit Hwy Hc Hch') as
    [(st & -> & Hst' & Hpar & Hidx & Hpl)|[Hfull (e & -> & He)]];
    (eexists _, _; split; [reflexivity|]; split; [done|by exists root, p0, k0, x; auto|]).
  - left. exists st. split_and!; [done|done|congruence|congruence|]. rewrite <- E2.
    eapply stands_cons; [done|]. apply Hfr. simpl. lia.
  - right. split; [done|]. by exists e.
Qed.

Lemma climb_spec find choose it stk path pend :
  reads_from it → finds find choose → stands stk path pend →
  (pend = [] ∧ climb find it stk path = (set_pos [] [] it, Ok (inr errIteratorEnd)))
  ∨ ∃ p rem pend0 par stk' k y rest r,
      pend = walk_children p rem ++ pend0 ∧ choose p rem = (k, y) :: rest
      ∧ Forall (λ kx, wf_item kx.2) rem ∧ p `prefix_of` path ∧ climb find it stk path = (set_pos (par :: stk') p it, Ok r)
      ∧ arrives par stk' p k y rest pend0 r.
Proof.
  intros Hit Hf. induction 1 as [|root s stk p k x pend Hst IH Hfr]; [by left|].
  pose proof Hfr as [Hroot Hw Hat Hlen Hi Hp].
  destruct (choose (p ++ k) (remaining s x)) as [|[k' y] rest] eqn:Hch.
  - set (anc := if bool_decide (is_hash s = zeroHash) then is_parent s else is_hash s).
    pose proof (Hf root (p ++ k) s x anc Hat Hw Hi) as Hfs. unfold found in Hfs. rewrite Hch in Hfs.
    destruct Hfs as [-> Hfs]. simpl. fold anc. rewrite Hfs, Hlen, take_app_length.
    destruct IH as [[-> IH]|(p' & rem & pend0 & par & stk' & k' & y & rest & r & -> & E & Hwr & Hpre & IH & Ha)].
    + by left.
    + right. exists p', rem, pend0, par, stk', k', y, rest, r. split_and!; try done.
      by apply prefix_app_r.
  - right. destruct (climb_here find choose it root s stk p k x pend k' y rest) as (par & r & E & Ha); try done.
    exists (p ++ k), (remaining s x), pend, par, stk, k', y, rest, r. split_and!; try done.
    by eapply remaining_wf.
Qed.
(** ** [Next] *)

Context (schedule : list nat) (Hsch : schedule ≡ₚ seq 0 16).
Context (m : gmap bytes bytes) (Hroot : m ≠ ∅ → map_root m ≠ EmptyRootHash).

Definition root_walk : list (bytes * item) := from_option (walk []) [] (tree_of m).

(** No end of the iteration and no failed seek is recorded. *)
Definition idle (e : option iterError) : Prop :=
  match e with None | Some (nodeError _) => True | _ => False end.

(** An iterator over [m]: what is to come below the current node, and after it. *)
Inductive iterates (it : nodeIterator) : list (bytes * item) → list (bytes * item) → Prop :=
| iterates_start :
    reads_from it → it_stack it = [] → it_path it = [] → idle (it_err it) →
    holds_map full false m (it_trie it) → m ≠ ∅ → iterates it [] root_walk
| iterates_at s stk below after :
    reads_from it → it_stack it = s :: stk → idle (it_err it) →
    stands (s :: stk) (it_path it) (below ++ after) →
    stands stk (take (is_pathlen s) (it_path it)) after → iterates it below after
| iterates_end :
    reads_from it → it_err it = Some errIteratorEnd → iterates it [] [].

Lemma tree_of_nonempty T hs : holds_map full hs m T → m ≠ ∅ → ∃ t, tree_of m = Some t ∧ wf t.
Proof.
  intros Hh Hne. destruct (tree_of_models m) as [Hw Hm]; [by eapply holds_map_ok|].
  destruct (tree_of m) as [t|]; [by exists t|]. destruct Hne, Hm as (Hget & _ & Hb).
  apply map_eq. intros k. rewrite lookup_empty. destruct (m !! k) as [v|] eqn:E; [|done].
  rewrite <- (Hget k) in E; [done|]. apply Hb. by exists v.
Qed.

Lemma init_spec it hs :
  reads_from it → holds_map full hs m (it_trie it) → m ≠ ∅ →
  ∃ t T r, tree_of m = Some t ∧ wf t ∧ init schedule it = (set_trie T it, Ok r)
    ∧ holds_map full true m T ∧ t_reader T = rd
    ∧ ((∃ st, r = inl (st, false, []) ∧ at_item true (INode t) st ∧ is_index st = (-1)%Z ∧ is_pathlen st = 0)
       ∨ (full = false ∧ ∃ e, missing e ∧ r = inr (nodeError e))).
Proof.
  intros [Hr Hh] Hm Hne. destruct (tree_of_nonempty _ _ Hm Hne) as (t & Ht & Hw).
  destruct (Trie_Hash_lemma full hs m (it_trie it) schedule Hsch Hm) as (E & Hm' & Hrd').
  destruct (Trie_Hash schedule (it_trie it)) as [T r] eqn:EH. simpl in E, Hm', Hrd'. subst r.
  pose proof (holds_map_tree _ _ _ _ Hm') as [Hrep _]. rewrite Ht, Hrd', Hr in Hrep. simpl in Hrep.
  exists t, T. unfold init. rewrite EH. rewrite bool_decide_true by auto.
  assert (reads_from (set_trie T it)) as Hit by (split; [by rewrite <- Hr, <- Hrd'|done]).
  destruct (state_resolve_ok (set_trie T it) true (INode t) [] (MkState (map_root m) (t_root T) zeroHash (-1) 0)
    Hit Hw Hrep) as [(st & -> & Hat & _ & Hi & Hl)|[Hfull (e & -> & He)]].
  - intros _. unfold map_root. by rewrite Ht.
  - eexists. split_and!; try done; [congruence|]. left. by exists st.
  - eexists. split_and!; try done; [congruence|]. right. split; [done|]. by exists e.
Qed.

(** The iterator is at a node of the walk. *)
Record visits (it : nodeIterator) (q : bytes) (y : item) : Prop := {
  visits_path : it_path it = q;
  visits_err : it_err it = None;
  visits_ok : wf_item y ∧ path_of y q;
  visits_node : ∃ s stk, it_stack it = s :: stk ∧ at_item (bool_decide (q = [])) y s
}.

(** What a step does when [pend] is to come. *)
Definition moved (it' : nodeIterator) (r : bool) (pend : list (bytes * item)) : Prop :=
  match pend with
  | [] => r = false ∧ it_err it' = Some errIteratorEnd ∧ iterates it' [] []
  | (q, y) :: rest =>
      (r = true ∧ visits it' q y
       ∧ ∃ after, rest = walk_children q (children y) ++ after
           ∧ iterates it' (walk_children q (children y)) after)
      ∨ (r = false ∧ full = false ∧ ∃ e below after, missing e ∧ it_err it' = Some (nodeError e)
           ∧ below ++ after = pend ∧ iterates it' below after)
  end.

Lemma moved_arrives it par stk p k y rest pend r :
  reads_from it → arrives par stk p k y rest pend r →
  ∃ it' b, (match r with
            | inl (st, has_parent, path) =>
                push st has_parent path (set_err None (set_pos (par :: stk) p it))
            | inr e => set_err (Some e) (set_pos (par :: stk) p it)
            end, match r with inl _ => true | inr _ => false end) = (it', b)
    ∧ moved it' b (walk_children p ((k, y) :: rest) ++ pend).
Proof.
  intros Hit [(Hw & Hne & Hp) (root & p0 & k0 & x & -> & Hfr & Hrem & Hst)
    [(st & -> & Hat & Hidx & Hlen & Hto)|(Hf & e & He & ->)]];
    (eexists _, _; split; [reflexivity|]); rewrite walk_children_cons, walk_item_wf by done; simpl.
  - left. set (p := p0 ++ k0) in *.
    assert (stands (st :: set_index (is_index par + 1) par :: stk) (p ++ k)
              (walk_children (p ++ k) (children y) ++ walk_children p rest ++ pend)) as Hs.
    { rewrite <- (remaining_fresh y st) by done. eapply (stands_cons false); [done|]. split; try done. lia. }
    split_and!; [done| |].
    + split; try done. simpl. eexists _, _. split; [reflexivity|]. by rewrite bool_decide_false by by destruct p, k.
    + exists (walk_children p rest ++ pend). rewrite <- app_assoc. split; [done|].
      eapply iterates_at; [done|reflexivity|done|exact Hs|]. simpl. by rewrite Hlen, take_app_length.
  - right. split_and!; [done|done|]. exists e. eexists _, _. split; [done|]. split; [done|]. split.
    2:{ eapply iterates_at; [done|reflexivity|done|by eapply stands_cons|].
        simpl. destruct Hfr. by rewrite frame_len0, take_app_length. }
    by rewrite Hrem, walk_children_cons, walk_item_wf.
Qed.

Lemma advance_spec it below after descend :
  iterates it below after → idle (it_err it) →
  ∃ it' r, advance schedule descend it = (it', Ok r)
    ∧ moved it' r (if descend then below ++ after else after).
Proof.
  intros Hi Hidle. destruct Hi as [Hit Hst Hpath _ Hm Hne|s stk below after Hit Hst _ Hs Hafter|Hit He].
  - destruct (init_spec it false Hit Hm Hne) as (t & T & r & Ht & Hw & E & Hm' & Hr & Hto).
    assert (reads_from (set_trie T it)) as HitT by (destruct Hit; by split).
    replace (if descend then [] ++ root_walk else root_walk) with root_walk by by destruct descend.
    assert (root_walk = ([], INode t) :: walk_children [] (children (INode t))) as Hwalk.
    { unfold root_walk. rewrite Ht. by apply (walk_item_wf [] (INode t)). }
    rewrite Hwalk. unfold advance, peek, peek_with, modify. mred. rewrite Hst, E.
    destruct Hto as [(st & -> & Hat & Hidx & Hlen)|(Hf & e & He & ->)];
      (eexists _, _; split; [reflexivity|]; simpl).
    + left. assert (stands [st] [] (walk_children [] (children (INode t)) ++ [])) as Hs.
      { rewrite <- (remaining_fresh (INode t) st) by done.
        apply (stands_cons true st [] [] [] (INode t) []); [constructor|]. split; try done; [lia|constructor]. }
      unfold push. cbn [it_stack set_err set_trie]. rewrite Hst. split_and!; [done| |].
      * split; try done; [by repeat constructor|]. by eexists _, _.
      * exists []. rewrite app_nil_r. split; [done|].
        eapply iterates_at; [done|reflexivity|done|exact Hs|]. rewrite Hlen. constructor.
    + right. split_and!; [done..|]. exists e, [], root_walk. rewrite Hwalk at 1.
      split_and!; [done..|]. apply iterates_start; try done. by eapply holds_map_weaken.
  - assert (∃ stk1 pend, climb nextChild (if descend then it else pop it)
                (it_stack (if descend then it else pop it)) (it_path (if descend then it else pop it))
              = climb nextChild (if descend then it else pop it) stk1 (it_path (if descend then it else pop it))
              ∧ stands stk1 (it_path (if descend then it else pop it)) pend
              ∧ reads_from (if descend then it else pop it)
              ∧ pend = if descend then below ++ after else after) as (stk1 & pend & E & Hs1 & Hit1 & Hp).
    { destruct descend; [by exists (s :: stk), (below ++ after); rewrite Hst|].
      exists stk, after. unfold pop. rewrite Hst. by split_and!. }
    rewrite <- Hp. unfold advance, peek, peek_with, modify. mred. rewrite Hst, E. clear E.
    destruct (climb_spec nextChild (λ _ l, l) (if descend then it else pop it) stk1 _ pend Hit1
      nextChild_finds Hs1) as [[-> ->]|(p & rem & pend0 & par & stk' & k & y & rest & r & -> & -> & _ & _ & -> & Ha)].
    + eexists _, _. split; [reflexivity|]. simpl. split_and!; [done..|]. by apply iterates_end.
    + destruct (moved_arrives _ _ _ _ _ _ _ _ _ Hit1 Ha) as (it' & b & E & Hmv).
      exists it', b. split; [|done]. destruct r as [[[st hp] q]|e]; by injection E as <- <-.
  - by rewrite He in Hidle.
Qed.
End spec.
