(* ===== verification/Seek.v ===== *)
(** * Where the node iterator starts

    [seek] moves forward until the next node is at the start key or after it,
    passing over whole subtrees that lie before the key without loading them. *)
From stdpp Require Import sorting.
From S2P Require Import Prelude Errors Geth Encoding Node Mpt MptFacts Tracer Reader.
From S2P Require Import Trie Repr Refine Hasher TrieSpec Iterator Walk IteratorSpec.
Local Open Scope nat_scope.

(** ** Choosing the last child before the key *)

Fixpoint closer (key p : bytes) (rem : list (bytes * item)) : list (bytes * item) :=
  match rem with
  | [] => []
  | kx :: rest =>
      match rest with
      | [] => rem
      | (k, _) :: _ => if bytes_le key (p ++ k) then rem else closer key p rest
      end
  end.
Definition skip_to (key p : bytes) (rem : list (bytes * item)) : list (bytes * item) :=
  match rem with
  | [] => []
  | (k, _) :: _ => if bytes_le key (p ++ k) then rem else closer key p rem
  end.

Lemma closer_nonempty key p x rem : ∃ y rest, closer key p (x :: rem) = y :: rest.
Proof.
  revert x. induction rem as [|[k z] rem IH]; intros x; simpl; [by eexists _, _|].
  destruct (bytes_le _ _); [by eexists _, _|]. apply IH.
Qed.

Lemma skip_to_short key p l : length l ≤ 1 → skip_to key p l = l.
Proof.
  destruct l as [|[k x] [|]]; simpl; [done| |lia]. by destruct (bytes_le _ _).
Qed.

Section finder.
Context `{RlpOps, CryptoOps, !RlpLaws, !CryptoLaws}.
Context (full : bool) (rd : trieReader).

Lemma closerChild_spec l ns path anc key : Forall2 (slot_repr full rd) l ns → ∀ fuel j c k x rest,
  length l < Z.to_nat j + fuel → (0 ≤ j)%Z → k = [j] → fresh full rd x (length path) c →
  slots j (drop (Z.to_nat j) l) = (k, x) :: rest →
  slots (j + 1) (drop (Z.to_nat (j + 1)) l) = rest →
  ∃ j' c' k' x' rest', closerChild fuel ns path anc key (c, path ++ k, j) = Ok (c', path ++ k', j')
    ∧ closer key path ((k, x) :: rest) = (k', x') :: rest' ∧ (0 ≤ j')%Z
    ∧ fresh full rd x' (length path) c'
    ∧ slots j' (drop (Z.to_nat j') l) = (k', x') :: rest'
    ∧ slots (j' + 1) (drop (Z.to_nat (j' + 1)) l) = rest'.
Proof.
  intros Hl fuel. induction fuel as [|fuel IH]; intros j c k x rest Hfuel Hj -> Hc E1 E2.
  - rewrite drop_ge in E1 by lia. done.
  - cbn [closerChild closer snd]. pose proof (findChild_spec full rd l ns path anc (j + 1) Hl ltac:(lia)) as Hf.
    rewrite E2 in Hf. destruct rest as [|[k2 x2] rest2].
    { rewrite Hf. eexists _, _, _, _, _. by split_and!. }
    destruct Hf as (j2 & c2 & -> & Hj2 & -> & Hc2 & E3 & E4). mred. cbn [fst snd].
    destruct (bytes_le key (path ++ [j2])) eqn:Hle.
    { eexists _, _, _, _, _. by split_and!. }
    apply IH; try done; lia.
Qed.

Lemma nextChildAt_finds key : finds full rd (nextChildAt key) (skip_to key).
Proof.
  intros root path s x anc Hat Hw Hi. destruct x as [[k v|k c|cs ov]|v].
  - destruct (at_node _ _ _ _ _ Hat) as (fl & E).
    eapply (short_found _ _ _ _ _ _ _ _ (k ++ [16%Z]) (IVal v)); try done.
    + intros l. apply skip_to_short.
    + unfold nextChildAt. by rewrite E.
  - destruct (at_node _ _ _ _ _ Hat) as (n & fl & E & Hn).
    eapply (short_found _ _ _ _ _ _ _ _ k (INode c)); try done.
    + intros l. apply skip_to_short.
    + unfold nextChildAt. by rewrite E.
  - destruct (at_node _ _ _ _ _ Hat) as (ns & fl & E & Hns). unfold found, remaining, nextChildAt. rewrite E.
    specialize (Hns (proj1 Hw)).
    pose proof (findChild_spec full rd _ _ path anc (is_index s + 1) Hns ltac:(lia)) as Hf.
    destruct (slots _ _) as [|[k x] rest]; [by rewrite Hf|].
    destruct Hf as (j & c & -> & Hj & -> & Hc & E1 & E2). cbn [skip_to]. mred. cbn [fst snd].
    destruct (bytes_le key (path ++ [j])) eqn:Hle; mred.
    + exists (j - 1)%Z, c. cbn [is_index set_index]. replace (j - 1 + 1)%Z with j by lia. split_and!; try done. lia.
    + pose proof (Forall2_length _ _ _ Hns) as Hlen.
      destruct (closerChild_spec _ _ path anc key Hns (S (length ns)) j c [j] x rest)
        as (j' & c' & k' & x' & rest' & -> & -> & Hj' & Hc' & E3 & E4); try done; try lia.
      exists (j' - 1)%Z, c'. cbn [is_index set_index]. replace (j' - 1 + 1)%Z with j' by lia. mred.
      split_and!; try done. lia.
  - destruct Hat as (Hx & _). simpl in Hx. unfold found, remaining, nextChildAt. rewrite Hx. simpl.
    by destruct (bool_decide _).
Qed.
End finder.

(** ** What is passed over is before the key *)

Definition before (key : bytes) (l : list (bytes * item)) : Prop := Forall (λ qy, bytes_lt qy.1 key) l.
Definition from_key (key : bytes) (l : list (bytes * item)) : Prop :=
  Forall (λ qy, bytes_le key qy.1 = true) l.

Lemma not_le_lt a b : bytes_le a b = false → bytes_lt b a.
Proof.
  unfold bytes_le, bytes_lt. rewrite (bytes_compare_antisym a b). by destruct (bytes_compare a b).
Qed.

Lemma lt_le_trans a b c : bytes_lt a b → bytes_le b c = true → bytes_lt a c.
Proof. intros Hab [->|Hbc]%bytes_le_lt; [done|by etrans]. Qed.

(** In a sorted walk what follows something from the key on is from the key on,
    and what precedes something before the key is before it. *)
Lemma sorted_from key q y l :
  StronglySorted bytes_lt ((q, y) :: l).*1 → bytes_le key q = true → from_key key ((q, y) :: l).
Proof.
  rewrite fmap_cons. intros Hs Hq. apply StronglySorted_inv in Hs as [_ Hs]. constructor; [done|].
  rewrite Forall_fmap in Hs. eapply Forall_impl; [exact Hs|]. intros [r z] Hr.
  apply bytes_le_lt. right. simpl in *. apply bytes_le_lt in Hq as [->|Hq]; [done|by etrans].
Qed.

Lemma sorted_before key l q y l' :
  StronglySorted bytes_lt (l ++ (q, y) :: l').*1 → bytes_lt q key → before key l.
Proof.
  rewrite fmap_app, StronglySorted_app. intros (Hs & _ & _) Hq. apply Forall_forall. intros [r z] Hr.
  simpl. etrans; [|exact Hq]. apply Hs; [by apply (list_elem_of_fmap_2 fst _ (r, z))|by left].
Qed.

Lemma before_subtree key p r : bytes_lt p key → ¬ p `prefix_of` key → bytes_lt (p ++ r) key.
Proof.
  revert key. induction p as [|x p IH]; intros key Hlt Hp; [by destruct Hp; apply prefix_nil|].
  destruct key as [|y key]; [by apply bytes_lt_nil_r in Hlt|]. simpl.
  apply bytes_lt_cons in Hlt as [Hlt|[-> Hlt]]; apply bytes_lt_cons; [by left|right]. split; [done|].
  apply IH; [done|]. intros Hpre. apply Hp. by apply prefix_cons.
Qed.

(** [skip_to] passes over children all of which are before the key; when the one
    it chooses is before the key, the next ones are not. *)
Lemma skip_to_spec key p rem k y rest :
  Forall (λ kx, wf_item kx.2) rem → StronglySorted bytes_lt (walk_children p rem).*1 →
  skip_to key p rem = (k, y) :: rest →
  ∃ passed, rem = passed ++ (k, y) :: rest ∧ before key (walk_children p passed)
    ∧ (bytes_lt (p ++ k) key → from_key key (walk_children p rest)).
Proof.
  assert (∀ k' x', wf_item x' → ∃ l, walk_item (p ++ k') x' = (p ++ k', x') :: l) as Hhd.
  { intros k' x' Hx. eexists. by apply walk_item_wf. }
  assert (∀ l, Forall (λ kx, wf_item kx.2) l → StronglySorted bytes_lt (walk_children p l).*1 →
            closer key p l = (k, y) :: rest →
            ∃ passed, l = passed ++ (k, y) :: rest ∧ before key (walk_children p passed)
              ∧ from_key key (walk_children p rest)) as Hcl.
  { induction l as [|[k1 x1] l IH]; intros Hw Hs Hc; [done|]. apply Forall_cons in Hw as [Hx1 Hw]. simpl in Hc.
    destruct l as [|[k2 x2] l].
    - injection Hc as -> -> <-. exists []. split_and!; [done|constructor..].
    - apply Forall_cons in Hw as Hw'. destruct Hw' as [Hx2 _]. destruct (Hhd k2 x2 Hx2) as (l2 & E2).
      rewrite walk_children_cons in Hs. destruct (bytes_le key (p ++ k2)) eqn:Hle.
      + injection Hc as -> -> <-. exists []. split_and!; [done|constructor|].
        rewrite walk_children_cons, E2 in *. simpl. eapply sorted_from; [|done].
        rewrite fmap_app in Hs. by apply StronglySorted_app_1_r in Hs.
      + destruct IH as (passed & -> & Hb & Hf); try done.
        { rewrite fmap_app in Hs. by apply StronglySorted_app_1_r in Hs. }
        exists ((k1, x1) :: passed). split_and!; [done| |done]. rewrite walk_children_cons.
        apply Forall_app. split; [|done]. rewrite walk_children_cons, E2 in Hs. simpl in Hs.
        eapply sorted_before; [exact Hs|]. by apply not_le_lt. }
  intros Hw Hs Hsk. destruct rem as [|[k1 x1] rem]; [done|]. simpl in Hsk.
  destruct (bytes_le key (p ++ k1)) eqn:Hle.
  - injection Hsk as -> -> ->. exists []. split_and!; [done|constructor|]. intros Hlt.
    apply bytes_le_lt in Hle as [->|Hle]; by destruct (irreflexivity bytes_lt (p ++ k)); try etrans.
  - destruct (Hcl _ Hw Hs Hsk) as (passed & E & Hb & Hf). exists passed. by split_and!.
Qed.

(** ** The loop *)

Section seek.
Context `{RlpOps, CryptoOps, !RlpLaws, !CryptoLaws}.
Context (full : bool) (rd : trieReader) (Hrd : decodes rd).
Context (schedule : list nat) (Hsch : schedule ≡ₚ seq 0 16).
Context (m : gmap bytes bytes) (Hroot : m ≠ ∅ → map_root m ≠ EmptyRootHash).
Context (key : bytes).

Abbreviation iterates := (iterates full rd m).
Abbreviation root_walk := (root_walk m).

(** A split of the walk: what is passed is before the key, what comes after the
    current node's subtree is from the key on. *)
Definition cut (below after : list (bytes * item)) : Prop :=
  ∃ passed, root_walk = passed ++ below ++ after ∧ before key passed ∧ from_key key after.

(** On the way to the key: the current node leads to it, or what is below the
    node is before it. *)
Inductive seeking (it : nodeIterator) : Prop :=
| seeking_start :
    reads_from rd it → it_stack it = [] → it_path it = [] →
    holds_map full false m (it_trie it) → m ≠ ∅ → seeking it
| seeking_at root s stk p k x after :
    reads_from rd it → it_stack it = s :: stk → it_path it = p ++ k →
    frame full rd root s stk p k x → stands full rd stk p after →
    p `prefix_of` key →
    p ++ k `prefix_of` key ∨ before key (walk_children (p ++ k) (remaining s x)) →
    cut (walk_children (p ++ k) (remaining s x)) after → seeking it.

(** At the key: everything before it is behind, nothing from it on. *)
Definition sought (it : nodeIterator) : Prop :=
  ∃ passed below after, iterates (set_err None it) below after
    ∧ root_walk = passed ++ below ++ after ∧ before key passed ∧ from_key key (below ++ after).

(** Turns left. *)
Definition turns (it : nodeIterator) : nat :=
  match it_stack it with
  | [] => length key + 3
  | _ => if bool_decide (it_path it `prefix_of` key) then length key - length (it_path it) + 2 else 1
  end.

Context (Hok : map_ok m).

Lemma root_walk_sorted : StronglySorted bytes_lt root_walk.*1.
Proof.
  unfold IteratorSpec.root_walk. destruct (tree_of_models m Hok) as [Hw _].
  destruct (tree_of m) as [t|]; [by apply walk_sorted|constructor].
Qed.

(** The outcome of a turn of the loop. *)
Definition sought_or (it' : nodeIterator) (r : peeked) (P : Prop) : Prop :=
  match r with
  | inr errIteratorEnd => before key root_walk ∧ reads_from rd it'
  | inr (nodeError e) => full = false ∧ missing e ∧ seeking it'
  | inr (seekError _ _) => False
  | inl (_, _, path) => if bytes_le key path then sought it' else P
  end.

(** A child was found with everything before it passed. *)
Lemma sought_arrives it par stk p k y rest pend passed r :
  reads_from rd it → arrives full rd par stk p k y rest pend r →
  root_walk = passed ++ walk_children p ((k, y) :: rest) ++ pend → before key passed →
  from_key key pend → p `prefix_of` key →
  (bytes_lt (p ++ k) key → from_key key (walk_children p rest)) →
  let it' := set_pos (par :: stk) p it in
  sought_or it' r
    (∃ st, r = inl (st, true, p ++ k) ∧ seeking (push st true (p ++ k) it')
       ∧ (turns (push st true (p ++ k) it') < length key - length p + 2)).
Proof.
  intros Hit [(Hw & Hne & Hp) (root & p0 & k0 & x & -> & Hfr & Hrem & Hst) Hto] Hwalk Hb Hpend Hpre Hrest it'.
  set (p := p0 ++ k0) in *.
  assert (reads_from rd it') as Hit' by exact Hit.
  assert (cut (walk_children p (remaining par x)) pend) as Hcut by (rewrite Hrem; by exists passed).
  destruct Hto as [(st & -> & Hat & Hidx & Hlen & Hto)|(Hf & e & He & ->)]; cbn [sought_or].
  - destruct (bytes_le key (p ++ k)) eqn:Hle.
    + exists passed, (walk_children p (remaining par x)), pend. split_and!; [|by rewrite Hrem|done|].
      * eapply iterates_at; [done|reflexivity|done|by eapply stands_cons|].
        simpl. destruct Hfr. unfold p. by rewrite frame_len, take_app_length.
      * rewrite Hrem, walk_children_cons, walk_item_wf by done. simpl. eapply sorted_from; [|done].
        pose proof root_walk_sorted as Hs. rewrite Hwalk, fmap_app in Hs.
        apply StronglySorted_app_1_r in Hs. rewrite walk_children_cons, walk_item_wf in Hs by done.
        exact Hs.
    + apply not_le_lt in Hle as Hlt.
      exists st. split; [done|]. split.
      * eapply (seeking_at _ false st _ p k y); [done|reflexivity|done| |exact Hto|done| |].
        -- split; try done. rewrite Hidx. lia.
        -- rewrite remaining_fresh by done. destruct (decide (p ++ k `prefix_of` key)) as [|Hnp]; [by left|right].
           apply Forall_forall. intros [q z] Hq. simpl.
           destruct (walk_children_prefix _ _ _ _ (λ k x Hx, proj1 (children_ok y k x Hw Hx)) Hq) as (k' & x' & _ & [q' ->]).
           rewrite <- app_assoc. by apply before_subtree.
        -- rewrite remaining_fresh by done. exists (passed ++ [(p ++ k, y)]).
           rewrite Hwalk, walk_children_cons, walk_item_wf by done. rewrite <- !app_assoc. simpl.
           split_and!; [done|apply Forall_app; split; [done|by repeat constructor]|]. apply Forall_app. split; [by apply Hrest|done].
      * unfold turns. cbn [it_stack it_path push set_pos]. case_bool_decide as Hpk; [|lia].
        apply prefix_length in Hpk. rewrite length_app in *. destruct k; [done|]. simpl in *. lia.
  - split_and!; [done..|]. eapply (seeking_at _ root par stk p0 k0 x pend); try done; [|by left].
    etrans; [|exact Hpre]. by apply prefix_app_r.
Qed.

Lemma prefix_not_after p k : p `prefix_of` k → bytes_le k p = true → p = k.
Proof.
  intros Hp Hle. by apply bytes_le_antisym, Hle; apply bytes_le_prefix.
Qed.

(** Climbing past the current node: what comes is from the key on. *)
Lemma climb_after it stk p after passed :
  reads_from rd it → stands full rd stk p after → root_walk = passed ++ after →
  before key passed → from_key key after → p `prefix_of` key →
  ∃ it' r, climb (nextChildAt key) it stk p = (it', Ok r) ∧ sought_or it' r False.
Proof.
  intros Hit Hst Hwalk Hb Hfrom Hpre.
  destruct (climb_spec full rd Hrd (nextChildAt key) (skip_to key) it stk p after Hit
    (nextChildAt_finds full rd key) Hst)
    as [[-> ->]|(p' & rem & pend0 & par & stk' & k & y & rest & r & -> & Hsk & Hwf & Hp' & -> & Ha)].
  - eexists _, _. split; [reflexivity|]. split; [|done]. by rewrite Hwalk, app_nil_r.
  - eexists _, r. split; [reflexivity|].
    pose proof root_walk_sorted as Hs. rewrite Hwalk, fmap_app in Hs. apply StronglySorted_app_1_r in Hs.
    rewrite fmap_app in Hs. apply StronglySorted_app_1_l in Hs.
    destruct (skip_to_spec key p' rem k y rest Hwf Hs Hsk) as (psd & -> & Hpsd & Hrest).
    rewrite walk_children_app in *. apply Forall_app in Hfrom as [Hfrom Hpend].
    apply Forall_app in Hfrom as [Hfp Hfrom].
    assert (bytes_le key (p' ++ k) = true) as Hle.
    { destruct Ha as [(Hw & _) _ _]. rewrite walk_children_cons, walk_item_wf in Hfrom by done.
      by apply Forall_cons in Hfrom as [? _]. }
    pose proof (sought_arrives it par stk' p' k y rest pend0 (passed ++ walk_children p' psd) r Hit Ha) as Hso.
    specialize (Hso ltac:(by rewrite Hwalk, <- !app_assoc) ltac:(by apply Forall_app) Hpend (transitivity Hp' Hpre) Hrest).
    unfold sought_or in *. destruct r as [[[st hp] q]|[]]; try done.
    destruct (bytes_le key q) eqn:E; [done|]. destruct Hso as (st' & [= -> -> ->] & _). congruence.
Qed.

Lemma peekSeek_spec it :
  seeking it →
  ∃ it' r, peekSeek schedule key it = (it', Ok r)
    ∧ sought_or it' r (∃ st hp path, r = inl (st, hp, path) ∧ seeking (push st hp path it')
        ∧ turns (push st hp path it') < turns it).
Proof.
  intros [Hit Hst Hpath Hm Hne|root s stk p k x after Hit Hstk Hpath Hfr Hstd Hpar Hpre Hcut].
  - destruct (init_spec full rd Hrd schedule Hsch m Hroot it false Hit Hm Hne)
      as (t & T & r & Ht & Hw & E & Hm' & Hr & Hto).
    unfold peekSeek, peek_with. rewrite Hst, E. eexists _, r. split; [reflexivity|].
    assert (reads_from rd (set_trie T it)) as HitT by (destruct Hit; by split).
    assert (root_walk = ([], INode t) :: walk_children [] (children (INode t))) as Hwalk.
    { unfold IteratorSpec.root_walk. rewrite Ht. by apply (walk_item_wf [] (INode t)). }
    assert (holds_map full false m T) as HmT by by eapply holds_map_weaken.
    destruct Hto as [(st & -> & Hat & Hidx & Hlen)|(Hf & e & He & ->)]; cbn [sought_or].
    + destruct (bytes_le key []) eqn:Hle.
      * exists [], [], root_walk. split_and!; [by apply iterates_start|done|constructor|].
        rewrite app_nil_l, Hwalk. eapply sorted_from; [|done]. rewrite <- Hwalk. apply root_walk_sorted.
      * eexists _, _, _. split; [reflexivity|].
        assert (frame full rd true st [] [] [] (INode t)) as Hfr by (split; try done; [lia|constructor]).
        split.
        -- apply (seeking_at _ true st [] [] [] (INode t) []); try done.
           ++ unfold push. cbn [it_stack set_trie]. by rewrite Hst.
           ++ constructor.
           ++ apply prefix_nil.
           ++ left. apply prefix_nil.
           ++ exists [([], INode t)]. rewrite remaining_fresh, app_nil_r by done. split_and!; [done| |constructor].
              repeat constructor. by apply not_le_lt.
        -- unfold turns, push. cbn [it_stack set_trie]. rewrite Hst. cbn [it_stack it_path set_pos].
           rewrite bool_decide_true by apply prefix_nil. simpl. lia.
    + split_and!; [done..|]. by apply seeking_start.
  - destruct Hcut as (passed & Hwalk & Hb & Hafter). pose proof Hfr as [_ Hw Hat Hlen Hi _].
    unfold peekSeek, peek_with. rewrite Hstk. case_bool_decide as Hpk; rewrite Hpath in Hpk.
    + rewrite Hstk, Hpath.
      destruct (skip_to key (p ++ k) (remaining s x)) as [|[k' y] rest] eqn:Hsk.
      * pose proof (nextChildAt_finds full rd key root (p ++ k) s x
          (if bool_decide (is_hash s = zeroHash) then is_parent s else is_hash s) Hat Hw Hi) as Hf.
        unfold found in Hf. rewrite Hsk in Hf. destruct Hf as [Hrem Hf].
        destruct (climb_after it stk p after passed Hit Hstd) as (it' & r & E & Hso); try done.
        { by rewrite Hwalk, Hrem. }
        exists it', r. simpl. rewrite Hf, Hlen, take_app_length. split; [done|].
        unfold sought_or in *. destruct r as [[[st hp] q]|[]]; try done. by destruct (bytes_le key q).
      * destruct (climb_here full rd Hrd _ _ it root s stk p k x after k' y rest Hit
          (nextChildAt_finds full rd key) Hstd Hfr Hsk) as (par & r & E & Ha).
        eexists _, r. split; [exact E|].
        pose proof root_walk_sorted as Hs. rewrite Hwalk, fmap_app in Hs. apply StronglySorted_app_1_r in Hs.
        rewrite fmap_app in Hs. apply StronglySorted_app_1_l in Hs.
        destruct (skip_to_spec key (p ++ k) _ k' y rest (remaining_wf _ _ Hw Hi) Hs Hsk) as (psd & Er & Hpsd & Hrest).
        rewrite Er, walk_children_app in Hwalk.
        pose proof (sought_arrives it par stk (p ++ k) k' y rest after (passed ++ walk_children (p ++ k) psd) r
          Hit Ha) as Hso.
        specialize (Hso ltac:(by rewrite Hwalk, <- !app_assoc) ltac:(by apply Forall_app) Hafter Hpk Hrest).
        unfold sought_or in *. destruct r as [[[st hp] q]|[]]; try done.
        destruct (bytes_le key q) eqn:Eq; [done|]. destruct Hso as (st' & [= -> -> ->] & Hseek & Ht).
        eexists _, _, _. split; [reflexivity|]. split; [done|]. unfold turns at 2. rewrite Hstk, Hpath.
        rewrite bool_decide_true by done. exact Ht.
    + destruct Hpre as [?|Hbelow]; [done|]. unfold pop. rewrite Hstk. cbn [it_stack it_path set_pos].
      rewrite Hpath, Hlen, take_app_length.
      destruct (climb_after (set_pos stk p it) stk p after (passed ++ walk_children (p ++ k) (remaining s x)))
        as (it' & r & E & Hso); try done.
      { by rewrite Hwalk, <- app_assoc. }
      { by apply Forall_app. }
      exists it', r. split; [done|]. unfold sought_or in *. destruct r as [[[st hp] q]|[]]; try done.
      by destruct (bytes_le key q).
Qed.

Lemma seekLoop_spec prefix fuel : ∀ it,
  seeking it → turns it ≤ fuel →
  ∃ it' e, seekLoop schedule fuel prefix key it = (it', Ok e)
    ∧ match e with
      | None => sought it'
      | Some errIteratorEnd => before key root_walk ∧ reads_from rd it'
      | Some (seekError p e) => p = prefix ∧ full = false ∧ missing e ∧ seeking it'
      | Some (nodeError _) => False
      end.
Proof.
  induction fuel as [|fuel IH]; intros it Hs Hf.
  { unfold turns in Hf. destruct (it_stack it); [lia|]. case_bool_decide; lia. }
  destruct (peekSeek_spec it Hs) as (it' & r & E & Hso). cbn [seekLoop].
  rewrite (bind_step _ _ _ _ _ E). destruct r as [[[st hp] path]|[|? ?|e]]; cbn [sought_or] in Hso.
  - destruct (bytes_le key path); [by exists it', None|].
    destruct Hso as (? & ? & ? & [= <- <- <-] & Hseek & Ht). unfold modify. mred. apply IH; [done|lia].
  - by eexists _, _.
  - done.
  - eexists _, _. split; [reflexivity|]. by destruct Hso as (? & ? & ?).
Qed.
End seek.

(** ** The theorems *)

Section theorems.
Context `{RlpOps, CryptoOps, !RlpLaws, !CryptoLaws}.
Context (full : bool) (rd : trieReader) (Hrd : decodes rd).
Context (schedule : list nat) (Hsch : schedule ≡ₚ seq 0 16).
Context (m : gmap bytes bytes) (Hroot : m ≠ ∅ → map_root m ≠ EmptyRootHash).

(** The part of the walk from a start key on. *)
Definition walk_from (start : bytes) : list (bytes * item) :=
  filter (λ qy, bytes_le (nibbles_of start) qy.1 = true) (root_walk m).

Lemma walk_from_split start passed l :
  root_walk m = passed ++ l → before (nibbles_of start) passed → from_key (nibbles_of start) l →
  walk_from start = l.
Proof.
  intros E Hb Hl. unfold walk_from. rewrite E, filter_app, list_filter_none, list_filter_all; [done..|].
  eapply Forall_impl; [exact Hb|]. intros [q y] Hlt Hle. simpl in *.
  apply (irreflexivity bytes_lt q). by eapply lt_le_trans.
Qed.

Lemma seek_key prefix :
  seek schedule prefix = seekLoop schedule (length (nibbles_of prefix) + 3) prefix (nibbles_of prefix).
Proof.
  unfold seek. rewrite keybytesToHex_nibbles, length_app. simpl. by rewrite Nat.add_sub, take_app_length.
Qed.

(** What an iterator that was started delivers: the nodes to come, or, when the
    start key could not be reached yet, those from it on. *)
Inductive delivers (start : bytes) (it : nodeIterator) (l : list (bytes * item)) : Prop :=
| delivers_next below after : iterates full rd m it below after → l = below ++ after → delivers start it l
| delivers_seek e :
    it_err it = Some (seekError start e) → full = false → missing e →
    seeking full rd m (nibbles_of start) it → l = walk_from start → delivers start it l.

Lemma sought_delivers start it :
  sought full rd m (nibbles_of start) it →
  ∃ below after, iterates full rd m (set_err None it) below after ∧ walk_from start = below ++ after.
Proof.
  intros (passed & below & after & Hi & E & Hb & Hl). exists below, after. split; [done|].
  by eapply walk_from_split.
Qed.

Lemma walk_from_end start : before (nibbles_of start) (root_walk m) → walk_from start = [].
Proof. intros Hb. apply (walk_from_split start (root_walk m)); [by rewrite app_nil_r|done|constructor]. Qed.

(** A seek from where an iterator is. *)
Lemma seek_delivers start it :
  map_ok m → seeking full rd m (nibbles_of start) it →
  ∃ it' e, seek schedule start it = (it', Ok e)
    ∧ match e with
      | None => ∃ below after, iterates full rd m (set_err None it') below after ∧ walk_from start = below ++ after
      | Some errIteratorEnd => walk_from start = [] ∧ reads_from rd it'
      | Some (seekError p e) => p = start ∧ full = false ∧ missing e ∧ seeking full rd m (nibbles_of start) it'
      | Some (nodeError _) => False
      end.
Proof.
  intros Hok Hs.
  destruct (seekLoop_spec full rd Hrd schedule Hsch m Hroot (nibbles_of start) Hok start
    (length (nibbles_of start) + 3) it Hs) as (it' & e & E & He).
  { unfold turns. destruct (it_stack it); [lia|]. case_bool_decide; lia. }
  exists it', e. rewrite seek_key. split; [done|]. destruct e as [[]|]; try done.
  - destruct He as [Hb ?]. split; [by apply walk_from_end|done].
  - by apply sought_delivers.
Qed.

Lemma NodeIterator_lemma hs start T :
  t_reader T = rd → holds_map full hs m T →
  ∃ T' it, NodeIterator schedule start T = (T', Ok it) ∧ delivers start it (walk_from start)
    ∧ (it_Error it = None ∨ (full = false ∧ ∃ e, it_Error it = Some e ∧ missing e)).
Proof.
  intros Hr Hm. destruct (Trie_Hash_lemma full hs m T schedule Hsch Hm) as (E & Hm' & Hr').
  unfold NodeIterator, newNodeIterator. destruct (Trie_Hash schedule T) as [T1 r]. simpl in *. subst r.
  set (it0 := MkNodeIterator T1 [] [] None None).
  assert (reads_from rd it0) as Hit0 by (split; [simpl; congruence|done]).
  destruct (decide (m = ∅)) as [Hne|Hne].
  - rewrite bool_decide_true by by rewrite Hne. eexists _, _. split; [reflexivity|].
    split; [|by left]. eapply delivers_next; [by apply iterates_end|].
    unfold walk_from, root_walk. by rewrite Hne.
  - rewrite bool_decide_false by auto.
    assert (holds_map full false m T1) as HmT by by eapply holds_map_weaken.
    destruct (seek_delivers start it0) as (it & e & Es & He).
    { by eapply holds_map_ok. }
    { by apply seeking_start. }
    rewrite Es. eexists _, _. split; [reflexivity|]. destruct e as [[|p e|e]|].
    + destruct He as [E' Hit]. split; [|by left]. eapply delivers_next; [by apply iterates_end|]. by rewrite E'.
    + destruct He as (-> & Hf & He & Hs). split; [|right; split; [done|by exists e]].
      eapply delivers_seek; try done. by destruct Hs; econstructor.
    + done.
    + destruct He as (below & after & Hi & E'). split; [|by left]. by eapply delivers_next.
Qed.

Lemma Next_lemma it below after descend :
  iterates full rd m it below after →
  ∃ it' r, it_Next schedule descend it = (it', Ok r)
    ∧ moved full rd m it' r (if descend then below ++ after else after).
Proof.
  intros Hi. destruct (it_err it) as [[|k e|e]|] eqn:Ee.
  - assert (below = [] ∧ after = []) as [-> ->].
    { destruct Hi as [? ? ? Hidle|? ? ? ? ? ? Hidle|]; try done; by rewrite Ee in Hidle. }
    unfold it_Next. rewrite Ee. exists it, false. split; [done|]. by destruct descend.
  - destruct Hi as [? ? ? Hidle|? ? ? ? ? ? Hidle|]; [by rewrite Ee in Hidle..|congruence].
  - unfold it_Next. rewrite Ee. apply advance_spec; [done..|]. by rewrite Ee.
  - unfold it_Next. rewrite Ee. apply advance_spec; [done..|]. by rewrite Ee.
Qed.

Lemma walk_from_sorted start : map_ok m → StronglySorted bytes_lt (walk_from start).*1.
Proof.
  intros Hok. pose proof (root_walk_sorted m Hok) as Hs. unfold walk_from. revert Hs.
  induction (root_walk m) as [|[q y] l IH]; intros Hs; [constructor|]. rewrite fmap_cons in Hs.
  apply StronglySorted_inv in Hs as [Hs Hq]. rewrite filter_cons. case_decide; [|by apply IH].
  rewrite fmap_cons. constructor; [by apply IH|]. rewrite !Forall_fmap in *.
  apply Forall_forall. intros x [_ Hx]%list_elem_of_filter. rewrite Forall_forall in Hq. by apply Hq.
Qed.
End theorems.
