(* ===== verification/Entries.v ===== *)
(** * The entries an [Iterator] goes through

    The key-value iterator over a trie with all its nodes at hand: the entries
    of the map from the start key on, in the order of their hex keys, each once. *)
From stdpp Require Import sorting.
From S2P Require Import Prelude Errors Geth Encoding Node Mpt MptFacts Tracer Reader.
From S2P Require Import Trie Repr Refine Hasher TrieSpec NodeSet Committer Database Persist.
From S2P Require Import Iterator Walk IteratorSpec Seek.
Local Open Scope nat_scope.

(** The loop of a client: [for it.Next() { ... it.Key, it.Value ... }], then
    [it.Err]. *)
Fixpoint collect {I} `{!IterOps I} (fuel rounds : nat) (it : Iterator I)
    : result (list (bytes * bytes) * option error) :=
  match rounds with
  | O => OutOfFuel
  | S rounds =>
      match Iterator_Next fuel it with
      | (it, Ok true) =>
          match Key it, Value it with
          | Some k, Some v => '(l, e) ← collect fuel rounds it; Ok ((k, v) :: l, e)
          | _, _ => Panic "no key"
          end
      | (it, Ok false) => Ok ([], Err_ it)
      | (_, Err e) => Err e
      | (_, Panic w) => Panic w
      | (_, OutOfFuel) => OutOfFuel
      end
  end.

Section entries.
Context `{RlpOps, CryptoOps, !RlpLaws, !CryptoLaws}.
Context (rd : trieReader) (Hrd : decodes rd).
Context (schedule : list nat) (Hsch : schedule ≡ₚ seq 0 16).
Context (m : gmap bytes bytes) (Hroot : m ≠ ∅ → map_root m ≠ EmptyRootHash).

Definition entry_of (qy : bytes * item) : option (bytes * bytes) :=
  match qy.2, @hexToKeyBytes error qy.1 with
  | IVal v, Ok k => Some (k, v)
  | _, _ => None
  end.

(** The values of the walk are the entries of the map. *)
Lemma root_walk_value q v :
  map_ok m → (q, IVal v) ∈ root_walk m ↔ ∃ k, m !! k = Some v ∧ q = keybytesToHex k.
Proof.
  intros Hok. destruct (tree_of_models m Hok) as [Hw (Hget & Hpath & Hb)]. unfold root_walk.
  setoid_rewrite keybytesToHex_nibbles. destruct (tree_of m) as [t|]; simpl.
  - rewrite walk_value by done. split.
    + intros (p & Hp & -> & Hv). destruct (Hpath p Hp) as (k & Hk & ->); [by eexists|].
      exists k. rewrite <- Hget by done. done.
    + intros (k & Hk & ->). assert (Forall is_byte k) as Hkb by (apply Hb; by eexists).
      exists (nibbles_of k). split_and!; [by apply nibbles_of_ok|done|]. by rewrite <- Hget in Hk.
  - split; [by intros ?%not_elem_of_nil|]. intros (k & Hk & _).
    rewrite <- Hget in Hk; [done|]. apply Hb. by eexists.
Qed.

Lemma entry_of_key k v : Forall is_byte k → entry_of (keybytesToHex k, IVal v) = Some (k, v).
Proof. intros Hk. unfold entry_of. simpl. by rewrite hexToKeyBytes_key. Qed.

(** What can be asked of an iterator at a node. *)
Lemma visits_access full it q y :
  visits full rd it q y →
  it_Path it = q ∧ it_Error it = None ∧ it_Hash it = item_hash (bool_decide (q = [])) y
  ∧ it_Leaf it = (match y with IVal _ => true | INode _ => false end)
  ∧ (∀ v, y = IVal v → it_LeafKey it = hexToKeyBytes q ∧ it_LeafBlob it = Ok v).
Proof.
  intros [Hp He [Hw Hpo] (s & stk & Hs & Hat & _ & Hh)].
  unfold it_Path, it_Error, it_Hash, it_Leaf, it_LeafKey, it_LeafBlob. rewrite Hp, He, Hs.
  split_and!; [done|done|done| |].
  - destruct y; simpl in Hpo; [by apply path_ok_no_term|]. destruct Hpo as (p & _ & ->).
    by rewrite hasTerm_snoc, bool_decide_true.
  - intros v ->. simpl in *. by rewrite Hat.
Qed.

(** One step of the key-value iterator. *)
Lemma Iterator_Next_full fuel : ∀ it below after k0 v0 e0,
  map_ok m → iterates true rd m it below after →
  (∀ x, x ∈ below ++ after → x ∈ root_walk m) → length (below ++ after) < fuel →
  ∃ it', match omap entry_of (below ++ after) with
         | [] => Iterator_Next (IterOps0 := node_iter_ops schedule) fuel (MkIterator it k0 v0 e0)
                 = (MkIterator it' None None None, Ok false)
         | (k, v) :: rest => ∃ below' after',
             Iterator_Next (IterOps0 := node_iter_ops schedule) fuel (MkIterator it k0 v0 e0)
             = (MkIterator it' (Some k) (Some v) e0, Ok true)
             ∧ iterates true rd m it' below' after' ∧ omap entry_of (below' ++ after') = rest
             ∧ (∀ x, x ∈ below' ++ after' → x ∈ root_walk m)
             ∧ length (below' ++ after') < fuel
         end.
Proof.
  induction fuel as [|fuel IH]; intros it below after k0 v0 e0 Hok Hi Hin Hlen; [lia|].
  destruct (Next_lemma true rd Hrd schedule Hsch m Hroot it below after true Hi) as (it1 & r & E & Hmv).
  cbn [Iterator_Next nodeIt ni_Next node_iter_ops]. rewrite E. simpl in Hmv.
  destruct (below ++ after) as [|[q y] rest].
  - destruct Hmv as (-> & He & _). exists it1. simpl. unfold it_Error. by rewrite He.
  - destruct Hmv as [(-> & Hv & after' & -> & Hi')|(_ & ? & _)]; [|done].
    destruct (visits_access true it1 q y Hv) as (_ & _ & _ & Hleaf & Hval).
    cbn [ni_Leaf ni_LeafKey ni_LeafBlob node_iter_ops]. rewrite Hleaf.
    set (rest := walk_children q (children y) ++ after') in *.
    assert (∀ x, x ∈ rest → x ∈ root_walk m) as Hin' by (intros x Hx; apply Hin; by right).
    simpl in Hlen. destruct y as [t|v].
    + destruct (IH it1 (walk_children q (children (INode t))) after' k0 v0 e0 Hok Hi' Hin')
        as (it' & Hit'); [unfold rest in Hlen; lia|]. exists it'. fold rest in Hit'.
      change (omap entry_of ((q, INode t) :: rest)) with (omap entry_of rest).
      destruct (omap entry_of rest) as [|[k v] rest']; [done|].
      destruct Hit' as (b & a & ? & ? & ? & ? & ?). exists b, a. split_and!; try done. lia.
    + destruct (Hval v eq_refl) as [-> ->]. destruct (root_walk_value q v Hok) as [Hk _].
      destruct Hk as (k & Hk & ->); [apply Hin; by left|].
      assert (Forall is_byte k) as Hkb by by destruct (Hok k v Hk).
      exists it1. rewrite hexToKeyBytes_key by done.
      change (omap entry_of ((keybytesToHex k, IVal v) :: rest))
        with (match entry_of (keybytesToHex k, IVal v) with Some x => x :: omap entry_of rest | None => omap entry_of rest end).
      rewrite entry_of_key by done.
      eexists _, _. split; [reflexivity|]. split_and!; [exact Hi'|done|done|unfold rest in Hlen; lia].
Qed.

Lemma collect_full fuel rounds : ∀ it below after k0 v0,
  map_ok m → iterates true rd m it below after →
  (∀ x, x ∈ below ++ after → x ∈ root_walk m) → length (below ++ after) < fuel →
  length (omap entry_of (below ++ after)) < rounds →
  collect (IterOps0 := node_iter_ops schedule) fuel rounds (MkIterator it k0 v0 None)
  = Ok (omap entry_of (below ++ after), None).
Proof.
  induction rounds as [|rounds IH]; intros it below after k0 v0 Hok Hi Hin Hlen Hr; [lia|].
  destruct (Iterator_Next_full fuel it below after k0 v0 None Hok Hi Hin Hlen) as (it' & Hn).
  cbn [collect]. destruct (omap entry_of (below ++ after)) as [|[k v] rest]; [by rewrite Hn|].
  destruct Hn as (b & a & -> & Hi' & <- & Hin' & Hlen'). cbn [Key Value]. simpl in Hr.
  rewrite (IH it' b a) by (done || lia). done.
Qed.

(** The order of the walk: that of the hex keys. *)
Definition key_order (kv kv' : bytes * bytes) : Prop :=
  bytes_lt (keybytesToHex kv.1) (keybytesToHex kv'.1).

Lemma omap_entries_sorted l :
  map_ok m → (∀ x, x ∈ l → x ∈ root_walk m) → StronglySorted bytes_lt l.*1 →
  StronglySorted key_order (omap entry_of l).
Proof.
  intros Hok Hin. induction l as [|[q y] l IH]; intros Hs; [constructor|]. rewrite fmap_cons in Hs.
  apply StronglySorted_inv in Hs as [Hs Hq].
  assert (∀ x, x ∈ l → x ∈ root_walk m) as Hin' by (intros x Hx; apply Hin; by right).
  destruct y as [t|v]; [by apply IH|].
  destruct (root_walk_value q v Hok) as [Hk _]. destruct Hk as (k & Hk & ->); [apply Hin; by left|].
  assert (Forall is_byte k) as Hkb by by destruct (Hok k v Hk).
  change (omap entry_of ((keybytesToHex k, IVal v) :: l))
    with (match entry_of (keybytesToHex k, IVal v) with Some x => x :: omap entry_of l | None => omap entry_of l end).
  rewrite entry_of_key by done. constructor; [by apply IH|]. apply Forall_forall. intros [k' v'] Hin2.
  apply list_elem_of_omap in Hin2 as ([q' y'] & Hq' & He'). unfold entry_of in He'. simpl in He'.
  destruct y' as [|w]; [done|]. destruct (root_walk_value q' w Hok) as [Hk' _].
  destruct Hk' as (k2 & Hk2 & ->); [by apply Hin'|].
  assert (Forall is_byte k2) as Hkb2 by by destruct (Hok k2 w Hk2).
  rewrite hexToKeyBytes_key in He' by done. injection He' as <- <-. unfold key_order. simpl.
  rewrite Forall_fmap, Forall_forall in Hq. by apply (Hq _ Hq').
Qed.

Lemma omap_entries_elem start k v :
  map_ok m → (k, v) ∈ omap entry_of (walk_from m start)
  ↔ m !! k = Some v ∧ bytes_le (nibbles_of start) (keybytesToHex k) = true.
Proof.
  intros Hok. rewrite list_elem_of_omap. unfold walk_from. split.
  - intros ([q y] & [Hle Hin]%list_elem_of_filter & He). unfold entry_of in He. simpl in He.
    destruct y as [|w]; [done|]. destruct (root_walk_value q w Hok) as [Hk _].
    destruct (Hk Hin) as (k2 & Hk2 & ->). assert (Forall is_byte k2) as Hkb2 by by destruct (Hok k2 w Hk2).
    rewrite hexToKeyBytes_key in He by done. by injection He as <- <-.
  - intros [Hk Hle]. exists (keybytesToHex k, IVal v). rewrite list_elem_of_filter. split_and!; [done| |].
    + apply root_walk_value; [done|by exists k].
    + apply entry_of_key. by destruct (Hok k v Hk).
Qed.

Lemma key_order_nodup l : StronglySorted key_order l → NoDup l.
Proof.
  induction 1 as [|kv l Hs IH Hf]; constructor; [|done]. intros Hin. rewrite Forall_forall in Hf.
  by destruct (irreflexivity bytes_lt (keybytesToHex kv.1)); apply Hf.
Qed.

Lemma Iterator_lemma hs start T :
  t_reader T = rd → holds_map true hs m T →
  ∃ T' it l, NodeIterator schedule start T = (T', Ok it)
    ∧ (∀ fuel rounds, length (root_walk m) < fuel → size m < rounds →
         collect (IterOps0 := node_iter_ops schedule) fuel rounds (NewIterator it) = Ok (l, None))
    ∧ l ≡ₚ map_to_list (filter (λ kv, bytes_le (nibbles_of start) (keybytesToHex kv.1) = true) m)
    ∧ StronglySorted key_order l.
Proof.
  intros Hr Hm. assert (map_ok m) as Hok by by eapply holds_map_ok.
  destruct (NodeIterator_lemma true rd Hrd schedule Hsch m Hroot hs start T Hr Hm) as (T' & it & E & Hd & _).
  destruct Hd as [below after Hi Hl|]; [|done].
  assert (∀ x, x ∈ below ++ after → x ∈ root_walk m) as Hin.
  { intros x. rewrite <- Hl. unfold walk_from. by intros [_ ?]%list_elem_of_filter. }
  assert (StronglySorted bytes_lt (below ++ after).*1) as Hs.
  { rewrite <- Hl. apply walk_from_sorted. apply Hok. }
  assert (StronglySorted key_order (omap entry_of (below ++ after))) as Hko by by apply omap_entries_sorted.
  assert (omap entry_of (below ++ after)
          ≡ₚ map_to_list (filter (λ kv, bytes_le (nibbles_of start) (keybytesToHex kv.1) = true) m)) as Hp.
  { apply NoDup_Permutation; [by apply key_order_nodup|apply NoDup_map_to_list|]. intros [k v].
    rewrite <- Hl, omap_entries_elem, elem_of_map_to_list, map_lookup_filter_Some by done. tauto. }
  exists T', it, (omap entry_of (below ++ after)). split_and!; try done.
  intros fuel rounds Hf Hrd'. apply (collect_full fuel rounds it below after None None); try done.
  - rewrite <- Hl. eapply Nat.le_lt_trans; [apply length_filter|done].
  - eapply Nat.le_lt_trans; [|exact Hrd']. rewrite Hp, length_map_to_list. apply map_size_filter.
Qed.

(** C7: going through a trie that holds [m] with an [Iterator] ends after finitely
    many steps without an error and delivers exactly the entries of [m] whose hex
    key is not before the start key, each once, in the order of their hex keys.
    The entry at the start key itself is delivered, whereas the comments of the
    [NodeIterator] methods (trie.go, secure_trie.go, database.go) say that the
    iteration starts at the key after it. *)
Theorem Iterator_correct hs start T :
  t_reader T = rd → holds_map true hs m T →
  ∃ T' it l, NodeIterator schedule start T = (T', Ok it)
    ∧ (∀ fuel rounds, length (root_walk m) < fuel → size m < rounds →
         collect (IterOps0 := node_iter_ops schedule) fuel rounds (NewIterator it) = Ok (l, None))
    ∧ l ≡ₚ map_to_list (filter (λ kv, bytes_le (nibbles_of start) (keybytesToHex kv.1) = true) m)
    ∧ StronglySorted key_order l.
Proof. apply Iterator_lemma. Qed.
End entries.

Section next.
Context `{RlpOps, CryptoOps, !RlpLaws, !CryptoLaws}.
Context (full : bool) (rd : trieReader) (Hrd : decodes rd).
Context (schedule : list nat) (Hsch : schedule ≡ₚ seq 0 16).
Context (m : gmap bytes bytes) (Hroot : m ≠ ∅ → map_root m ≠ EmptyRootHash).

(** C14: [NodeIterator] on a trie that holds [m] positions the iterator before
    the first node from the start key on, the start key included (the comment of
    [NodeIterator] says after it): it will deliver exactly that part of
    the walk, or, when a node on the way is missing, it holds that error and
    will go on seeking.  It never panics or runs out of fuel. *)
Theorem NodeIterator_correct hs start T :
  t_reader T = rd → holds_map full hs m T →
  ∃ T' it, NodeIterator schedule start T = (T', Ok it)
    ∧ delivers full rd m start it (walk_from m start)
    ∧ (it_Error it = None ∨ (full = false ∧ ∃ e, it_Error it = Some e ∧ missing e)).
Proof. by apply NodeIterator_lemma. Qed.

(** C13: [Next] delivers the next node of the walk, descending into the current
    node or passing over what is below it: the iterator is then at that node's
    path, with its hash, key and value, and what is below it comes next.  At the
    end it returns false without an error.  A node that is missing is reported,
    and can be asked for again. *)
Theorem Next_correct it below after descend :
  iterates full rd m it below after →
  ∃ it' r, it_Next schedule descend it = (it', Ok r)
    ∧ match (if descend then below ++ after else after) with
      | [] => r = false ∧ it_Error it' = None ∧ iterates full rd m it' [] []
      | (q, y) :: rest =>
          (r = true ∧ it_Error it' = None ∧ it_Path it' = q ∧ it_Hash it' = item_hash (bool_decide (q = [])) y
           ∧ it_Leaf it' = (match y with IVal _ => true | INode _ => false end)
           ∧ (∀ v, y = IVal v → it_LeafKey it' = hexToKeyBytes q ∧ it_LeafBlob it' = Ok v)
           ∧ ∃ after', rest = walk_children q (children y) ++ after'
               ∧ iterates full rd m it' (walk_children q (children y)) after')
          ∨ (r = false ∧ full = false ∧ ∃ e below' after', it_Error it' = Some e ∧ missing e
               ∧ below' ++ after' = (q, y) :: rest ∧ iterates full rd m it' below' after')
      end.
Proof.
  intros Hi. destruct (Next_lemma full rd Hrd schedule Hsch m Hroot it below after descend Hi) as (it' & r & E & Hmv).
  exists it', r. split; [done|]. unfold moved in Hmv.
  destruct (if descend then below ++ after else after) as [|[q y] rest].
  - destruct Hmv as (-> & He & Hi'). unfold it_Error. by rewrite He.
  - destruct Hmv as [(-> & Hv & Hrest)|(-> & Hf & e & b & a & He & Herr & E' & Hi')].
    + left. destruct (visits_access rd full it' q y Hv) as (? & ? & ? & ? & ?). by split_and!.
    + right. split_and!; [done..|]. exists e, b, a. unfold it_Error. by rewrite Herr.
Qed.
End next.

(** The reader of a database decodes what it reads. *)
Lemma db_reader_decodes `{RlpOps, CryptoOps, DiskOps, CacheOps, !RlpLaws} owner codec db :
  decodes (db_reader owner codec db).
Proof.
  intros path h. unfold nodeBlob, reader_node, db_reader. simpl.
  destruct (Node h codec db).2 as [[|b blob]|e|w|]; try done.
  - intros _. eexists. split; [reflexivity|]. by eexists _, _, _, _.
  - intros n E Hn. change (is_banned _ _) with false. cbv iota. change (decodeNode _ _) with (decodeNodeUnsafe (Some h) (b :: blob)) in E.
    simpl. rewrite E. by destruct n.
  - intros _. eexists. split; [reflexivity|]. by eexists _, _, _, _.
Qed.

(** ** Witnesses *)

Module Witness.
Import Standin TrieSpec.Witness.

(** A trie of four keys, one of them a prefix of others. *)
Definition build : list op :=
  [OUpdate [18; 52] [1]; OUpdate [18; 53] [2; 3]; OUpdate [32] [4]; OUpdate [18] [9]]%Z.
Definition T4 : Trie := (run_ops build fresh).1.
Definition M4 : gmap bytes bytes := (spec_ops build ∅).1.

Lemma T4_holds : holds_map true false M4 T4.
Proof.
  assert (Forall op_ok build) as Hok by (unfold build; repeat constructor; unfold is_byte; lia).
  destruct (run_ops_lemma build ∅ fresh) as [_ Hh]; [apply holds_map_fresh|exact Hok|exact Hh].
Qed.

Lemma M4_root : M4 ≠ ∅ → map_root M4 ≠ EmptyRootHash.
Proof. intros _. apply (bool_decide_unpack _). vm_compute. exact I. Qed.

Lemma empty_decodes : decodes newEmptyReader.
Proof. intros path h. simpl. intros _. eexists. split; [done|]. by eexists _, _, _, _. Qed.

Example T4_entries :
  match (NodeIterator (seq 0 16) [18; 52]%Z T4).2 with
  | Ok it => collect (IterOps0 := node_iter_ops (seq 0 16)) 20 20 (NewIterator it)
  | _ => OutOfFuel
  end = Ok ([([18; 52], [1]); ([18; 53], [2; 3]); ([18], [9]); ([32], [4])]%Z, None).
Proof. vm_compute. reflexivity. Qed.

Theorem Iterator_correct_witness :
  ∃ T' it l, NodeIterator (seq 0 16) [18; 52]%Z T4 = (T', Ok it)
    ∧ (∀ fuel rounds, length (root_walk M4) < fuel → size M4 < rounds →
         collect (IterOps0 := node_iter_ops (seq 0 16)) fuel rounds (NewIterator it) = Ok (l, None))
    ∧ l ≡ₚ map_to_list (filter (λ kv, bytes_le (nibbles_of [18; 52]%Z) (keybytesToHex kv.1) = true) M4)
    ∧ StronglySorted key_order l.
Proof.
  apply (Iterator_correct newEmptyReader empty_decodes (seq 0 16) (reflexivity _) M4 M4_root false [18; 52]%Z T4).
  - vm_compute. reflexivity.
  - apply T4_holds.
Defined.

Theorem NodeIterator_correct_witness :
  ∃ T' it, NodeIterator (seq 0 16) [32]%Z T4 = (T', Ok it)
    ∧ delivers true newEmptyReader M4 [32]%Z it (walk_from M4 [32]%Z)
    ∧ (it_Error it = None ∨ (true = false ∧ ∃ e, it_Error it = Some e ∧ missing e)).
Proof.
  apply (NodeIterator_correct true newEmptyReader empty_decodes (seq 0 16) (reflexivity _) M4 M4_root false).
  - vm_compute. reflexivity.
  - apply T4_holds.
Defined.

Definition it4 : nodeIterator := MkNodeIterator T4 [] [] None None.

Lemma it4_iterates : iterates true newEmptyReader M4 it4 [] (root_walk M4).
Proof.
  apply iterates_start; [by split; [vm_compute|]|done|done|done|apply T4_holds|].
  apply (bool_decide_unpack _). vm_compute. exact I.
Qed.

Theorem Next_correct_witness :
  ∃ it' r, it_Next (seq 0 16) true it4 = (it', Ok r)
    ∧ match root_walk M4 with
      | [] => r = false ∧ it_Error it' = None ∧ iterates true newEmptyReader M4 it' [] []
      | (q, y) :: rest =>
          (r = true ∧ it_Error it' = None ∧ it_Path it' = q ∧ it_Hash it' = item_hash (bool_decide (q = [])) y
           ∧ it_Leaf it' = (match y with IVal _ => true | INode _ => false end)
           ∧ (∀ v, y = IVal v → it_LeafKey it' = hexToKeyBytes q ∧ it_LeafBlob it' = Ok v)
           ∧ ∃ after', rest = walk_children q (children y) ++ after'
               ∧ iterates true newEmptyReader M4 it' (walk_children q (children y)) after')
          ∨ (r = false ∧ true = false ∧ ∃ e below' after', it_Error it' = Some e ∧ missing e
               ∧ below' ++ after' = (q, y) :: rest ∧ iterates true newEmptyReader M4 it' below' after')
      end.
Proof.
  apply (Next_correct true newEmptyReader empty_decodes (seq 0 16) (reflexivity _) M4 M4_root it4 [] (root_walk M4) true).
  apply it4_iterates.
Defined.
End Witness.
