(* ===== verification/DifferenceSpec.v ===== *)
(** * What the difference iterator visits

    Stated for any two iterators that go through sorted lists of entries: the
    difference iterator goes through those of the second that are not in the
    first, although it skips common subtrees as wholes.  Node iterators over two
    tries are such iterators. *)
From stdpp Require Import sorting.
From S2P Require Import Prelude Errors Geth Encoding Node Mpt MptFacts Tracer Reader.
From S2P Require Import Trie Repr Refine Hasher TrieSpec Iterator SetIterators Walk IteratorSpec Seek Entries.
Local Open Scope nat_scope.

(** What an iterator shows of a node. *)
Record entry := MkEntry { e_path : bytes; e_leaf : bool; e_hash : bytes; e_blob : bytes }.

#[export] Instance entry_eq_dec : EqDecision entry.
Proof. solve_decision. Defined.

Definition shows {I} `{!IterOps I} (it : I) (e : entry) : Prop :=
  ni_Path it = e_path e ∧ ni_Leaf it = e_leaf e ∧ ni_Hash it = e_hash e
  ∧ (if e_leaf e then ni_LeafBlob it = Ok (e_blob e) else e_blob e = []).

(** An iterator with the entries below the current one and those after it.
    [subtree e l]: [l] may be what is below [e]. *)
Class IterLaws (I : Type) `{!IterOps I} := {
  subtree : entry → list entry → Prop;
  iters : I → list entry → list entry → Prop;
  Next_law it below after descend :
    iters it below after →
    ∃ it' r, ni_Next descend it = (it', Ok r)
      ∧ match (if descend then below ++ after else after) with
        | [] => r = false ∧ ni_Error it' = None ∧ iters it' [] []
        | e :: rest => r = true ∧ ni_Error it' = None ∧ shows it' e ∧ ∃ below' after',
            rest = below' ++ after' ∧ subtree e below' ∧ iters it' below' after'
        end
}.

(** Go through all entries. *)
Fixpoint visit_all {I} `{!IterOps I} (rounds : nat) (it : I) : result (list entry * option error) :=
  match rounds with
  | O => OutOfFuel
  | S rounds =>
      let '(it, r) := ni_Next true it in
      more ← r;
      if more : bool then
        blob ← (if ni_Leaf it then ni_LeafBlob it else Ok []);
        '(l, err) ← visit_all rounds it;
        Ok (MkEntry (ni_Path it) (ni_Leaf it) (ni_Hash it) blob :: l, err)
      else Ok ([], ni_Error it)
  end.

Definition by_path (l : list entry) : Prop := StronglySorted bytes_lt (e_path <$> l).

Lemma by_path_notin e l : by_path (e :: l) → e ∉ l.
Proof.
  unfold by_path. rewrite fmap_cons. intros Hs Hin. apply StronglySorted_inv in Hs as [_ Hf].
  rewrite Forall_fmap, Forall_forall in Hf. by apply (irreflexivity bytes_lt (e_path e)), Hf.
Qed.

Lemma by_path_app_r l l' : by_path (l ++ l') → by_path l'.
Proof. unfold by_path. rewrite fmap_app. apply StronglySorted_app_1_r. Qed.

Lemma by_path_cons e l : by_path (e :: l) → by_path l.
Proof. apply (by_path_app_r [e]). Qed.

Lemma by_path_lt e l x : by_path (e :: l) → x ∈ l → bytes_lt (e_path e) (e_path x).
Proof.
  unfold by_path. rewrite fmap_cons. intros Hs Hx. apply StronglySorted_inv in Hs as [_ Hf].
  rewrite Forall_fmap, Forall_forall in Hf. by apply Hf.
Qed.

Lemma by_path_disjoint l l' x : by_path (l ++ l') → x ∈ l → x ∉ l'.
Proof.
  unfold by_path. rewrite fmap_app, StronglySorted_app. intros (Hs & _) Hx Hx'.
  apply (irreflexivity bytes_lt (e_path x)), Hs; by apply list_elem_of_fmap_2.
Qed.

(** The outcome of [compareNodes] on two entries. *)
Lemma compareNodes_shows {A B} `{!IterOps A, !IterOps B} (a : A) (b : B) x y :
  shows a x → shows b y →
  ∃ c, compareNodes a b = Ok c ∧
    match c with
    | Eq => x = y
    | Lt => x ≠ y ∧ ¬ bytes_lt (e_path y) (e_path x)
    | Gt => x ≠ y ∧ ¬ bytes_lt (e_path x) (e_path y)
    end.
Proof.
  intros (Hp & Hl & Hh & Hb) (Hp' & Hl' & Hh' & Hb'). unfold compareNodes. rewrite Hp, Hp', Hl, Hl', Hh, Hh'.
  destruct x as [p l h v], y as [p' l' h' v']. simpl in *.
  assert (∀ a b, bytes_compare a b ≠ Eq → a ≠ b) as Hne by (intros ?? Hc ->; by rewrite bytes_compare_refl in Hc).
  destruct (bytes_compare p p') eqn:Ep.
  - apply bytes_compare_eq in Ep as ->.
    assert (¬ bytes_lt p' p') as Hirr by apply (irreflexivity bytes_lt).
    destruct l, l'; simpl; try (eexists; split; [done|]; by split; [congruence|]);
      destruct (bytes_compare h h') eqn:Eh; try (eexists; split; [done|]; split; [|done];
        intros [= -> ->]; by rewrite bytes_compare_refl in Eh).
    + rewrite Hb, Hb'. mred. eexists. split; [done|]. apply bytes_compare_eq in Eh as ->.
      destruct (bytes_compare v v') eqn:Ev; [by apply bytes_compare_eq in Ev as ->|..];
        (split; [|done]); intros [= ->]; by rewrite bytes_compare_refl in Ev.
    + eexists. split; [done|]. apply bytes_compare_eq in Eh as ->. by rewrite Hb, Hb'.
  - eexists. split; [done|]. split; [intros [= -> _ _ _]; by rewrite bytes_compare_refl in Ep|].
    unfold bytes_lt. rewrite (bytes_compare_antisym p p'), Ep. done.
  - eexists. split; [done|]. split; [intros [= -> _ _ _]; by rewrite bytes_compare_refl in Ep|].
    unfold bytes_lt. rewrite Ep. done.
Qed.

(** ** The loop *)

Section difference.
Context {A B : Type} `{!IterOps A, !IterOps B, !IterLaws A, !IterLaws B}.
(** Nodes of the two sides with the same path and hash have the same below. *)
Context (Hsub : ∀ e (l l' : list entry), subtree (I := A) e l → subtree (I := B) e l' →
  e_hash e ≠ zeroHash → l = l').
Context (la : list entry).

Definition missing_in (l : list entry) : list entry := filter (λ e, e ∉ la) l.

(** The first iterator is at [ea], the second has the entries [l] to come, and
    those of [l] that are in [la] are still to come in the first. *)
Record behind (it : differenceIterator A B) (ea : entry) (ba aa l : list entry) : Prop := {
  behind_eof : di_eof it = false;
  behind_err : ni_Error (di_a it) = None;
  behind_at : shows (di_a it) ea;
  behind_sub : subtree (I := A) ea ba;
  behind_iters : iters (di_a it) ba aa;
  behind_sorted : by_path (ea :: ba ++ aa);
  behind_len : length (ba ++ aa) ≤ length la;
  behind_in : ∀ x, x ∈ l → x ∈ la ↔ x ∈ ea :: ba ++ aa
}.

(** Between two calls: what is to come in the second iterator. *)
Definition differs (it : differenceIterator A B) (l : list entry) : Prop :=
  ∃ below after, iters (di_b it) below after ∧ l = below ++ after ∧ by_path l ∧
    ((di_eof it = true ∧ ni_Error (di_a it) = None ∧ ∀ x, x ∈ l → x ∉ la)
     ∨ ∃ ea ba aa, behind it ea ba aa l).

(** What a call yields. *)
Definition yields_next (it' : differenceIterator A B) (r : bool) (l : list entry) : Prop :=
  match missing_in l with
  | [] => r = false ∧ di_Error it' = None
  | x :: rest => r = true ∧ shows (di_b it') x
      ∧ ∃ l', missing_in l' = rest ∧ differs it' l' ∧ length l' < length l
  end.

Lemma missing_in_skip x l : x ∈ la → missing_in (x :: l) = missing_in l.
Proof. intros Hx. unfold missing_in. by rewrite filter_cons, decide_False by auto. Qed.
Lemma missing_in_keep x l : x ∉ la → missing_in (x :: l) = x :: missing_in l.
Proof. intros Hx. unfold missing_in. by rewrite filter_cons, decide_True by auto. Qed.

(** What [b] shows is not in [la]: it is returned. *)
Lemma yields_here it eb bb ab :
  shows (di_b it) eb → iters (di_b it) bb ab → by_path (eb :: bb ++ ab) → eb ∉ la →
  ((di_eof it = true ∧ ni_Error (di_a it) = None ∧ ∀ x, x ∈ bb ++ ab → x ∉ la)
   ∨ ∃ ea ba aa, behind it ea ba aa (bb ++ ab)) →
  yields_next it true (eb :: bb ++ ab).
Proof.
  intros Hat Hit Hs Hin Hrest. unfold yields_next. rewrite missing_in_keep by done.
  split_and!; [done|done|]. exists (bb ++ ab). split_and!; [done| |simpl; lia].
  exists bb, ab. split_and!; [done|done|by eapply by_path_cons|done].
Qed.

(** Skipping what is in [la] on both sides. *)
Lemma skipped_in ea ba aa (d : bool) bb ab pb pa :
  (d = false → bb = ba) → by_path (ea :: ba ++ aa) → by_path (ea :: bb ++ ab) →
  pb = (if d then bb ++ ab else ab) → pa = (if d then ba ++ aa else aa) →
  (∀ x, x ∈ ea :: bb ++ ab → x ∈ la ↔ x ∈ ea :: ba ++ aa) →
  (∀ x, x ∈ pb → x ∈ la ↔ x ∈ pa) ∧ missing_in (ea :: bb ++ ab) = missing_in pb
  ∧ by_path pb ∧ by_path pa ∧ length pb ≤ length (bb ++ ab) ∧ length pa ≤ length (ba ++ aa).
Proof.
  intros Hd Hsa Hsb -> -> Hin.
  assert (ea ∈ la) as Hea by (apply Hin; by left).
  assert (∀ x, x ∈ bb ++ ab → x ≠ ea) as Hne by (intros x Hx ->; by apply (by_path_notin _ _ Hsb)).
  apply by_path_cons in Hsa as Hsa', Hsb as Hsb'. rewrite missing_in_skip by done. destruct d.
  - split_and!; try done. intros x Hx. rewrite Hin by by right. rewrite elem_of_cons. naive_solver.
  - rewrite (Hd eq_refl) in *. split_and!; rewrite ?length_app; try lia; try (by eapply by_path_app_r).
    + intros x Hx. assert (x ∈ ba ++ ab) as Hx' by (apply elem_of_app; by right).
      rewrite Hin, elem_of_cons, elem_of_app by by right.
      assert (x ∉ ba) by (intros Hb; by apply (by_path_disjoint _ _ x Hsb')). naive_solver.
    + unfold missing_in. rewrite filter_app, list_filter_none; [done|]. apply Forall_forall.
      intros x Hx Hn. apply Hn, Hin; apply elem_of_cons; right; apply elem_of_app; by left.
Qed.

Lemma differenceLoop_spec fuel : ∀ it ea ba aa eb bb ab,
  shows (di_b it) eb → subtree (I := B) eb bb → iters (di_b it) bb ab → by_path (eb :: bb ++ ab) →
  behind it ea ba aa (eb :: bb ++ ab) →
  length (ba ++ aa) + length (bb ++ ab) < fuel →
  ∃ it' r, differenceLoop fuel it = (it', Ok r) ∧ yields_next it' r (eb :: bb ++ ab).
Proof.
  induction fuel as [|fuel IH]; intros it ea ba aa eb bb ab Hb Hsubb Hib Hsb [Heof Herr Ha Hsuba Hia Hsa Hlen Hin] Hf; [lia|].
  destruct (compareNodes_shows (di_a it) (di_b it) ea eb Ha Hb) as (c & Ec & Hc).
  cbn [differenceLoop]. unfold lift at 1. mred. rewrite Ec. destruct c.
  - (* equal: both move on *)
    subst eb. pose proof Ha as (_ & _ & Hh & _). rewrite Hh.
    set (d := bool_decide (e_hash ea = zeroHash)).
    assert (d = false → bb = ba) as Hd.
    { unfold d. rewrite bool_decide_eq_false. intros Hne. symmetry. by apply (Hsub ea). }
    set (pb := if d then bb ++ ab else ab). set (pa := if d then ba ++ aa else aa).
    destruct (skipped_in ea ba aa d bb ab pb pa Hd Hsa Hsb eq_refl eq_refl Hin) as (Hin' & Hm & Hspb & Hspa & Hlb & Hla).
    destruct (Next_law (di_b it) bb ab d Hib) as (b' & rb & Eb & Hb'). fold pb in Hb'.
    unfold next_b, on_part. mred. rewrite Eb. destruct pb as [|eb' pb'] eqn:Epb.
    { destruct Hb' as (-> & He & _). eexists _, _. split; [reflexivity|]. unfold yields_next. rewrite Hm.
      split; [done|]. unfold di_Error. simpl. by rewrite Herr. }
    destruct Hb' as (-> & _ & Hb' & bb' & ab' & -> & Hsubb' & Hib'). unfold modify, next_a, on_part. mred. simpl.
    destruct (Next_law (di_a it) ba aa d Hia) as (a' & ra & Ea & Ha'). fold pa in Ha'. rewrite Ea.
    destruct pa as [|ea' pa'] eqn:Epa.
    + destruct Ha' as (-> & He & _). mred. eexists _, _. split; [reflexivity|].
      assert (∀ x, x ∈ eb' :: bb' ++ ab' → x ∉ la) as Hnone by (intros x Hx; rewrite Hin' by done; by apply not_elem_of_nil).
      unfold yields_next. rewrite Hm.
      pose proof (yields_here (set_eof (set_a a' (incr_count (set_b b' it)))) eb' bb' ab' Hb' Hib' Hspb) as Hy.
      unfold yields_next in Hy. rewrite missing_in_keep in * by (apply Hnone; by left).
      destruct Hy as (? & ? & l' & ? & ? & ?); [by apply Hnone; left| |].
      { left. split_and!; [done|done|]. intros x Hx. apply Hnone. by right. }
      split_and!; [done|done|]. exists l'. split_and!; [done|done|]. simpl in *. lia.
    + destruct Ha' as (-> & He & Ha' & ba' & aa' & -> & Hsuba' & Hia'). mred.
      edestruct (IH (incr_count (set_a a' (incr_count (set_b b' it)))) ea' ba' aa' eb' bb' ab')
        as (it' & r & E & Hy); [done|done|done|done| | |].
      { split; try done. simpl in Hla. lia. }
      { simpl in Hla, Hlb. lia. }
      exists it', r. split; [exact E|]. unfold yields_next in *. rewrite Hm.
      destruct (missing_in (eb' :: bb' ++ ab')) as [|x rest]; [done|].
      destruct Hy as (? & ? & l' & ? & ? & ?). split_and!; [done|done|]. exists l'.
      split_and!; [done|done|]. simpl in *. lia.
  - (* the first is before the second *)
    destruct Hc as [Hne Hlt].
    assert (∀ x, x ∈ eb :: bb ++ ab → x ≠ ea) as Hnea.
    { intros x Hx ->. apply elem_of_cons in Hx as [->|Hx]; [done|]. apply Hlt. by eapply by_path_lt. }
    destruct (Next_law (di_a it) ba aa true Hia) as (a' & ra & Ea & Ha'). unfold next_a, on_part. mred. rewrite Ea.
    destruct (ba ++ aa) as [|ea' pa'] eqn:Epa.
    + destruct Ha' as (-> & He & _). unfold modify. mred. eexists _, _. split; [reflexivity|].
      assert (∀ x, x ∈ eb :: bb ++ ab → x ∉ la) as Hnone.
      { intros x Hx. rewrite Hin by done. intros ->%list_elem_of_singleton. by apply (Hnea ea). }
      apply yields_here; try done; [apply Hnone; by left|]. left. split_and!; [done|done|].
      intros x Hx. apply Hnone. by right.
    + destruct Ha' as (-> & He & Ha' & ba' & aa' & -> & Hsuba' & Hia'). unfold modify. mred.
      apply (IH _ ea' ba' aa' eb bb ab); try done; [|simpl in Hf; lia].
      split; try done; [by eapply by_path_cons|simpl in Hlen; lia|]. intros x Hx. rewrite Hin by done.
      rewrite (elem_of_cons _ x ea). pose proof (Hnea x Hx). naive_solver.
  - (* the second is before the first *)
    destruct Hc as [Hne Hlt]. eexists _, _. split; [reflexivity|].
    assert (eb ∉ la) as Heb.
    { rewrite Hin by by left. intros [->|Hx]%elem_of_cons; [done|]. apply Hlt. by eapply by_path_lt. }
    apply yields_here; try done. right. exists ea, ba, aa. split; try done.
    intros x Hx. apply Hin. by right.
Qed.

Lemma di_Next_spec fuel it l d :
  differs it l → length la + length l < fuel →
  ∃ it' r, di_Next fuel d it = (it', Ok r) ∧ yields_next it' r l.
Proof.
  intros (below & after & Hib & -> & Hs & Hst) Hf.
  destruct (Next_law (di_b it) below after true Hib) as (b' & rb & Eb & Hb').
  unfold di_Next, next_b, on_part, gets. mred. rewrite Eb.
  destruct (below ++ after) as [|eb pb] eqn:Epb.
  - destruct Hb' as (-> & He & _). eexists _, _. split; [reflexivity|]. split; [done|].
    unfold di_Error. simpl. destruct Hst as [(_ & -> & _)|(ea & ba & aa & [])]; [done|]. by rewrite behind_err0.
  - destruct Hb' as (-> & _ & Hb' & bb & ab & -> & Hsub' & Hib'). unfold modify. mred. simpl.
    destruct Hst as [(He & Herr & Hnone)|(ea & ba & aa & Hbe)].
    + rewrite He. eexists _, _. split; [reflexivity|]. apply yields_here; try done; [apply Hnone; by left|].
      left. split_and!; [done|done|]. intros x Hx. apply Hnone. by right.
    + pose proof (behind_eof _ _ _ _ _ Hbe) as ->.
      apply (differenceLoop_spec fuel _ ea ba aa eb bb ab); try done; [by destruct Hbe|].
      simpl in Hf. pose proof (behind_len _ _ _ _ _ Hbe). lia.
Qed.

Lemma visit_all_difference fuel rounds : ∀ it l,
  differs it l → length la + length l < fuel → length (missing_in l) < rounds →
  visit_all (IterOps0 := difference_iter_ops fuel) rounds it = Ok (missing_in l, None).
Proof.
  induction rounds as [|rounds IH]; intros it l Hd Hf Hr; [lia|].
  destruct (di_Next_spec fuel it l true Hd Hf) as (it' & r & E & Hy). cbn [visit_all].
  change (ni_Next true it) with (di_Next fuel true it). rewrite E. unfold yields_next in Hy.
  destruct (missing_in l) as [|x rest].
  - destruct Hy as [-> He]. mred. cbn [ni_Error difference_iter_ops]. by rewrite He.
  - destruct Hy as (-> & (Hp & Hl & Hh & Hb) & l' & <- & Hd' & Hlen). mred.
    cbn [ni_Leaf ni_LeafBlob ni_Path ni_Hash difference_iter_ops]. rewrite Hp, Hl, Hh.
    simpl in Hr. destruct x as [p lf h v]. cbn [e_leaf e_blob e_path e_hash] in *.
    destruct lf; [rewrite Hb|]; mred; (rewrite (IH it' l' Hd') by lia); mred; congruence.
Qed.

(** [NewDifferenceIterator] moves the first iterator to its first entry. *)
Lemma NewDifferenceIterator_spec a b ba aa bb ab :
  iters a ba aa → ba ++ aa = la → la ≠ [] → by_path la → iters b bb ab → by_path (bb ++ ab) →
  ∃ it, NewDifferenceIterator a b = Ok it ∧ differs it (bb ++ ab).
Proof.
  intros Hia E Hne Hsa Hib Hsb. destruct (Next_law a ba aa true Hia) as (a' & r & Ea & Ha').
  unfold NewDifferenceIterator. rewrite Ea, E in *. destruct la as [|ea l] eqn:El; [done|].
  destruct Ha' as (-> & He & Hat & b' & a2 & -> & Hsu & Hia'). mred. eexists. split; [reflexivity|].
  exists bb, ab. split_and!; [done|done|done|]. right. exists ea, b', a2.
  split; simpl; rewrite ?El; try done; simpl; lia.
Qed.
End difference.

(** ** Node iterators *)

Section tries.
Context `{RlpOps, CryptoOps, !RlpLaws, !CryptoLaws}.
Context (schedule : list nat) (Hsch : schedule ≡ₚ seq 0 16).

Definition entry_of_item (qy : bytes * item) : entry :=
  let '(q, y) := qy in
  match y with
  | INode _ => MkEntry q false (item_hash (bool_decide (q = [])) y) []
  | IVal v => MkEntry q true (item_hash (bool_decide (q = [])) y) v
  end.

Section one.
Context (rd : trieReader) (Hrd : decodes rd).
Context (m : gmap bytes bytes) (Hroot : m ≠ ∅ → map_root m ≠ EmptyRootHash).

Definition node_iter_laws : IterLaws nodeIterator (IterOps0 := node_iter_ops schedule).
Proof.
  refine {|
    subtree e l := ∃ q y, (q, y) ∈ root_walk m ∧ e = entry_of_item (q, y)
                     ∧ l = entry_of_item <$> walk_children q (children y);
    iters it bl al := ∃ below after, iterates true rd m it below after
                        ∧ (∀ x, x ∈ below ++ after → x ∈ root_walk m)
                        ∧ bl = entry_of_item <$> below ∧ al = entry_of_item <$> after |}.
  intros it bl al d (below & after & Hi & Hin & -> & ->).
  destruct (Next_lemma true rd Hrd schedule Hsch m Hroot it below after d Hi) as (it' & r & E & Hmv).
  exists it', r. split; [exact E|].
  replace (if d then (entry_of_item <$> below) ++ (entry_of_item <$> after) else entry_of_item <$> after)
    with (entry_of_item <$> (if d then below ++ after else after)) by (destruct d; by rewrite ?fmap_app).
  assert (∀ x, x ∈ (if d then below ++ after else after) → x ∈ root_walk m) as Hin'.
  { intros x Hx. apply Hin. destruct d; [done|]. apply elem_of_app. by right. }
  destruct (if d then below ++ after else after) as [|[q y] rest].
  - destruct Hmv as (-> & He & Hi'). simpl. split_and!; [done|unfold it_Error; by rewrite He|].
    by exists [], [].
  - destruct Hmv as [(-> & Hv & after' & -> & Hi')|(_ & ? & _)]; [|done].
    destruct (visits_access rd true it' q y Hv) as (Hp & He & Hh & Hl & Hval). rewrite fmap_cons.
    split_and!; [done|done| |].
    + unfold shows. cbn [ni_Path ni_Leaf ni_Hash ni_LeafBlob node_iter_ops]. rewrite Hp, Hl, Hh.
      destruct y as [t|v]; [done|]. destruct (Hval v eq_refl) as [_ Hb]. by split_and!.
    + exists (entry_of_item <$> walk_children q (children y)), (entry_of_item <$> after'). rewrite fmap_app.
      split_and!; [done|exists q, y; split; [apply Hin'; by left|done]|]. eexists _, _. split; [exact Hi'|].
      split; [|done]. intros x Hx. apply Hin'. by right.
Defined.

(** The entries a node iterator over [m] goes through. *)
Definition node_entries : list entry := entry_of_item <$> root_walk m.

Lemma node_entries_by_path : map_ok m → by_path node_entries.
Proof.
  intros Hok. unfold by_path, node_entries. rewrite <- list_fmap_compose.
  replace (e_path ∘ entry_of_item <$> root_walk m) with (root_walk m).*1; [by apply root_walk_sorted|].
  apply list_fmap_ext. intros ? [q []] _; done.
Qed.

Lemma NodeIterator_iters hs T :
  t_reader T = rd → holds_map true hs m T →
  ∃ T' it b a, NodeIterator schedule [] T = (T', Ok it) ∧ @iters _ _ node_iter_laws it b a ∧ b ++ a = node_entries.
Proof.
  intros Hr Hm. destruct (NodeIterator_lemma true rd Hrd schedule Hsch m Hroot hs [] T Hr Hm)
    as (T' & it & E & Hd & _).
  assert (walk_from m [] = root_walk m) as Ew.
  { unfold walk_from. apply list_filter_all, Forall_forall. intros [[|x q] y] _; done. }
  destruct Hd as [below after Hi Hl|]; [|done]. rewrite Ew in Hl.
  exists T', it, (entry_of_item <$> below), (entry_of_item <$> after). split_and!; [done| |].
  - exists below, after. split_and!; try done. by rewrite <- Hl.
  - unfold node_entries. by rewrite <- fmap_app, <- Hl.
Qed.
End one.

(** Without hash collisions between two tries, entries with the same path and
    hash have the same below. *)
Lemma node_subtrees_agree ra Hda ma Hra rb Hdb mb Hrb e l l' :
  (∀ q t t', (q, INode t) ∈ root_walk ma → (q, INode t') ∈ root_walk mb →
     keccak256 (tenc t) = keccak256 (tenc t') → t = t') →
  @subtree _ _ (node_iter_laws ra Hda ma Hra) e l → @subtree _ _ (node_iter_laws rb Hdb mb Hrb) e l' →
  e_hash e ≠ zeroHash → l = l'.
Proof.
  intros Hnc (q & y & Hy & -> & ->) (q' & y' & Hy' & E & ->) Hh.
  destruct y as [t|v]; [|done]. destruct y' as [t'|v']; [|done].
  injection E as -> Eh. simpl in Hh. destruct (bool_decide (q' = []) || _) eqn:E1 in Hh; [|done].
  destruct (bool_decide (q' = []) || bool_decide (32 ≤ length (tenc t'))) eqn:E2; rewrite E1 in Eh.
  - by rewrite (Hnc q' t t' Hy Hy' Eh).
  - by rewrite Eh in Hh.
Qed.

(** C11: the difference iterator over two tries visits, in order, exactly the
    nodes and values of the second that the first, which is not empty, does not
    have at the same path with the same hash or value, although it skips subtrees with equal hashes;
    it ends without an error.  The hypothesis is that the two tries have no hash
    collision between them. *)
Theorem DifferenceIterator_correct ra rb ma mb hsa hsb Ta Tb :
  decodes ra → decodes rb →
  (ma ≠ ∅ → map_root ma ≠ EmptyRootHash) → (mb ≠ ∅ → map_root mb ≠ EmptyRootHash) →
  t_reader Ta = ra → holds_map true hsa ma Ta → ma ≠ ∅ →
  t_reader Tb = rb → holds_map true hsb mb Tb →
  (∀ q t t', (q, INode t) ∈ root_walk ma → (q, INode t') ∈ root_walk mb →
     keccak256 (tenc t) = keccak256 (tenc t') → t = t') →
  ∃ ita itb itd, (NodeIterator schedule [] Ta).2 = Ok ita ∧ (NodeIterator schedule [] Tb).2 = Ok itb
    ∧ NewDifferenceIterator (IterOps0 := node_iter_ops schedule) ita itb = Ok itd
    ∧ ∀ fuel rounds,
        length (node_entries ma) + length (node_entries mb) < fuel → length (node_entries mb) < rounds →
        visit_all (IterOps0 := difference_iter_ops (IterOps0 := node_iter_ops schedule)
                                 (IterOps1 := node_iter_ops schedule) fuel) rounds itd
        = Ok (filter (λ e, e ∉ node_entries ma) (node_entries mb), None).
Proof.
  intros Hda Hdb Hra Hrb Ha Hma Hne Hb Hmb Hnc.
  assert (map_ok ma) as Hoka by by eapply holds_map_ok.
  assert (map_ok mb) as Hokb by by eapply holds_map_ok.
  destruct (NodeIterator_iters ra Hda ma Hra hsa Ta Ha Hma) as (Ta' & ita & ba & aa & Ea & Hia & Ela).
  destruct (NodeIterator_iters rb Hdb mb Hrb hsb Tb Hb Hmb) as (Tb' & itb & bb & ab & Eb & Hib & Elb).
  exists ita, itb.
  set (LA := node_iter_laws ra Hda ma Hra). set (LB := node_iter_laws rb Hdb mb Hrb).
  assert (∀ e l l', @subtree _ _ LA e l → @subtree _ _ LB e l' → e_hash e ≠ zeroHash → l = l') as Hsub
    by (intros e l l' Hl Hl'; by eapply node_subtrees_agree).
  destruct (NewDifferenceIterator_spec (IterLaws0 := LA) (IterLaws1 := LB) (node_entries ma) ita itb ba aa bb ab)
    as (itd & E & Hd); try done.
  { destruct (tree_of_nonempty true ma Ta hsa Hma Hne) as (t & Ht & _). unfold node_entries, root_walk.
    rewrite Ht. by destruct t. }
  { by apply node_entries_by_path. }
  { rewrite Elb. by apply node_entries_by_path. }
  exists itd. rewrite Ea, Eb. split_and!; try done. intros fuel rounds Hf Hr. rewrite Elb in Hd.
  apply (visit_all_difference (IterLaws0 := LA) (IterLaws1 := LB) Hsub (node_entries ma)); try done.
  eapply Nat.le_lt_trans; [apply length_filter|done].
Qed.
End tries.

(** ** Witness *)

Module Witness.
Import Standin TrieSpec.Witness Entries.Witness.

(** A trie that shares a subtree with that of Entries.v. *)
Definition build5 : list op :=
  [OUpdate [18; 52] [1]; OUpdate [18; 53] [2; 3]; OUpdate [32] [5]; OUpdate [18] [9]; OUpdate [66; 7] [6]]%Z.
Definition T5 : Trie := (run_ops build5 fresh).1.
Definition M5 : gmap bytes bytes := (spec_ops build5 ∅).1.

Lemma T5_holds : holds_map true false M5 T5.
Proof.
  assert (Forall op_ok build5) as Hok by (unfold build5; repeat constructor; unfold is_byte; lia).
  destruct (run_ops_lemma build5 ∅ fresh) as [_ Hh]; [apply holds_map_fresh|exact Hok|exact Hh].
Qed.

Lemma M5_root : M5 ≠ ∅ → map_root M5 ≠ EmptyRootHash.
Proof. intros _. apply (bool_decide_unpack _). vm_compute. exact I. Qed.

Lemma M4_nonempty : M4 ≠ ∅.
Proof. apply (bool_decide_unpack _). vm_compute. exact I. Qed.

Fixpoint tree_eqb (t t' : tree) : bool :=
  match t, t' with
  | TLeaf k v, TLeaf k' v' => bool_decide (k = k') && bool_decide (v = v')
  | TExt k c, TExt k' c' => bool_decide (k = k') && tree_eqb c c'
  | TFull cs ov, TFull cs' ov' =>
      (fix go (l l' : list (option tree)) : bool :=
         match l, l' with
         | [], [] => true
         | Some c :: l, Some c' :: l' => tree_eqb c c' && go l l'
         | None :: l, None :: l' => go l l'
         | _, _ => false
         end) cs cs' && bool_decide (ov = ov')
  | _, _ => false
  end.

Lemma tree_eqb_eq t : ∀ t', tree_eqb t t' = true → t = t'.
Proof.
  induction t as [k v|k c IH|cs ov IH] using tree_induction; intros [k' v'|k' c'|cs' ov']; simpl; try done;
    rewrite andb_true_iff, ?bool_decide_eq_true.
  - by intros [-> ->].
  - intros [-> E]. by rewrite (IH _ E).
  - intros [E ->]. f_equal. revert cs' E. induction cs as [|[c|] cs IHcs]; intros [|[c'|] cs'] E; try done.
    + apply andb_true_iff in E as [Ec E]. f_equal; [by rewrite (IH 0 c eq_refl c' Ec)|].
      apply IHcs; [|done]. intros i x Hi. by apply (IH (S i)).
    + f_equal. apply IHcs; [|done]. intros i x Hi. by apply (IH (S i)).
Qed.

(** The test that two lists of nodes have no collision. *)
Definition no_collision (l l' : list (bytes * item)) : bool :=
  forallb (λ a, forallb (λ b,
    match a, b with
    | (q, INode t), (q', INode t') =>
        if bool_decide (q = q') then
          if bool_decide (keccak256 (tenc t) = keccak256 (tenc t')) then tree_eqb t t' else true
        else true
    | _, _ => true
    end) l') l.

Lemma no_collision_sound l l' q t t' : no_collision l l' = true →
  (q, INode t) ∈ l → (q, INode t') ∈ l' → keccak256 (tenc t) = keccak256 (tenc t') → t = t'.
Proof.
  intros Hn Ha Hb E. unfold no_collision in Hn. rewrite forallb_forall in Hn.
  apply list_elem_of_In in Ha, Hb. specialize (Hn _ Ha). rewrite forallb_forall in Hn. specialize (Hn _ Hb).
  cbv iota beta in Hn. rewrite !bool_decide_true in Hn by done. by apply tree_eqb_eq.
Qed.

Lemma M4_M5_no_collision q t t' :
  (q, INode t) ∈ root_walk M4 → (q, INode t') ∈ root_walk M5 →
  keccak256 (tenc t) = keccak256 (tenc t') → t = t'.
Proof. apply no_collision_sound. vm_compute. reflexivity. Qed.

Example difference_T4_T5 :
  let la := node_entries M4 in
  e_path <$> filter (λ e, e ∉ la) (node_entries M5) = [[]; [2; 0; 16]; [4]; [4; 2; 0; 7; 16]]%Z.
Proof. vm_compute. reflexivity. Qed.

Theorem DifferenceIterator_correct_witness :
  ∃ ita itb itd, (NodeIterator (seq 0 16) [] T4).2 = Ok ita ∧ (NodeIterator (seq 0 16) [] T5).2 = Ok itb
    ∧ NewDifferenceIterator (IterOps0 := node_iter_ops (seq 0 16)) ita itb = Ok itd
    ∧ ∀ fuel rounds,
        length (node_entries M4) + length (node_entries M5) < fuel → length (node_entries M5) < rounds →
        visit_all (IterOps0 := difference_iter_ops (IterOps0 := node_iter_ops (seq 0 16))
                                 (IterOps1 := node_iter_ops (seq 0 16)) fuel) rounds itd
        = Ok (filter (λ e, e ∉ node_entries M4) (node_entries M5), None).
Proof.
  apply (DifferenceIterator_correct (seq 0 16) (reflexivity _) newEmptyReader newEmptyReader M4 M5 false false T4 T5);
    [apply empty_decodes|apply empty_decodes|apply M4_root|apply M5_root|vm_compute; reflexivity|apply T4_holds
    |apply M4_nonempty|vm_compute; reflexivity|apply T5_holds|apply M4_M5_no_collision].
Defined.
End Witness.
