(* ===== verification/Heap.v ===== *)
(** * container/heap keeps a heap

    Stated for any [Less] that decides a transitive relation: every operation
    permutes the elements, keeps each element behind its parent, and terminates
    with the fuel it is given; [Pop] takes a least element. *)
From S2P Require Import Prelude Errors Geth Iterator SetIterators.
Local Open Scope nat_scope.

(** ** Positions *)

Definition parent (c : nat) : nat := (c - 1) / 2.

Lemma parent_spec c p : 0 < c → parent c = p ↔ c = 2 * p + 1 ∨ c = 2 * p + 2.
Proof.
  intros Hc. unfold parent. split.
  - intros <-. pose proof (Nat.div_mod_eq (c - 1) 2). pose proof (Nat.mod_upper_bound (c - 1) 2). lia.
  - intros [->| ->].
    + replace (2 * p + 1 - 1) with (p * 2) by lia. by apply Nat.div_mul.
    + replace (2 * p + 2 - 1) with (1 + p * 2) by lia. rewrite Nat.div_add by done. done.
Qed.

Lemma parent_lt c : 0 < c → parent c < c.
Proof. intros Hc. pose proof (proj1 (parent_spec c _ Hc) eq_refl). lia. Qed.

Section swap.
Context {I : Type}.
Implicit Types h : list I.

Lemma swap_perm i j h : swap i j h ≡ₚ h.
Proof.
  unfold swap. destruct (h !! i) eqn:Ei; [|done]. destruct (h !! j) eqn:Ej; [|done].
  by apply Permutation_insert_swap.
Qed.

Lemma swap_length i j h : length (swap i j h) = length h.
Proof. apply Permutation_length, swap_perm. Qed.

Lemma swap_lookup i j h x y k : h !! i = Some x → h !! j = Some y →
  swap i j h !! k = if decide (k = j) then Some x else if decide (k = i) then Some y else h !! k.
Proof.
  intros Ei Ej. unfold swap. rewrite Ei, Ej. pose proof (lookup_lt_Some _ _ _ Ei). pose proof (lookup_lt_Some _ _ _ Ej).
  destruct (decide (k = j)) as [->|Hj]; [by rewrite list_lookup_insert_eq by (rewrite length_insert; done)|].
  rewrite list_lookup_insert_ne by done.
  destruct (decide (k = i)) as [->|Hi]; [by rewrite list_lookup_insert_eq|by rewrite list_lookup_insert_ne].
Qed.
End swap.

(** ** The operations *)

Section heap.
Context {I : Type} (Less : I → I → result bool) (ok : I → Prop) (le : relation I).
Context (Hless : ∀ x y, ok x → ok y → ∃ b, Less x y = Ok b ∧ if b then le x y else le y x).
Context (Htrans : ∀ x y z, le x y → le y z → le x z) (Hrefl : ∀ x, ok x → le x x).
Implicit Types h : list I.

(** The element at [p] is not behind the one at [c]. *)
Definition edge h (p c : nat) : Prop := ∀ x y, h !! p = Some x → h !! c = Some y → le x y.

(** A heap up to [n], from the parents at [k] on. *)
Definition heap_from (k n : nat) h : Prop := ∀ c, 0 < c < n → k ≤ parent c → edge h (parent c) c.
Definition is_heap h : Prop := heap_from 0 (length h) h.

(** The same but for the element at [i], which may be behind its children. *)
Record sinking (k i n : nat) h : Prop := {
  sinking_edges : ∀ c, 0 < c < n → k ≤ parent c → parent c ≠ i → edge h (parent c) c;
  sinking_below : ∀ c, 0 < c < n → parent c = i → 0 < i → k ≤ parent i → edge h (parent i) c
}.

(** The same but for the element at [j], which may be before its parent. *)
Record rising (j : nat) h : Prop := {
  rising_edges : ∀ c, 0 < c < length h → c ≠ j → edge h (parent c) c;
  rising_below : ∀ c, 0 < c < length h → parent c = j → 0 < j → edge h (parent j) c
}.

Lemma less_at_spec h i j : Forall ok h → i < length h → j < length h →
  ∃ x y b, h !! i = Some x ∧ h !! j = Some y ∧ less_at Less h i j = Ok b ∧ if b then le x y else le y x.
Proof.
  intros Hok [x Hx]%lookup_lt_is_Some_2 [y Hy]%lookup_lt_is_Some_2. rewrite Forall_lookup in Hok.
  destruct (Hless x y) as (b & E & Hb); [by eapply Hok..|]. exists x, y, b. split_and!; try done.
  unfold less_at, index. by rewrite Hx, Hy.
Qed.

Lemma edge_swap_ne i j h p c : p ≠ i → p ≠ j → c ≠ i → c ≠ j → edge (swap i j h) p c ↔ edge h p c.
Proof.
  intros. unfold edge, swap. destruct (h !! i); [|done]. destruct (h !! j); [|done].
  by rewrite !list_lookup_insert_ne by done.
Qed.

(** The child the loop of [down] compares with. *)
Lemma least_child h i n : Forall ok h → n ≤ length h → 2 * i + 1 < n →
  ∃ j, (if bool_decide (2 * i + 1 + 1 < n) then
          l ← less_at Less h (2 * i + 1 + 1) (2 * i + 1); Ok (if l : bool then 2 * i + 1 + 1 else 2 * i + 1)
        else Ok (2 * i + 1)) = Ok j
    ∧ i < j < n ∧ parent j = i ∧ ∀ c, 0 < c < n → parent c = i → edge h j c.
Proof.
  intros Hok Hn Hi.
  assert (∀ c, c < length h → edge h c c) as Hself.
  { intros c Hc x y Hx Hy. simplify_eq. rewrite Forall_lookup in Hok. by eapply Hrefl, Hok. }
  destruct (bool_decide_reflect (2 * i + 1 + 1 < n)) as [Hlt|Hge].
  - destruct (less_at_spec h (2 * i + 1 + 1) (2 * i + 1)) as (x & y & b & Hx & Hy & -> & Hb); [done|lia..|].
    mred. exists (if b then 2 * i + 1 + 1 else 2 * i + 1). split_and!; [done|destruct b; lia..| |].
    { destruct b; apply parent_spec; lia. }
    intros c Hc [->| ->]%parent_spec; [| |lia]; replace (2 * i + 2) with (2 * i + 1 + 1) in * by lia;
      destruct b; try (apply Hself; lia); intros ?? E1 E2; by simplify_eq.
  - exists (2 * i + 1). split_and!; [done|lia..|apply parent_spec; lia|].
    intros c Hc [->| ->]%parent_spec; [apply Hself; lia|lia..].
Qed.

Lemma sinking_swap k i j n h x y : sinking k i n h → k ≤ i → i < j < n → parent j = i →
  (∀ c, 0 < c < n → parent c = i → edge h j c) →
  h !! i = Some x → h !! j = Some y → le y x → sinking k j n (swap i j h).
Proof.
  intros [He Hb] Hk Hj Hp Hleast Hx Hy Hle.
  assert (swap i j h !! i = Some y) as Hi' by (rewrite (swap_lookup _ _ _ x y), decide_False, decide_True by (done || lia); done).
  assert (swap i j h !! j = Some x) as Hj' by (rewrite (swap_lookup _ _ _ x y), decide_True by done; done).
  assert (∀ c, c ≠ i → c ≠ j → swap i j h !! c = h !! c) as Hne
    by (intros c ??; by rewrite (swap_lookup _ _ _ x y), !decide_False by done).
  split.
  - intros c Hc Hkc Hcj. destruct (decide (parent c = i)) as [Hci|Hci].
    + rewrite Hci. intros x' z. rewrite Hi'. intros [= <-] Hz. destruct (decide (c = j)) as [->|].
      { by simplify_eq. }
      rewrite Hne in Hz by (try done; pose proof (parent_lt c); lia). by eapply Hleast.
    + destruct (decide (c = i)) as [->|Hc'].
      * intros z x' Hz. rewrite Hi'. intros [= <-]. apply (Hb j ltac:(lia) Hp ltac:(lia) Hkc z y); [by rewrite <- Hne by lia|done].
      * assert (c ≠ j) by (by intros ->). rewrite edge_swap_ne by done. by apply He.
  - intros c Hc Hcj _ _. rewrite Hp. intros x' z. rewrite Hi'. intros [= <-] Hz. pose proof (parent_lt c).
    rewrite Hne in Hz by lia. specialize (He c Hc ltac:(lia) ltac:(lia) y z). rewrite Hcj in He. auto.
Qed.

(** [down] makes a heap of what is one but for [i]. *)
Lemma heap_down_spec fuel : ∀ k i n h,
  Forall ok h → n ≤ length h → k ≤ i → n - i < fuel → sinking k i n h →
  ∃ h', heap_down Less fuel i n h = Ok h' ∧ h' ≡ₚ h ∧ heap_from k n h' ∧ ∀ c, n ≤ c → h' !! c = h !! c.
Proof.
  induction fuel as [|fuel IH]; intros k i n h Hok Hn Hk Hf Hs; [lia|]. cbn [heap_down].
  destruct (bool_decide_reflect (n ≤ 2 * i + 1)) as [Hni|Hni].
  { exists h. split_and!; try done. intros c Hc Hkc. apply (sinking_edges _ _ _ _ Hs); try done.
    intros Hci. apply parent_spec in Hci; lia. }
  destruct (least_child h i n) as (j & -> & Hj & Hp & Hleast); [done|done|lia|]. mred.
  destruct (less_at_spec h j i) as (y & x & b & Hy & Hx & -> & Hb); [done|lia..|]. mred. destruct b.
  - destruct (IH k j n (swap i j h)) as (h' & E & Hperm & Hh & Hrest).
    + by rewrite swap_perm.
    + by rewrite swap_length.
    + lia.
    + lia.
    + by eapply sinking_swap.
    + exists h'. split_and!; [done|by rewrite Hperm, swap_perm|done|]. intros c Hc.
      rewrite Hrest, (swap_lookup _ _ _ x y), !decide_False by (done || lia). done.
  - exists h. split_and!; try done. intros c Hc Hkc. destruct (decide (parent c = i)) as [Hci|Hci].
    + rewrite Hci. intros x' z Hx' Hz. simplify_eq. eapply Htrans; [done|]. by eapply Hleast.
    + by apply (sinking_edges _ _ _ _ Hs).
Qed.

Lemma rising_swap j h x y : rising j h → 0 < j →
  h !! parent j = Some x → h !! j = Some y → le y x → rising (parent j) (swap (parent j) j h).
Proof.
  intros [He Hb] Hj Hx Hy Hle. pose proof (parent_lt j Hj) as Hpj.
  assert (∀ c, swap (parent j) j h !! c = if decide (c = j) then Some x else if decide (c = parent j) then Some y else h !! c)
    as Hat by (intros c; by apply swap_lookup).
  assert (j < length h) as Hlen by by eapply lookup_lt_Some.
  split; rewrite swap_length; intros c Hc.
  - intros Hcp x' z. rewrite !Hat. pose proof (parent_lt c) as Hpc.
    destruct (decide (c = j)) as [->|Hcj].
    { rewrite decide_False, decide_True by (done || lia). by intros [= <-] [= <-]. }
    rewrite (decide_False (P := c = parent j)) by done. destruct (decide (parent c = j)) as [Hpcj|Hpcj].
    { intros [= <-] Hz. by apply (Hb c Hc Hpcj Hj x z). }
    destruct (decide (parent c = parent j)) as [E|_]; intros Hx' Hz; [|by apply (He c)].
    simplify_eq. eapply Htrans; [done|]. apply (He c); [done|done|congruence|done].
  - intros Hcp Hp x' z. rewrite !Hat. pose proof (parent_lt _ Hp) as Hpp.
    rewrite !(decide_False (P := parent (parent j) = _)) by lia. intros Hx' Hz.
    assert (le x' x) as Hle' by (apply (He (parent j)); [lia|lia|done|done]).
    destruct (decide (c = j)) as [->|Hcj]; [by simplify_eq|].
    rewrite decide_False in Hz by (pose proof (parent_lt c); lia). eapply Htrans; [done|].
    apply (He c); [done|done|congruence|done].
Qed.

(** [up] makes a heap of what is one but for [j]. *)
Lemma heap_up_spec fuel : ∀ j h,
  Forall ok h → j < length h → j < fuel → rising j h →
  ∃ h', heap_up Less fuel j h = Ok h' ∧ h' ≡ₚ h ∧ is_heap h'.
Proof.
  induction fuel as [|fuel IH]; intros j h Hok Hj Hf Hr; [lia|]. cbn [heap_up]. change ((j - 1) / 2) with (parent j).
  destruct (bool_decide_reflect (parent j = j)) as [Hpj|Hpj].
  { assert (j = 0) as -> by (destruct j; [done|pose proof (parent_lt (S j)); lia]).
    exists h. split_and!; try done. intros c Hc _. apply Hr; [done|lia]. }
  assert (0 < j) as Hj0 by (destruct j; [by destruct Hpj|lia]). pose proof (parent_lt j Hj0).
  destruct (less_at_spec h j (parent j)) as (y & x & b & Hy & Hx & -> & Hb); [done|lia..|]. mred. destruct b.
  - destruct (IH (parent j) (swap (parent j) j h)) as (h' & E & Hperm & Hh).
    + by rewrite swap_perm.
    + rewrite swap_length. lia.
    + lia.
    + by eapply rising_swap.
    + exists h'. split_and!; [done|by rewrite Hperm, swap_perm|done].
  - exists h. split_and!; try done. intros c Hc _. destruct (decide (c = j)) as [->|Hcj]; [|by apply Hr].
    intros ????. by simplify_eq.
Qed.

(** ** Their use *)

Lemma heap_Init_spec h : Forall ok h →
  ∃ h', heap_Init Less h = Ok h' ∧ h' ≡ₚ h ∧ is_heap h'.
Proof.
  intros Hok. unfold heap_Init.
  assert (∀ k h, Forall ok h → heap_from k (length h) h →
    ∃ h', foldM (λ i h', heap_down Less (S (length h)) i (length h) h') (rev (seq 0 k)) h = Ok h' ∧ h' ≡ₚ h ∧ is_heap h') as Hloop.
  { clear h Hok. induction k as [|k IH]; intros h Hok Hh; [by exists h|].
    rewrite seq_S, rev_app_distr. cbn [rev app foldM]. rewrite Nat.add_0_l.
    destruct (heap_down_spec (S (length h)) k k (length h) h) as (h1 & E & Hp & Hh1 & _); [done|done|done|lia| |].
    { split; [|intros c _ _ Hk ?; pose proof (parent_lt k); lia]. intros c Hc Hk Hne. apply Hh; [done|lia]. }
    rewrite E. mred. apply Permutation_length in Hp as Hl. rewrite <- Hl in *.
    destruct (IH h1) as (h' & E' & Hp' & Hh'); [by rewrite Hp|done|]. exists h'. split_and!; [done|by rewrite Hp'|done]. }
  apply Hloop; [done|]. intros c Hc Hk. exfalso.
  pose proof (proj1 (parent_spec c _ ltac:(lia)) eq_refl). pose proof (Nat.div_mod_eq (length h) 2).
  pose proof (Nat.mod_upper_bound (length h) 2). lia.
Qed.

Lemma heap_Push_spec x h : Forall ok h → ok x → is_heap h →
  ∃ h', heap_Push Less x h = Ok h' ∧ h' ≡ₚ x :: h ∧ is_heap h'.
Proof.
  intros Hok Hx Hh. unfold heap_Push.
  destruct (heap_up_spec (S (length h)) (length h) (h ++ [x])) as (h' & E & Hp & Hh').
  - apply Forall_app_2; [done|by apply Forall_singleton].
  - rewrite length_app. simpl. lia.
  - lia.
  - split; rewrite length_app; simpl; intros c Hc; pose proof (parent_lt c ltac:(lia)).
    + intros Hne a b. rewrite !lookup_app_l by lia. apply Hh; lia.
    + intros E. lia.
  - exists h'. split_and!; [done| |done]. by rewrite Hp, Permutation_app_comm.
Qed.

(** The root is least. *)
Lemma root_least h x : Forall ok h → is_heap h → h !! 0 = Some x → ∀ y, y ∈ h → le x y.
Proof.
  intros Hok Hh Hx y [c Hc]%list_elem_of_lookup. revert y Hc. induction c as [c IH] using lt_wf_ind. intros y Hy.
  destruct (decide (c = 0)) as [->|Hc0]; [simplify_eq; eapply Hrefl, Forall_lookup_1; done|].
  pose proof (parent_lt c ltac:(lia)) as Hlt. apply lookup_lt_Some in Hy as Hcl.
  destruct (lookup_lt_is_Some_2 h (parent c)) as [z Hz]; [lia|]. eapply Htrans; [by apply (IH (parent c))|].
  by apply (Hh c ltac:(lia) ltac:(lia) z y).
Qed.

Lemma heap_Pop_spec h : Forall ok h → is_heap h → h ≠ [] →
  ∃ x h', heap_Pop Less h = Ok (x, h') ∧ h ≡ₚ x :: h' ∧ is_heap h' ∧ head h = Some x.
Proof.
  intros Hok Hh Hne. destruct h as [|x h0]; [done|]. set (h := x :: h0) in *. unfold heap_Pop. fold h.
  set (n := length h - 1). assert (length h = S n) as Hl by (unfold n, h; simpl; lia).
  destruct (lookup_lt_is_Some_2 h n) as [z Hz]; [lia|].
  assert (∀ c, swap 0 n h !! c = if decide (c = n) then Some x else if decide (c = 0) then Some z else h !! c)
    as Hat by (intros c; by apply swap_lookup).
  destruct (heap_down_spec (S n) 0 0 n (swap 0 n h)) as (h1 & E & Hp & Hh1 & Hrest).
  - by rewrite swap_perm.
  - rewrite swap_length. lia.
  - done.
  - lia.
  - split; [|lia]. intros c Hc _ Hpc a b. pose proof (parent_lt c ltac:(lia)).
    rewrite !Hat, !decide_False by lia. apply Hh; lia.
  - assert (length h1 = S n) as Hl1 by (by rewrite Hp, swap_length).
    assert (h1 !! n = Some x) as Hn by (by rewrite Hrest, Hat, decide_True).
    exists x, (take n h1). unfold h at 1. rewrite E. mred. unfold index. rewrite Hn. split_and!; [done| | |done].
    + assert (h1 = take n h1 ++ [x]) as Eh
        by (by rewrite <- (take_drop_middle h1 n x Hn) at 1; rewrite drop_ge by lia).
      by rewrite <- (swap_perm 0 n h), <- Hp, Permutation_cons_append, <- Eh.
    + intros c. rewrite length_take_le by lia. intros Hc _ a b. pose proof (parent_lt c ltac:(lia)).
      rewrite !lookup_take_lt by lia. apply Hh1; lia.
Qed.
End heap.
