(* ===== verification/UnionSpec.v ===== *)
(** * What the union iterator visits

    Stated for any iterators that go through sorted lists of entries: the union
    iterator goes through the sorted union of their lists, every entry once,
    although it skips common subtrees as wholes.  Node iterators over any number
    of tries are such iterators. *)
From stdpp Require Import sorting.
From S2P Require Import Prelude Errors Geth Encoding Node Mpt MptFacts Tracer Reader.
From S2P Require Import Trie Repr Refine Hasher TrieSpec Iterator SetIterators Walk IteratorSpec Seek Entries.
From S2P Require Import DifferenceSpec Heap.
Local Open Scope nat_scope.

(** ** The order of the entries *)

(** By path, leaves first, then by hash and by value. *)
Definition entry_lt (x y : entry) : Prop :=
  bytes_lt (e_path x) (e_path y) ∨ e_path x = e_path y ∧
    (e_leaf x = true ∧ e_leaf y = false ∨ e_leaf x = e_leaf y ∧
      (bytes_lt (e_hash x) (e_hash y) ∨ e_hash x = e_hash y ∧ bytes_lt (e_blob x) (e_blob y))).

#[export] Instance entry_lt_strict : StrictOrder entry_lt.
Proof.
  split.
  - intros x Hx. unfold entry_lt in Hx.
    destruct Hx as [Hx|(_ & [[E E']|(_ & [Hx|(_ & Hx)])])]; try by apply (irreflexivity bytes_lt) in Hx. congruence.
  - intros x y z. unfold entry_lt.
    intros [H|(-> & [[Ex Ey]|(-> & [H|(-> & H)])])] [H'|(<- & [[Ey' Ez]|(<- & [H'|(<- & H')])])];
      repeat match goal with
      | A : bytes_lt ?a ?b, B : bytes_lt ?b ?c |- _ => assert (bytes_lt a c) by (by etransitivity); clear B
      end; try congruence; tauto.
Qed.

Definition entry_le (x y : entry) : Prop := x = y ∨ entry_lt x y.

Lemma entry_le_lt_trans x y z : entry_le x y → entry_lt y z → entry_lt x z.
Proof. intros [->|H] H'; [done|by etransitivity]. Qed.

Lemma entry_le_antisym x y : entry_le x y → entry_le y x → x = y.
Proof. intros [->|H] [H'|H']; try done. destruct (irreflexivity entry_lt x). by etransitivity. Qed.

#[export] Instance entry_le_preorder : PreOrder entry_le.
Proof.
  split; [by left|]. intros x y z [->|H] H'; [done|]. right. destruct H' as [<-|H']; [done|by etransitivity].
Qed.

(** What is shown determines the entry, and [compareNodes] compares entries. *)
Lemma shows_fun {I} `{!IterOps I} (it : I) x y : shows it x → shows it y → x = y.
Proof.
  intros (Hp & Hl & Hh & Hb) (Hp' & Hl' & Hh' & Hb'). destruct x as [p l h v], y as [p' l' h' v']. simpl in *.
  destruct l; rewrite Hl in Hl'; subst l'; simpl in *; congruence.
Qed.

Lemma compareNodes_entries {A B} `{!IterOps A, !IterOps B} (a : A) (b : B) x y :
  shows a x → shows b y →
  ∃ c, compareNodes a b = Ok c ∧ CompareSpec (x = y) (entry_lt x y) (entry_lt y x) c.
Proof.
  intros (Hp & Hl & Hh & Hb) (Hp' & Hl' & Hh' & Hb'). unfold compareNodes. rewrite Hp, Hp', Hl, Hl', Hh, Hh'.
  destruct x as [p l h v], y as [p' l' h' v']. unfold entry_lt. simpl in *.
  assert (∀ a b, CompareSpec (a = b) (bytes_lt a b) (bytes_lt b a) (bytes_compare a b)) as Hcmp.
  { intros a' b'. destruct (bytes_compare a' b') eqn:E; constructor; [by apply bytes_compare_eq|done|].
    unfold bytes_lt. by rewrite (bytes_compare_antisym a' b'), E. }
  destruct (Hcmp p p') as [->|Hc|Hc]; try (eexists; split; [done|]; constructor; by left).
  destruct l, l'; simpl; try (eexists; split; [done|]; constructor; naive_solver);
    (destruct (Hcmp h h') as [->|Hc|Hc]; try (eexists; split; [done|]; constructor; naive_solver)).
  rewrite Hb, Hb'. mred. eexists. split; [done|]. destruct (Hcmp v v') as [->|Hc|Hc]; constructor; naive_solver.
Qed.

(** Go through all entries of a union. *)
Fixpoint visit_union {I} `{!IterOps I} (fuel rounds : nat) (it : unionIterator (I := I)) :
    result (list entry * option error) :=
  match rounds with
  | O => OutOfFuel
  | S rounds =>
      let '(it, r) := ui_Next fuel true it in
      more ← r;
      if more : bool then
        path ← ui_Path it; leaf ← ui_Leaf it; hash ← ui_Hash it;
        blob ← (if leaf : bool then ui_LeafBlob it else Ok []);
        '(l, err) ← visit_union fuel rounds it;
        Ok (MkEntry path leaf hash blob :: l, err)
      else Ok ([], ui_Error it)
  end.

Lemma sorted_head e l x : StronglySorted entry_lt (e :: l) → x ∈ l → entry_lt e x.
Proof. intros [_ Hf]%StronglySorted_inv Hx. rewrite Forall_forall in Hf. by apply Hf. Qed.

(** ** The loop *)

Section union.
Context {I : Type} `{!IterOps I, !IterLaws I}.
(** Nodes with the same path and hash have the same below. *)
Context (Hsub : ∀ e l l', subtree (I := I) e l → subtree e l' → e_hash e ≠ zeroHash → l = l').

(** An iterator that stands at the first of these entries. *)
Inductive cursor (x : I) : list entry → Prop :=
  | cursor_at e b a :
      shows x e → iters x b a → ni_Error x = None → (e_hash e ≠ zeroHash → subtree e b) →
      StronglySorted entry_lt (e :: b ++ a) → cursor x (e :: b ++ a).

Definition ahead (x y : I) : Prop := ∃ ex ey, shows x ex ∧ shows y ey ∧ entry_le ex ey.
Definition showing (x : I) : Prop := ∃ e, shows x e.

Lemma Less_ahead x y : showing x → showing y →
  ∃ b, Less x y = Ok b ∧ if b then ahead x y else ahead y x.
Proof.
  intros [ex Hx] [ey Hy]. destruct (compareNodes_entries x y ex ey Hx Hy) as (c & E & Hc). unfold Less. rewrite E.
  mred. eexists. split; [done|]. destruct Hc as [->|Hc|Hc]; eexists _, _; (split; [done|]); (split; [done|]);
    [by left|by right..].
Qed.

Lemma ahead_trans x y z : ahead x y → ahead y z → ahead x z.
Proof.
  intros (ex & ey & Hx & Hy & H) (ey' & ez & Hy' & Hz & H'). rewrite <- (shows_fun y ey ey') in H' by done.
  exists ex, ez. split_and!; [done..|by etransitivity].
Qed.

Lemma ahead_refl x : showing x → ahead x x.
Proof. intros [e He]. by exists e, e. Qed.

Lemma cursor_showing x l : cursor x l → showing x.
Proof. destruct 1 as [e ? ? Hs]. by exists e. Qed.

(** The iterators of the heap, and what is to come in them in some order. *)
Definition holds (it : unionIterator (I := I)) (ms : list entry) : Prop :=
  ∃ ls, Forall2 cursor (ui_items it) ls ∧ is_heap ahead (ui_items it) ∧ ms ≡ₚ mjoin ls.

Lemma cursors_showing h ls : Forall2 cursor h ls → Forall showing h.
Proof. induction 1; constructor; [by eapply cursor_showing|done]. Qed.

Lemma cursor_sorted x l : cursor x l → StronglySorted entry_lt l.
Proof. by destruct 1. Qed.

Lemma holds_nil it ms : holds it ms → ui_items it = [] ↔ ms = [].
Proof.
  intros (ls & Hc & _ & Hp). split; intros E; rewrite E in *.
  - inversion Hc; subst. by apply Permutation_nil_r in Hp.
  - apply Permutation_nil_l in Hp. destruct Hc as [|x l h ls Hx _]; [done|]. by destruct Hx.
Qed.

(** The first of the heap is least. *)
Lemma holds_head it ms x h : holds it ms → ui_items it = x :: h →
  ∃ e, shows x e ∧ e ∈ ms ∧ ∀ y, y ∈ ms → entry_le e y.
Proof.
  intros (ls & Hc & Hh & Hp) E. pose proof (cursors_showing _ _ Hc) as Hok. rewrite E in *.
  inversion Hc as [|? l ? ls' Hx Hcs]; subst. destruct Hx as [e b a Hs Hi He Hsu Hso].
  exists e. split; [done|]. split; [rewrite Hp; by left|]. intros y Hy. rewrite Hp in Hy.
  apply list_elem_of_join in Hy as (l' & Hy & Hl').
  apply list_elem_of_lookup in Hl' as [i Hi'].
  destruct (Forall2_lookup_r _ _ _ _ _ Hc Hi') as (z & Hz & Hcz).
  destruct (root_least showing ahead ahead_trans ahead_refl (x :: h) x Hok Hh eq_refl z) as (ex & ez & Hex & Hez & Hle).
  { by eapply list_elem_of_lookup_2. }
  rewrite (shows_fun x ex e) in Hle by done. etransitivity; [exact Hle|].
  destruct Hcz as [e' b' a' Hs' _ _ _ Hso']. rewrite (shows_fun z ez e') by done.
  apply elem_of_cons in Hy as [->|Hy]; [done|]. right. by eapply sorted_head.
Qed.

Lemma pop_least_spec it ms : holds it ms → ms ≠ [] →
  ∃ x l it' ms', pop_least it = (it', Ok x) ∧ cursor x l ∧ ms ≡ₚ l ++ ms' ∧ holds it' ms'
    ∧ head (ui_items it) = Some x.
Proof.
  intros (ls & Hc & Hh & Hp) Hne.
  assert (ui_items it ≠ []) as Hit.
  { intros E. apply Hne. rewrite <- holds_nil; [done|by exists ls]. }
  destruct (heap_Pop_spec Less showing ahead Less_ahead ahead_trans ahead_refl (ui_items it)) as (x & h & E & Hx & Hh' & Hhd);
    [by eapply cursors_showing|done|done|].
  destruct (Permutation_Forall2 Hx Hc) as (ls' & Hls & Hc').
  inversion Hc' as [|? l ? ls0 Hcx Hcs]; subst.
  exists x, l, (MkUnion h (ui_count it)), (mjoin ls0). unfold pop_least. rewrite E. split_and!; [done|done| | |done].
  - rewrite Hp. by rewrite Hls.
  - by exists ls0.
Qed.

Lemma push_back_spec it ms x l : holds it ms → cursor x l →
  ∃ it', push_back x it = (it', Ok tt) ∧ holds it' (l ++ ms).
Proof.
  intros (ls & Hc & Hh & Hp) Hx.
  destruct (heap_Push_spec Less showing ahead Less_ahead ahead_trans x (ui_items it)) as (h & E & Hh' & Hheap);
    [by eapply cursors_showing|by eapply cursor_showing|done|].
  unfold push_back. rewrite E. eexists. split; [done|].
  assert (Forall2 cursor (x :: ui_items it) (l :: ls)) as Hc1 by by constructor.
  destruct (Permutation_Forall2 (symmetry Hh') Hc1) as (ls' & Hls & Hc').
  exists ls'. split_and!; [done|done|]. by rewrite <- Hls, Hp.
Qed.

Lemma move_on_spec it ms x b a d : holds it ms → iters x b a → StronglySorted entry_lt (b ++ a) →
  ∃ it', move_on x d it = (it', Ok tt) ∧ holds it' ((if d then b ++ a else a) ++ ms).
Proof.
  intros Hit Hi Hs. destruct (Next_law x b a d Hi) as (x' & r & E & Hx). unfold move_on. rewrite E.
  assert (StronglySorted entry_lt (if d then b ++ a else a)) as Hs'
    by (destruct d; [done|by eapply StronglySorted_app_1_r]).
  unfold lift. mred. destruct (if d then b ++ a else a) as [|e rest].
  - destruct Hx as (-> & _). by exists it.
  - destruct Hx as (-> & He & Hsh & b' & a' & -> & Hsu & Hi'). by apply push_back_spec, cursor_at.
Qed.

(** The loop skips [e] wherever it comes; what it skips besides is below [e]. *)
Lemma skipLoop_spec fuel : ∀ it ms least e b,
  holds it ms → shows least e → (e_hash e ≠ zeroHash → subtree e b) →
  (∀ y, y ∈ ms → entry_le e y) → length ms < fuel →
  ∃ it' ms', skipLoop fuel true least it = (it', Ok tt) ∧ holds it' ms' ∧ length ms' ≤ length ms
    ∧ (∀ y, y ∈ ms' → y ∈ ms ∧ y ≠ e) ∧ (∀ y, y ∈ ms → y = e ∨ y ∈ ms' ∨ y ∈ b).
Proof.
  induction fuel as [|fuel IH]; intros it ms least e b Hit Hl Hb Hle Hf; [lia|]. cbn [skipLoop].
  destruct (ui_items it) as [|top h] eqn:Eit.
  { exists it, ms. pose proof (proj1 (holds_nil it ms Hit) Eit) as ->. split_and!; try done;
      intros y Hy; by apply not_elem_of_nil in Hy. }
  destruct (holds_head it ms top h Hit Eit) as (et & Ht & Hin & Hleast).
  destruct (compareNodes_entries least top e et Hl Ht) as (c & E & Hc). unfold skips. cbn [negb andb].
  unfold lift at 1. rewrite E. mred. destruct Hc as [<-|Hc|Hc].
  - destruct (pop_least_spec it ms Hit) as (x & l & it1 & ms1 & Ep & Hx & Hms & Hit1 & Hhd);
      [intros ->; by apply not_elem_of_nil in Hin|].
    rewrite Eit in Hhd. injection Hhd as <-. rewrite Ep.
    destruct Hx as [e' b' a' Hs' Hi' He' Hsu' Hso']. pose proof (shows_fun top e e' Ht Hs') as <-.
    pose proof Hs' as (_ & _ & Hh & _). rewrite Hh. set (d := bool_decide (e_hash e = zeroHash)).
    apply StronglySorted_inv in Hso' as Hso1. destruct Hso1 as [Hso1 _].
    destruct (move_on_spec it1 ms1 top b' a' d Hit1 Hi' Hso1) as (it2 & Em & Hit2). rewrite Em.
    set (ms2 := (if d then b' ++ a' else a') ++ ms1) in *.
    assert (∀ y, y ∈ ms2 → y ∈ ms) as Hsubset.
    { intros y. rewrite Hms. unfold ms2. destruct d; rewrite !elem_of_app, elem_of_cons, ?elem_of_app; tauto. }
    assert (S (length ms2) ≤ length ms) as Hlen.
    { rewrite Hms. unfold ms2. destruct d; rewrite !length_app; simpl; rewrite ?length_app; lia. }
    destruct (IH it2 ms2 least e b) as (it' & ms' & El & Hit' & Hlen' & Hin' & Hout); [done|done|done|auto|lia|].
    exists it', ms'. split_and!; [done|done|lia| |].
    + intros y Hy. destruct (Hin' y Hy). auto.
    + intros y. rewrite Hms. rewrite elem_of_app, elem_of_cons, elem_of_app. intros [[->|[Hy|Hy]]|Hy]; [by left|..].
      * unfold d in ms2. destruct (bool_decide_reflect (e_hash e = zeroHash)) as [|Hz].
        -- apply Hout, elem_of_app. left. apply elem_of_app. by left.
        -- right; right. by rewrite (Hsub e b b') by auto.
      * apply Hout. unfold ms2. rewrite elem_of_app. left. destruct d; [apply elem_of_app; by right|done].
      * apply Hout, elem_of_app. by right.
  - exists it, ms. split_and!; [done|done|done| |by auto]. intros y Hy. split; [done|]. intros ->.
    destruct (irreflexivity entry_lt et). by eapply entry_le_lt_trans; [apply Hleast|].
  - destruct (irreflexivity entry_lt e). eapply entry_le_lt_trans; [by apply Hle|done].
Qed.

(** A call takes the least entry out, wherever it comes. *)
Lemma ui_Next_spec fuel it ms : holds it ms → length ms < fuel →
  ∃ it' ms', ui_Next fuel true it = (it', Ok (bool_decide (ms' ≠ []))) ∧ holds it' ms' ∧ length ms' ≤ pred (length ms)
    ∧ match ui_items it with
      | [] => ms' = []
      | x :: _ => ∃ e, shows x e ∧ ∀ y, y ∈ ms' ↔ y ∈ ms ∧ y ≠ e
      end.
Proof.
  intros Hit Hf. unfold ui_Next. destruct (ui_items it) as [|x h] eqn:Eit.
  { exists it, ms. pose proof (proj1 (holds_nil it ms Hit) Eit) as ->. by split_and!. }
  destruct (holds_head it ms x h Hit Eit) as (e & Hx & Hin & Hleast).
  destruct (pop_least_spec it ms Hit) as (x' & l & it1 & ms1 & Ep & Hcx & Hms & Hit1 & Hhd);
    [intros ->; by apply not_elem_of_nil in Hin|].
  rewrite Eit in Hhd. injection Hhd as <-. mred. rewrite Ep.
  destruct Hcx as [e' b a Hs' Hi _ Hsu Hso].
  pose proof (shows_fun x e e' Hx Hs') as <-.
  destruct (skipLoop_spec fuel it1 ms1 x e b) as (it2 & ms2 & El & Hit2 & Hlen & Hin2 & Hout); [done|done|done| | |].
  { intros y Hy. apply Hleast. rewrite Hms. apply elem_of_app. by right. }
  { rewrite Hms, length_app in Hf. lia. }
  rewrite El. apply StronglySorted_inv in Hso as Hso1. destruct Hso1 as [Hso1 _].
  destruct (move_on_spec it2 ms2 x b a true Hit2 Hi Hso1) as (it' & Em & Hit'). rewrite Em. unfold gets.
  exists it', ((b ++ a) ++ ms2). split_and!.
  - do 2 f_equal. apply bool_decide_ext. by rewrite holds_nil.
  - done.
  - rewrite Hms, !length_app. simpl. rewrite length_app. lia.
  - exists e. split; [done|]. intros y. rewrite Hms, !elem_of_app, elem_of_cons, elem_of_app. split.
    + intros [Hy|Hy]; [|naive_solver]. split; [by left; right|]. intros ->.
      apply (irreflexivity entry_lt e). eapply sorted_head; [done|]. by apply elem_of_app.
    + intros [[[->|Hy]|Hy] Hne]; [done|by left|]. destruct (Hout y Hy) as [->|[?|?]]; [done|by right|by left; left].
Qed.

Lemma ui_Error_none it ms : holds it ms → ui_Error it = None.
Proof.
  intros (ls & Hc & _). unfold ui_Error. induction Hc as [|x l h ls Hx _ IH]; [done|]. simpl.
  by destruct Hx as [e b a _ _ -> _ _].
Qed.

(** What an iteration visits after the current entry: the rest, in order. *)
Lemma visit_union_rest fuel rounds : ∀ it ms,
  holds it ms → length ms < fuel → length ms < rounds →
  ∃ l, visit_union fuel rounds it = Ok (l, None) ∧ StronglySorted entry_lt l
    ∧ ∀ y, y ∈ l ↔ y ∈ ms ∧ match ui_items it with [] => True | x :: _ => ¬ shows x y end.
Proof.
  induction rounds as [|rounds IH]; intros it ms Hit Hf Hr; [lia|].
  destruct (ui_Next_spec fuel it ms Hit Hf) as (it' & ms' & E & Hit' & Hlen & Hms).
  assert (∀ y, y ∈ ms' ↔ y ∈ ms ∧ match ui_items it with [] => True | x :: _ => ¬ shows x y end) as Hin.
  { destruct (ui_items it) as [|x h] eqn:Eit.
    - pose proof (proj1 (holds_nil it ms Hit) Eit) as ->. rewrite Hms. intros y. by rewrite elem_of_nil; tauto.
    - destruct Hms as (e & He & Hy). intros y. rewrite Hy. split; intros [Hym Hn]; (split; [done|]).
      + intros Hs. by apply Hn, (shows_fun x).
      + by intros ->. }
  cbn [visit_union]. rewrite E. mred. destruct (ui_items it') as [|x h] eqn:Eit'.
  - pose proof (proj1 (holds_nil it' ms' Hit') Eit') as ->. rewrite bool_decide_false by auto.
    exists []. rewrite (ui_Error_none it' []) by done. split_and!; [done|constructor|done].
  - destruct (holds_head it' ms' x h Hit' Eit') as (e & Hx & Hine & Hleast).
    rewrite bool_decide_true by (intros ->; by apply not_elem_of_nil in Hine).
    assert (length ms' < length ms) as Hlt.
    { destruct ms; [|simpl in *; lia]. by apply Hin in Hine as [?%not_elem_of_nil _]. }
    destruct (IH it' ms' Hit') as (l & El & Hs & Hl); [lia|lia|]. rewrite Eit' in Hl.
    exists (e :: l). pose proof Hx as (Hp & Hlf & Hh & Hb).
    unfold ui_Path, ui_Leaf, ui_Hash, ui_LeafBlob, first, index. rewrite Eit'. simpl. rewrite Hp, Hlf, Hh, El.
    split_and!.
    + destruct e as [p [] hh v]; simpl in *; [by rewrite Hb|by rewrite Hb].
    + constructor; [done|]. apply Forall_forall. intros y [Hy Hn]%Hl. destruct (Hleast y Hy) as [<-|]; done.
    + intros y. rewrite <- Hin, elem_of_cons, Hl. split; [by intros [->|[? _]]|]. intros Hy.
      destruct (decide (y = e)) as [->|Hne]; [by left|]. right. split; [done|]. intros Hs'. by apply Hne, (shows_fun x).
Qed.

(** An iteration from the start over iterators that show the same entry. *)
Lemma NewUnionIterator_spec its ls : Forall2 cursor its ls →
  ∃ it, NewUnionIterator its = Ok it ∧ holds it (mjoin ls).
Proof.
  intros Hc. destruct (heap_Init_spec Less showing ahead Less_ahead ahead_trans ahead_refl its) as (h & E & Hp & Hh);
    [by eapply cursors_showing|].
  unfold NewUnionIterator. rewrite E. eexists. split; [done|].
  destruct (Permutation_Forall2 (symmetry Hp) Hc) as (ls' & Hls & Hc'). exists ls'. split_and!; [done..|]. by rewrite Hls.
Qed.
End union.

(** An iterator that stops at an error leaves the heap, and its error is not
    reported. *)
Lemma ui_Error_lost {I} `{!IterOps I} fuel d (x x' : I) e n :
  ni_Next d x = (x', Ok false) → ni_Error x' = Some e →
  ui_Next (S fuel) d (MkUnion [x] n) = (MkUnion [] n, Ok false) ∧ ui_Error (MkUnion (@nil I) n) = None.
Proof.
  intros E _. split; [|done]. unfold ui_Next, pop_least. mred. cbn.
  rewrite bool_decide_true by lia. cbn. unfold move_on. by rewrite E.
Qed.

(** ** Tries *)

(** The laws of any of a class of iterators. *)
Definition any_laws {I} `{!IterOps I} (P : IterLaws I → Prop) : IterLaws I.
Proof.
  refine {| subtree e l := ∃ L, P L ∧ @subtree _ _ L e l; iters it b a := ∃ L, P L ∧ @iters _ _ L it b a |}.
  intros it b a d (L & HL & Hi). destruct (@Next_law _ _ L it b a d Hi) as (it' & r & E & Hn).
  exists it', r. split; [done|]. destruct (if d then b ++ a else a) as [|e rest].
  - destruct Hn as (-> & He & Hi'). split_and!; [done|done|]. by exists L.
  - destruct Hn as (-> & He & Hs & b' & a' & -> & Hsu & Hi'). split_and!; [done..|]. exists b', a'.
    split_and!; [done| |]; by exists L.
Defined.

Lemma by_path_sorted l : by_path l → StronglySorted entry_lt l.
Proof.
  unfold by_path. induction l as [|e l IH]; [constructor|]. rewrite fmap_cons.
  intros [Hs Hf]%StronglySorted_inv. constructor; [by apply IH|]. rewrite Forall_fmap in Hf.
  eapply Forall_impl; [exact Hf|]. intros x Hx. by left.
Qed.

Lemma zeros_least n b : Forall is_byte b → length b = n → b ≠ replicate n 0%Z → bytes_lt (replicate n 0%Z) b.
Proof.
  intros Hb. revert n. induction Hb as [|x b Hx Hb IH]; intros [|n] Hl Hne; try done.
  injection Hl as Hl. simpl in *. apply bytes_lt_cons. destruct Hx as [Hx _].
  destruct (decide (x = 0%Z)) as [->|]; [right|left; lia]. split; [done|]. apply IH; [done|congruence].
Qed.

Section tries.
Context `{RlpOps, CryptoOps, !RlpLaws, !CryptoLaws}.
Context (schedule : list nat) (Hsch : schedule ≡ₚ seq 0 16).

(** What an iterator shows before the first [Next]. *)
Definition start_entry : entry := MkEntry [] false zeroHash [].

Lemma seekLoop_nil fuel it it' e : it_stack it = [] → it_path it = [] →
  seekLoop schedule fuel [] [] it = (it', Ok e) → it_stack it' = [] ∧ it_path it' = [].
Proof.
  intros Hs Hp. destruct fuel as [|fuel]; [done|]. cbn [seekLoop]. unfold peekSeek, peek_with. mred.
  rewrite Hs. unfold init. destruct (Trie_Hash schedule (it_trie it)) as [T [root| | |]]; try done.
  destruct (state_resolve _ _ _); try done; by intros [= <- <-].
Qed.

Lemma NodeIterator_starts T T' it : NodeIterator schedule [] T = (T', Ok it) →
  shows (IterOps0 := node_iter_ops schedule) it start_entry.
Proof.
  intros E. assert (it_stack it = [] ∧ it_path it = []) as [Hs Hp].
  { unfold NodeIterator, newNodeIterator in E. destruct (Trie_Hash schedule T) as [T1 [root| | |]]; try done.
    destruct (bool_decide _); [by injection E as <- <-|].
    destruct (seek schedule [] _) as [it1 [e| | |]] eqn:Es; try done. injection E as <- <-.
    by apply (seekLoop_nil 3) in Es. }
  split_and!; try done; cbn [ni_Leaf ni_Hash node_iter_ops]; unfold it_Leaf, it_Hash; by rewrite ?Hs, ?Hp.
Qed.

Lemma node_entries_started m : map_ok m → (m ≠ ∅ → map_root m ≠ zeroHash) →
  StronglySorted entry_lt (start_entry :: node_entries m).
Proof.
  intros Hok Hz. pose proof (by_path_sorted _ (node_entries_by_path m Hok)) as Hs. constructor; [done|].
  destruct (tree_of_models m Hok) as [Hw Hm]. unfold node_entries, root_walk in *.
  destruct (tree_of m) as [t|] eqn:Et; [|constructor]. cbn [from_option] in *.
  change (walk [] t) with (walk_item [] (INode t)) in *. rewrite walk_item_wf in * by done.
  rewrite fmap_cons in *. set (e := entry_of_item ([], INode t)) in *.
  assert (entry_lt start_entry e) as He.
  { right. split; [done|]. right. split; [done|]. left. simpl. apply zeros_least; [apply keccak256_bytes|apply keccak256_length|].
    assert (m ≠ ∅) as Hne. { intros ->. done. }
    specialize (Hz Hne). unfold map_root in Hz. by rewrite Et in Hz. }
  constructor; [done|]. apply StronglySorted_inv in Hs as [_ Hf]. eapply Forall_impl; [exact Hf|].
  intros x Hx. by etransitivity.
Qed.
(** A trie that holds a map. *)
Definition opens_map (T : Trie) (m : gmap bytes bytes) : Prop :=
  decodes (t_reader T) ∧ (∃ hs, holds_map true hs m T)
  ∧ (m ≠ ∅ → map_root m ≠ EmptyRootHash) ∧ (m ≠ ∅ → map_root m ≠ zeroHash).

Definition no_collisions (ms : list (gmap bytes bytes)) : Prop :=
  ∀ m m' q t t', m ∈ ms → m' ∈ ms → (q, INode t) ∈ root_walk m → (q, INode t') ∈ root_walk m' →
    keccak256 (tenc t) = keccak256 (tenc t') → t = t'.

Lemma NodeIterator_cursor (P : IterLaws nodeIterator → Prop) T m :
  opens_map T m → (∀ Hd Hr, P (node_iter_laws schedule Hsch (t_reader T) Hd m Hr)) →
  ∃ it, (NodeIterator schedule [] T).2 = Ok it
    ∧ @cursor _ _ (any_laws P) it (start_entry :: node_entries m).
Proof.
  intros (Hd & (hs & Hm) & Hr & Hz) HP.
  destruct (NodeIterator_iters schedule Hsch (t_reader T) Hd m Hr hs T eq_refl Hm) as (T' & it & b & a & E & Hi & El).
  destruct (NodeIterator_lemma true (t_reader T) Hd schedule Hsch m Hr hs [] T eq_refl Hm) as (? & ? & E' & _ & He).
  rewrite E in E'. injection E' as <- <-. exists it. rewrite E. split; [done|]. rewrite <- El. constructor.
  - by eapply NodeIterator_starts.
  - by eexists.
  - by destruct He as [He|[? _]].
  - done.
  - rewrite El. apply node_entries_started; [by eapply holds_map_ok|done].
Qed.

(** The iterators one starts with, before their first [Next]. *)
Definition started (ms : list (gmap bytes bytes)) : list (list entry) :=
  (λ m, start_entry :: node_entries m) <$> ms.

Lemma started_elem ms x : x ∈ mjoin (started ms) ↔ ∃ m, m ∈ ms ∧ (x = start_entry ∨ x ∈ node_entries m).
Proof.
  unfold started. rewrite list_elem_of_join. split.
  - intros (l & Hx & Hl). apply list_elem_of_fmap in Hl as (m & -> & Hm). apply elem_of_cons in Hx. by exists m.
  - intros (m & Hm & Hx). exists (start_entry :: node_entries m). rewrite elem_of_cons. split; [done|].
    by apply (list_elem_of_fmap_2 (λ m, start_entry :: node_entries m)).
Qed.

(** Every iterator still shows the first entry, so the heap does. *)
Lemma started_first `{!IterLaws nodeIterator (IterOps0 := node_iter_ops schedule)} ms u x h :
  Forall (λ m, StronglySorted entry_lt (start_entry :: node_entries m)) ms →
  holds (IterOps0 := node_iter_ops schedule) u (mjoin (started ms)) → ui_items u = x :: h →
  shows (IterOps0 := node_iter_ops schedule) x start_entry.
Proof.
  intros Hs Hu E. destruct (holds_head u _ x h Hu E) as (e & Hx & He & Hleast).
  rewrite Forall_forall in Hs. apply started_elem in He as (m & Hm & He).
  replace start_entry with e; [done|]. apply entry_le_antisym.
  - apply Hleast, started_elem. exists m. by split; [|left].
  - destruct He as [->|He]; [by left|right]. eapply sorted_head; [by apply Hs|done].
Qed.

(** C12: the union iterator over any number of tries visits, in order and each
    once, exactly the nodes and values that one of the tries has, although it
    skips subtrees with equal hashes, and ends without an error.  The hypotheses
    are that there are no hash collisions between the tries and that no root
    hashes to zero. *)
Theorem UnionIterator_correct (ts : list (Trie * gmap bytes bytes)) :
  Forall (λ '(T, m), opens_map T m) ts → no_collisions ts.*2 →
  ∃ its u, Forall2 (λ p it, (NodeIterator schedule [] p.1).2 = Ok it) ts its
    ∧ NewUnionIterator (IterOps0 := node_iter_ops schedule) its = Ok u
    ∧ ∀ fuel rounds, let n := sum_list ((λ m, S (length (node_entries m))) <$> ts.*2) in
        n < fuel → n < rounds →
        ∃ l, visit_union (IterOps0 := node_iter_ops schedule) fuel rounds u = Ok (l, None)
          ∧ StronglySorted entry_lt l
          ∧ ∀ x, x ∈ l ↔ ∃ m, m ∈ ts.*2 ∧ x ∈ node_entries m.
Proof.
  intros Hts Hnc. set (O := node_iter_ops schedule).
  set (P := λ L, ∃ m rd Hd Hr, m ∈ ts.*2 ∧ L = node_iter_laws schedule Hsch rd Hd m Hr).
  assert (Forall (λ m, StronglySorted entry_lt (start_entry :: node_entries m)) ts.*2) as Hsorted.
  { rewrite Forall_fmap. eapply Forall_impl; [exact Hts|]. intros [T m] (_ & (hs & Hm) & _ & Hz).
    apply node_entries_started; [by eapply holds_map_ok|done]. }
  destruct (proj1 (Forall_exists_Forall2_l (λ p it, (NodeIterator schedule [] p.1).2 = Ok it
    ∧ @cursor _ _ (any_laws P) it (start_entry :: node_entries p.2)) ts)) as (its & Hits).
  { rewrite Forall_forall in Hts |- *. intros [T m] Hp. apply NodeIterator_cursor; [by apply (Hts (T, m))|].
    intros Hd Hr. exists m, (t_reader T), Hd, Hr. split; [|done]. by apply (list_elem_of_fmap_2 snd) in Hp. }
  assert (Forall2 (@cursor _ _ (any_laws P)) its (started ts.*2)) as Hc.
  { unfold started. rewrite <- list_fmap_compose, Forall2_fmap_r. apply Forall2_flip.
    eapply Forall2_impl; [exact Hits|]. by intros [T m] it [_ Hit]. }
  destruct (NewUnionIterator_spec (IterLaws0 := any_laws P) its _ Hc) as (u & Eu & Hu).
  exists its, u. split_and!; [eapply Forall2_impl; [exact Hits|]; by intros ? ? []|done|].
  assert (∀ e l l', @subtree _ _ (any_laws P) e l → @subtree _ _ (any_laws P) e l' → e_hash e ≠ zeroHash → l = l') as Hsub.
  { intros e l l' (L & (m & rd & Hd & Hr & Hm & ->) & Hl) (L' & (m' & rd' & Hd' & Hr' & Hm' & ->) & Hl').
    eapply node_subtrees_agree; [|exact Hl|exact Hl']. intros q t t'. by apply Hnc. }
  intros fuel rounds n Hf Hr.
  assert (length (mjoin (started ts.*2)) = n) as Hn.
  { unfold n, started. rewrite length_join. f_equal. by rewrite <- list_fmap_compose. }
  destruct (visit_union_rest (IterLaws0 := any_laws P) Hsub fuel rounds u _ Hu) as (l & El & Hl & Hin); [lia..|].
  exists l. split_and!; [done|done|]. intros y. rewrite Hin, started_elem.
  destruct (ui_items u) as [|x h] eqn:Ei.
  - apply (holds_nil (IterLaws0 := any_laws P) u _ Hu) in Ei. destruct ts; [|done]. set_solver.
  - pose proof (started_first (IterLaws0 := any_laws P) _ u x h Hsorted Hu Ei) as Hx.
    split.
    + intros ((m & Hm & [->|Hy]) & Hne); [done|by exists m].
    + intros (m & Hm & Hy). split; [exists m; by split; [|right]|]. intros Hy'.
      pose proof (shows_fun x _ _ Hx Hy') as <-. rewrite Forall_forall in Hsorted.
      apply (irreflexivity entry_lt start_entry). eapply sorted_head; [by apply Hsorted|done].
Qed.
End tries.

(** ** Witness *)

Module Witness.
Import Standin TrieSpec.Witness Entries.Witness DifferenceSpec.Witness.

(** Two tries that share a subtree, and an empty one. *)
Definition tries : list (Trie * gmap bytes bytes) := [(T4, M4); (fresh, ∅); (T5, M5)].

Lemma opens_empty_reader T m : t_reader T = newEmptyReader → holds_map true false m T →
  (m ≠ ∅ → map_root m ≠ EmptyRootHash) → opens_map T m.
Proof.
  intros E Hm Hr. split_and!; [rewrite E; apply empty_decodes|by exists false|done|].
  intros _. unfold map_root, root_hash. destruct (tree_of m); [apply hash32_nonzero|].
  apply (bool_decide_unpack _). vm_compute. exact I.
Qed.

Lemma tries_open : Forall (λ '(T, m), opens_map T m) tries.
Proof.
  unfold tries. constructor; [|constructor; [|constructor; [|constructor]]].
  - apply opens_empty_reader; [vm_compute; reflexivity|apply T4_holds|apply M4_root].
  - apply opens_empty_reader; [reflexivity|apply holds_map_fresh|by intros []].
  - apply opens_empty_reader; [vm_compute; reflexivity|apply T5_holds|apply M5_root].
Qed.

Lemma tries_no_collisions : no_collisions tries.*2.
Proof.
  assert (forallb (λ m, forallb (λ m', no_collision (root_walk m) (root_walk m')) tries.*2) tries.*2 = true) as Hn
    by (vm_compute; reflexivity).
  intros m m' q t t' Hm Hm'. rewrite forallb_forall in Hn.
  apply list_elem_of_In in Hm, Hm'. specialize (Hn _ Hm). rewrite forallb_forall in Hn.
  by apply no_collision_sound, Hn.
Qed.

Example union_paths :
  let iter p := (NodeIterator (seq 0 16) [] p.1).2 in
  match iter (T4, M4), iter (fresh, ∅ : gmap bytes bytes), iter (T5, M5) with
  | Ok a, Ok b, Ok c =>
      match NewUnionIterator (IterOps0 := node_iter_ops (seq 0 16)) [a; b; c] with
      | Ok u =>
          match visit_union (IterOps0 := node_iter_ops (seq 0 16)) 40 40 u with
          | Ok (l, None) => e_path <$> l
          | _ => []
          end
      | _ => []
      end
  | _, _, _ => []
  end = [[]; []; [1]; [1; 2]; [1; 2; 3]; [1; 2; 3; 4]; [1; 2; 3; 4; 16]; [1; 2; 3; 5]; [1; 2; 3; 5; 16];
         [1; 2; 16]; [2]; [2; 0; 16]; [2; 0; 16]; [4]; [4; 2; 0; 7; 16]]%Z.
Proof. vm_compute. reflexivity. Qed.

Theorem UnionIterator_correct_witness :
  ∃ its u, Forall2 (λ p it, (NodeIterator (seq 0 16) [] p.1).2 = Ok it) tries its
    ∧ NewUnionIterator (IterOps0 := node_iter_ops (seq 0 16)) its = Ok u
    ∧ ∀ fuel rounds, let n := sum_list ((λ m, S (length (node_entries m))) <$> tries.*2) in
        n < fuel → n < rounds →
        ∃ l, visit_union (IterOps0 := node_iter_ops (seq 0 16)) fuel rounds u = Ok (l, None)
          ∧ StronglySorted entry_lt l
          ∧ ∀ x, x ∈ l ↔ ∃ m, m ∈ tries.*2 ∧ x ∈ node_entries m.
Proof. exact (UnionIterator_correct (seq 0 16) (reflexivity _) tries tries_open tries_no_collisions). Defined.
End Witness.
