(* ===== verification/Proof.v ===== *)
(** * Merkle proofs: trie_by_cid/trie/proof.go

    [Prove] collects the encoded nodes on the path to a key.  The proof database
    it writes to is the list of its [Put] calls, in order. *)
From S2P Require Import Prelude Errors Geth Encoding Node Mpt MptFacts Tracer Reader.
From S2P Require Import Trie Repr Refine Hasher TrieSpec.
Local Open Scope nat_scope.

Section prove.
Context `{RlpOps, CryptoOps}.

(** The first loop: the nodes on the path.  Nodes read from the store are not
    tracked and not linked into the trie. *)
Fixpoint proveNodes (rd : trieReader) (fuel : nat) (tn : node) (prefix key : bytes)
    : result (list node) :=
  match key, tn with
  | [], _ | _, nilNode => Ok []
  | k0 :: krest, _ =>
      match fuel with
      | O => OutOfFuel
      | S fuel =>
          match tn with
          | shortNode nk nv _ =>
              if bool_decide (length key < length nk ∨ nk ≠ take (length nk) key) then Ok [tn]
              else
                rest ← proveNodes rd fuel nv (prefix ++ nk) (drop (length nk) key);
                Ok (tn :: rest)
          | fullNode cs _ =>
              c ← index cs (nib k0);
              rest ← proveNodes rd fuel c (prefix ++ [k0]) krest;
              Ok (tn :: rest)
          | hashNode h =>
              tn ← reader_node rd prefix (BytesToHash h);
              proveNodes rd fuel tn prefix key
          | _ => Panic "invalid node"
          end
      end
  end.

(** The second loop: a node is put when it is stored under its hash, or is the
    first one; [fromLevel] nodes are skipped. *)
Fixpoint proveElems (fromLevel : Z) (i : nat) (nodes : list node) : result (list (bytes * bytes)) :=
  match nodes with
  | [] => Ok []
  | n :: nodes =>
      if bool_decide (0 < fromLevel)%Z then proveElems (fromLevel - 1) (S i) nodes
      else
        '(n, hn) ← proofHash (newHasher false []) n;
        rest ← proveElems fromLevel (S i) nodes;
        match hn with
        | hashNode h => enc ← nodeToBytes n; Ok ((h, enc) :: rest)
        | _ =>
            if bool_decide (i = 0) then enc ← nodeToBytes n; Ok ((keccak256 enc, enc) :: rest)
            else Ok rest
        end
  end.

Definition Prove (key : bytes) (fromLevel : Z) (t : Trie) : result (list (bytes * bytes)) :=
  let k := keybytesToHex key in
  nodes ← proveNodes (t_reader t) (fuel_for k) (t_root t) [] k;
  proveElems fromLevel 0 nodes.
End prove.
