(* ===== verification/ProofSpec.v ===== *)
(** * Merkle proofs prove

    [Prove] puts the encodings of the nodes on the path to a key; a checker that
    knows the root hash and looks nodes up by hash reads off them what the trie
    holds at the key, presence or absence, and cannot be made to read anything
    else.  The checker is part of the specification: it decodes with
    [decodeNode], but it is not go-ethereum's [VerifyProof]. *)
From S2P Require Import Prelude Errors Geth Encoding Node Mpt MptFacts Tracer Reader.
From S2P Require Import Trie Repr Refine Hasher TrieSpec Iterator IteratorSpec Proof.
Local Open Scope nat_scope.

(** ** The checker *)

(** Follow a key inside a node, down to a reference, a value or nothing. *)
Fixpoint descend (n : node) (key : bytes) : node * bytes :=
  match n with
  | shortNode k v _ =>
      if bool_decide (take (length k) key = k) then descend v (drop (length k) key) else (nilNode, [])
  | fullNode cs _ =>
      match key with
      | [] => (nilNode, [])
      | x :: key => default (nilNode, []) (map (λ c, descend c key) cs !! nib x)
      end
  | _ => (n, key)
  end.

(** What a proof shows: the value, its absence, or nothing ([None]). *)
Fixpoint check `{RlpOps} (fuel : nat) (db : bytes → option bytes) (h key : bytes) : option (option bytes) :=
  match fuel with
  | O => None
  | S fuel =>
      enc ← db h;
      match decodeNode None enc with
      | Ok n =>
          match descend n key with
          | (nilNode, _) => Some None
          | (valueNode v, _) => Some (Some v)
          | (hashNode h, key) => check fuel db h key
          | _ => None
          end
      | _ => None
      end
  end.

(** ** The path to a key *)

Fixpoint tree_path (t : tree) (p : bytes) : list tree :=
  t :: match t with
       | TLeaf _ _ => []
       | TExt k c => if bool_decide (take (length k) p = k) then tree_path c (drop (length k) p) else []
       | TFull cs _ =>
           match p with
           | [] => []
           | x :: p => default [] (map (λ oc, match oc with Some c => tree_path c p | None => [] end) cs !! nib x)
           end
       end.

Section spec.
Context `{RlpOps, CryptoOps, !RlpLaws, !CryptoLaws}.

(** The elements of a proof from the trees on a path, the root of the trie first. *)
Fixpoint elements_of (fromLevel : Z) (i : nat) (ts : list tree) : list (bytes * bytes) :=
  match ts with
  | [] => []
  | t :: ts =>
      if bool_decide (0 < fromLevel)%Z then elements_of (fromLevel - 1) (S i) ts
      else (if bool_decide (32 ≤ length (tenc t) ∨ i = 0) then [(keccak256 (tenc t), tenc t)] else [])
           ++ elements_of fromLevel (S i) ts
  end.

Lemma tree_path_full cs ov x p oc :
  cs !! nib x = Some oc →
  tree_path (TFull cs ov) (x :: p) = TFull cs ov :: match oc with Some c => tree_path c p | None => [] end.
Proof. intros Hi. simpl. by rewrite list_lookup_fmap, Hi. Qed.
Lemma tree_path_ext k c p : tree_path (TExt k c) (k ++ p) = TExt k c :: tree_path c p.
Proof. simpl. by rewrite take_app_length, drop_app_length, bool_decide_true. Qed.

Context (full : bool) (rd : trieReader) (Hrd : decodes rd).
Abbreviation repr := (repr full rd).
Abbreviation expects := (expects full).

Lemma expects_bind {A B} (m : result A) (f : A → result B) P Q :
  expects P m → (∀ a, P a → expects Q (f a)) → expects Q (m ≫= f).
Proof. intros Hm Hf. destruct m; try done. by apply Hf. Qed.

(** Reading a node that is referred to by hash. *)
Lemma read_reference hs root t path :
  wf t → root = true ∨ by_hash t → available full rd t → stored_below full rd t →
  expects (λ n, repr hs root t n ∧ resolved n) (reader_node rd path (BytesToHash (keccak256 (tenc t)))).
Proof.
  intros Hw Hroot Ha Hs. pose proof (Hrd path (BytesToHash (keccak256 (tenc t)))) as Hd.
  destruct (Ha path) as [E|(Hf & e & E & He)]; rewrite E in Hd.
  - rewrite (Hd (expand (Some (BytesToHash (keccak256 (tenc t)))) t)).
    + split; [|apply resolved_expand]. rewrite BytesToHash_keccak. apply repr_expand; [done|done|]. by split.
    + by apply decodeNode_tenc.
    + by destruct t.
  - destruct (Hd He) as (e' & -> & ?). done.
Qed.

(** A node on the path, with the tree it stands for. *)
Definition on_path (t : tree) (n : node) : Prop := wf t ∧ resolved n ∧ ∃ hs root, repr hs root t n.

Lemma proveNodes_nil fuel prefix ov : proveNodes rd fuel (onode ov) prefix [] = Ok [].
Proof. by destruct fuel, ov. Qed.
Lemma proveNodes_absent fuel prefix key : proveNodes rd fuel nilNode prefix key = Ok [].
Proof. by destruct fuel, key. Qed.

Lemma on_path_repr hs root t n : wf t → repr hs root t n → resolved n → on_path t n.
Proof. intros. split_and!; [done..|by exists hs, root]. Qed.

Lemma path_end t n : on_path t n → Forall2 on_path [t] [n].
Proof. by constructor. Qed.

Ltac fuel := unfold need in *; cbn -[Nat.mul] in *; rewrite ?length_app in *; simpl length in *; lia.

Lemma proveNodes_short fuel nk nv fl prefix key :
  key ≠ [] →
  proveNodes rd (S fuel) (shortNode nk nv fl) prefix key
  = if bool_decide (take (length nk) key = nk)
    then rest ← proveNodes rd fuel nv (prefix ++ nk) (drop (length nk) key); Ok (shortNode nk nv fl :: rest)
    else Ok [shortNode nk nv fl].
Proof.
  intros Hk. destruct key as [|k0 krest]; [done|]. cbn [proveNodes].
  case_bool_decide as E; case_bool_decide as E'; try done; exfalso.
  - destruct E as [E|E]; [|congruence]. apply (f_equal length) in E'. rewrite length_take in E'. lia.
  - apply E. right. congruence.
Qed.

Lemma proveNodes_full fuel cs fl prefix x key :
  proveNodes rd (S fuel) (fullNode cs fl) prefix (x :: key)
  = (c ← index cs (nib x); rest ← proveNodes rd fuel c (prefix ++ [x]) key; Ok (fullNode cs fl :: rest)).
Proof. done. Qed.

Lemma proveNodes_hash fuel h prefix key :
  key ≠ [] →
  proveNodes rd (S fuel) (hashNode h) prefix key
  = (n ← reader_node rd prefix (BytesToHash h); proveNodes rd fuel n prefix key).
Proof. by destruct key. Qed.

Lemma proveNodes_spec fuel : ∀ hs root t n p prefix,
  wf t → repr hs root t n → path_ok p → need n p ≤ fuel →
  expects (Forall2 on_path (tree_path t p)) (proveNodes rd fuel n prefix (p ++ [16%Z])).
Proof.
  induction fuel as [|fuel IH]; intros hs root t n p prefix Hwf Hr Hp Hfuel; [destruct n; fuel|].
  assert (Hne : p ++ [16%Z] ≠ []) by (by destruct p). pose proof Hr as Hr0.
  destruct Hr as [hs root k v fl Hfl|hs root k c nc fl Hfl Hc|hs root cs ov ncs fl Hfl Hlen Hcs Hnil|hs root t Hh Ha Hs].
  - pose proof Hwf as [Hk _]. rewrite proveNodes_short by done.
    rewrite (bool_decide_ext _ (p = k)) by (by apply take_term_term).
    case_bool_decide as E; [|by eapply path_end, on_path_repr].
    subst. rewrite drop_ge by done. rewrite (proveNodes_nil fuel _ (Some v)).
    by eapply path_end, on_path_repr.
  - pose proof Hwf as (Hk & Hkne & Hf & Hwf'). rewrite proveNodes_short by done.
    rewrite (bool_decide_ext _ (take (length k) p = k)) by (by apply take_term).
    destruct (take_prefix k p) as [[p' ->]|Hnp].
    + rewrite take_app_length, bool_decide_true, tree_path_ext, <- app_assoc, drop_app_length by done.
      apply path_ok_app in Hp as [_ Hp']. eapply expects_bind; [eapply IH; try done|].
      * pose proof (need_le nc p'). destruct k; [done|]. fuel.
      * intros ns Hns. constructor; [by eapply on_path_repr|done].
    + rewrite bool_decide_false by done. cbn [tree_path]. rewrite bool_decide_false by done.
      by eapply path_end, on_path_repr.
  - pose proof Hwf as (Hlen16 & _). destruct p as [|x p].
    + cbn [app]. rewrite proveNodes_full. rewrite (index_lookup _ _ (onode ov)) by (apply nodes_last; congruence).
      mred. rewrite proveNodes_nil. by eapply path_end, on_path_repr.
    + cbn [app]. rewrite proveNodes_full. apply path_ok_cons in Hp as [Hx Hp].
      destruct (lookup_lt_is_Some_2 cs (nib x)) as [oc Hi]; [rewrite Hlen16; by apply nib_lt|].
      destruct (nodes_lookup cs ncs _ _ ov Hlen Hi) as (nc & Hn & Hn').
      rewrite (index_lookup _ _ _ Hn'), (tree_path_full _ _ _ _ _ Hi). mred.
      eapply (expects_bind _ _ (Forall2 on_path match oc with Some c => tree_path c p | None => [] end)).
      * destruct oc as [c|].
        -- eapply IH; [by eapply (wf_full_child cs ov)|by eapply Hcs|done|]. pose proof (need_le nc p). fuel.
        -- rewrite (Hnil _ _ Hi Hn), proveNodes_absent. constructor.
      * intros ns Hns. constructor; [by eapply on_path_repr|done].
  - rewrite proveNodes_hash by done.
    eapply expects_bind; [by apply (read_reference hs root)|]. intros n [Hr Hres].
    eapply IH; try done. rewrite need_resolved by done. fuel.
Qed.

(** ** The elements *)

Lemma proofHash_spec t n :
  on_path t n →
  ∃ col, proofHash (newHasher false []) n
         = Ok (col, if bool_decide (32 ≤ length (tenc t)) then hashNode (keccak256 (tenc t)) else col)
    ∧ resolved col ∧ nodeToBytes col = Ok (tenc t).
Proof.
  intros (Hwf & Hres & hs & root & Hr). unfold newHasher.
  assert (∀ col, encode col = tenc t → resolved col → col ≠ nilNode → ∃ col',
    Ok (col, to_hash col false)
      = Ok (E := error) (col', if bool_decide (32 ≤ length (tenc t)) then hashNode (keccak256 (tenc t)) else col')
    ∧ resolved col' ∧ nodeToBytes col' = Ok (tenc t)) as Hto.
  { intros col E Hc Hn. exists col. split_and!; [|done|].
    - unfold to_hash. rewrite E. repeat case_bool_decide; simpl; try done; lia.
    - rewrite <- E. by destruct col. }
  destruct Hr as [hs root k v fl Hfl|hs root k c nc fl Hfl Hc|hs root cs ov ncs fl Hfl Hlen Hcs Hnil|]; [..|done];
    cbn [proofHash].
  - destruct Hwf as [Hk Hv]. unfold hashShortNodeChildren. rewrite compact_of_ok by (by constructor). mred.
    by apply (Hto (shortNode (compact_of (k ++ [16%Z])) (valueNode v) fl)).
  - destruct Hwf as (Hk & Hkne & Hf & Hwf).
    destruct (hash_ext_child full rd _ _ _ k fl Hk Hwf Hf Hc) as (hd & cd & Hh & He & _).
    { by eapply hash_spec. }
    rewrite Hh. mred. apply (Hto (shortNode (compact_of k) hd fl)); [|done..]. cbn [encode tenc]. by rewrite He.
  - destruct (hash_children full rd cs ov ncs (hash None) fl) as (col & cac & Hh & He & _); try done.
    { intros i c nc Hi Hn. split; [by eapply (repr_not_nil full rd), repr_weaken, Hcs|].
      eapply hash_spec; [by eapply Hcs|]. by eapply (wf_full_child cs ov). }
    rewrite Hh. mred. apply (Hto (fullNode (col ++ [onode ov]) fl)); [|done..]. by apply encode_full.
Qed.

Lemma proveElems_spec ts ns : Forall2 on_path ts ns →
  ∀ fromLevel i, proveElems fromLevel i ns = Ok (elements_of fromLevel i ts).
Proof.
  induction 1 as [|t n ts ns Hn _ IH]; intros fromLevel i; [done|]. cbn [proveElems elements_of].
  case_bool_decide; [apply IH|].
  destruct (proofHash_spec t n Hn) as (col & -> & Hres & Henc). mred. rewrite IH. mred.
  case_bool_decide as Hl.
  - rewrite Henc. mred. by rewrite bool_decide_true by auto.
  - rewrite (bool_decide_ext (32 ≤ length (tenc t) ∨ i = 0) (i = 0)) by (split; [intros [|]; [lia|done]|auto]).
    destruct col; try done; case_bool_decide; rewrite ?Henc; done.
Qed.

Lemma Prove_lemma hs m T key fromLevel :
  t_reader T = rd → holds_map full hs m T → Forall is_byte key →
  expects (λ elems, elems = match tree_of m with
                            | Some t => elements_of fromLevel 0 (tree_path t (nibbles_of key))
                            | None => []
                            end) (Prove key fromLevel T).
Proof.
  intros E Hh Hk. destruct (holds_map_tree _ _ _ _ Hh) as [Hr Hw]. unfold Prove. rewrite E in *.
  pose proof (need_fuel_for (t_root T) key) as Hfuel. rewrite keybytesToHex_nibbles in *.
  destruct (tree_of m) as [t|]; cbn [repr_opt wf_opt from_option] in *.
  - eapply expects_bind; [eapply proveNodes_spec; try done; auto with s2r|].
    intros ns Hns. by rewrite (proveElems_spec _ _ Hns).
  - by rewrite Hr, proveNodes_absent.
Qed.
End spec.

(** ** What the checker reads *)

Section check.
Context `{RlpOps, CryptoOps, !RlpLaws, !CryptoLaws}.

Lemma elements_of_hash ts : ∀ i, Forall (λ e, e.1 = keccak256 e.2) (elements_of 0 i ts).
Proof.
  induction ts as [|t ts IH]; intros i; simpl; [done|]. apply Forall_app. split; [|done].
  case_bool_decide; by repeat constructor.
Qed.
Lemma elements_of_by_hash ts c : ∀ i, c ∈ ts → by_hash c → (keccak256 (tenc c), tenc c) ∈ elements_of 0 i ts.
Proof.
  induction ts as [|t ts IH]; intros i; [by intros ?%not_elem_of_nil|]. intros [->|Hc]%elem_of_cons Hb; simpl.
  - rewrite bool_decide_true by (by left). by left.
  - apply elem_of_app. right. by apply IH.
Qed.
Lemma tree_path_head t p : ∃ ts, tree_path t p = t :: ts.
Proof. destruct t; eexists; reflexivity. Qed.
Lemma elements_of_root t p : (keccak256 (tenc t), tenc t) ∈ elements_of 0 0 (tree_path t p).
Proof. destruct (tree_path_head t p) as [ts ->]. simpl. rewrite bool_decide_true by auto. by left. Qed.

(** A walk inside one node ends with the value at the path, or nothing, or at
    the reference to a tree further down. *)
Definition below (t : tree) (p : bytes) (c : tree) (q : bytes) : Prop :=
  wf c ∧ by_hash c ∧ path_ok q ∧ length q < length p ∧ tget t p = tget c q
  ∧ ∀ x, x ∈ tree_path c q → x ∈ tree_path t p.
Definition descends (t : tree) (p : bytes) (r : node * bytes) : Prop :=
  r.1 = onode (tget t p) ∨ ∃ c q, r = (hashNode (keccak256 (tenc c)), q ++ [16%Z]) ∧ below t p c q.

Lemma descends_up t p c q r :
  wf c → path_ok q → length q < length p → tget t p = tget c q →
  (∀ x, x ∈ tree_path c q → x ∈ tree_path t p) →
  (length (tenc c) < 32 → descends c q r) →
  (by_hash c → r = (hashNode (keccak256 (tenc c)), q ++ [16%Z])) →
  descends t p r.
Proof.
  intros Hw Hq Hl Hg Hx Hin Hout. destruct (decide (length (tenc c) < 32)) as [Hc|Hc].
  - destruct (Hin Hc) as [E|(c' & q' & -> & ? & ? & ? & ? & ? & ?)]; [left; congruence|].
    right. exists c', q'. unfold below. split_and!; try done; [lia|congruence|auto].
  - assert (by_hash c) as Hb by (unfold by_hash; lia). right. exists c, q. unfold below. split_and!; auto.
Qed.

Lemma descend_child c q :
  (∀ h, descends c q (descend (expand h c) (q ++ [16%Z]))) →
  (length (tenc c) < 32 → descends c q (descend (expand_child c) (q ++ [16%Z])))
  ∧ (by_hash c → descend (expand_child c) (q ++ [16%Z]) = (hashNode (keccak256 (tenc c)), q ++ [16%Z])).
Proof.
  intros Hd. unfold expand_child, by_hash. split; intros; case_bool_decide; try lia; [apply Hd|done].
Qed.

Lemma descend_spec t : ∀ h p, wf t → path_ok p → descends t p (descend (expand h t) (p ++ [16%Z])).
Proof.
  induction t as [k v|k c IH|cs ov IH] using tree_induction; intros h p Hwf Hp.
  - destruct Hwf as [Hk _]. cbn [expand descend].
    rewrite (bool_decide_ext _ (p = k)) by (by apply take_term_term).
    left. rewrite tget_leaf. by case_bool_decide.
  - destruct Hwf as (Hk & Hkne & Hf & Hwf). cbn [expand descend]. fold (expand_child c).
    rewrite (bool_decide_ext _ (take (length k) p = k)) by (by apply take_term).
    destruct (take_prefix k p) as [[q ->]|Hnp].
    + rewrite take_app_length, bool_decide_true, <- app_assoc, drop_app_length by done.
      apply path_ok_app in Hp as [_ Hq].
      destruct (descend_child c q) as [Hin Hout]; [intros; by apply IH|].
      eapply descends_up; try done.
      * rewrite length_app. destruct k; [done|]. simpl. lia.
      * by rewrite tget_ext_app.
      * intros x Hx. rewrite tree_path_ext. by right.
    + rewrite bool_decide_false by done. left. by rewrite tget_ext_ne.
  - pose proof Hwf as (H16 & _). cbn [expand].
    change (map _ cs) with (map expand_slot cs).
    destruct p as [|x p]; cbn [app descend]; rewrite list_lookup_fmap.
    + left. rewrite (nodes_last (map expand_slot cs) (onode ov)) by (by rewrite length_map). by destruct ov.
    + apply path_ok_cons in Hp as [Hx Hp].
      destruct (lookup_lt_is_Some_2 cs (nib x)) as [oc Hi]; [rewrite H16; by apply nib_lt|].
      rewrite lookup_app_l by (rewrite length_map, H16; by apply nib_lt).
      rewrite list_lookup_fmap, Hi. simpl. destruct oc as [c|].
      * destruct (wf_full_child _ _ _ _ Hwf Hi) as [Hwf' _].
        destruct (descend_child c p) as [Hin Hout]; [intros; by eapply IH|].
        eapply descends_up; try done.
        -- simpl. lia.
        -- by rewrite tget_full_cons, Hi.
        -- intros y Hy. rewrite (tree_path_full _ _ _ _ _ Hi). by right.
      * left. simpl. by rewrite list_lookup_fmap, Hi.
Qed.

(** One step of the checker. *)
Lemma check_step fuel db t p :
  wf t → path_ok p → db (keccak256 (tenc t)) = Some (tenc t) →
  check (S fuel) db (keccak256 (tenc t)) (p ++ [16%Z]) = Some (tget t p)
  ∨ ∃ c q, below t p c q
      ∧ check (S fuel) db (keccak256 (tenc t)) (p ++ [16%Z]) = check fuel db (keccak256 (tenc c)) (q ++ [16%Z]).
Proof.
  intros Hw Hp Hdb. cbn [check]. rewrite Hdb. cbn [mbind option_bind]. rewrite decodeNode_tenc by done.
  destruct (descend_spec t None p Hw Hp) as [E|(c & q & -> & Hb)]; [left|right; by exists c, q].
  destruct (descend _ _) as [n key]. simpl in E. subst n. by destruct (tget t p).
Qed.

(** The elements of a proof show what is at the key... *)
Lemma check_complete fuel : ∀ db t p,
  wf t → path_ok p → length p < fuel → db (keccak256 (tenc t)) = Some (tenc t) →
  (∀ c, c ∈ tree_path t p → by_hash c → db (keccak256 (tenc c)) = Some (tenc c)) →
  check fuel db (keccak256 (tenc t)) (p ++ [16%Z]) = Some (tget t p).
Proof.
  induction fuel as [|fuel IH]; intros db t p Hw Hp Hf Hdb Hall; [lia|].
  destruct (check_step fuel db t p Hw Hp Hdb) as [E|(c & q & (Hwc & Hbc & Hq & Hl & -> & Hx) & ->)]; [done|].
  destruct (tree_path_head c q) as [ts E].
  apply IH; try done; [lia|..]; auto. apply Hall; [|done]. apply Hx. rewrite E. by left.
Qed.

(** ... and a database of preimages shows nothing else, unless it holds a
    collision with a node on the path. *)
Lemma check_sound fuel : ∀ db t p r,
  wf t → path_ok p → (∀ h enc, db h = Some enc → keccak256 enc = h) →
  (∀ c enc, c ∈ tree_path t p → keccak256 enc = keccak256 (tenc c) → enc = tenc c) →
  check fuel db (keccak256 (tenc t)) (p ++ [16%Z]) = Some r → r = tget t p.
Proof.
  induction fuel as [|fuel IH]; intros db t p r Hw Hp Hpre Hcol; [done|]. intros Hc.
  destruct (tree_path_head t p) as [ts E].
  destruct (db (keccak256 (tenc t))) as [enc|] eqn:Hdb.
  2: { cbn [check] in Hc. by rewrite Hdb in Hc. }
  rewrite (Hcol t enc) in Hdb; [|rewrite E; by left|by apply Hpre].
  destruct (check_step fuel db t p Hw Hp Hdb) as [E'|(c & q & (Hwc & Hbc & Hq & Hl & -> & Hx) & E')];
    rewrite E' in Hc; [congruence|].
  eapply IH; eauto.
Qed.

(** C16: [Prove] returns, for a present key as for an absent one, encoded nodes
    under their hashes from which a checker that knows the root hash reads what
    the map holds at the key; or it reports a missing node.  Of an empty trie it
    proves nothing. *)
Theorem Prove_correct full hs m T key :
  holds_map full hs m T → decodes (t_reader T) → Forall is_byte key →
  match Prove key 0 T with
  | Ok elems =>
      Forall (λ e, e.1 = keccak256 e.2) elems ∧ (m = ∅ → elems = [])
      ∧ (m ≠ ∅ → ∀ db fuel, (∀ h enc, (h, enc) ∈ elems → db h = Some enc) →
           length (keybytesToHex key) ≤ fuel →
           check fuel db (map_root m) (keybytesToHex key) = Some (m !! key))
  | Err e => full = false ∧ missing e
  | Panic _ | OutOfFuel => False
  end.
Proof.
  intros Hh Hrd Hk. pose proof (Prove_lemma full _ Hrd hs m T key 0 eq_refl Hh Hk) as HP.
  destruct (holds_map_tree _ _ _ _ Hh) as [_ Hw]. unfold map_root.
  destruct (tree_of_models m) as [_ (Hm & Hpath & _)]; [by eapply holds_map_ok|].
  destruct (Prove key 0 T) as [elems|e|w|]; try done. simpl in HP. subst elems.
  destruct (tree_of m) as [t|]; simpl in *.
  - split_and!; [apply elements_of_hash| |].
    + intros ->. destruct (wf_has_key t Hw) as (p & v & Hp & Hg). destruct (Hpath p Hp) as (k & Hkb & ->); [by eexists|].
      rewrite (Hm k Hkb) in Hg. by rewrite lookup_empty in Hg.
    + intros _ db fuel Hdb Hf. rewrite keybytesToHex_nibbles, length_app in *. simpl in Hf.
      rewrite <- Hm by done. apply check_complete; [done|auto with s2r|lia| |].
      * apply Hdb, elements_of_root.
      * intros c Hc Hb. by apply Hdb, elements_of_by_hash.
  - split_and!; [done..|]. intros Hne. destruct Hne. apply map_empty. intros k.
    destruct (m !! k) as [v|] eqn:E; [|done].
    assert (map_ok m) as Hok by (by eapply holds_map_ok). destruct (Hok k v E) as [Hkb _].
    by rewrite <- (Hm k Hkb) in E.
Qed.
End check.

(** ** A proof of a present and of an absent key *)

Module Witness.
Import Standin TrieSpec.Witness.

Definition build : list op :=
  [OUpdate [18; 52] (replicate 40 1); OUpdate [18; 53] (replicate 40 2); OUpdate [32] [4]]%Z.
Definition T3 : Trie := (run_ops build fresh).1.
Definition M3 : gmap bytes bytes := (spec_ops build ∅).1.

Lemma T3_holds : holds_map true false M3 T3.
Proof.
  assert (Forall op_ok build) as Hok by (unfold build; repeat constructor; unfold is_byte; lia).
  destruct (run_ops_lemma build ∅ fresh) as [_ Hh]; [apply holds_map_fresh|exact Hok|exact Hh].
Qed.

Lemma T3_decodes : decodes (t_reader T3).
Proof. intros path h. simpl. intros _. eexists. split; [done|]. by eexists _, _, _, _. Qed.

Definition present : bytes := [18; 52]%Z.
Definition absent : bytes := [18; 54]%Z.
Definition elems (key : bytes) : list (bytes * bytes) := match Prove key 0 T3 with Ok l => l | _ => [] end.
Definition proof_db (key : bytes) (h : bytes) : option bytes := (list_to_map (elems key) : gmap bytes bytes) !! h.

Lemma proof_db_elems key h enc : NoDup (elems key).*1 → (h, enc) ∈ elems key → proof_db key h = Some enc.
Proof. intros Hnd Hin. by apply elem_of_list_to_map. Qed.

(** The leaf lies below three nodes; the absent key ends at the third. *)
Example proof_lengths : length (elems present) = 4 ∧ length (elems absent) = 3.
Proof. vm_compute. done. Qed.

Theorem Prove_correct_witness :
  check 9 (proof_db present) (map_root M3) (keybytesToHex present) = Some (Some (replicate 40 1%Z))
  ∧ check 9 (proof_db absent) (map_root M3) (keybytesToHex absent) = Some None.
Proof.
  assert (M3 ≠ ∅) as Hne by (apply (bool_decide_unpack _); vm_compute; exact I).
  assert (Prove present 0 T3 = Ok (elems present)) as E1 by (vm_compute; reflexivity).
  assert (Prove absent 0 T3 = Ok (elems absent)) as E2 by (vm_compute; reflexivity).
  pose proof (Prove_correct true false M3 T3 present T3_holds T3_decodes (keys_ok present eq_refl)) as H1.
  pose proof (Prove_correct true false M3 T3 absent T3_holds T3_decodes (keys_ok absent eq_refl)) as H2.
  rewrite E1 in H1. rewrite E2 in H2. destruct H1 as (_ & _ & H1), H2 as (_ & _ & H2). split.
  - rewrite (H1 Hne (proof_db present) 9); [vm_compute; reflexivity| |simpl; lia].
    intros h enc. apply proof_db_elems. apply (bool_decide_unpack _). vm_compute. exact I.
  - rewrite (H2 Hne (proof_db absent) 9); [vm_compute; reflexivity| |simpl; lia].
    intros h enc. apply proof_db_elems. apply (bool_decide_unpack _). vm_compute. exact I.
Defined.
End Witness.
