(* ===== verification/SecureTrie.v ===== *)
(** * The state trie: trie_by_cid/trie/secure_trie.go

    A trie whose keys are hashed, with a cache of the keys it was given.  The
    pointer [secKeyCacheOwner] only ever is nil or the trie itself, so it is the
    flag [owned]; the preimage store is shared with the database and is passed
    to the methods that use it. *)
From S2P Require Import Prelude Errors Geth Encoding Node Mpt MptFacts Tracer Reader.
From S2P Require Import Trie Repr Refine Hasher TrieSpec NodeSet Committer Database Proof.
Local Open Scope nat_scope.

Section secure.
Context `{RlpOps, CryptoOps, DiskOps, CacheOps, AccountOps}.

Record StateTrie := MkStateTrie {
  inner : Trie;
  secKeyCache : gmap bytes bytes;
  owned : bool
}.

(** Computations on a state trie. *)
Abbreviation T_ := (stateM StateTrie error).

Definition set_inner (t : Trie) (st : StateTrie) : StateTrie := MkStateTrie t (secKeyCache st) (owned st).

Definition NewStateTrie (id : ID) (db : Database) (codec : Z) : result StateTrie :=
  t ← New id (GetReader db) codec;
  Ok (MkStateTrie t ∅ false).

Definition hashKey (key : bytes) : bytes := keccak256 key.

(** The first use by a new owner starts an empty cache. *)
Definition getSecKeyCache (st : StateTrie) : StateTrie :=
  if owned st then st else MkStateTrie (inner st) ∅ true.
Definition upd_secKeyCache (f : gmap bytes bytes → gmap bytes bytes) (st : StateTrie) : StateTrie :=
  let st := getSecKeyCache st in MkStateTrie (inner st) (f (secKeyCache st)) (owned st).

(** Run a method of the wrapped trie. *)
Definition on_inner {A} (m : stateM Trie error A) : T_ A := λ st,
  let '(t, r) := m (inner st) in (set_inner t st, r).

Definition st_TryGet (key : bytes) : T_ (option bytes) := on_inner (TryGet (hashKey key)).

Definition st_Get (key : bytes) : T_ (option bytes) := λ st,
  match st_TryGet key st with (st, Err _) => (st, Ok None) | r => r end.

(** [rlp.DecodeBytes] of the value, nil when there is none. *)
Definition decode_account (res : option bytes) : result (option StateAccount) :=
  match res with
  | None => Ok None
  | Some b => match decode_StateAccount b with Some a => Ok (Some a) | None => Err ErrRlp end
  end.

Definition st_TryGetAccount (address : bytes) : T_ (option StateAccount) :=
  res ← on_inner (TryGet (hashKey address)); lift (decode_account res).

Definition st_TryGetAccountByHash (addrHash : bytes) : T_ (option StateAccount) :=
  res ← on_inner (TryGet addrHash); lift (decode_account res).

Definition st_TryGetNode (path : bytes) : T_ (option bytes * Z) := on_inner (TryGetNode path).

Definition st_TryUpdate (key value : bytes) : T_ unit :=
  let hk := hashKey key in
  _ ← on_inner (TryUpdate hk value);
  modify (upd_secKeyCache <[hk := key]>).

Definition st_TryUpdateAccount (address : bytes) (acc : StateAccount) : T_ unit :=
  let hk := hashKey address in
  match encode_StateAccount acc with
  | None => lift (Err ErrRlp)
  | Some data =>
      _ ← on_inner (TryUpdate hk data);
      modify (upd_secKeyCache <[hk := address]>)
  end.

Definition st_TryDelete (key : bytes) : T_ unit :=
  let hk := hashKey key in
  _ ← modify (upd_secKeyCache (base.delete hk));
  on_inner (TryDelete hk).

Definition st_TryDeleteAccount (address : bytes) : T_ unit :=
  let hk := hashKey address in
  _ ← modify (upd_secKeyCache (base.delete hk));
  on_inner (TryDelete hk).

(** [Update] and [Delete] log an error and go on. *)
Definition st_log_error (m : T_ unit) : T_ unit := λ st,
  match m st with (st, Err _) => (st, Ok tt) | r => r end.
Definition st_Update (key value : bytes) : T_ unit := st_log_error (st_TryUpdate key value).
Definition st_Delete (key : bytes) : T_ unit := st_log_error (st_TryDelete key).

Definition st_GetKey (shaKey : bytes) (preimages : option preimageStore) (st : StateTrie)
    : StateTrie * option bytes :=
  let st := getSecKeyCache st in
  (st, match secKeyCache st !! shaKey with
       | Some key => Some key
       | None => s ← preimages; preimage (BytesToHash shaKey) s
       end).

Definition st_Hash (schedule : list nat) : T_ bytes := on_inner (Trie_Hash schedule).

(** [Commit] flushes the cached keys to the preimage store, when there is one. *)
Definition st_Commit (schedule : list nat) (collectLeaf : bool)
    : stateM (StateTrie * option preimageStore) error (bytes * option NodeSet) := λ p,
  let '(st, store) := p in
  let st := getSecKeyCache st in
  let '(st, store) :=
    if bool_decide (secKeyCache st = ∅) then (st, store)
    else (MkStateTrie (inner st) ∅ (owned st),
          s ← store; Some (insertPreimage (kmap BytesToHash (secKeyCache st)) s)) in
  let '(st, r) := on_inner (Trie_Commit schedule collectLeaf) st in
  ((st, store), r).

Definition st_Copy (st : StateTrie) : StateTrie :=
  MkStateTrie (Trie_Copy (inner st)) (secKeyCache st) false.

Definition st_Prove (key : bytes) (fromLevel : Z) : T_ (list (bytes * bytes)) := λ st,
  (st, Prove key fromLevel (inner st)).

(** ** A state trie holds a map of hashed keys *)

Context `{!RlpLaws, !CryptoLaws, !AccountLaws}.

Definition st_holds (full hs : bool) (m : gmap bytes bytes) (st : StateTrie) : Prop :=
  holds_map full hs m (inner st).

Lemma st_TryGet_lemma hs m st key :
  st_holds true hs m st →
  (st_TryGet key st).2 = Ok (m !! keccak256 key) ∧ st_holds true hs m (st_TryGet key st).1.
Proof.
  intros Hh. pose proof (TryGet_lemma true hs m (inner st) (keccak256 key) Hh (keccak256_bytes key)) as Hg.
  unfold st_TryGet, on_inner, hashKey, st_holds. destruct (TryGet _ _) as [t [v|e| |]]; try done.
  - by destruct Hg as [-> Hg].
  - by destruct Hg.
Qed.

Lemma st_TryGetAccount_lemma hs m st a :
  st_holds true hs m st →
  (st_TryGetAccount a st).2 = decode_account (m !! keccak256 a)
  ∧ st_holds true hs m (st_TryGetAccount a st).1.
Proof.
  intros Hh. destruct (st_TryGet_lemma hs m st a Hh) as [E Hh'].
  unfold st_TryGetAccount. unfold st_TryGet in *. destruct (on_inner _ st) as [st' r] eqn:Eo.
  simpl in *. subst r. by rewrite (bind_step _ _ _ _ _ Eo).
Qed.

Lemma st_TryUpdate_lemma m st key value :
  st_holds true false m st → value ≠ [] →
  (st_TryUpdate key value st).2 = Ok tt
  ∧ st_holds true false (<[keccak256 key := value]> m) (st_TryUpdate key value st).1.
Proof.
  intros Hh Hv. pose proof (TryUpdate_lemma true m (inner st) (keccak256 key) value Hh (keccak256_bytes key)) as Hu.
  rewrite decide_False in Hu by done.
  unfold st_TryUpdate, on_inner, hashKey, modify, st_holds. mred.
  destruct (TryUpdate _ _ _) as [t [[]|e| |]]; try done; [|by destruct Hu].
  split; [done|]. unfold upd_secKeyCache, getSecKeyCache. simpl. by destruct (owned st).
Qed.

Lemma st_TryUpdateAccount_lemma m st a acc b :
  st_holds true false m st → encode_StateAccount acc = Some b →
  (st_TryUpdateAccount a acc st).2 = Ok tt
  ∧ st_holds true false (<[keccak256 a := b]> m) (st_TryUpdateAccount a acc st).1.
Proof.
  intros Hh Hb. destruct (decode_encode_account _ _ Hb) as [_ Hne].
  unfold st_TryUpdateAccount. rewrite Hb. by apply st_TryUpdate_lemma.
Qed.

Lemma st_TryDelete_lemma m st key :
  st_holds true false m st →
  (st_TryDelete key st).2 = Ok tt
  ∧ st_holds true false (base.delete (keccak256 key) m) (st_TryDelete key st).1.
Proof.
  intros Hh. set (st1 := upd_secKeyCache (base.delete (hashKey key)) st).
  assert (inner st1 = inner st) as Ei by (unfold st1, upd_secKeyCache, getSecKeyCache; by destruct (owned st)).
  pose proof (TryDelete_lemma true m (inner st) (keccak256 key) Hh (keccak256_bytes key)) as Hu.
  unfold st_TryDelete, modify. mred. fold st1. unfold on_inner. rewrite Ei. unfold hashKey, st_holds.
  destruct (TryDelete _ _) as [t [[]|e| |]]; try done; by destruct Hu.
Qed.

Lemma st_Hash_lemma m st schedule :
  schedule ≡ₚ seq 0 16 → st_holds true false m st →
  (st_Hash schedule st).2 = Ok (map_root m) ∧ st_holds true true m (st_Hash schedule st).1.
Proof.
  intros Hs Hh. destruct (Trie_Hash_lemma true false m (inner st) schedule Hs Hh) as (E & Hh' & _).
  unfold st_Hash, on_inner, st_holds. by destruct (Trie_Hash _ _).
Qed.
End secure.
