(* ===== verification/CachingDB.v ===== *)
(** * The state database: trie_by_cid/state/database.go

    [cachingDB] implements the interface [Database] of the state package with
    state tries over the trie database and caches of contract code; its laws are
    proved here, so what is proved of a [StateDB] holds of the one the
    repository runs. *)
From S2P Require Import Prelude Errors Geth Encoding Node Mpt MptFacts Tracer Reader.
From S2P Require Import Trie Repr Refine Hasher TrieSpec NodeSet Committer Database Persist.
From S2P Require Import Proof SecureTrie AccessList StateOps Prefetcher StateData StateView.
Local Open Scope nat_scope.

Section caching.
Context `{RlpOps, CryptoOps, DiskOps, CacheOps, AccountOps, LruOps, IpldOps}.

Definition codeSizeCacheSize : Z := 100000.
Definition codeCacheSize : Z := 64 * 1024 * 1024.

Record cachingDB := MkCachingDB {
  cdb_disk : disk;
  codeSizeCache : lru Z;
  codeCache : lru bytes;
  triedb : Database
}.

Definition NewDatabaseWithNodeDB (d : disk) (tdb : Database) : cachingDB :=
  MkCachingDB d (lru_New codeSizeCacheSize) (lru_New codeCacheSize) tdb.
Definition NewDatabaseWithConfig (d : disk) (config : option Config) : cachingDB :=
  MkCachingDB d (lru_New codeSizeCacheSize) (lru_New codeCacheSize) (Database.NewDatabaseWithConfig d config).
Definition NewDatabase (d : disk) : cachingDB := NewDatabaseWithConfig d None.

Definition cdb_OpenTrie (root : bytes) (db : cachingDB) : result StateTrie :=
  NewStateTrie (StateTrieID root) (triedb db) StateTrieCodec.
Definition cdb_OpenStorageTrie (stateRoot addrHash root : bytes) (db : cachingDB) : result StateTrie :=
  NewStateTrie (StorageTrieID stateRoot addrHash root) (triedb db) StorageTrieCodec.

(** The only implementation of [Trie] is [*trie.StateTrie]. *)
Definition cdb_CopyTrie (t : StateTrie) : result StateTrie := Ok (st_Copy t).

Definition set_codeCache (c : lru bytes) (db : cachingDB) : cachingDB :=
  MkCachingDB (cdb_disk db) (codeSizeCache db) c (triedb db).
Definition set_codeSizeCache (c : lru Z) (db : cachingDB) : cachingDB :=
  MkCachingDB (cdb_disk db) c (codeCache db) (triedb db).

(** The code on disk: [Keccak256ToCid], [Get] and the check for an empty blob. *)
Definition read_code (codeHash : bytes) (d : disk) : result bytes :=
  cid ← Keccak256ToCid RawBinary codeHash;
  match disk_Get d cid with
  | None => Err ErrDisk
  | Some [] => Err ErrNotFound
  | Some code => Ok code
  end.

(** Code that is not cached is read and put into both caches. *)
Definition load_code (codeHash : bytes) : stateM cachingDB error bytes := λ db,
  match read_code codeHash (cdb_disk db) with
  | Ok code =>
      (set_codeSizeCache (lru_Add codeHash (Z.of_nat (length code)) (codeSizeCache db))
         (set_codeCache (lru_Add codeHash code (codeCache db)) db), Ok code)
  | r => (db, r)
  end.

Definition cdb_ContractCode (codeHash : bytes) : stateM cachingDB error bytes := λ db,
  let '(c, cached) := lru_Get codeHash (codeCache db) in
  let db := set_codeCache c db in
  match cached with
  | Some (b :: code) => (db, Ok (b :: code))
  | _ => load_code codeHash db
  end.

Definition cdb_ContractCodeSize (codeHash : bytes) : stateM cachingDB error Z := λ db,
  let '(c, cached) := lru_Get codeHash (codeSizeCache db) in
  let db := set_codeSizeCache c db in
  match cached with
  | Some size => (db, Ok size)
  | None => (code ← cdb_ContractCode codeHash; mret (Z.of_nat (length code))) db
  end.

(** ** The interfaces of the state package *)

#[export] Instance state_trie_ops : TrieOps := {|
  trie := StateTrie;
  trie_TryGet := st_TryGet;
  trie_TryGetAccount := st_TryGetAccount;
  trie_TryUpdate := st_TryUpdate;
  trie_TryUpdateAccount := st_TryUpdateAccount;
  trie_TryDelete := st_TryDelete;
  trie_TryDeleteAccount := st_TryDeleteAccount;
  trie_Hash := st_Hash (seq 0 16);
  trie_Prove key fromLevel := (elems ← st_Prove key fromLevel; mret elems.*2)
|}.

#[export] Instance caching_db_ops : DatabaseOps := {|
  database := cachingDB;
  OpenTrie := cdb_OpenTrie;
  OpenStorageTrie := cdb_OpenStorageTrie;
  CopyTrie := cdb_CopyTrie;
  ContractCode := cdb_ContractCode;
  ContractCodeSize := cdb_ContractCodeSize
|}.

(** ** Their laws *)

Context `{!RlpLaws, !CryptoLaws, !AccountLaws, !LruLaws}.

(** A state trie with every node at hand. *)
Definition trie_full (t : StateTrie) : Prop := ∃ hs m, st_holds true hs m t.

Lemma st_same_reads hs hs' m t t' :
  st_holds true hs m t → st_holds true hs' m t' → same_reads t t'.
Proof.
  intros Ht Ht'. split.
  - intros k. simpl. destruct (st_TryGet_lemma hs m t k Ht) as [-> _].
    by destruct (st_TryGet_lemma hs' m t' k Ht') as [-> _].
  - intros a. simpl. destruct (st_TryGetAccount_lemma hs m t a Ht) as [-> _].
    by destruct (st_TryGetAccount_lemma hs' m t' a Ht') as [-> _].
Qed.

#[export] Instance state_trie_laws : TrieLaws.
Proof.
  refine {| trie_inv := trie_full : @trie state_trie_ops → Prop |}.
  - intros k t (hs & m & Ht). destruct (st_TryGet_lemma hs m t k Ht) as [E Ht'].
    split_and!; [by exists hs, m|by eapply st_same_reads|]. simpl in *. by rewrite E.
  - intros a t (hs & m & Ht). destruct (st_TryGetAccount_lemma hs m t a Ht) as [E Ht'].
    split_and!; [by exists hs, m|by eapply st_same_reads|]. simpl in *. rewrite E. unfold decode_account.
    destruct (m !! _) as [b|]; [|done]. by destruct (decode_StateAccount b).
Defined.

#[export] Instance state_trie_map : TrieMapLaws.
Proof.
  refine {| trie_map t m := st_holds true false m t; root_of := map_root |}; simpl.
  - intros k v t m Ht Hv. destruct (st_TryUpdate_lemma m t k v Ht Hv) as [E Ht'].
    eexists. split; [by rewrite (surjective_pairing (st_TryUpdate k v t)), E|done].
  - intros k t m Ht. destruct (st_TryDelete_lemma m t k Ht) as [E Ht'].
    eexists. split; [by rewrite (surjective_pairing (st_TryDelete k t)), E|done].
  - intros a acc b t m Ht Hb. destruct (st_TryUpdateAccount_lemma m t a acc b Ht Hb) as [E Ht'].
    eexists. split; [by rewrite (surjective_pairing (st_TryUpdateAccount a acc t)), E|done].
  - intros a t m Ht. destruct (st_TryDelete_lemma m t a Ht) as [E Ht'].
    change (st_TryDeleteAccount a t) with (st_TryDelete a t).
    eexists. split; [by rewrite (surjective_pairing (st_TryDelete a t)), E|done].
  - intros t m Ht. destruct (st_Hash_lemma m t (seq 0 16)) as [E Ht']; [done|done|].
    eexists. split; [by rewrite (surjective_pairing (st_Hash (seq 0 16) t)), E|].
    by eapply holds_map_weaken.
  - intros k t m Ht. by destruct (st_TryGet_lemma false m t k Ht).
  - by intros t t' m Ht [= <-].
Defined.

#[export] Instance state_trie_reads : TrieReadLaws.
Proof.
  split; simpl.
  - intros t m Ht. by exists false, m.
  - intros k t m Ht. by destruct (st_TryGet_lemma false m t k Ht).
  - intros a t m Ht Ha. destruct (st_TryGetAccount_lemma false m t a Ht) as [-> _]. by rewrite Ha.
  - intros a t m b Ht Ha. destruct (st_TryGetAccount_lemma false m t a Ht) as [-> _]. rewrite Ha. simpl.
    destruct (decode_StateAccount b); [done|by eexists].
  - intros m Hz. unfold map_root, root_hash. destruct (tree_of m); [apply Hz|apply EmptyRootHash_nonzero].
Qed.

(** Every trie that can be opened is complete in the store: a root is missing,
    or is that of a map with all its nodes readable. *)
Definition trie_codec (codec : Z) : Prop := codec = StateTrieCodec ∨ codec = StorageTrieCodec.
Definition complete (db : cachingDB) : Prop := ∀ codec owner root,
  trie_codec codec → root ≠ zeroHash → root ≠ EmptyRootHash →
  let rd := db_reader owner codec (triedb db) in
  (∃ e, nodeBlob rd [] (BytesToHash root) = Err e)
  ∨ ∃ t m, wf t ∧ models (Some t) m ∧ root = keccak256 (tenc t)
      ∧ available true rd t ∧ stored_below true rd t.

(** The caches hold what is on disk. *)
Definition code_coherent (db : cachingDB) : Prop :=
  (∀ h c, lru_lookup h (codeCache db) = Some c → c = [] ∨ read_code h (cdb_disk db) = Ok c)
  ∧ (∀ h n, lru_lookup h (codeSizeCache db) = Some n →
       ∃ c, read_code h (cdb_disk db) = Ok c ∧ n = Z.of_nat (length c)).

Lemma read_code_nonempty h d c : read_code h d = Ok c → c ≠ [].
Proof.
  unfold read_code. destruct (Keccak256ToCid _ _); simpl; try done.
  destruct (disk_Get _ _) as [[|]|]; try done. by intros [= <-].
Qed.

Lemma read_code_returns h d : returns (read_code h d).
Proof.
  unfold read_code, Keccak256ToCid. destruct (multihash_Encode h); [|done]. simpl.
  by destruct (disk_Get _ _) as [[|]|].
Qed.

(** What a read of code does: the answer is that of the disk, only caches change. *)
Definition reads_code {A} (r : result A) (db : cachingDB) (p : cachingDB * result A) : Prop :=
  p.2 = r ∧ code_coherent p.1 ∧ cdb_disk p.1 = cdb_disk db ∧ triedb p.1 = triedb db.

Lemma load_code_lemma h db :
  code_coherent db → reads_code (read_code h (cdb_disk db)) db (load_code h db).
Proof.
  intros [Hc Hs]. unfold load_code, reads_code.
  destruct (read_code h (cdb_disk db)) as [code|e|w|] eqn:Hr; [|by split_and!..].
  split_and!; [done| |done|done]. split; simpl.
  - intros h' c [[-> ->]|E]%lru_lookup_Add; [by right|]. by apply Hc.
  - intros h' n [[-> ->]|E]%lru_lookup_Add; [by eexists|]. by apply Hs.
Qed.

Lemma ContractCode_lemma h db :
  code_coherent db → reads_code (read_code h (cdb_disk db)) db (cdb_ContractCode h db).
Proof.
  intros [Hc Hs]. unfold cdb_ContractCode, lru_Get.
  set (db1 := set_codeCache (lru_touch h (codeCache db)) db).
  assert (code_coherent db1) as Hco.
  { split; [|done]. intros h' c. simpl. rewrite lru_lookup_touch. apply Hc. }
  pose proof (load_code_lemma h db1 Hco) as Hload.
  destruct (lru_lookup h (codeCache db)) as [[|b code]|] eqn:El; [done| |done].
  destruct (Hc _ _ El) as [?|E]; [done|]. rewrite <- E. by split_and!.
Qed.

Lemma ContractCodeSize_lemma h db :
  code_coherent db →
  reads_code (c ← read_code h (cdb_disk db); Ok (Z.of_nat (length c))) db (cdb_ContractCodeSize h db).
Proof.
  intros [Hc Hs]. unfold cdb_ContractCodeSize, lru_Get.
  set (db1 := set_codeSizeCache (lru_touch h (codeSizeCache db)) db).
  assert (code_coherent db1) as Hco.
  { split; [done|]. intros h' n. simpl. rewrite lru_lookup_touch. apply Hs. }
  destruct (lru_lookup h (codeSizeCache db)) as [n|] eqn:El.
  - destruct (Hs _ _ El) as (c & E & ->). rewrite E. by split_and!.
  - destruct (ContractCode_lemma h db1 Hco) as (E & Hco' & Hd & Ht).
    destruct (cdb_ContractCode h db1) as [db2 r] eqn:Ec. unfold reads_code. simpl in *.
    rewrite <- E. unfold mbind at 1 3 4 5, stateM_bind. rewrite Ec. by destruct r; split_and!.
Qed.

(** C34: with caches that agree with the disk, [ContractCode] and
    [ContractCodeSize] answer as the disk does (an empty or missing blob is an
    error), however full the caches are, and what they put into the caches
    agrees with the disk again. *)
Theorem ContractCode_correct h db :
  code_coherent db →
  (let '(db', r) := cdb_ContractCode h db in
   r = read_code h (cdb_disk db) ∧ code_coherent db' ∧ cdb_disk db' = cdb_disk db ∧ triedb db' = triedb db)
  ∧ (let '(db', r) := cdb_ContractCodeSize h db in
     r = (c ← read_code h (cdb_disk db); Ok (Z.of_nat (length c)))
     ∧ code_coherent db' ∧ cdb_disk db' = cdb_disk db ∧ triedb db' = triedb db).
Proof.
  intros Hco. pose proof (ContractCode_lemma h db Hco) as HC.
  pose proof (ContractCodeSize_lemma h db Hco) as HS. unfold reads_code in *.
  by destruct (cdb_ContractCode h db), (cdb_ContractCodeSize h db).
Qed.

Lemma New_missing (id : ID) (ndb : NodeReader) codec rd e :
  newTrieReader (id_StateRoot id) (id_Owner id) ndb codec = Ok rd →
  id_Root id ≠ zeroHash → id_Root id ≠ EmptyRootHash →
  nodeBlob rd [] (BytesToHash (id_Root id)) = Err e → New id ndb codec = Err e.
Proof.
  intros Hrd Hz He Hb. unfold New. rewrite Hrd. simpl. rewrite bool_decide_true by done.
  unfold resolveAndTrack, lift. mred. by rewrite Hb.
Qed.

Lemma New_empty (id : ID) (ndb : NodeReader) codec rd :
  newTrieReader (id_StateRoot id) (id_Owner id) ndb codec = Ok rd →
  ¬ (id_Root id ≠ zeroHash ∧ id_Root id ≠ EmptyRootHash) →
  New id ndb codec = Ok (MkTrie nilNode (id_Owner id) 0 rd newTracer).
Proof. intros Hrd Hr. unfold New. rewrite Hrd. simpl. by rewrite bool_decide_false. Qed.

Lemma NewStateTrie_full (id : ID) codec db :
  complete db → trie_codec codec →
  match NewStateTrie id (triedb db) codec with
  | Ok t => trie_full t | Err _ => True | _ => False
  end.
Proof.
  intros Hc Hcodec. unfold NewStateTrie. set (rd := db_reader (id_Owner id) codec (triedb db)).
  destruct (decide (id_Root id ≠ zeroHash ∧ id_Root id ≠ EmptyRootHash)) as [[Hz He]|Hr].
  - destruct (Hc codec (id_Owner id) (id_Root id) Hcodec Hz He) as [(e & Hb)|(t & m & Hw & Hm & Hroot & Ha & Hs)].
    + by rewrite (New_missing id (GetReader (triedb db)) codec rd e).
    + pose proof (New_lemma true id (GetReader (triedb db)) codec rd t m eq_refl Hw Hm Hroot Hz He Ha Hs) as HN.
      destruct (New _ _ _) as [T|e|w|]; try done. exists true, m. apply HN.
  - rewrite (New_empty id (GetReader (triedb db)) codec rd) by done.
    exists true, ∅. apply holds_map_fresh.
Qed.

Definition caching_inv (db : cachingDB) : Prop := complete db ∧ code_coherent db.

#[export] Instance caching_db_laws : DatabaseLaws.
Proof.
  refine {| db_inv := caching_inv : @database _ caching_db_ops → Prop |}.
  - intros h d [Hc Hco]. simpl in *. destruct (ContractCode_lemma h d Hco) as (E & Hco' & Hd & Ht).
    assert (caching_inv (cdb_ContractCode h d).1) as Hinv.
    { split; [|done]. intros codec owner root. rewrite Ht. apply Hc. }
    split_and!; [done| |rewrite E; apply read_code_returns].
    split_and!; simpl.
    + intros h'. destruct (ContractCode_lemma h' d Hco) as [-> _].
      destruct (ContractCode_lemma h' _ Hco') as [-> _]. by rewrite Hd.
    + intros s a r. unfold cdb_OpenStorageTrie. by rewrite Ht.
    + intros r. unfold cdb_OpenTrie. by rewrite Ht.
  - intros h d [Hc Hco]. simpl in *. destruct (ContractCodeSize_lemma h d Hco) as (E & Hco' & Hd & Ht).
    split.
    + split; [|done]. intros codec owner root. rewrite Ht. apply Hc.
    + split_and!; simpl.
      * intros h'. destruct (ContractCode_lemma h' d Hco) as [-> _].
        destruct (ContractCode_lemma h' _ Hco') as [-> _]. by rewrite Hd.
      * intros s a r. unfold cdb_OpenStorageTrie. by rewrite Ht.
      * intros r. unfold cdb_OpenTrie. by rewrite Ht.
  - intros h d [_ Hco]. simpl in *. destruct (ContractCodeSize_lemma h d Hco) as [-> _].
    by destruct (ContractCode_lemma h d Hco) as [-> _].
  - intros s a r d [Hc _]. apply NewStateTrie_full; [done|by right].
  - intros r d [Hc _]. apply NewStateTrie_full; [done|by left].
  - intros t (hs & m & Ht). exists (st_Copy t). split_and!; [done|by exists hs, m|].
    by apply (st_same_reads hs hs m).
Defined.
End caching.
