(* ===== verification/StateRoot.v ===== *)
(** * The state root: [IntermediateRoot]

    The storage an object writes to its trie, and the root [IntermediateRoot]
    returns, from what the tries promise ([TrieMapLaws]).  Go
    visits the pending slots and accounts in an arbitrary order ([range]); the
    results below do not mention it. *)
From S2P Require Import Prelude Errors Geth AccessList StateOps Prefetcher PrefetcherSpec.
From S2P Require Import StateData StateObject StateDB StateView StateReads.
Local Open Scope Z_scope.

Section root.
Context `{RlpOps, CryptoOps, CommonOps, AccountOps, TrieOps, !DatabaseOps, SnapOps, RangeOps, SchedOps}.
Context `{!RlpLaws, !CryptoLaws, !AccountLaws, !TrieLaws, !DatabaseLaws, !TrieMapLaws, !RangeLaws}.

Abbreviation S_ := (stateM StateDB error).
Abbreviation O_ := (stateM (StateDB * stateObject) error).

(** Keys that the hash keeps apart. *)
Definition hashed_apart (X : list bytes) : Prop :=
  ∀ a b, a ∈ X → b ∈ X → keccak256 a = keccak256 b → a = b.

#[export] Instance hashed_apart_perm : Proper (Permutation ==> iff) hashed_apart.
Proof. intros l l' Hp. unfold hashed_apart. by setoid_rewrite Hp. Qed.

(** ** A map changed at hashed keys *)

(** [m'] is [m] with the keys of [l] set to, or cleared for, what [f] says. *)
Definition updated_at {V} (l : list V) (key : V → bytes) (f : V → option bytes)
    (m m' : gmap bytes bytes) : Prop :=
  (∀ x, x ∈ l → m' !! keccak256 (key x) = f x)
  ∧ (∀ h, (∀ x, x ∈ l → keccak256 (key x) ≠ h) → m' !! h = m !! h).

Lemma updated_nil {V} (key : V → bytes) f m : updated_at [] key f m m.
Proof. split; [by intros x ?%not_elem_of_nil|done]. Qed.

Lemma updated_cons {V} x l (key : V → bytes) f m m' :
  NoDup (key <$> x :: l) → hashed_apart (key <$> x :: l) →
  updated_at l key f (partial_alter (λ _, f x) (keccak256 (key x)) m) m' →
  updated_at (x :: l) key f m m'.
Proof.
  intros Hnd Hap [Hin Hout]. rewrite fmap_cons, NoDup_cons in Hnd. destruct Hnd as [Hnx Hnd]. split.
  - intros y [->|Hy]%elem_of_cons; [|by apply Hin].
    rewrite Hout, lookup_partial_alter_eq; [done|]. intros z Hz E.
    apply Hap in E; [|set_solver..]. apply Hnx. rewrite <- E. set_solver.
  - intros h Hh. rewrite Hout by set_solver. apply lookup_partial_alter_ne. apply Hh. set_solver.
Qed.

Lemma updated_perm {V} l l' (key : V → bytes) f m m' :
  l ≡ₚ l' → updated_at l key f m m' → updated_at l' key f m m'.
Proof. intros Hp [Hin Hout]. split; [intros x|intros h]; setoid_rewrite <- Hp; auto. Qed.

Lemma updated_ext {V} (l : list V) key f g m m' :
  (∀ x, x ∈ l → f x = g x) → updated_at l key g m m' → updated_at l key f m m'.
Proof. intros E [Hin Hout]. split; [|done]. intros x Hx. rewrite E by done. by apply Hin. Qed.

(** The map obtained by making the changes one after another. *)
Definition apply_updates {V} (l : list V) (key : V → bytes) (f : V → option bytes)
    (m : gmap bytes bytes) : gmap bytes bytes :=
  foldr (λ x m, partial_alter (λ _, f x) (keccak256 (key x)) m) m l.

Lemma apply_updates_spec {V} (l : list V) key f m :
  NoDup (key <$> l) → hashed_apart (key <$> l) → updated_at l key f m (apply_updates l key f m).
Proof.
  induction l as [|x l IH]; intros Hnd Hap; [apply updated_nil|].
  rewrite fmap_cons in Hnd, Hap. apply NoDup_cons in Hnd as [Hx Hnd].
  destruct IH as [Hin Hout]; [done|by intros a b Ha Hb; apply Hap; set_solver|]. simpl.
  assert (∀ y, y ∈ l → keccak256 (key y) ≠ keccak256 (key x)) as Hne.
  { intros y Hy E. apply Hap in E; [|set_solver..]. apply Hx. rewrite <- E. set_solver. }
  split.
  - intros y [->|Hy]%elem_of_cons; [by rewrite lookup_partial_alter_eq|].
    rewrite lookup_partial_alter_ne by (symmetry; auto). by apply Hin.
  - intros h Hh. rewrite lookup_partial_alter_ne by set_solver. apply Hout. set_solver.
Qed.

Lemma updated_unique {V} (l : list V) key f m m1 m2 :
  updated_at l key f m m1 → updated_at l key f m m2 → m1 = m2.
Proof.
  intros [Hin1 Hout1] [Hin2 Hout2]. apply map_eq. intros h.
  destruct (decide (Exists (λ x, keccak256 (key x) = h) l)) as [Hh|Hh].
  - apply Exists_exists in Hh as (x & Hx & <-). by rewrite Hin1, Hin2.
  - assert (∀ x, x ∈ l → keccak256 (key x) ≠ h) as Hne.
    { intros x Hx E. apply Hh, Exists_exists. by exists x. }
    by rewrite Hout1, Hout2.
Qed.

(** ** The storage of an object *)

(** The map in the storage trie of an object, which may still have to be opened;
    an unopened trie has the root the account records. *)
Definition has_storage (s : StateDB) (o : stateObject) (ms : gmap bytes bytes) : Prop :=
  match obj_trie o with
  | Some t => trie_map t ms
  | None => ∃ t, OpenStorageTrie (originalRoot s) (addrHash o) (acc_Root (data o)) (db s) = Ok t
                 ∧ trie_map t ms ∧ acc_Root (data o) = root_of ms
  end.

Lemma has_storage_frame s s' o ms :
  db s' = db s → originalRoot s' = originalRoot s → has_storage s o ms → has_storage s' o ms.
Proof. unfold has_storage. by intros -> ->. Qed.

(** The encoding of a slot, nothing for the zero hash. *)
Definition slot_enc (v : bytes) : option bytes :=
  if bool_decide (v = zeroHash) then None else Some (rlp_WriteBytes (TrimLeftZeroes v)).

(** The pending slots that differ from what the trie is known to hold. *)
Definition changed_slots (o : stateObject) : list (bytes * bytes) :=
  filter (λ kv, kv.2 ≠ default zeroHash (originStorage o !! kv.1)) (map_to_list (pendingStorage o)).

(** The prefetcher stays a good one, and none is started. *)
Definition prefetcher_kept (s s' : StateDB) : Prop :=
  (prefetcher_inv (db s) (originalRoot s) (prefetcher s) → prefetcher_inv (db s) (originalRoot s) (prefetcher s'))
  ∧ (prefetcher s = None → prefetcher s' = None).

(** What computing a root has no business with. *)
Definition rest (s : StateDB) :=
  (snaps s, stateObjectsDirty s, stateObjectsDestruct s, refund s, thash s, txIndex s, logs s, logSize s,
   preimages s, access s, transient s, jrnl s, validRevisions s).

(** The parts of the [StateDB] a storage update leaves alone. *)
Record storage_frame (s s' : StateDB) : Prop := {
  sf_db : db s' = db s;
  sf_root : originalRoot s' = originalRoot s;
  sf_trie : sdb_trie s' = sdb_trie s;
  sf_objects : stateObjects s' = stateObjects s;
  sf_pending : stateObjectsPending s' = stateObjectsPending s;
  sf_snap : snap s' = snap s;
  sf_dbErr : dbErr s' = dbErr s;
  sf_rest : rest s' = rest s;
  sf_prefetcher : prefetcher_kept s s'
}.

Lemma storage_frame_refl s : storage_frame s s.
Proof. by split. Qed.
Lemma storage_frame_trans s t u : storage_frame s t → storage_frame t u → storage_frame s u.
Proof.
  intros [] []. split; try congruence. destruct sf_prefetcher0, sf_prefetcher1. unfold prefetcher_kept.
  rewrite sf_db0, sf_root0 in *. auto.
Qed.

Lemma prefetcher_frame s pf :
  (prefetcher_inv (db s) (originalRoot s) (prefetcher s) → prefetcher_inv (db s) (originalRoot s) pf) →
  (prefetcher s = None → pf = None) → storage_frame s (upd_prefetcher (λ _, pf) s).
Proof. by split. Qed.

(** Telling the prefetcher what was used. *)
Lemma used_frame s owner root used :
  length owner = hashLen →
  storage_frame s (upd_prefetcher (fmap (pf_used owner root used)) s).
Proof.
  intros Ho. apply prefetcher_frame.
  - intros Hp p (p' & Ep & ->)%fmap_Some. destruct (Hp p' Ep). split; [by apply pf_used_inv|done].
  - by intros ->.
Qed.

(** What a computation needs of the state to use the database and the prefetcher. *)
Definition services_ok (s : StateDB) : Prop :=
  db_inv (db s) ∧ prefetcher_inv (db s) (originalRoot s) (prefetcher s).

Lemma services_frame s s' : storage_frame s s' → services_ok s → services_ok s'.
Proof. intros [] [Hd Hp]. destruct sf_prefetcher0. split; rewrite sf_db0, ?sf_root0; auto. Qed.

Lemma WriteBytes_nonempty b : rlp_WriteBytes b ≠ [].
Proof.
  intros E. pose proof (rlp_SplitString_string b (rlp_WriteBytes (0 :: b))) as E1.
  pose proof (rlp_SplitString_string (0 :: b) []) as E2. rewrite E in E1. simpl in E1.
  rewrite app_nil_r, E1 in E2. injection E2 as E2 _. apply (f_equal length) in E2. simpl in E2. lia.
Qed.

(** The original value of a slot after its turn in the loop. *)
Definition know (k v : bytes) (m : Storage) : Storage :=
  if bool_decide (v = default zeroHash (m !! k)) then m else <[k := v]> m.

Lemma know_other k v l m : l ≠ k → know k v m !! l = m !! l.
Proof. intros Hl. unfold know. case_bool_decide; [done|]. by apply lookup_insert_ne. Qed.

Lemma know_same k v m m' : m !! k = m' !! k → know k v m !! k = know k v m' !! k.
Proof.
  intros E. unfold know. rewrite E. destruct (bool_decide _); [done|]. by rewrite !lookup_insert_eq.
Qed.

(** One turn of the loop of [updateTrie]. *)
Lemma write_slot_run s o t ms k v :
  obj_trie o = Some t → trie_map t ms →
  ∃ s' o' t', write_slot (k, v) (s, o) = ((s', o'), Ok (inl tt))
    ∧ storage_frame s s'
    ∧ o' = upd_obj_trie (λ _, Some t') (upd_origin (know k v) o)
    ∧ trie_map t' (if bool_decide (v = default zeroHash (originStorage o !! k)) then ms
                   else partial_alter (λ _, slot_enc v) (keccak256 k) ms).
Proof.
  intros Ht Hm. unfold write_slot, self, gets. mred. simpl. case_bool_decide as Hv.
  { exists s, o, t. split_and!; try done. unfold know, upd_origin, upd_obj_trie, eta_object. simpl.
    rewrite bool_decide_true by done. rewrite <- Ht. by destruct o. }
  unfold getTrie, self, gets, on_self, modify. mred. simpl. rewrite Ht. unfold slot_enc.
  case_bool_decide as Hz.
  - destruct (TryDelete_map k t ms Hm) as (t' & E & Hm'). unfold on_trie, try_on. mred. rewrite E.
    unfold on_sdb, modify. mred. simpl.
    eexists _, _, t'. split; [reflexivity|]. split_and!; try done.
    + by destruct (snap s) eqn:Es; split.
    + unfold upd_origin, upd_obj_trie, eta_object, know. simpl. by rewrite (bool_decide_false _ Hv).
  - destruct (TryUpdate_map k (rlp_WriteBytes (TrimLeftZeroes v)) t ms Hm) as (t' & E & Hm');
      [apply WriteBytes_nonempty|]. unfold on_trie, try_on. mred. rewrite E.
    unfold on_sdb, modify. mred. simpl.
    eexists _, _, t'. split; [reflexivity|]. split_and!; try done.
    + by destruct (snap s) eqn:Es; split.
    + unfold upd_origin, upd_obj_trie, eta_object, know. simpl. by rewrite (bool_decide_false _ Hv).
Qed.

(** The whole loop, over slots that are pairwise distinct. *)
Lemma write_slots_run l : ∀ s o t ms,
  NoDup l.*1 → obj_trie o = Some t → trie_map t ms → hashed_apart l.*1 →
  ∃ s' o' t' ms' X, write_slots l (s, o) = ((s', o'), Ok (inl tt))
    ∧ storage_frame s s'
    ∧ o' = upd_obj_trie (λ _, Some t') (upd_origin (λ _, X) o)
    ∧ (∀ k v, (k, v) ∈ l → X !! k = know k v (originStorage o) !! k)
    ∧ (∀ k, k ∉ l.*1 → X !! k = originStorage o !! k)
    ∧ trie_map t' ms'
    ∧ updated_at (filter (λ kv, kv.2 ≠ default zeroHash (originStorage o !! kv.1)) l)
        fst (λ kv, slot_enc kv.2) ms ms'.
Proof.
  induction l as [|[k v] l IH]; intros s o t ms Hnd Ht Hm Hap.
  { exists s, o, t, ms, (originStorage o). split_and!; try done.
    - unfold upd_origin, upd_obj_trie, eta_object. simpl. rewrite <- Ht. by destruct o.
    - by intros ? ? ?%not_elem_of_nil.
    - apply updated_nil. }
  destruct (write_slot_run s o t ms k v Ht Hm) as (s1 & o1 & t1 & E1 & Hf1 & Eo1 & Hm1).
  assert (∀ l, l ≠ k → originStorage o1 !! l = originStorage o !! l) as Ho1.
  { intros b Hb. subst o1. simpl. by apply know_other. }
  rewrite fmap_cons in Hnd, Hap. simpl in Hnd, Hap. apply NoDup_cons in Hnd as [Hk Hnd].
  assert (obj_trie o1 = Some t1) as Ht1 by (by subst o1).
  destruct (IH s1 o1 t1 _ Hnd Ht1 Hm1) as (s2 & o2 & t2 & m2 & X & E2 & Hf2 & Eo2 & HX & HX' & Hm2 & Hu).
  { intros a b Ha Hb. apply Hap; by apply elem_of_cons; right. }
  exists s2, o2, t2, m2, X. simpl. rewrite (bind_step _ _ _ _ _ E1). split_and!; try done.
  { by eapply storage_frame_trans. }
  { by subst o2 o1. }
  { intros k' v' [[= -> ->]|Hin]%elem_of_cons; [rewrite HX' by done; by subst o1|].
    rewrite (HX _ _ Hin). assert (k' ≠ k) as Hne.
    { intros ->. apply Hk, list_elem_of_fmap. by exists (k, v'). }
    by apply know_same, Ho1. }
  { intros k' [Hne Hn]%not_elem_of_cons. rewrite HX' by done. by apply Ho1. }
  assert (filter (λ kv, kv.2 ≠ default zeroHash (originStorage o1 !! kv.1)) l
          = filter (λ kv, kv.2 ≠ default zeroHash (originStorage o !! kv.1)) l) as El.
  { apply list_filter_ext. intros [k' v'] Hin. simpl. rewrite Ho1; [done|].
    intros ->. apply Hk. apply list_elem_of_fmap. by exists (k, v'). }
  rewrite El in Hu. rewrite filter_cons. simpl. case_bool_decide as Hv.
  - rewrite decide_False by tauto. done.
  - rewrite decide_True by done. apply updated_cons; [| |done].
    + rewrite fmap_cons. apply NoDup_cons. simpl. split; [|by apply NoDup_filter_fmap].
      by intros Hin%elem_of_filter_fmap.
    + intros a b Ha Hb. rewrite fmap_cons in Ha, Hb. simpl in Ha, Hb.
      apply elem_of_cons in Ha as [->|Ha%elem_of_filter_fmap], Hb as [->|Hb%elem_of_filter_fmap];
        apply Hap; set_solver.
Qed.

Lemma getTrie_run s o ms a :
  services_ok s → addrHash o = keccak256 a → has_storage s o ms →
  ∃ s' o' t, getTrie (s, o) = ((s', o'), Ok (inl t)) ∧ storage_frame s s'
    ∧ o' = upd_obj_trie (λ _, Some t) o ∧ trie_map t ms.
Proof.
  intros [Hd Hp] Ha Hst. destruct (getTrie_spec s o a Hd Hp Ha) as (pf & r & o' & E & Hpf & Hn & Hr).
  assert (∃ t0, storage_trie s o = Ok t0 ∧ trie_map t0 ms) as (t0 & E0 & Hm).
  { unfold has_storage, storage_trie in *. destruct (obj_trie o) as [t|]; [by exists t|].
    destruct Hst as (t & ? & ? & _). by exists t. }
  destruct r as [t|e]; [|destruct Hr as [_ Hr]; congruence]. destruct Hr as (-> & t1 & E1 & Hr).
  rewrite E0 in E1. injection E1 as <-. exists (upd_prefetcher (λ _, pf) s). eexists _, t.
  split_and!; [exact E|by apply prefetcher_frame|done|by eapply reads_of_map].
Qed.

Lemma on_trie_hash_run s o t ms :
  trie_map t ms →
  ∃ t', on_trie t trie_Hash (s, o) = ((s, upd_obj_trie (λ _, Some t') o), Ok (inl (root_of ms)))
    ∧ trie_map t' ms.
Proof.
  intros Hm. destruct (Hash_map t ms Hm) as (t' & E & Hm'). exists t'. unfold on_trie, try_on.
  by rewrite E.
Qed.

Lemma set_Root_id a : acc_set_Root (acc_Root a) a = a.
Proof. by destruct a. Qed.

Lemma range_keys {A} (m : gmap bytes A) : NoDup (range m).*1 ∧ (range m).*1 ≡ₚ (map_to_list m).*1.
Proof.
  assert ((range m).*1 ≡ₚ (map_to_list m).*1) as Hp by (apply fmap_Permutation, range_perm).
  split; [|done]. rewrite Hp. apply NoDup_fst_map_to_list.
Qed.

(** The original values after all pending writes, and an object that has made
    them; its account and its trie may be new as well. *)
Definition known_after (o : stateObject) (k : bytes) : option bytes :=
  match pendingStorage (finalise_slots o) !! k with
  | Some v => know k v (originStorage o) !! k
  | None => originStorage o !! k
  end.
Record flushed (o o' : stateObject) : Prop := {
  fl_address : address o' = address o;
  fl_addrHash : addrHash o' = addrHash o;
  fl_suicided : suicided o' = suicided o;
  fl_deleted : deleted o' = deleted o;
  fl_code : code o' = code o;
  fl_pending : pendingStorage o' = ∅;
  fl_dirty : dirtyStorage o' = ∅;
  fl_origin k : originStorage o' !! k = known_after o k
}.

Lemma flushed_idle o : pendingStorage (finalise_slots o) = ∅ → flushed o (finalise_slots o).
Proof. intros Hp. split; try done. intros k. unfold known_after. by rewrite Hp, lookup_empty. Qed.

Lemma flushed_trie o o' t : flushed o o' → flushed o (upd_obj_trie (λ _, t) o').
Proof. intros []. by split. Qed.
Lemma flushed_data o o' f : flushed o o' → flushed o (upd_data f o').
Proof. intros []. by split. Qed.

(** What [updateRoot] leaves of an object and its storage. *)
Record root_updated (s : StateDB) (o : stateObject) (ms : gmap bytes bytes)
    (s' : StateDB) (o' : stateObject) (ms' : gmap bytes bytes) : Prop := {
  ru_frame : storage_frame s s';
  ru_data : data o' = acc_set_Root (root_of ms') (data o);
  ru_flushed : flushed o o';
  ru_slots : updated_at (changed_slots (finalise_slots o)) fst (λ kv, slot_enc kv.2) ms ms';
  ru_storage : has_storage s' o' ms'
}.

(** Nothing pending: the trie the object holds, if any, is hashed. *)
Lemma updateRoot_idle s o ms :
  has_storage s o ms → pendingStorage (finalise_slots o) = ∅ →
  ∃ s' o' ms', updateRoot (s, o) = ((s', o'), Ok tt) ∧ root_updated s o ms s' o' ms'.
Proof.
  intros Hst Hp. set (o1 := finalise_slots o) in *.
  assert (updated_at (changed_slots o1) fst (λ kv, slot_enc kv.2) ms ms) as Hu.
  { unfold changed_slots. rewrite Hp, map_to_list_empty. apply updated_nil. }
  assert (updateTrie (s, o) = ((s, o1), Ok (inl (obj_trie o)))) as E.
  { unfold updateTrie. rewrite (bind_step (so_finalise false) _ (s, o) (s, o1) tt) by done. cbv beta.
    rewrite (bind_step (self id) _ (s, o1) (s, o1) o1) by done. cbv beta.
    unfold id. by rewrite bool_decide_true. }
  unfold updateRoot. rewrite (bind_step _ _ _ _ _ E). unfold has_storage in Hst.
  destruct (obj_trie o) as [t|] eqn:Et.
  - destruct (on_trie_hash_run s o1 t ms Hst) as (t' & E' & Hm'). rewrite (bind_step _ _ _ _ _ E').
    eexists s, _, ms. split; [reflexivity|].
    split; [done|done|by apply flushed_data, flushed_trie, flushed_idle|done|done].
  - destruct Hst as (t & Ho & Hm & Hr). exists s, o1, ms. split; [done|].
    split; [done|by rewrite <- Hr, set_Root_id|by apply flushed_idle|done|].
    unfold has_storage. simpl. rewrite Et. by exists t.
Qed.

Lemma updateTrie_run s o ms a :
  services_ok s → addrHash o = keccak256 a → has_storage s o ms →
  hashed_apart (map_to_list (pendingStorage (finalise_slots o))).*1 →
  pendingStorage (finalise_slots o) ≠ ∅ →
  ∃ s' o' t' ms', updateTrie (s, o) = ((s', o'), Ok (inl (Some t'))) ∧ storage_frame s s'
    ∧ flushed o o' ∧ data o' = data o ∧ obj_trie o' = Some t' ∧ trie_map t' ms'
    ∧ updated_at (changed_slots (finalise_slots o)) fst (λ kv, slot_enc kv.2) ms ms'.
Proof.
  intros Hok Ha Hst Hap Hp. set (o1 := finalise_slots o) in *.
  assert (has_storage s o1 ms) as Hst1 by exact Hst.
  destruct (getTrie_run s o1 ms a Hok Ha Hst1) as (s2 & o2 & t & Eg & Hf2 & -> & Hm).
  destruct (range_keys (pendingStorage o1)) as [Hnd Hperm].
  destruct (write_slots_run (range (pendingStorage o1)) s2 (upd_obj_trie (λ _, Some t) o1) t ms)
    as (s3 & o3 & t3 & m3 & X & Ew & Hf & Eo3 & HX & HX' & Hm3 & Hu);
    [done|done|done|by intros ? b ? Hb; apply Hap; rewrite <- Hperm|].
  set (s4 := upd_prefetcher (fmap (pf_used (addrHash o1) (acc_Root (data o1))
               (changed_keys (originStorage o1) (range (pendingStorage o1))))) s3).
  exists s4, (upd_pending (λ _, ∅) o3), t3, m3. split_and!; try done.
  - unfold updateTrie. rewrite (bind_step (so_finalise false) _ (s, o) (s, o1) tt) by done. cbv beta.
    rewrite (bind_step (self id) _ (s, o1) (s, o1) o1) by done. cbv beta zeta. unfold id.
    rewrite bool_decide_false by done.
    rewrite (bind_step _ _ _ _ _ Eg). cbv beta iota. rewrite (bind_step _ _ _ _ _ Ew). cbv beta iota.
    rewrite (bind_step (on_sdb _) _ (s3, o3) (s4, o3) tt) by done. cbv beta.
    unfold self, gets, on_self, modify. mred. simpl. by rewrite Eo3.
  - eapply storage_frame_trans; [exact Hf2|]. eapply storage_frame_trans; [exact Hf|].
    apply used_frame. change (addrHash o1) with (addrHash o). rewrite Ha. apply keccak256_length.
  - subst o3. split; try done. intros k. simpl. unfold known_after. fold o1.
    destruct (pendingStorage o1 !! k) as [v|] eqn:Ek.
    + apply HX. rewrite range_perm. by apply elem_of_map_to_list.
    + apply HX'. rewrite Hperm, list_elem_of_fmap. intros ([k' v] & -> & Hin%elem_of_map_to_list).
      change (pendingStorage o1 !! k' = None) in Ek. congruence.
  - by subst o3.
  - by subst o3.
  - eapply updated_perm; [|exact Hu]. simpl. unfold changed_slots. by rewrite range_perm.
Qed.

Lemma updateRoot_run s o ms a :
  services_ok s → addrHash o = keccak256 a → has_storage s o ms →
  hashed_apart (map_to_list (pendingStorage (finalise_slots o))).*1 →
  ∃ s' o' ms', updateRoot (s, o) = ((s', o'), Ok tt) ∧ root_updated s o ms s' o' ms'.
Proof.
  intros Hok Ha Hst Hap. destruct (decide (pendingStorage (finalise_slots o) = ∅)) as [Hp|Hp];
    [by apply updateRoot_idle|].
  destruct (updateTrie_run s o ms a Hok Ha Hst Hap Hp)
    as (s3 & o3 & t3 & m3 & E & Hf & Hfl & Hd & Ht3 & Hm3 & Hu).
  destruct (on_trie_hash_run s3 o3 t3 m3 Hm3) as (t4 & Eh & Hm4).
  unfold updateRoot. rewrite (bind_step _ _ _ _ _ E), (bind_step _ _ _ _ _ Eh).
  eexists s3, _, m3. split; [reflexivity|].
  split; try done; [simpl; by rewrite Hd|by apply flushed_data, flushed_trie].
Qed.

(** ** The two loops of [IntermediateRoot] *)

(** The storage after the pending writes, and the account that is stored. *)
Definition storage_after (o : stateObject) (ms : gmap bytes bytes) : gmap bytes bytes :=
  apply_updates (changed_slots (finalise_slots o)) fst (λ kv, slot_enc kv.2) ms.
Definition account_after (o : stateObject) (ms : gmap bytes bytes) : StateAccount :=
  acc_set_Root (root_of (storage_after o ms)) (data o).

(** What [IntermediateRoot] needs to know of a pending address. *)
Definition pending_ok (s : StateDB) (st : bytes → gmap bytes bytes) (a : bytes) : Prop :=
  ∃ o, stateObjects s !! a = Some o ∧ address o = a ∧ addrHash o = keccak256 a
    ∧ (deleted o = false →
         has_storage s o (st a) ∧ hashed_apart (map_to_list (pendingStorage (finalise_slots o))).*1).

Lemma storage_after_spec s o ms s' o' ms' :
  hashed_apart (map_to_list (pendingStorage (finalise_slots o))).*1 →
  root_updated s o ms s' o' ms' → ms' = storage_after o ms.
Proof.
  intros Hap Hru. eapply updated_unique; [apply Hru|]. unfold storage_after, changed_slots.
  apply apply_updates_spec.
  - apply NoDup_filter_fmap, NoDup_fst_map_to_list.
  - intros a b Ha%elem_of_filter_fmap Hb%elem_of_filter_fmap. by apply Hap.
Qed.

(** The [StateDB] apart from the objects, and what objects cannot see. *)
Record loop_frame (s s' : StateDB) : Prop := {
  lf_db : db s' = db s;
  lf_root : originalRoot s' = originalRoot s;
  lf_trie : sdb_trie s' = sdb_trie s;
  lf_pending : stateObjectsPending s' = stateObjectsPending s;
  lf_dbErr : dbErr s' = dbErr s;
  lf_snap : snap s' = snap s;
  lf_rest : rest s' = rest s;
  lf_prefetcher : prefetcher_kept s s'
}.

Lemma loop_frame_trans s t u : loop_frame s t → loop_frame t u → loop_frame s u.
Proof.
  intros [] []. split; try congruence. destruct lf_prefetcher0, lf_prefetcher1. unfold prefetcher_kept.
  rewrite lf_db0, lf_root0 in *. auto.
Qed.
Lemma services_loop s s' : loop_frame s s' → services_ok s → services_ok s'.
Proof. intros [] [Hd Hp]. destruct lf_prefetcher0. split; rewrite lf_db0, ?lf_root0; auto. Qed.

(** What becomes of the object of a pending address, in the environment of [s]. *)
Definition root_of_object (s : StateDB) (o : stateObject) (ms : gmap bytes bytes) (o' : stateObject) : Prop :=
  if deleted o then o' = o
  else data o' = account_after o ms ∧ flushed o o' ∧ has_storage s o' (storage_after o ms).

Lemma root_of_object_keeps s o ms o' :
  root_of_object s o ms o' → address o' = address o ∧ addrHash o' = addrHash o ∧ deleted o' = deleted o.
Proof. unfold root_of_object. destruct (deleted o) eqn:Hd; [by intros ->|]. intros (_ & [] & _). split_and!; congruence. Qed.

Lemma pending_object_run s a o :
  stateObjects s !! a = Some o → pending_object a s = (s, Ok o).
Proof. intros Ho. unfold pending_object. by rewrite Ho. Qed.

Lemma update_one_run s st a :
  services_ok s → pending_ok s st a →
  ∃ s' o o', update_one a s = (s', Ok tt) ∧ loop_frame s s'
    ∧ stateObjects s !! a = Some o ∧ stateObjects s' = <[a := o']> (stateObjects s)
    ∧ root_of_object s o (st a) o'.
Proof.
  intros Hsv (o & Ho & Ha & Hah & Hok). unfold update_one. rewrite (bind_step _ _ _ _ _ (pending_object_run s a o Ho)).
  destruct (deleted o) eqn:Hd.
  - exists s, o, o. rewrite insert_id by done. split_and!; try done. unfold root_of_object. by rewrite Hd.
  - destruct (Hok eq_refl) as [Hst Hap].
    destruct (updateRoot_run s o (st a) a Hsv Hah Hst Hap) as (s' & o' & ms' & E & Hru).
    pose proof (storage_after_spec _ _ _ _ _ _ Hap Hru) as ->. destruct Hru as [[] Hdata Hfl _ Hst'].
    exists (setStateObject o' s'), o, o'. unfold on_obj. rewrite E. split_and!; try done.
    + simpl. by rewrite sf_objects0, (fl_address _ _ Hfl), Ha.
    + unfold root_of_object. rewrite Hd. split_and!; [done|done|]. by eapply has_storage_frame.
Qed.

Lemma update_all_run st l : ∀ s,
  services_ok s → NoDup l → (∀ a, a ∈ l → pending_ok s st a) →
  ∃ s', iterM update_one l s = (s', Ok tt) ∧ loop_frame s s'
    ∧ (∀ a, a ∉ l → stateObjects s' !! a = stateObjects s !! a)
    ∧ (∀ a, a ∈ l → ∃ o o', stateObjects s !! a = Some o ∧ stateObjects s' !! a = Some o'
         ∧ root_of_object s o (st a) o').
Proof.
  induction l as [|a l IH]; intros s Hsv Hnd Hok.
  { exists s. split_and!; try done. by intros a ?%not_elem_of_nil. }
  apply NoDup_cons in Hnd as [Ha Hnd].
  destruct (update_one_run s st a Hsv) as (s1 & o & o' & E1 & Hf1 & Ho & Hobj & Hro); [apply Hok; set_solver|].
  destruct (IH s1 (services_loop _ _ Hf1 Hsv) Hnd) as (s2 & E2 & Hf2 & Hout & Hin).
  { intros b Hb. destruct (Hok b) as (p & Hp & Hpa & Hph & Hpok); [set_solver|]. exists p.
    rewrite Hobj, lookup_insert_ne by set_solver. split_and!; [done|done|done|]. intros Hd.
    destruct (Hpok Hd) as [Hst Hap]. split; [|done]. destruct Hf1. by eapply has_storage_frame. }
  exists s2. simpl. rewrite (bind_step _ _ _ _ _ E1). split_and!; [done| | |].
  - by eapply loop_frame_trans.
  - intros b Hb. rewrite Hout by set_solver. rewrite Hobj. apply lookup_insert_ne. set_solver.
  - intros b [->|Hb]%elem_of_cons.
    + exists o, o'. rewrite Hout, Hobj by done. by rewrite lookup_insert_eq.
    + destruct (Hin b Hb) as (p & p' & Hp & Hp' & Hr). exists p, p'.
      rewrite Hobj, lookup_insert_ne in Hp by set_solver. split_and!; [done|done|].
      unfold root_of_object in *. destruct (deleted p); [done|]. destruct Hr as (? & ? & ?), Hf1.
      split_and!; [done|done|]. by eapply has_storage_frame.
Qed.

(** The entry of an object in the account trie. *)
Definition stored_account (s : StateDB) (a : bytes) : option bytes :=
  o ← stateObjects s !! a; if deleted o then None else encode_StateAccount (data o).

(** The services are left alone, and what computing a root has no business with. *)
Definition same_services (s s' : StateDB) : Prop :=
  db s' = db s ∧ originalRoot s' = originalRoot s ∧ prefetcher s' = prefetcher s
  ∧ snap s' = snap s ∧ rest s' = rest s.

Lemma same_services_ok s s' : same_services s s' → services_ok s → services_ok s'.
Proof. intros (Ed & Er & Ep & _) [? ?]. split; by rewrite Ed, ?Er, ?Ep. Qed.

Lemma store_one_run s a o m :
  stateObjects s !! a = Some o → address o = a →
  (deleted o = false → is_Some (encode_StateAccount (data o))) → trie_map (sdb_trie s) m →
  ∃ s', store_one a s = (s', Ok tt)
    ∧ trie_map (sdb_trie s') (partial_alter (λ _, stored_account s a) (keccak256 a) m)
    ∧ stateObjects s' = stateObjects s ∧ dbErr s' = dbErr s ∧ same_services s s'.
Proof.
  intros Ho Ha Henc Hm. unfold store_one, stored_account.
  rewrite (bind_step _ _ _ _ _ (pending_object_run s a o Ho)), Ho. simpl. destruct (deleted o) eqn:Hd.
  - destruct (TryDeleteAccount_map a _ _ Hm) as (t' & E & Hm').
    unfold deleteStateObject, on_account_trie, try_on, modify. mred. rewrite Ha, E.
    eexists. split; [reflexivity|]. by split_and!.
  - destruct (Henc eq_refl) as [b Hb].
    destruct (TryUpdateAccount_map a _ b _ _ Hm Hb) as (t' & E & Hm').
    unfold updateStateObject, on_account_trie, try_on, modify. mred. rewrite Ha, E. simpl.
    eexists. split; [reflexivity|]. rewrite Hb. by destruct (snap s).
Qed.

Lemma store_all_run l : ∀ s m,
  NoDup l → hashed_apart l →
  (∀ a, a ∈ l → ∃ o, stateObjects s !! a = Some o ∧ address o = a
     ∧ (deleted o = false → is_Some (encode_StateAccount (data o)))) →
  trie_map (sdb_trie s) m →
  ∃ s' m', iterM store_one l s = (s', Ok tt) ∧ trie_map (sdb_trie s') m'
    ∧ stateObjects s' = stateObjects s ∧ dbErr s' = dbErr s ∧ same_services s s' ∧ updated_at l id (stored_account s) m m'.
Proof.
  induction l as [|a l IH]; intros s m Hnd Hap Hok Hm.
  { exists s, m. split_and!; try done. apply updated_nil. }
  apply NoDup_cons in Hnd as Hnd'. destruct Hnd' as [Ha Hnd'].
  destruct (Hok a) as (o & Ho & Haddr & Henc); [set_solver|].
  destruct (store_one_run s a o m Ho Haddr Henc Hm) as (s1 & E1 & Hm1 & Ho1 & He1 & Hs1).
  destruct (IH s1 (partial_alter (λ _, stored_account s a) (keccak256 a) m) Hnd')
    as (s2 & m2 & E2 & Hm2 & Ho2 & He2 & Hs2 & Hu); [| |done|].
  { intros b c Hb Hc. apply Hap; set_solver. }
  { intros b Hb. rewrite Ho1. apply Hok. set_solver. }
  exists s2, m2. simpl. rewrite (bind_step _ _ _ _ _ E1). split_and!; try done; [congruence|congruence|unfold same_services in *; intuition congruence|].
  apply updated_cons; rewrite ?list_fmap_id; [done..|].
  unfold stored_account in *. by rewrite Ho1 in Hu.
Qed.

Lemma range_set_perm (X : gset bytes) : range_set X ≡ₚ elements X.
Proof.
  unfold range_set. rewrite range_perm. apply NoDup_Permutation.
  - apply NoDup_fst_map_to_list.
  - apply NoDup_elements.
  - intros a. rewrite elem_of_elements, list_elem_of_fmap. split.
    + intros ([b []] & -> & Hb%elem_of_map_to_list). by apply lookup_gset_to_gmap_Some in Hb as [? _].
    + intros Ha. exists (a, tt). split; [done|]. apply elem_of_map_to_list.
      by apply lookup_gset_to_gmap_Some.
Qed.

(** The entry of a pending account in the new account trie. *)
Definition final_entry (s : StateDB) (st : bytes → gmap bytes bytes) (a : bytes) : option bytes :=
  o ← stateObjects s !! a; if deleted o then None else encode_StateAccount (account_after o (st a)).

Lemma apply_updates_perm l l' f m :
  NoDup l → hashed_apart l → l ≡ₚ l' → apply_updates l id f m = apply_updates l' id f m.
Proof.
  intros Hnd Hap Hp. eapply updated_unique.
  - apply apply_updates_spec; by rewrite list_fmap_id.
  - eapply updated_perm; [by symmetry|]. apply apply_updates_spec; rewrite list_fmap_id; by rewrite <- Hp.
Qed.

(** ** The prefetcher around them *)

(** A state whose services work and whose objects are where they belong. *)
Definition ready (s : StateDB) : Prop :=
  services_ok s ∧ ∀ a o, stateObjects s !! a = Some o → address o = a ∧ addrHash o = keccak256 a.

Lemma sdb_inv_ready s : sdb_inv s → ready s.
Proof.
  intros Hs. split; [split; apply Hs|]. intros a o Ho. by destruct (si_obj _ Hs _ _ Ho).
Qed.

Lemma on_prefetcher_run s owner root keys :
  services_ok s → length owner = hashLen →
  ∃ pf, on_prefetcher (λ d, pf_prefetch d owner root keys) s = (upd_prefetcher (λ _, pf) s, Ok tt)
    ∧ storage_frame s (upd_prefetcher (λ _, pf) s).
Proof.
  intros [Hd Hp] Ho. unfold on_prefetcher. destruct (prefetcher s) as [p|] eqn:Ep.
  - destruct (Hp p eq_refl) as [Hi Hz].
    destruct (pf_prefetch_spec (db s) (originalRoot s) Hd p owner root keys Hi Ho) as (p' & -> & Hi').
    exists (Some p'). split; [done|]. apply prefetcher_frame; [by intros _ ? [= <-]|by rewrite Ep].
  - exists None. split; [by destruct s; simpl in *; subst|]. by apply prefetcher_frame.
Qed.

(** What [Finalise] does to the services. *)
Definition finalised (s s' : StateDB) : Prop :=
  ready s' ∧ db s' = db s ∧ originalRoot s' = originalRoot s ∧ (prefetcher s = None → prefetcher s' = None).

Lemma finalised_trans s t u : finalised s t → finalised t u → finalised s u.
Proof. intros (_ & ? & ? & ?) (? & ? & ? & ?). split_and!; try congruence; auto. Qed.

Lemma ready_set s s' o a :
  ready s → storage_frame s s' → address o = a → addrHash o = keccak256 a → ready (setStateObject o s').
Proof.
  intros [Hsv Hobj] Hf Ha Hh. split; [by apply (services_frame s s')|].
  intros b p. simpl. rewrite (sf_objects _ _ Hf), Ha.
  intros [[<- <-]|[_ Hp]]%lookup_insert_Some; [by split|by apply Hobj].
Qed.

Lemma so_finalise_eq s o :
  services_ok s → addrHash o = keccak256 (address o) →
  ∃ pf, so_finalise true (s, o) = ((upd_prefetcher (λ _, pf) s, finalise_slots o), Ok tt)
    ∧ storage_frame s (upd_prefetcher (λ _, pf) s).
Proof.
  intros Hsv Hh. unfold so_finalise. rewrite (bind_step (self id) _ (s, o) (s, o) o) by done. cbv beta.
  rewrite (bind_step (on_self _) _ (s, o) (s, finalise_slots o) tt) by done. cbv beta zeta.
  case_bool_decide; [case_bool_decide|]; simpl.
  - unfold o_prefetch. destruct (on_prefetcher_run s (addrHash o) (acc_Root (data o)) (slotsToPrefetch o) Hsv)
      as (pf & E & Hf); [rewrite Hh; apply keccak256_length|]. simpl. rewrite E. by exists pf.
  - exists (prefetcher s). split; [by destruct s|]. by apply prefetcher_frame.
  - exists (prefetcher s). split; [by destruct s|]. by apply prefetcher_frame.
Qed.

Lemma so_finalise_run s o a :
  ready s → stateObjects s !! a = Some o →
  ∃ s', on_obj o (so_finalise true) s = (s', Ok tt) ∧ finalised s s'.
Proof.
  intros Hr Ho. pose proof Hr as [Hsv Hobj]. destruct (Hobj a o Ho) as [Ha Hh].
  destruct (so_finalise_eq s o Hsv) as (pf & E & Hf); [congruence|].
  eexists. unfold on_obj. rewrite E. split; [done|]. split; [|by destruct Hf as [????????[]]].
  by eapply (ready_set s).
Qed.

Lemma finalise_one_run d s a :
  ready s → ∃ s', finalise_one d a s = (s', Ok tt) ∧ finalised s s'.
Proof.
  intros Hr. unfold finalise_one. rewrite (bind_step (gets _) _ s s (stateObjects s !! a)) by done. cbv beta.
  destruct (stateObjects s !! a) as [o|] eqn:Ho; [|by exists s].
  set (m := if suicided o || _ then _ else _).
  assert (∃ s', m s = (s', Ok tt) ∧ finalised s s') as (s' & E & Hf).
  { unfold m. destruct (suicided o || (d && empty o)); [|by eapply so_finalise_run].
    eexists. split; [reflexivity|]. destruct Hr as [Hsv Hobj]. split_and!; [|by case_match..].
    split; [by case_match|]. intros b p Hp.
    assert (<[a:=upd_deleted (λ _, true) o]> (stateObjects s) !! b = Some p) as Hp' by (by case_match).
    apply lookup_insert_Some in Hp' as [[<- <-]|[_ Hp']]; [by apply (Hobj a o)|by apply Hobj]. }
  rewrite (bind_step _ _ _ _ _ E). eexists. split; [reflexivity|]. exact Hf.
Qed.

Lemma finalise_all_run d l : ∀ s,
  ready s → ∃ s', iterM (finalise_one d) l s = (s', Ok tt) ∧ finalised s s'.
Proof.
  induction l as [|a l IH]; intros s Hr; [by exists s|].
  destruct (finalise_one_run d s a Hr) as (s1 & E1 & Hf1). destruct (IH s1 (proj1 Hf1)) as (s2 & E2 & Hf2).
  exists s2. cbn [iterM]. erewrite bind_step by exact E1. split; [done|by eapply finalised_trans].
Qed.

Lemma Finalise_run d s : ready s → ∃ s', Finalise d s = (s', Ok tt) ∧ finalised s s'.
Proof.
  intros Hr. unfold Finalise. rewrite (bind_step (gets _) _ s s (range (dirties (jrnl s))).*1) by done. cbv beta.
  rewrite (bind_step (gets id) _ s s s) by done. cbv beta zeta.
  destruct (finalise_all_run d (range (dirties (jrnl s))).*1 s Hr) as (s1 & E1 & Hf1).
  rewrite (bind_step _ _ _ _ _ E1). cbv beta zeta.
  set (m := if bool_decide _ then _ else _).
  assert (∃ s', m s1 = (s', Ok tt) ∧ finalised s1 s') as (s2 & E2 & Hf2).
  { unfold m. case_bool_decide; [|exists s1; split; [done|split; [apply Hf1|done]]].
    destruct Hf1 as ([Hsv Hobj] & _). edestruct (on_prefetcher_run s1) as (pf & E & Hf); [done| |rewrite E].
    { done. }
    eexists. split; [done|]. split; [|by destruct Hf as [????????[]]].
    split; [by eapply services_frame|done]. }
  rewrite (bind_step _ _ _ _ _ E2). eexists. split; [reflexivity|].
  eapply finalised_trans; [exact Hf1|]. eapply finalised_trans; [exact Hf2|].
  destruct Hf2 as ([[? ?] ?] & _). unfold clearJournalAndRefund. by destruct (entries (jrnl s2)).
Qed.

Lemma take_account_trie_run s m :
  services_ok s → trie_map (sdb_trie s) m →
  (prefetcher s ≠ None → ∀ t, OpenTrie (originalRoot s) (db s) = Ok t → trie_map t m) →
  ∃ s', take_account_trie s = (s', Ok tt) ∧ trie_map (sdb_trie s') m ∧ services_ok s'
    ∧ stateObjects s' = stateObjects s ∧ stateObjectsPending s' = stateObjectsPending s ∧ dbErr s' = dbErr s
    ∧ db s' = db s ∧ originalRoot s' = originalRoot s ∧ snap s' = snap s ∧ rest s' = rest s.
Proof.
  intros [Hd Hp] Hm Ht. unfold take_account_trie. destruct (prefetcher s) as [p|] eqn:Ep.
  - destruct (Hp p eq_refl) as [Hi Hz].
    destruct (pf_trie_spec (db s) (originalRoot s) Hd p zeroHash (originalRoot s) Hi)
      as (p' & ot & -> & Hi' & Hl & _); [done|]. eexists. split; [done|]. split_and!; try done.
    + simpl. destruct ot as [t|]; [|done]. destruct (Hl t eq_refl) as (t0 & E & Hr).
      unfold open_trie in E. rewrite bool_decide_true in E by done.
      eapply reads_of_map; [exact Hr|]. by apply Ht.
    + split; [done|]. intros ? [= <-]. by split.
  - exists s. split_and!; try done. split; [done|]. by rewrite Ep.
Qed.

Lemma StopPrefetcher_run s :
  services_ok s → ∃ s', StopPrefetcher s = (s', Ok tt) ∧ s' = upd_prefetcher (λ _, None) s.
Proof.
  intros [Hd Hp]. unfold StopPrefetcher. destruct (prefetcher s) as [p|] eqn:Ep.
  - destruct (Hp p eq_refl) as [Hi _]. destruct (pf_close_spec _ _ Hd p Hi) as (p' & -> & _). by eexists.
  - exists s. split; [done|]. destruct s. simpl in *. by subst.
Qed.

(** From the finalised [s0] to [s'], whose account trie holds [m']. *)
Record rooted (s0 : StateDB) (st : bytes → gmap bytes bytes) (m' : gmap bytes bytes) (s' : StateDB) : Prop := {
  rd_db : db s' = db s0;
  rd_root : originalRoot s' = originalRoot s0;
  rd_snap : snap s' = snap s0;
  rd_rest : rest s' = rest s0;
  rd_dbErr : dbErr s' = dbErr s0;
  rd_services : services_ok s';
  rd_trie : trie_map (sdb_trie s') m';
  rd_other a : a ∉ stateObjectsPending s0 → stateObjects s' !! a = stateObjects s0 !! a;
  rd_pending a : a ∈ stateObjectsPending s0 → ∃ o o', stateObjects s0 !! a = Some o
    ∧ stateObjects s' !! a = Some o' ∧ root_of_object s0 o (st a) o'
}.

(** The two loops, with the exchange of the account trie between them. *)
Lemma IntermediateRoot_run s0 m st :
  services_ok s0 → trie_map (sdb_trie s0) m →
  (prefetcher s0 ≠ None → ∀ t, OpenTrie (originalRoot s0) (db s0) = Ok t → trie_map t m) →
  hashed_apart (elements (stateObjectsPending s0)) →
  (∀ a, a ∈ stateObjectsPending s0 → pending_ok s0 st a ∧
     ∀ o, stateObjects s0 !! a = Some o → deleted o = false → 0 ≤ acc_Balance (data o)) →
  let m' := apply_updates (elements (stateObjectsPending s0)) id (final_entry s0 st) m in
  ∃ s1 s2 s3, iterM update_one (range_set (stateObjectsPending s0)) s0 = (s1, Ok tt)
    ∧ take_account_trie s1 = (s2, Ok tt) ∧ stateObjectsPending s2 = stateObjectsPending s0
    ∧ iterM store_one (range_set (stateObjectsPending s0)) s2 = (s3, Ok tt)
    ∧ rooted s0 st m' s3.
Proof.
  intros Hsv Hm Hpf Hap Hok m'. set (l := range_set (stateObjectsPending s0)).
  assert (l ≡ₚ elements (stateObjectsPending s0)) as Hl by apply range_set_perm.
  assert (NoDup l) as Hnd by (rewrite Hl; apply NoDup_elements).
  assert (∀ a, a ∈ l ↔ a ∈ stateObjectsPending s0) as Hin by (intros a; rewrite Hl; set_solver).
  destruct (update_all_run st l s0 Hsv Hnd) as (s1 & E1 & Hf1 & Hout & Hall).
  { intros a Ha. by apply Hok, Hin. }
  pose proof (services_loop _ _ Hf1 Hsv) as Hsv1. destruct Hf1.
  destruct (take_account_trie_run s1 m Hsv1) as (s2 & E2 & Hm2 & Hsv2 & Ho2 & Hp2 & He2 & Hd2 & Hr2 & Hn2 & Hx2);
    [congruence| |].
  { intros Hn. rewrite lf_root0, lf_db0. apply Hpf. intros ?. by apply Hn, lf_prefetcher0. }
  destruct (store_all_run l s2 m) as (s3 & m3 & E3 & Hm3 & Ho3 & He3 & Hs3 & Hu); [done| | |done|].
  { intros a b. rewrite Hl. apply Hap. }
  { intros a Ha. destruct (Hall a Ha) as (o & o' & Ho & Ho' & Hro).
    destruct (root_of_object_keeps _ _ _ _ Hro) as (Haddr & _ & Hdel).
    destruct (Hok a (proj1 (Hin a) Ha)) as [(p & Hp & Hpa & _) Hbal]. exists o'. rewrite Ho2.
    assert (p = o) as -> by congruence. split_and!; [done|congruence|]. rewrite Hdel. intros Hd.
    unfold root_of_object in Hro. rewrite Hd in Hro. destruct Hro as (-> & _).
    apply encode_account. simpl. by apply (Hbal o). }
  assert (m3 = m') as ->.
  { unfold m'. rewrite <- (apply_updates_perm l); [|done|by rewrite Hl|done].
    eapply updated_unique; [exact Hu|].
    eapply updated_ext; [|apply apply_updates_spec; rewrite list_fmap_id; [done|by rewrite Hl]].
    intros a Ha. unfold final_entry, stored_account. rewrite Ho2.
    destruct (Hall a Ha) as (o & o' & -> & -> & Hro). destruct (root_of_object_keeps _ _ _ _ Hro) as (_ & _ & Hdel).
    simpl. rewrite Hdel. unfold root_of_object in Hro. destruct (deleted o); [done|]. by destruct Hro as [-> _]. }
  exists s1, s2, s3. split_and!; try done; [congruence|].
  pose proof (same_services_ok _ _ Hs3 Hsv2) as Hsv3. destruct Hs3 as (Ed & Er & _ & En & Ex).
  split; try done; try congruence.
  - intros a Ha. rewrite Ho3, Ho2. apply Hout. by rewrite Hin.
  - intros a Ha. rewrite Ho3, Ho2. by apply Hall, Hin.
Qed.

(** The whole of [IntermediateRoot]. *)
Lemma IntermediateRoot_ends d s m st :
  let s0 := (Finalise d s).1 in
  ready s → trie_map (sdb_trie s0) m →
  (prefetcher s ≠ None → ∀ t, OpenTrie (originalRoot s) (db s) = Ok t → trie_map t m) →
  hashed_apart (elements (stateObjectsPending s0)) →
  (∀ a, a ∈ stateObjectsPending s0 → pending_ok s0 st a ∧
     ∀ o, stateObjects s0 !! a = Some o → deleted o = false → 0 ≤ acc_Balance (data o)) →
  let m' := apply_updates (elements (stateObjectsPending s0)) id (final_entry s0 st) m in
  ∃ s', IntermediateRoot d s = (s', Ok (root_of m')) ∧ rooted s0 st m' s'
    ∧ stateObjectsPending s' = ∅ ∧ prefetcher s' = None.
Proof.
  intros s0 Hr Hm Hpf Hap Hok m'. destruct (Finalise_run d s Hr) as (s0' & E0 & [Hsv0 _] & Hd0 & Hr0 & Hn0).
  assert (s0' = s0) as -> by (unfold s0; by rewrite E0). clearbody s0.
  destruct (IntermediateRoot_run s0 m st Hsv0 Hm) as (s1 & s2 & s3 & E1 & E2 & Hp & E3 & Hrd); [|done..|].
  { intros Hn. rewrite Hr0, Hd0. apply Hpf. auto. }
  set (s4 := upd_prefetcher (fmap (pf_used zeroHash (originalRoot s3) (range_set (stateObjectsPending s0)))) s3).
  assert (services_ok s4) as Hsv4 by (eapply services_frame; [by apply used_frame|apply Hrd]).
  destruct Hrd. destruct (Hash_map (sdb_trie s3) _ rd_trie0) as (t' & E5 & Hm5).
  set (s5 := upd_trie (λ _, t') (upd_pendings (λ _, ∅) s4)).
  destruct (StopPrefetcher_run s5 Hsv4) as (s6 & E6 & ->).
  exists (upd_prefetcher (λ _, None) s5). split_and!; try done.
  2: { split; try done. split; [apply Hsv4|done]. }
  unfold IntermediateRoot. rewrite (bind_step _ _ _ _ _ E0). cbv beta.
  rewrite (bind_step (gets _) _ s0 s0 (range_set (stateObjectsPending s0))) by done. cbv beta.
  rewrite (bind_step _ _ _ _ _ E1). cbv beta. rewrite (bind_step _ _ _ _ _ E2). cbv beta.
  rewrite (bind_step (gets _) _ s2 s2 (range_set (stateObjectsPending s0))) by (unfold gets; by rewrite Hp). cbv beta.
  rewrite (bind_step _ _ _ _ _ E3). cbv beta.
  rewrite (bind_step (modify _) _ s3 s4 tt) by done. cbv beta.
  rewrite (bind_step (modify _) _ s4 (upd_pendings (λ _, ∅) s4) tt) by done. cbv beta.
  rewrite (bind_step (on_account_trie trie_Hash) _ _ s5 (inl (root_of m')))
    by (unfold on_account_trie, try_on; simpl; by rewrite E5).
  cbv beta. by rewrite (bind_step _ _ _ _ _ E6).
Qed.

(** C3: [IntermediateRoot] finalises the state and returns the root of the
    account map in which every pending account has its new entry: none when it
    was deleted, else the encoding of its data with the root of its storage map
    after the pending slot writes.  The entries, the storage maps and so the
    root do not depend on the order in which Go visits the maps, nor on a
    prefetcher and its goroutines, provided that the account trie a prefetcher
    would open is the one to be written; the account trie holds the new map,
    nothing is left pending, no error is recorded and the prefetcher is gone. *)
Theorem IntermediateRoot_correct d s m st :
  let s0 := (Finalise d s).1 in
  ready s → trie_map (sdb_trie s0) m →
  (prefetcher s ≠ None → ∀ t, OpenTrie (originalRoot s) (db s) = Ok t → trie_map t m) →
  hashed_apart (elements (stateObjectsPending s0)) →
  (∀ a, a ∈ stateObjectsPending s0 → pending_ok s0 st a ∧
     ∀ o, stateObjects s0 !! a = Some o → deleted o = false → 0 ≤ acc_Balance (data o)) →
  let m' := apply_updates (elements (stateObjectsPending s0)) id (final_entry s0 st) m in
  ∃ s', IntermediateRoot d s = (s', Ok (root_of m')) ∧ trie_map (sdb_trie s') m'
    ∧ stateObjectsPending s' = ∅ ∧ dbErr s' = dbErr s0 ∧ prefetcher s' = None.
Proof.
  intros s0 Hr Hm Hpf Hap Hok m'.
  destruct (IntermediateRoot_ends d s m st Hr Hm Hpf Hap Hok) as (s' & E & [] & Hp & Hn).
  exists s'. by split_and!.
Qed.

End root.
