(* ===== verification/FinaliseSpec.v ===== *)
(** * Ending a transaction: [StateDB.Finalise]

    What a StateDB of trie_by_cid/state answers before [Finalise] determines what
    it answers afterwards: suicided (and, on request, empty) accounts are gone,
    what was written is committed, and nothing else changes. *)
From S2P Require Import Prelude Errors Geth AccessList StateOps Prefetcher PrefetcherSpec.
From S2P Require Import StateData StateObject StateDB StateView StateReads Revert Undo Snapshot StateRoot.
Import TransientStorage(ts_Get).
Local Open Scope Z_scope.

Section finalise.
Context `{RlpOps, CryptoOps, CommonOps, AccountOps, TrieOps, !DatabaseOps, SnapOps, RangeOps, SchedOps}.
Context `{!RlpLaws, !CryptoLaws, !AccountLaws, !TrieLaws, !DatabaseLaws, !SnapLaws, !RangeLaws}.

(** ** What a state shows *)

Definition on_live {A} (s : StateDB) (a : bytes) (none : A) (f : env → stateObject → A) : A :=
  match live (obj_at s a) with Some o => f (env_of s) o | None => none end.

Definition view (q : query) (s : StateDB) : answer q :=
  match q with
  | QExist a => on_live s a false (λ _ _, true)
  | QEmpty a => on_live s a true (λ _ o, empty o)
  | QBalance a => on_live s a 0 (λ _ o, acc_Balance (data o))
  | QNonce a => on_live s a 0 (λ _ o, acc_Nonce (data o))
  | QCode a => on_live s a None code_of
  | QCodeSize a => on_live s a 0 (λ E o, match code_of E o with Some c => Z.of_nat (length c) | None => 0 end)
  | QCodeHash a => on_live s a zeroHash (λ _ o, BytesToHash (acc_CodeHash (data o)))
  | QState a k => on_live s a zeroHash (λ E o, current E o k)
  | QCommittedState a k => on_live s a zeroHash (λ E o, committed E o k)
  | QSuicided a => on_live s a false (λ _ o, suicided o)
  | QRefund => refund s
  | QTransient a k => ts_Get a k (transient s)
  | QAddress a => AccessList.ContainsAddress a (access s)
  | QSlot a k => match AccessList.Contains a k (access s) with Ok r => r | _ => (false, false) end
  | QLogs => logs s
  | QPreimages => preimages s
  | QTxIndex => txIndex s
  end.

Lemma with_object_view {A} s a (m : stateM (StateDB * stateObject) error A) none (f : env → stateObject → A) :
  (∀ s o, p_ok (s, o) → oyields m (s, o) (f (env_of s) o)) →
  (∀ E F o p, obj_same E F o p → f E o = f F p) →
  sdb_inv s → (with_object a m none s).2 = Ok (on_live s a none f).
Proof. intros Hm Hf Hs. by destruct (with_object_reads s a m none f Hm Hf Hs) as (s' & -> & _). Qed.

Lemma self_view {A} s a (g : stateObject → A) none :
  (∀ E F o p, obj_same E F o p → g o = g p) → sdb_inv s →
  (with_object a (self g) none s).2 = Ok (on_live s a none (λ _, g)).
Proof. intros Hg. apply (with_object_view s a _ _ (λ _, g)); [|done]. intros. by apply oyields_pure. Qed.

Lemma ask_view q s : sdb_inv s → (ask q s).2 = Ok (view q s).
Proof.
  intros Hs. destruct q; simpl.
  - apply (with_object_view s a _ _ (λ _ _, true)); [|done|done].
    intros s0 o Hok. exists (s0, o). split; [done|by apply oreads_refl].
  - apply self_view; [|done]. intros E F o p Hop. unfold empty. by rewrite (os_data _ _ _ _ Hop).
  - apply self_view; [|done]. intros E F o p Hop. by rewrite (os_data _ _ _ _ Hop).
  - apply self_view; [|done]. intros E F o p Hop. by rewrite (os_data _ _ _ _ Hop).
  - apply (with_object_view s a _ _ code_of); [by intros; apply Code_spec| |done].
    intros E F o p Hop. apply Hop.
  - apply (with_object_view s a _ _ (λ E o, match code_of E o with Some c => Z.of_nat (length c) | None => 0 end));
      [by intros; apply CodeSize_spec| |done].
    intros E F o p Hop. by rewrite (os_code _ _ _ _ Hop).
  - apply self_view; [|done]. intros E F o p Hop. by rewrite (os_data _ _ _ _ Hop).
  - apply (with_object_view s a _ _ (λ E o, current E o k)); [by intros; apply so_GetState_spec| |done].
    intros E F o p Hop. apply Hop.
  - apply (with_object_view s a _ _ (λ E o, committed E o k)); [by intros; apply so_GetCommittedState_spec| |done].
    intros E F o p Hop. apply Hop.
  - apply self_view; [|done]. intros E F o p Hop. apply Hop.
  - done.
  - done.
  - done.
  - unfold SlotInAccessList, gets. mred. rewrite (AccessList.Contains_spec a k) by apply Hs. done.
  - done.
  - done.
  - done.
Qed.

Lemma on_live_same {A} s t a (none : A) f :
  option_Forall2 (obj_same (env_of s) (env_of t)) (obj_at s a) (obj_at t a) →
  (∀ E F o p, obj_same E F o p → f E o = f F p) → on_live t a none f = on_live s a none f.
Proof.
  intros Hst Hf. unfold on_live, live. destruct Hst as [o p Hop|]; [|done]. simpl.
  rewrite <- (os_deleted _ _ _ _ Hop). destruct (deleted o); [done|]. symmetry. by apply Hf.
Qed.

(** The account a question is about. *)
Definition about (q : query) : option bytes :=
  match q with
  | QExist a | QEmpty a | QBalance a | QNonce a | QCode a | QCodeSize a | QCodeHash a
  | QState a _ | QCommittedState a _ | QSuicided a => Some a
  | _ => None
  end.

Lemma account_view s t q a :
  about q = Some a → option_Forall2 (obj_same (env_of s) (env_of t)) (obj_at s a) (obj_at t a) →
  view q t = view q s.
Proof.
  intros Hq Hst. destruct q; try discriminate Hq; injection Hq as ->; apply on_live_same; try done; intros E F o p Hop;
    solve [done | apply Hop | unfold empty; by rewrite (os_data _ _ _ _ Hop) | by rewrite (os_code _ _ _ _ Hop)].
Qed.

(** ** What [Finalise] does to the state *)

Definition dies (del : bool) (o : stateObject) : bool := suicided o || (del && empty o).
Definition finished (del : bool) (o : stateObject) : stateObject :=
  if dies del o then upd_deleted (λ _, true) o else finalise_slots o.

(** From [s] to [s']: the objects at the addresses [X] have ended their transaction. *)
Record ends_tx (del : bool) (X : gset bytes) (s s' : StateDB) : Prop := {
  et_objects a :
    stateObjects s' !! a = (λ o, if decide (a ∈ X) then finished del o else o) <$> stateObjects s !! a;
  et_pending a :
    a ∈ stateObjectsPending s' ↔ a ∈ stateObjectsPending s ∨ a ∈ X ∧ is_Some (stateObjects s !! a);
  et_dirty a :
    a ∈ stateObjectsDirty s' ↔ a ∈ stateObjectsDirty s ∨ a ∈ X ∧ is_Some (stateObjects s !! a);
  et_destruct a :
    a ∈ stateObjectsDestruct s' ↔ a ∈ stateObjectsDestruct s
      ∨ a ∈ X ∧ ∃ o, stateObjects s !! a = Some o ∧ dies del o = true;
  et_services : services_ok s → services_ok s';
  et_tries : db s' = db s ∧ sdb_trie s' = sdb_trie s ∧ originalRoot s' = originalRoot s ∧ snap s' = snap s
             ∧ snaps s' = snaps s;
  et_journal : jrnl s' = jrnl s ∧ refund s' = refund s ∧ validRevisions s' = validRevisions s;
  et_rest : logs s' = logs s ∧ logSize s' = logSize s ∧ preimages s' = preimages s
            ∧ access s' = access s ∧ transient s' = transient s ∧ thash s' = thash s
            ∧ txIndex s' = txIndex s ∧ dbErr s' = dbErr s
}.

(** Every object is where it belongs. *)
Definition placed (s : StateDB) : Prop :=
  ∀ a o, stateObjects s !! a = Some o → address o = a ∧ addrHash o = keccak256 a.

(** A step that replaces one object, marks its address and may change the
    prefetcher and the caches of the snapshot. *)
Lemma ends_tx_one del a s s1 o :
  stateObjects s !! a = Some o → address o = a →
  stateObjects s1 = <[a := finished del o]> (stateObjects s) →
  stateObjectsPending s1 = stateObjectsPending s → stateObjectsDirty s1 = stateObjectsDirty s →
  stateObjectsDestruct s1 = (if dies del o then {[a]} else ∅) ∪ stateObjectsDestruct s →
  (services_ok s → services_ok s1) →
  db s1 = db s ∧ sdb_trie s1 = sdb_trie s ∧ originalRoot s1 = originalRoot s ∧ snap s1 = snap s
    ∧ snaps s1 = snaps s →
  jrnl s1 = jrnl s ∧ refund s1 = refund s ∧ validRevisions s1 = validRevisions s →
  logs s1 = logs s ∧ logSize s1 = logSize s ∧ preimages s1 = preimages s
    ∧ access s1 = access s ∧ transient s1 = transient s ∧ thash s1 = thash s
    ∧ txIndex s1 = txIndex s ∧ dbErr s1 = dbErr s →
  ends_tx del {[a]} s (upd_dirtys (union {[a]}) (upd_pendings (union {[a]}) s1)).
Proof.
  intros Ho Ha Hobj Hp Hd Hk Hsv Ht Hj Hr. split; try done; simpl.
  - intros b. rewrite Hobj. destruct (decide (a = b)) as [<-|Hb].
    + rewrite lookup_insert_eq, Ho. simpl. by rewrite decide_True by set_solver.
    + rewrite lookup_insert_ne by done. destruct (stateObjects s !! b); [|done]. simpl.
      by rewrite decide_False by set_solver.
  - intros b. rewrite Hp, elem_of_union, elem_of_singleton. split; [|naive_solver].
    intros [->|?]; [right; by eauto|by left].
  - intros b. rewrite Hd, elem_of_union, elem_of_singleton. split; [|naive_solver].
    intros [->|?]; [right; by eauto|by left].
  - intros b. rewrite Hk, elem_of_union, elem_of_singleton. destruct (dies del o) eqn:Hdies.
    + rewrite elem_of_singleton. split; [|naive_solver]. intros [->|?]; [right; by eauto|by left].
    + rewrite elem_of_empty. split; [naive_solver|]. intros [?|[-> (o' & ? & ?)]]; [by right|congruence].
Qed.

Lemma ends_tx_idle del a s : stateObjects s !! a = None → ends_tx del {[a]} s s.
Proof.
  intros Ho. split; try done; [|intros b; rewrite elem_of_singleton; split; [by left|];
    intros [?|[-> ?]]; [done|]; rewrite Ho in *; naive_solver..].
  intros b. destruct (decide (b = a)) as [->|]; [by rewrite Ho|].
  destruct (stateObjects s !! b); [|done]. simpl. by rewrite decide_False by set_solver.
Qed.

Lemma finalise_one_ends del a s :
  services_ok s → placed s →
  ∃ s', finalise_one del a s = (s', Ok tt) ∧ ends_tx del {[a]} s s'.
Proof.
  intros Hsv Hpl. unfold finalise_one. rewrite (bind_step (gets _) _ s s (stateObjects s !! a)) by done. cbv beta.
  destruct (stateObjects s !! a) as [o|] eqn:Ho; [|by exists s; split; [|apply ends_tx_idle]].
  destruct (Hpl a o Ho) as [Ha Hh]. change (suicided o || (del && empty o)) with (dies del o).
  destruct (dies del o) eqn:Hd.
  - unfold modify. mred. eexists. split; [reflexivity|].
    apply (ends_tx_one del a s _ o); unfold finished; rewrite ?Hd, ?Ha; done || by case_match.
  - destruct (so_finalise_eq s o Hsv) as (pf & E & Hf); [congruence|].
    unfold on_obj, modify. mred. rewrite E. simpl. eexists. split; [reflexivity|].
    apply (ends_tx_one del a s _ o); unfold finished; rewrite ?Hd; simpl; try done.
    + by rewrite Ha.
    + set_solver.
    + intros _. by apply (services_frame s (upd_prefetcher (λ _, pf) s)).
Qed.

Lemma finished_placed del o : address (finished del o) = address o ∧ addrHash (finished del o) = addrHash o.
Proof. unfold finished. by destruct (dies del o). Qed.

Lemma ends_tx_placed del X s s' : ends_tx del X s s' → placed s → placed s'.
Proof.
  intros He Hp a o. rewrite (et_objects _ _ _ _ He). intros (o' & Ho' & ->)%fmap_Some.
  case_decide; [|by apply Hp]. destruct (finished_placed del o') as [-> ->]. by apply Hp.
Qed.

Lemma ends_tx_nil del s : ends_tx del ∅ s s.
Proof.
  split; try done; [|intros a; split; [by left|]; intros [?|[[]%elem_of_empty _]]; done..].
  intros a. by destruct (stateObjects s !! a).
Qed.

Lemma ends_tx_comp del X a s1 s2 s3 :
  a ∉ X → ends_tx del {[a]} s1 s2 → ends_tx del X s2 s3 → ends_tx del ({[a]} ∪ X) s1 s3.
Proof.
  intros Ha F1 F2. pose proof (et_objects _ _ _ _ F1) as O1. pose proof (et_objects _ _ _ _ F2) as O2.
  assert (∀ b, is_Some (stateObjects s2 !! b) ↔ is_Some (stateObjects s1 !! b)) as HS.
  { intros b. rewrite O1. by rewrite fmap_is_Some. }
  assert (∀ b, b ∈ X → stateObjects s2 !! b = stateObjects s1 !! b) as HX.
  { intros b Hb. rewrite O1. destruct (stateObjects s1 !! b); [|done]. simpl. by rewrite decide_False by set_solver. }
  split.
  - intros b. rewrite O2. destruct (decide (b ∈ X)) as [Hb|Hb].
    + rewrite (HX b Hb). destruct (stateObjects s1 !! b); [|done]. simpl. by rewrite decide_True by set_solver.
    + rewrite O1. destruct (stateObjects s1 !! b); [|done]. simpl. f_equal.
      destruct (decide (b ∈ {[a]})), (decide (b ∈ {[a]} ∪ X)); set_solver.
  - intros b. rewrite (et_pending _ _ _ _ F2), (et_pending _ _ _ _ F1), HS, elem_of_union. tauto.
  - intros b. rewrite (et_dirty _ _ _ _ F2), (et_dirty _ _ _ _ F1), HS, elem_of_union. tauto.
  - intros b. rewrite (et_destruct _ _ _ _ F2), (et_destruct _ _ _ _ F1), elem_of_union. split.
    + intros [[?|[? ?]]|[Hb ?]]; [by left|by right; split; [left|]|right]. rewrite <- HX by done. by split; [right|].
    + intros [?|[[?|Hb] ?]]; [by left; left|by left; right|right]. rewrite HX by done. by split.
  - intros Hs. by apply (et_services _ _ _ _ F2), (et_services _ _ _ _ F1).
  - destruct (et_tries _ _ _ _ F1) as (?&?&?&?&?), (et_tries _ _ _ _ F2) as (?&?&?&?&?). split_and!; congruence.
  - destruct (et_journal _ _ _ _ F1) as (?&?&?), (et_journal _ _ _ _ F2) as (?&?&?). split_and!; congruence.
  - destruct (et_rest _ _ _ _ F1) as (?&?&?&?&?&?&?&?), (et_rest _ _ _ _ F2) as (?&?&?&?&?&?&?&?).
    split_and!; congruence.
Qed.

Lemma finalise_all_ends del xs s :
  NoDup xs → services_ok s → placed s →
  ∃ s', iterM (finalise_one del) xs s = (s', Ok tt) ∧ ends_tx del (list_to_set xs) s s'.
Proof.
  intros Hnd. revert s. induction Hnd as [|a xs Ha _ IH]; intros s Hsv Hpl; simpl.
  { exists s. split; [done|]. apply ends_tx_nil. }
  destruct (finalise_one_ends del a s Hsv Hpl) as (s1 & E1 & F1).
  destruct (IH s1) as (s2 & E2 & F2); [by eapply et_services|by eapply ends_tx_placed|].
  exists s2. rewrite (bind_step _ _ _ _ _ E1). split; [done|].
  eapply ends_tx_comp; [|done..]. by rewrite elem_of_list_to_set.
Qed.

(** The addresses the transaction touched. *)
Definition touched (s : StateDB) : gset bytes := dom (dirties (jrnl s)).

Lemma range_touched s :
  NoDup (range (dirties (jrnl s))).*1 ∧ list_to_set (range (dirties (jrnl s))).*1 = touched s.
Proof.
  destruct (range_keys (dirties (jrnl s))) as [Hnd Hp]. split; [done|]. rewrite Hp.
  apply set_eq. intros a. unfold touched. rewrite elem_of_list_to_set, elem_of_dom, list_elem_of_fmap. split.
  - intros ([b z] & -> & Hb%elem_of_map_to_list). by exists z.
  - intros [z Hz]. exists (a, z). split; [done|]. by apply elem_of_map_to_list.
Qed.

(** The whole of [Finalise]: the objects end, then the journal goes. *)
Lemma Finalise_ends del s :
  services_ok s → placed s →
  ∃ s1 s2, Finalise del s = (clearJournalAndRefund s2, Ok tt) ∧ ends_tx del (touched s) s s1
    ∧ storage_frame s1 s2 ∧ ∃ pf, s2 = upd_prefetcher (λ _, pf) s1.
Proof.
  intros Hsv Hpl. destruct (range_touched s) as [Hnd Hset].
  destruct (finalise_all_ends del _ s Hnd Hsv Hpl) as (s1 & E1 & F1). rewrite Hset in F1.
  unfold Finalise. rewrite (bind_step (gets _) _ s s (range (dirties (jrnl s))).*1) by done. cbv beta.
  rewrite (bind_step (gets id) _ s s s) by done. cbv beta zeta. rewrite (bind_step _ _ _ _ _ E1).
  case_bool_decide as Hne.
  - edestruct (on_prefetcher_run s1 zeroHash) as (pf & E & Hf); [by eapply et_services|done|].
    rewrite (bind_step _ _ _ _ _ E). exists s1, (upd_prefetcher (λ _, pf) s1). split_and!; try done. by eexists.
  - exists s1, s1. split_and!; try done. exists (prefetcher s1). by destruct s1.
Qed.

(** ** What it shows afterwards *)

Definition gone (del : bool) (s : StateDB) (a : bytes) : bool :=
  bool_decide (a ∈ touched s) && match stateObjects s !! a with Some o => dies del o | None => false end.
Definition written (s : StateDB) (a : bytes) : bool :=
  bool_decide (a ∈ touched s) && bool_decide (is_Some (stateObjects s !! a)).

(** The answers after [Finalise]. *)
Definition after (del : bool) (s : StateDB) (q : query) : answer q :=
  match q with
  | QExist a => if gone del s a then false else view (QExist a) s
  | QEmpty a => if gone del s a then true else view (QEmpty a) s
  | QBalance a => if gone del s a then 0 else view (QBalance a) s
  | QNonce a => if gone del s a then 0 else view (QNonce a) s
  | QCode a => if gone del s a then None else view (QCode a) s
  | QCodeSize a => if gone del s a then 0 else view (QCodeSize a) s
  | QCodeHash a => if gone del s a then zeroHash else view (QCodeHash a) s
  | QState a k => if gone del s a then zeroHash else view (QState a k) s
  | QCommittedState a k =>
      if gone del s a then zeroHash
      else if written s a then view (QState a k) s else view (QCommittedState a k) s
  | QSuicided a => if gone del s a then false else view (QSuicided a) s
  | QRefund => match entries (jrnl s) with [] => refund s | _ => 0 end
  | q => view q s
  end.

(** [s'] is [s] with the touched objects ended, up to the journal, the refund and
    the prefetcher. *)
Record finalised_to (del : bool) (s s' : StateDB) : Prop := {
  ft_objects a :
    stateObjects s' !! a = (λ o, if decide (a ∈ touched s) then finished del o else o) <$> stateObjects s !! a;
  ft_destruct a : a ∈ stateObjectsDestruct s' ↔ a ∈ stateObjectsDestruct s ∨ gone del s a = true;
  ft_tries : db s' = db s ∧ sdb_trie s' = sdb_trie s ∧ originalRoot s' = originalRoot s ∧ snap s' = snap s
             ∧ snaps s' = snaps s
}.

Section shows.
Context (del : bool) (s s' : StateDB) (Hs : sdb_inv s) (Hto : finalised_to del s s').

Lemma account_at_after a : account_at s' a = account_at s a.
Proof. destruct (ft_tries _ _ _ Hto) as (_ & Et & _ & Es & _). unfold account_at. by rewrite Et, Es. Qed.

Lemma env_after a : gone del s a = false → same_env_at a (env_of s) (env_of s').
Proof.
  intros Hg. destruct (ft_tries _ _ _ Hto) as (Ed & _ & Er & Es & _).
  split_and!; simpl; [by rewrite Ed|done|done|]. rewrite (ft_destruct _ _ _ Hto), Hg. naive_solver.
Qed.

Lemma live_after a :
  match live (obj_at s' a) with
  | None => gone del s a = true ∨ live (obj_at s a) = None
  | Some o' => gone del s a = false
      ∧ ∃ o, live (obj_at s a) = Some o ∧ o' = if written s a then finalise_slots o else o
  end.
Proof.
  unfold gone, written, obj_at. rewrite (ft_objects _ _ _ Hto), account_at_after.
  destruct (stateObjects s !! a) as [o|] eqn:Ho; simpl.
  2: { rewrite !andb_false_r. unfold live. destruct (newObject a <$> _) as [o|]; simpl; [|by right].
       destruct (deleted o); [by right|]. split; [done|by exists o]. }
  case_decide as Ha.
  - rewrite !(bool_decide_true (a ∈ _)) by done. simpl. unfold finished, live.
    destruct (dies del o) eqn:Hd; simpl; [by left|]. destruct (deleted o); [by right|].
    split; [done|by exists o].
  - rewrite !(bool_decide_false (a ∈ _)) by done. simpl. unfold live. simpl.
    destruct (deleted o); [by right|]. split; [done|by exists o].
Qed.

Lemma on_live_after {A} a (none : A) f :
  (∀ E F o p, obj_same E F o p → f E o = f F p) →
  on_live s' a none f
  = if gone del s a then none
    else if written s a then on_live s a none (λ E o, f E (finalise_slots o)) else on_live s a none f.
Proof.
  intros Hf. pose proof (live_after a) as Hl. unfold on_live.
  destruct (live (obj_at s' a)) as [o'|].
  - destruct Hl as (Hg & o & Hlo & ->). rewrite Hg, Hlo.
    assert (address o = a) as Haddr.
    { unfold live in Hlo. destruct (obj_at s a) as [p|] eqn:Ho; [|done]. simpl in Hlo.
      destruct (deleted p); simplify_eq. by destruct (obj_at_ok s a o Hs Ho). }
    assert (∀ p, address p = a → f (env_of s') p = f (env_of s) p) as Henv.
    { intros p Hp. symmetry. apply Hf, obj_same_env. rewrite Hp. by apply env_after. }
    destruct (written s a); by apply Henv.
  - destruct (gone del s a); [done|]. destruct Hl as [?|Hl]; [done|]. rewrite Hl. by destruct (written s a).
Qed.

Lemma on_live_ext {A} t a (none : A) f g : (∀ E o, f E o = g E o) → on_live t a none f = on_live t a none g.
Proof. intros Hfg. unfold on_live. by destruct (live _). Qed.

Lemma committed_finalised E o k : committed E (finalise_slots o) k = current E o k.
Proof.
  unfold committed, current. simpl.
  destruct (dirtyStorage o !! k) as [v|] eqn:Hd.
  - by rewrite (lookup_union_Some_l _ _ _ _ Hd).
  - rewrite lookup_union_r by done. reflexivity.
Qed.
Lemma current_finalised E o k : current E (finalise_slots o) k = current E o k.
Proof. unfold current at 1. simpl. rewrite lookup_empty. apply committed_finalised. Qed.
End shows.

Lemma after_view del s s1 pf q :
  sdb_inv s → ends_tx del (touched s) s s1 →
  let s' := clearJournalAndRefund (upd_prefetcher (λ _, pf) s1) in
  finalised_to del s s' → view q s' = after del s q.
Proof.
  intros Hs F s' Hto. destruct (et_rest _ _ _ _ F) as (El & _ & Ep & Ea & Et & _ & Ex & _).
  destruct (et_journal _ _ _ _ F) as (Ej & Er & _).
  destruct q; cbn [view after];
    try (rewrite (on_live_after del s s' Hs Hto); [destruct (gone del s a), (written s a); done|]).
  all: try (intros E1 E2 o p Hop;
    solve [done | apply Hop | unfold empty; by rewrite (os_data _ _ _ _ Hop) | by rewrite (os_code _ _ _ _ Hop)]).
  1, 2: rewrite (on_live_after del s s' Hs Hto) by (intros E1 E2 o p Hop; apply Hop);
    destruct (gone del s a), (written s a); try done; apply on_live_ext; intros;
    (apply current_finalised || apply committed_finalised).
  all: unfold s', clearJournalAndRefund; simpl; rewrite ?Ej; destruct (entries (jrnl s)); simpl;
    rewrite ?El, ?Ep, ?Ea, ?Et, ?Er, ?Ex; done.
Qed.

Lemma finished_ok del a o : obj_ok a o → obj_ok a (finished del o).
Proof. intros []. unfold finished. destruct (dies del o); by split. Qed.

Lemma ends_tx_inv del X s s1 : sdb_inv s → ends_tx del X s s1 → sdb_inv s1.
Proof.
  intros [] F. destruct (et_tries _ _ _ _ F) as (Ed & Et & Er & Es & _).
  destruct (et_rest _ _ _ _ F) as (El & Els & _ & Ea & _).
  assert (∀ a, is_Some (stateObjects s1 !! a) ↔ is_Some (stateObjects s !! a)) as HS.
  { intros b. by rewrite (et_objects _ _ _ _ F), fmap_is_Some. }
  destruct (et_services _ _ _ _ F) as [Hd Hp]; [by split|].
  split; rewrite ?Et, ?El, ?Els, ?Ea; try done.
  - intros a o. rewrite (et_objects _ _ _ _ F). intros (o' & Ho' & ->)%fmap_Some.
    case_decide; [by apply finished_ok, si_obj|by apply si_obj].
  - intros a. rewrite HS, (et_pending _ _ _ _ F). intros [?|[_ ?]]; [by apply si_pending|done].
  - intros a. rewrite HS, (et_dirty _ _ _ _ F). intros [?|[_ ?]]; [by apply si_dirty|done].
Qed.

Lemma clear_inv s pf :
  sdb_inv s → storage_frame s (upd_prefetcher (λ _, pf) s) →
  sdb_inv (clearJournalAndRefund (upd_prefetcher (λ _, pf) s)).
Proof.
  intros [] Hf. destruct (services_frame _ _ Hf) as [_ Hp]; [by split|].
  unfold clearJournalAndRefund. simpl. destruct (entries (jrnl s)); by split.
Qed.

Lemma ends_tx_to del s s1 pf :
  ends_tx del (touched s) s s1 → finalised_to del s (clearJournalAndRefund (upd_prefetcher (λ _, pf) s1)).
Proof.
  intros F. unfold clearJournalAndRefund. simpl.
  assert (∀ f g h, finalised_to del s (upd_revisions f (upd_refund g (upd_journal h (upd_prefetcher (λ _, pf) s1))))) as Hto.
  { intros f g h. split; simpl; [apply F| |apply F]. intros a. rewrite (et_destruct _ _ _ _ F). unfold gone.
    rewrite andb_true_iff, bool_decide_eq_true.
    split; (intros [?|[Ha Ho]]; [by left|right; split; [done|]]).
    - by destruct Ho as (o & -> & ?).
    - destruct (stateObjects s !! a) as [o|]; [by exists o|done]. }
  destruct (entries (jrnl s1)); [apply (Hto _ id id)|apply Hto].
Qed.

Lemma Finalise_inv del s : sdb_inv s → (Finalise del s).2 = Ok tt ∧ sdb_inv (Finalise del s).1.
Proof.
  intros Hs. pose proof (sdb_inv_ready s Hs) as [Hsv Hpl].
  destruct (Finalise_ends del s Hsv Hpl) as (s1 & s2 & -> & F & Hf & pf & ->). split; [done|].
  eapply clear_inv; [by eapply ends_tx_inv|done].
Qed.

(** C4: [Finalise] never fails, and what it leaves answers every question as
    follows, whatever the order of the map and the prefetcher: an account that was
    touched and suicided (or is empty, if those go too) no longer exists; a slot
    of any other touched account is committed at its current value; the refund is
    spent unless the journal was empty; nothing else changes.  The touched
    accounts are pending and dirty, and there is nothing left to revert. *)
Theorem Finalise_correct del s :
  sdb_inv s →
  ∃ s', Finalise del s = (s', Ok tt) ∧ sdb_inv s'
    ∧ (∀ q, (ask q s').2 = Ok (after del s q))
    ∧ (∀ a, a ∈ stateObjectsPending s' ↔ a ∈ stateObjectsPending s ∨ written s a = true)
    ∧ (∀ a, a ∈ stateObjectsDirty s' ↔ a ∈ stateObjectsDirty s ∨ written s a = true)
    ∧ (∀ a, a ∈ stateObjectsDestruct s' ↔ a ∈ stateObjectsDestruct s ∨ gone del s a = true)
    ∧ entries (jrnl s') = [] ∧ validRevisions s' = [].
Proof.
  intros Hs. pose proof (sdb_inv_ready s Hs) as [Hsv Hpl].
  destruct (Finalise_ends del s Hsv Hpl) as (s1 & s2 & E & F & Hf & pf & ->).
  set (s' := clearJournalAndRefund (upd_prefetcher (λ _, pf) s1)) in *.
  assert (sdb_inv s') as Hs' by (by eapply clear_inv; [eapply ends_tx_inv|]).
  assert (finalised_to del s s') as Hto by by apply ends_tx_to.
  exists s'. split; [done|]. split; [done|].
  split. { intros q. rewrite ask_view by done. f_equal. by apply after_view. }
  assert (∀ a, a ∈ touched s ∧ is_Some (stateObjects s !! a) ↔ written s a = true) as Hw.
  { intros a. unfold written. by rewrite andb_true_iff, !bool_decide_eq_true. }
  split_and!.
  - intros a. rewrite <- Hw, <- (et_pending _ _ _ _ F). unfold s', clearJournalAndRefund. by case_match.
  - intros a. rewrite <- Hw, <- (et_dirty _ _ _ _ F). unfold s', clearJournalAndRefund. by case_match.
  - apply Hto.
  - unfold s', clearJournalAndRefund. simpl. by destruct (entries (jrnl s1)) eqn:Ej.
  - unfold s', clearJournalAndRefund. by case_match.
Qed.
End finalise.
