(* ===== verification/RootReads.v ===== *)
(** * Computing the root is not observable

    [IntermediateRoot] writes storage slots and accounts to the tries, empties
    the pending slots and changes the account trie for that of the prefetcher.
    What a StateDB answers afterwards is what it answered once the transaction
    had ended, except that the slots written to a trie count as committed. *)
From S2P Require Import Prelude Errors Geth AccessList StateOps Prefetcher PrefetcherSpec.
From S2P Require Import StateData StateObject StateDB StateView StateReads Revert Undo Snapshot.
From S2P Require Import StateRoot FinaliseSpec.
Local Open Scope Z_scope.

Section reads.
Context `{RlpOps, CryptoOps, CommonOps, AccountOps, TrieOps, !DatabaseOps, SnapOps, RangeOps, SchedOps}.
Context `{!RlpLaws, !CryptoLaws, !AccountLaws, !TrieLaws, !DatabaseLaws, !TrieMapLaws, !TrieReadLaws}.
Context `{!SnapLaws, !RangeLaws}.

(** ** Storage *)

(** A slot of an object whose storage map is known. *)
Lemma stored_slot_map s o ms k :
  has_storage s o ms →
  stored_slot (env_of s) o k
  = match (n ← snap s; Snap_Storage n (addrHash o) (keccak256 k)) with
    | Some enc => Some enc
    | None => Some (default [] (ms !! keccak256 k))
    end.
Proof.
  intros Hst. unfold stored_slot. simpl. destruct (n ← snap s; _); [done|].
  unfold has_storage in Hst. destruct (obj_trie o) as [t|]; simpl.
  - by rewrite (TryGet_value k t ms Hst).
  - destruct Hst as (t & -> & Hm & _). simpl. by rewrite (TryGet_value k t ms Hm).
Qed.

(** The slots to be written: those of this and of earlier transactions. *)
Definition unwritten (o : stateObject) : Storage := pendingStorage (finalise_slots o).

(** Every slot to be written was read before, or belongs to a destructed account,
    whose slots are zero. *)
Definition slots_known (s : StateDB) (a : bytes) : Prop :=
  ∀ o k v, stateObjects s !! a = Some o → unwritten o !! k = Some v →
    is_Some (originStorage o !! k) ∨ a ∈ stateObjectsDestruct s.

Definition slots_known_test (s : StateDB) (a : bytes) : bool :=
  match stateObjects s !! a with
  | Some o =>
      bool_decide (a ∈ stateObjectsDestruct s)
      || forallb (λ kv, bool_decide (is_Some (originStorage o !! kv.1))) (map_to_list (unwritten o))
  | None => true
  end.

Lemma slots_known_spec s a : slots_known_test s a = true → slots_known s a.
Proof.
  unfold slots_known_test. intros Ht o k v Ho Hk. rewrite Ho in Ht.
  apply orb_true_iff in Ht as [Hd%bool_decide_eq_true|Hf]; [by right|left].
  rewrite forallb_forall in Hf. specialize (Hf (k, v)). rewrite bool_decide_eq_true in Hf.
  by apply Hf, list_elem_of_In, elem_of_map_to_list.
Qed.

Lemma current_unwritten E o k :
  current E o k
  = match unwritten o !! k with
    | Some v => v
    | None =>
        match originStorage o !! k with
        | Some v => v
        | None => if bool_decide (address o ∈ env_destruct E) then zeroHash
                  else match stored_slot E o k with Some enc => (slot_value enc).1 | None => zeroHash end
        end
    end.
Proof.
  unfold current, committed, unwritten. simpl. rewrite lookup_union.
  by destruct (dirtyStorage o !! k), (pendingStorage o !! k).
Qed.

(** The storage map at a key that is not to be written. *)
Lemma storage_after_other o ms k :
  hashed_apart (k :: (map_to_list (unwritten o)).*1) → unwritten o !! k = None →
  storage_after o ms !! keccak256 k = ms !! keccak256 k.
Proof.
  intros Hap Hk. unfold storage_after. fold (unwritten o).
  assert (∀ x, x ∈ changed_slots (finalise_slots o) → x.1 ∈ (map_to_list (unwritten o)).*1) as Hin.
  { intros x [_ Hx]%list_elem_of_filter. by apply list_elem_of_fmap_2. }
  destruct (apply_updates_spec (changed_slots (finalise_slots o)) fst (λ kv, slot_enc kv.2) ms) as [_ Hout].
  - apply NoDup_filter_fmap, NoDup_fst_map_to_list.
  - intros b c Hb%elem_of_filter_fmap Hc%elem_of_filter_fmap. apply Hap; by apply elem_of_cons; right.
  - apply Hout. intros [k' v] Hx%Hin E. simpl in *.
    apply Hap in E; [|by apply elem_of_cons; right|by apply elem_of_cons; left]. subst k'.
    apply list_elem_of_fmap in Hx as ([? v'] & -> & Hx%elem_of_map_to_list). simpl in Hk. congruence.
Qed.

(** An object that has written its slots reads as before. *)
Lemma flushed_committed s s' o o' ms a k :
  env_of s' = env_of s → address o = a →
  stateObjects s !! a = Some o → slots_known s a → has_storage s o ms →
  flushed o o' → has_storage s o' (storage_after o ms) →
  hashed_apart (k :: (map_to_list (unwritten o)).*1) →
  committed (env_of s') o' k = current (env_of s) o k ∧ current (env_of s') o' k = current (env_of s) o k.
Proof.
  intros HE Ha Ho Hkn Hst Hfl Hst' Hap.
  assert (committed (env_of s') o' k = current (env_of s) o k) as Hc.
  { rewrite current_unwritten. unfold committed. rewrite (fl_pending _ _ Hfl), lookup_empty, (fl_origin _ _ Hfl).
    unfold known_after. fold (unwritten o). rewrite HE, (fl_address _ _ Hfl).
    destruct (unwritten o !! k) as [v|] eqn:Ek.
    - unfold know. case_bool_decide as Hv; [|by rewrite lookup_insert_eq].
      destruct (Hkn o k v Ho Ek) as [[w Hw]|Hd].
      + rewrite Hw in *. simpl in Hv. by subst.
      + destruct (originStorage o !! k); [by subst|]. rewrite bool_decide_true; [by subst|]. by rewrite Ha.
    - destruct (originStorage o !! k); [done|]. case_bool_decide; [done|].
      rewrite (stored_slot_map s o' _ k Hst'), (stored_slot_map s o _ k Hst), (fl_addrHash _ _ Hfl).
      by rewrite storage_after_other. }
  split; [done|]. unfold current at 1. by rewrite (fl_dirty _ _ Hfl), lookup_empty.
Qed.

(** ** The state afterwards *)

Section after.
Context (s : StateDB) (st : bytes → gmap bytes bytes) (m : gmap bytes bytes) (s' : StateDB).
Context (Hs : sdb_inv s) (Hm : trie_map (sdb_trie s) m).
Context (Hap : hashed_apart (elements (stateObjectsPending s))).
Context (Hok : ∀ a, a ∈ stateObjectsPending s → pending_ok s st a).
Context (Hkn : ∀ a, a ∈ stateObjectsPending s → slots_known s a).
Context (Hz : ∀ b, keccak256 b ≠ zeroHash).
Context (Hrd : rooted s st (apply_updates (elements (stateObjectsPending s)) id (final_entry s st) m) s').
Context (Hp : stateObjectsPending s' = ∅).

Let m' := apply_updates (elements (stateObjectsPending s)) id (final_entry s st) m.

Lemma rooted_entries : updated_at (elements (stateObjectsPending s)) id (final_entry s st) m m'.
Proof. apply apply_updates_spec; rewrite list_fmap_id; [apply NoDup_elements|done]. Qed.

Lemma rooted_env : env_of s' = env_of s.
Proof.
  destruct Hrd. unfold env_of. rewrite rd_db, rd_root, rd_snap. f_equal. unfold rest in rd_rest. congruence.
Qed.

Lemma rooted_object a o o' :
  stateObjects s !! a = Some o → root_of_object s o (st a) o' → obj_ok a o'.
Proof.
  intros Ho Hro. pose proof (si_obj _ Hs _ _ Ho) as Hoo. unfold root_of_object in Hro.
  destruct (deleted o); [by subst|]. destruct Hro as (Hd & Hfl & Hst), Hoo. split.
  - rewrite (fl_address _ _ Hfl). done.
  - rewrite (fl_addrHash _ _ Hfl). done.
  - intros t Ht. unfold has_storage in Hst. rewrite Ht in Hst. by eapply trie_map_inv.
  - by rewrite Hd.
  - rewrite Hd. by apply root_of_nonzero.
Qed.

Lemma rooted_account a acc :
  (trie_TryGetAccount a (sdb_trie s')).2 = Ok (Some acc) → length (acc_CodeHash acc) = hashLen.
Proof.
  intros E. pose proof (rd_trie _ _ _ _ Hrd) as Hm'. fold m' in Hm'. destruct rooted_entries as [Hin Hout].
  destruct (m' !! keccak256 a) as [b|] eqn:Eb.
  2: { rewrite (TryGetAccount_absent a _ _ Hm' Eb) in E. done. }
  pose proof (TryGetAccount_stored a _ _ b Hm' Eb) as Hg.
  destruct (decode_StateAccount b) as [acc'|] eqn:Edec; [|destruct Hg; congruence].
  rewrite E in Hg. injection Hg as <-.
  destruct (decide (Exists (λ x, keccak256 x = keccak256 a) (elements (stateObjectsPending s)))) as [Hx|Hx].
  - apply Exists_exists in Hx as (x & Hx & Ex). rewrite <- Ex in Eb. pose proof (Hin x Hx) as E'. simpl in E'.
    rewrite E' in Eb. unfold final_entry in Eb. destruct (stateObjects s !! x) as [o|] eqn:Ho; [|done]. simpl in Eb.
    destruct (deleted o); [done|]. destruct (decode_encode_account _ _ Eb) as [Edec' _].
    rewrite Edec in Edec'. injection Edec' as ->. simpl. apply (ok_CodeHash _ _ (si_obj _ Hs _ _ Ho)).
  - rewrite Hout in Eb by (intros x Hin' Ex; apply Hx, Exists_exists; by exists x).
    pose proof (TryGetAccount_stored a _ _ b Hm Eb) as Hg. rewrite Edec in Hg. by eapply (si_accounts _ Hs).
Qed.

Lemma rooted_inv : sdb_inv s'.
Proof.
  pose proof rooted_account as Hacc. destruct Hrd. destruct rd_services as [Hd Hpf].
  assert (∀ a o', stateObjects s' !! a = Some o' → obj_ok a o') as Hobj.
  { intros a o' Ho'. destruct (decide (a ∈ stateObjectsPending s)) as [Ha|Ha].
    - destruct (rd_pending a Ha) as (o & o'' & Ho & Ho'' & Hro). rewrite Ho'' in Ho'. injection Ho' as <-.
      by eapply rooted_object.
    - rewrite rd_other in Ho' by done. by apply Hs. }
  injection rd_rest as _ Edirty _ _ _ _ Elogs Esize _ Eacc _ _ _.
  split; rewrite ?Hp, ?Edirty, ?Elogs, ?Esize, ?Eacc; try done; try apply Hs; [by eapply trie_map_inv|].
  intros a Ha. destruct (decide (a ∈ stateObjectsPending s)) as [Hin|Hin].
  - destruct (rd_pending a Hin) as (o & o' & _ & -> & _). by exists o'.
  - rewrite rd_other by done. by apply (si_dirty _ Hs).
Qed.

(** An account that is not pending is stored as before. *)
Lemma rooted_account_at a :
  a ∉ stateObjectsPending s → hashed_apart (a :: elements (stateObjectsPending s)) →
  account_at s' a = account_at s a.
Proof.
  intros Ha Hapa. unfold account_at. rewrite (rd_snap _ _ _ _ Hrd).
  destruct (_ ≫= _); [done|]. pose proof (rd_trie _ _ _ _ Hrd) as Hm'. fold m' in Hm'.
  assert (m' !! keccak256 a = m !! keccak256 a) as Eq.
  { apply rooted_entries. intros x Hx E. apply Ha. apply elem_of_elements.
    apply Hapa in E; [by subst|by apply elem_of_cons; right|by apply elem_of_cons; left]. }
  destruct (m !! keccak256 a) as [b|] eqn:Eb.
  - pose proof (TryGetAccount_stored a _ _ b Hm Eb) as Hg. pose proof (TryGetAccount_stored a _ _ b Hm' Eq) as Hg'.
    destruct (decode_StateAccount b); [by rewrite Hg, Hg'|]. by destruct Hg as [? ->], Hg' as [? ->].
  - by rewrite (TryGetAccount_absent a _ _ Hm Eb), (TryGetAccount_absent a _ _ Hm' Eq).
Qed.

Lemma rooted_other a :
  a ∉ stateObjectsPending s → hashed_apart (a :: elements (stateObjectsPending s)) →
  option_Forall2 (obj_same (env_of s) (env_of s')) (obj_at s a) (obj_at s' a).
Proof.
  intros Ha Hapa. unfold obj_at. rewrite (rd_other _ _ _ _ Hrd a Ha), rooted_account_at, rooted_env by done.
  destruct (stateObjects s !! a); [constructor; apply obj_same_refl|].
  destruct (account_at s a); constructor. apply obj_same_refl.
Qed.

(** The answers afterwards; a slot of a pending account is committed now. *)
Definition stored_view (q : query) : answer q :=
  match q with
  | QCommittedState a k =>
      if bool_decide (a ∈ stateObjectsPending s) then view (QState a k) s else view (QCommittedState a k) s
  | q => view q s
  end.

Definition slot_of (q : query) : option bytes :=
  match q with QState _ k | QCommittedState _ k => Some k | _ => None end.

(** The hash keeps the account and the slot of a question apart from the pending ones. *)
Definition apart_from_pending (q : query) : Prop :=
  ∀ a, about q = Some a → hashed_apart (a :: elements (stateObjectsPending s))
    ∧ ∀ o k, stateObjects s !! a = Some o → slot_of q = Some k → hashed_apart (k :: (map_to_list (unwritten o)).*1).

(** The object of a pending account, afterwards. *)
Lemma rooted_live q a :
  about q = Some a → apart_from_pending q → a ∈ stateObjectsPending s → view q s' = stored_view q.
Proof.
  intros Hq Hapq Ha. destruct (rd_pending _ _ _ _ Hrd a Ha) as (o & o' & Ho & Ho' & Hro).
  destruct (Hapq a Hq) as [_ Hslot]. specialize (λ k, Hslot o k Ho).
  assert (∀ A (none : A) f, on_live s a none f = if deleted o then none else f (env_of s) o) as E1.
  { intros A none f. unfold on_live, obj_at, live. rewrite Ho. simpl. by destruct (deleted o). }
  assert (∀ A (none : A) f, on_live s' a none f = if deleted o then none else f (env_of s') o') as E2.
  { intros A none f. unfold on_live, obj_at, live. rewrite Ho'. simpl.
    destruct (root_of_object_keeps _ _ _ _ Hro) as (_ & _ & ->). by destruct (deleted o). }
  unfold root_of_object in Hro.
  destruct q; try discriminate Hq; injection Hq as ->; unfold stored_view, view;
    rewrite ?bool_decide_true by done; rewrite ?E1, E2; destruct (deleted o) eqn:Hdel; try done.
  all: destruct Hro as (Hd & Hfl & Hst); unfold empty, code_of; rewrite ?Hd, ?(fl_code _ _ Hfl), ?rooted_env;
    try done.
  all: try apply Hfl.
  all: destruct (Hok a Ha) as (p & Hpo & Hpa & _ & Hpok); assert (p = o) as -> by congruence;
    destruct (flushed_committed s s' o o' (st a) a k rooted_env Hpa Ho (Hkn a Ha) (proj1 (Hpok Hdel)) Hfl Hst
      (Hslot k eq_refl)) as [Hc Hcur]; by rewrite rooted_env in Hc, Hcur.
Qed.

Lemma rooted_view q : apart_from_pending q → view q s' = stored_view q.
Proof.
  intros Hapq. destruct (about q) as [a|] eqn:Hq.
  - destruct (decide (a ∈ stateObjectsPending s)) as [Ha|Ha]; [by apply (rooted_live q a)|].
    destruct (Hapq a Hq) as [Hapa _]. rewrite (account_view s s' q a Hq (rooted_other a Ha Hapa)).
    destruct q; try done. simpl in Hq. injection Hq as ->. unfold stored_view. by rewrite bool_decide_false.
  - pose proof (rd_rest _ _ _ _ Hrd) as Er. injection Er as _ _ _ Eref _ Eidx Elogs _ Epre Eacc Etr _ _.
    destruct q; try done; simpl; congruence || by rewrite Eacc.
Qed.
End after.

(** With nothing to write, the root is that of the account trie. *)
Lemma IntermediateRoot_idle d s m :
  sdb_inv s → touched s = ∅ → stateObjectsPending s = ∅ → prefetcher s = None → trie_map (sdb_trie s) m →
  (IntermediateRoot d s).2 = Ok (root_of m).
Proof.
  intros Hs Ht Hp Hn Hm. pose proof (sdb_inv_ready s Hs) as [Hsv Hpl].
  destruct (Finalise_ends d s Hsv Hpl) as (s1 & s2 & E & F & Hf & pf & ->).
  assert (stateObjectsPending (Finalise d s).1 = ∅) as Hp0.
  { rewrite E. unfold clearJournalAndRefund. apply set_eq. intros a.
    assert (a ∈ stateObjectsPending s1 ↔ a ∈ (∅ : gset bytes)) as Ha.
    { rewrite (et_pending _ _ _ _ F), Ht, Hp. set_solver. }
    by case_match. }
  destruct (IntermediateRoot_ends d s m (λ _, ∅)) as (s' & E' & _).
  - by apply sdb_inv_ready.
  - destruct (et_tries _ _ _ _ F) as (_ & Et & _). rewrite E. unfold clearJournalAndRefund.
    case_match; simpl; by rewrite Et.
  - by rewrite Hn.
  - rewrite Hp0, elements_empty. by intros ? ? ?%not_elem_of_nil.
  - rewrite Hp0. by intros ? ?%not_elem_of_empty.
  - rewrite E'. simpl. by rewrite Hp0, elements_empty.
Qed.

(** C5: asking for the root of a block changes no answer.  [IntermediateRoot]
    succeeds, and afterwards every question has the answer it had when the last
    transaction had ended, whatever the snapshot holds, except that what was
    written to a pending account is now committed: this although slots and
    accounts are read from other tries and the pending slots are forgotten.  Asked
    again, with an empty journal, it returns the same root.  The keys of a question
    must be hashed apart from those written, every slot to be written was read
    first ([SetState] reads it) or belongs to a destructed account, and the hash is
    never the zero hash. *)
Theorem IntermediateRoot_unobservable d s m st :
  let s0 := (Finalise d s).1 in
  sdb_inv s → trie_map (sdb_trie s0) m →
  (prefetcher s ≠ None → ∀ t, OpenTrie (originalRoot s) (db s) = Ok t → trie_map t m) →
  hashed_apart (elements (stateObjectsPending s0)) →
  (∀ a, a ∈ stateObjectsPending s0 → pending_ok s0 st a ∧ slots_known s0 a ∧
     ∀ o, stateObjects s0 !! a = Some o → deleted o = false → 0 ≤ acc_Balance (data o)) →
  (∀ b, keccak256 b ≠ zeroHash) →
  ∃ s' root, IntermediateRoot d s = (s', Ok root) ∧ sdb_inv s'
    ∧ (∀ q, apart_from_pending s0 q → (ask q s').2 = Ok (stored_view s0 q))
    ∧ (touched s0 = ∅ → ∀ d', (IntermediateRoot d' s').2 = Ok root).
Proof.
  intros s0 Hs Hm Hpf Hap Hok Hz. destruct (Finalise_inv d s Hs) as [E0 Hs0]. fold s0 in Hs0.
  destruct (IntermediateRoot_ends d s m st) as (s' & E & Hrd & Hp & Hn); [by apply sdb_inv_ready|done..| |].
  { intros a Ha. by destruct (Hok a Ha) as (? & _ & ?). }
  assert (sdb_inv s') as Hs'.
  { apply (rooted_inv s0 st m s'); try done. }
  eexists s', _. split; [exact E|]. split_and!; [done| |].
  - intros q Hq. rewrite (ask_view q s' Hs'). f_equal.
    apply (rooted_view s0 st m s'); try done; intros a Ha; by apply Hok.
  - intros Ht d'. destruct Hrd. apply IntermediateRoot_idle; try done.
    rewrite <- Ht. unfold touched. injection rd_rest as _ _ _ _ _ _ _ _ _ _ _ -> _. done.
Qed.
End reads.
