(* ===== verification/Settled.v ===== *)
(** * What a StateDB can read again

    An object in memory is either what the trie and the snapshot hold of the
    account, or its address is pending, dirty or counted in the journal: the
    invariant [settled] between transactions, [since] within one. *)
From S2P Require Import Prelude Errors Geth AccessList StateOps Prefetcher PrefetcherSpec.
From S2P Require Import StateData StateObject StateDB StateView StateReads Revert Undo Snapshot Frame.
From S2P Require Import StateRoot FinaliseSpec.
Import TransientStorage(ts_Get).
Local Open Scope Z_scope.

Section settled.
Context `{RlpOps, CryptoOps, CommonOps, AccountOps, TrieOps, !DatabaseOps, SnapOps, RangeOps, SchedOps}.
Context `{!RlpLaws, !CryptoLaws, !AccountLaws, !TrieLaws, !DatabaseLaws, !SnapLaws, !RangeLaws}.

Abbreviation S_ := (stateM StateDB error).
Abbreviation O_ := (stateM (StateDB * stateObject) error).

(** ** Undoing the entries of other addresses *)

(** The address of the object an entry is about. *)
Definition mentioned (e : journalEntry) : option bytes :=
  match e with resetObjectChange p _ => Some (address p) | _ => dirtied e end.

(** What undoing needs of a state, and what it leaves at an address. *)
Definition good (t : StateDB) : Prop :=
  trie_inv (sdb_trie t) ∧ ∀ a o, stateObjects t !! a = Some o → address o = a.

Record unmoved (a : bytes) (s t : StateDB) : Prop := {
  um_object : stateObjects t !! a = stateObjects s !! a;
  um_destruct : a ∈ stateObjectsDestruct t ↔ a ∈ stateObjectsDestruct s;
  um_pending : stateObjectsPending t = stateObjectsPending s;
  um_dirty : stateObjectsDirty t ⊆ stateObjectsDirty s;
  um_db : db t = db s;
  um_root : originalRoot t = originalRoot s;
  um_snap : snap t = snap s;
  um_snaps : snaps t = snaps s;
  um_trie : same_reads (sdb_trie s) (sdb_trie t)
}.

Definition apart (a : bytes) (s t : StateDB) : Prop := good s → good t ∧ unmoved a s t.

#[export] Instance apart_preorder a : PreOrder (apart a).
Proof.
  split; [by intros t Ht; split|]. intros t1 t2 t3 Ha1 Ha2 Hg.
  destruct (Ha1 Hg) as [Hg2 []]. destruct (Ha2 Hg2) as [Hg3 []]. split; [done|].
  split; try congruence; [by etrans..|by etrans].
Qed.

Lemma set_apart a o t : address o ≠ a → apart a t (setStateObject o t).
Proof.
  intros Ha [Ht Ho]. split; [split; [done|]|].
  - intros b p. simpl. intros [[<- <-]|[_ Hp]]%lookup_insert_Some; [done|by apply Ho].
  - split; try done. simpl. by rewrite lookup_insert_ne.
Qed.

Lemma load_account_apart a b : keeps (apart a) (load_account b).
Proof.
  intros t [Ht Ho]. unfold load_account, gets. mred.
  destruct (option_bind _ _ _ (snap t)) as [[]|]; [done..|]. unfold on_account_trie, try_on.
  destruct (TryGetAccount_reads b (sdb_trie t) Ht) as (Ht' & Hr & _).
  unfold mbind, stateM_bind. destruct (trie_TryGetAccount b (sdb_trie t)) as [t' []]; simpl in *; by split; [split|split].
Qed.

(** The object found is the one of the address. *)
Lemma getStateObject_apart a b t : a ≠ b → good t →
  (good (getStateObject b t).1 ∧ unmoved a t (getStateObject b t).1)
  ∧ ∀ o, (getStateObject b t).2 = Ok (Some o) → address o = b.
Proof.
  intros Hab Ht. unfold getStateObject, getDeletedStateObject, gets. mred.
  destruct (stateObjects t !! b) as [o|] eqn:Ho.
  - cbn. split; [by split|]. intros p. simpl. destruct (deleted o); [done|]. intros [= <-]. by apply Ht.
  - destruct (load_account_apart a b t Ht) as [Hg Hu]. unfold mbind, stateM_bind.
    destruct (load_account b t) as [t1 [[acc|]|e|w|]]; simpl in *; try done.
    split; [|by intros ? [= <-]]. destruct (set_apart a (newObject b acc) t1) as [Hg2 Hu2]; [done|done|].
    split; [done|]. by apply (transitivity (R := apart a) (y := t1) (λ _, conj Hg Hu) (λ _, conj Hg2 Hu2) Ht).
Qed.

Lemma keeps_with_found {A} a b (f : stateObject → S_ A) (m : S_ A) :
  a ≠ b → (∀ o, address o = b → keeps (apart a) (f o)) → keeps (apart a) m →
  keeps (apart a) (obj ← getStateObject b; match obj with Some o => f o | None => m end).
Proof.
  intros Hab Hf Hm t Ht. destruct (getStateObject_apart a b t Hab Ht) as [[Hg Hu] Ho].
  unfold mbind, stateM_bind. destruct (getStateObject b t) as [t1 r]; simpl in *.
  assert (∀ k : S_ A, keeps (apart a) k → good (k t1).1 ∧ unmoved a t (k t1).1) as Hk.
  { intros k Hk. exact (transitivity (R := apart a) (λ _, conj Hg Hu) (Hk t1) Ht). }
  destruct r as [[o|]|e|w|]; try done; [apply Hk, Hf; by apply Ho|by apply Hk].
Qed.

Lemma on_self_apart a o f :
  address o ≠ a → (∀ p, address (f p) = address p) → keeps (apart a) (on_obj o (on_self f)).
Proof. intros Ha Hf t. simpl. apply set_apart. by rewrite Hf. Qed.

Lemma must_object_apart a b f :
  a ≠ b → (∀ p, address (f p) = address p) → keeps (apart a) (must_object b (on_self f)).
Proof.
  intros Hab Hf. apply keeps_with_found; [done| |by intros t].
  intros o Ho. apply on_self_apart; [by rewrite Ho|done].
Qed.

Lemma revert_entry_apart a e : mentioned e ≠ Some a → keeps (apart a) (revert_entry e).
Proof.
  intros Hn. assert (∀ b, mentioned e = Some b → a ≠ b) as Hne by (by intros b E ->).
  destruct e; simpl in Hne; try specialize (Hne _ eq_refl); simpl;
    unfold so_setBalance, so_setNonce, so_setState, so_setCode, setTransientState.
  - (* createObjectChange *)
    intros t [Ht Ho]. split; [split; [done|]|split; try done; simpl].
    + intros b o. simpl. intros [_ Hb]%lookup_delete_Some. by apply Ho.
    + by rewrite lookup_delete_ne.
    + set_solver.
  - (* resetObjectChange *)
    eapply keeps_sdb_bind; [apply apart_preorder|intros t; by apply set_apart|intros _].
    destruct prevdestruct; [by intros t|]. intros t Ht. split; [done|]. split; try done. simpl. set_solver.
  - apply keeps_with_found; [done| |by intros t]. intros o Ho t. simpl. apply set_apart. simpl. by rewrite Ho.
  - by apply must_object_apart.
  - by apply must_object_apart.
  - by apply must_object_apart.
  - apply keeps_with_found; [done| |by intros t]. intros o Ho t. simpl. apply set_apart. simpl. by rewrite Ho.
  - by intros t.
  - unfold gets. intros t Ht. mred. destruct (default [] (logs t !! txhash)) as [|l1 [|l2 ls]]; cbn; by split.
  - by intros t.
  - by intros t.
  - by intros t.
  - unfold gets, lift. intros t Ht. mred. destruct (AccessList.DeleteSlot address slot (access t)); cbn; by split.
  - by intros t.
Qed.

Lemma undo_apart a es : Forall (λ e, mentioned e ≠ Some a) es → keeps (apart a) (undo es).
Proof.
  unfold undo. induction 1 as [|e es He _ IH]; simpl; [by intros t|].
  eapply keeps_sdb_bind; [apply apart_preorder| |intros _; exact IH].
  eapply keeps_sdb_bind; [apply apart_preorder|by apply revert_entry_apart|intros _ t]. by intros Ht.
Qed.

(** ** Undoing keeps the counts *)

Lemma dirtying_rev a es : dirtying a (rev es) = dirtying a es.
Proof. unfold dirtying. apply Permutation_length. by rewrite <- Permutation_rev. Qed.

Lemma untrack_count a e j :
  dirty_count a (untrack e j) = dirty_count a j - (if decide (dirtied e = Some a) then 1 else 0).
Proof.
  unfold untrack, dirty_count. destruct (dirtied e) as [b|]; [|rewrite decide_False by done; lia].
  destruct (decide (b = a)) as [->|Hb].
  - rewrite decide_True by done. case_bool_decide as Hn; simpl; [rewrite lookup_delete_eq|rewrite lookup_insert_eq]; simpl; lia.
  - rewrite decide_False by congruence. case_bool_decide; simpl;
      [rewrite lookup_delete_ne by done|rewrite lookup_insert_ne by done]; lia.
Qed.

Lemma revert_entry_count a e t : dirty_count a (jrnl t) ≤ dirty_count a (jrnl (revert_entry e t).1).
Proof.
  destruct (decide (plain e)) as [He|He].
  - destruct (keeps_revert_entry e He t) as [_ (new & _ & _ & Hc)]. specialize (Hc a). lia.
  - destruct e; try by destruct He. destruct prevdestruct; apply Z.le_refl.
Qed.

Lemma undo_count a es : ∀ t t', undo es t = (t', Ok tt) →
  dirty_count a (jrnl t) - Z.of_nat (dirtying a es) ≤ dirty_count a (jrnl t').
Proof.
  unfold undo. induction es as [|e es IH]; intros t t' E; simpl in E.
  { injection E as <-. change (dirtying a []) with 0%nat. lia. }
  pose proof (revert_entry_count a e t) as Hc. unfold mbind, stateM_bind, modify in E.
  destruct (revert_entry e t) as [t1 [[]|err|w|]]; try done. simpl in *.
  specialize (IH _ _ E). simpl in IH. rewrite untrack_count in IH. rewrite dirtying_cons.
  case_decide; lia.
Qed.

Lemma RevertToSnapshot_counted id s s' :
  counted (jrnl s) → RevertToSnapshot id s = (s', Ok tt) → counted (jrnl s').
Proof.
  intros Hc E a. unfold RevertToSnapshot in E. rewrite (bind_step (gets _) _ s s (validRevisions s)) in E by done. cbv beta zeta in E.
  destruct (validRevisions s !! _) as [r|]; [|done]. case_bool_decide; [|done].
  unfold journal_revert in E. unfold mbind at 1, stateM_bind at 1 in E.
  rewrite (bind_step (gets _) _ s s (entries (jrnl s))) in E by done. cbv beta in E. case_bool_decide as Hlen; [done|].
  set (n := journalIndex r) in *. set (es := entries (jrnl s)) in *.
  change (iterM _ (rev (drop n es))) with (undo (rev (drop n es))) in E.
  unfold mbind, stateM_bind, modify in E. destruct (undo _ s) as [t [[]|e|w|]] eqn:Eu; try done.
  injection E as <-. simpl. apply (undo_count a) in Eu. rewrite dirtying_rev in Eu.
  specialize (Hc a). fold es in Hc. rewrite <- (take_drop n es), dirtying_app in Hc.
  change (dirty_count a _) with (dirty_count a (jrnl t)). lia.
Qed.

(** ** Within a transaction *)

(** [s] is reached from [base], where the journal was empty. *)
Record since (base s : StateDB) (ps : list (revision * StateDB)) : Prop := {
  sn_hist : hist s ps;
  sn_undo : undoes (rev (entries (jrnl s))) s base;
  sn_snaps p : p ∈ ps → undoes (rev (entries (jrnl p.2))) p.2 base;
  sn_counted : counted (jrnl s)
}.

Lemma undoes_pre es s t g : undoes es s g → same s t → undoes es t g.
Proof. intros Hu Hst u Htu. apply Hu. by eapply same_trans. Qed.

Lemma since_refl base :
  sdb_inv base → entries (jrnl base) = [] → validRevisions base = [] → counted (jrnl base) → since base base [].
Proof.
  intros Hs He Hr Hc. split; [|rewrite He; by apply undoes_nil, same_refl|by intros p ?%not_elem_of_nil|done].
  split; [done|done|constructor|done|]. by intros p ?%not_elem_of_nil.
Qed.

Lemma since_step base s s' ps : since base s ps → step s s' → counted (jrnl s') → since base s' ps.
Proof.
  intros [Hh Hu Hp _] Hst Hc. split; [by eapply hist_step| |done|done].
  destruct (st_undo _ _ Hst) as (new & -> & Hn). rewrite rev_app_distr. by eapply undoes_app.
Qed.

Lemma since_snapshot base s ps :
  since base s ps → ∃ s' ps', Snapshot s = (s', Ok (nextRevisionId s)) ∧ since base s' ps'.
Proof.
  intros [Hh Hu Hp Hc]. destruct (Snapshot_spec s ps Hh) as (s' & r & E & Hh' & _).
  exists s', (ps ++ [(r, s)]). split; [done|]. injection E as <-.
  split; [done| | |done].
  - eapply undoes_pre; [exact Hu|]. pose proof (h_inv _ _ Hh) as Hs. destruct (same_refl _ Hs) as [? []]. by split.
  - intros p [?| ->%list_elem_of_singleton]%elem_of_app; [by apply Hp|exact Hu].
Qed.

Lemma run_op_since base o s ps s' :
  since base s ps → run_op o s = (s', Ok tt) → ∃ ps', since base s' ps'.
Proof.
  intros Hsn E. pose proof (sn_hist _ _ _ Hsn) as Hh.
  destruct (decide (op_ok o s)) as [Hok|Hok].
  2: { destruct (run_op_fails o s Hok) as (s1 & w & E1). congruence. }
  destruct (on_snapshots o) eqn:Ho.
  2: { destruct (steps_unit _ _ (run_op_steps o s (h_inv _ _ Hh) Hok Ho)) as (s1 & E1 & Hst).
       rewrite E1 in E. injection E as <-. exists ps. eapply since_step; [done|done|].
       pose proof (run_op_counting o (λ id Eo, ltac:(by subst o)) s) as Hk. rewrite E1 in Hk.
       apply Hk, Hsn. }
  destruct o; try done; simpl in E.
  - destruct (since_snapshot base s ps Hsn) as (s1 & ps1 & E1 & Hs1).
    unfold discard in E. rewrite (bind_step _ _ _ _ _ E1) in E. injection E as <-. by exists ps1.
  - simpl in Hok. rewrite (h_revs _ _ Hh), <- list_fmap_compose in Hok.
    apply list_elem_of_fmap in Hok as ([r g] & -> & Hin).
    pose proof (sn_snaps _ _ _ Hsn _ Hin) as Hg.
    apply list_elem_of_split in Hin as (before & after & ->).
    destruct (RevertToSnapshot_spec s before r g after Hh) as (s1 & E1 & Hs1 & He1 & _ & _ & Hh1).
    pose proof E as E2. simpl in E2. rewrite E1 in E2. injection E2 as <-. exists before. split; [done| | |].
    + rewrite He1. by eapply undoes_pre.
    + intros p Hp. apply (sn_snaps _ _ _ Hsn). set_solver.
    + eapply RevertToSnapshot_counted; [apply Hsn|exact E].
Qed.

Lemma run_ops_since base os : ∀ s ps s',
  since base s ps → run_ops os s = (s', Ok tt) → ∃ ps', since base s' ps'.
Proof.
  induction os as [|o os IH]; intros s ps s' Hs E; [injection E as <-; by exists ps|].
  unfold run_ops in E. simpl in E. unfold mbind, stateM_bind in E.
  destruct (run_op o s) as [s1 [[]|e|w|]] eqn:E1; try done.
  destruct (run_op_since base o s ps s1 Hs E1) as [ps1 Hs1]. by eapply (IH s1).
Qed.
(** ** What can be read again *)

(** The object a state without one for the address would load. *)
Definition loaded (s : StateDB) (a : bytes) : option stateObject := newObject a <$> account_at s a.

Definition clean (s : StateDB) (a : bytes) : Prop :=
  option_Forall2 (obj_same (env_of s) (env_of s)) (obj_at s a) (loaded s a).

(** A copy takes over the object, or reads the same one. *)
Definition marked (s : StateDB) (a : bytes) : Prop :=
  a ∈ stateObjectsPending s ∨ a ∈ stateObjectsDirty s.
Definition carried (s : StateDB) (a : bytes) : Prop := a ∈ touched s ∨ marked s a ∨ clean s a.

Record settled (s : StateDB) : Prop := {
  se_inv : sdb_inv s;
  se_entries : entries (jrnl s) = [];
  se_revisions : validRevisions s = [];
  se_counted : counted (jrnl s);
  se_snap : snaps s = None → snap s = None;
  se_clean a : marked s a ∨ clean s a
}.

(** The account was replaced by [createObject] in this transaction. *)
Definition replaced (s : StateDB) (a : bytes) : Prop :=
  Exists (λ e, match e with resetObjectChange p _ => address p = a | _ => False end) (entries (jrnl s)).

#[export] Instance replaced_dec s a : Decision (replaced s a).
Proof. apply Exists_dec. intros []; apply _. Defined.

Lemma obj_at_loaded s a : stateObjects s !! a = None → obj_at s a = loaded s a.
Proof. unfold obj_at. by intros ->. Qed.

Lemma clean_loaded s a : stateObjects s !! a = None → clean s a.
Proof. intros Ho. unfold clean. rewrite obj_at_loaded by done. destruct (loaded s a); constructor. apply obj_same_refl. Qed.

(** Cleanness only depends on what is shown at the address. *)
Lemma clean_transfer s t a :
  sdb_inv s → option_Forall2 (obj_same (env_of s) (env_of t)) (obj_at s a) (obj_at t a) →
  same_env_at a (env_of s) (env_of t) → account_at t a = account_at s a → clean s a → clean t a.
Proof.
  intros Hs Hst HE Hacc Hc. unfold clean, loaded in *. rewrite Hacc.
  assert (∀ o, newObject a <$> account_at s a = Some o → address o = a) as Hl.
  { intros o. destruct (account_at s a); [|done]. by intros [= <-]. }
  destruct Hst as [o p Hop|]; [|inversion Hc; constructor].
  inversion Hc as [? q Hoq Eo Eq|]; subst. constructor.
  specialize (Hl q (symmetry Eq)).
  eapply obj_same_trans; [apply obj_same_sym, Hop|].
  eapply obj_same_trans; [exact Hoq|]. apply obj_same_env. by rewrite Hl.
Qed.

Lemma unmoved_clean s t a : sdb_inv t → unmoved a s t → clean t a → clean s a.
Proof.
  intros Ht [Ho Hd _ _ Edb Er Es _ [_ Htr]].
  assert (account_at s a = account_at t a) as Hacc by (unfold account_at; by rewrite Es, Htr).
  assert (same_env_at a (env_of t) (env_of s)) as HE by (split_and!; simpl; by rewrite ?Edb).
  intros Hc. eapply clean_transfer; [exact Ht| |exact HE|exact Hacc|exact Hc].
  assert (obj_at s a = obj_at t a) as -> by (unfold obj_at; by rewrite Ho, Hacc).
  destruct (obj_at t a) as [o|] eqn:Eo; constructor. apply obj_same_env.
  by rewrite (ok_address _ _ (obj_at_ok t a o Ht Eo)).
Qed.

Lemma sdb_inv_good s : sdb_inv s → good s.
Proof. intros Hs. split; [apply Hs|]. intros a o Ho. apply (ok_address _ _ (si_obj _ Hs _ _ Ho)). Qed.

Lemma counted_touched s a :
  counted (jrnl s) → Exists (λ e, dirtied e = Some a) (entries (jrnl s)) → a ∈ touched s.
Proof.
  intros Hc He. specialize (Hc a). unfold touched. apply elem_of_dom.
  destruct (dirties (jrnl s) !! a) as [n|] eqn:En; [by exists n|]. unfold dirty_count in Hc. rewrite En in Hc.
  simpl in Hc. apply Exists_exists in He as (e & Hin & He).
  assert (e ∈ filter (λ e, dirtied e = Some a) (entries (jrnl s))) as Hf by (by apply list_elem_of_filter).
  unfold dirtying in Hc. destruct (filter _ _); [by apply not_elem_of_nil in Hf|]. simpl in Hc. lia.
Qed.

(** What the journal does not mention is as at the start of the transaction. *)
Lemma since_carried base s ps a :
  settled base → since base s ps → (replaced s a → a ∈ touched s ∨ marked s a) → carried s a.
Proof.
  intros Hb Hsn Hrep. pose proof (h_inv _ _ (sn_hist _ _ _ Hsn)) as Hs.
  destruct (decide (Exists (λ e, dirtied e = Some a) (entries (jrnl s)))) as [He|He].
  { left. apply counted_touched; [apply Hsn|done]. }
  destruct (decide (replaced s a)) as [Hr|Hr]; [unfold carried; naive_solver|].
  assert (Forall (λ e, mentioned e ≠ Some a) (rev (entries (jrnl s)))) as Hno.
  { rewrite <- Permutation_rev. apply Forall_forall. intros e Hin Hm. destruct (decide (dirtied e = Some a)) as [Hd|Hd].
    - apply He, Exists_exists. by exists e.
    - apply Hr, Exists_exists. exists e. split; [done|]. destruct e; simpl in *; congruence. }
  destruct (sn_undo _ _ _ Hsn s (same_refl _ Hs)) as (t & E & Hbt & _).
  destruct (undo_apart a _ Hno s (sdb_inv_good s Hs)) as [_ Hu]. rewrite E in Hu. simpl in Hu.
  right. destruct (se_clean _ Hb a) as [[Hp|Hd]|Hc].
  - left. left. rewrite (sm_pending _ _ Hbt), (um_pending _ _ _ Hu) in Hp. done.
  - left. right. rewrite (sm_dirty _ _ Hbt) in Hd. by apply (um_dirty _ _ _ Hu).
  - right. apply (unmoved_clean s t a (sm_inv' _ _ Hbt) Hu).
    apply (clean_transfer base t a); [apply Hb|apply Hbt|by apply same_env|by apply account_at_same|done].
Qed.

Lemma since_snap_none base s ps : settled base → since base s ps → snaps s = None → snap s = None.
Proof.
  intros Hb Hsn. pose proof (h_inv _ _ (sn_hist _ _ _ Hsn)) as Hs. set (es := rev (entries (jrnl s))).
  destruct (sn_undo _ _ _ Hsn s (same_refl _ Hs)) as (t & E & Hbt & _).
  set (a := fresh (omap mentioned es)).
  assert (Forall (λ e, mentioned e ≠ Some a) es) as Hno.
  { apply Forall_forall. intros e Hin Hm. apply (infinite_is_fresh (omap mentioned es)).
    apply list_elem_of_omap. by exists e. }
  destruct (undo_apart a es Hno s (sdb_inv_good s Hs)) as [_ Hu]. unfold es in Hu. rewrite E in Hu. simpl in Hu.
  rewrite <- (um_snap _ _ _ Hu), <- (um_snaps _ _ _ Hu), <- (sm_snaps _ _ Hbt), <- (sm_snap _ _ Hbt). apply Hb.
Qed.
(** ** Between transactions *)

Lemma counted_new : counted newJournal.
Proof. intros a. done. Qed.

Lemma New_settled root d trees t s :
  OpenTrie root d = Ok t → trie_inv t → db_inv d →
  (∀ a acc, (trie_TryGetAccount a t).2 = Ok (Some acc) → length (acc_CodeHash acc) = hashLen) →
  New root d trees = Ok s → settled s.
Proof.
  intros Ho Ht Hd Hacc E. destruct (New_well_formed root d trees t Ho Ht Hd Hacc) as (s' & E' & ps & Hh).
  rewrite E in E'. injection E' as <-. unfold New in E. rewrite Ho in E. simpl in E. injection E as <-.
  split; [apply Hh|done|done|apply counted_new| |].
  - simpl. by intros ->.
  - intros a. right. by apply clean_loaded.
Qed.

Lemma carried_ends del s s1 s' a :
  sdb_inv s → ends_tx del (touched s) s s1 → finalised_to del s s' →
  stateObjectsPending s' = stateObjectsPending s1 → stateObjectsDirty s' = stateObjectsDirty s1 →
  carried s a → marked s' a ∨ clean s' a.
Proof.
  intros Hs F Hto Ep Ed Hc. unfold marked. rewrite Ep, Ed.
  destruct (decide (a ∈ touched s ∧ is_Some (stateObjects s !! a))) as [Ht|Ht].
  { left; left. apply (et_pending _ _ _ _ F). by right. }
  assert (stateObjects s' !! a = stateObjects s !! a) as Ho.
  { rewrite (ft_objects _ _ _ Hto). destruct (stateObjects s !! a) as [o|] eqn:Eo; [|done]. simpl.
    rewrite decide_False; [done|]. intros Ha. apply Ht. split; [done|]. by exists o. }
  destruct Hc as [Ha|[[Hp|Hd]|Hc]].
  - right. apply clean_loaded. rewrite Ho. destruct (stateObjects s !! a) eqn:Eo; [|done].
    destruct Ht. split; [done|by eexists].
  - left; left. apply (et_pending _ _ _ _ F). by left.
  - left; right. apply (et_dirty _ _ _ _ F). by left.
  - right. pose proof (account_at_after del s s' Hto a) as Hacc.
    assert (gone del s a = false) as Hg.
    { unfold gone. case_bool_decide as Ha; [|done]. destruct (stateObjects s !! a) eqn:Eo; [|done].
      destruct Ht. split; [done|by eexists]. }
    pose proof (env_after del s s' Hto a Hg) as HE.
    apply (clean_transfer s s' a Hs); [|exact HE|exact Hacc|exact Hc].
    assert (obj_at s' a = obj_at s a) as -> by (unfold obj_at; by rewrite Ho, Hacc).
    destruct (obj_at s a) as [o|] eqn:Eo; constructor. apply obj_same_env.
    by rewrite (ok_address _ _ (obj_at_ok s a o Hs Eo)).
Qed.

Lemma Finalise_settled base s ps del s' :
  settled base → since base s ps → (∀ a, replaced s a → a ∈ touched s ∨ marked s a) →
  Finalise del s = (s', Ok tt) → settled s'.
Proof.
  intros Hb Hsn Hrep E. pose proof (h_inv _ _ (sn_hist _ _ _ Hsn)) as Hs.
  pose proof (sdb_inv_ready s Hs) as [Hsv Hpl].
  destruct (Finalise_ends del s Hsv Hpl) as (s1 & s2 & E' & F & Hf & pf & ->). rewrite E in E'. injection E' as ->.
  destruct (et_tries _ _ _ _ F) as (_ & _ & _ & Es & Ess). destruct (et_journal _ _ _ _ F) as (Ej & _).
  set (s' := clearJournalAndRefund (upd_prefetcher (λ _, pf) s1)) in *.
  assert (sdb_inv s') as Hs' by (by eapply clear_inv; [eapply ends_tx_inv|]).
  assert (jrnl s' = jrnl s ∧ entries (jrnl s) = [] ∨ jrnl s' = newJournal) as Hj.
  { unfold s', clearJournalAndRefund. simpl. rewrite Ej. destruct (entries (jrnl s)); [by left|by right]. }
  split; [done| | | | |].
  - by destruct Hj as [[-> ?]| ->].
  - unfold s', clearJournalAndRefund. by case_match.
  - destruct Hj as [[-> _]| ->]; [apply Hsn|apply counted_new].
  - assert (snaps s' = snaps s ∧ snap s' = snap s) as [-> ->]
      by (unfold s', clearJournalAndRefund; simpl; by destruct (entries (jrnl s1))).
    by eapply since_snap_none.
  - intros a. apply (carried_ends del s s1 s' a Hs F); [by apply ends_tx_to|..|by eapply since_carried; eauto];
      unfold s', clearJournalAndRefund; simpl; by destruct (entries (jrnl s1)).
Qed.
End settled.
