(* ===== verification/CopySpec.v ===== *)
(** * Copies: [StateDB.Copy]

    A copy takes over the objects that are pending, dirty or counted in the
    journal and reads all others again.  The invariant [settled] says that this
    loses nothing; it holds between transactions, and within one for every
    address the journal counts or does not mention.  An account replaced by
    [CreateAccount] and not touched afterwards is the exception. *)
From S2P Require Import Prelude Errors Geth AccessList StateOps Prefetcher PrefetcherSpec.
From S2P Require Import StateData StateObject StateDB StateView StateReads Revert Undo Snapshot Frame.
From S2P Require Import StateRoot FinaliseSpec Settled.
Import TransientStorage(ts_Get).
Local Open Scope Z_scope.

Section copy.
Context `{RlpOps, CryptoOps, CommonOps, AccountOps, TrieOps, !DatabaseOps, SnapOps, RangeOps, SchedOps}.
Context `{!RlpLaws, !CryptoLaws, !AccountLaws, !TrieLaws, !DatabaseLaws, !SnapLaws, !RangeLaws}.

Abbreviation S_ := (stateM StateDB error).
Abbreviation O_ := (stateM (StateDB * stateObject) error).

(** ** The copy *)

Lemma deepCopy_eq a o : obj_ok a o →
  deepCopy o = match obj_trie o with
               | None => Ok o
               | Some t => t ← CopyTrie t; Ok (upd_obj_trie (λ _, Some t) o)
               end.
Proof.
  intros [Ha Hh _ _ Hr]. unfold deepCopy, newObject, account_value. cbn [av_Root av_CodeHash av_Nonce av_Balance].
  rewrite bool_decide_false by done. rewrite <- Ha in Hh.
  destruct o as [ad ah [n b r c] [t|] ? ? ? ? ? ? ?]; simpl in *; subst ah; [|done].
  by destruct (CopyTrie t).
Qed.

Lemma deepCopy_spec a o : obj_ok a o → ∃ c, deepCopy o = Ok c ∧ obj_ok a c ∧ ∀ E, obj_same E E o c.
Proof.
  intros Ho. rewrite (deepCopy_eq a o Ho). destruct (obj_trie o) as [t|] eqn:Et.
  - destruct (CopyTrie_reads t (ok_trie _ _ Ho t Et)) as (t' & E & Ht' & Hr). rewrite E. mred. eexists.
    split; [done|]. split; [by apply obj_ok_upd_trie|]. intros F. eapply obj_same_trie; [by left|done].
  - exists o. split_and!; [done|done|intros; apply obj_same_refl].
Qed.

(** The objects copied so far. *)
Definition copies (s : StateDB) (objs : gmap bytes stateObject) : Prop :=
  ∀ a c, objs !! a = Some c → ∃ o, stateObjects s !! a = Some o ∧ deepCopy o = Ok c.

Lemma copy_objects_spec s l : sdb_inv s → (∀ a, a ∈ l → is_Some (stateObjects s !! a)) →
  ∀ objs, copies s objs → ∃ objs', foldM (copy_object s) l objs = Ok objs' ∧ copies s objs'
    ∧ ∀ a, is_Some (objs' !! a) ↔ is_Some (objs !! a) ∨ a ∈ l.
Proof.
  intros Hs. induction l as [|b l IH]; intros Hl objs Hc.
  { exists objs. split_and!; [done|done|]. intros a. rewrite elem_of_nil. tauto. }
  cbn [foldM]. unfold copy_object at 2. destruct (objs !! b) as [c|] eqn:Eb.
  - mred. destruct (IH (λ a Ha, Hl a (list_elem_of_further _ _ _ Ha)) objs Hc) as (objs' & -> & Hc' & Hd).
    exists objs'. split_and!; [done|done|]. intros a. rewrite Hd, elem_of_cons. split; [tauto|].
    intros [?|[->|?]]; [by left|left; by exists c|by right].
  - destruct (Hl b) as [o Ho]; [by left|]. rewrite Ho.
    destruct (deepCopy_spec b o (si_obj _ Hs _ _ Ho)) as (c & E & _). rewrite E. mred.
    destruct (IH (λ a Ha, Hl a (list_elem_of_further _ _ _ Ha)) (<[b := c]> objs)) as (objs' & -> & Hc' & Hd).
    { intros a c' [[<- <-]|[_ Hac]]%lookup_insert_Some; [by exists o|by apply Hc]. }
    exists objs'. split_and!; [done|done|]. intros a. rewrite Hd, elem_of_cons, lookup_insert_is_Some'. naive_solver.
Qed.

(** The objects of a copy: those marked, or counted in the journal. *)
Definition taken (s : StateDB) (objs : gmap bytes stateObject) : Prop :=
  copies s objs
  ∧ ∀ a, is_Some (objs !! a) ↔ (a ∈ touched s ∧ is_Some (stateObjects s !! a)) ∨ marked s a.

Lemma copy_prefetcher_spec s : sdb_inv s →
  ∃ s' pf, copy_prefetcher s = (s', Ok pf) ∧ reads_to s s' ∧ prefetcher_inv (db s) (originalRoot s) pf.
Proof.
  intros Hs. unfold copy_prefetcher. destruct (prefetcher s) as [p|] eqn:Ep.
  - destruct (si_prefetcher _ Hs p Ep) as [Hp Hz].
    destruct (pf_copy_spec (db s) (originalRoot s) (si_db _ Hs) p Hp) as (p' & c & E & Hp' & Hc & _).
    rewrite E. mred. eexists _, _. split; [done|]. split; [|by intros ? [= <-]].
    apply reads_to_caches; [done|]. exists (db s), (dbErr s), (Some p').
    split_and!; [by destruct s|apply Hs|done|by intros ? [= <-]].
  - exists s, None. split_and!; [done|by apply reads_to_refl|done].
Qed.

Definition copied (s : StateDB) (pf : option triePrefetcher) (t : trie) (objs : gmap bytes stateObject) (X : gset bytes)
    : StateDB :=
  MkStateDB (db s) pf t (originalRoot s) (snaps s)
    (match snaps s with Some _ => snap s | None => None end)
    (match snaps s with Some _ => snapAccounts s | None => ∅ end)
    (match snaps s with Some _ => snapStorage s | None => ∅ end)
    objs (X ∪ stateObjectsPending s) (X ∪ stateObjectsDirty s)
    (stateObjectsDestruct s) None (refund s) zeroHash 0 (logs s) (logSize s) (preimages s)
    (access s) (transient s) newJournal [] 0 0 0 0 0.

Lemma Copy_run s : sdb_inv s →
  ∃ s' pf t objs X, Copy s = (s', Ok (copied s pf t objs X)) ∧ reads_to s s'
    ∧ prefetcher_inv (db s) (originalRoot s) pf
    ∧ trie_inv t ∧ same_reads (sdb_trie s) t ∧ taken s objs
    ∧ ∀ a, a ∈ X ↔ a ∈ touched s ∧ is_Some (stateObjects s !! a).
Proof.
  intros Hs. unfold Copy. rewrite (bind_step (gets id) _ s s s) by done. cbv beta.
  destruct (CopyTrie_reads (sdb_trie s) (si_trie _ Hs)) as (t & Et & Ht & Htr).
  rewrite (bind_step (lift _) _ s s t) by (unfold lift; by rewrite Et). cbv beta zeta.
  set (dirty := filter _ _).
  assert (∀ a, a ∈ dirty ↔ a ∈ touched s ∧ is_Some (stateObjects s !! a)) as Hd.
  { intros a. unfold dirty. rewrite list_elem_of_filter. destruct (range_touched s) as [_ <-].
    rewrite elem_of_list_to_set. tauto. }
  assert (∀ X a, a ∈ range_set X ↔ a ∈ X) as Hrs by (intros X a; by rewrite range_set_perm, elem_of_elements).
  destruct (copy_objects_spec s dirty Hs) with (objs := ∅ : gmap bytes stateObject) as (o1 & E1 & C1 & D1).
  { intros a Ha. by apply Hd. } { intros a c. by rewrite lookup_empty. }
  destruct (copy_objects_spec s (range_set (stateObjectsPending s)) Hs) with (objs := o1) as (o2 & E2 & C2 & D2); [|done|].
  { intros a Ha. apply (si_pending _ Hs). by apply Hrs. }
  destruct (copy_objects_spec s (range_set (stateObjectsDirty s)) Hs) with (objs := o2) as (o3 & E3 & C3 & D3); [|done|].
  { intros a Ha. apply (si_dirty _ Hs). by apply Hrs. }
  rewrite (bind_step (lift _) _ s s o1) by (unfold lift; by rewrite E1). cbv beta.
  rewrite (bind_step (lift _) _ s s o2) by (unfold lift; by rewrite E2). cbv beta.
  rewrite (bind_step (lift _) _ s s o3) by (unfold lift; by rewrite E3). cbv beta.
  destruct (copy_prefetcher_spec s Hs) as (s' & pf & E & Hr & Hp). rewrite (bind_step _ _ _ _ _ E).
  exists s', pf, t, o3, (list_to_set dirty). split_and!; try done.
  - unfold copied. replace (AccessList.al_Copy (access s)) with (access s).
    2: { unfold AccessList.al_Copy. change (λ x, x) with (@id (gset bytes)). rewrite list_fmap_id. by destruct (access s). }
    replace (TransientStorage.ts_Copy (transient s)) with (transient s); [done|].
    symmetry. apply (map_fmap_id (transient s)).
  - split; [done|]. intros a. rewrite D3, D2, D1, !Hrs, lookup_empty, Hd. unfold marked.
    assert (¬ is_Some (None : option stateObject)) by (by intros []). tauto.
  - intros a. rewrite elem_of_list_to_set. apply Hd.
Qed.
(** ** What the copy shows *)

Section shows.
Context (s : StateDB) (Hs : sdb_inv s) (Hsnap : snaps s = None → snap s = None).
Context (pf : option triePrefetcher) (Hpf : prefetcher_inv (db s) (originalRoot s) pf).
Context (t : trie) (Ht : trie_inv t) (Htr : same_reads (sdb_trie s) t).
Context (objs : gmap bytes stateObject) (Hobjs : taken s objs).
Context (X : gset bytes) (HX : ∀ a, a ∈ X ↔ a ∈ touched s ∧ is_Some (stateObjects s !! a)).
Let c := copied s pf t objs X.

Lemma copied_snap : snap c = snap s.
Proof. unfold c. simpl. destruct (snaps s); [done|]. by rewrite Hsnap. Qed.

Lemma copied_env a : same_env_at a (env_of s) (env_of c).
Proof. split_and!; try done. simpl. symmetry. apply copied_snap. Qed.

Lemma copied_account a : account_at c a = account_at s a.
Proof. unfold account_at. rewrite copied_snap. unfold c. simpl. by rewrite (proj2 Htr). Qed.

Lemma copied_object a o : objs !! a = Some o →
  ∃ p, stateObjects s !! a = Some p ∧ obj_ok a o ∧ ∀ E, obj_same E E p o.
Proof.
  intros Ho. destruct Hobjs as [Hc _]. destruct (Hc a o Ho) as (p & Hp & E). exists p. split; [done|].
  destruct (deepCopy_spec a p (si_obj _ Hs _ _ Hp)) as (o' & E' & ? & ?). rewrite E in E'. by injection E' as <-.
Qed.

Lemma copied_inv : sdb_inv c.
Proof.
  destruct Hobjs as [_ Hd]. destruct Hs. split; try done; unfold c; simpl.
  - intros a o Ho. by destruct (copied_object a o Ho) as (? & ? & ? & _).
  - intros a [Ha|Ha]%elem_of_union; apply Hd; [left; by apply HX|right; by left].
  - intros a [Ha|Ha]%elem_of_union; apply Hd; [left; by apply HX|right; by right].
  - intros a acc. rewrite (proj2 Htr). apply si_accounts.
Qed.

Lemma copied_at a : carried s a →
  option_Forall2 (obj_same (env_of s) (env_of c)) (obj_at s a) (obj_at c a).
Proof.
  intros Hc. pose proof (copied_env a) as HE.
  assert (∀ p, obj_at s a = Some p → address p = a) as Hp by (intros p E; apply (ok_address _ _ (obj_at_ok s a p Hs E))).
  destruct (objs !! a) as [o|] eqn:Ho.
  - destruct (copied_object a o Ho) as (p & Hsp & Hok & Hsame).
    rewrite (obj_at_live s a p Hsp), (obj_at_live c a o Ho). constructor.
    eapply obj_same_trans; [apply Hsame|]. apply obj_same_env. by rewrite (ok_address _ _ Hok).
  - destruct Hobjs as [_ Hd].
    assert (clean s a) as Hcl.
    { destruct Hc as [Hc|[Hm|Hc]]; [|exfalso|done].
      - apply clean_loaded. destruct (stateObjects s !! a) eqn:E; [|done].
        destruct (proj2 (Hd a)) as [? Hn]; [left; split; [done|by eexists]|congruence].
      - destruct (proj2 (Hd a)) as [? Hn]; [by right|congruence]. }
    rewrite (obj_at_loaded c a Ho). unfold loaded. rewrite copied_account. unfold clean, loaded in Hcl.
    assert (∀ p, newObject a <$> account_at s a = Some p → address p = a) as Hl.
    { intros p. destruct (account_at s a); [|done]. by intros [= <-]. }
    destruct Hcl as [p q Hpq|]; constructor. eapply obj_same_trans; [exact Hpq|].
    apply obj_same_env. by rewrite (Hl q eq_refl).
Qed.

(** An address that is neither is read again, even if it was replaced. *)
Lemma copied_forgets a : a ∉ touched s → ¬ marked s a → obj_at c a = loaded s a.
Proof.
  intros Hn Hm. destruct Hobjs as [_ Hd]. destruct (objs !! a) as [o|] eqn:Ho.
  - destruct (proj1 (Hd a)) as [[? _]|?]; [by exists o|done..].
  - rewrite (obj_at_loaded c a Ho). unfold loaded. by rewrite copied_account.
Qed.

Lemma copied_view q : q ≠ QTxIndex → (∀ a, about q = Some a → carried s a) → view q c = view q s.
Proof.
  intros Hn Hq. destruct (about q) as [a|] eqn:Ea.
  - apply (account_view s c q a Ea). by apply copied_at, Hq.
  - by destruct q.
Qed.

Lemma copied_settled : settled c.
Proof.
  split; [apply copied_inv|done|done|apply counted_new| |].
  - unfold c. simpl. by intros ->.
  - intros a. destruct Hobjs as [_ Hd]. destruct (objs !! a) as [o|] eqn:Ho; [left|right; by apply clean_loaded].
    unfold marked, c. simpl. rewrite !elem_of_union, HX.
    destruct (proj1 (Hd a)) as [?|[?|?]]; [by exists o|by left; left|by left; right|by right; right].
Qed.
End shows.
(** ** The states between transactions *)

Lemma settled_reads s s' : settled s → reads_to s s' → settled s'.
Proof.
  intros [Hs He Hr Hc Hsn Hcl] [Hss Ej Er _]. split; rewrite ?Ej, ?Er; try done; [apply Hss| |].
  - rewrite <- (sm_snaps _ _ Hss), <- (sm_snap _ _ Hss). done.
  - intros a. unfold marked. rewrite <- (sm_pending _ _ Hss), <- (sm_dirty _ _ Hss).
    destruct (Hcl a) as [?|Ha]; [by left|right].
    apply (clean_transfer s s' a); [done|apply Hss|by apply same_env|by apply account_at_same|done].
Qed.

Lemma prepared_wf rules sender coinbase dst pre l al :
  prepared rules sender coinbase dst pre l = Ok al → AccessList.wf al.
Proof.
  unfold prepared. intros E. set (add a al := (AccessList.AddAddress a al).1) in *.
  assert (∀ a al, AccessList.wf al → AccessList.wf (add a al)) as Hadd by (intros; by apply AccessList.AddAddress_wf).
  assert (∀ l al, AccessList.wf al → AccessList.wf (foldl (λ al a, add a al) al l)) as Hpre.
  { induction l0 as [|a l0 IH]; intros al1 Hw; simpl; [done|]. by apply IH, Hadd. }
  set (al0 := foldl _ _ pre) in *.
  assert (AccessList.wf al0) as H0wf.
  { apply Hpre. pose proof (Hadd sender _ AccessList.wf_new). destruct dst; [by apply Hadd|done]. }
  assert (∀ l al1 al2, AccessList.wf al1 →
    foldM (λ el al, foldM (λ key al, r ← AccessList.AddSlot el.1 key al; Ok r.1) el.2 (add el.1 al)) l al1 = Ok al2 →
    AccessList.wf al2) as Hfold.
  { clear E. induction l0 as [|[a ks] l0 IH]; intros al1 al2 Hw; simpl; [by intros [= <-]|].
    destruct (foldM _ ks _) as [al3| | |] eqn:E3; try done. mred. apply IH.
    revert E3. generalize (Hadd a al1 Hw). generalize (add a al1). induction ks as [|k ks IHk]; intros al4 Hw4; simpl.
    - by intros [= <-].
    - destruct (AccessList.AddSlot a k al4) as [[al5 r]| | |] eqn:E5; try done. mred. apply IHk.
      by eapply AccessList.AddSlot_wf. }
  destruct (foldM _ l al0) as [al1| | |] eqn:E1; try done. simpl in E. injection E as <-.
  apply Hfold in E1; [|done]. destruct (IsShanghai rules); [by apply Hadd|done].
Qed.

(** A test for replaced accounts that a copy or [Finalise] would miss. *)
Definition none_missed (s : StateDB) : bool :=
  forallb (λ e, match e with
                | resetObjectChange p _ =>
                    bool_decide (address p ∈ touched s ∪ stateObjectsPending s ∪ stateObjectsDirty s)
                | _ => true
                end) (entries (jrnl s)).

Lemma none_missed_spec s a : none_missed s = true → replaced s a → a ∈ touched s ∨ marked s a.
Proof.
  unfold none_missed, replaced, marked. rewrite forallb_forall, Exists_exists. intros Hn (e & Hin & He).
  apply list_elem_of_In in Hin. specialize (Hn e Hin). destruct e; try done. subst a.
  apply bool_decide_eq_true in Hn. set_solver.
Qed.

(** A StateDB at the start of a transaction.  One whose root was computed is not
    among them: that two keys have different hashes is not known of all keys, so
    RootReads.v speaks of single questions instead. *)
Inductive starts : StateDB → Prop :=
| starts_New root d trees t s :
    OpenTrie root d = Ok t → trie_inv t → db_inv d →
    (∀ a acc, (trie_TryGetAccount a t).2 = Ok (Some acc) → length (acc_CodeHash acc) = hashLen) →
    New root d trees = Ok s → starts s
| starts_StartPrefetcher s s' :
    starts s → (∀ a, keccak256 a ≠ zeroHash) → StartPrefetcher s = (s', Ok tt) → starts s'
| starts_StopPrefetcher s s' : starts s → StopPrefetcher s = (s', Ok tt) → starts s'
| starts_SetTxContext th ti s s' : starts s → SetTxContext th ti s = (s', Ok tt) → starts s'
| starts_Prepare rules sender coinbase dst pre l s s' :
    starts s → Prepare rules sender coinbase dst pre l s = (s', Ok tt) → starts s'
| starts_Finalise os del base s s' :
    starts base → run_ops os base = (s, Ok tt) → (∀ a, replaced s a → a ∈ touched s ∨ marked s a) →
    Finalise del s = (s', Ok tt) → starts s'
| starts_Copy os base s s' c :
    starts base → run_ops os base = (s, Ok tt) → Copy s = (s', Ok c) → starts c.

Lemma settled_since os base s : settled base → run_ops os base = (s, Ok tt) → ∃ ps, since base s ps.
Proof. intros Hb. apply (run_ops_since base os base []), since_refl; apply Hb. Qed.

Lemma Copy_settled base s ps :
  settled base → since base s ps → ∃ s' c, Copy s = (s', Ok c) ∧ settled c ∧ reads_to s s'
    ∧ (∀ q, q ≠ QTxIndex → (∀ a, about q = Some a → carried s a) → view q c = view q s)
    ∧ stateObjectsDestruct c = stateObjectsDestruct s
    ∧ ∀ a, marked c a ↔ marked s a ∨ a ∈ touched s ∧ is_Some (stateObjects s !! a).
Proof.
  intros Hb Hsn. pose proof (h_inv _ _ (sn_hist _ _ _ Hsn)) as Hs. pose proof (since_snap_none _ _ _ Hb Hsn) as Hn.
  destruct (Copy_run s Hs) as (s' & pf & t & objs & X & E & Hr & Hpf & Ht & Htr & Hobjs & HX).
  eexists s', _. split; [exact E|]. split_and!; [by apply copied_settled|done| |done|].
  - intros q. by apply copied_view.
  - intros a. unfold marked, copied. simpl. rewrite !elem_of_union, HX. tauto.
Qed.

Lemma starts_settled s : starts s → settled s.
Proof.
  induction 1 as [root d trees t s Ho Ht Hd Ha E|s s' _ IH Hz E|s s' _ IH E|th ti s s' _ IH E
    |rules sender coinbase dst pre l s s' _ IH E|os del base s s' _ IH Er Hrep E|os base s s' c _ IH Er E].
  - by eapply New_settled.
  - destruct (StartPrefetcher_reads s (se_inv _ IH) Hz) as (s1 & E1 & Hr). rewrite E in E1. injection E1 as <-.
    by eapply settled_reads.
  - destruct (StopPrefetcher_reads s (se_inv _ IH)) as (s1 & E1 & _ & Hr). rewrite E in E1. injection E1 as <-.
    by eapply settled_reads.
  - injection E as <-. destruct IH as [[] ? ? ? ? ?]. by split.
  - unfold Prepare in E. destruct (IsBerlin rules).
    + destruct (prepared rules sender coinbase dst pre l) as [al| | |] eqn:Ep; try done. injection E as <-.
      apply prepared_wf in Ep. destruct IH as [[] ? ? ? ? ?]. by split.
    + injection E as <-. destruct IH as [[] ? ? ? ? ?]. by split.
  - destruct (settled_since os base s IH Er) as [ps Hsn]. by eapply Finalise_settled.
  - destruct (settled_since os base s IH Er) as [ps Hsn].
    destruct (Copy_settled base s ps IH Hsn) as (s1 & c1 & E1 & Hc & _). rewrite E in E1. by injection E1 as <- <-.
Qed.

(** C6: at any time of any transaction of a StateDB, or of a copy of one, [Copy]
    succeeds, the original answers every question as before, and the copy answers
    it as the original does, whatever the order of the maps and the prefetcher:
    it is complete although it only takes over the objects that are marked or
    counted in the journal.  Two things differ: the copy has no transaction
    context, and an account that was replaced by [CreateAccount] and is neither
    counted nor marked is not promised.  The copy has no journal and no revisions,
    and marks what the original marked or touched. *)
Theorem Copy_correct base os s :
  starts base → run_ops os base = (s, Ok tt) →
  ∃ s' c, Copy s = (s', Ok c)
    ∧ (∀ q, (ask q s').2 = (ask q s).2)
    ∧ (∀ q, q ≠ QTxIndex →
         (∀ a, about q = Some a → replaced s a → a ∈ touched s ∨ marked s a) →
         (ask q c).2 = (ask q s).2)
    ∧ stateObjectsDestruct c = stateObjectsDestruct s
    ∧ (∀ a, marked c a ↔ marked s a ∨ a ∈ touched s ∧ is_Some (stateObjects s !! a))
    ∧ settled c.
Proof.
  intros Hb Er. apply starts_settled in Hb. destruct (settled_since os base s Hb Er) as [ps Hsn].
  destruct (Copy_settled base s ps Hb Hsn) as (s' & c & E & Hc & Hr & Hq & Hd & Hm).
  pose proof (h_inv _ _ (sn_hist _ _ _ Hsn)) as Hs. exists s', c. split_and!; try done.
  - intros q. symmetry. by apply ask_spec, Hr.
  - intros q Hn Hcar. rewrite (ask_view q c (se_inv _ Hc)), (ask_view q s Hs). f_equal. apply Hq; [done|].
    intros a Ha. apply (since_carried base s ps a Hb Hsn). by apply Hcar.
Qed.
End copy.
