(* ===== verification/ForEach.v ===== *)
(** * Iterating over the storage of an account

    [StateTrie.NodeIterator] and [StateDB.ForEachStorage]: the loop of a
    key/value iterator over the storage trie of an object, and what it gives the
    callback. *)
From S2P Require Import Prelude Errors Geth Encoding Node Mpt MptFacts Tracer Reader.
From S2P Require Import Trie Repr Refine Hasher TrieSpec NodeSet Committer Database Persist.
From S2P Require Import Iterator IteratorSpec Walk Entries SecureTrie CachingDB.
From S2P Require Import AccessList StateOps Prefetcher PrefetcherSpec StateData StateObject StateDB StateView StateReads.
Local Open Scope Z_scope.

(** The two methods of the interface [Trie] that iteration needs; [GetKey] may
    look into the preimage store of the database. *)
Class TrieIterOps `{TrieOps, !DatabaseOps} := {
  trie_iter : Type;
  trie_iter_ops :: IterOps trie_iter;
  trie_NodeIterator : bytes → stateM trie error trie_iter;
  trie_GetKey : bytes → database → trie → trie * option bytes
}.

Section forEach.
Context `{RlpOps, CryptoOps, CommonOps, TrieOps, !DatabaseOps, SnapOps, RangeOps, SchedOps, !TrieIterOps}.

(** The callback, a function of the caller's own state [C] that says whether to
    go on.  It does not touch the StateDB. *)
Context {C : Type} (cb : bytes → bytes → C → C * bool).

(** Computations on the StateDB and the caller's state. *)
Abbreviation F_ := (stateM (StateDB * C) error).
Definition in_sdb {A} (m : stateM StateDB error A) : F_ A := λ p,
  let '(s, r) := m p.1 in ((s, p.2), r).
Definition call (key value : bytes) : F_ bool := λ p,
  let '(c, more) := cb key value p.2 in ((p.1, c), Ok more).

(** [db.trie.GetKey]: the key cached or stored for a hash, nil when there is none. *)
Definition account_trie_GetKey (shaKey : bytes) : stateM StateDB error bytes := λ s,
  let '(t, k) := trie_GetKey shaKey (db s) (sdb_trie s) in
  (upd_trie (λ _, t) s, Ok (default [] k)).

Definition storage_iterator : stateM (StateDB * stateObject) error (Iterator trie_iter + error) :=
  tr ← getTrie;
  match tr with
  | inr err => mret (inr err)
  | inl tr =>
      it ← on_trie tr (trie_NodeIterator []);
      match it with
      | inl it => mret (inl (NewIterator it))
      | inr err => mret (inr err)
      end
  end.

(** The loop.  [rounds] bounds its turns, [fuel] the nodes skipped in one. *)
Fixpoint storage_loop (fuel rounds : nat) (dirty : gmap bytes bytes) (it : Iterator trie_iter) : F_ unit :=
  match rounds with
  | O => lift OutOfFuel
  | S rounds =>
      let '(it, next) := Iterator_Next fuel it in
      next ← lift next;
      if negb next then mret tt
      else
        k ← in_sdb (account_trie_GetKey (default [] (Key it)));
        let key := BytesToHash k in
        match dirty !! key with
        | Some value =>
            more ← call key value;
            if negb more then mret tt else storage_loop fuel rounds dirty it
        | None =>
            match default [] (Value it) with
            | [] => storage_loop fuel rounds dirty it
            | enc =>
                match rlp_Split enc with
                | None => lift (Err ErrRlp)
                | Some (_, content, _) =>
                    more ← call key (BytesToHash content);
                    if negb more then mret tt else storage_loop fuel rounds dirty it
                end
            end
        end
  end.

Definition ForEachStorage (fuel rounds : nat) (addr : bytes) : F_ unit :=
  so ← in_sdb (getStateObject addr);
  match so with
  | None => mret tt
  | Some so =>
      it ← in_sdb (on_obj so storage_iterator);
      match it with
      | inr err => lift (Err err)
      | inl it => storage_loop fuel rounds (dirtyStorage so) it
      end
  end.

(** ** The specification *)

(** The callback run over a list of stored slots: hashed keys and encodings. *)
Fixpoint visit_all (key_of : bytes → bytes) (dirty : gmap bytes bytes) (l : list (bytes * bytes)) (c : C)
    : C * result unit :=
  match l with
  | [] => (c, Ok tt)
  | (h, enc) :: l =>
      let key := BytesToHash (key_of h) in
      let seen := match dirty !! key with
                  | Some v => Ok (Some v)
                  | None => match enc with
                            | [] => Ok None
                            | _ => match rlp_Split enc with
                                   | Some (_, content, _) => Ok (Some (BytesToHash content))
                                   | None => Err ErrRlp
                                   end
                            end
                  end in
      match seen with
      | Ok (Some v) => let '(c, more) := cb key v c in if negb more then (c, Ok tt) else visit_all key_of dirty l c
      | Ok None => visit_all key_of dirty l c
      | Err e => (c, Err e)
      | Panic w => (c, Panic w)
      | OutOfFuel => (c, OutOfFuel)
      end
  end.
End forEach.

(** What the iterator of a trie delivers: the entries of the map it holds, in the
    order of their hex keys, and no error. *)
Definition lists `{TrieOps, !DatabaseOps, !TrieIterOps} (t : trie) (l : list (bytes * bytes)) : Prop :=
  ∃ t' it bound, trie_NodeIterator [] t = (t', Ok it)
    ∧ ∀ fuel rounds, (bound < fuel)%nat → (bound < rounds)%nat → collect fuel rounds (NewIterator it) = Ok (l, None).

(** What iteration relies on: a trie whose reader is sound ([iter_ok]) lists the
    map it holds, and [GetKey] answers the same again. *)
Class TrieIterLaws `{TrieMapLaws, !TrieIterOps} := {
  iter_ok : trie → Prop;
  iter_ok_reads t0 t : iter_ok t0 → reads_of t0 t → iter_ok t;
  NodeIterator_lists t m : trie_map t m → iter_ok t → (m ≠ ∅ → root_of m ≠ EmptyRootHash) →
    ∃ l, lists t l ∧ l ≡ₚ map_to_list m ∧ StronglySorted key_order l;
  GetKey_again h h' d t : (trie_GetKey h d (trie_GetKey h' d t).1).2 = (trie_GetKey h d t).2
}.

Section forEach_spec.
Context `{RlpOps, CryptoOps, CommonOps, AccountOps, TrieOps, !DatabaseOps, SnapOps, RangeOps, SchedOps, !TrieIterOps}.
Context `{!CryptoLaws, !TrieLaws, !DatabaseLaws, !SnapLaws, !TrieMapLaws, !TrieIterLaws}.
Context {C : Type} (cb : bytes → bytes → C → C * bool).

Definition key_of (s : StateDB) (h : bytes) : bytes := default [] (trie_GetKey h (db s) (sdb_trie s)).2.

(** What the caller sees of a run. *)
Definition seen {A} (x : (StateDB * C) * result A) : C * result A := (x.1.2, x.2).

Lemma GetKey_run s c h :
  ∃ s', in_sdb (C := C) (account_trie_GetKey h) (s, c) = ((s', c), Ok (key_of s h)) ∧ ∀ h', key_of s' h' = key_of s h'.
Proof.
  unfold in_sdb, account_trie_GetKey, key_of. simpl.
  pose proof (λ h', GetKey_again h' h (db s) (sdb_trie s)) as Hk.
  destruct (trie_GetKey h (db s) (sdb_trie s)) as [t k]. eexists. split; [reflexivity|].
  intros h'. simpl in *. by rewrite Hk.
Qed.

Lemma visit_all_ext f g dirty l c : (∀ h, f h = g h) → visit_all cb f dirty l c = visit_all cb g dirty l c.
Proof.
  intros Hfg. revert c. induction l as [|[h enc] l IH]; intros c; [done|]. simpl. rewrite Hfg.
  destruct (match dirty !! _ with Some _ => _ | None => _ end) as [[v|]| | |]; [|apply IH|done..].
  destruct (cb _ _ _) as [c' []]; [apply IH|done].
Qed.

(** The loop is the callback run over what the iterator delivers; the error the
    iterator may end with is not looked at. *)
Lemma storage_loop_spec fuel rounds dirty : ∀ it l e s c,
  collect fuel rounds it = Ok (l, e) →
  seen (storage_loop cb fuel rounds dirty it (s, c)) = visit_all cb (key_of s) dirty l c.
Proof.
  induction rounds as [|rounds IH]; intros it l e s c; [done|]. cbn [collect storage_loop].
  destruct (Iterator_Next fuel it) as [it' [[]| | |]]; try done; [|by intros [= <- <-]].
  destruct (Key it') as [k|] eqn:Ek; [|done]. destruct (Value it') as [v|] eqn:Ev; [|done].
  destruct (collect fuel rounds it') as [[l' e']| | |] eqn:El; try done. intros [= <- <-].
  destruct (GetKey_run s c k) as (s' & E & Hk). unfold lift. mred. simpl. rewrite ?Ek, ?Ev, E. simpl.
  assert (∀ c', seen (storage_loop cb fuel rounds dirty it' (s', c')) = visit_all cb (key_of s) dirty l' c') as Hrest.
  { intros c'. rewrite (IH it' l' e' s' c' El). by apply visit_all_ext. }
  assert (∀ key val, seen ((more ← call cb key val; if negb more then mret tt else storage_loop cb fuel rounds dirty it') (s', c))
    = let '(c', more) := cb key val c in if negb more then (c', Ok tt) else visit_all cb (key_of s) dirty l' c') as Hcall.
  { intros key val. unfold call. mred. simpl. destruct (cb key val c) as [c' []]; [apply Hrest|done]. }
  destruct (dirty !! _) as [val|]; [apply Hcall|]. destruct v as [|b v]; [apply Hrest|].
  destruct (rlp_Split _) as [[[kd content] r]|]; [apply Hcall|done].
Qed.

Lemma storage_iterator_run s o ms a t0 :
  db_inv (db s) → prefetcher_inv (db s) (originalRoot s) (prefetcher s) → addrHash o = keccak256 a →
  storage_trie s o = Ok t0 → trie_map t0 ms → iter_ok t0 → (ms ≠ ∅ → root_of ms ≠ EmptyRootHash) →
  ∃ s' o' it l bound, storage_iterator (s, o) = ((s', o'), Ok (inl (NewIterator it)))
    ∧ db s' = db s ∧ sdb_trie s' = sdb_trie s ∧ l ≡ₚ map_to_list ms ∧ StronglySorted key_order l
    ∧ ∀ fuel rounds, (bound < fuel)%nat → (bound < rounds)%nat → collect fuel rounds (NewIterator it) = Ok (l, None).
Proof.
  intros Hd Hp Ha Ht0 Hm Hi Hroot.
  destruct (getTrie_spec s o a Hd Hp Ha) as (pf & r & o' & E & _ & _ & Hr).
  destruct r as [t|e]; [|destruct Hr as [_ Hr]; congruence]. destruct Hr as (-> & t1 & E1 & Hr).
  rewrite Ht0 in E1. injection E1 as <-.
  destruct (NodeIterator_lists t ms) as (l & (t' & it & bound & En & Hl) & Hperm & Hs);
    [by eapply reads_of_map|by eapply iter_ok_reads|done|].
  unfold storage_iterator. rewrite (bind_step _ _ _ _ _ E). unfold on_trie, try_on. mred. rewrite En. mred.
  eexists _, _, it, l, bound. by split_and!.
Qed.

(** C17: [ForEachStorage] gives the callback the slots stored in the trie of the
    account, in the order of their hashed keys: the value written in this
    transaction if there is one and the stored value otherwise, until the callback
    asks to stop or a stored value does not decode.  Of an account that does not
    exist it shows nothing. *)
Theorem ForEachStorage_correct s addr c :
  sdb_inv s →
  match live (obj_at s addr) with
  | None => ∀ fuel rounds, seen (ForEachStorage cb fuel rounds addr (s, c)) = (c, Ok tt)
  | Some o => ∀ t ms,
      storage_trie s o = Ok t → trie_map t ms → iter_ok t → (ms ≠ ∅ → root_of ms ≠ EmptyRootHash) →
      ∃ l bound, l ≡ₚ map_to_list ms ∧ StronglySorted key_order l
        ∧ ∀ fuel rounds, (bound < fuel)%nat → (bound < rounds)%nat →
            seen (ForEachStorage cb fuel rounds addr (s, c))
            = visit_all cb (key_of (getStateObject addr s).1) (dirtyStorage o) l c
  end.
Proof.
  intros Hs. destruct (getStateObject_spec s addr Hs) as (s1 & E & Hr & Ho).
  assert (in_sdb (C := C) (getStateObject addr) (s, c) = ((s1, c), Ok (live (obj_at s addr)))) as Ein.
  { unfold in_sdb. simpl. by rewrite E. }
  unfold ForEachStorage. rewrite E. simpl.
  destruct (live (obj_at s addr)) as [o|] eqn:El.
  2: { intros fuel rounds. by rewrite (bind_step _ _ _ _ _ Ein). }
  intros t ms Ht Hm Hi Hroot. assert (obj_at s addr = Some o) as Hob.
  { unfold live in El. destruct (obj_at s addr) as [o'|]; [|done]. simpl in El. by destruct (deleted o'); simplify_eq. }
  pose proof (Ho o Hob) as Ho1. pose proof (rt_same _ _ Hr) as Hsame. pose proof (sm_inv' _ _ Hsame) as Hs1.
  pose proof (si_obj _ Hs1 _ _ Ho1) as Hok.
  assert (storage_trie s1 o = Ok t) as Ht1.
  { rewrite <- Ht. unfold storage_trie. destruct (obj_trie o); [done|].
    rewrite <- (sm_root _ _ Hsame). apply (sm_db _ _ Hsame). }
  destruct (storage_iterator_run s1 o ms addr t) as (s2 & o2 & it & l & bound & E2 & Hd2 & Ht2 & Hl & Hsl & Hc);
    [apply Hs1|apply Hs1|apply Hok|done..|].
  exists l, bound. split_and!; [done..|]. intros fuel rounds Hf Hrd.
  rewrite (bind_step _ _ _ _ _ Ein).
  assert (in_sdb (C := C) (on_obj o storage_iterator) (s1, c) = ((setStateObject o2 s2, c), Ok (inl (NewIterator it)))) as Eit.
  { unfold in_sdb, on_obj. simpl. by rewrite E2. }
  rewrite (bind_step _ _ _ _ _ Eit). rewrite (storage_loop_spec _ _ _ _ l None) by auto.
  apply visit_all_ext. intros h. unfold key_of. simpl. by rewrite Hd2, Ht2.
Qed.
End forEach_spec.

(** ** The state trie *)

Section state_trie.
Context `{RlpOps, CryptoOps, DiskOps, CacheOps, AccountOps, LruOps, IpldOps}.

Definition st_NodeIterator (start : bytes) : stateM StateTrie error nodeIterator :=
  on_inner (NodeIterator (seq 0 16) start).

#[export] Instance state_trie_iter_ops : TrieIterOps := {|
  trie_iter := nodeIterator;
  trie_iter_ops := node_iter_ops (seq 0 16);
  trie_NodeIterator := st_NodeIterator : bytes → stateM (@trie state_trie_ops) error nodeIterator;
  trie_GetKey h (d : @database state_trie_ops caching_db_ops) (t : @trie state_trie_ops) :=
    st_GetKey h (Database.preimages (triedb d)) t
|}.

Context `{!RlpLaws, !CryptoLaws, !AccountLaws, !LruLaws}.

Definition st_reader (t : StateTrie) : trieReader := t_reader (inner t).

Lemma st_TryGet_reader k t : st_reader (st_TryGet k t).1 = st_reader t.
Proof.
  unfold st_TryGet, on_inner, st_reader, TryGet.
  by destruct (tryGet _ _ _ _ _ _) as [tr [[[v n] []]| | |]].
Qed.

#[export] Instance state_trie_iter_laws : TrieIterLaws.
Proof.
  refine {| iter_ok t := decodes (st_reader t) |}.
  - intros t0 t Hd. induction 1 as [|k t _ IH|t t' _ IH E]; [done| |].
    + simpl. by rewrite st_TryGet_reader.
    + by injection E as <-.
  - intros t m Hm Hd Hroot. simpl in *.
    destruct (Iterator_lemma (st_reader t) Hd (seq 0 16) (reflexivity _) m Hroot false [] (inner t))
      as (T' & it & l & E & Hc & Hp & Hs); [done|done|].
    exists l. split; [|split; [|done]].
    + eexists (set_inner T' t), it, (length (root_walk m) + size m)%nat. split.
      * simpl. unfold st_NodeIterator, on_inner. by rewrite E.
      * intros fuel rounds Hf Hr. apply Hc; lia.
    + rewrite Hp, map_filter_id; [done|]. intros k v _. unfold bytes_le. by destruct (keybytesToHex (k, v).1).
  - intros h h' d t. change StateTrie in t. by destruct t as [T c []].
Defined.
End state_trie.
