(* ===== verification/LeafData.v ===== *)
(** * The state of direct_by_leaf: data and interfaces

    The package has the [StateDB] of trie_by_cid/state without tries: accounts
    and storage slots are rows of SQL tables of trie leaves.  The names are those
    of the Go code and so, for the most part, those of StateData.v; a file that
    requires both refers to these by [LeafData.].  Ownership of objects is as
    there: the map [stateObjects], or the journal entry that replaced one.

    Access lists and transient storage are those of AccessList.v: the two
    packages have the same code.  Timers are left out. *)
From S2P Require Import Prelude Errors Geth AccessList StateData.
Export AccessList.AccessList(accessList, newAccessList).
Local Open Scope Z_scope.

(** ** The interface of state_database.go *)

(** Reading code fills caches; [StateAccount] may find nothing, and the value of
    a slot may be empty. *)
Class LeafDatabaseOps := {
  leafdb : Type;
  ldb_ContractCode : bytes → stateM leafdb error bytes;
  ldb_ContractCodeSize : bytes → stateM leafdb error Z;
  ldb_StateAccount : bytes → bytes → leafdb → result (option StateAccount);
  ldb_StorageValue : bytes → bytes → bytes → leafdb → result bytes
}.

(** Two databases that answer every read alike. *)
Definition same_leafdb `{LeafDatabaseOps} (d d' : leafdb) : Prop :=
  (∀ h, (ldb_ContractCode h d').2 = (ldb_ContractCode h d).2)
  ∧ (∀ a b, ldb_StateAccount a b d' = ldb_StateAccount a b d)
  ∧ (∀ a k b, ldb_StorageValue a k b d' = ldb_StorageValue a k b d).

(** Reads return and do not disturb later reads; a size is that of the code. *)
Class LeafDatabaseLaws `{LeafDatabaseOps} := {
  ldb_inv : leafdb → Prop;
  ldb_ContractCode_reads h d : ldb_inv d →
    ldb_inv (ldb_ContractCode h d).1 ∧ same_leafdb d (ldb_ContractCode h d).1
    ∧ returns (ldb_ContractCode h d).2;
  ldb_ContractCodeSize_reads h d : ldb_inv d →
    ldb_inv (ldb_ContractCodeSize h d).1 ∧ same_leafdb d (ldb_ContractCodeSize h d).1;
  ldb_ContractCodeSize_value h d : ldb_inv d →
    (ldb_ContractCodeSize h d).2 = (c ← (ldb_ContractCode h d).2; Ok (Z.of_nat (length c)));
  ldb_StateAccount_returns a b d : ldb_inv d → returns (ldb_StateAccount a b d);
  ldb_StorageValue_returns a k b d : ldb_inv d → returns (ldb_StorageValue a k b d)
}.

(** The empty account [createObject] starts from. *)
Definition emptyRoot `{CryptoOps} : bytes := EmptyRootHash.
Definition emptyCodeHash `{CryptoOps} : bytes := EmptyCodeHash.

(** [Storage.Copy]. *)
Definition Storage_Copy (s : Storage) : Storage := (λ v, v) <$> s.

(** ** Objects, the journal, the StateDB *)

Record stateObject := MkObject {
  address : bytes;
  addrHash : bytes;
  blockHash : bytes;
  data : StateAccount;
  so_dbErr : option error;
  code : option bytes;               (* nil or a slice *)
  originStorage : Storage;
  pendingStorage : Storage;
  dirtyStorage : Storage;
  fakeStorage : option Storage;      (* nil or a map *)
  dirtyCode : bool;
  suicided : bool;
  deleted : bool
}.

Inductive journalEntry :=
| createObjectChange (account : bytes)
| resetObjectChange (prev : stateObject) (prevdestruct : bool)
| suicideChange (account : bytes) (prev : bool) (prevbalance : Z)
| balanceChange (account : bytes) (prev : Z)
| nonceChange (account : bytes) (prev : Z)
| storageChange (account key prevalue : bytes)
| codeChange (account : bytes) (prevcode : option bytes) (prevhash : bytes)
| refundChange (prev : Z)
| addLogChange (txhash : bytes)
| addPreimageChange (hash : bytes)
| touchChange (account : bytes)
| accessListAddAccountChange (address : bytes)
| accessListAddSlotChange (address slot : bytes)
| transientStorageChange (account key prevalue : bytes).

Record journal := MkJournal {
  entries : list journalEntry;
  dirties : gmap bytes Z
}.

Record revision := MkRevision { rev_id : Z; journalIndex : nat }.

Section data.
Context `{LeafDatabaseOps}.

Record StateDB := MkStateDB {
  db : leafdb;
  originBlockHash : bytes;
  stateObjects : gmap bytes stateObject;
  stateObjectsPending : gset bytes;
  stateObjectsDirty : gset bytes;
  stateObjectsDestruct : gset bytes;
  dbErr : option error;
  refund : Z;
  thash : bytes;
  txIndex : Z;
  logs : gmap bytes (list Log);
  logSize : Z;
  preimages : gmap bytes bytes;
  access : accessList;
  transient : transientStorage;
  jrnl : journal;
  validRevisions : list revision;
  nextRevisionId : Z
}.

(** ** Field updates *)

Definition eta_object (o : stateObject) : stateObject :=
  MkObject (address o) (addrHash o) (blockHash o) (data o) (so_dbErr o) (code o) (originStorage o)
    (pendingStorage o) (dirtyStorage o) (fakeStorage o) (dirtyCode o) (suicided o) (deleted o).

Definition upd_data f (o : stateObject) : stateObject := ltac:(update_field eta_object data f o).
Definition upd_so_dbErr f (o : stateObject) : stateObject := ltac:(update_field eta_object so_dbErr f o).
Definition upd_code f (o : stateObject) : stateObject := ltac:(update_field eta_object code f o).
Definition upd_origin f (o : stateObject) : stateObject := ltac:(update_field eta_object originStorage f o).
Definition upd_pending f (o : stateObject) : stateObject := ltac:(update_field eta_object pendingStorage f o).
Definition upd_dirty f (o : stateObject) : stateObject := ltac:(update_field eta_object dirtyStorage f o).
Definition upd_fake f (o : stateObject) : stateObject := ltac:(update_field eta_object fakeStorage f o).
Definition upd_dirtyCode f (o : stateObject) : stateObject := ltac:(update_field eta_object dirtyCode f o).
Definition upd_suicided f (o : stateObject) : stateObject := ltac:(update_field eta_object suicided f o).
Definition upd_deleted f (o : stateObject) : stateObject := ltac:(update_field eta_object deleted f o).

Definition eta_sdb (s : StateDB) : StateDB :=
  MkStateDB (db s) (originBlockHash s) (stateObjects s) (stateObjectsPending s) (stateObjectsDirty s)
    (stateObjectsDestruct s) (dbErr s) (refund s) (thash s) (txIndex s) (logs s) (logSize s)
    (preimages s) (access s) (transient s) (jrnl s) (validRevisions s) (nextRevisionId s).

Definition upd_db f (s : StateDB) : StateDB := ltac:(update_field eta_sdb db f s).
Definition upd_objects f (s : StateDB) : StateDB := ltac:(update_field eta_sdb stateObjects f s).
Definition upd_pendings f (s : StateDB) : StateDB := ltac:(update_field eta_sdb stateObjectsPending f s).
Definition upd_dirtys f (s : StateDB) : StateDB := ltac:(update_field eta_sdb stateObjectsDirty f s).
Definition upd_destruct f (s : StateDB) : StateDB := ltac:(update_field eta_sdb stateObjectsDestruct f s).
Definition upd_dbErr f (s : StateDB) : StateDB := ltac:(update_field eta_sdb dbErr f s).
Definition upd_refund f (s : StateDB) : StateDB := ltac:(update_field eta_sdb refund f s).
Definition upd_thash f (s : StateDB) : StateDB := ltac:(update_field eta_sdb thash f s).
Definition upd_txIndex f (s : StateDB) : StateDB := ltac:(update_field eta_sdb txIndex f s).
Definition upd_logs f (s : StateDB) : StateDB := ltac:(update_field eta_sdb logs f s).
Definition upd_logSize f (s : StateDB) : StateDB := ltac:(update_field eta_sdb logSize f s).
Definition upd_preimages f (s : StateDB) : StateDB := ltac:(update_field eta_sdb preimages f s).
Definition upd_access f (s : StateDB) : StateDB := ltac:(update_field eta_sdb access f s).
Definition upd_transient f (s : StateDB) : StateDB := ltac:(update_field eta_sdb transient f s).
Definition upd_journal f (s : StateDB) : StateDB := ltac:(update_field eta_sdb jrnl f s).
Definition upd_revisions f (s : StateDB) : StateDB := ltac:(update_field eta_sdb validRevisions f s).
Definition upd_nextRevisionId f (s : StateDB) : StateDB := ltac:(update_field eta_sdb nextRevisionId f s).

(** ** Computations *)

(** A method of an object. *)
Abbreviation O_ := (stateM (StateDB * stateObject) error).

Definition on_sdb (f : StateDB → StateDB) : O_ unit := modify (λ p, (f p.1, p.2)).
Definition on_self (f : stateObject → stateObject) : O_ unit := modify (λ p, (p.1, f p.2)).
Definition self {A} (f : stateObject → A) : O_ A := gets (λ p, f p.2).

(** ** The journal *)

Definition newJournal : journal := MkJournal [] ∅.

Definition dirtied (e : journalEntry) : option bytes :=
  match e with
  | createObjectChange a | suicideChange a _ _ | balanceChange a _ | nonceChange a _
  | storageChange a _ _ | codeChange a _ _ | touchChange a => Some a
  | resetObjectChange _ _ | refundChange _ | addLogChange _ | addPreimageChange _
  | accessListAddAccountChange _ | accessListAddSlotChange _ _
  | transientStorageChange _ _ _ => None
  end.

Definition journal_append (e : journalEntry) (j : journal) : journal :=
  MkJournal (entries j ++ [e])
    (match dirtied e with Some a => bump a (dirties j) | None => dirties j end).

Definition journal_dirty (addr : bytes) (j : journal) : journal :=
  MkJournal (entries j) (bump addr (dirties j)).

Definition journal_length (j : journal) : nat := length (entries j).

(** ** The sticky database errors: of the StateDB and of an object *)

Definition sticky (err : error) (e : option error) : option error :=
  match e with None => Some err | Some e => Some e end.
Definition setError (err : error) : StateDB → StateDB := upd_dbErr (sticky err).
Definition so_setError (err : error) : stateObject → stateObject := upd_so_dbErr (sticky err).
End data.
