(* ===== verification/LeafDatabase.v ===== *)
(** * Reading the leaf tables: direct_by_leaf/state_database.go and sql.go

    [stateDatabase] implements the interface [StateDatabase] by three SQL queries
    and two caches of contract code.  The SQL engine, and the packages that print
    and parse its arguments, are parameters; the row types are those of sql.go. *)
From S2P Require Import Prelude Errors Geth Database StateOps LeafData.
Local Open Scope Z_scope.

(** The result rows. *)
Record StorageSlotResult := MkStorageSlotResult {
  slot_Value : bytes; slot_Removed : bool; slot_StateLeafRemoved : bool
}.
Record StateAccountResult := MkStateAccountResult {
  row_Balance : bytes; row_Nonce : Z; row_CodeHash : bytes; row_StorageRoot : bytes; row_Removed : bool
}.

(** [QueryRow(...).Scan(...)] of the three queries on their arguments (strings),
    with the printing and parsing of common.Hash and go-cid. *)
Class SqlOps := {
  sqldb : Type;
  GetContractCode : bytes → sqldb → result bytes;
  GetStateAccount : bytes → bytes → sqldb → result StateAccountResult;
  GetStorageSlot : bytes → bytes → bytes → sqldb → result StorageSlotResult;
  Hash_Hex : bytes → bytes;
  HexToHash : bytes → bytes;
  cid_String : bytes → bytes
}.
(** A query returns, with or without an error. *)
Class SqlLaws `{SqlOps, CryptoOps} := {
  GetContractCode_returns k d : returns (GetContractCode k d);
  GetStateAccount_returns a b d : returns (GetStateAccount a b d);
  GetStorageSlot_returns a s b d : returns (GetStorageSlot a s b d);
  HexToHash_length s : length (HexToHash s) = hashLen;
  HexToHash_Hex h : length h = hashLen → HexToHash (Hash_Hex h) = h
}.

(** ** math/big *)

Definition is_digit (c : Z) : bool := bool_decide (48 ≤ c ≤ 57).

(** The number the leading digits of a string denote, and the rest. *)
Fixpoint scan_digits (s : bytes) (acc : Z) : Z * bytes :=
  match s with
  | c :: s' => if is_digit c then scan_digits s' (10 * acc + (c - 48)) else (acc, s)
  | [] => (acc, [])
  end.

(** [SetString(s, 10)]: an optional sign and digits.  On other strings the
    documentation leaves the value open; the code keeps that of the leading
    digits, if there are any, and the second result is false. *)
Definition big_SetString (s : bytes) : Z * bool :=
  let '(neg, s) := match s with
                   | 45 :: s => (true, s)
                   | 43 :: s => (false, s)
                   | _ => (false, s)
                   end in
  let '(z, rest) := scan_digits s 0 in
  ((if neg : bool then - z else z), bool_decide (s ≠ [] ∧ rest = [])).

(** The decimal form of a number, as the indexer writes a balance. *)
Fixpoint digits (fuel : nat) (n : Z) (rest : bytes) : bytes :=
  match fuel with
  | O => rest
  | S fuel =>
      if bool_decide (n < 10) then (48 + n) :: rest
      else digits fuel (n / 10) ((48 + n mod 10) :: rest)
  end.
Definition decimal_abs (n : Z) : bytes := digits (S (Z.to_nat (Z.log2 n))) n [].
Definition decimal (z : Z) : bytes := if bool_decide (z < 0) then 45 :: decimal_abs (- z) else decimal_abs z.

Lemma is_digit_48 d : 0 ≤ d < 10 → is_digit (48 + d) = true.
Proof. intros Hd. unfold is_digit. apply bool_decide_true. lia. Qed.

Lemma scan_digits_digits fuel : ∀ n rest, 0 ≤ n < 10 ^ Z.of_nat (S fuel) →
  ∃ k, ∀ a, scan_digits (digits (S fuel) n rest) a = scan_digits rest (a * k + n).
Proof.
  induction fuel as [|fuel IH]; intros n rest Hn.
  { change (10 ^ Z.of_nat 1) with 10 in Hn. exists 10. intros a. cbn [digits]. rewrite bool_decide_true by lia.
    cbn [scan_digits]. rewrite is_digit_48 by lia. f_equal. lia. }
  change (digits (S (S fuel)) n rest) with
    (if bool_decide (n < 10) then (48 + n) :: rest else digits (S fuel) (n / 10) ((48 + n mod 10) :: rest)).
  case_bool_decide as Hlt.
  - exists 10. intros a. cbn [scan_digits]. rewrite is_digit_48 by lia. f_equal. lia.
  - rewrite Nat2Z.inj_succ, Z.pow_succ_r in Hn by lia.
    destruct (IH (n / 10) ((48 + n mod 10) :: rest)) as [k Hk].
    { split; [apply Z.div_pos; lia|]. apply Z.div_lt_upper_bound; lia. }
    exists (k * 10). intros a. rewrite Hk. cbn [scan_digits]. pose proof (Z.mod_pos_bound n 10).
    rewrite is_digit_48 by lia. f_equal. pose proof (Z.div_mod n 10). lia.
Qed.

Lemma digits_nonempty fuel : ∀ n x rest, digits fuel n (x :: rest) ≠ [].
Proof. induction fuel as [|fuel IH]; intros n x rest; cbn [digits]; [done|]. case_bool_decide; [done|apply IH]. Qed.

Lemma decimal_abs_scan n : 0 ≤ n → scan_digits (decimal_abs n) 0 = (n, []) ∧ decimal_abs n ≠ [].
Proof.
  intros Hn. unfold decimal_abs. split.
  - destruct (scan_digits_digits (Z.to_nat (Z.log2 n)) n []) as [k Hk]; [|by rewrite Hk].
    split; [done|]. rewrite Nat2Z.inj_succ, Z2Nat.id by apply Z.log2_nonneg.
    destruct (decide (n = 0)) as [->|]; [done|].
    eapply Z.lt_le_trans; [apply Z.log2_spec; lia|]. apply Z.pow_le_mono_l. lia.
  - cbn [digits]. case_bool_decide; [done|apply digits_nonempty].
Qed.

Lemma no_sign d s z : scan_digits (d :: s) 0 = (z, []) →
  match d :: s with 45 :: s => (true, s) | 43 :: s => (false, s) | _ => (false, d :: s) end = (false, d :: s).
Proof.
  cbn [scan_digits]. destruct (is_digit d) eqn:Hd; [|done]. intros _.
  unfold is_digit in Hd. apply bool_decide_eq_true in Hd.
  destruct d as [|p|p]; try done. do 6 (destruct p as [p|p|]; try done); lia.
Qed.

Lemma big_SetString_decimal z : big_SetString (decimal z) = (z, true).
Proof.
  unfold decimal, big_SetString. case_bool_decide as Hz.
  - destruct (decimal_abs_scan (- z)) as [E Hne]; [lia|]. cbv beta iota. rewrite E.
    rewrite bool_decide_true by done. f_equal. lia.
  - destruct (decimal_abs_scan z) as [E Hne]; [lia|]. destruct (decimal_abs z) as [|d s] eqn:Ed; [done|].
    rewrite (no_sign d s z E), E. by rewrite bool_decide_true.
Qed.

Section database.
Context `{CryptoOps, DiskOps, CacheOps, LruOps, IpldOps, SqlOps}.

Definition codeSizeCacheSize : Z := 100000.
Definition codeCacheSize : Z := 64 * 1024 * 1024.

Record stateDatabase := MkStateDatabase {
  sd_db : sqldb;
  codeSizeCache : lru Z;
  codeCache : cleanCache
}.

Definition NewStateDatabase (d : sqldb) : stateDatabase :=
  MkStateDatabase d (lru_New codeSizeCacheSize) (cache_New codeCacheSize).

Definition set_codeSizeCache (c : lru Z) (sd : stateDatabase) : stateDatabase :=
  MkStateDatabase (sd_db sd) c (codeCache sd).

(** The code in the table: the CID, the query and the check for an empty blob. *)
Definition read_code (codeHash : bytes) (d : sqldb) : result bytes :=
  match Keccak256ToCid RawBinary codeHash with
  | Ok c => code ← GetContractCode (cid_String c) d;
            match code with [] => Err ErrNotFound | _ => Ok code end
  | Err err => Err (ErrDeriveCid err)
  | Panic w => Panic w
  | OutOfFuel => OutOfFuel
  end.

Definition sd_ContractCode (codeHash : bytes) : stateM stateDatabase error bytes := λ sd,
  match cache_Get (codeCache sd) codeHash with
  | Some (b :: code) => (sd, Ok (b :: code))
  | _ =>
      match read_code codeHash (sd_db sd) with
      | Ok code =>
          (MkStateDatabase (sd_db sd) (lru_Add codeHash (Z.of_nat (length code)) (codeSizeCache sd))
             (cache_Set codeHash code (codeCache sd)), Ok code)
      | r => (sd, r)
      end
  end.

Definition sd_ContractCodeSize (codeHash : bytes) : stateM stateDatabase error Z := λ sd,
  let '(c, cached) := lru_Get codeHash (codeSizeCache sd) in
  let sd := set_codeSizeCache c sd in
  match cached with
  | Some size => (sd, Ok size)
  | None => (code ← sd_ContractCode codeHash; mret (Z.of_nat (length code))) sd
  end.

Definition sd_StateAccount (addressHash blockHash : bytes) (sd : stateDatabase)
    : result (option StateAccount) :=
  res ← GetStateAccount (Hash_Hex addressHash) (Hash_Hex blockHash) (sd_db sd);
  if row_Removed res then Ok None
  else
    let bal := (big_SetString (row_Balance res)).1 in
    Ok (Some (MkStateAccount (row_Nonce res) bal (HexToHash (row_StorageRoot res))
                (HexToHash (row_CodeHash res)))).

Definition sd_StorageValue (addressHash slotHash blockHash : bytes) (sd : stateDatabase) : result bytes :=
  res ← GetStorageSlot (Hash_Hex addressHash) (Hash_Hex slotHash) (Hash_Hex blockHash) (sd_db sd);
  if slot_Removed res || slot_StateLeafRemoved res then Ok [] else Ok (slot_Value res).

#[export] Instance state_database_ops : LeafDatabaseOps := {|
  leafdb := stateDatabase;
  ldb_ContractCode := sd_ContractCode;
  ldb_ContractCodeSize := sd_ContractCodeSize;
  ldb_StateAccount := sd_StateAccount;
  ldb_StorageValue := sd_StorageValue
|}.

(** ** The laws of the interface *)

Context `{!SqlLaws, !CacheLaws, !LruLaws}.

(** The caches hold what the table does. *)
Definition code_coherent (sd : stateDatabase) : Prop :=
  (∀ h c, cache_Get (codeCache sd) h = Some c → c = [] ∨ read_code h (sd_db sd) = Ok c)
  ∧ (∀ h n, lru_lookup h (codeSizeCache sd) = Some n →
       ∃ c, read_code h (sd_db sd) = Ok c ∧ n = Z.of_nat (length c)).

Lemma sd_read_code_returns h d : returns (read_code h d).
Proof.
  unfold read_code, Keccak256ToCid. destruct (multihash_Encode h) as [mh|]; [|done]. simpl.
  pose proof (GetContractCode_returns (cid_String (NewCidV1 RawBinary mh)) d) as Hr.
  by destruct (GetContractCode _ _) as [[|]| | |].
Qed.

(** A read of code gives the answer of the table and changes the caches only. *)
Definition reads_code {A} (r : result A) (sd : stateDatabase) (p : stateDatabase * result A) : Prop :=
  p.2 = r ∧ code_coherent p.1 ∧ sd_db p.1 = sd_db sd.

Lemma sd_ContractCode_lemma h sd :
  code_coherent sd → reads_code (read_code h (sd_db sd)) sd (sd_ContractCode h sd).
Proof.
  intros [Hc Hs]. unfold sd_ContractCode, reads_code.
  assert (∀ p, p = match read_code h (sd_db sd) with
    | Ok code => (MkStateDatabase (sd_db sd) (lru_Add h (Z.of_nat (length code)) (codeSizeCache sd))
                    (cache_Set h code (codeCache sd)), Ok code)
    | r => (sd, r) end →
    p.2 = read_code h (sd_db sd) ∧ code_coherent p.1 ∧ sd_db p.1 = sd_db sd) as Hload.
  { intros p ->. destruct (read_code h (sd_db sd)) as [code| | |] eqn:Hr; [|by split_and!..].
    split_and!; [done| |done]. split; simpl.
    - intros h' c [[-> ->]|E]%cache_Get_Set; [by right|]. by apply Hc.
    - intros h' n [[-> ->]|E]%lru_lookup_Add; [by eexists|]. by apply Hs. }
  destruct (cache_Get (codeCache sd) h) as [[|b code]|] eqn:El; [by apply Hload| |by apply Hload].
  destruct (Hc _ _ El) as [?|E]; [done|]. by rewrite E.
Qed.

Lemma sd_ContractCodeSize_lemma h sd :
  code_coherent sd →
  reads_code (c ← read_code h (sd_db sd); Ok (Z.of_nat (length c))) sd (sd_ContractCodeSize h sd).
Proof.
  intros [Hc Hs]. unfold sd_ContractCodeSize, lru_Get.
  set (sd1 := set_codeSizeCache (lru_touch h (codeSizeCache sd)) sd).
  assert (code_coherent sd1) as Hco.
  { split; [done|]. intros h' n. simpl. rewrite lru_lookup_touch. apply Hs. }
  destruct (lru_lookup h (codeSizeCache sd)) as [n|] eqn:El.
  - destruct (Hs _ _ El) as (c & E & ->). rewrite E. by split_and!.
  - destruct (sd_ContractCode_lemma h sd1 Hco) as (E & Hco' & Hd).
    destruct (sd_ContractCode h sd1) as [sd2 r] eqn:Ec. unfold reads_code. simpl in *.
    rewrite <- E. unfold mbind at 1 3 4, stateM_bind. rewrite Ec. by destruct r; split_and!.
Qed.

Lemma same_leafdb_tables sd sd' :
  code_coherent sd → code_coherent sd' → sd_db sd' = sd_db sd → same_leafdb sd sd'.
Proof.
  intros Hco Hco' Hd. split_and!; simpl.
  - intros h. destruct (sd_ContractCode_lemma h sd Hco) as [-> _].
    destruct (sd_ContractCode_lemma h sd' Hco') as [-> _]. by rewrite Hd.
  - intros a b. unfold sd_StateAccount. by rewrite Hd.
  - intros a k b. unfold sd_StorageValue. by rewrite Hd.
Qed.

#[export] Instance state_database_laws : LeafDatabaseLaws.
Proof.
  refine {| ldb_inv := code_coherent : @leafdb state_database_ops → Prop |}.
  - intros h d Hco. destruct (sd_ContractCode_lemma h d Hco) as (E & Hco' & Hd).
    split_and!; [done|by apply same_leafdb_tables|]. simpl in *. rewrite E. apply sd_read_code_returns.
  - intros h d Hco. destruct (sd_ContractCodeSize_lemma h d Hco) as (E & Hco' & Hd).
    split; [done|by apply same_leafdb_tables].
  - intros h d Hco. simpl in *. destruct (sd_ContractCodeSize_lemma h d Hco) as [-> _].
    by destruct (sd_ContractCode_lemma h d Hco) as [-> _].
  - intros a b d _. simpl. unfold sd_StateAccount.
    pose proof (GetStateAccount_returns (Hash_Hex a) (Hash_Hex b) (sd_db d)) as Hr.
    destruct (GetStateAccount _ _ _) as [r| | |]; [|done..]. simpl. by destruct (row_Removed r).
  - intros a k b d _. simpl. unfold sd_StorageValue.
    pose proof (GetStorageSlot_returns (Hash_Hex a) (Hash_Hex k) (Hash_Hex b) (sd_db d)) as Hr.
    destruct (GetStorageSlot _ _ _ _) as [r| | |]; [|done..]. simpl. by destruct (_ || _).
Defined.

(** ** What the tables say *)

(** The row the indexer writes for an account. *)
Definition account_row (acc : StateAccount) : StateAccountResult :=
  MkStateAccountResult (decimal (acc_Balance acc)) (acc_Nonce acc) (Hash_Hex (acc_CodeHash acc))
    (Hash_Hex (acc_Root acc)) false.

(** C37: [StateAccount] reads back the account a row was written for, whatever its
    balance; a removed row is no account, and an error of the query is passed on. *)
Theorem StateAccount_roundtrip addrHash blockHash sd acc :
  length (acc_Root acc) = hashLen → length (acc_CodeHash acc) = hashLen →
  match GetStateAccount (Hash_Hex addrHash) (Hash_Hex blockHash) (sd_db sd) with
  | Ok row =>
      (row = account_row acc → sd_StateAccount addrHash blockHash sd = Ok (Some acc))
      ∧ (row_Removed row = true → sd_StateAccount addrHash blockHash sd = Ok None)
  | Err err => sd_StateAccount addrHash blockHash sd = Err err
  | Panic _ | OutOfFuel => False
  end.
Proof.
  intros Hr Hc. unfold sd_StateAccount.
  pose proof (GetStateAccount_returns (Hash_Hex addrHash) (Hash_Hex blockHash) (sd_db sd)) as Hret.
  destruct (GetStateAccount _ _ _) as [row|err| |]; try done. mred. split.
  - intros ->. simpl. rewrite big_SetString_decimal, !HexToHash_Hex by done. by destruct acc.
  - by intros ->.
Qed.

Lemma NewStateDatabase_coherent d : code_coherent (NewStateDatabase d).
Proof.
  split; intros h c; simpl; [by rewrite cache_New_empty|by rewrite lru_New_empty].
Qed.
End database.
