(* ===== verification/LeafObject.v ===== *)
(** * State objects of direct_by_leaf: state_object.go

    Every method is a computation on the pair of the [StateDB] ([s.db]) and the
    object itself.  [Value] only panics and is left out. *)
From S2P Require Import Prelude Errors Geth AccessList StateData StateOps StateObject LeafData.
Local Open Scope Z_scope.

Section object.
Context `{RlpOps, CryptoOps, LeafDatabaseOps, RangeOps}.

(** A method of an object. *)
Abbreviation O_ := (stateM (StateDB * stateObject) error).

(** [empty]: EIP-161 emptiness. *)
Definition empty (s : stateObject) : bool :=
  bool_decide (acc_Nonce (data s) = 0) && bool_decide (acc_Balance (data s) = 0)
  && bool_decide (acc_CodeHash (data s) = emptyCodeHash).

Definition newObject (addr : bytes) (a : accountValue) (blockHash : bytes) : stateObject :=
  let root := if bool_decide (av_Root a = zeroHash) then emptyRoot else av_Root a in
  MkObject addr (keccak256 addr) blockHash
    (MkStateAccount (av_Nonce a) (default 0 (av_Balance a)) root (default emptyCodeHash (av_CodeHash a)))
    None None ∅ ∅ ∅ None false false false.

Definition markSuicided : O_ unit := on_self (upd_suicided (λ _, true)).

Definition so_append (e : journalEntry) : O_ unit := on_sdb (upd_journal (journal_append e)).

Definition touch : O_ unit :=
  addr ← self address;
  _ ← so_append (touchChange addr);
  if bool_decide (addr = ripemd) then on_sdb (upd_journal (journal_dirty addr)) else mret tt.

(** [db.StorageValue(s.addrHash, keyHash, s.blockHash)]; an error comes back as a value. *)
Definition read_slot (key : bytes) : O_ (bytes + error) := λ p,
  let '(s, o) := p in
  (p, catch (ldb_StorageValue (addrHash o) (keccak256 key) (blockHash o) (db s))).

(** The stored slot is decoded as in trie_by_cid/state; an error leaves zero. *)
Definition cache_slot (key enc : bytes) : O_ bytes :=
  let '(value, err) := slot_value enc in
  _ ← match err with Some err => on_self (so_setError err) | None => mret tt end;
  _ ← on_self (upd_origin <[key := value]>);
  mret value.

Definition so_GetCommittedState (key : bytes) : O_ bytes :=
  o ← self id;
  match fakeStorage o with
  | Some fake => mret (default zeroHash (fake !! key))
  | None =>
  match originStorage o !! key with
  | Some value => mret value
  | None =>
      r ← read_slot key;
      match r with
      | inr err => _ ← on_self (so_setError err); mret zeroHash
      | inl enc => cache_slot key enc
      end
  end
  end.

Definition so_GetState (key : bytes) : O_ bytes :=
  o ← self id;
  match fakeStorage o with
  | Some fake => mret (default zeroHash (fake !! key))
  | None =>
  match dirtyStorage o !! key with
  | Some value => mret value
  | None => so_GetCommittedState key
  end
  end.

Definition so_setState (key value : bytes) : O_ unit := on_self (upd_dirty <[key := value]>).

Definition so_SetState (key value : bytes) : O_ unit :=
  o ← self id;
  match fakeStorage o with
  | Some fake => on_self (upd_fake (λ _, Some (<[key := value]> fake)))
  | None =>
      prev ← so_GetState key;
      if bool_decide (prev = value) then mret tt
      else
        addr ← self address;
        _ ← so_append (storageChange addr key prev);
        so_setState key value
  end.

(** [SetStorage]: later entries win, and no journal entry is made. *)
Definition so_SetStorage (storage : Storage) : O_ unit :=
  on_self (upd_fake (λ fake, Some (storage ∪ default ∅ fake))).

Definition so_setBalance (amount : Z) : O_ unit := on_self (upd_data (acc_set_Balance amount)).

Definition so_SetBalance (amount : Z) : O_ unit :=
  o ← self id;
  _ ← so_append (balanceChange (address o) (acc_Balance (data o)));
  so_setBalance amount.

Definition so_AddBalance (amount : Z) : O_ unit :=
  o ← self id;
  if bool_decide (amount = 0) then (if empty o then touch else mret tt)
  else so_SetBalance (acc_Balance (data o) + amount).

Definition so_SubBalance (amount : Z) : O_ unit :=
  if bool_decide (amount = 0) then mret tt
  else o ← self id; so_SetBalance (acc_Balance (data o) - amount).

(** Run a method of the shared database. *)
Definition on_db {A} (m : stateM leafdb error A) : O_ (A + error) :=
  try_on (λ p : StateDB * stateObject, db p.1) (λ d p, (upd_db (λ _, d) p.1, p.2)) m.

(** [Code]: a failed load gives nil and is remembered by the object. *)
Definition Code : O_ (option bytes) :=
  o ← self id;
  match code o with
  | Some c => mret (Some c)
  | None =>
      if bool_decide (acc_CodeHash (data o) = emptyCodeHash) then mret None
      else
        r ← on_db (ldb_ContractCode (BytesToHash (acc_CodeHash (data o))));
        match r with
        | inl c => _ ← on_self (upd_code (λ _, Some c)); mret (Some c)
        | inr err =>
            _ ← on_self (so_setError (ErrLoadCode (acc_CodeHash (data o)) err));
            _ ← on_self (upd_code (λ _, None)); mret None
        end
  end.

Definition CodeSize : O_ Z :=
  o ← self id;
  match code o with
  | Some c => mret (Z.of_nat (length c))
  | None =>
      if bool_decide (acc_CodeHash (data o) = emptyCodeHash) then mret 0
      else
        r ← on_db (ldb_ContractCodeSize (BytesToHash (acc_CodeHash (data o))));
        match r with
        | inl size => mret size
        | inr err => _ ← on_self (so_setError (ErrLoadCodeSize (acc_CodeHash (data o)) err)); mret 0
        end
  end.

Definition so_setCode (codeHash : bytes) (c : option bytes) : O_ unit :=
  on_self (λ o, upd_dirtyCode (λ _, true)
                  (upd_data (acc_set_CodeHash codeHash) (upd_code (λ _, c) o))).

Definition so_SetCode (codeHash : bytes) (c : option bytes) : O_ unit :=
  prevcode ← Code;
  o ← self id;
  _ ← so_append (codeChange (address o) prevcode (acc_CodeHash (data o)));
  so_setCode codeHash c.

Definition so_setNonce (nonce : Z) : O_ unit := on_self (upd_data (acc_set_Nonce nonce)).

Definition so_SetNonce (nonce : Z) : O_ unit :=
  o ← self id;
  _ ← so_append (nonceChange (address o) (acc_Nonce (data o)));
  so_setNonce nonce.

(** [finalise]: the dirty slots become pending. *)
Definition so_finalise (o : stateObject) : stateObject :=
  upd_dirty (λ _, ∅) (upd_pending (λ p, dirtyStorage o ∪ p) o).

(** [deepCopy]; the new object belongs to the [StateDB] the caller gives it to.
    The recorded error and the fake storage are not copied. *)
Definition deepCopy (s : stateObject) : stateObject :=
  let o := newObject (address s) (account_value (data s)) (blockHash s) in
  MkObject (address o) (addrHash o) (blockHash o) (data o) (so_dbErr o) (code s)
    (Storage_Copy (originStorage s)) (Storage_Copy (pendingStorage s)) (Storage_Copy (dirtyStorage s))
    (fakeStorage o) (dirtyCode s) (suicided s) (deleted s).
End object.
