(* ===== verification/LeafDB.v ===== *)
(** * The StateDB of direct_by_leaf: statedb.go and the undo operations of journal.go

    As in StateDB.v, a pointer returned by [getStateObject] is the object found
    under its address in [stateObjects], and [on_obj] runs a method on it and
    writes it back.  [ForEachStorage] only panics and is left out. *)
From S2P Require Import Prelude Errors Geth AccessList StateData StateOps StateDB LeafData LeafObject.
Import AccessList(AddAddress, AddSlot, DeleteSlot, DeleteAddress, ContainsAddress, Contains).
Import TransientStorage(newTransientStorage, ts_Set, ts_Get).
Local Open Scope Z_scope.

Section statedb.
Context `{RlpOps, CryptoOps, LeafDatabaseOps, RangeOps}.

(** Methods of the [StateDB] and of an object. *)
Abbreviation S_ := (stateM StateDB error).
Abbreviation O_ := (stateM (StateDB * stateObject) error).

Definition New (blockHash : bytes) (d : leafdb) : result StateDB :=
  Ok (MkStateDB d blockHash ∅ ∅ ∅ ∅ None 0 zeroHash 0 ∅ 0 ∅ newAccessList newTransientStorage
        newJournal [] 0).

(** ** Finding and making objects *)

Definition setStateObject (o : stateObject) (s : StateDB) : StateDB :=
  upd_objects <[address o := o]> s.

Definition on_obj {A} (o : stateObject) (m : O_ A) : S_ A := λ s,
  let '((s', o'), r) := m (s, o) in (setStateObject o' s', r).

Definition append (e : journalEntry) : S_ unit := modify (upd_journal (journal_append e)).

(** [s.db.StateAccount(addrHash, s.originBlockHash)]; a missing row is an error. *)
Definition load_account (addr : bytes) : S_ (option StateAccount) := λ s,
  match ldb_StateAccount (keccak256 addr) (originBlockHash s) (db s) with
  | Ok acc => (s, Ok acc)
  | Err err => (setError (ErrGetStateObject addr err) s, Ok None)
  | Panic w => (s, Panic w)
  | OutOfFuel => (s, OutOfFuel)
  end.

Definition getDeletedStateObject (addr : bytes) : S_ (option stateObject) :=
  live ← gets (λ s, stateObjects s !! addr);
  match live with
  | Some obj => mret (Some obj)
  | None =>
      acc ← load_account addr;
      match acc with
      | None => mret None
      | Some a =>
          bh ← gets originBlockHash;
          let obj := newObject addr (account_value a) bh in
          _ ← modify (setStateObject obj);
          mret (Some obj)
      end
  end.

Definition getStateObject (addr : bytes) : S_ (option stateObject) :=
  obj ← getDeletedStateObject addr;
  mret (o ← obj; if deleted o then None else Some o).

(** The new object, and the previous one unless it was deleted. *)
Definition createObject (addr : bytes) : S_ (stateObject * option stateObject) :=
  prev ← getDeletedStateObject addr;
  prevdestruct ← match prev with
    | None => mret false
    | Some p =>
        was ← gets (λ s, bool_decide (address p ∈ stateObjectsDestruct s));
        _ ← (if was : bool then mret tt else modify (upd_destruct (union {[address p]})));
        mret was
    end;
  bh ← gets originBlockHash;
  let newobj := newObject addr zeroAccount bh in
  _ ← append match prev with
             | None => createObjectChange addr
             | Some p => resetObjectChange p prevdestruct
             end;
  _ ← modify (setStateObject newobj);
  mret (newobj, p ← prev; if deleted p then None else Some p).

Definition getOrNewStateObject (addr : bytes) : S_ stateObject :=
  obj ← getStateObject addr;
  match obj with
  | Some o => mret o
  | None => r ← createObject addr; mret r.1
  end.

Definition CreateAccount (addr : bytes) : S_ unit :=
  '(newobj, prev) ← createObject addr;
  match prev with
  | Some p => on_obj newobj (so_setBalance (acc_Balance (data p)))
  | None => mret tt
  end.

(** ** Logs, preimages and refunds *)

Definition AddLog (log : Log) : S_ unit :=
  th ← gets thash;
  _ ← append (addLogChange th);
  _ ← modify (λ s,
    let log := MkLog (log_Payload log) th (u64 (txIndex s)) (logSize s)
                 (log_BlockNumber log) (log_BlockHash log) in
    upd_logs <[th := default [] (logs s !! th) ++ [log]]> s);
  modify (upd_logSize (λ n, u64 (n + 1))).

Definition AddPreimage (hash preimage : bytes) : S_ unit :=
  known ← gets (λ s, preimages s !! hash);
  match known with
  | Some _ => mret tt
  | None =>
      _ ← append (addPreimageChange hash);
      modify (upd_preimages <[hash := preimage]>)
  end.

Definition AddRefund (gas : Z) : S_ unit :=
  r ← gets refund;
  _ ← append (refundChange r);
  modify (upd_refund (λ r, u64 (r + gas))).

Definition SubRefund (gas : Z) : S_ unit :=
  r ← gets refund;
  _ ← append (refundChange r);
  if bool_decide (r < gas) then lift (Panic "Refund counter below zero")
  else modify (upd_refund (λ r, r - gas)).

Definition GetRefund : S_ Z := gets refund.

(** ** Getters *)

(** [if stateObject != nil { return m(stateObject) }; return none]. *)
Definition with_object {A} (addr : bytes) (m : O_ A) (none : A) : S_ A :=
  obj ← getStateObject addr;
  match obj with
  | Some o => on_obj o m
  | None => mret none
  end.

Definition Exist (addr : bytes) : S_ bool := with_object addr (mret true) false.
Definition Empty (addr : bytes) : S_ bool := with_object addr (self empty) true.
Definition GetBalance (addr : bytes) : S_ Z := with_object addr (self (λ o, acc_Balance (data o))) 0.
Definition GetNonce (addr : bytes) : S_ Z := with_object addr (self (λ o, acc_Nonce (data o))) 0.
Definition GetCode (addr : bytes) : S_ (option bytes) := with_object addr Code None.
Definition GetCodeSize (addr : bytes) : S_ Z := with_object addr CodeSize 0.
Definition GetCodeHash (addr : bytes) : S_ bytes :=
  with_object addr (self (λ o, BytesToHash (acc_CodeHash (data o)))) zeroHash.
Definition GetState (addr key : bytes) : S_ bytes := with_object addr (so_GetState key) zeroHash.
Definition GetCommittedState (addr key : bytes) : S_ bytes :=
  with_object addr (so_GetCommittedState key) zeroHash.
Definition HasSuicided (addr : bytes) : S_ bool := with_object addr (self suicided) false.

(** ** Setters *)

(** [getOrNewStateObject] never returns nil. *)
Definition with_new_object {A} (addr : bytes) (m : O_ A) : S_ A :=
  o ← getOrNewStateObject addr; on_obj o m.

Definition AddBalance (addr : bytes) (amount : Z) : S_ unit := with_new_object addr (so_AddBalance amount).
Definition SubBalance (addr : bytes) (amount : Z) : S_ unit := with_new_object addr (so_SubBalance amount).
Definition SetBalance (addr : bytes) (amount : Z) : S_ unit := with_new_object addr (so_SetBalance amount).
Definition SetNonce (addr : bytes) (nonce : Z) : S_ unit := with_new_object addr (so_SetNonce nonce).
(** [code] is [None] for the nil slice, which hashes as the empty one. *)
Definition SetCode (addr : bytes) (code : option bytes) : S_ unit :=
  with_new_object addr (so_SetCode (keccak256 (default [] code)) code).
Definition SetState (addr key value : bytes) : S_ unit := with_new_object addr (so_SetState key value).

Definition SetStorage (addr : bytes) (storage : Storage) : S_ unit :=
  _ ← modify (upd_destruct (union {[addr]}));
  with_new_object addr (so_SetStorage storage).

Definition Suicide (addr : bytes) : S_ bool :=
  obj ← getStateObject addr;
  match obj with
  | None => mret false
  | Some o =>
      _ ← append (suicideChange addr (suicided o) (acc_Balance (data o)));
      _ ← on_obj o (_ ← markSuicided; so_setBalance 0);
      mret true
  end.

Definition setTransientState (addr key value : bytes) : S_ unit :=
  modify (upd_transient (ts_Set addr key value)).
Definition GetTransientState (addr key : bytes) : S_ bytes := gets (λ s, ts_Get addr key (transient s)).

Definition SetTransientState (addr key value : bytes) : S_ unit :=
  prev ← GetTransientState addr key;
  if bool_decide (prev = value) then mret tt
  else
    _ ← append (transientStorageChange addr key prev);
    setTransientState addr key value.

Definition SetTxContext (th : bytes) (ti : Z) : S_ unit :=
  _ ← modify (upd_thash (λ _, th)); modify (upd_txIndex (λ _, ti)).

(** ** The access list *)

Definition AddAddressToAccessList (addr : bytes) : S_ unit :=
  al ← gets access;
  let '(al, added) := AddAddress addr al in
  _ ← modify (upd_access (λ _, al));
  if added : bool then append (accessListAddAccountChange addr) else mret tt.

Definition AddSlotToAccessList (addr slot : bytes) : S_ unit :=
  al ← gets access;
  '(al, (addrMod, slotMod)) ← lift (AddSlot addr slot al);
  _ ← modify (upd_access (λ _, al));
  _ ← (if addrMod : bool then append (accessListAddAccountChange addr) else mret tt);
  if slotMod : bool then append (accessListAddSlotChange addr slot) else mret tt.

Definition AddressInAccessList (addr : bytes) : S_ bool := gets (λ s, ContainsAddress addr (access s)).
Definition SlotInAccessList (addr slot : bytes) : S_ (bool * bool) :=
  al ← gets access; lift (Contains addr slot al).

(** [Prepare] builds the same list as that of trie_by_cid/state. *)
Definition Prepare (rules : Rules) (sender coinbase : bytes) (dst : option bytes)
    (precompiles : list bytes) (list : list (bytes * list bytes)) : S_ unit :=
  _ ← (if IsBerlin rules then
         al ← lift (prepared rules sender coinbase dst precompiles list);
         modify (upd_access (λ _, al))
       else mret tt);
  modify (upd_transient (λ _, newTransientStorage)).

(** ** Undoing (journal.go) *)

(** [s.getStateObject(addr).m()]: nil panics. *)
Definition must_object {A} (addr : bytes) (m : O_ A) : S_ A :=
  obj ← getStateObject addr;
  match obj with
  | Some o => on_obj o m
  | None => lift (Panic "nil pointer dereference")
  end.

(** Undoing a [resetObjectChange] ignores [prevdestruct]. *)
Definition revert_entry (e : journalEntry) : S_ unit :=
  match e with
  | createObjectChange account =>
      _ ← modify (upd_objects (base.delete account));
      modify (upd_dirtys (λ X, X ∖ {[account]}))
  | resetObjectChange prev prevdestruct => modify (setStateObject prev)
  | suicideChange account prev prevbalance =>
      obj ← getStateObject account;
      match obj with
      | Some o => on_obj o (_ ← on_self (upd_suicided (λ _, prev)); so_setBalance prevbalance)
      | None => mret tt
      end
  | touchChange _ => mret tt
  | balanceChange account prev => must_object account (so_setBalance prev)
  | nonceChange account prev => must_object account (so_setNonce prev)
  | codeChange account prevcode prevhash =>
      must_object account (so_setCode (BytesToHash prevhash) prevcode)
  | storageChange account key prevalue => must_object account (so_setState key prevalue)
  | transientStorageChange account key prevalue => setTransientState account key prevalue
  | refundChange prev => modify (upd_refund (λ _, prev))
  | addLogChange txhash =>
      ls ← gets (λ s, default [] (logs s !! txhash));
      _ ← match ls with
          | [] => lift (Panic "slice bounds out of range")
          | [_] => modify (upd_logs (base.delete txhash))
          | _ => modify (upd_logs <[txhash := take (length ls - 1) ls]>)
          end;
      modify (upd_logSize (λ n, u64 (n - 1)))
  | addPreimageChange hash => modify (upd_preimages (base.delete hash))
  | accessListAddAccountChange address => modify (upd_access (DeleteAddress address))
  | accessListAddSlotChange address slot =>
      al ← gets access;
      al ← lift (DeleteSlot address slot al);
      modify (upd_access (λ _, al))
  end.

(** Drop the dirty tracking an entry induced. *)
Definition untrack (e : journalEntry) (j : journal) : journal :=
  match dirtied e with
  | None => j
  | Some a =>
      let n := default 0 (dirties j !! a) - 1 in
      MkJournal (entries j)
        (if bool_decide (n = 0) then base.delete a (dirties j) else <[a := n]> (dirties j))
  end.

Definition journal_revert (snapshot : nat) : S_ unit :=
  es ← gets (λ s, entries (jrnl s));
  if bool_decide (length es < snapshot)%nat then lift (Panic "slice bounds out of range")
  else
    _ ← iterM (λ e, _ ← revert_entry e; modify (upd_journal (untrack e))) (rev (drop snapshot es));
    modify (upd_journal (λ j, MkJournal (take snapshot es) (dirties j))).

(** ** Snapshots *)

Definition Snapshot : S_ Z :=
  id ← gets nextRevisionId;
  _ ← modify (upd_nextRevisionId (Z.add 1));
  _ ← modify (λ s, upd_revisions (λ rs, rs ++ [MkRevision id (journal_length (jrnl s))]) s);
  mret id.

Definition RevertToSnapshot (revid : Z) : S_ unit :=
  revs ← gets validRevisions;
  let idx := sort_Search (length revs) 0 (length revs)
               (λ i, match revs !! i with Some r => bool_decide (revid ≤ rev_id r) | None => true end) in
  match revs !! idx with
  | Some r =>
      if bool_decide (rev_id r = revid) then
        _ ← journal_revert (journalIndex r);
        modify (upd_revisions (take idx))
      else lift (Panic "revision id cannot be reverted")
  | None => lift (Panic "revision id cannot be reverted")
  end.

(** ** Ending a transaction *)

Definition clearJournalAndRefund (s : StateDB) : StateDB :=
  let s := match entries (jrnl s) with
           | [] => s
           | _ => upd_refund (λ _, 0) (upd_journal (λ _, newJournal) s)
           end in
  upd_revisions (λ _, []) s.

(** One turn of the loop of [Finalise]. *)
Definition finalise_one (deleteEmptyObjects : bool) (addr : bytes) : S_ unit :=
  found ← gets (λ s, stateObjects s !! addr);
  match found with
  | None => mret tt
  | Some obj =>
      _ ← (if suicided obj || (deleteEmptyObjects && empty obj) then
             modify (λ s, upd_destruct (union {[address obj]})
                            (upd_objects <[addr := upd_deleted (λ _, true) obj]> s))
           else modify (upd_objects <[addr := so_finalise obj]>));
      modify (λ s, upd_dirtys (union {[addr]}) (upd_pendings (union {[addr]}) s))
  end.

Definition Finalise (deleteEmptyObjects : bool) : S_ unit :=
  dirty ← gets (λ s, (range (dirties (jrnl s))).*1);
  _ ← iterM (finalise_one deleteEmptyObjects) dirty;
  modify clearJournalAndRefund.

(** ** Copying *)

(** Copy one object into the objects of the copy, unless it is there. *)
Definition copy_object (s : StateDB) (addr : bytes) (objs : gmap bytes stateObject)
    : result (gmap bytes stateObject) :=
  match objs !! addr with
  | Some _ => Ok objs
  | None =>
      match stateObjects s !! addr with
      | None => Panic "nil pointer dereference"
      | Some o => Ok (<[addr := deepCopy o]> objs)
      end
  end.

Definition Copy (s : StateDB) : result StateDB :=
  let dirty := filter (λ a, is_Some (stateObjects s !! a)) (range (dirties (jrnl s))).*1 in
  objs ← foldM (copy_object s) dirty ∅;
  objs ← foldM (copy_object s) (range_set (stateObjectsPending s)) objs;
  objs ← foldM (copy_object s) (range_set (stateObjectsDirty s)) objs;
  Ok (MkStateDB (db s) (originBlockHash s) objs
        (list_to_set dirty ∪ stateObjectsPending s) (list_to_set dirty ∪ stateObjectsDirty s)
        (stateObjectsDestruct s) None (refund s) zeroHash 0 (logs s) (logSize s) (preimages s)
        (AccessList.al_Copy (access s)) (TransientStorage.ts_Copy (transient s)) newJournal [] 0).
End statedb.
