(* ===== verification/LeafSim.v ===== *)
(** * The two StateDBs related

    direct_by_leaf is to show the EVM what trie_by_cid/state shows it.  This file
    relates the states of the two packages: over tables that hold the leaves of
    the tries, related states have the same accounts, slots and code, and
    journals that undo related changes.  LeafOps.v shows that every operation
    preserves the relation. *)
From S2P Require Import Prelude Errors Geth AccessList LeafData LeafObject LeafDB.
From S2P Require Import StateOps Prefetcher StateData StateObject StateDB StateView StateReads Undo.
Import TransientStorage(ts_Get).
Local Open Scope Z_scope.

(** A state and an object of direct_by_leaf. *)
Abbreviation leafObject := LeafData.stateObject.

Section sim.
Context `{RlpOps, CryptoOps, CommonOps, TrieOps, !DatabaseOps, SnapOps, RangeOps, SchedOps}.
Context `{LeafDatabaseOps, !LeafDatabaseLaws, !CryptoLaws, !TrieLaws, !DatabaseLaws, !SnapLaws}.

Abbreviation leafDB := LeafData.StateDB.

(** The tables, the block they are read at, and the trie state they agree with. *)
Context (L0 : leafdb) (B : bytes) (T0 : StateDB).

(** ** What the tables hold *)

Definition account0 (a : bytes) : option StateAccount :=
  match ldb_StateAccount (keccak256 a) B L0 with Ok acc => acc | _ => None end.
Definition slot0 (a k : bytes) : bytes :=
  match ldb_StorageValue (keccak256 a) (keccak256 k) B L0 with
  | Ok enc => (slot_value enc).1
  | _ => zeroHash
  end.
Definition code0 (h : bytes) : option bytes :=
  match (ldb_ContractCode h L0).2 with Ok c => Some c | _ => None end.

(** The environment of the tries; [d] tells whether the address was destructed. *)
Definition env0 (d : bool) (a : bytes) : env :=
  MkEnv (db T0) (originalRoot T0) (snap T0) (if d then {[a]} else ∅).

(** The same accounts, the same slots of every account and none besides, the
    same code. *)
Record tables_agree : Prop := {
  ta_account a :
    match account0 a, account_at T0 a with
    | Some acc, Some v =>
        acc_Nonce acc = av_Nonce v ∧ acc_Balance acc = default 0 (av_Balance v)
        ∧ acc_CodeHash acc = default EmptyCodeHash (av_CodeHash v)
    | None, None => True
    | _, _ => False
    end;
  ta_slot a k :
    slot0 a k = match account_at T0 a with
                | Some v => committed (env0 false a) (newObject a v) k
                | None => zeroHash
                end;
  ta_absent a k : account_at T0 a = None → committed (env0 false a) (newObject a zeroAccount) k = zeroHash;
  ta_code h : code0 h = match (ContractCode h (db T0)).2 with Ok c => Some c | _ => None end
}.

(** ** What a leaf object shows *)

Definition lcommitted (o : leafObject) (k : bytes) : bytes :=
  default (slot0 (LeafData.address o) k) (LeafData.originStorage o !! k).
Definition lcurrent (o : leafObject) (k : bytes) : bytes :=
  default (lcommitted o k) (LeafData.dirtyStorage o !! k).
Definition lcode (o : leafObject) : option bytes :=
  match LeafData.code o with
  | Some c => Some c
  | None =>
      if bool_decide (acc_CodeHash (LeafData.data o) = EmptyCodeHash) then None
      else code0 (BytesToHash (acc_CodeHash (LeafData.data o)))
  end.

Record lobj_ok (a : bytes) (o : leafObject) : Prop := {
  lok_address : LeafData.address o = a;
  lok_addrHash : LeafData.addrHash o = keccak256 a;
  lok_blockHash : LeafData.blockHash o = B;
  lok_fake : LeafData.fakeStorage o = None
}.

(** Related objects; [d] as in [env0]. *)
Record orel (d : bool) (o : leafObject) (p : stateObject) : Prop := {
  or_lok : lobj_ok (address p) o;
  or_ok : obj_ok (address p) p;
  or_Nonce : acc_Nonce (LeafData.data o) = acc_Nonce (data p);
  or_Balance : acc_Balance (LeafData.data o) = acc_Balance (data p);
  or_CodeHash : acc_CodeHash (LeafData.data o) = acc_CodeHash (data p);
  or_suicided : LeafData.suicided o = suicided p;
  or_llive : LeafData.deleted o = false;
  or_live : deleted p = false;
  or_code : lcode o = code_of (env0 d (address p)) p;
  or_committed k : lcommitted o k = committed (env0 d (address p)) p k;
  or_current k : lcurrent o k = current (env0 d (address p)) p k
}.

(** The object [getStateObject] finds. *)
Definition lobj_at (l : leafDB) (a : bytes) : option leafObject :=
  match LeafData.stateObjects l !! a with
  | Some o => Some o
  | None => (λ acc, LeafObject.newObject a (account_value acc) B) <$> account0 a
  end.

(** ** Related journal entries *)

(** The entries that are the same in both packages. *)
Definition simple_entry (e : journalEntry) : option LeafData.journalEntry :=
  match e with
  | createObjectChange _ | resetObjectChange _ _ => None
  | suicideChange a p b => Some (LeafData.suicideChange a p b)
  | balanceChange a b => Some (LeafData.balanceChange a b)
  | nonceChange a n => Some (LeafData.nonceChange a n)
  | storageChange a k v => Some (LeafData.storageChange a k v)
  | codeChange a c h => Some (LeafData.codeChange a c h)
  | refundChange r => Some (LeafData.refundChange r)
  | addLogChange h => Some (LeafData.addLogChange h)
  | addPreimageChange h => Some (LeafData.addPreimageChange h)
  | touchChange a => Some (LeafData.touchChange a)
  | accessListAddAccountChange a => Some (LeafData.accessListAddAccountChange a)
  | accessListAddSlotChange a x => Some (LeafData.accessListAddSlotChange a x)
  | transientStorageChange a k v => Some (LeafData.transientStorageChange a k v)
  end.

Definition entry_ok (e : journalEntry) : Prop :=
  match e with codeChange _ _ h => length h = hashLen | _ => True end.

(** An account was created where there is none, or replaced one whose slots can
    be seen again when the change is undone. *)
Inductive erel : LeafData.journalEntry → journalEntry → Prop :=
| erel_create a :
    account_at T0 a = None → erel (LeafData.createObjectChange a) (createObjectChange a)
| erel_reset o p b d :
    orel d o p → erel (LeafData.resetObjectChange o b) (resetObjectChange p d)
| erel_simple e' e : simple_entry e = Some e' → entry_ok e → erel e' e.

Lemma erel_dirtied e' e : erel e' e → LeafData.dirtied e' = dirtied e.
Proof. destruct 1 as [| |e' e He _]; [done..|]. destruct e; simplify_eq/=; done. Qed.

(** ** Related states *)

(** Access lists play no part in what else a state shows; a state without its own. *)
Definition clear (t : StateDB) : StateDB := upd_access (λ _, newAccessList) t.

Definition revision_of (r : revision) : LeafData.revision :=
  LeafData.MkRevision (rev_id r) (journalIndex r).

Record srel (l : leafDB) (t : StateDB) : Prop := {
  sr_inv : sdb_inv (clear t);
  sr_pending : stateObjectsPending t = ∅;
  sr_ldb : ldb_inv (LeafData.db l);
  sr_lsame : same_leafdb L0 (LeafData.db l);
  sr_block : LeafData.originBlockHash l = B;
  sr_db : same_db (db T0) (db t);
  sr_trie : same_reads (sdb_trie T0) (sdb_trie t);
  sr_root : originalRoot t = originalRoot T0;
  sr_snap : snap t = snap T0;
  sr_obj a : option_Forall2 (orel (bool_decide (a ∈ stateObjectsDestruct t))) (lobj_at l a) (obj_at t a);
  sr_refund : LeafData.refund l = refund t;
  sr_thash : LeafData.thash l = thash t;
  sr_txIndex : LeafData.txIndex l = txIndex t;
  sr_logs : LeafData.logs l = logs t;
  sr_logSize : LeafData.logSize l = logSize t;
  sr_preimages : LeafData.preimages l = preimages t;
  sr_access : LeafData.access l = access t;
  sr_transient a k : ts_Get a k (LeafData.transient l) = ts_Get a k (transient t);
  sr_entries : Forall2 erel (LeafData.entries (LeafData.jrnl l)) (entries (jrnl t));
  sr_dirties : LeafData.dirties (LeafData.jrnl l) = dirties (jrnl t);
  sr_revisions : LeafData.validRevisions l = revision_of <$> validRevisions t;
  sr_nextId : LeafData.nextRevisionId l = nextRevisionId t
}.

(** ** The relation and the equivalences of StateView.v *)

Lemma orel_same d o p p' :
  orel d o p → obj_same (env0 d (address p)) (env0 d (address p)) p p' → obj_ok (address p) p' → orel d o p'.
Proof.
  intros [] Hs Hok. pose proof (os_address _ _ _ _ Hs) as Ha. pose proof (os_data _ _ _ _ Hs) as Hd.
  split; rewrite <- ?Ha, <- ?Hd; try done.
  - rewrite or_suicided0. apply Hs.
  - rewrite <- or_live0. symmetry. apply Hs.
  - rewrite or_code0. apply Hs.
  - intros k. rewrite or_committed0. apply Hs.
  - intros k. rewrite or_current0. apply Hs.
Qed.

Lemma env0_at l t a :
  srel l t → same_env_at a (env_of t) (env0 (bool_decide (a ∈ stateObjectsDestruct t)) a).
Proof.
  intros Hr. split_and!; simpl; [symmetry; apply Hr|by apply (sr_root l t)|by apply (sr_snap l t)|].
  case_bool_decide; set_solver.
Qed.

Lemma account_at_base l t a : srel l t → account_at t a = account_at T0 a.
Proof.
  intros Hr. unfold account_at. rewrite (sr_snap _ _ Hr). by rewrite (proj2 (sr_trie _ _ Hr)).
Qed.

(** A read of the trie side keeps the relation. *)
Lemma srel_reads l t t' :
  srel l t → reads_to (clear t) (clear t') → access t' = access t → srel l t'.
Proof.
  intros Hr [Hs Hj Hv Hn] Ha. pose proof Hr as []. destruct Hs as [_ Hi]. simpl in *.
  split; simpl; try congruence.
  - by etrans.
  - by etrans.
  - intros a. specialize (sr_obj0 a). specialize (sm_obj a).
    change (obj_at (clear t) a) with (obj_at t a) in sm_obj.
    change (obj_at (clear t') a) with (obj_at t' a) in sm_obj.
    change (env_of (clear t)) with (env_of t) in sm_obj. change (env_of (clear t')) with (env_of t') in sm_obj.
    rewrite <- sm_destruct.
    destruct sr_obj0 as [o p Hop|]; inversion sm_obj as [? p' Hpp E1 Hp'|E1 Hp']; subst; constructor.
    symmetry in Hp'. pose proof (obj_at_ok (clear t') a p' Hi Hp') as Hok'.
    assert (address p = a) as Hpa by (rewrite (os_address _ _ _ _ Hpp); apply Hok').
    eapply orel_same; [exact Hop| |by rewrite Hpa].
    eapply obj_same_rebase; [exact Hpp| |]; rewrite Hpa; [by eapply env0_at|].
    destruct (env0_at _ _ a Hr) as (E1' & E2 & E3 & E4). simpl in *.
    split_and!; simpl; [by rewrite <- sm_db|congruence|congruence|by rewrite <- sm_destruct].
Qed.
End sim.
