(* ===== verification/LeafReads.v ===== *)
(** * Reads of related StateDBs

    A relational logic for computations of the two packages, the reads of
    direct_by_leaf, and that related states answer every question alike and stay
    related. *)
From S2P Require Import Prelude Errors Geth AccessList LeafData LeafObject LeafDB.
From S2P Require Import StateOps Prefetcher StateData StateObject StateDB StateView StateReads Revert Undo LeafSim.
Import TransientStorage(ts_Get).
Local Open Scope Z_scope.

Section reads.
Context `{RlpOps, CryptoOps, CommonOps, TrieOps, !DatabaseOps, SnapOps, RangeOps, SchedOps}.
Context `{LeafDatabaseOps, !LeafDatabaseLaws, !CryptoLaws, !TrieLaws, !DatabaseLaws, !SnapLaws}.
Context (L0 : leafdb) (B : bytes) (T0 : StateDB).
Context (Hagree : tables_agree L0 B T0) (HT0 : sdb_inv T0).

Abbreviation leafDB := LeafData.StateDB.
Abbreviation rel := (srel L0 B T0).
Abbreviation relo := (orel L0 B T0).

(** ** Related computations *)

(** Both end, with related states and values, or both panic for the same reason. *)
Definition related {A A'} (Q : leafDB → StateDB → A → A' → Prop)
    (x : leafDB * result A) (y : StateDB * result A') : Prop :=
  match x.2, y.2 with
  | Ok a, Ok b => rel x.1 y.1 ∧ Q x.1 y.1 a b
  | Panic w, Panic w' => w = w'
  | _, _ => False
  end.

(** Equal values. *)
Definition same_value {A} (_ : leafDB) (_ : StateDB) (a b : A) : Prop := a = b.

Lemma related_ret {A A'} (Q : leafDB → StateDB → A → A' → Prop) l t a b :
  rel l t → Q l t a b → related Q ((mret a : stateM leafDB error A) l) ((mret b : stateM StateDB error A') t).
Proof. done. Qed.

Lemma related_bind {A A' C C'} (Q : leafDB → StateDB → A → A' → Prop)
    (Q' : leafDB → StateDB → C → C' → Prop) (m : stateM leafDB error A) (m' : stateM StateDB error A') f g l t :
  related Q (m l) (m' t) →
  (∀ l' t' a b, rel l' t' → Q l' t' a b → related Q' (f a l') (g b t')) →
  related Q' ((m ≫= f) l) ((m' ≫= g) t).
Proof.
  unfold related, mbind, stateM_bind. destruct (m l) as [l' r], (m' t) as [t' r']. simpl.
  destruct r, r'; try done. intros [Hr HQ] Hf. exact (Hf _ _ _ _ Hr HQ).
Qed.

Lemma related_weaken {A A'} (Q Q' : leafDB → StateDB → A → A' → Prop) x y :
  related Q x y → (∀ l t a b, Q l t a b → Q' l t a b) → related Q' x y.
Proof. unfold related. destruct x.2, y.2; try done. intros [] HQ. auto. Qed.

(** A fact about the states of one side. *)
Lemma related_and {A A'} (Q : leafDB → StateDB → A → A' → Prop) (P : StateDB → Prop) x y :
  related Q x y → P y.1 → related (λ l t a b, Q l t a b ∧ P t) x y.
Proof. unfold related. destruct x.2, y.2; try done. by intros []. Qed.

(** Where one side is known to return, both do. *)
Lemma related_returns {A A'} (Q : leafDB → StateDB → A → A' → Prop) x y :
  related Q x y → (∃ a, x.2 = Ok a) →
  ∃ l t a b, x = (l, Ok a) ∧ y = (t, Ok b) ∧ rel l t ∧ Q l t a b.
Proof.
  destruct x as [l r], y as [t r']. unfold related. simpl. intros Hr [a ->]. destruct r'; try done.
  destruct Hr. by eexists l, t, _, _.
Qed.

(** A change of both states. *)
Lemma related_modify (f : leafDB → leafDB) (g : StateDB → StateDB) l t :
  rel (f l) (g t) → related same_value (modify f l) (modify g t).
Proof. done. Qed.

Lemma related_gets {A} (f : leafDB → A) (g : StateDB → A) l t :
  rel l t → f l = g t → related same_value (gets f l) (gets g t).
Proof. done. Qed.

(** A pure step that both take. *)
Lemma related_lift {A} (o : result A) l t :
  rel l t → match o with Ok _ | Panic _ => True | _ => False end →
  related same_value (lift o l) (lift o t).
Proof. by destruct o. Qed.

(** ** Finding objects *)

(** The access list is not looked at. *)
Lemma getDeletedStateObject_clear a t :
  getDeletedStateObject a (clear t) = (clear (getDeletedStateObject a t).1, (getDeletedStateObject a t).2)
  ∧ access (getDeletedStateObject a t).1 = access t.
Proof.
  unfold getDeletedStateObject, load_account, on_account_trie, try_on, gets, modify. mred. simpl.
  destruct (stateObjects t !! a); [done|]. simpl.
  destruct (option_bind _ _ _ (snap t)) as [[]|]; [done..|].
  cbn. by destruct (trie_TryGetAccount a (sdb_trie t)) as [t' [[]| | |]].
Qed.

Lemma getDeletedStateObject_rel l t a :
  rel l t →
  ∃ t', getDeletedStateObject a t = (t', Ok (obj_at t a)) ∧ rel l t'
    ∧ stateObjectsDestruct t' = stateObjectsDestruct t
    ∧ (∀ o, obj_at t a = Some o → stateObjects t' !! a = Some o)
    ∧ (obj_at t a = None → obj_at t' a = None).
Proof.
  intros Hr. destruct (getDeletedStateObject_spec (clear t) a (sr_inv _ _ _ _ _ Hr)) as (u & E & Hrt & Ho & _).
  destruct (getDeletedStateObject_clear a t) as [Ec Ea]. rewrite Ec in E. injection E as <- E2.
  change (obj_at (clear t) a) with (obj_at t a) in *.
  destruct (getDeletedStateObject a t) as [t' r]. simpl in *. subst r.
  pose proof (rt_same _ _ Hrt) as Hs.
  exists t'. split_and!; [done|by eapply srel_reads|symmetry; exact (sm_destruct _ _ Hs)|done|].
  intros Hn. pose proof (sm_obj _ _ Hs a) as Hob.
  change (obj_at (clear t) a) with (obj_at t a) in Hob. rewrite Hn in Hob. by inversion Hob.
Qed.

(** Filling the object map, and remembering an error, on the leaf side. *)
Lemma rel_load l t a o :
  rel l t → lobj_at L0 B l a = Some o → LeafData.address o = a → rel (LeafDB.setStateObject o l) t.
Proof.
  intros [] Ho Ha. split; try done. intros b. unfold lobj_at, LeafDB.setStateObject. simpl. rewrite Ha.
  specialize (sr_obj b). destruct (decide (a = b)) as [<-|Hab].
  - rewrite lookup_insert_eq. by rewrite <- Ho.
  - by rewrite lookup_insert_ne.
Qed.

Lemma rel_setError err l t : rel l t → rel (LeafData.setError err l) t.
Proof. by intros []. Qed.

Lemma lobj_at_ok l t a o : rel l t → lobj_at L0 B l a = Some o → lobj_ok B a o ∧ LeafData.deleted o = false.
Proof.
  intros Hr Ho. pose proof (sr_obj _ _ _ _ _ Hr a) as Hob. rewrite Ho in Hob.
  inversion Hob as [? p Hop E Hp|]; subst. symmetry in Hp.
  pose proof (ok_address _ _ (obj_at_ok (clear t) a p (sr_inv _ _ _ _ _ Hr) Hp)) as Ha.
  split; [|apply Hop]. rewrite <- Ha. apply Hop.
Qed.

Lemma lgetDeletedStateObject_rel l t a :
  rel l t →
  ∃ l', LeafDB.getDeletedStateObject a l = (l', Ok (lobj_at L0 B l a)) ∧ rel l' t
    ∧ LeafData.stateObjectsDestruct l' = LeafData.stateObjectsDestruct l
    ∧ (∀ o, lobj_at L0 B l a = Some o → LeafData.stateObjects l' !! a = Some o)
    ∧ (lobj_at L0 B l a = None → lobj_at L0 B l' a = None).
Proof.
  intros Hr. unfold LeafDB.getDeletedStateObject, LeafDB.load_account, gets, modify. mred. simpl.
  destruct (LeafData.stateObjects l !! a) as [o|] eqn:Ho.
  { exists l. unfold lobj_at. rewrite Ho. split_and!; try done. }
  assert (lobj_at L0 B l a = (λ acc, LeafObject.newObject a (account_value acc) B) <$> account0 L0 B a) as Hat.
  { unfold lobj_at. by rewrite Ho. }
  rewrite (sr_block _ _ _ _ _ Hr). rewrite (proj1 (proj2 (sr_lsame _ _ _ _ _ Hr))).
  pose proof (ldb_StateAccount_returns (keccak256 a) B _ (sr_ldb _ _ _ _ _ Hr)) as Hret.
  rewrite (proj1 (proj2 (sr_lsame _ _ _ _ _ Hr))) in Hret. unfold account0 in Hat.
  destruct (ldb_StateAccount (keccak256 a) B L0) as [[acc|]|err| |]; try done; rewrite Hat; simpl.
  - rewrite (sr_block _ _ _ _ _ Hr). eexists. split; [reflexivity|]. split_and!; [|done| |done].
    + by eapply (rel_load _ _ a).
    + intros o [= <-]. apply lookup_insert_eq.
  - exists l. split_and!; try done.
  - eexists. split; [reflexivity|]. split_and!; [by apply rel_setError|done|done|].
    intros _. etrans; [|exact Hat]. by unfold lobj_at.
Qed.

(** The objects found are related, and held by the maps. *)
Definition found (a : bytes) (l : leafDB) (t : StateDB) (o : option leafObject) (p : option stateObject) : Prop :=
  match o, p with
  | Some o, Some p =>
      LeafData.stateObjects l !! a = Some o ∧ stateObjects t !! a = Some p
      ∧ relo (bool_decide (a ∈ stateObjectsDestruct t)) o p
  | None, None => lobj_at L0 B l a = None ∧ obj_at t a = None
  | _, _ => False
  end.

Lemma getDeletedStateObject_related l t a :
  rel l t → related (found a) (LeafDB.getDeletedStateObject a l) (getDeletedStateObject a t).
Proof.
  intros Hr. destruct (lgetDeletedStateObject_rel l t a Hr) as (l' & El & Hr1 & _ & Hl & Hln).
  destruct (getDeletedStateObject_rel l' t a Hr1) as (t' & Et & Hr2 & Hd & Ht & Htn).
  rewrite El, Et. split; [done|]. simpl.
  destruct (sr_obj _ _ _ _ _ Hr a) as [o p Hop|]; simpl; [|by auto].
  rewrite Hd. auto.
Qed.

Lemma getStateObject_related l t a :
  rel l t → related (found a) (LeafDB.getStateObject a l) (getStateObject a t).
Proof.
  intros Hr. eapply related_bind; [by apply getDeletedStateObject_related|].
  intros l' t' o p Hr' Hf. apply related_ret; [done|].
  destruct o as [o|], p as [p|]; try done. simpl in *. destruct Hf as (Ho & Hp & Hop).
  by rewrite (or_llive _ _ _ _ _ _ Hop), (or_live _ _ _ _ _ _ Hop).
Qed.

(** ** Filling the caches of an object *)

Lemma orel_leaf d o o' p :
  relo d o p → LeafData.address o' = LeafData.address o → LeafData.addrHash o' = LeafData.addrHash o →
  LeafData.blockHash o' = LeafData.blockHash o → LeafData.fakeStorage o' = LeafData.fakeStorage o →
  LeafData.data o' = LeafData.data o → LeafData.dirtyStorage o' = LeafData.dirtyStorage o →
  LeafData.suicided o' = LeafData.suicided o → LeafData.deleted o' = LeafData.deleted o →
  lcode L0 o' = lcode L0 o → (∀ k, lcommitted L0 B o' k = lcommitted L0 B o k) → relo d o' p.
Proof.
  intros [[] ] Ha Hh Hb Hf Hd Hs Hu Hl Hc Hm. split; try congruence.
  - split; congruence.
  - intros k. unfold lcurrent. rewrite Hm, Hs. apply or_current.
Qed.

Lemma orel_origin d o p k :
  relo d o p → relo d (LeafData.upd_origin <[k := lcommitted L0 B o k]> o) p.
Proof.
  intros Ho. apply (orel_leaf d o); try done. intros l. unfold lcommitted. simpl.
  destruct (decide (k = l)) as [<-|Hkl]; [by rewrite lookup_insert_eq|by rewrite lookup_insert_ne].
Qed.

Lemma orel_setError d o p err : relo d o p → relo d (LeafData.so_setError err o) p.
Proof. intros Ho. by apply (orel_leaf d o). Qed.

Lemma orel_code d o p : relo d o p → relo d (LeafData.upd_code (λ _, lcode L0 o) o) p.
Proof.
  intros Ho. apply (orel_leaf d o); try done. unfold lcode. simpl.
  destruct (LeafData.code o); [done|]. case_bool_decide; [done|]. by destruct (code0 _ _).
Qed.

(** ** Reading methods of direct_by_leaf *)

(** Only caches of the database and of the object change. *)
Definition lreads (l : leafDB) (o : leafObject) (l' : leafDB) (o' : leafObject) : Prop :=
  (∃ d, l' = LeafData.upd_db (λ _, d) l ∧ ldb_inv d ∧ same_leafdb L0 d)
  ∧ (∀ d p, relo d o p → relo d o' p).
Definition lyields {A} (m : stateM (leafDB * leafObject) error A) (l : leafDB) (o : leafObject) (v : A) : Prop :=
  ∃ l' o', m (l, o) = ((l', o'), Ok v) ∧ lreads l o l' o'.

(** The database of a state, and an object that reads it at the right block. *)
Record lready (l : leafDB) (o : leafObject) : Prop := {
  lr_inv : ldb_inv (LeafData.db l);
  lr_same : same_leafdb L0 (LeafData.db l);
  lr_obj : lobj_ok B (LeafData.address o) o
}.

Lemma lreads_refl l o o' : lready l o → (∀ d p, relo d o p → relo d o' p) → lreads l o l o'.
Proof. intros [] Ho. split; [|done]. exists (LeafData.db l). by destruct l. Qed.

Lemma lreads_db l o o' d :
  ldb_inv d → same_leafdb L0 d → (∀ e p, relo e o p → relo e o' p) → lreads l o (LeafData.upd_db (λ _, d) l) o'.
Proof. intros Hd Hs Ho. split; [by exists d|done]. Qed.

Lemma lGetCommittedState_spec l o k :
  lready l o → lyields (LeafObject.so_GetCommittedState k) l o (lcommitted L0 B o k).
Proof.
  intros Hr. pose proof Hr as [Hi (_ & _ & Hs) [_ Hh Hb Hf]].
  unfold lyields, LeafObject.so_GetCommittedState, LeafData.self, gets. mred. simpl. rewrite Hf.
  unfold lcommitted. destruct (LeafData.originStorage o !! k) as [v|] eqn:Ho.
  { exists l, o. split; [done|]. by apply lreads_refl. }
  assert (lcommitted L0 B o k = slot0 L0 B (LeafData.address o) k) as Hc by (unfold lcommitted; by rewrite Ho).
  unfold LeafObject.read_slot. rewrite Hh, Hb, Hs. unfold slot0 in *.
  pose proof (ldb_StorageValue_returns (keccak256 (LeafData.address o)) (keccak256 k) B _ Hi) as Hret.
  rewrite Hs in Hret. destruct (ldb_StorageValue _ _ B L0) as [enc|err| |]; try done; simpl in *.
  - unfold LeafObject.cache_slot. destruct (slot_value enc) as [v [err|]]; simpl in *;
      (eexists _, _; split; [reflexivity|]); apply lreads_refl; try done; intros d p Hop.
    + rewrite <- Hc. apply (orel_leaf d (LeafData.upd_origin <[k:=lcommitted L0 B o k]> o)); try done.
      by apply orel_origin.
    + rewrite <- Hc. by apply orel_origin.
  - eexists _, _; split; [reflexivity|]. apply lreads_refl; [done|]. intros. by apply orel_setError.
Qed.

Lemma lGetState_spec l o k :
  lready l o → lyields (LeafObject.so_GetState k) l o (lcurrent L0 B o k).
Proof.
  intros Hr. pose proof Hr as [_ _ [_ _ _ Hf]].
  unfold lyields, LeafObject.so_GetState, LeafData.self, gets, lcurrent. mred. simpl. rewrite Hf.
  destruct (LeafData.dirtyStorage o !! k) as [v|]; [|by apply lGetCommittedState_spec].
  exists l, o. split; [done|]. by apply lreads_refl.
Qed.

Lemma lCode_spec l o : lready l o → lyields LeafObject.Code l o (lcode L0 o).
Proof.
  intros Hr. pose proof Hr as [Hi Hs _].
  unfold lyields, LeafObject.Code, LeafData.self, gets, emptyCodeHash. mred. simpl.
  destruct (LeafData.code o) as [c|] eqn:Ec.
  { unfold lcode. rewrite Ec. exists l, o. split; [done|]. by apply lreads_refl. }
  case_bool_decide as Hemp.
  { unfold lcode. rewrite Ec, bool_decide_true by done. exists l, o. split; [done|]. by apply lreads_refl. }
  set (h := BytesToHash _). destruct (ldb_ContractCode_reads h (LeafData.db l) Hi) as (Hd' & Hdd & Hret).
  assert (lcode L0 o = match (ldb_ContractCode h (LeafData.db l)).2 with Ok c => Some c | _ => None end) as Hc.
  { unfold lcode. rewrite Ec, bool_decide_false by done. unfold code0. by rewrite (proj1 Hs). }
  assert (same_leafdb L0 (ldb_ContractCode h (LeafData.db l)).1) as Hss.
  { destruct Hs as (A1 & B1 & C1), Hdd as (A2 & B2 & C2). split_and!; intros; congruence. }
  unfold LeafObject.on_db, try_on. simpl. destruct (ldb_ContractCode h (LeafData.db l)) as [d r]. simpl in *.
  destruct r as [c|err| |]; try done; rewrite Hc; (eexists _, _; split; [reflexivity|]);
    apply lreads_db; try done; intros e p Hop; rewrite <- Hc.
  - by apply orel_code.
  - apply (orel_leaf e (LeafData.upd_code (λ _, lcode L0 o) o)); try done. by apply orel_code.
Qed.

Lemma lCodeSize_spec l o :
  lready l o →
  lyields LeafObject.CodeSize l o (match lcode L0 o with Some c => Z.of_nat (length c) | None => 0 end).
Proof.
  intros Hr. pose proof Hr as [Hi Hs _].
  unfold lyields, LeafObject.CodeSize, LeafData.self, gets, emptyCodeHash. mred. simpl.
  unfold lcode. destruct (LeafData.code o) as [c|] eqn:Ec.
  { exists l, o. split; [done|]. by apply lreads_refl. }
  case_bool_decide as Hemp; [exists l, o; split; [done|]; by apply lreads_refl|].
  set (h := BytesToHash _). destruct (ldb_ContractCodeSize_reads h (LeafData.db l) Hi) as (Hd' & Hdd).
  pose proof (ldb_ContractCodeSize_value h (LeafData.db l) Hi) as Hv.
  destruct (ldb_ContractCode_reads h (LeafData.db l) Hi) as (_ & _ & Hret).
  assert (same_leafdb L0 (ldb_ContractCodeSize h (LeafData.db l)).1) as Hss.
  { destruct Hs as (A1 & B1 & C1), Hdd as (A2 & B2 & C2). split_and!; intros; congruence. }
  rewrite (proj1 Hs) in Hret, Hv. unfold code0.
  unfold LeafObject.on_db, try_on. simpl. destruct (ldb_ContractCodeSize h (LeafData.db l)) as [d r]. simpl in *.
  destruct (ldb_ContractCode h L0).2 as [c|err| |]; try done; simpl in Hv; subst r;
    (eexists _, _; split; [reflexivity|]); apply lreads_db; try done.
  intros e p Hop. by apply orel_setError.
Qed.

(** ** Changing related states *)

Lemma rel_caches l t t' : rel l t → caches_differ t t' → rel l t'.
Proof.
  intros Hr (d & e & pf & -> & Hd & Hdd & Hpf). eapply srel_reads; [done| |done].
  apply reads_to_caches; [apply Hr|]. by exists d, e, pf.
Qed.

Lemma rel_ldb l t d : rel l t → ldb_inv d → same_leafdb L0 d → rel (LeafData.upd_db (λ _, d) l) t.
Proof. by intros []. Qed.

(** Related objects put into both maps. *)
Lemma rel_set l t o p :
  rel l t → relo (bool_decide (address p ∈ stateObjectsDestruct t)) o p →
  rel (LeafDB.setStateObject o l) (setStateObject p t).
Proof.
  intros Hr Hop. pose proof (lok_address _ _ _ (or_lok _ _ _ _ _ _ Hop)) as Ha.
  assert (sdb_inv (clear (setStateObject p t))) as Hi.
  { change (clear (setStateObject p t)) with (setStateObject p (clear t)).
    apply sdb_inv_set; [apply Hr|apply Hop]. }
  destruct Hr. split; try done. intros b. rewrite obj_at_set.
  unfold lobj_at, LeafDB.setStateObject. simpl. rewrite Ha. destruct (decide (address p = b)) as [E|E].
  - subst b. rewrite lookup_insert_eq. by constructor.
  - rewrite lookup_insert_ne by done. apply sr_obj.
Qed.

(** Related journal entries appended to both journals. *)
Lemma rel_append l t e' e :
  rel l t → erel L0 B T0 e' e →
  rel (LeafData.upd_journal (LeafData.journal_append e') l) (upd_journal (journal_append e) t).
Proof.
  intros Hr He. pose proof (sdb_inv_journal (journal_append e) _ (sr_inv _ _ _ _ _ Hr)) as Hi.
  destruct Hr. split; try done; simpl.
  - by apply Forall2_app; [|constructor].
  - rewrite (erel_dirtied _ _ _ _ _ He), sr_dirties. by destruct (dirtied e).
Qed.

Lemma found_ready l t a o p :
  rel l t → found a l t (Some o) (Some p) →
  lready l o ∧ p_ok (t, p) ∧ address p = a ∧ LeafData.address o = a.
Proof.
  intros Hr (_ & Hp & Hop). pose proof (sr_inv _ _ _ _ _ Hr) as Hi.
  pose proof (or_lok _ _ _ _ _ _ Hop) as Hl. pose proof (lok_address _ _ _ Hl) as Hla.
  pose proof (ok_address _ _ (si_obj _ Hi a p Hp)) as Ha. split_and!; [|by destruct (live_p_ok (clear t) a p Hi Hp)|done|].
  - split; [apply Hr..|]. by rewrite Hla.
  - by rewrite Hla.
Qed.

(** After a read of both objects, the states are related with the new ones in
    the maps. *)
Lemma rel_reads l t a o p l' t' o' p' :
  rel l t → found a l t (Some o) (Some p) →
  lreads l o l' o' → oreads (t, p) (t', p') →
  rel l' t' ∧ relo (bool_decide (a ∈ stateObjectsDestruct t')) o' p'
  ∧ address p' = a ∧ LeafData.address o' = a ∧ stateObjectsDestruct t' = stateObjectsDestruct t.
Proof.
  intros Hr Hf [(d & -> & Hd & Hs) Ho] (Hc & Hpp & Hok).
  destruct (found_ready l t a o p Hr Hf) as (_ & _ & Ha & Hla). destruct Hf as (_ & _ & Hop).
  pose proof (os_address _ _ _ _ Hpp) as Ha'. simpl in *.
  assert (rel (LeafData.upd_db (λ _, d) l) t') as Hr'.
  { eapply rel_caches; [|done]. by apply rel_ldb. }
  assert (stateObjectsDestruct t' = stateObjectsDestruct t) as HD.
  { by destruct Hc as (? & ? & ? & -> & _). }
  assert (relo (bool_decide (a ∈ stateObjectsDestruct t')) o' p') as Hop'.
  { rewrite HD. apply Ho. eapply orel_same; [exact Hop| |exact Hok].
    eapply obj_same_rebase; [exact Hpp| |]; rewrite Ha; [by eapply env0_at|].
    rewrite <- HD. by eapply env0_at. }
  split_and!; [done..|congruence| |done].
  rewrite (lok_address _ _ _ (or_lok _ _ _ _ _ _ Hop')). congruence.
Qed.

(** A reading method of an object that both found. *)
Lemma on_obj_read_related {A} (m : stateM (leafDB * leafObject) error A) (m' : stateM (StateDB * stateObject) error A)
    l t a o p v :
  rel l t → found a l t (Some o) (Some p) → lyields m l o v → oyields m' (t, p) v →
  related same_value (LeafDB.on_obj o m l) (on_obj p m' t).
Proof.
  intros Hr Hf (l' & o' & El & Hl) ([t' p'] & Et & Ht).
  destruct (rel_reads l t a o p l' t' o' p' Hr Hf Hl Ht) as (Hr' & Hop & Ha & _).
  unfold LeafDB.on_obj, on_obj. rewrite El, Et. split; [|done]. simpl.
  apply rel_set; [done|]. by rewrite Ha.
Qed.

Lemma with_object_related {A} (m : stateM (leafDB * leafObject) error A) (m' : stateM (StateDB * stateObject) error A)
    none l t a (f : leafObject → A) (g : env → stateObject → A) :
  (∀ l o, lready l o → lyields m l o (f o)) →
  (∀ t p, p_ok (t, p) → oyields m' (t, p) (g (env_of t) p)) →
  (∀ E F o p, obj_same E F o p → g E o = g F p) →
  (∀ d o p, relo d o p → f o = g (env0 T0 d (address p)) p) →
  rel l t →
  related same_value (LeafDB.with_object a m none l) (with_object a m' none t).
Proof.
  intros Hm Hm' Hg Hfg Hr. eapply related_bind; [by apply getStateObject_related|].
  intros l' t' [o|] [p|] Hr' Hf; try done.
  destruct (found_ready _ _ _ _ _ Hr' Hf) as (Hl & Hp & Ha & _).
  apply (on_obj_read_related _ _ l' t' a o p (f o)); [done..|by apply Hm|].
  rewrite (Hfg _ _ _ (proj2 (proj2 Hf))).
  assert (g (env0 T0 (bool_decide (a ∈ stateObjectsDestruct t')) (address p)) p = g (env_of t') p) as ->.
  { symmetry. apply Hg, obj_same_env. rewrite Ha. by eapply env0_at. }
  by apply Hm'.
Qed.

Lemma with_object_related_pure {A} none l t a (f : leafObject → A) (g : stateObject → A) :
  (∀ E F o p, obj_same E F o p → g o = g p) → (∀ d o p, relo d o p → f o = g p) → rel l t →
  related same_value (LeafDB.with_object a (LeafData.self f) none l) (with_object a (self g) none t).
Proof.
  intros Hg Hfg. apply (with_object_related _ _ none l t a f (λ _, g)); [| |done|done].
  - intros l' o Hl. exists l', o. split; [done|]. by apply lreads_refl.
  - intros t' p Hp. exists (t', p). split; [done|by apply oreads_refl].
Qed.
End reads.
