(* ===== verification/LeafObjects.v ===== *)
(** * Changing related objects

    Creating objects in both packages, and the setters of an object. *)
From S2P Require Import Prelude Errors Geth AccessList LeafData LeafObject LeafDB.
From S2P Require Import StateOps Prefetcher StateData StateObject StateDB StateView StateReads Revert Undo.
From S2P Require Import LeafSim LeafReads.
Local Open Scope Z_scope.

Section objects.
Context `{RlpOps, CryptoOps, CommonOps, TrieOps, !DatabaseOps, SnapOps, RangeOps, SchedOps}.
Context `{LeafDatabaseOps, !LeafDatabaseLaws, !CryptoLaws, !TrieLaws, !DatabaseLaws, !SnapLaws}.
Context (L0 : leafdb) (B : bytes) (T0 : StateDB).
Context (Hagree : tables_agree L0 B T0).

Abbreviation leafDB := LeafData.StateDB.
Abbreviation rel := (srel L0 B T0).
Abbreviation relo := (orel L0 B T0).
Abbreviation found := (found L0 B T0).
Abbreviation related := (related L0 B T0).

(** ** Updates of both objects *)

Lemma committed_data E p k f : (∀ a, acc_Root (f a) = acc_Root a) → committed E (upd_data f p) k = committed E p k.
Proof. intros Hf. unfold committed, stored_slot. simpl. by rewrite Hf. Qed.

Lemma orel_data d o p f g :
  (∀ a, acc_Root (g a) = acc_Root a) →
  (∀ a, acc_CodeHash (f a) = acc_CodeHash a) → (∀ a, acc_CodeHash (g a) = acc_CodeHash a) →
  acc_Nonce (f (LeafData.data o)) = acc_Nonce (g (data p)) →
  acc_Balance (f (LeafData.data o)) = acc_Balance (g (data p)) →
  relo d o p → relo d (LeafData.upd_data f o) (upd_data g p).
Proof.
  intros Hr Hf Hg Hn Hb [[] [] ]. split; try done; simpl.
  - split; try done; simpl; by rewrite ?Hg, ?Hr.
  - by rewrite Hf, Hg.
  - unfold lcode, code_of in *. simpl. by rewrite Hf, Hg.
  - intros k. rewrite committed_data by done. apply or_committed.
  - intros k. unfold current. rewrite committed_data by done. apply or_current.
Qed.

Lemma orel_balance d o p b :
  relo d o p → relo d (LeafData.upd_data (acc_set_Balance b) o) (upd_data (acc_set_Balance b) p).
Proof. intros Ho. apply orel_data; try done. apply Ho. Qed.

Lemma orel_nonce d o p n :
  relo d o p → relo d (LeafData.upd_data (acc_set_Nonce n) o) (upd_data (acc_set_Nonce n) p).
Proof. intros Ho. apply orel_data; try done. apply Ho. Qed.

Lemma orel_suicided d o p b :
  relo d o p → relo d (LeafData.upd_suicided (λ _, b) o) (upd_suicided (λ _, b) p).
Proof. intros [[] [] ]. by split. Qed.

Lemma orel_setState d o p k v :
  relo d o p → relo d (LeafData.upd_dirty <[k := v]> o) (upd_dirty <[k := v]> p).
Proof.
  intros [[] [] ]. split; try done. intros m. specialize (or_current m). unfold lcurrent, current in *. simpl.
  destruct (decide (k = m)) as [<-|Hkm]; [by rewrite !lookup_insert_eq|by rewrite !lookup_insert_ne].
Qed.

Definition lset_code (h : bytes) (c : option bytes) (o : leafObject) : leafObject :=
  LeafData.upd_dirtyCode (λ _, true)
    (LeafData.upd_data (acc_set_CodeHash h) (LeafData.upd_code (λ _, c) o)).

Lemma orel_set_code d o p h c :
  length h = hashLen → relo d o p → relo d (lset_code h c o) (set_code h c p).
Proof.
  intros Hh [[] [] ]. split; try done.
  - unfold lcode, code_of. simpl. destruct c; [done|]. case_bool_decide; [done|].
    apply (ta_code _ _ _ Hagree).
Qed.

(** A new account: the tables hold no slot of it, and neither does the empty trie. *)
Lemma orel_new d a :
  (∀ k, slot0 L0 B a k = zeroHash) → (d = false → account_at T0 a = None) →
  relo d (LeafObject.newObject a zeroAccount B) (newObject a zeroAccount).
Proof.
  intros Hs Hd. destruct (newObject_zero_ok a).
  assert (∀ k, committed (env0 T0 d a) (newObject a zeroAccount) k = zeroHash) as Hc.
  { intros k. destruct d; [|by apply (ta_absent _ _ _ Hagree), Hd].
    unfold committed. simpl. by rewrite !lookup_empty, bool_decide_true by set_solver. }
  split; try done.
  - unfold lcode, code_of. simpl. unfold emptyCodeHash. by rewrite bool_decide_true.
  - intros k. unfold lcommitted. simpl. rewrite lookup_empty, Hc. apply Hs.
  - intros k. unfold current, lcurrent, lcommitted. simpl.
    rewrite !lookup_empty, Hc. apply Hs.
Qed.

(** ** Creating objects *)

Lemma getDeleted_both l t a :
  rel l t →
  ∃ l' t' o p, LeafDB.getDeletedStateObject a l = (l', Ok o) ∧ getDeletedStateObject a t = (t', Ok p)
    ∧ rel l' t' ∧ found a l' t' o p.
Proof.
  intros Hr. destruct (related_returns _ _ _ _ _ _ (getDeletedStateObject_related L0 B T0 l t a Hr))
    as (l' & t' & o & p & El & Et & HR); [|by exists l', t', o, p].
  destruct (lgetDeletedStateObject_rel L0 B T0 l t a Hr) as (l' & -> & _). by eexists.
Qed.

(** The leaf state after [createObject] has put the object [n]; as [created]. *)
Definition lcreated (l : leafDB) (a : bytes) (prev : option leafObject) (n : leafObject) : leafDB :=
  let l1 := match prev with
            | Some o => if bool_decide (LeafData.address o ∈ LeafData.stateObjectsDestruct l) then l
                        else LeafData.upd_destruct (union {[LeafData.address o]}) l
            | None => l
            end in
  let e := match prev with
           | None => LeafData.createObjectChange a
           | Some o => LeafData.resetObjectChange o
                         (bool_decide (LeafData.address o ∈ LeafData.stateObjectsDestruct l))
           end in
  LeafDB.setStateObject n (LeafData.upd_journal (LeafData.journal_append e) l1).

Definition llive (o : option leafObject) : option leafObject :=
  o ← o; if LeafData.deleted o then None else Some o.

Lemma lcreateObject_run l l1 a prev :
  LeafDB.getDeletedStateObject a l = (l1, Ok prev) → LeafData.originBlockHash l1 = B →
  LeafDB.createObject a l = (lcreated l1 a prev (LeafObject.newObject a zeroAccount B),
                             Ok (LeafObject.newObject a zeroAccount B, llive prev)).
Proof.
  intros E Hb. unfold LeafDB.createObject. rewrite (bind_step _ _ _ _ _ E). unfold lcreated, LeafDB.append, gets.
  destruct prev as [p|]; mred; [|by rewrite Hb]. case_bool_decide; simpl; by rewrite Hb.
Qed.

(** No account, or one the tables hold no slots of. *)
Definition storageless (a : bytes) : Prop := ∀ k, slot0 L0 B a k = zeroHash.

Lemma absent_storageless l a : lobj_at L0 B l a = None → storageless a ∧ account_at T0 a = None.
Proof.
  unfold lobj_at. destruct (LeafData.stateObjects l !! a); [done|].
  pose proof (ta_account _ _ _ Hagree a) as Ha.
  destruct (account0 L0 B a), (account_at T0 a) eqn:E; try done. intros _. split; [|done].
  intros k. by rewrite (ta_slot _ _ _ Hagree a k), E.
Qed.

(** Related objects put into both maps, their address moving in or out of the
    destructed ones. *)
Lemma rel_put l t o p f g :
  rel l t → relo (bool_decide (address p ∈ g (stateObjectsDestruct t))) o p →
  (∀ a, a ≠ address p → a ∈ g (stateObjectsDestruct t) ↔ a ∈ stateObjectsDestruct t) →
  rel (LeafDB.setStateObject o (LeafData.upd_destruct f l)) (setStateObject p (upd_destruct g t)).
Proof.
  intros Hr Hop Hg. pose proof (lok_address _ _ _ (or_lok _ _ _ _ _ _ Hop)) as Ha.
  assert (sdb_inv (clear (setStateObject p (upd_destruct g t)))) as Hi.
  { change (sdb_inv (setStateObject p (upd_destruct g (clear t)))).
    apply sdb_inv_set; [by destruct (sr_inv _ _ _ _ _ Hr)|apply Hop]. }
  destruct Hr. split; try done. intros b. rewrite obj_at_set.
  unfold lobj_at, LeafDB.setStateObject. simpl. rewrite Ha.
  destruct (decide (address p = b)) as [E|E].
  - subst b. rewrite lookup_insert_eq. by constructor.
  - rewrite lookup_insert_ne by done.
    rewrite (bool_decide_ext _ (b ∈ stateObjectsDestruct t)) by (by apply Hg). apply sr_obj.
Qed.

(** The states after both created an object at [a]. *)
Lemma rel_created l t a o p n m :
  rel l t → found a l t o p → address m = a →
  (∀ d, (d = false → account_at T0 a = None) → relo d n m) →
  rel (lcreated l a o n) (created t a p m).
Proof.
  intros Hr Hf Hm Hn. unfold lcreated, created.
  destruct o as [o|], p as [p|]; try done.
  - destruct (found_ready _ _ _ _ _ _ _ _ Hr Hf) as (_ & _ & Ha & _). destruct Hf as (_ & _ & Hop).
    rewrite Ha. case_bool_decide as Hd.
    + apply rel_set; [|by rewrite Hm, bool_decide_true; [apply Hn|]].
      assert (∀ l', (∃ f, l' = LeafData.upd_destruct f l) → rel l' t) as Hl by (intros ? [f ->]; by destruct Hr).
      apply rel_append; [|by constructor]. apply Hl. case_bool_decide; [exists id; by destruct l|by eexists].
    + assert (∀ l' e, (∃ f, l' = LeafData.upd_destruct f l) → erel L0 B T0 e (resetObjectChange p false) →
        rel (LeafDB.setStateObject n (LeafData.upd_journal (LeafData.journal_append e) l'))
          (setStateObject m (upd_journal (journal_append (resetObjectChange p false))
             (upd_destruct (union {[a]}) t)))) as Hl.
      { intros ? e [f ->] He. rewrite <- Hm. apply (rel_put _ _ n m f (union {[address m]}) (rel_append _ _ _ _ _ _ _ Hr He)); [|set_solver].
        rewrite bool_decide_true by set_solver. by apply Hn. }
      apply Hl; [|by constructor]. case_bool_decide; [exists id; by destruct l|by eexists].
  - destruct Hf as [Hl _]. destruct (absent_storageless _ _ Hl) as [_ Ha].
    apply rel_set; [apply rel_append; [done|by constructor]|]. by apply Hn.
Qed.

Lemma createObject_related l t a :
  rel l t → storageless a ∨ lobj_at L0 B l a = None →
  related (λ l t r r',
      found a l t (Some r.1) (Some r'.1)
      ∧ match r.2, r'.2 with
        | Some o, Some p => acc_Balance (LeafData.data o) = acc_Balance (data p)
        | None, None => True
        | _, _ => False
        end)
    (LeafDB.createObject a l) (createObject a t).
Proof.
  intros Hr Hs. assert (storageless a) as Hst by (destruct Hs as [?|Hn]; [done|by destruct (absent_storageless l a Hn)]).
  destruct (getDeleted_both l t a Hr) as (l1 & t1 & o & p & El & Et & Hr1 & Hf).
  rewrite (lcreateObject_run _ _ _ _ El) by apply Hr1. rewrite (createObject_run _ _ _ _ Et).
  assert (rel (lcreated l1 a o (LeafObject.newObject a zeroAccount B)) (created t1 a p (newObject a zeroAccount))) as Hc.
  { apply rel_created; [done..|]. intros d Hd. by apply orel_new. }
  split; [done|]. simpl. split.
  - split_and!; [by apply lookup_insert_eq..|].
    pose proof (sr_obj _ _ _ _ _ Hc a) as Ho. rewrite (obj_at_live _ _ (newObject a zeroAccount)) in Ho by apply lookup_insert_eq.
    unfold lobj_at in Ho. change (LeafData.stateObjects (lcreated _ _ _ _))
      with (<[a := LeafObject.newObject a zeroAccount B]> (LeafData.stateObjects
        match o with Some o => if bool_decide (LeafData.address o ∈ LeafData.stateObjectsDestruct l1) then l1
                        else LeafData.upd_destruct (union {[LeafData.address o]}) l1 | None => l1 end)) in Ho.
    rewrite lookup_insert_eq in Ho. by inversion Ho.
  - destruct o as [o|], p as [p|]; try done. destruct Hf as (_ & _ & Hop). unfold llive, live. simpl.
    rewrite (or_llive _ _ _ _ _ _ Hop), (or_live _ _ _ _ _ _ Hop). apply Hop.
Qed.

Lemma getOrNewStateObject_related l t a :
  rel l t →
  related (λ l t o p, found a l t (Some o) (Some p)) (LeafDB.getOrNewStateObject a l) (GetOrNewStateObject a t).
Proof.
  intros Hr. eapply related_bind; [by apply getStateObject_related|].
  intros l1 t1 [o|] [p|] Hr1 Hf; try done. simpl in Hf. destruct Hf as [Hl _].
  eapply related_bind; [apply createObject_related; [done|by right]|]. intros l2 t2 r r' Hr2 [Hf _].
  by apply related_ret.
Qed.

(** ** Setters of an object *)

(** A method that keeps related objects related, wherever both packages find it. *)
Definition method_related (m : stateM (leafDB * leafObject) error unit)
    (m' : stateM (StateDB * stateObject) error unit) : Prop :=
  ∀ l t a o p, rel l t → found a l t (Some o) (Some p) →
    related same_value (LeafDB.on_obj o m l) (on_obj p m' t).

Lemma with_new_object_related m m' l t a :
  method_related m m' → rel l t →
  related same_value (LeafDB.with_new_object a m l) (with_new_object a m' t).
Proof.
  intros Hm Hr. eapply related_bind; [by apply getOrNewStateObject_related|].
  intros l1 t1 o p Hr1 Hf. exact (Hm l1 t1 a o p Hr1 Hf).
Qed.

(** One journal entry, and one change of the object. *)
Lemma mutate_related l t a o p e' e f g :
  rel l t → relo (bool_decide (a ∈ stateObjectsDestruct t)) o p → address p = a →
  (∀ d, relo d o p → relo d (f o) (g p)) → address (g p) = address p → erel L0 B T0 e' e →
  rel (LeafDB.setStateObject (f o) (LeafData.upd_journal (LeafData.journal_append e') l))
      (setStateObject (g p) (upd_journal (journal_append e) t)).
Proof.
  intros Hr Hop Ha Hfg Hg He. apply rel_set; [by apply rel_append|]. rewrite Hg, Ha. by apply Hfg.
Qed.

Lemma so_SetBalance_related n : method_related (LeafObject.so_SetBalance n) (so_SetBalance n).
Proof.
  intros l t a o p Hr Hf. destruct (found_ready _ _ _ _ _ _ _ _ Hr Hf) as (_ & _ & Ha & Hla).
  split; [|done]. apply (mutate_related l t a o p _ _ (LeafData.upd_data (acc_set_Balance n)) (upd_data (acc_set_Balance n)));
    [done|apply Hf|done|by intros d; apply orel_balance|done|].
  cbv [id]. simpl. rewrite Ha, Hla, (or_Balance _ _ _ _ _ _ (proj2 (proj2 Hf))). by constructor.
Qed.

Lemma so_SetNonce_related n : method_related (LeafObject.so_SetNonce n) (so_SetNonce n).
Proof.
  intros l t a o p Hr Hf. destruct (found_ready _ _ _ _ _ _ _ _ Hr Hf) as (_ & _ & Ha & Hla).
  split; [|done]. apply (mutate_related l t a o p _ _ (LeafData.upd_data (acc_set_Nonce n)) (upd_data (acc_set_Nonce n)));
    [done|apply Hf|done|by intros d; apply orel_nonce|done|].
  cbv [id]. simpl. rewrite Ha, Hla, (or_Nonce _ _ _ _ _ _ (proj2 (proj2 Hf))). by constructor.
Qed.

Lemma keep_related : method_related (mret tt) (mret tt).
Proof.
  intros l t a o p Hr Hf. destruct (found_ready _ _ _ _ _ _ _ _ Hr Hf) as (_ & _ & Ha & _).
  split; [|done]. apply rel_set; [done|]. rewrite Ha. apply Hf.
Qed.

Lemma rel_dirty l t a :
  rel l t → rel (LeafData.upd_journal (LeafData.journal_dirty a) l) (upd_journal (journal_dirty a) t).
Proof.
  intros Hr. pose proof (sdb_inv_journal (journal_dirty a) _ (sr_inv _ _ _ _ _ Hr)) as Hi.
  destruct Hr. split; try done. simpl. by rewrite sr_dirties.
Qed.

Lemma touch_related : method_related LeafObject.touch touch.
Proof.
  intros l t a o p Hr Hf. destruct (found_ready _ _ _ _ _ _ _ _ Hr Hf) as (_ & _ & Ha & Hla).
  assert (rel (LeafData.upd_journal (LeafData.journal_append (LeafData.touchChange a)) l)
            (upd_journal (journal_append (touchChange a)) t)) as Hr1 by (apply rel_append; [done|by constructor]).
  unfold LeafDB.on_obj, on_obj, LeafObject.touch, touch, self, LeafData.self, gets, so_append, LeafObject.so_append,
    on_sdb, LeafData.on_sdb. mred. rewrite Ha, Hla.
  case_bool_decide; (split; [|done]); apply rel_set; try (simpl; rewrite Ha; apply Hf); [|done].
  exact (rel_dirty _ _ a Hr1).
Qed.

Lemma so_AddBalance_related n : method_related (LeafObject.so_AddBalance n) (so_AddBalance n).
Proof.
  intros l t a o p Hr Hf. pose proof (proj2 (proj2 Hf)) as Hop.
  unfold LeafObject.so_AddBalance, so_AddBalance, LeafDB.on_obj, on_obj, LeafData.self, self, gets. mred.
  cbv beta delta [id]. destruct (bool_decide (n = 0)).
  - assert (LeafObject.empty o = empty p) as ->.
    { unfold LeafObject.empty, empty, emptyCodeHash.
      by rewrite (or_Nonce _ _ _ _ _ _ Hop), (or_Balance _ _ _ _ _ _ Hop), (or_CodeHash _ _ _ _ _ _ Hop). }
    destruct (empty p); [exact (touch_related l t a o p Hr Hf)|exact (keep_related l t a o p Hr Hf)].
  - rewrite (or_Balance _ _ _ _ _ _ Hop). exact (so_SetBalance_related _ l t a o p Hr Hf).
Qed.

Lemma so_SubBalance_related n : method_related (LeafObject.so_SubBalance n) (so_SubBalance n).
Proof.
  intros l t a o p Hr Hf. pose proof (proj2 (proj2 Hf)) as Hop.
  unfold LeafObject.so_SubBalance, so_SubBalance. destruct (bool_decide (n = 0)).
  - exact (keep_related l t a o p Hr Hf).
  - unfold LeafDB.on_obj, on_obj, LeafData.self, self, gets. mred. cbv beta delta [id].
    rewrite (or_Balance _ _ _ _ _ _ Hop). exact (so_SetBalance_related _ l t a o p Hr Hf).
Qed.

(** A read, then one change. *)
Lemma so_SetState_related k v : method_related (LeafObject.so_SetState k v) (so_SetState k v).
Proof.
  intros l t a o p Hr Hf. destruct (found_ready _ _ _ _ _ _ _ _ Hr Hf) as (Hl & Hp & Ha & Hla).
  destruct (lGetState_spec L0 B T0 l o k Hl) as (l1 & o1 & El & Hlr).
  destruct (so_GetState_spec t p k Hp) as ([t1 p1] & Et & Htr).
  destruct (rel_reads _ _ _ l t a o p l1 t1 o1 p1 Hr Hf Hlr Htr) as (Hr1 & Hop1 & Ha1 & Hla1 & _).
  assert (lcurrent L0 B o k = current (env_of t) p k) as Hv.
  { rewrite (or_current _ _ _ _ _ _ (proj2 (proj2 Hf))). symmetry.
    apply (obj_same_env (env_of t)). rewrite Ha. by eapply env0_at. }
  unfold LeafDB.on_obj, on_obj, LeafObject.so_SetState, so_SetState.
  rewrite (bind_step (LeafData.self id) _ (l, o) (l, o) o) by done. cbv beta delta [id].
  rewrite (lok_fake _ _ _ (lr_obj _ _ _ _ Hl)). cbv beta iota.
  rewrite (bind_step _ _ _ _ _ El), (bind_step _ _ _ _ _ Et), Hv. destruct (bool_decide (_ = v)).
  - split; [|done]. apply rel_set; [done|]. by rewrite Ha1.
  - split; [|done].
    apply (mutate_related l1 t1 a o1 p1 _ _ (LeafData.upd_dirty <[k := v]>) (upd_dirty <[k := v]>));
      [done..|by intros d; apply orel_setState|done|].
    simpl. rewrite Ha1, Hla1. by constructor.
Qed.

Lemma so_SetCode_related h c : length h = hashLen → method_related (LeafObject.so_SetCode h c) (so_SetCode h c).
Proof.
  intros Hh l t a o p Hr Hf. destruct (found_ready _ _ _ _ _ _ _ _ Hr Hf) as (Hl & Hp & Ha & Hla).
  destruct (lCode_spec L0 B T0 l o Hl) as (l1 & o1 & El & Hlr).
  destruct (Code_spec t p Hp) as ([t1 p1] & Et & Htr).
  destruct (rel_reads _ _ _ l t a o p l1 t1 o1 p1 Hr Hf Hlr Htr) as (Hr1 & Hop1 & Ha1 & Hla1 & _).
  assert (lcode L0 o = code_of (env_of t) p) as Hv.
  { rewrite (or_code _ _ _ _ _ _ (proj2 (proj2 Hf))). symmetry.
    apply (obj_same_env (env_of t)). rewrite Ha. by eapply env0_at. }
  unfold LeafDB.on_obj, on_obj, LeafObject.so_SetCode, so_SetCode.
  rewrite (bind_step _ _ _ _ _ El), (bind_step _ _ _ _ _ Et), Hv.
  split; [|done].
  apply (mutate_related l1 t1 a o1 p1 _ _ (lset_code h c) (set_code h c));
    [done..|by intros d; apply orel_set_code|done|].
  cbv [id]. simpl. rewrite Ha1, Hla1, (or_CodeHash _ _ _ _ _ _ Hop1).
  constructor; [done|]. apply (or_ok _ _ _ _ _ _ Hop1).
Qed.
End objects.
