(* ===== verification/LeafOps.v ===== *)
(** * direct_by_leaf answers as trie_by_cid/state

    The operations of Snapshot.v run on both packages: each preserves the
    relation of LeafSim.v, undoing the journal included, so within a transaction
    the two StateDBs cannot be told apart. *)
From S2P Require Import Prelude Errors Geth AccessList LeafData LeafObject LeafDB.
From S2P Require Import StateOps Prefetcher StateData StateObject StateDB StateView StateReads Revert Undo Snapshot Frame.
From S2P Require Import LeafSim LeafReads LeafObjects.
Import TransientStorage(ts_Get, ts_Set, ts_Get_Set).
Local Open Scope Z_scope.

Section ops.
Context `{RlpOps, CryptoOps, CommonOps, TrieOps, !DatabaseOps, SnapOps, RangeOps, SchedOps}.
Context `{LeafDatabaseOps, !LeafDatabaseLaws, !CryptoLaws, !TrieLaws, !DatabaseLaws, !SnapLaws}.

Abbreviation leafDB := LeafData.StateDB.
Abbreviation LS_ := (stateM LeafData.StateDB error).

(** ** The questions and operations of Snapshot.v on direct_by_leaf *)

Definition leaf_ask (q : query) : LS_ (answer q) :=
  match q with
  | QExist a => LeafDB.Exist a
  | QEmpty a => LeafDB.Empty a
  | QBalance a => LeafDB.GetBalance a
  | QNonce a => LeafDB.GetNonce a
  | QCode a => LeafDB.GetCode a
  | QCodeSize a => LeafDB.GetCodeSize a
  | QCodeHash a => LeafDB.GetCodeHash a
  | QState a k => LeafDB.GetState a k
  | QCommittedState a k => LeafDB.GetCommittedState a k
  | QSuicided a => LeafDB.HasSuicided a
  | QRefund => LeafDB.GetRefund
  | QTransient a k => LeafDB.GetTransientState a k
  | QAddress a => LeafDB.AddressInAccessList a
  | QSlot a k => LeafDB.SlotInAccessList a k
  | QLogs => gets LeafData.logs
  | QPreimages => gets LeafData.preimages
  | QTxIndex => gets LeafData.txIndex
  end.

Definition leaf_discard {A} (m : LS_ A) : LS_ unit := _ ← m; mret tt.

Definition leaf_op (o : evm_op) : LS_ unit :=
  match o with
  | OpAsk q => leaf_discard (leaf_ask q)
  | OpCreateAccount a => LeafDB.CreateAccount a
  | OpAddBalance a n => LeafDB.AddBalance a n
  | OpSubBalance a n => LeafDB.SubBalance a n
  | OpSetBalance a n => LeafDB.SetBalance a n
  | OpSetNonce a n => LeafDB.SetNonce a n
  | OpSetCode a c => LeafDB.SetCode a c
  | OpSetState a k v => LeafDB.SetState a k v
  | OpSuicide a => leaf_discard (LeafDB.Suicide a)
  | OpSetTransientState a k v => LeafDB.SetTransientState a k v
  | OpAddRefund n => LeafDB.AddRefund n
  | OpSubRefund n => LeafDB.SubRefund n
  | OpAddLog l => LeafDB.AddLog l
  | OpAddPreimage h b => LeafDB.AddPreimage h b
  | OpAddAddress a => LeafDB.AddAddressToAccessList a
  | OpAddSlot a k => LeafDB.AddSlotToAccessList a k
  | OpSnapshot => leaf_discard LeafDB.Snapshot
  | OpRevert id => LeafDB.RevertToSnapshot id
  end.

Definition leaf_ops (os : list evm_op) : LS_ unit := iterM leaf_op os.

Context (L0 : leafdb) (B : bytes) (T0 : StateDB).
Context (Hagree : tables_agree L0 B T0).

Abbreviation rel := (srel L0 B T0).
Abbreviation relo := (orel L0 B T0).
Abbreviation found := (found L0 B T0).
Abbreviation related := (related L0 B T0).

(** ** Questions *)

Lemma leaf_ask_related q l t : rel l t → related same_value (leaf_ask q l) (ask q t).
Proof.
  intros Hr. destruct q; simpl.
  - apply (with_object_related _ _ _ _ _ _ _ _ _ (λ _, true) (λ _ _, true)); try done.
    + intros l' o Hl. exists l', o. split; [done|]. by eapply lreads_refl.
    + intros t' p Hp. exists (t', p). split; [done|by apply oreads_refl].
  - apply with_object_related_pure; [..|done].
    + intros E F o p Hop. unfold empty. by rewrite (os_data _ _ _ _ Hop).
    + intros d o p Hop. unfold LeafObject.empty, empty, emptyCodeHash.
      by rewrite (or_Nonce _ _ _ _ _ _ Hop), (or_Balance _ _ _ _ _ _ Hop), (or_CodeHash _ _ _ _ _ _ Hop).
  - apply with_object_related_pure; [..|done].
    + intros E F o p Hop. by rewrite (os_data _ _ _ _ Hop).
    + intros d o p Hop. apply Hop.
  - apply with_object_related_pure; [..|done].
    + intros E F o p Hop. by rewrite (os_data _ _ _ _ Hop).
    + intros d o p Hop. apply Hop.
  - apply (with_object_related _ _ _ _ _ _ _ _ _ (lcode L0) code_of); [| | | |done].
    + intros l' o Hl. by eapply lCode_spec.
    + intros. by apply Code_spec.
    + intros E F o p Hop. apply Hop.
    + intros d o p Hop. apply Hop.
  - apply (with_object_related _ _ _ _ _ _ _ _ _
      (λ o, match lcode L0 o with Some c => Z.of_nat (length c) | None => 0 end)
      (λ E o, match code_of E o with Some c => Z.of_nat (length c) | None => 0 end)); [| | | |done].
    + intros l' o Hl. by eapply lCodeSize_spec.
    + intros. by apply CodeSize_spec.
    + intros E F o p Hop. by rewrite (os_code _ _ _ _ Hop).
    + intros d o p Hop. by rewrite (or_code _ _ _ _ _ _ Hop).
  - apply with_object_related_pure; [..|done].
    + intros E F o p Hop. by rewrite (os_data _ _ _ _ Hop).
    + intros d o p Hop. by rewrite (or_CodeHash _ _ _ _ _ _ Hop).
  - apply (with_object_related _ _ _ _ _ _ _ _ _ (λ o, lcurrent L0 B o k) (λ E o, current E o k)); [| | | |done].
    + intros l' o Hl. by eapply lGetState_spec.
    + intros. by apply so_GetState_spec.
    + intros E F o p Hop. apply Hop.
    + intros d o p Hop. apply Hop.
  - apply (with_object_related _ _ _ _ _ _ _ _ _ (λ o, lcommitted L0 B o k) (λ E o, committed E o k)); [| | | |done].
    + intros l' o Hl. by eapply lGetCommittedState_spec.
    + intros. by apply so_GetCommittedState_spec.
    + intros E F o p Hop. apply Hop.
    + intros d o p Hop. apply Hop.
  - apply with_object_related_pure; [..|done].
    + intros E F o p Hop. apply Hop.
    + intros d o p Hop. apply Hop.
  - apply related_gets; [done|apply Hr].
  - apply related_gets; [done|apply Hr].
  - apply related_gets; [done|]. by rewrite (sr_access _ _ _ _ _ Hr).
  - unfold LeafDB.SlotInAccessList, SlotInAccessList, gets. mred. rewrite (sr_access _ _ _ _ _ Hr).
    apply (related_lift _ _ _ _ l t Hr). unfold AccessList.Contains, AccessList.slots_at, index.
    destruct (AccessList.addresses _ !! a); [|done]. repeat case_bool_decide; try done; simpl.
    by destruct (_ !! _).
  - apply related_gets; [done|apply Hr].
  - apply related_gets; [done|apply Hr].
  - apply related_gets; [done|apply Hr].
Qed.

(** ** Changes that are not of one object *)

Lemma rel_refund l t f : rel l t → rel (LeafData.upd_refund f l) (upd_refund f t).
Proof. intros []. split; try done. { by destruct sr_inv. } simpl. by rewrite sr_refund. Qed.

Lemma rel_preimages l t f : rel l t → rel (LeafData.upd_preimages f l) (upd_preimages f t).
Proof. intros []. split; try done. { by destruct sr_inv. } simpl. by rewrite sr_preimages. Qed.

Lemma rel_access l t al : rel l t → rel (LeafData.upd_access (λ _, al) l) (upd_access (λ _, al) t).
Proof. intros []. by split. Qed.

Lemma rel_transient l t a k v :
  rel l t → rel (LeafData.upd_transient (ts_Set a k v) l) (upd_transient (ts_Set a k v) t).
Proof.
  intros []. split; try done. { by destruct sr_inv. } intros b m. simpl. rewrite !ts_Get_Set.
  by case_decide.
Qed.

(** No list of logs becomes empty. *)
Lemma rel_logs l t f :
  (∀ m : gmap bytes (list Log), (∀ h, m !! h ≠ Some []) → ∀ h, f m !! h ≠ Some []) →
  rel l t → rel (LeafData.upd_logs f l) (upd_logs f t).
Proof.
  intros Hf []. split; try done; [|simpl; by rewrite sr_logs].
  destruct sr_inv. split; try done. by apply Hf.
Qed.

Lemma rel_logSize l t f :
  (∀ n, 0 ≤ f n < 2 ^ 64) → rel l t → rel (LeafData.upd_logSize f l) (upd_logSize f t).
Proof.
  intros Hf []. split; try done; [|simpl; by rewrite sr_logSize].
  destruct sr_inv. split; try done. apply Hf.
Qed.

(** Dropping an object that was made where there is no account. *)
Lemma rel_delete l t a :
  account_at T0 a = None → rel l t →
  rel (LeafData.upd_dirtys (λ X, X ∖ {[a]}) (LeafData.upd_objects (base.delete a) l))
      (upd_dirtys (λ X, X ∖ {[a]}) (upd_objects (base.delete a) t)).
Proof.
  intros Ha Hr. pose proof (account_at_base L0 B T0 l t a Hr) as Hta. rewrite Ha in Hta.
  assert (account0 L0 B a = None) as Hla.
  { pose proof (ta_account _ _ _ Hagree a) as Hx. rewrite Ha in Hx. by destruct (account0 L0 B a). }
  destruct Hr. split; try done; simpl.
  - destruct sr_inv as [J1 J2 JP J3 J4 J5 J6 J7 J8 J9]. split; try done; simpl in *.
    + intros b o [_ Ho]%lookup_delete_Some. by apply J3.
    + intros b Hb. rewrite sr_pending in Hb. set_solver.
    + intros b [Hb Hne]%elem_of_difference. rewrite lookup_delete_ne by set_solver. by apply J5.
  - intros b. specialize (sr_obj b). unfold lobj_at, obj_at. simpl.
    destruct (decide (a = b)) as [<-|Hab].
    + rewrite !lookup_delete_eq, Hla. unfold account_at in Hta |- *. simpl. rewrite Hta. constructor.
    + rewrite !lookup_delete_ne by done. exact sr_obj.
Qed.

(** ** Undoing *)

Lemma iterM_related {X Y} (R : X → Y → Prop) (f : X → LS_ unit) (g : Y → stateM StateDB error unit) xs ys l t :
  Forall2 R xs ys → rel l t →
  (∀ x y l t, R x y → rel l t → related same_value (f x l) (g y t)) →
  related same_value (iterM f xs l) (iterM g ys t).
Proof.
  intros HR Hr Hfg. revert l t Hr. induction HR as [|x y xs ys Hxy _ IH]; intros l t Hr; [done|].
  simpl. eapply related_bind; [by apply Hfg|]. intros l' t' [] [] Hr' _. by apply IH.
Qed.

Lemma must_object_related m m' l t a :
  method_related L0 B T0 m m' → rel l t →
  related same_value (LeafDB.must_object a m l) (must_object a m' t).
Proof.
  intros Hm Hr. eapply related_bind; [by apply getStateObject_related|].
  intros l1 t1 [o|] [p|] Hr1 Hf; try done. exact (Hm l1 t1 a o p Hr1 Hf).
Qed.

Lemma on_self_related f g :
  (∀ d o p, relo d o p → relo d (f o) (g p)) → (∀ p, address (g p) = address p) →
  method_related L0 B T0 (LeafData.on_self f) (on_self g).
Proof.
  intros Hfg Hg l t a o p Hr Hf. destruct (found_ready _ _ _ _ _ _ _ _ Hr Hf) as (_ & _ & Ha & _).
  split; [|done]. apply rel_set; [done|]. simpl. rewrite Hg, Ha. apply Hfg, Hf.
Qed.

Lemma take_logs_nonempty (h : bytes) (ls : list Log) m :
  (2 ≤ length ls)%nat → (∀ k, (m : gmap bytes (list Log)) !! k ≠ Some []) →
  ∀ k, <[h := take (length ls - 1) ls]> m !! k ≠ Some [].
Proof.
  intros Hl Hm k [[_ E]|[_ E]]%lookup_insert_Some; [|by eapply Hm].
  apply (f_equal length) in E. rewrite length_take in E. simpl in E. lia.
Qed.

Lemma remove_log_related h ls l t :
  rel l t →
  related same_value
    (match ls with
     | [] => lift (Panic "slice bounds out of range")
     | [_] => modify (LeafData.upd_logs (base.delete h))
     | _ => modify (LeafData.upd_logs <[h := take (length ls - 1) ls]>)
     end l)
    (match ls with
     | [] => lift (Panic "slice bounds out of range")
     | [_] => modify (upd_logs (base.delete h))
     | _ => modify (upd_logs <[h := take (length ls - 1) ls]>)
     end t).
Proof.
  intros Hr. destruct ls as [|l1 [|l2 ls]]; [done|..]; (split; [|done]); apply rel_logs; try done.
  - intros m Hm k [_ E]%lookup_delete_Some. by eapply Hm.
  - intros m Hm. apply take_logs_nonempty; [simpl; lia|done].
Qed.

Lemma DeleteSlot_returns a x al :
  match AccessList.DeleteSlot a x al with Ok _ | Panic _ => True | _ => False end.
Proof.
  unfold AccessList.DeleteSlot, AccessList.slots_at, index. destruct (AccessList.addresses al !! a); [|done].
  case_bool_decide; [|done]. destruct (_ !! _); [|done]. simpl. by case_bool_decide.
Qed.

Lemma revert_entry_related e' e l t es :
  erel L0 B T0 e' e → rel l t → destructs_ok (e :: es) (stateObjectsDestruct t) →
  related same_value (LeafDB.revert_entry e' l) (revert_entry e t).
Proof.
  intros He Hr Hd. destruct He as [a Ha|o p b d Hop|e' e He Hok].
  - split; [|done]. by apply rel_delete.
  - destruct Hd as [Hin _]. destruct d; (split; [|done]); simpl.
    + apply rel_set; [done|]. by rewrite bool_decide_true.
    + change (upd_destruct ?g (setStateObject p t)) with (setStateObject p (upd_destruct g t)).
      replace l with (LeafData.upd_destruct id l) by (by destruct l).
      apply rel_put; [done|by rewrite bool_decide_false by set_solver|set_solver].
  - destruct e; simplify_eq/=.
    + eapply related_bind; [by apply getStateObject_related|].
      intros l1 t1 [o|] [p|] Hr1 Hf; try done.
      apply (on_self_related
        (λ o, LeafData.upd_data (acc_set_Balance prevbalance) (LeafData.upd_suicided (λ _, prev) o))
        (λ p, upd_data (acc_set_Balance prevbalance) (upd_suicided (λ _, prev) p))) with (a := account); [|done..].
      intros d q r Hqr. by apply orel_balance, orel_suicided.
    + apply must_object_related; [|done]. apply on_self_related; [|done]. intros d o p. by apply orel_balance.
    + apply must_object_related; [|done]. apply on_self_related; [|done]. intros d o p. by apply orel_nonce.
    + apply must_object_related; [|done]. apply on_self_related; [|done]. intros d o p. by apply orel_setState.
    + apply must_object_related; [|done].
      apply (on_self_related (lset_code (BytesToHash prevhash) prevcode) (set_code (BytesToHash prevhash) prevcode)); [|done].
      intros d o p. apply orel_set_code; [done|]. simpl in Hok. by rewrite BytesToHash_id.
    + split; [|done]. by apply rel_refund.
    + eapply related_bind; [apply related_gets; [done|by rewrite (sr_logs _ _ _ _ _ Hr)]|].
      intros l1 t1 ls ls' Hr1 Hv. hnf in Hv. subst ls'. eapply related_bind; [by apply remove_log_related|].
      intros l2 t2 [] [] Hr2 _. split; [|done]. apply rel_logSize; [|done]. intros n. apply u64_range.
    + split; [|done]. by apply rel_preimages.
    + done.
    + split; [|done]. cbv [modify LeafData.upd_access upd_access]. simpl. rewrite (sr_access _ _ _ _ _ Hr).
      apply (rel_access l t _ Hr).
    + eapply related_bind; [apply related_gets; [done|exact (sr_access _ _ _ _ _ Hr)]|].
      intros l1 t1 al al' Hr1 Hv. hnf in Hv. subst al'. eapply related_bind; [apply related_lift; [done|apply DeleteSlot_returns]|].
      intros l2 t2 al2 al2' Hr2 Hv. hnf in Hv. subst al2'. split; [|done]. by apply rel_access.
    + split; [|done]. by apply rel_transient.
Qed.

(** ** Reverting to a snapshot *)

Lemma rel_untrack e' e l t :
  erel L0 B T0 e' e → rel l t →
  rel (LeafData.upd_journal (LeafDB.untrack e') l) (upd_journal (untrack e) t).
Proof.
  intros He Hr. pose proof (sdb_inv_journal (untrack e) _ (sr_inv _ _ _ _ _ Hr)) as Hi.
  destruct Hr. unfold LeafDB.untrack, untrack in *. rewrite (erel_dirtied _ _ _ _ _ He).
  destruct (dirtied e); split; try done. simpl. rewrite sr_dirties. by case_bool_decide.
Qed.

(** Undoing entries, latest first; [rest] are those that stay. *)
Lemma undo_related es' es rest l t :
  Forall2 (erel L0 B T0) es' es → rel l t → destructs_ok (es ++ rest) (stateObjectsDestruct t) →
  related (λ _ t _ _, destructs_ok rest (stateObjectsDestruct t))
    (iterM (λ e, _ ← LeafDB.revert_entry e; modify (LeafData.upd_journal (LeafDB.untrack e))) es' l)
    (iterM (λ e, _ ← revert_entry e; modify (upd_journal (untrack e))) es t).
Proof.
  intros HR. revert l t. induction HR as [|e' e es' es He _ IH]; intros l t Hr Hd; [done|]. simpl.
  pose proof (revert_entry_related e' e l t _ He Hr Hd) as Hrev.
  assert (destructs_ok (es ++ rest) (stateObjectsDestruct (revert_entry e t).1)) as Hd'.
  { destruct (decide (plain e)) as [Hp|Hp].
    - rewrite (fr_destruct _ _ (keeps_revert_entry e Hp t)). simpl in Hd. by destruct e.
    - destruct e; try by destruct Hp. simpl in *. destruct Hd as [_ Hd]. by destruct prevdestruct. }
  eapply related_bind; [eapply related_bind|].
  - exact (related_and _ _ _ _ (λ t, destructs_ok (es ++ rest) (stateObjectsDestruct t)) _ _ Hrev Hd').
  - intros l1 t1 [] [] Hr1 [_ Hd1].
    assert (related (λ _ t _ _, destructs_ok (es ++ rest) (stateObjectsDestruct t))
      (modify (LeafData.upd_journal (LeafDB.untrack e')) l1) (modify (upd_journal (untrack e)) t1)) as Hm.
    { split; [by apply rel_untrack|done]. }
    exact Hm.
  - intros l2 t2 [] [] Hr2 Hd2. by apply IH.
Qed.

Lemma journal_revert_related n l t :
  rel l t → undoable t →
  related (λ _ t _ _, undoable t) (LeafDB.journal_revert n l) (journal_revert n t).
Proof.
  intros Hr Hu. pose proof (sr_entries _ _ _ _ _ Hr) as He. pose proof (Forall2_length _ _ _ He) as Hlen.
  unfold LeafDB.journal_revert, journal_revert, gets. mred. rewrite Hlen. case_bool_decide; [done|].
  eapply related_bind.
  - apply (undo_related _ _ (rev (take n (entries (jrnl t))))); [|done|].
    + rewrite !rev_alt. by apply Forall2_reverse, Forall2_drop.
    + rewrite <- rev_app_distr, take_drop. exact Hu.
  - intros l1 t1 [] [] Hr1 Hd. split; [|exact Hd].
    pose proof (sdb_inv_journal (λ j, MkJournal (take n (entries (jrnl t))) (dirties j)) _ (sr_inv _ _ _ _ _ Hr1)) as Hi.
    destruct Hr1. split; try done. simpl. by apply Forall2_take.
Qed.

(** The revisions are the same, so the search finds the same one. *)
Lemma sort_Search_ext fuel i j f g : (∀ n, f n = g n) → sort_Search fuel i j f = sort_Search fuel i j g.
Proof.
  intros Hfg. revert i j. induction fuel as [|fuel IH]; intros i j; simpl; [done|].
  case_bool_decide; [|done]. rewrite Hfg. destruct (g _); apply IH.
Qed.

Lemma RevertToSnapshot_related id l t :
  rel l t → undoable t →
  related (λ _ t _ _, undoable t) (LeafDB.RevertToSnapshot id l) (RevertToSnapshot id t).
Proof.
  intros Hr Hu. unfold LeafDB.RevertToSnapshot, RevertToSnapshot, gets. mred.
  rewrite (sr_revisions _ _ _ _ _ Hr), length_fmap.
  rewrite (sort_Search_ext _ _ _
    (λ i, match (revision_of <$> validRevisions t) !! i with
          | Some r => bool_decide (id ≤ LeafData.rev_id r) | None => true end)
    (λ i, match validRevisions t !! i with Some r => bool_decide (id ≤ rev_id r) | None => true end)).
  2: { intros n. rewrite list_lookup_fmap. by destruct (validRevisions t !! n). }
  set (idx := sort_Search _ _ _ _). rewrite list_lookup_fmap.
  destruct (validRevisions t !! idx) as [r|]; [|done]. simpl. case_bool_decide; [|done].
  eapply related_bind; [by apply journal_revert_related|]. intros l1 t1 [] [] Hr1 Hu1. split; [|exact Hu1].
  pose proof (sr_inv _ _ _ _ _ Hr1) as Hi. destruct Hr1. split; try done; [by destruct Hi|].
  simpl. by rewrite sr_revisions, <- fmap_take.
Qed.

(** ** The other operations *)

Lemma CreateAccount_related l t a :
  rel l t → storageless L0 B a → related same_value (LeafDB.CreateAccount a l) (CreateAccount a t).
Proof.
  intros Hr Hs. eapply related_bind; [apply createObject_related; [done..|by left]|].
  intros l1 t1 [n o] [m p] Hr1 [Hf Hb]. simpl in *. destruct o as [o|], p as [p|]; try done.
  rewrite Hb. apply (on_self_related (LeafData.upd_data (acc_set_Balance (acc_Balance (data p))))
    (upd_data (acc_set_Balance (acc_Balance (data p))))) with (a := a); [|done..].
  intros d q r. by apply orel_balance.
Qed.

Lemma Suicide_related l t a : rel l t → related same_value (LeafDB.Suicide a l) (Suicide a t).
Proof.
  intros Hr. eapply related_bind; [by apply getStateObject_related|].
  intros l1 t1 [o|] [p|] Hr1 Hf; try done.
  destruct (found_ready _ _ _ _ _ _ _ _ Hr1 Hf) as (_ & _ & Ha & _). destruct Hf as (Ho & Hp & Hop).
  rewrite (or_suicided _ _ _ _ _ _ Hop), (or_Balance _ _ _ _ _ _ Hop). split; [|done].
  apply (mutate_related _ _ _ _ _ a o p (LeafData.suicideChange a (suicided p) (acc_Balance (data p)))
    (suicideChange a (suicided p) (acc_Balance (data p)))
    (λ o, LeafData.upd_data (acc_set_Balance 0) (LeafData.upd_suicided (λ _, true) o))
    (λ p, upd_data (acc_set_Balance 0) (upd_suicided (λ _, true) p))); try done.
  - intros d Hd. by apply orel_balance, orel_suicided.
  - by constructor.
Qed.

Lemma AddSlot_returns a x al :
  match AccessList.AddSlot a x al with Ok _ | Panic _ => True | _ => False end.
Proof.
  unfold AccessList.AddSlot, AccessList.slots_at, index. destruct (AccessList.addresses al !! a); [|done].
  case_bool_decide; [done|]. case_bool_decide; [|done]. destruct (_ !! _); [|done]. simpl. by case_bool_decide.
Qed.

Lemma append_related e' e l t :
  rel l t → erel L0 B T0 e' e → related same_value (LeafDB.append e' l) (append e t).
Proof. intros Hr He. split; [|done]. by apply rel_append. Qed.

Lemma same_value_eq {A} (l : leafDB) (t : StateDB) (a b : A) : same_value l t a b → b = a.
Proof. done. Qed.

(** Continue after a step that returned the same value in both. *)
Ltac bind_same a Hr :=
  let l := fresh "l" in let t := fresh "t" in let b := fresh in let Hv := fresh in
  intros l t a b Hr Hv; apply same_value_eq in Hv; subst b.

Lemma AddSlotToAccessList_related l t a x :
  rel l t → related same_value (LeafDB.AddSlotToAccessList a x l) (AddSlotToAccessList a x t).
Proof.
  intros Hr. eapply related_bind; [apply related_gets; [done|exact (sr_access _ _ _ _ _ Hr)]|].
  bind_same al Hr1. eapply related_bind; [apply related_lift; [done|apply AddSlot_returns]|].
  bind_same r Hr2. destruct r as [al' [addrMod slotMod]].
  eapply related_bind; [apply (related_modify L0 B T0 (LeafData.upd_access (λ _, al')) (upd_access (λ _, al'))); by apply rel_access|].
  bind_same u Hr3. eapply related_bind.
  { destruct addrMod; [apply append_related; [done|by constructor]|by apply (related_ret L0 B T0 same_value)]. }
  bind_same u' Hr4. destruct slotMod; [apply append_related; [done|by constructor]|by apply (related_ret L0 B T0 same_value)].
Qed.

Lemma AddAddressToAccessList_related l t a :
  rel l t → related same_value (LeafDB.AddAddressToAccessList a l) (AddAddressToAccessList a t).
Proof.
  intros Hr. eapply related_bind; [apply related_gets; [done|exact (sr_access _ _ _ _ _ Hr)]|].
  bind_same al Hr1. destruct (AccessList.AddAddress a al) as [al' added].
  eapply related_bind; [apply (related_modify L0 B T0 (LeafData.upd_access (λ _, al')) (upd_access (λ _, al'))); by apply rel_access|].
  bind_same u Hr2. destruct added; [apply append_related; [done|by constructor]|by apply (related_ret L0 B T0 same_value)].
Qed.

Lemma AddLog_related l t log : rel l t → related same_value (LeafDB.AddLog log l) (AddLog log t).
Proof.
  intros Hr. eapply related_bind; [apply related_gets; [done|exact (sr_thash _ _ _ _ _ Hr)]|].
  bind_same th Hr1. eapply related_bind; [apply append_related; [done|by constructor]|].
  bind_same u Hr2. eapply related_bind.
  - apply related_modify. cbv beta zeta.
    rewrite (sr_txIndex _ _ _ _ _ Hr2), (sr_logSize _ _ _ _ _ Hr2), (sr_logs _ _ _ _ _ Hr2).
    apply rel_logs; [|done]. intros m Hm h [[_ E]|[_ E]]%lookup_insert_Some; [|by eapply Hm].
    by destruct (default [] _).
  - bind_same u' Hr3. split; [|done]. apply rel_logSize; [|done]. intros n. apply u64_range.
Qed.

Lemma AddPreimage_related l t h b : rel l t → related same_value (LeafDB.AddPreimage h b l) (AddPreimage h b t).
Proof.
  intros Hr. unfold LeafDB.AddPreimage, AddPreimage, gets. mred. rewrite (sr_preimages _ _ _ _ _ Hr).
  destruct (preimages t !! h); [done|]. split; [|done]. apply rel_preimages. by apply rel_append; [|constructor].
Qed.

Lemma SetTransientState_related l t a k v :
  rel l t → related same_value (LeafDB.SetTransientState a k v l) (SetTransientState a k v t).
Proof.
  intros Hr. unfold LeafDB.SetTransientState, SetTransientState, LeafDB.GetTransientState, GetTransientState, gets. mred.
  rewrite (sr_transient _ _ _ _ _ Hr). case_bool_decide; [done|]. split; [|done].
  apply rel_transient. by apply rel_append; [|constructor].
Qed.

Lemma AddRefund_related l t n : rel l t → related same_value (LeafDB.AddRefund n l) (AddRefund n t).
Proof.
  intros Hr. split; [|done]. simpl. rewrite (sr_refund _ _ _ _ _ Hr).
  apply rel_refund. by apply rel_append; [|constructor].
Qed.

Lemma SubRefund_related l t n : rel l t → related same_value (LeafDB.SubRefund n l) (SubRefund n t).
Proof.
  intros Hr. unfold LeafDB.SubRefund, SubRefund, gets. mred. rewrite (sr_refund _ _ _ _ _ Hr).
  case_bool_decide; [done|]. split; [|done]. apply rel_refund. by apply rel_append; [|constructor].
Qed.

Lemma Snapshot_related l t : rel l t → related same_value (LeafDB.Snapshot l) (Snapshot t).
Proof.
  intros Hr. unfold LeafDB.Snapshot, StateDB.Snapshot, gets. mred. rewrite (sr_nextId _ _ _ _ _ Hr). split; [|done].
  pose proof (Forall2_length _ _ _ (sr_entries _ _ _ _ _ Hr)) as Hlen.
  destruct Hr. split; try done; simpl; [by destruct sr_inv| |by rewrite sr_nextId].
  unfold LeafData.journal_length, journal_length. simpl. by rewrite sr_revisions, fmap_app, Hlen.
Qed.

(** Accounts are only created where the tables hold no slots. *)
Definition op_allowed (o : evm_op) : Prop :=
  match o with OpCreateAccount a => storageless L0 B a | _ => True end.

Lemma leaf_discard_related {A} (m : LS_ A) (m' : stateM StateDB error A) l t :
  related same_value (m l) (m' t) → related same_value (leaf_discard m l) (discard m' t).
Proof. intros Hm. eapply related_bind; [exact Hm|]. by intros. Qed.

Lemma leaf_op_same o l t :
  rel l t → op_allowed o → (∀ id, o ≠ OpRevert id) → related same_value (leaf_op o l) (run_op o t).
Proof.
  intros Hr Ho Hn. destruct o; simpl.
  - by apply leaf_discard_related, leaf_ask_related.
  - by apply CreateAccount_related.
  - apply with_new_object_related; [done|by apply so_AddBalance_related|done].
  - apply with_new_object_related; [done|by apply so_SubBalance_related|done].
  - apply with_new_object_related; [done|by apply so_SetBalance_related|done].
  - apply with_new_object_related; [done|by apply so_SetNonce_related|done].
  - apply with_new_object_related; [done|by apply so_SetCode_related; [|apply keccak256_length]|done].
  - apply with_new_object_related; [done|by apply so_SetState_related|done].
  - by apply leaf_discard_related, Suicide_related.
  - by apply SetTransientState_related.
  - by apply AddRefund_related.
  - by apply SubRefund_related.
  - by apply AddLog_related.
  - by apply AddPreimage_related.
  - by apply AddAddressToAccessList_related.
  - by apply AddSlotToAccessList_related.
  - by apply leaf_discard_related, Snapshot_related.
  - by destruct (Hn id).
Qed.

Lemma leaf_op_related o l t :
  rel l t → undoable t → op_allowed o →
  related (λ _ t _ _, undoable t) (leaf_op o l) (run_op o t).
Proof.
  intros Hr Hu Ho. assert ({id | o = OpRevert id} + (∀ id, o ≠ OpRevert id)) as [[id ->]|Hn].
  { destruct o; eauto; by right. }
  - by apply RevertToSnapshot_related.
  - pose proof (run_op_still o Hn t Hu) as Hu'.
    eapply related_weaken; [exact (related_and _ _ _ _ undoable _ _ (leaf_op_same o l t Hr Ho Hn) Hu')|].
    by intros ? ? ? ? [].
Qed.

Lemma leaf_ops_related os l t :
  rel l t → undoable t → Forall op_allowed os →
  related (λ _ t _ _, undoable t) (leaf_ops os l) (run_ops os t).
Proof.
  intros Hr Hu Hos. revert l t Hr Hu. induction Hos as [|o os Ho _ IH]; intros l t Hr Hu; [done|].
  eapply related_bind; [by apply leaf_op_related|]. intros l1 t1 [] [] Hr1 Hu1. by apply IH.
Qed.
End ops.
