(* ===== verification/LeafSpec.v ===== *)
(** * What direct_by_leaf promises, and where it breaks it

    Over tables that agree with the tries, and until the transaction is
    finalised, the StateDB of direct_by_leaf is the one of trie_by_cid/state.  The
    second part shows what goes wrong afterwards and besides. *)
From S2P Require Import Prelude Errors Geth AccessList LeafData LeafObject LeafDB.
From S2P Require Import StateOps Prefetcher StateData StateObject StateDB StateView StateReads Revert Undo Snapshot Frame.
From S2P Require Import LeafSim LeafReads LeafObjects LeafOps.
Local Open Scope Z_scope.

Section spec.
Context `{RlpOps, CryptoOps, CommonOps, TrieOps, !DatabaseOps, SnapOps, RangeOps, SchedOps}.
Context `{LeafDatabaseOps, !LeafDatabaseLaws, !CryptoLaws, !TrieLaws, !DatabaseLaws, !SnapLaws}.

(** ** The simulation *)

Lemma rel_New L0 B T0 l0 root d trees :
  ldb_inv L0 → sdb_inv T0 → StateDB.New root d trees = Ok T0 → LeafDB.New B L0 = Ok l0 →
  tables_agree L0 B T0 → srel L0 B T0 l0 T0.
Proof.
  intros Hl Ht HT HL Hag. injection HL as <-. unfold StateDB.New in HT.
  destruct (OpenTrie root d) as [tr| | |]; try done. injection HT as HT.
  assert (stateObjects T0 = ∅) as Hobj by (by subst).
  split; try by (subst; try done).
  - intros a. rewrite bool_decide_false by (subst; set_solver). unfold lobj_at, obj_at. simpl.
    rewrite lookup_empty, Hobj, lookup_empty. pose proof (ta_account _ _ _ Hag a) as Ha.
    pose proof (ta_slot _ _ _ Hag a) as Hs.
    destruct (account0 L0 B a) as [acc|], (account_at T0 a) as [v|] eqn:Hv; try done; simpl; constructor.
    destruct Ha as (Hn & Hb & Hc).
    assert (obj_ok a (newObject a v)) as Hok.
    { apply newObject_ok. intros h. by apply account_at_ok with T0 a. }
    destruct Hok. split; try done.
    + unfold lcode, code_of. simpl. rewrite Hc. case_bool_decide; [done|]. apply (ta_code _ _ _ Hag).
Qed.

Lemma New_undoable root d trees T0 : StateDB.New root d trees = Ok T0 → undoable T0.
Proof. unfold StateDB.New. destruct (OpenTrie root d); [|done..]. by intros [= <-]. Qed.

Lemma related_results {A} L0 B T0 (x : LeafData.StateDB * result A) (y : StateDB * result A) :
  related L0 B T0 same_value x y → x.2 = y.2.
Proof. unfold related. destruct x.2, y.2; try done; [by intros [_ ->]|by intros ->]. Qed.

(** C18: a StateDB of direct_by_leaf over tables with the leaves of the tries
    answers every question as the StateDB of trie_by_cid/state does, after any
    sequence of EVM operations, snapshots and reverts (panics included), as long
    as [CreateAccount] is only called where the tables hold no slots.  Where they
    do, the two packages differ: see [LeafFinalise.new_object_reads_table]. *)
Theorem leaf_simulates_trie L0 B T0 l0 root d trees os :
  ldb_inv L0 → sdb_inv T0 → StateDB.New root d trees = Ok T0 → LeafDB.New B L0 = Ok l0 →
  tables_agree L0 B T0 → Forall (op_allowed L0 B) os →
  match leaf_ops os l0, run_ops os T0 with
  | (l, Ok _), (t, Ok _) => ∀ q, (leaf_ask q l).2 = (ask q t).2
  | (_, Panic w), (_, Panic w') => w = w'
  | _, _ => False
  end.
Proof.
  intros Hl Ht HT HL Hag Hos. pose proof (rel_New _ _ _ _ _ _ _ Hl Ht HT HL Hag) as Hr.
  pose proof (leaf_ops_related _ _ _ Hag os l0 T0 Hr (New_undoable _ _ _ _ HT) Hos) as Hrel.
  unfold related in Hrel. destruct (leaf_ops os l0) as [l [[]| | |]], (run_ops os T0) as [t [[]| | |]]; try done.
  intros q. by eapply related_results, leaf_ask_related, Hrel.
Qed.

(** C19: on a StateDB of direct_by_leaf over tables that hold the leaves of some
    tries, reverting to a snapshot that is still valid succeeds and gives back
    every answer of the time it was taken, after any operations before and since
    of which none calls [CreateAccount] on an account with slots in the tables. *)
Theorem leaf_RevertToSnapshot_correct L0 B T0 l0 root d trees before l1 id l2 os l3 :
  ldb_inv L0 → sdb_inv T0 → StateDB.New root d trees = Ok T0 → LeafDB.New B L0 = Ok l0 →
  tables_agree L0 B T0 → Forall (op_allowed L0 B) (before ++ os) →
  leaf_ops before l0 = (l1, Ok tt) → LeafDB.Snapshot l1 = (l2, Ok id) → leaf_ops os l2 = (l3, Ok tt) →
  id ∈ LeafData.rev_id <$> LeafData.validRevisions l3 →
  ∃ l4, LeafDB.RevertToSnapshot id l3 = (l4, Ok tt) ∧ ∀ q, (leaf_ask q l4).2 = (leaf_ask q l1).2.
Proof.
  intros Hl Ht HT HL Hag [Hos1 Hos2]%Forall_app E1 E2 E3 Hin.
  pose proof (rel_New _ _ _ _ _ _ _ Hl Ht HT HL Hag) as Hr0.
  assert (∀ {A} (Q : _ → _ → unit → A → Prop) x y l, related L0 B T0 Q x y → x = (l, Ok tt) →
    ∃ t a, y = (t, Ok a) ∧ srel L0 B T0 l t ∧ Q l t tt a) as Hinv.
  { intros A Q x y l HQ ->. destruct (related_returns _ _ _ _ _ _ HQ) as (l' & t & [] & b & E & -> & Hr & HQ');
      [by eexists|]. injection E as <-. by eexists _, _. }
  pose proof (leaf_ops_related _ _ _ Hag before l0 T0 Hr0 (New_undoable _ _ _ _ HT) Hos1) as R1.
  destruct (Hinv _ _ _ _ _ R1 E1) as (t1 & [] & F1 & Hr1 & Hu1).
  pose proof (leaf_op_related _ _ _ Hag OpSnapshot l1 t1 Hr1 Hu1 I) as R2.
  destruct (Hinv _ _ _ _ l2 R2) as (t2 & [] & F2 & Hr2 & Hu2).
  { simpl. unfold leaf_discard. by rewrite (bind_step _ _ _ _ _ E2). }
  pose proof (leaf_ops_related _ _ _ Hag os l2 t2 Hr2 Hu2 Hos2) as R3.
  destruct (Hinv _ _ _ _ _ R3 E3) as (t3 & [] & F3 & Hr3 & Hu3).
  assert (well_formed T0) as [ps0 Hh0].
  { apply well_formed_fresh; [done|]. unfold StateDB.New in HT. destruct (OpenTrie root d); [|done..].
    by injection HT as <-. }
  destruct (run_ops_hist before T0 ps0 t1 Hh0 F1) as (ps1 & Hh1 & _).
  assert (StateDB.Snapshot t1 = (t2, Ok id)) as F2'.
  { simpl in F2. unfold discard in F2. pose proof (Snapshot_related L0 B T0 l1 t1 Hr1) as RS.
    rewrite E2 in RS. destruct (StateDB.Snapshot t1) as [t2' [i| | |]] eqn:ES; try done.
    rewrite (bind_step _ _ _ _ _ ES) in F2. injection F2 as ->. destruct RS as [_ RS].
    unfold same_value in RS. simpl in RS. by rewrite RS. }
  destruct (revert_after t1 os t2 id t3) as (t4 & F4 & Hs & _); [by exists ps1|done|done| |].
  { rewrite (sr_revisions _ _ _ _ _ Hr3), <- list_fmap_compose in Hin. exact Hin. }
  pose proof (RevertToSnapshot_related _ _ _ Hag id l3 t3 Hr3 Hu3) as R4. rewrite F4 in R4.
  destruct (LeafDB.RevertToSnapshot id l3) as [l4 [[]| | |]]; try done. destruct R4 as [Hr4 _]. simpl in Hr4.
  exists l4. split; [done|]. intros q.
  rewrite (related_results _ _ _ _ _ (leaf_ask_related _ _ _ q l4 t4 Hr4)), <- (proj2 (ask_spec q t1 t4 Hs)).
  symmetry. by eapply related_results, leaf_ask_related.
Qed.
End spec.
