(* ===== verification/LeafFinalise.v ===== *)
(** * Ending a transaction on direct_by_leaf

    What [Finalise] does to every object, and where the package then parts with
    trie_by_cid/state: [GetCommittedState] looks neither at the pending slots nor
    at the destructed addresses, and some errors never reach the StateDB. *)
From S2P Require Import Prelude Errors Geth AccessList StateOps StateData StateObject LeafData LeafObject LeafDB.
Local Open Scope Z_scope.

Section finalise.
Context `{RlpOps, CryptoOps, LeafDatabaseOps, RangeOps, !RangeLaws}.

(** An object at the end of a transaction in which its address was touched. *)
Definition dies (del : bool) (o : stateObject) : bool := suicided o || (del && empty o).
Definition finalised (del : bool) (o : stateObject) : stateObject :=
  if dies del o then upd_deleted (λ _, true) o else so_finalise o.

(** From [l] to [l']: the objects at the addresses [X] are finalised. *)
Record finalises (del : bool) (X : gset bytes) (l l' : StateDB) : Prop := {
  fi_objects a :
    stateObjects l' !! a = (λ o, if decide (a ∈ X) then finalised del o else o) <$> stateObjects l !! a;
  fi_pending a :
    a ∈ stateObjectsPending l' ↔ a ∈ stateObjectsPending l ∨ a ∈ X ∧ is_Some (stateObjects l !! a);
  fi_dirty a :
    a ∈ stateObjectsDirty l' ↔ a ∈ stateObjectsDirty l ∨ a ∈ X ∧ is_Some (stateObjects l !! a);
  fi_destruct a :
    a ∈ stateObjectsDestruct l' ↔ a ∈ stateObjectsDestruct l
      ∨ ∃ b o, b ∈ X ∧ stateObjects l !! b = Some o ∧ dies del o = true ∧ address o = a;
  fi_db : db l' = db l ∧ originBlockHash l' = originBlockHash l ∧ dbErr l' = dbErr l;
  fi_rest : logs l' = logs l ∧ logSize l' = logSize l ∧ preimages l' = preimages l
            ∧ access l' = access l ∧ transient l' = transient l ∧ thash l' = thash l
            ∧ txIndex l' = txIndex l ∧ nextRevisionId l' = nextRevisionId l
}.

Definition same_journal (l l' : StateDB) : Prop :=
  jrnl l' = jrnl l ∧ refund l' = refund l ∧ validRevisions l' = validRevisions l.

Lemma leaf_finalise_one_run del a l :
  ∃ l', finalise_one del a l = (l', Ok tt) ∧ finalises del {[a]} l l' ∧ same_journal l l'.
Proof.
  unfold finalise_one, gets, modify. mred. destruct (stateObjects l !! a) as [o|] eqn:Ho.
  2: { exists l. split; [done|]. split; [|done]. split; try done.
       - intros b. case_decide as Hb; [|by destruct (stateObjects l !! b)].
         apply elem_of_singleton in Hb as ->. by rewrite Ho.
       - intros b. split; [by left|]. intros [?|[->%elem_of_singleton [? ?]]]; congruence.
       - intros b. split; [by left|]. intros [?|[->%elem_of_singleton [? ?]]]; congruence.
       - intros b. split; [by left|]. intros [?|(c & p & ->%elem_of_singleton & ? & _)]; congruence. }
  change (suicided o || (del && empty o)) with (dies del o).
  destruct (dies del o) eqn:Hd; (eexists; split; [reflexivity|]; split; [|done]); split; try done; simpl.
  1, 5: intros b; unfold finalised; destruct (decide (a = b)) as [<-|Hb];
    [rewrite lookup_insert_eq, Ho; simpl; by rewrite decide_True, Hd by set_solver
    |rewrite lookup_insert_ne by done; destruct (stateObjects l !! b); [simpl; by rewrite decide_False by set_solver|done]].
  1, 2, 4, 5: intros b; split;
    [intros [->%elem_of_singleton|?]%elem_of_union; [right; split; [set_solver|by eexists]|by left]
    |intros [?|[->%elem_of_singleton _]]; set_solver].
  - intros b. rewrite elem_of_union, elem_of_singleton. split.
    + intros [->|?]; [|by left]. right. exists a, o. split_and!; [set_solver|done..].
    + intros [?|(c & p & ->%elem_of_singleton & Hp & _ & <-)]; [by right|left]. congruence.
  - intros b. split; [by left|]. intros [?|(c & p & ->%elem_of_singleton & Hp & Hd' & _)]; [done|]. congruence.
Qed.

Lemma finalises_comp del X a l1 l2 l3 :
  a ∉ X → finalises del {[a]} l1 l2 → finalises del X l2 l3 → finalises del ({[a]} ∪ X) l1 l3.
Proof.
  intros Ha F1 F2. pose proof (fi_objects _ _ _ _ F1) as O1. pose proof (fi_objects _ _ _ _ F2) as O2.
  assert (∀ b, is_Some (stateObjects l2 !! b) ↔ is_Some (stateObjects l1 !! b)) as HS.
  { intros b. rewrite O1. by rewrite fmap_is_Some. }
  assert (∀ b, b ∈ X → stateObjects l2 !! b = stateObjects l1 !! b) as HX.
  { intros b Hb. rewrite O1. destruct (stateObjects l1 !! b); [|done]. simpl. by rewrite decide_False by set_solver. }
  split.
  - intros b. rewrite O2. destruct (decide (b ∈ X)) as [Hb|Hb].
    + rewrite (HX b Hb). destruct (stateObjects l1 !! b); [|done]. simpl. by rewrite decide_True by set_solver.
    + rewrite O1. destruct (stateObjects l1 !! b); [|done]. simpl. f_equal.
      destruct (decide (b ∈ {[a]})), (decide (b ∈ {[a]} ∪ X)); set_solver.
  - intros b. rewrite (fi_pending _ _ _ _ F2), (fi_pending _ _ _ _ F1), HS, elem_of_union. tauto.
  - intros b. rewrite (fi_dirty _ _ _ _ F2), (fi_dirty _ _ _ _ F1), HS, elem_of_union. tauto.
  - intros b. rewrite (fi_destruct _ _ _ _ F2), (fi_destruct _ _ _ _ F1). split.
    + intros [[?|(c & o & ? & ? & ?)]|(c & o & Hc & Ho & ?)]; [by left|right; exists c, o; set_solver|].
      right. exists c, o. rewrite HX in Ho by done. set_solver.
    + intros [?|(c & o & [Hc|Hc]%elem_of_union & Ho & ?)]; [by left; left|left; right; by exists c, o|].
      right. exists c, o. by rewrite HX.
  - destruct (fi_db _ _ _ _ F1) as (? & ? & ?), (fi_db _ _ _ _ F2) as (? & ? & ?). split_and!; congruence.
  - destruct (fi_rest _ _ _ _ F1) as (?&?&?&?&?&?&?&?), (fi_rest _ _ _ _ F2) as (?&?&?&?&?&?&?&?).
    split_and!; congruence.
Qed.

Lemma finalises_nil del l : finalises del ∅ l l.
Proof.
  split; try done.
  - intros a. by destruct (stateObjects l !! a).
  - set_solver.
  - set_solver.
  - set_solver.
Qed.

Lemma leaf_finalise_all_run del xs l :
  NoDup xs → ∃ l', iterM (finalise_one del) xs l = (l', Ok tt) ∧ finalises del (list_to_set xs) l l' ∧ same_journal l l'.
Proof.
  intros Hnd. revert l. induction Hnd as [|a xs Ha _ IH]; intros l; simpl.
  { exists l. split; [done|]. split; [apply finalises_nil|done]. }
  destruct (leaf_finalise_one_run del a l) as (l1 & E1 & F1 & J1 & R1 & V1).
  destruct (IH l1) as (l2 & E2 & F2 & J2 & R2 & V2). exists l2. rewrite (bind_step _ _ _ _ _ E1).
  split; [done|]. split; [|by split_and!; congruence]. eapply finalises_comp; [|done..].
  by rewrite elem_of_list_to_set.
Qed.

(** The keys of a map, in the order of a range over it. *)
Lemma range_dom {A} (m : gmap bytes A) : NoDup (range m).*1 ∧ list_to_set (range m).*1 = (dom m : gset bytes).
Proof.
  assert ((range m).*1 ≡ₚ (map_to_list m).*1) as Hp by (by rewrite range_perm).
  split; [rewrite Hp; apply NoDup_fst_map_to_list|]. rewrite Hp. apply set_eq. intros a.
  rewrite elem_of_list_to_set, elem_of_dom, list_elem_of_fmap. split.
  - intros ([b x] & -> & Hin%elem_of_map_to_list). by eexists.
  - intros [x Hx]. exists (a, x). by rewrite elem_of_map_to_list.
Qed.

Lemma leaf_Finalise_run del l :
  ∃ l', Finalise del l = (l', Ok tt) ∧ finalises del (dom (dirties (jrnl l))) l l'
    ∧ entries (jrnl l') = [] ∧ validRevisions l' = []
    ∧ refund l' = match entries (jrnl l) with [] => refund l | _ => 0 end.
Proof.
  destruct (range_dom (dirties (jrnl l))) as [Hnd Hset].
  destruct (leaf_finalise_all_run del _ l Hnd) as (l1 & E & F & J & R & V). rewrite Hset in F.
  unfold Finalise. rewrite (bind_step (gets _) _ l l (range (dirties (jrnl l))).*1) by done.
  rewrite (bind_step _ _ _ _ _ E). eexists. split; [reflexivity|].
  unfold clearJournalAndRefund. rewrite J. destruct (entries (jrnl l)) as [|e es] eqn:Ee; simpl.
  - rewrite J. split_and!; [by destruct F|done..].
  - split_and!; [by destruct F|done..].
Qed.

(** C20: [Finalise] on direct_by_leaf never fails.  In whatever order the dirty
    addresses come, every object at one is deleted if it suicided (or is empty,
    if those go too) and otherwise has its dirty slots moved to the pending ones;
    deleted addresses are destructed, all are pending and dirty, and no other
    object changes.  The journal and the snapshots are gone, and so is the refund
    unless the journal was empty. *)
Theorem leaf_Finalise_correct del l :
  ∃ l', Finalise del l = (l', Ok tt) ∧ finalises del (dom (dirties (jrnl l))) l l'
    ∧ entries (jrnl l') = [] ∧ validRevisions l' = []
    ∧ refund l' = match entries (jrnl l) with [] => refund l | _ => 0 end.
Proof. apply leaf_Finalise_run. Qed.

(** ** Reading after the end of a transaction *)

Lemma GetState_live l a k o :
  stateObjects l !! a = Some o → deleted o = false →
  (GetState a k l).2 = (so_GetState k (l, o)).2.
Proof.
  intros Ho Hd. unfold GetState, with_object, getStateObject, getDeletedStateObject, gets. mred. rewrite Ho. mred.
  simpl. rewrite Hd. unfold on_obj. by destruct (so_GetState k (l, o)) as [[l' o'] r].
Qed.

(** C21: what a transaction wrote is forgotten when it is finalised: a slot that
    was loaded before it was written (every write loads it) reads as it was
    loaded, not as it was written, although the value written is pending. *)
Theorem leaf_Finalise_forgets del l a o k w :
  stateObjects l !! a = Some o → a ∈ dom (dirties (jrnl l)) →
  dies del o = false → deleted o = false → fakeStorage o = None → originStorage o !! k = Some w →
  ∃ l' o', Finalise del l = (l', Ok tt) ∧ (GetState a k l').2 = Ok w
    ∧ stateObjects l' !! a = Some o' ∧ pendingStorage o' = dirtyStorage o ∪ pendingStorage o.
Proof.
  intros Ho Ha Hdies Hd Hf Hk. destruct (leaf_Finalise_run del l) as (l' & E & F & _).
  exists l', (so_finalise o). split; [done|].
  assert (stateObjects l' !! a = Some (so_finalise o)) as Ho'.
  { rewrite (fi_objects _ _ _ _ F), Ho. simpl. rewrite decide_True by done. unfold finalised. by rewrite Hdies. }
  split_and!; [|done..]. rewrite (GetState_live _ _ _ (so_finalise o)) by done.
  unfold so_GetState, so_GetCommittedState, self, gets. mred. simpl. rewrite Hf, lookup_empty. simpl. by rewrite Hf, Hk.
Qed.

(** ** Errors and new objects *)

(** A new object reads the table, whether or not it replaces a destructed one. *)
Lemma new_object_reads_table l a v bh k :
  (so_GetState k (l, newObject a v bh)).2
  = match ldb_StorageValue (keccak256 a) (keccak256 k) bh (db l) with
    | Ok enc => Ok (slot_value enc).1
    | Err _ => Ok zeroHash
    | Panic w => Panic w
    | OutOfFuel => OutOfFuel
    end.
Proof.
  unfold so_GetState, so_GetCommittedState, self, gets. mred. simpl. rewrite !lookup_empty. simpl.
  rewrite ?lookup_empty. unfold read_slot. mred. simpl.
  destruct (ldb_StorageValue _ _ _ _) as [enc|err| |]; simpl; try done.
  unfold cache_slot. destruct (slot_value enc) as [v0 []]; reflexivity.
Qed.

(** Asking for an account without a row records an error. *)
Lemma missing_row_recorded l a e :
  stateObjects l !! a = None → dbErr l = None →
  ldb_StateAccount (keccak256 a) (originBlockHash l) (db l) = Err e →
  ∃ l', Exist a l = (l', Ok false) ∧ dbErr l' = Some (ErrGetStateObject a e).
Proof.
  intros Ho Hn He. eexists.
  unfold Exist, with_object, getStateObject, getDeletedStateObject, load_account, gets. mred. rewrite Ho, He. mred.
  split; [reflexivity|]. simpl. by rewrite Hn.
Qed.

(** The errors of an object never reach the StateDB. *)
Lemma object_errors_hidden l o k : dbErr (so_GetState k (l, o)).1.1 = dbErr l.
Proof.
  unfold so_GetState, so_GetCommittedState, self, gets. mred. simpl.
  destruct (fakeStorage o); [done|]. destruct (dirtyStorage o !! k); [done|].
  simpl. destruct (fakeStorage o); [done|]. destruct (originStorage o !! k); [done|].
  unfold read_slot. mred. destruct (ldb_StorageValue _ _ _ _) as [enc| | |]; simpl; try done.
  unfold cache_slot. destruct (slot_value enc) as [v0 []]; reflexivity.
Qed.

(** A copy has lost the fake storage of [SetStorage]. *)
Lemma deepCopy_fakeStorage o : fakeStorage (deepCopy o) = None.
Proof. done. Qed.
End finalise.
