(* ===== verification/StateWitness.v ===== *)
(** * The properties of the StateDB at work

    A StateDB over the repository's own database and tries, with the stand-in
    libraries of Geth.v: an empty store, and a short transaction on it. *)
From S2P Require Import Prelude Errors Geth Encoding Node Mpt MptFacts Tracer Reader.
From S2P Require Import Trie Repr Refine Hasher TrieSpec NodeSet Committer Database Persist.
From S2P Require Import Proof SecureTrie CachingDB AccessList StateOps Prefetcher PrefetcherSpec PrefetcherTasks StateData StateObject StateDB.
From S2P Require Import StateView StateReads Revert Undo Snapshot StateRoot FinaliseSpec RootReads Settled CopySpec IteratorSpec Entries ForEach.
Import Standin.
Local Open Scope Z_scope.

#[export] Instance range_ops : RangeOps := {| range A m := map_to_list m |}.
#[export] Instance range_laws : RangeLaws.
Proof. by split. Qed.

(** Some scheduler. *)
#[export] Instance sched_ops : SchedOps := {| choose n := ((7 * n + 3) mod 5)%nat |}.

Definition cdb0 : @database state_trie_ops caching_db_ops := CachingDB.NewDatabase (∅ : gmap bytes bytes).

Lemma cdb0_inv : caching_inv cdb0.
Proof.
  split; [|split; intros h c; simpl; by rewrite lookup_empty].
  intros codec owner root _ Hz He rd. left. unfold rd, nodeBlob. simpl. unfold Node. simpl.
  case_bool_decide as Hh; simpl; [by eexists|].
  rewrite lookup_singleton_ne by done. simpl. by eexists.
Qed.

Definition trie0 : @trie state_trie_ops :=
  MkStateTrie (MkTrie nilNode zeroHash 0 (db_reader zeroHash StateTrieCodec (triedb cdb0)) newTracer) ∅ false.

(** [StateDB.New] on the empty root. *)
Definition sdb0 : StateDB :=
  @MkStateDB state_trie_ops caching_db_ops snap_ops cdb0 None trie0 zeroHash
    None None ∅ ∅ ∅ ∅ ∅ ∅ None 0 zeroHash 0 ∅ 0 ∅ newAccessList ∅ newJournal [] 0 0 0 0 0.

Lemma sdb0_New : StateDB.New zeroHash cdb0 None = Ok sdb0.
Proof. reflexivity. Qed.

Lemma sdb0_well_formed : well_formed sdb0.
Proof.
  assert (st_holds true true ∅ trie0) as Ht by apply holds_map_fresh.
  destruct (New_well_formed zeroHash cdb0 None trie0) as (s & E & Hw).
  - reflexivity.
  - by exists true, ∅.
  - apply cdb0_inv.
  - intros a acc E. destruct (st_TryGetAccount_lemma true ∅ trie0 a Ht) as [E' _].
    simpl in E, E'. congruence.
  - rewrite sdb0_New in E. by injection E as ->.
Qed.

Definition alice : bytes := replicate 20 1.
Definition bob : bytes := replicate 20 2.
Definition slot1 : bytes := replicate 32 3.
Definition value1 : bytes := replicate 32 4.

Definition transaction : list evm_op :=
  [OpAddBalance alice 10; OpSnapshot; OpSetState alice slot1 value1; OpSetCode alice (Some [96; 0]);
   OpCreateAccount bob; OpSuicide alice; OpRevert 1; OpAddSlot bob slot1; OpAddRefund 5;
   OpAsk (QBalance alice); OpAddLog (MkLog [7] [] 0 0 0 []); OpSetNonce bob 3; OpCreateAccount alice].

Example transaction_runs :
  (run_ops transaction (StateDB.Snapshot sdb0).1).2 = Ok tt.
Proof. vm_compute. reflexivity. Qed.

Example transaction_revisions :
  rev_id <$> validRevisions (run_ops transaction (StateDB.Snapshot sdb0).1).1 = [0].
Proof. vm_compute. reflexivity. Qed.

Lemma Snapshot_eq : StateDB.Snapshot sdb0 = ((StateDB.Snapshot sdb0).1, Ok 0).
Proof. apply surjective_pairing. Qed.

Lemma ends {S} (p : S * result unit) : p.2 = Ok tt → p = (p.1, Ok tt).
Proof. destruct p. simpl. by intros ->. Qed.

Theorem RevertToSnapshot_correct_witness :
  ∃ s3, RevertToSnapshot 0 (run_ops transaction (StateDB.Snapshot sdb0).1).1 = (s3, Ok tt)
    ∧ (∀ q, (ask q s3).2 = (ask q sdb0).2)
    ∧ stateObjectsDestruct s3 = stateObjectsDestruct sdb0
    ∧ entries (jrnl s3) = entries (jrnl sdb0) ∧ validRevisions s3 = validRevisions sdb0
    ∧ well_formed s3.
Proof.
  apply (RevertToSnapshot_correct sdb0 transaction (StateDB.Snapshot sdb0).1 0
           (run_ops transaction (StateDB.Snapshot sdb0).1).1).
  - apply sdb0_well_formed.
  - apply Snapshot_eq.
  - apply ends, transaction_runs.
  - rewrite transaction_revisions. left.
Defined.

Theorem run_ops_safe_witness :
  (∃ s', run_ops transaction sdb0 = (s', Ok tt) ∧ well_formed s')
  ∨ (∃ before o after s1, transaction = before ++ o :: after ∧ run_ops before sdb0 = (s1, Ok tt)
     ∧ well_formed s1 ∧ match o with
       | OpSubRefund n => refund s1 < n
       | OpRevert id => id ∉ rev_id <$> validRevisions s1
       | _ => False
       end).
Proof. apply (run_ops_safe sdb0 transaction). apply sdb0_well_formed. Defined.

(** ** The root after a transaction *)

Lemma hashed_apart_NoDup `{CryptoOps} X : NoDup (keccak256 <$> X) → hashed_apart X.
Proof.
  induction X as [|x X IH]; intros Hnd; [by intros a b ?%not_elem_of_nil|].
  rewrite fmap_cons, NoDup_cons in Hnd. destruct Hnd as [Hx Hnd].
  intros a b [->|Ha]%elem_of_cons [->|Hb]%elem_of_cons E; [done| | |by apply IH].
  - destruct Hx. rewrite E. by apply list_elem_of_fmap_2.
  - destruct Hx. rewrite <- E. by apply list_elem_of_fmap_2.
Qed.

(** An object whose storage is empty: its trie is not open, or open at the nil node. *)
Definition empty_storage (o : stateObject) : bool :=
  match @obj_trie state_trie_ops o with
  | Some t => match t_root (inner t) with nilNode => true | _ => false end
  | None => bool_decide (acc_Root (data o) = EmptyRootHash)
  end.

Lemma empty_storage_has s o : empty_storage o = true → has_storage s o ∅.
Proof.
  unfold empty_storage, has_storage. destruct (obj_trie o) as [[T c ow]|] eqn:E.
  - simpl. intros Hr. exists None. split; [|apply models_empty]. split; [|done]. simpl.
    by destruct (t_root T).
  - rewrite bool_decide_eq_true. intros Hr. simpl. unfold cdb_OpenStorageTrie, NewStateTrie.
    erewrite New_empty; [|reflexivity|simpl; tauto]. eexists. split; [reflexivity|].
    split; [apply holds_map_fresh|done].
Qed.

Definition block : list evm_op :=
  [OpAddBalance alice 10; OpSetState alice slot1 value1; OpSetNonce bob 3; OpSuicide bob;
   OpCreateAccount (replicate 20 5); OpSetNonce (replicate 20 5) 1].

(** A state with a snapshot that cannot answer yet, and a running prefetcher. *)
Definition generating : option (@snapTree snap_ops) := Some tt.
Definition sdb_snap : StateDB := match StateDB.New zeroHash cdb0 generating with Ok s => s | _ => sdb0 end.
Definition sdb_fetch : StateDB := (StartPrefetcher sdb_snap).1.
Definition sdb1 : StateDB := (run_ops block sdb_fetch).1.

Lemma hash_nonzero a : keccak256 a ≠ zeroHash.
Proof. apply hash32_nonzero. Qed.

Lemma empty_opens root codec :
  root = zeroHash →
  NewStateTrie (StateTrieID root) (triedb cdb0) codec
  = Ok (MkStateTrie (MkTrie nilNode zeroHash 0 (db_reader zeroHash codec (triedb cdb0)) newTracer) ∅ false).
Proof. intros ->. reflexivity. Qed.

Lemma trie0_hashes a acc : (trie_TryGetAccount a trie0).2 = Ok (Some acc) → length (acc_CodeHash acc) = hashLen.
Proof.
  assert (st_holds true true ∅ trie0) as Ht by apply holds_map_fresh.
  destruct (st_TryGetAccount_lemma true ∅ trie0 a Ht) as [E _]. intros E'. simpl in E, E'. congruence.
Qed.

Lemma sdb_snap_made : StateDB.New zeroHash cdb0 generating = Ok sdb_snap ∧ sdb_inv sdb_snap.
Proof.
  destruct (New_well_formed zeroHash cdb0 generating trie0) as (s & E & [ps Hh]);
    [reflexivity|by exists true, ∅; apply holds_map_fresh|apply cdb0_inv|apply trie0_hashes|].
  unfold sdb_snap. rewrite E. split; [done|apply Hh].
Qed.

Lemma sdb_snap_inv : sdb_inv sdb_snap.
Proof. apply sdb_snap_made. Qed.

Lemma sdb_fetch_inv : sdb_inv sdb_fetch ∧ validRevisions sdb_fetch = [].
Proof.
  destruct (StartPrefetcher_reads sdb_snap sdb_snap_inv hash_nonzero) as (s & E & Hr).
  unfold sdb_fetch. rewrite E. cbn [fst]. split; [apply (rt_same _ _ Hr)|]. exact (rt_revisions _ _ Hr).
Qed.

Lemma sdb1_inv : sdb_inv sdb1.
Proof.
  destruct sdb_fetch_inv as [Hs Hv]. destruct (well_formed_fresh sdb_fetch Hs Hv) as [ps Hh].
  assert ((run_ops block sdb_fetch).2 = Ok tt) as E by (vm_compute; reflexivity).
  pose proof (ends _ E) as Er. fold sdb1 in Er.
  destruct (run_ops_hist block sdb_fetch ps sdb1 Hh Er) as (ps' & Hh' & _). apply Hh'.
Qed.

(** What [IntermediateRoot_correct] asks of a pending address, as a test. *)
Definition pending_test (s : StateDB) (a : bytes) : bool :=
  match stateObjects s !! a with
  | None => false
  | Some o => bool_decide (address o = a ∧ addrHash o = keccak256 a) && empty_storage o && bool_decide (0 <= acc_Balance (data o))
              && bool_decide (NoDup (keccak256 <$> (map_to_list (pendingStorage (finalise_slots o))).*1))
  end.

Lemma pending_test_ok s a :
  pending_test s a = true →
  pending_ok s (λ _, ∅) a ∧
  ∀ o, stateObjects s !! a = Some o → deleted o = false → 0 ≤ acc_Balance (data o).
Proof.
  unfold pending_test. destruct (stateObjects s !! a) as [o|] eqn:Ho; [|done].
  rewrite !andb_true_iff, !bool_decide_eq_true. intros [[[[Ha Hh] Hs] Hb] Hn]. split.
  - exists o. split_and!; [done|done|done|]. intros _. split; [by apply empty_storage_has|].
    by apply hashed_apart_NoDup.
  - intros ? [= <-] _. done.
Qed.

Definition sdb2 : StateDB := (Finalise true sdb1).1.

Lemma block_pending a : a ∈ stateObjectsPending sdb2 → pending_test sdb2 a = true.
Proof. apply forallb_elements. vm_compute. reflexivity. Qed.

(** The goroutines of the prefetcher have tasks when the root is asked for. *)
Example block_prefetches :
  (λ p, map (λ kv, length (sf_tasks kv.2)) (map_to_list (default ∅ (pf_fetchers p)))) <$> prefetcher sdb2
  = Some [3%nat].
Proof. vm_compute. reflexivity. Qed.

Lemma sdb2_trie : trie_map (sdb_trie sdb2) ∅.
Proof. exists None. split; [split; [|done]|apply models_empty]. vm_compute. reflexivity. Qed.

Lemma sdb1_opens : prefetcher sdb1 ≠ None →
  ∀ t, OpenTrie (originalRoot sdb1) (StateData.db sdb1) = Ok t → trie_map t ∅.
Proof.
  intros _ t. replace (originalRoot sdb1) with zeroHash by (vm_compute; reflexivity).
  simpl. unfold cdb_OpenTrie. replace (triedb _) with (triedb cdb0) by (vm_compute; reflexivity).
  rewrite empty_opens by done. intros [= <-]. apply holds_map_fresh.
Qed.

Lemma block_apart : hashed_apart (elements (stateObjectsPending sdb2)).
Proof. apply hashed_apart_NoDup. apply (bool_decide_unpack _). vm_compute. reflexivity. Qed.

Theorem IntermediateRoot_correct_witness :
  let m' := apply_updates (elements (stateObjectsPending sdb2)) id (final_entry sdb2 (λ _, ∅)) ∅ in
  ∃ s', IntermediateRoot true sdb1 = (s', Ok (root_of m')) ∧ trie_map (sdb_trie s') m'
    ∧ stateObjectsPending s' = ∅ ∧ dbErr s' = dbErr sdb2 ∧ prefetcher s' = None.
Proof.
  apply (IntermediateRoot_correct true sdb1 ∅ (λ _, ∅)).
  - apply sdb_inv_ready, sdb1_inv.
  - apply sdb2_trie.
  - apply sdb1_opens.
  - apply block_apart.
  - intros a Ha. apply pending_test_ok, block_pending, Ha.
Defined.

(** The block changes three accounts: the second is deleted, the others stored. *)
Example block_root :
  (λ a, bool_decide (is_Some (final_entry sdb2 (λ _, ∅) a))) <$> [alice; bob; replicate 20 5]
  = [true; false; true].
Proof. vm_compute. reflexivity. Qed.

(** ** Reading after the root was computed *)

Lemma block_known a : a ∈ stateObjectsPending sdb2 → slots_known sdb2 a.
Proof.
  intros Ha. apply slots_known_spec. revert a Ha. apply forallb_elements. vm_compute. reflexivity.
Qed.

Theorem IntermediateRoot_unobservable_witness :
  ∃ s' root, IntermediateRoot true sdb1 = (s', Ok root) ∧ sdb_inv s'
    ∧ (∀ q, apart_from_pending sdb2 q → (ask q s').2 = Ok (stored_view sdb2 q))
    ∧ (touched sdb2 = ∅ → ∀ d', (IntermediateRoot d' s').2 = Ok root).
Proof.
  apply (IntermediateRoot_unobservable true sdb1 ∅ (λ _, ∅)).
  - apply sdb1_inv.
  - apply sdb2_trie.
  - apply sdb1_opens.
  - apply block_apart.
  - intros a Ha. destruct (pending_test_ok _ _ (block_pending a Ha)) as [Hp Hb].
    split_and!; [exact Hp|by apply block_known|exact Hb].
  - apply hash_nonzero.
Defined.

(** The slot written by the block is committed once the root was computed. *)
Example block_commits :
  match IntermediateRoot true sdb1 with
  | (s', Ok _) => (ask (QCommittedState alice slot1) s').2
  | _ => Ok zeroHash
  end = Ok value1 ∧ touched sdb2 = ∅.
Proof. vm_compute. done. Qed.

(** ** Copies *)

Lemma sdb_fetch_starts : starts sdb_fetch.
Proof.
  destruct (StartPrefetcher_reads sdb_snap sdb_snap_inv hash_nonzero) as (s & E & _).
  unfold sdb_fetch. rewrite E. cbn [fst]. eapply starts_StartPrefetcher; [|apply hash_nonzero|exact E].
  apply (starts_New zeroHash cdb0 generating trie0);
    [reflexivity|exists true, ∅; apply holds_map_fresh|apply cdb0_inv|apply trie0_hashes|apply sdb_snap_made].
Qed.

Lemma sdb2_starts : starts sdb2.
Proof.
  apply (starts_Finalise block true sdb_fetch sdb1); [apply sdb_fetch_starts| | |].
  - refine (ends (run_ops block sdb_fetch) _). vm_compute. reflexivity.
  - intros a. apply none_missed_spec. vm_compute. reflexivity.
  - refine (ends (Finalise true sdb1) _). vm_compute. reflexivity.
Qed.

(** A second transaction, in the middle of which the state is copied. *)
Definition second : list evm_op :=
  [OpAddBalance bob 7; OpSnapshot; OpSetState alice slot1 (replicate 32 9); OpCreateAccount alice; OpRevert 0;
   OpSetNonce (replicate 20 8) 2; OpSetTransientState bob slot1 value1; OpAddRefund 3].
Definition sdb3 : StateDB := (run_ops second sdb2).1.

Theorem Copy_correct_witness :
  ∃ s' c, Copy sdb3 = (s', Ok c)
    ∧ (∀ q, (ask q s').2 = (ask q sdb3).2)
    ∧ (∀ q, q ≠ QTxIndex →
         (∀ a, about q = Some a → replaced sdb3 a → a ∈ touched sdb3 ∨ marked sdb3 a) →
         (ask q c).2 = (ask q sdb3).2)
    ∧ stateObjectsDestruct c = stateObjectsDestruct sdb3
    ∧ (∀ a, marked c a ↔ marked sdb3 a ∨ a ∈ touched sdb3 ∧ is_Some (stateObjects sdb3 !! a))
    ∧ settled c.
Proof.
  apply (Copy_correct sdb2 second sdb3); [apply sdb2_starts|].
  refine (ends (run_ops second sdb2) _). vm_compute. reflexivity.
Defined.

(** An account in the trie is replaced and not touched again: the copy still
    shows the old one. *)
Definition stored_alice : @trie state_trie_ops :=
  (trie_TryUpdateAccount alice (MkStateAccount 5 10 EmptyRootHash EmptyCodeHash) trie0).1.
Definition replacing : StateDB := (run_op (OpCreateAccount alice) (upd_trie (λ _, stored_alice) sdb0)).1.

Example Copy_forgets_replaced :
  (GetNonce alice replacing).2 = Ok 0
  ∧ match (Copy replacing).2 with Ok c => (GetNonce alice c).2 | _ => Ok 0 end = Ok 5.
Proof. vm_compute. done. Qed.

(** ** Contract code on disk *)

Definition program : bytes := [96; 1; 0].
Definition code_disk : gmap bytes bytes :=
  match Keccak256ToCid RawBinary (keccak256 program) with
  | Ok cid => {[ cid := program ]}
  | _ => ∅
  end.
Definition code_db : cachingDB := CachingDB.NewDatabase code_disk.

Theorem ContractCode_correct_witness :
  (let '(db', r) := cdb_ContractCode (keccak256 program) code_db in
   r = Ok program ∧ code_coherent db' ∧ cdb_disk db' = code_disk ∧ triedb db' = triedb code_db)
  ∧ (let '(db', r) := cdb_ContractCodeSize (keccak256 program) code_db in
     r = Ok 3 ∧ code_coherent db' ∧ cdb_disk db' = code_disk ∧ triedb db' = triedb code_db).
Proof.
  assert (read_code (keccak256 program) (cdb_disk code_db) = Ok program) as E by (vm_compute; reflexivity).
  pose proof (ContractCode_correct (keccak256 program) code_db) as Hc. rewrite E in Hc.
  apply Hc. split; intros h c; simpl; by rewrite lookup_empty.
Defined.

(** ** A prefetcher at work *)

(** Keys are prefetched from the empty account trie, copied and asked for; a
    storage trie that is not in the store is asked for in vain. *)
Definition session : list use :=
  [UsePrefetch zeroHash zeroHash [alice; bob; alice]; UseCopy zeroHash zeroHash;
   UsePrefetch (keccak256 alice) (keccak256 bob) [slot1]; UseTrie zeroHash zeroHash;
   UseTrie (keccak256 alice) (keccak256 bob); UseUsed zeroHash zeroHash [alice]].

Example session_answers :
  match (run_uses cdb0 session (newTriePrefetcher zeroHash)).2 with
  | Ok answers => (λ ot : option (@trie state_trie_ops), bool_decide (is_Some ot)) <$> answers
  | _ => []
  end = [false; true; false; true; false; false].
Proof. vm_compute. reflexivity. Qed.

Theorem prefetcher_transparent_witness :
  ∃ p answers, run_uses cdb0 session (newTriePrefetcher zeroHash) = (p, Ok answers)
    ∧ Forall2 (λ u ot, ∀ t, ot = Some t →
        ∃ t0, open_trie cdb0 zeroHash (use_owner u) (use_root u) = Ok t0 ∧ reads_of t0 t) session answers
    ∧ (pf_close cdb0 p).2 = Ok tt.
Proof.
  apply (prefetcher_transparent cdb0 zeroHash); [apply cdb0_inv|].
  repeat constructor; vm_compute; reflexivity.
Defined.

(** A subfetcher with three tasks, one of them twice. *)
Definition busy : @subfetcher state_trie_ops :=
  schedule [alice; bob; alice] (newSubfetcher zeroHash zeroHash zeroHash).

Lemma busy_reached : reached cdb0 zeroHash zeroHash zeroHash 3 0 busy.
Proof. exact (reached_schedule cdb0 zeroHash zeroHash zeroHash 0 0 [alice; bob; alice] _ (reached_new _ _ _ _)). Qed.

Theorem subfetcher_drains_witness :
  ∃ clock' sf', run_moves 7 cdb0 (0%nat, busy) = ((clock', sf'), Ok tt)
    ∧ sf_at sf' = Waiting ∧ sf_tasks sf' = [] ∧ (∀ k, k ∈ backlog busy → k ∈ sf_seen sf')
    ∧ one_move false cdb0 (clock', sf') = ((clock', sf'), Ok None).
Proof.
  apply (subfetcher_drains cdb0 zeroHash zeroHash zeroHash) with (n := 3%nat) (d := 0%nat) (t := trie0).
  - apply cdb0_inv.
  - apply busy_reached.
  - done.
  - done.
  - reflexivity.
  - simpl. lia.
Defined.

(** It opens the trie, takes its tasks and loads the first; then a copy is asked
    for, which costs the second. *)
Definition next (wanted : bool) (sf : @subfetcher state_trie_ops) : @subfetcher state_trie_ops :=
  (one_move wanted cdb0 (0%nat, sf)).1.2.
Definition asked : @subfetcher state_trie_ops := next true (next false (next false (next false busy))).

Lemma next_reached wanted n d k sf :
  reached cdb0 zeroHash zeroHash zeroHash n d sf →
  match (one_move wanted cdb0 (0%nat, sf)).2 with Ok (Some c) => Some (lost sf c) | _ => None end = Some k →
  reached cdb0 zeroHash zeroHash zeroHash n (d + k) (next wanted sf).
Proof.
  intros Hr. unfold next. destruct (one_move wanted cdb0 (0%nat, sf)) as [[c sf'] [[copied|]| | |]] eqn:E; try done.
  intros [= <-]. simpl. by eapply (reached_one_move cdb0 zeroHash zeroHash zeroHash _ _ wanted 0).
Qed.

Lemma asked_reached : reached cdb0 zeroHash zeroHash zeroHash 3 1 asked.
Proof.
  apply (next_reached true 3 0 1); [|vm_compute; reflexivity].
  do 3 (apply (next_reached false 3 0 0); [|vm_compute; reflexivity]).
  apply busy_reached.
Qed.

Theorem tasks_accounted_witness : (tally asked + Z.of_nat 1 = Z.of_nat 3)%Z.
Proof. apply (tasks_accounted cdb0 zeroHash zeroHash zeroHash 3 1 asked), asked_reached. Defined.

(** ** Iterating over storage *)

Definition slot2 : bytes := replicate 32 6.
Definition value2 : bytes := replicate 32 7.

(** Two slots are stored; one of them has been written again. *)
Definition storage_reader : trieReader := db_reader (keccak256 alice) StorageTrieCodec (triedb cdb0).
Definition fresh_storage : @trie state_trie_ops :=
  MkStateTrie (MkTrie nilNode (keccak256 alice) 0 storage_reader newTracer) ∅ false.
Definition stored : @trie state_trie_ops :=
  (st_TryUpdate slot2 (rlp_WriteBytes value2) (st_TryUpdate slot1 (rlp_WriteBytes value1) fresh_storage).1).1.
Definition stored_map : gmap bytes bytes :=
  <[keccak256 slot2 := rlp_WriteBytes value2]> (<[keccak256 slot1 := rlp_WriteBytes value1]> ∅).
Definition account_with_slots : @stateObject state_trie_ops :=
  upd_dirty <[slot2 := value1]> (upd_obj_trie (λ _, Some stored) (newObject alice zeroAccount)).

(** The account trie knows the keys behind the two hashes. *)
Definition knowing : @trie state_trie_ops :=
  MkStateTrie (inner trie0) {[keccak256 slot1 := slot1; keccak256 slot2 := slot2]} true.
Definition sdb_slots : StateDB := upd_objects <[alice := account_with_slots]> (upd_trie (λ _, knowing) sdb0).

Lemma stored_holds : @trie_map _ _ _ _ state_trie_map stored stored_map.
Proof.
  assert (st_holds true false ∅ fresh_storage) as H0 by apply holds_map_fresh.
  destruct (st_TryUpdate_lemma ∅ fresh_storage slot1 (rlp_WriteBytes value1) H0) as [_ H1]; [done|].
  destruct (st_TryUpdate_lemma _ _ slot2 (rlp_WriteBytes value2) H1) as [_ H2]; [done|]. exact H2.
Qed.

Lemma stored_ok : @iter_ok _ _ _ _ _ _ state_trie_iter_laws stored.
Proof.
  assert (st_reader stored = storage_reader) as E by reflexivity.
  change (decodes (st_reader stored)). rewrite E. apply db_reader_decodes.
Qed.

Lemma sdb_slots_inv : sdb_inv sdb_slots.
Proof.
  destruct sdb0_well_formed as [ps Hh]. assert (sdb_inv sdb0) as Hs by apply Hh. destruct Hs.
  assert (st_holds true true ∅ knowing) as Hk by apply holds_map_fresh.
  split; try done.
  intros a o. simpl. intros [[<- <-]|[_ E]]%lookup_insert_Some; [|by rewrite lookup_empty in E].
  split; [done|done| |by vm_compute|by vm_compute]. intros t Ht.
  change (Some stored = Some t) in Ht. apply (inj Some) in Ht. rewrite <- Ht.
  exists false, stored_map. apply stored_holds.
Qed.

(** The caller collects what it is shown. *)
Definition note (key value : bytes) (c : list (bytes * bytes)) : list (bytes * bytes) * bool :=
  (c ++ [(key, value)], true).

Theorem ForEachStorage_correct_witness :
  ∃ l bound, l ≡ₚ map_to_list stored_map ∧ StronglySorted key_order l
    ∧ seen (ForEachStorage note (S bound) (S bound) alice (sdb_slots, []))
      = visit_all note (key_of (getStateObject alice sdb_slots).1) (dirtyStorage account_with_slots) l [].
Proof.
  pose proof (ForEachStorage_correct note sdb_slots alice [] sdb_slots_inv) as Hf.
  assert (live (obj_at sdb_slots alice) = Some account_with_slots) as El by reflexivity. rewrite El in Hf.
  destruct (Hf stored stored_map eq_refl stored_holds stored_ok) as (l & bound & Hl & Hs & Hr).
  { intros _. apply (bool_decide_unpack _). vm_compute. exact I. }
  exists l, bound. split; [exact Hl|]. split; [exact Hs|]. apply Hr; apply Nat.lt_succ_diag_r.
Defined.

(** The stored value of the first slot, the written value of the second. *)
Example ForEachStorage_shows :
  seen (ForEachStorage note 9 9 alice (sdb_slots, [])) = ([(slot1, value1); (slot2, value1)], Ok tt)
  ∨ seen (ForEachStorage note 9 9 alice (sdb_slots, [])) = ([(slot2, value1); (slot1, value1)], Ok tt).
Proof. vm_compute. (left; reflexivity) || (right; reflexivity). Qed.

(** ** What the block leaves when it is finalised *)

Theorem Finalise_correct_witness :
  ∃ s', Finalise true sdb1 = (s', Ok tt) ∧ sdb_inv s'
    ∧ (ask (QCommittedState alice slot1) s').2 = Ok value1 ∧ (ask (QExist bob) s').2 = Ok false
    ∧ (ask (QBalance alice) s').2 = Ok 10 ∧ validRevisions s' = [].
Proof.
  destruct (Finalise_correct true sdb1 sdb1_inv) as (s' & E & Hs & Hq & _ & _ & _ & _ & Hv).
  exists s'. split; [exact E|]. split; [exact Hs|].
  rewrite (Hq (QCommittedState alice slot1)), (Hq (QExist bob)), (Hq (QBalance alice)).
  split; [vm_compute; reflexivity|]. split; [vm_compute; reflexivity|].
  split; [vm_compute; reflexivity|exact Hv].
Defined.
