(* ===== verification/LeafWitness.v ===== *)
(** * The properties of direct_by_leaf at work

    Leaf tables with a contract and one of its slots, a StateDB of
    trie_by_cid/state that sees the same through a snapshot, and a transaction on
    both. *)
From S2P Require Import Prelude Errors Geth Node Tracer Reader Trie TrieSpec NodeSet Database Persist.
From S2P Require Import LeafData LeafDatabase LeafObject LeafDB SecureTrie CachingDB AccessList.
From S2P Require Import StateOps Prefetcher StateData StateObject StateDB StateView StateReads Revert Undo Snapshot.
From S2P Require Import LeafSim LeafOps LeafObjects LeafSpec LeafFinalise StateWitness.
Import Standin.
Local Open Scope Z_scope.

(** ** The tables *)

Definition contract_row : StateAccountResult :=
  MkStateAccountResult [49; 48; 48] 2 (keccak256 program) EmptyRootHash false.
Definition row (h : bytes) : option StateAccountResult :=
  if bool_decide (h = keccak256 alice) then Some contract_row else None.
Definition slot_row (h k : bytes) : option bytes :=
  if bool_decide (h = keccak256 alice ∧ k = keccak256 slot1) then Some (enc_string value1) else None.

#[export] Instance table_ops : SqlOps := {|
  sqldb := gmap bytes bytes;
  GetContractCode k d := match d !! k with Some c => Ok c | None => Err ErrNoRows end;
  GetStateAccount h _ _ := match row h with Some r => Ok r | None => Err ErrNoRows end;
  GetStorageSlot h k _ _ :=
    match slot_row h k with Some v => Ok (MkStorageSlotResult v false false) | None => Err ErrNoRows end;
  Hash_Hex h := h;
  HexToHash s := BytesToHash s;
  cid_String c := c
|}.

Lemma standin_length b : length (BytesToHash b) = hashLen.
Proof.
  simpl. case_bool_decide as Hl; [done|]. rewrite length_app, length_replicate, length_drop. unfold hashLen. lia.
Qed.

#[export] Instance table_laws : SqlLaws.
Proof.
  split; simpl.
  - intros k d. by destruct (d !! k).
  - intros a b d. by destruct (row a).
  - intros a k b d. by destruct (slot_row a k).
  - apply standin_length.
  - intros h Hh. by rewrite bool_decide_true.
Qed.

(** ** The tries and their snapshot *)

#[export] Instance flat_ops : SnapOps := {|
  snapTree := unit;
  snapshot := unit;
  Tree_Snapshot _ _ := Some tt;
  Snap_Account _ h := Some ((λ _, MkSnapAccount 2 100 [] (keccak256 program)) <$> row h);
  Snap_Storage _ h k := Some (default [] (slot_row h k));
  SlimAccountRLP _ _ _ _ := []
|}.
#[export] Instance flat_laws : SnapLaws.
Proof. split. intros s h a. simpl. destruct (row h); [|done]. intros [= <-]. by right. Qed.

Lemma code_disk_tries codec h : trie_codec codec → code_disk !! (1 :: codec :: h) = None.
Proof. intros [-> | ->]; unfold code_disk; simpl; by rewrite lookup_singleton_ne by (intros [=]). Qed.

Lemma code_db_inv : caching_inv code_db.
Proof.
  split; [|split; intros h c; simpl; by rewrite lookup_empty].
  intros codec owner root Hcodec Hz He rd. left. unfold rd, nodeBlob. simpl. unfold Node. simpl.
  case_bool_decide as Hh; simpl; [by eexists|]. rewrite lookup_singleton_ne by done. simpl.
  rewrite code_disk_tries by done. by eexists.
Qed.

Definition sd0 : @leafdb state_database_ops := NewStateDatabase code_disk.
Definition block0 : bytes := replicate 32 9.

Definition db1 : @database state_trie_ops caching_db_ops := code_db.
Definition trees1 : option (@snapTree flat_ops) := Some tt.
Definition trie1 : @trie state_trie_ops :=
  MkStateTrie (MkTrie nilNode zeroHash 0 (db_reader zeroHash StateTrieCodec (triedb code_db)) newTracer) ∅ false.
Definition T0 : StateData.StateDB :=
  @MkStateDB state_trie_ops caching_db_ops flat_ops db1 None trie1 zeroHash
    trees1 (Some tt) ∅ ∅ ∅ ∅ ∅ ∅ None 0 zeroHash 0 ∅ 0 ∅ newAccessList ∅ newJournal [] 0 0 0 0 0.
Definition l0 : LeafData.StateDB :=
  @LeafData.MkStateDB state_database_ops sd0 block0 ∅ ∅ ∅ ∅ None 0 zeroHash 0 ∅ 0 ∅ newAccessList ∅
    LeafData.newJournal [] 0.

Lemma l0_New : LeafDB.New block0 sd0 = Ok l0.
Proof. reflexivity. Qed.

Lemma T0_New : StateDB.New zeroHash db1 trees1 = Ok T0.
Proof. reflexivity. Qed.

Lemma T0_inv : sdb_inv T0.
Proof.
  assert (st_holds true true ∅ trie1) as Ht by apply holds_map_fresh.
  destruct (New_well_formed zeroHash db1 trees1 trie1) as (s & E & [ps Hh]).
  - reflexivity.
  - by exists true, ∅.
  - apply code_db_inv.
  - intros a acc E. destruct (st_TryGetAccount_lemma true ∅ trie1 a Ht) as [E' _].
    simpl in E, E'. congruence.
  - rewrite T0_New in E. injection E as <-. apply Hh.
Qed.

(** ** The tables hold what the snapshot does *)

Lemma slot_row_other h k : h ≠ keccak256 alice → slot_row h k = None.
Proof. intros Hh. unfold slot_row. rewrite bool_decide_false; [done|]. intros [E _]. exact (Hh E). Qed.

Lemma account_T0 a : account_at T0 a = snap_account <$> ((λ _, MkSnapAccount 2 100 [] (keccak256 program)) <$> row (keccak256 a)).
Proof. reflexivity. Qed.

Lemma account_L0 a : account0 sd0 block0 a = (λ _, MkStateAccount 2 100 EmptyRootHash (keccak256 program)) <$> row (keccak256 a).
Proof.
  assert (ldb_StateAccount (keccak256 a) block0 sd0
    = match row (keccak256 a) with
      | Some _ => Ok (Some (MkStateAccount 2 100 EmptyRootHash (keccak256 program)))
      | None => Err ErrNoRows
      end) as E.
  { change (ldb_StateAccount (keccak256 a) block0 sd0) with (sd_StateAccount (keccak256 a) block0 sd0).
    unfold sd_StateAccount, GetStateAccount, table_ops, row. change (Hash_Hex (keccak256 a)) with (keccak256 a).
    case_bool_decide; [|done]. clear. vm_compute. reflexivity. }
  unfold account0. rewrite E. by destruct (row _).
Qed.

Lemma slot_T0 o d a k :
  addrHash o = keccak256 a → pendingStorage o = ∅ → originStorage o = ∅ → d = false →
  committed (env0 T0 d a) o k = default zeroHash ((λ enc, (slot_value enc).1) <$> slot_row (keccak256 a) (keccak256 k)).
Proof.
  intros Ha Hp Ho ->. unfold committed. rewrite Hp, Ho, !lookup_empty.
  rewrite bool_decide_false by apply not_elem_of_empty.
  assert (stored_slot (env0 T0 false a) o k = Some (default [] (slot_row (keccak256 a) (keccak256 k)))) as ->.
  { unfold stored_slot. rewrite Ha. reflexivity. }
  by destruct (slot_row _ _).
Qed.

Lemma slot_L0 a k :
  slot0 sd0 block0 a k = default zeroHash ((λ enc, (slot_value enc).1) <$> slot_row (keccak256 a) (keccak256 k)).
Proof.
  assert (ldb_StorageValue (keccak256 a) (keccak256 k) block0 sd0
    = match slot_row (keccak256 a) (keccak256 k) with Some enc => Ok enc | None => Err ErrNoRows end) as E.
  { change (ldb_StorageValue (keccak256 a) (keccak256 k) block0 sd0)
      with (sd_StorageValue (keccak256 a) (keccak256 k) block0 sd0).
    unfold sd_StorageValue, GetStorageSlot, table_ops. change (Hash_Hex (keccak256 a)) with (keccak256 a).
    change (Hash_Hex (keccak256 k)) with (keccak256 k). by destruct (slot_row _ _). }
  unfold slot0. rewrite E. by destruct (slot_row _ _).
Qed.

Lemma tables_T0 : tables_agree sd0 block0 T0.
Proof.
  split.
  - intros a. rewrite account_T0, account_L0. unfold row.
    case_bool_decide as Ha; [|done]. clear. split_and!; vm_compute; reflexivity.
  - intros a k. rewrite slot_L0, account_T0. unfold row. case_bool_decide as Ha.
    + symmetry. by apply slot_T0.
    + by rewrite slot_row_other.
  - intros a k. rewrite account_T0. unfold row. case_bool_decide as Ha; [done|]. intros _.
    rewrite slot_T0 with (a := a) by done. by rewrite slot_row_other.
  - intros h. unfold code0. simpl. unfold sd_ContractCode, cdb_ContractCode, load_code. simpl.
    rewrite !lookup_empty. unfold LeafDatabase.read_code, CachingDB.read_code. simpl.
    by destruct (code_disk !! _) as [[|]|].
Qed.

(** ** A transaction on both *)

Definition leaf_before : list evm_op :=
  [OpAsk (QState alice slot1); OpSetState alice slot1 (replicate 32 8); OpCreateAccount bob;
   OpAddBalance bob 10; OpAsk (QCode alice)].
Definition leaf_after (id : Z) : list evm_op :=
  [OpSetState alice slot1 value1; OpSuicide alice; OpSetCode bob (Some [96; 0]); OpAddSlot bob slot1; OpSnapshot;
   OpAddRefund 5; OpSetTransientState bob slot1 value1; OpRevert id; OpAddLog (StateData.MkLog [7] [] 0 0 0 [])].

Lemma bob_storageless : storageless sd0 block0 bob.
Proof.
  intros k. rewrite slot_L0, slot_row_other; [done|]. vm_compute. intros [=].
Qed.

Lemma leaf_allowed id : Forall (op_allowed sd0 block0) (leaf_before ++ leaf_after id).
Proof. repeat (apply Forall_cons; split; [exact I || apply bob_storageless|]). by apply Forall_nil. Qed.

Lemma sd0_inv : ldb_inv sd0.
Proof. apply NewStateDatabase_coherent. Qed.

Definition ran (os : list evm_op) (l : LeafData.StateDB) : LeafData.StateDB := (leaf_ops os l).1.

Theorem leaf_simulates_trie_witness :
  Forall (λ q, (leaf_ask q (ran (leaf_before ++ leaf_after 0) l0)).2
               = (ask q (run_ops (leaf_before ++ leaf_after 0) T0).1).2)
    [QState alice slot1; QCommittedState alice slot1; QBalance bob; QCode bob; QSuicided alice; QSlot bob slot1; QLogs].
Proof.
  pose proof (leaf_simulates_trie sd0 block0 T0 l0 zeroHash db1 trees1 (leaf_before ++ leaf_after 0)
    sd0_inv T0_inv T0_New l0_New tables_T0 (leaf_allowed 0)) as Hs.
  assert ((leaf_ops (leaf_before ++ leaf_after 0) l0).2 = Ok tt) as E1 by (vm_compute; reflexivity).
  assert ((run_ops (leaf_before ++ leaf_after 0) T0).2 = Ok tt) as E2 by (vm_compute; reflexivity).
  rewrite (ends _ E1), (ends _ E2) in Hs. repeat (apply Forall_cons; split; [apply Hs|]). by apply Forall_nil.
Defined.

(** What the contract, the new account and the access list show at the end. *)
Example leaf_answers :
  let l := ran (leaf_before ++ leaf_after 0) l0 in
  (leaf_ask (QState alice slot1) l).2 = Ok value1 ∧ (leaf_ask (QCode alice) l).2 = Ok (Some program)
  ∧ (leaf_ask (QSuicided alice) l).2 = Ok true ∧ (leaf_ask (QBalance bob) l).2 = Ok 10
  ∧ (leaf_ask (QSlot bob slot1) l).2 = Ok (true, true) ∧ (leaf_ask QRefund l).2 = Ok 0.
Proof. by vm_compute. Qed.

Definition l1 : LeafData.StateDB := ran leaf_before l0.
Definition l2 : LeafData.StateDB := (LeafDB.Snapshot l1).1.
Definition l3 : LeafData.StateDB := ran (leaf_after 1) l2.

Lemma outcome {S A} (p : S * result A) r : p.2 = r → p = (p.1, r).
Proof. destruct p. simpl. by intros ->. Qed.

Lemma l1_run : leaf_ops leaf_before l0 = (l1, Ok tt).
Proof. unfold l1, ran. apply ends. vm_compute. reflexivity. Qed.
Lemma l2_run : LeafDB.Snapshot l1 = (l2, Ok 0).
Proof. unfold l2. apply outcome. vm_compute. reflexivity. Qed.
Lemma l3_run : leaf_ops (leaf_after 1) l2 = (l3, Ok tt).
Proof. unfold l3, ran. apply ends. vm_compute. reflexivity. Qed.

Theorem leaf_RevertToSnapshot_correct_witness :
  ∃ l4, LeafDB.RevertToSnapshot 0 l3 = (l4, Ok tt) ∧ ∀ q, (leaf_ask q l4).2 = (leaf_ask q l1).2.
Proof.
  apply (leaf_RevertToSnapshot_correct sd0 block0 T0 l0 zeroHash db1 trees1 leaf_before l1 0 l2 (leaf_after 1) l3
    sd0_inv T0_inv T0_New l0_New tables_T0 (leaf_allowed 1) l1_run l2_run l3_run).
  apply (bool_decide_eq_true_1 (0 ∈ LeafData.rev_id <$> LeafData.validRevisions l3)). vm_compute. reflexivity.
Defined.

(** ** A slot that is written and finalised *)

Definition written : LeafData.StateDB := ran [OpSetState alice slot1 (replicate 32 8)] l0.
Definition contract : LeafData.stateObject :=
  default (LeafObject.newObject alice zeroAccount block0) (LeafData.stateObjects written !! alice).

Theorem leaf_Finalise_forgets_witness :
  (LeafDB.GetState alice slot1 written).2 = Ok (replicate 32 8)
  ∧ ∃ l' o', LeafDB.Finalise true written = (l', Ok tt) ∧ (LeafDB.GetState alice slot1 l').2 = Ok value1
    ∧ LeafData.stateObjects l' !! alice = Some o'
    ∧ LeafData.pendingStorage o' = LeafData.dirtyStorage contract ∪ LeafData.pendingStorage contract.
Proof.
  split; [vm_compute; reflexivity|].
  apply (leaf_Finalise_forgets true written alice contract slot1 value1).
  - vm_compute. reflexivity.
  - apply (bool_decide_unpack _). vm_compute. exact I.
  - vm_compute. reflexivity.
  - vm_compute. reflexivity.
  - vm_compute. reflexivity.
  - vm_compute. reflexivity.
Defined.

Theorem leaf_Finalise_correct_witness :
  ∃ l', LeafDB.Finalise true written = (l', Ok tt)
    ∧ finalises true (dom (LeafData.dirties (LeafData.jrnl written))) written l'
    ∧ LeafData.entries (LeafData.jrnl l') = [] ∧ LeafData.validRevisions l' = [] ∧ LeafData.refund l' = 0.
Proof.
  assert (match LeafData.entries (LeafData.jrnl written) with [] => LeafData.refund written | _ => 0 end = 0) as Er
    by (vm_compute; reflexivity).
  pose proof (leaf_Finalise_correct true written) as Hf. rewrite Er in Hf. exact Hf.
Defined.

(** ** The row of the contract *)

Definition contract_account : StateAccount := MkStateAccount 2 100 EmptyRootHash (keccak256 program).

Theorem StateAccount_roundtrip_witness :
  sd_StateAccount (keccak256 alice) block0 sd0 = Ok (Some contract_account).
Proof.
  pose proof (StateAccount_roundtrip (keccak256 alice) block0 sd0 contract_account) as Hrow.
  assert (GetStateAccount (Hash_Hex (keccak256 alice)) (Hash_Hex block0) (sd_db sd0) = Ok (account_row contract_account))
    as E by (vm_compute; reflexivity).
  rewrite E in Hrow. apply Hrow; vm_compute; reflexivity.
Defined.
